(* ===== verification/_CoqProject ===== *)
-Q . S2P
Prelude.v
Leb128.v
Double.v
Bytecode.v
QtLib.v
BytecodeIO.v
BytecodeParse.v
BytecodeRoundtrip.v
SlotPool.v
LinearScan.v
Composer.v
Disasm.v
TableHeap.v
Engine.v
EngineSpec.v
EngineRun.v
TokenTree.v
LexCore.v
SyntaxTree.v
ErrorList.v
LexCoreSpec.v
ParserCore.v
ParserSpec.v
LexScanner.v
LuaToken.v
LuaLexer.v
LuaLexerSpec.v
LuaLexerWords.v
LjasToken.v
LjasLexer.v
LjasLexerSpec.v
LjasTree.v
LjasGrammar.v
LjasParser.v
LjasParserSpec.v
LjasSource.v
Assembler.v
AsmStat.v
AsmAlloc.v
AsmGen.v
AsmSpec.v
AsmUpvals.v
AsmCode.v
AsmDisasm.v
AsmExample.v
LuaHost.v
ExprLexer.v
ExprParser.v
ExprSpec.v
ExprLexSpec.v
ExprTotal.v
ExprEnds.v
ExprTop.v
ExprEval.v
ExprEvalSpec.v
ExprRun.v
ExprExample.v
DebugHost.v
DebugSpec.v
DebugSafe.v
HostRun.v
HostRunSpec.v
DebugExample.v
LuaTree.v
LuaGrammar.v
LuaParser.v
LuaParserSpec.v
LuaSource.v
LuaModule.v
LuaScope.v
LuaModuleSpec.v
LuaResolve.v
LuaNames.v
LuaExample.v
ModuleParse.v
LuaProject.v
LuaProjectSpec.v
