(* ===== verification/Prelude.v ===== *)
(** * Verification of LjTools

    LjTools is a set of C++/Qt tools around LuaJIT 2.0 bytecode.  This development models
    its core: the bytecode reader and writer, the composer that makes bytecode, the
    engine that interprets it, the lexer of Lua, the assembler and the disassembler, and the
    expressions of the debugger.  This header documents the whole; each file says more about
    its part.

    ** The program and where it is modelled

    The parts in the order in which data passes through them:

    - Texts become tokens.  [LuaLexer] and [LuaTokenType] (src/LuaLexer.cpp,
      src/LuaTokenType.cpp, src/LuaToken.h): [TokenTree] has what recognisers of keywords
      have in common, [LuaToken] the token types and [tokenTypeFromString], [LuaLexer] the
      lexer with its device, line, buffer and symbol table.  The tokens of the assembler
      (src/LjasTokenType.cpp, src/LjasToken.cpp) are in [LjasToken].
    - Syntax trees of assembler texts (src/LjasSynTree.cpp, [LjasTree]) are what the
      generated parser builds; the assembler starts from them.
    - The assembler (src/LjAssembler.cpp): [Assembler] has its state, names and operands,
      [AsmStat] the statements ([processStat]), [AsmAlloc] labels, register allocation and
      the checks, [AsmGen] declarations, code generation and [process].  It calls the
      composer.
    - The composer (src/LuaJitComposer.cpp): [SlotPool] has the pool of register slots,
      [LinearScan] the allocation of intervals, [Composer] the rest of [JitComposer].  It
      fills in a [JitBytecode].
    - Bytecode (src/LuaJitBytecode.cpp): [Leb128] has the variable length integers,
      [Double] the numbers, [Bytecode] the data, the instructions and the debug
      information, [BytecodeIO] [parse] and [write].
    - The disassembler (src/LjDisasm.cpp): [Disasm] turns a function back into a text for
      the assembler.
    - The engine (src/LuaJitEngine.cpp) runs a [JitBytecode]: [Engine] has its state and
      every instruction, [TableHeap] the life time of tables ([TableRef], [Table],
      [collectGarbage]).
    - The debugger evaluates expressions (src/ExpressionParser.cpp): [ExprLexer] has the
      source buffer and the lexer, [ExprParser] the parser, [ExprEval] the interpreter, which
      works on the stack of the real Lua.  [LuaHost] has the interface of Lua and what
      [Engine2] (src/Engine2.cpp) does with values on that stack.
    - [QtLib] has what the sources use of Qt.

    ** How C++ is modelled

    A method is a function of the same name on a record for its object; the comment of a
    definition names the lines it models.  Stateful code is a computation [SM S A := S ->
    option (A * S)] with the notation [x <~ m; k].  [None] is what the program does not
    define or does not survive: undefined behaviour, a failed [Q_ASSERT], an exception, or
    a loop that does not end within the fuel.  What the program reports, such as [false],
    -1 or a message, is an ordinary value: results are [bool] or [option], and messages go
    to a list, without the texts they quote.  A device that is read is the list of the
    bytes that are left.  Integers are [Z] reduced to the width of their type ([u8], [u16],
    [u32], [s32]) where the program converts.  A [double] is its 64 bit pattern.  Objects
    that are shared have addresses: functions of a bytecode file, slots, tables and frames
    of the engine, [TableRef]s, and the variables, constants and functions of the
    assembler.  A byte array is the list of its bytes; the difference between a null and an
    empty one is not kept.  Character classes are those of the C locale.

    What is not under src/ is a class: [QtLib] (byte order, text conversions, the order of
    a [QHash], conversions of [QVariant]), [LjBc] (the opcode table and field accessors of
    lj_bc.h, with the documented layout as [LjBcLaws]), [StdSort] ([std::sort], with its
    specification as [StdSortLaws]), [AsmLib] and [ExprLib] (numbers of a text), [DisLib]
    and [HostLib] (texts of numbers and variants, the codec of the locale, [pow]) and
    [LuaApi] (the C interface of Lua, with the documented effect of each function on a stack
    of values as [LuaModel] and [LuaLaws]; the limit of the stack is left out).  Each has an
    instance that satisfies its laws: [Qt_example], [LuaJIT20], [sort_example],
    [Asm_example], [X_example], [Dis_example], [Host_example], [Lua_example].

    ** Fuel

    [run_loop] of the engine takes the number of rounds, and a larger one does not change
    a result ([run_fuel_mono]); no number of rounds has undefined behaviour
    ([engine_safe]).  For the other loops the fuel is enough: the loop of [parse] takes a
    byte in each round ([parse_loop_fuel]), [nextFreeSlot] ends within 252 rounds or never
    ([nextFreeSlot_ends_or_never]), the LEB128 writer within five ([bcwrite_terminates]),
    the lexer with one step per character of a line and one per line ([tokens_faithful]),
    [processFunc] with the depth of the tree, and the parser of expressions with two more
    than the characters of the text ([expression_ends]), unless it never ends
    ([unfinished_diverges]); a function has at most 250 local variables, which is the fuel
    for the search of one.  The loop over a function body of the
    assembler does not end in the program at a child it does not expect, which is [None].

    ** What the theorems show

    - Files: [parse_write] (a written file is read back), [parse_hierarchy],
      [parse_loop_fuel], and the codecs [uleb128_roundtrip], [uleb33_roundtrip].  Also
      [isLuaJitBc_iff], and for debug information [findVar_spec], [calcVarNames_spec],
      [getFuncSlotFromUpval_total].
    - Composer: [composer_invariant], [const_slot_found], [addOp_decodes],
      [addOp_refused], [jumpToLoop_targets], [pack_unpack]; slots: [nextFreeSlot_sound],
      [release_inverse], [linear_scan_safe], [linear_scan_total], [nextFreeSlot_diverges].
    - Engine: [engine_invariant] and [engine_safe] (well-formed bytecode never has
      undefined behaviour), [for_loop], [closure_shares_slots], [table_set_get],
      [compare_branches], [bad_exits], [run_fuel_mono]; tables: [tables_never_dangle],
      [collectGarbage_exact].
    - Lexer: [tokens_faithful] (every token is what the text has at its position),
      [tokens_complete] (a text of words is lexed to these words),
      [tokenTypeFromString_longest].
    - Assembler: [jumps_resolved], [registers_safe], [fetchU_captures],
      [upvals_described], and [code_generated] (one instruction for each statement, with
      the operands of the statement).  [AsmExample] has whole programs, among them some
      that the assembler gets wrong.
    - Disassembler: [disassembled] (what the assembler makes of a statement is taken for
      the same statement again).

    - Expressions: [expression_parsed] (the text of an expression becomes its tree),
      [expression_evaluated] (from the text to the printed value, against an abstract
      evaluator), [expression_ends], and what goes wrong: [failed_parse_dangles],
      [unfinished_diverges].  [ExprExample] has texts that are not treated as meant.

    [AsmSpec] and [EngineSpec] and the files named after what they show hold the proofs;
    the files of definitions have none that need more than a few lines.

    ** Not modelled

    The lexer of the assembler comes next.  The parsers
    (src/LuaParser.cpp, src/LjasParser.cpp) are generated.  The rest is the user interface,
    the host of the real LuaJIT, and files and modules of projects.  Of the
    modelled parts the cross references of the assembler are left out, which it only
    collects for the editor, and functions that only print. *)

From Stdlib Require Export ZArith Lia Bool.
From Stdlib Require Import Strings.Byte.
From stdpp Require Export base tactics decidable option list numbers strings gmap sorting.

#[global] Open Scope Z_scope.

(** ** Machine integers *)

(** Values of the unsigned types [quint8], [quint16] and [quint32], and of the
    signed types [char]/[qint8], [qint16] and [qint32]: a mathematical integer
    reduced to the width of the type. *)
Definition u8 (z : Z) : Z := z mod 2 ^ 8.
Definition u16 (z : Z) : Z := z mod 2 ^ 16.
Definition u32 (z : Z) : Z := z mod 2 ^ 32.
Definition sgn (w z : Z) : Z :=
  let m := z mod 2 ^ w in if m <? 2 ^ (w - 1) then m else m - 2 ^ w.
Definition s8 (z : Z) : Z := sgn 8 z.
Definition s16 (z : Z) : Z := sgn 16 z.
Definition s32 (z : Z) : Z := sgn 32 z.

(** Arithmetic goals about the conversions above. *)
Ltac width :=
  unfold s8, s16, s32, sgn, u8, u16, u32 in *;
  repeat match goal with
    | |- context [if ?a <? ?b then _ else _] => destruct (Z.ltb_spec a b)
    | H : context [if ?a <? ?b then _ else _] |- _ => destruct (Z.ltb_spec a b)
    end;
  Z.to_euclidean_division_equations; lia.

Lemma u8_small z : 0 <= z < 2 ^ 8 -> u8 z = z.
Proof. apply Z.mod_small. Qed.
Lemma u16_small z : 0 <= z < 2 ^ 16 -> u16 z = z.
Proof. apply Z.mod_small. Qed.
Lemma u32_small z : 0 <= z < 2 ^ 32 -> u32 z = z.
Proof. apply Z.mod_small. Qed.
Lemma u8_range z : 0 <= u8 z < 2 ^ 8.
Proof. apply Z.mod_pos_bound; lia. Qed.
Lemma u16_range z : 0 <= u16 z < 2 ^ 16.
Proof. apply Z.mod_pos_bound; lia. Qed.
Lemma u32_range z : 0 <= u32 z < 2 ^ 32.
Proof. apply Z.mod_pos_bound; lia. Qed.
Lemma s16_small z : - 2 ^ 15 <= z < 2 ^ 15 -> s16 z = z.
Proof. intros; width. Qed.
Lemma s32_small z : - 2 ^ 31 <= z < 2 ^ 31 -> s32 z = z.
Proof. intros; width. Qed.
Lemma s32_u32 z : s32 (u32 z) = s32 z.
Proof. unfold s32, sgn, u32. by rewrite Zmod_mod. Qed.
Lemma u32_s32 z : u32 (s32 z) = u32 z.
Proof. width. Qed.

(** ** Bits *)
Lemma lor_shiftl_add a b n :
  0 <= n -> 0 <= a < 2 ^ n -> Z.lor a (Z.shiftl b n) = a + b * 2 ^ n.
Proof.
  intros Hn Ha. rewrite Z.shiftl_mul_pow2 by lia.
  assert (Z.land a (b * 2 ^ n) = 0) as Hz.
  { apply Z.bits_inj'. intros i Hi. rewrite Z.land_spec, Z.bits_0.
    destruct (Z.lt_ge_cases i n) as [Hlt|Hge].
    - rewrite Z.mul_pow2_bits_low by lia. apply andb_false_r.
    - rewrite <- (Z.mod_small a (2 ^ n)) by lia.
      by rewrite Z.mod_pow2_bits_high by lia. }
  pose proof (Z.add_lor_land a (b * 2 ^ n)). lia.
Qed.

Lemma land_ones_mod a n : 0 <= n -> Z.land a (2 ^ n - 1) = a mod 2 ^ n.
Proof.
  intros. rewrite <- Z.land_ones by lia.
  by rewrite Z.ones_equiv, Z.sub_1_r.
Qed.

Lemma land_127 a : Z.land a 127 = a mod 128.
Proof. apply (land_ones_mod a 7); lia. Qed.
Lemma land_255 a : Z.land a 255 = a mod 256.
Proof. apply (land_ones_mod a 8); lia. Qed.

(** ** Byte arrays *)

(** A [QByteArray], and the content of a device, is a list of bytes. *)
Abbreviation bytes := (list byte).

#[export] Instance byte_eq_dec : EqDecision byte := Byte.byte_eq_dec.
#[export] Program Instance byte_countable : Countable byte :=
  inj_countable Byte.to_N Byte.of_N _.
Next Obligation. intros b. apply Byte.of_to_N. Qed.
Lemma eqb_eq a b : Byte.eqb a b = true -> a = b.
Proof. apply Byte.byte_dec_bl. Qed.
Lemma eqb_refl a : Byte.eqb a a = true.
Proof. by apply Byte.byte_dec_lb. Qed.

(** The value of a byte as [quint8], as (signed) [char], and the byte stored
    by a conversion to [char]. *)
Definition ubyte (b : byte) : Z := Z.of_N (Byte.to_N b).
Definition schar (b : byte) : Z := s8 (ubyte b).
Definition zbyte (z : Z) : byte :=
  match Byte.of_N (Z.to_N (u8 z)) with Some b => b | None => x00 end.

(** A C++ string literal as a byte array. *)
Definition qb (s : String.string) : bytes := String.list_byte_of_string s.

#[global] Arguments ubyte : simpl never.
#[global] Arguments schar : simpl never.
#[global] Arguments zbyte : simpl never.
#[global] Arguments qb : simpl never.

Lemma ubyte_range b : 0 <= ubyte b < 256.
Proof. unfold ubyte. destruct b; simpl; lia. Qed.
Lemma ubyte_inj a b : ubyte a = ubyte b -> a = b.
Proof.
  intros H. apply N2Z.inj in H.
  pose proof (Byte.of_to_N a) as Ha. pose proof (Byte.of_to_N b) as Hb.
  rewrite H in Ha. congruence.
Qed.
Lemma ubyte_zbyte z : ubyte (zbyte z) = u8 z.
Proof.
  unfold zbyte. pose proof (u8_range z) as Hr.
  destruct (Byte.of_N (Z.to_N (u8 z))) as [b|] eqn:E.
  - unfold ubyte. apply Byte.to_of_N in E. rewrite E. lia.
  - apply Byte.of_N_None_iff in E. lia.
Qed.
Lemma zbyte_ubyte b : zbyte (ubyte b) = b.
Proof.
  apply ubyte_inj. rewrite ubyte_zbyte. apply u8_small.
  pose proof (ubyte_range b). lia.
Qed.
Lemma zbyte_u8 z : zbyte (u8 z) = zbyte z.
Proof. apply ubyte_inj. rewrite !ubyte_zbyte. width. Qed.

(** [QByteArray] comparison: lexical, by unsigned bytes. *)
Fixpoint bytes_ltb (a b : bytes) : bool :=
  match a, b with
  | _, [] => false
  | [], _ :: _ => true
  | x :: a, y :: b => (ubyte x <? ubyte y) || ((ubyte x =? ubyte y) && bytes_ltb a b)
  end.

(** The classes of characters of the C locale. *)
Definition in_range (a b : byte) (c : byte) : bool := (ubyte a <=? ubyte c) && (ubyte c <=? ubyte b).
Definition isdigit (c : byte) : bool := in_range "0" "9" c.
Definition isalpha (c : byte) : bool := in_range "a" "z" c || in_range "A" "Z" c.
Definition isalnum (c : byte) : bool := isalpha c || isdigit c.
Definition isspace (c : byte) : bool := in_range x09 x0d c || Byte.eqb c " ".

(** An [int] in decimal. *)
Fixpoint digits (fuel : nat) (z : Z) : bytes :=
  match fuel with
  | O => []
  | S fuel => (if z <? 10 then [] else digits fuel (z / 10)) ++ [zbyte (48 + z mod 10)]
  end.
Definition decimal (z : Z) : bytes := if z <? 0 then "-"%byte :: digits 10 (- z) else digits 10 z.

Create HintDb ljtools.
Create Rewrite HintDb ljtools.
#[export] Hint Rewrite ubyte_zbyte zbyte_ubyte zbyte_u8 s32_u32 u32_s32 land_127 land_255 : ljtools.
#[export] Hint Resolve ubyte_range u8_range u16_range u32_range : ljtools.

(** ** Computations that may have undefined behaviour

    [None] stands for undefined behaviour of the C++ program (an access outside
    of a buffer, a shift by the width of the type, a failed [Q_ASSERT]); error
    results of the program are ordinary values.  A computation changes a state; a
    reader is one whose state is what is left of a device. *)
Definition SM (S A : Type) : Type := S -> option (A * S).
Abbreviation Rd := (SM bytes).
Definition rret {S A} (x : A) : SM S A := fun s => Some (x, s).
Definition rbind {S A B} (m : SM S A) (f : A -> SM S B) : SM S B :=
  fun s => match m s with Some (x, s') => f x s' | None => None end.
(** A failed assertion. *)
Definition rfail {S A} : SM S A := fun _ => None.
Definition rget {S A} (f : S -> A) : SM S A := fun s => Some (f s, s).
Definition rmod {S} (f : S -> S) : SM S unit := fun s => Some (tt, f s).

(** A loop over the elements of a list. *)
Fixpoint mfor {S A} (l : list A) (body : A -> SM S unit) : SM S unit :=
  match l with [] => rret tt | x :: l => rbind (body x) (fun _ => mfor l body) end.
Fixpoint mmap {S A B} (l : list A) (body : A -> SM S B) : SM S (list B) :=
  match l with [] => rret [] | x :: l => rbind (body x) (fun y => rbind (mmap l body) (fun ys => rret (y :: ys))) end.

(** The access through a pointer, or to an element, that may not be there. *)
Definition mderef {S A} (o : option A) : SM S A := match o with Some x => rret x | None => rfail end.
(** An assertion. *)
Definition massert {S} (b : bool) : SM S unit := if b then rret tt else rfail.

Declare Scope rd_scope.
Delimit Scope rd_scope with rd.
Notation "x <~ m ; k" := (rbind m (fun x => k))
  (at level 90, m at next level, right associativity) : rd_scope.

Lemma rbind_Some {S A B} (m : SM S A) (f : A -> SM S B) s x s' :
  m s = Some (x, s') -> rbind m f s = f x s'.
Proof. unfold rbind. by intros ->. Qed.

Lemma rbind_rret {S A B} (x : A) (k : A -> SM S B) s : rbind (rret x) k s = k x s.
Proof. done. Qed.

Lemma rbind_assoc {S A B C} (m : SM S A) (f : A -> SM S B) (g : B -> SM S C) s :
  rbind (rbind m f) g s = rbind m (fun x => rbind (f x) g) s.
Proof. unfold rbind. by destruct (m s) as [[??]|]. Qed.

Lemma rbind_inv {S A B} (m : SM S A) (k : A -> SM S B) s r :
  rbind m k s = Some r -> exists x t, m s = Some (x, t) /\ k x t = Some r.
Proof. unfold rbind. destruct (m s) as [[x t]|]; [|done]. eauto. Qed.

Ltac inv_rbind H :=
  repeat (let x := fresh "x" in let t := fresh "t" in let E := fresh "E" in
          apply rbind_inv in H as (x & t & E & H)).

(** ** Total correctness

    [wp m Q s]: the computation [m] ends in the state [s] without undefined
    behaviour, and [Q] holds of the result and the state then. *)
Definition wp {S A} (m : SM S A) (Q : A -> S -> Prop) (s : S) : Prop :=
  match m s with Some (a, s') => Q a s' | None => False end.

Section Wp.
Context {S : Type}.
Implicit Types s : S.

Lemma wp_ret {A} (a : A) (Q : A -> S -> Prop) s : Q a s -> wp (rret a) Q s.
Proof. done. Qed.
Lemma wp_get {A} (f : S -> A) (Q : A -> S -> Prop) s : Q (f s) s -> wp (rget f) Q s.
Proof. done. Qed.
Lemma wp_mod (f : S -> S) (Q : unit -> S -> Prop) s : Q tt (f s) -> wp (rmod f) Q s.
Proof. done. Qed.
Lemma wp_bind {A B} (m : SM S A) (k : A -> SM S B) (Q : B -> S -> Prop) s :
  wp m (fun a => wp (k a) Q) s -> wp (rbind m k) Q s.
Proof. unfold wp, rbind. destruct (m s) as [[a s']|]; auto. Qed.
Lemma wp_mono {A} (m : SM S A) (Q R : A -> S -> Prop) s :
  wp m Q s -> (forall a s', Q a s' -> R a s') -> wp m R s.
Proof. unfold wp. destruct (m s) as [[a s']|]; auto. Qed.
Lemma wp_Some {A} (m : SM S A) (Q : A -> S -> Prop) s :
  wp m Q s <-> exists a s', m s = Some (a, s') /\ Q a s'.
Proof.
  unfold wp. destruct (m s) as [[a s']|]; split; [by eauto| |done|].
  - by intros (a' & s'' & [= <- <-] & ?).
  - by intros (? & ? & ? & _).
Qed.
Lemma wp_deref {A} (o : option A) (x : A) (Q : A -> S -> Prop) s : o = Some x -> Q x s -> wp (mderef o) Q s.
Proof. by intros ->. Qed.
Lemma wp_assert (b : bool) (Q : unit -> S -> Prop) s : b = true -> Q tt s -> wp (massert b) Q s.
Proof. by intros ->. Qed.
(** A loop keeps what its body keeps. *)
Lemma wp_mfor {A} (l : list A) (body : A -> SM S unit) (I : S -> Prop) s :
  (forall x s, x ∈ l -> I s -> wp (body x) (fun _ => I) s) -> I s -> wp (mfor l body) (fun _ => I) s.
Proof.
  revert s. induction l as [|x l IH]; intros s Hb Hs; [done|]. apply wp_bind. eapply wp_mono; [apply Hb; [by left|done]|].
  intros u s' Hs'. apply IH; [|done]. intros y t Hy. apply Hb. by right.
Qed.
End Wp.

(** Proves a decidable property of closed terms. *)
Ltac by_decide := apply (bool_decide_unpack _); vm_compute; exact I.

(** [QIODevice::read(n)]: at most [n] bytes, and none for a negative [n]. *)
Definition dev_read (n : Z) : Rd bytes :=
  fun s => Some (take (Z.to_nat n) s, drop (Z.to_nat n) s).
(** [QIODevice::getChar]: [None] at the end of the device. *)
Definition dev_getChar : Rd (option byte) :=
  fun s => match s with [] => Some (None, []) | b :: s' => Some (Some b, s') end.

Lemma dev_read_app a s : dev_read (Z.of_nat (length a)) (a ++ s) = Some (a, s).
Proof.
  unfold dev_read. rewrite Nat2Z.id, take_app_length, drop_app_length. done.
Qed.

(** ** Multi-byte values in memory *)

(** The [n] bytes of a value in memory, least significant first; [memcpy] from
    and to a value in the byte order of the host ([be]: big endian). *)
Fixpoint le_split (n : nat) (z : Z) : bytes :=
  match n with O => [] | S n => zbyte z :: le_split n (z / 256) end.
Fixpoint le_combine (l : bytes) : Z :=
  match l with [] => 0 | b :: l => ubyte b + 256 * le_combine l end.
Definition mem_store (be : bool) (n : nat) (z : Z) : bytes :=
  if be then rev (le_split n z) else le_split n z.
Definition mem_load (be : bool) (l : bytes) : Z :=
  le_combine (if be then rev l else l).

Lemma length_le_split n z : length (le_split n z) = n.
Proof. revert z; induction n; intros; simpl; auto. Qed.
Lemma length_mem_store be n z : length (mem_store be n z) = n.
Proof. unfold mem_store. destruct be; rewrite ?length_rev; apply length_le_split. Qed.
Lemma le_combine_split n z : le_combine (le_split n z) = z mod 2 ^ (8 * Z.of_nat n).
Proof.
  revert z. induction n as [|n IH]; intros z; simpl le_split; simpl le_combine.
  - by rewrite Z.mod_1_r.
  - rewrite IH, ubyte_zbyte. unfold u8.
    replace (8 * Z.of_nat (S n)) with (8 + 8 * Z.of_nat n) by lia.
    rewrite Z.pow_add_r by lia.
    rewrite (Z.rem_mul_r z (2 ^ 8) (2 ^ (8 * Z.of_nat n))) by lia.
    change (2 ^ 8) with 256. lia.
Qed.
Lemma mem_load_store be n z : mem_load be (mem_store be n z) = z mod 2 ^ (8 * Z.of_nat n).
Proof.
  unfold mem_load, mem_store. destruct be; rewrite ?rev_involutive; apply le_combine_split.
Qed.

(** ** Lists *)
Lemma lookup_nat_lt {A} (l : list A) (i : nat) : (i < length l)%nat -> is_Some (l !! i).
Proof. apply lookup_lt_is_Some_2. Qed.

Fixpoint list_map_option {A B} (f : A -> option B) (l : list A) : option (list B) :=
  match l with
  | [] => Some []
  | x :: l => match f x, list_map_option f l with
              | Some y, Some k => Some (y :: k) | _, _ => None end
  end.

Fixpoint take_while {A} (p : A -> bool) (l : list A) : list A :=
  match l with [] => [] | x :: l => if p x then x :: take_while p l else [] end.
