(* ===== verification/Leb128.v ===== *)
(** * LEB128 codecs of the bytecode file format

    The variable-length integers of [LuaJitBytecode.cpp]: the writer
    [bcwrite_uleb128], the stream reader [bcread_uleb128], the reader on a
    buffer [debug_read_uleb128], and the 33 bit variant that carries a type bit
    in its lowest bit ([bcread_uleb128_33] and the two encoders inlined in
    [writeNumConsts]).  A shift by 32 or more is undefined behaviour. *)

From S2P Require Import Prelude.
From Stdlib Require Import Strings.Byte.
Local Open Scope Z_scope.

(** ** Definitions *)

(** [src/LuaJitBytecode.cpp:162-167] bcwrite_uleb128 *)
Fixpoint bcwrite_uleb128_loop (fuel : nat) (v : Z) : bytes :=
  match fuel with
  | O => [zbyte v]
  | S fuel =>
      if 0x80 <=? v
      then zbyte (Z.lor (Z.land v 0x7f) 0x80) :: bcwrite_uleb128_loop fuel (Z.shiftr v 7)
      else [zbyte v]
  end.

(** The argument is a [uint32_t], for which five bytes are enough.
    [src/LuaJitBytecode.cpp:162-167] bcwrite_uleb128 *)
Definition bcwrite_uleb128 (v : Z) : bytes := bcwrite_uleb128_loop 4 (u32 v).

(** [src/LuaJitBytecode.cpp:132-147] bcread_uleb128 *)
Fixpoint bcread_uleb128_loop (result shift : Z) (inp : bytes) : option (Z * bytes) :=
  match inp with
  | [] => Some (result, [])
  | byte :: inp =>
      let byte := ubyte byte in
      if 32 <=? shift then None
      else
        let result := Z.lor result (u32 (Z.shiftl (Z.land byte 0x7f) shift)) in
        if Z.land byte 0x80 =? 0 then Some (result, inp)
        else bcread_uleb128_loop result (shift + 7) inp
  end.

(** [src/LuaJitBytecode.cpp:132-147] bcread_uleb128 *)
Definition bcread_uleb128 : Rd Z := bcread_uleb128_loop 0 0.

(** [src/LuaJitBytecode.cpp:150-159] debug_read_uleb128; reads a buffer whose
    bytes from the current position on are given, running off its end is
    undefined *)
Fixpoint debug_read_uleb128_loop (v sh : Z) (p : bytes) : option (Z * bytes) :=
  match p with
  | [] => None
  | byte :: p =>
      let sh := sh + 7 in
      if 32 <=? sh then None
      else
        let v := Z.lor v (u32 (Z.shiftl (Z.land (ubyte byte) 0x7f) sh)) in
        if 0x80 <=? ubyte byte then debug_read_uleb128_loop v sh p else Some (v, p)
  end.

(** [src/LuaJitBytecode.cpp:150-159] debug_read_uleb128 *)
Definition debug_read_uleb128 : Rd Z := fun p =>
  match p with
  | [] => None
  | byte :: p =>
      let v := ubyte byte in
      if 0x80 <=? v then debug_read_uleb128_loop (Z.land v 0x7f) 0 p else Some (v, p)
  end.

(** [src/LuaJitBytecode.cpp:180-187] bcread_uleb128_33 *)
Fixpoint bcread_uleb128_33_loop (result shift : Z) (inp : bytes) : option (Z * bytes) :=
  match inp with
  | [] => Some (result, [])
  | byte :: inp =>
      let byte := ubyte byte in
      let shift := shift + 7 in
      if 32 <=? shift then None
      else
        let result := Z.lor result (u32 (Z.shiftl (Z.land byte 0x7f) shift)) in
        if Z.land byte 0x80 =? 0 then Some (result, inp)
        else bcread_uleb128_33_loop result shift inp
  end.

(** [src/LuaJitBytecode.cpp:170-190] bcread_uleb128_33 *)
Definition bcread_uleb128_33 : Rd Z := fun inp =>
  match inp with
  | [] => Some (0, [])
  | byte :: inp =>
      let result := Z.shiftr (ubyte byte) 1 in
      if 0x40 <=? result
      then bcread_uleb128_33_loop (Z.land result 0x3f) (-1) inp
      else Some (result, inp)
  end.

(** The last byte of the buffer is patched in place.
    [src/LuaJitBytecode.cpp:881-884] writeNumConsts *)
Definition patch_last (l : bytes) (hi : Z) : bytes :=
  match last l with
  | Some p => removelast l ++ [zbyte (Z.lor (Z.land (schar p) 7) (Z.land (Z.shiftr hi 27) 0x18))]
  | None => l
  end.

(** A narrowed integer [k : int32_t].
    [src/LuaJitBytecode.cpp:867-876] writeNumConsts *)
Definition write_int33 (k : Z) : bytes :=
  let tmp := bcwrite_uleb128 (Z.lor (u32 (2 * u32 k)) (Z.land (u32 k) 0x80000000)) in
  if k <? 0 then patch_last tmp k else tmp.

(** The low word of a double.
    [src/LuaJitBytecode.cpp:878-885] writeNumConsts *)
Definition write_lo33 (lo : Z) : bytes :=
  let tmp := bcwrite_uleb128 (1 + Z.lor (u32 (2 * lo)) (Z.land lo 0x80000000)) in
  if 0x80000000 <=? lo then patch_last tmp lo else tmp.

(** ** The stream reader inverts the writer *)

(** The bytes of a value in groups of seven bits, for any number of groups. *)
Fixpoint groups (n : nat) (v : Z) : bytes :=
  match n with
  | O => [zbyte v]
  | S n => if v <? 128 then [zbyte v] else zbyte (v mod 128 + 128) :: groups n (v / 128)
  end.

Lemma continuation_byte v : Z.lor (Z.land v 0x7f) 0x80 = v mod 128 + 128.
Proof.
  rewrite land_127.
  apply (lor_shiftl_add (v mod 128) 1 7); [lia|]. apply Z.mod_pos_bound; lia.
Qed.

Lemma write_loop_groups n v : bcwrite_uleb128_loop n v = groups n v.
Proof.
  revert v; induction n as [|n IH]; intros v; simpl; [done|].
  rewrite continuation_byte, IH, Z.shiftr_div_pow2 by lia. change (2 ^ 7) with 128.
  destruct (Z.leb_spec 128 v), (Z.ltb_spec v 128); [lia|done|done|lia].
Qed.

Lemma land_high b : 0 <= b < 256 -> Z.land b 0x80 = if b <? 128 then 0 else 128.
Proof.
  intros H. assert (∀ k, (k < 256)%nat ->
    Z.land (Z.of_nat k) 0x80 = if Z.of_nat k <? 128 then 0 else 128) as Hk.
  { intros k Hk. do 256 (destruct k as [|k]; [done|]). lia. }
  specialize (Hk (Z.to_nat b)). rewrite Z2Nat.id in Hk by lia. apply Hk. lia.
Qed.
#[export] Hint Resolve land_high : ljtools.

(** One group: a reader in state [(acc, shift)] adds the low seven bits. *)
Lemma accumulate acc shift b :
  0 <= shift < 32 -> 0 <= acc < 2 ^ shift -> 0 <= b -> b mod 128 * 2 ^ shift < 2 ^ 32 ->
  Z.lor acc (u32 (Z.shiftl (Z.land b 0x7f) shift)) = acc + b mod 128 * 2 ^ shift.
Proof.
  intros Hs Ha Hb Hlt. rewrite land_127.
  assert (0 <= b mod 128 * 2 ^ shift).
  { apply Z.mul_nonneg_nonneg; [apply Z.mod_pos_bound|apply Z.pow_nonneg]; lia. }
  rewrite u32_small.
  - apply lor_shiftl_add; lia.
  - rewrite Z.shiftl_mul_pow2; lia.
Qed.

Lemma read_loop_groups n acc shift v rest :
  0 <= shift -> 0 <= acc < 2 ^ shift -> 0 <= v < 2 ^ (7 * Z.of_nat (S n)) ->
  shift + 7 * Z.of_nat n < 32 -> v * 2 ^ shift < 2 ^ 32 ->
  bcread_uleb128_loop acc shift (groups n v ++ rest) = Some (acc + v * 2 ^ shift, rest).
Proof.
  revert acc shift v. induction n as [|n IH]; intros acc shift v Hs Ha Hv Hn Hlt.
  - simpl. rewrite ubyte_zbyte, u8_small, land_high by (simpl in Hv; lia).
    destruct (Z.ltb_spec v 128); [|simpl in Hv; lia].
    destruct (Z.leb_spec 32 shift); [lia|]. simpl.
    rewrite accumulate; rewrite ?Z.mod_small by lia; auto; lia.
  - assert (0 < 2 ^ shift) by (apply Z.pow_pos_nonneg; lia).
    simpl groups. destruct (Z.ltb_spec v 128) as [Hv'|Hv'].
    + simpl. rewrite ubyte_zbyte, u8_small, land_high by lia.
      destruct (Z.ltb_spec v 128); [|lia].
      destruct (Z.leb_spec 32 shift); [lia|]. simpl.
      rewrite accumulate; rewrite ?Z.mod_small by lia; auto; lia.
    + pose proof (Z.mod_pos_bound v 128 ltac:(lia)).
      simpl. rewrite ubyte_zbyte, u8_small, land_high by lia.
      destruct (Z.ltb_spec (v mod 128 + 128) 128); [lia|].
      destruct (Z.leb_spec 32 shift); [lia|]. simpl.
      assert ((v mod 128 + 128) mod 128 = v mod 128) as Hm by (Z.to_euclidean_division_equations; lia).
      assert (v = 128 * (v / 128) + v mod 128) as Hd by (apply Z.div_mod; lia).
      assert (v mod 128 * 2 ^ shift <= v * 2 ^ shift) by (apply Z.mul_le_mono_nonneg_r; lia).
      assert (2 ^ (shift + 7) = 128 * 2 ^ shift) as Hp by (rewrite Z.pow_add_r by lia; lia).
      rewrite accumulate by (rewrite ?Hm; lia). rewrite Hm, IH.
      * f_equal. f_equal. rewrite Hp. rewrite Hd at 3. ring.
      * lia.
      * rewrite Hp. nia.
      * split; [apply Z.div_pos; lia|]. apply Z.div_lt_upper_bound; [lia|].
        replace (128 * 2 ^ (7 * Z.of_nat (S n))) with (2 ^ (7 * Z.of_nat (S (S n)))); [lia|].
        replace (7 * Z.of_nat (S (S n))) with (7 + 7 * Z.of_nat (S n)) by lia.
        rewrite Z.pow_add_r by lia. lia.
      * lia.
      * rewrite Hp. nia.
Qed.

Lemma uleb128_read v rest :
  0 <= v < 2 ^ 32 -> bcread_uleb128 (bcwrite_uleb128 v ++ rest) = Some (v, rest).
Proof.
  intros Hv. unfold bcread_uleb128, bcwrite_uleb128.
  rewrite u32_small, write_loop_groups, read_loop_groups by (simpl; lia).
  f_equal. f_equal. lia.
Qed.

Lemma rbind_uleb {B} v (k : Z -> Rd B) rest :
  0 <= v < 2 ^ 32 -> rbind bcread_uleb128 k (bcwrite_uleb128 v ++ rest) = k v rest.
Proof. intros. by apply rbind_Some, uleb128_read. Qed.

(** Reading back what [bcwrite_uleb128] wrote gives the value, and leaves
    the device at the first byte after it. *)
Theorem uleb128_roundtrip v rest :
  0 <= v < 2 ^ 32 -> bcread_uleb128 (bcwrite_uleb128 v ++ rest) = Some (v, rest).
Proof. apply uleb128_read. Qed.

Lemma uleb128_roundtrip_witness :
  0 <= 624485 < 2 ^ 32 /\
  bcread_uleb128 (bcwrite_uleb128 624485 ++ [xff]) = Some (624485, [xff]).
Proof. split; [lia|]. apply (uleb128_roundtrip 624485 [xff]). lia. Defined.

(** ** Size of the encoding *)
Lemma length_groups n v : (1 <= length (groups n v) <= S n)%nat.
Proof.
  revert v; induction n as [|n IH]; intros v; simpl; [lia|].
  destruct (v <? 128); simpl; [lia|]. specialize (IH (v / 128)). lia.
Qed.

Lemma groups_fuel n m v :
  0 <= v < 2 ^ (7 * Z.of_nat (S n)) -> (n <= m)%nat -> groups m v = groups n v.
Proof.
  revert m v; induction n as [|n IH]; intros m v Hv Hm.
  - destruct m as [|m]; simpl; [done|]. simpl in Hv.
    destruct (Z.ltb_spec v 128); [done|lia].
  - destruct m as [|m]; [lia|]. simpl.
    destruct (Z.ltb_spec v 128); [done|]. f_equal. apply IH; [|lia].
    split; [apply Z.div_pos; lia|]. apply Z.div_lt_upper_bound; [lia|].
    replace (7 * Z.of_nat (S (S n))) with (7 + 7 * Z.of_nat (S n)) in Hv by lia.
    rewrite Z.pow_add_r in Hv by lia. lia.
Qed.

Lemma bcwrite_terminates_len v : (1 <= length (bcwrite_uleb128 v))%nat /\ (length (bcwrite_uleb128 v) <= 5)%nat.
Proof. unfold bcwrite_uleb128. rewrite write_loop_groups. split; apply length_groups. Qed.

(** The loop of [bcwrite_uleb128] terminates within five rounds for every
    [uint32_t]: running it longer gives the same one to five bytes. *)
Theorem bcwrite_terminates fuel v :
  (4 <= fuel)%nat -> 0 <= v < 2 ^ 32 ->
  bcwrite_uleb128_loop fuel v = bcwrite_uleb128 v /\
  (1 <= length (bcwrite_uleb128 v) <= 5)%nat.
Proof.
  intros Hf Hv. unfold bcwrite_uleb128.
  rewrite u32_small, !write_loop_groups by lia.
  split; [|apply length_groups]. apply groups_fuel; [simpl; lia|lia].
Qed.

Lemma bcwrite_terminates_witness :
  bcwrite_uleb128_loop 9 4294967295 = bcwrite_uleb128 4294967295 /\
  (1 <= length (bcwrite_uleb128 4294967295) <= 5)%nat.
Proof. apply (bcwrite_terminates 9 4294967295); lia. Defined.

(** ** The reader on a buffer *)

(** A final group ends the number inside the buffer. *)
Definition terminated (p : bytes) : Prop := Exists (fun b => ubyte b < 128) p.

Lemma high_bit_test b : (Z.land (ubyte b) 0x80 =? 0) = negb (0x80 <=? ubyte b).
Proof.
  rewrite land_high by apply ubyte_range.
  destruct (Z.ltb_spec (ubyte b) 128), (Z.leb_spec 128 (ubyte b)); done || lia.
Qed.

Lemma debug_loop_stream v sh p :
  terminated p -> debug_read_uleb128_loop v sh p = bcread_uleb128_loop v (sh + 7) p.
Proof.
  revert v sh. induction p as [|b p IH]; intros v sh Ht; [by inversion Ht|]. simpl.
  destruct (32 <=? sh + 7); [done|].
  rewrite high_bit_test. destruct (Z.leb_spec 128 (ubyte b)); simpl; [|done].
  apply IH. inversion Ht; subst; [lia|done].
Qed.

(** On every buffer in which the number ends, the reader on a buffer and
    the reader on a device give the same value, the same position after it and
    the same undefined behaviour. *)
Theorem debug_read_stream p :
  terminated p -> debug_read_uleb128 p = bcread_uleb128 p.
Proof.
  intros Ht. destruct p as [|b p]; [by inversion Ht|].
  unfold debug_read_uleb128, bcread_uleb128. simpl.
  pose proof (ubyte_range b).
  rewrite high_bit_test, land_127, Z.shiftl_0_r.
  rewrite u32_small by (Z.to_euclidean_division_equations; lia).
  destruct (Z.leb_spec 128 (ubyte b)); simpl.
  - apply debug_loop_stream. inversion Ht; subst; [lia|done].
  - by rewrite Z.mod_small by lia.
Qed.

Lemma debug_read_stream_witness :
  terminated [xe5; x8e; x26; x00] /\
  debug_read_uleb128 [xe5; x8e; x26; x00] = bcread_uleb128 [xe5; x8e; x26; x00].
Proof.
  assert (terminated [xe5; x8e; x26; x00]) as H
    by (unfold terminated; do 2 apply Exists_cons_tl; apply Exists_cons_hd; reflexivity).
  split; [exact H|]. apply (debug_read_stream _ H).
Defined.

Lemma terminated_groups n v rest :
  0 <= v < 2 ^ (7 * Z.of_nat (S n)) -> terminated (groups n v ++ rest).
Proof.
  revert v; induction n as [|n IH]; intros v Hv; simpl.
  - apply Exists_cons_hd. simpl in Hv. rewrite ubyte_zbyte, u8_small; lia.
  - destruct (Z.ltb_spec v 128); simpl.
    + apply Exists_cons_hd. rewrite ubyte_zbyte, u8_small; lia.
    + apply Exists_cons_tl, IH.
      split; [apply Z.div_pos; lia|]. apply Z.div_lt_upper_bound; [lia|].
      replace (7 * Z.of_nat (S (S n))) with (7 + 7 * Z.of_nat (S n)) in Hv by lia.
      rewrite Z.pow_add_r in Hv by lia. lia.
Qed.

Lemma debug_roundtrip v rest :
  0 <= v < 2 ^ 32 -> debug_read_uleb128 (bcwrite_uleb128 v ++ rest) = Some (v, rest).
Proof.
  intros Hv. assert (terminated (bcwrite_uleb128 v ++ rest)) as Ht.
  { unfold bcwrite_uleb128. rewrite u32_small, write_loop_groups by lia.
    apply terminated_groups. simpl; lia. }
  rewrite debug_read_stream by done.
  unfold bcread_uleb128, bcwrite_uleb128.
  rewrite u32_small, write_loop_groups, read_loop_groups by (simpl; lia).
  f_equal. f_equal. lia.
Qed.

(** ** The 33 bit variant *)
Lemma loop33_stream r shift p :
  bcread_uleb128_33_loop r shift p = bcread_uleb128_loop r (shift + 7) p.
Proof.
  revert r shift. induction p as [|b p IH]; intros r shift; simpl; [done|].
  destruct (32 <=? shift + 7); [done|]. by rewrite IH.
Qed.

Lemma read33_groups w rest :
  0 <= w < 2 ^ 33 -> bcread_uleb128_33 (groups 4 w ++ rest) = Some (w / 2, rest).
Proof.
  intros Hw. remember (groups 4 w) as g eqn:Eg. simpl in Eg.
  destruct (Z.ltb_spec w 128) as [Hlt|Hge]; subst g; unfold bcread_uleb128_33; simpl app; cbv iota.
  - rewrite ubyte_zbyte, u8_small, Z.shiftr_div_pow2 by lia. change (2 ^ 1) with 2.
    destruct (Z.leb_spec 64 (w / 2)); [Z.to_euclidean_division_equations; lia|done].
  - pose proof (Z.mod_pos_bound w 128 ltac:(lia)).
    rewrite ubyte_zbyte, u8_small, Z.shiftr_div_pow2 by lia. change (2 ^ 1) with 2.
    destruct (Z.leb_spec 64 ((w mod 128 + 128) / 2)); [|Z.to_euclidean_division_equations; lia].
    change 63 with (2 ^ 6 - 1). rewrite land_ones_mod, loop33_stream by lia.
    change (-1 + 7) with 6.
    change (if w / 128 <? 128 then _ else _) with (groups 3 (w / 128)).
    rewrite read_loop_groups; [f_equal; f_equal|..]; try lia;
      change (2 ^ 6) with 64; change (2 ^ (7 * Z.of_nat 4)) with (2 ^ 28);
      Z.to_euclidean_division_equations; lia.
Qed.

Lemma groups4_long w :
  2 ^ 28 <= w ->
  groups 4 w = [zbyte (w mod 2 ^ 7 + 128); zbyte (w mod 2 ^ 14 / 2 ^ 7 + 128);
                zbyte (w mod 2 ^ 21 / 2 ^ 14 + 128); zbyte (w mod 2 ^ 28 / 2 ^ 21 + 128);
                zbyte (w / 2 ^ 28)].
Proof.
  intros Hw. unfold groups.
  repeat match goal with
    | |- context [if ?a <? 128 then _ else _] =>
        destruct (Z.ltb_spec a 128); [Z.to_euclidean_division_equations; lia|]
    end.
  repeat (apply (f_equal2 (@cons byte));
          [apply (f_equal zbyte); Z.to_euclidean_division_equations; lia|]).
  done.
Qed.

(** Setting bit 31 of the low word of [2 * K + b]. *)
Lemma set_bit31 K b :
  2 ^ 31 <= K < 2 ^ 32 -> 0 <= b <= 1 ->
  exists w, b + Z.lor (u32 (2 * K)) (Z.land K 0x80000000) = w /\ 2 ^ 31 <= w < 2 ^ 32 /\
    w mod 2 ^ 28 = (2 * K + b) mod 2 ^ 28 /\
    w / 2 ^ 28 = if K / 2 ^ 27 <? 24 then K / 2 ^ 27 - 8 else K / 2 ^ 27 - 16.
Proof.
  intros HK Hb.
  assert (Z.land K 0x80000000 = 2 ^ 31) as ->.
  { apply Z.bits_inj'. intros i Hi. rewrite Z.land_spec.
    change 0x80000000 with (2 ^ 31). rewrite Z.pow2_bits_eqb by lia.
    destruct (Z.eqb_spec 31 i) as [<-|]; [|by rewrite andb_false_r].
    rewrite andb_true_r. apply Z.testbit_true; [lia|].
    Z.to_euclidean_division_equations; lia. }
  assert (u32 (2 * K) = 2 * K - 2 ^ 32) as -> by width.
  pose proof (fun a => lor_shiftl_add a 1 31 ltac:(lia)) as Hor.
  change (Z.shiftl 1 31) with (2 ^ 31) in Hor. change (1 * 2 ^ 31) with (2 ^ 31) in Hor.
  set (m := 2 * K - 2 ^ 32) in *. eexists; split; [reflexivity|].
  assert (Z.lor m (2 ^ 31) = if m <? 2 ^ 31 then m + 2 ^ 31 else m) as ->.
  { destruct (Z.ltb_spec m (2 ^ 31)); [apply Hor; lia|].
    replace m with ((m - 2 ^ 31) + 2 ^ 31) by lia.
    by rewrite <- Hor, <- Z.lor_assoc, Z.lor_diag by lia. }
  destruct (Z.ltb_spec m (2 ^ 31)), (Z.ltb_spec (K / 2 ^ 27) 24);
    unfold m in *; repeat split; Z.to_euclidean_division_equations; lia.
Qed.

(** The bits taken from the 32 bit number when the last byte is patched. *)
Lemma patched_byte q k :
  16 <= q < 32 -> Z.shiftr k 27 = q \/ Z.shiftr k 27 = q - 32 ->
  Z.lor (Z.land (schar (zbyte (if q <? 24 then q - 8 else q - 16))) 7)
        (Z.land (Z.shiftr k 27) 0x18) = q.
Proof.
  intros Hq Hk.
  assert (∀ n, (n < 16)%nat -> let q := 16 + Z.of_nat n in
    ∀ h, h = q \/ h = q - 32 ->
    Z.lor (Z.land (schar (zbyte (if q <? 24 then q - 8 else q - 16))) 7) (Z.land h 0x18) = q)
    as Hn.
  { intros n Hn. do 16 (destruct n as [|n]; [intros q' h [->| ->]; reflexivity|]). lia. }
  specialize (Hn (Z.to_nat (q - 16))). cbv zeta in Hn.
  replace (16 + Z.of_nat (Z.to_nat (q - 16))) with q in Hn by lia. apply Hn; [lia|done].
Qed.

Lemma mod_mod_le a i j : 0 <= i <= j -> a mod 2 ^ i = (a mod 2 ^ j) mod 2 ^ i.
Proof.
  intros. symmetry. apply Z.mod_mod_divide. exists (2 ^ (j - i)).
  rewrite <- Z.pow_add_r by lia. f_equal. lia.
Qed.

(** The five groups written for a 32 bit prefix of [2 * K + b], with the last
    one replaced, are the groups of the 33 bit number. *)
Lemma patch_groups K b k :
  2 ^ 31 <= K < 2 ^ 32 -> 0 <= b <= 1 -> k = K \/ k = K - 2 ^ 32 ->
  patch_last (bcwrite_uleb128 (b + Z.lor (u32 (2 * K)) (Z.land K 0x80000000))) k =
  groups 4 (2 * K + b).
Proof.
  intros HK Hb Hk. destruct (set_bit31 K b HK Hb) as (w & -> & Hw & Hmod & Hdiv).
  unfold bcwrite_uleb128. rewrite u32_small, write_loop_groups, !groups4_long by lia.
  unfold patch_last. simpl. rewrite Hdiv, patched_byte.
  - rewrite (mod_mod_le w 7 28), (mod_mod_le w 14 28), (mod_mod_le w 21 28), Hmod by lia.
    rewrite <- !mod_mod_le by lia.
    repeat (apply (f_equal2 (@cons byte)); [apply (f_equal zbyte)|done || idtac]); try done.
    Z.to_euclidean_division_equations; lia.
  - Z.to_euclidean_division_equations; lia.
  - rewrite Z.shiftr_div_pow2 by lia. destruct Hk as [->| ->]; [by left|right].
    Z.to_euclidean_division_equations; lia.
Qed.

Lemma unpatched_groups K b :
  0 <= K < 2 ^ 31 -> 0 <= b <= 1 ->
  bcwrite_uleb128 (b + Z.lor (u32 (2 * K)) (Z.land K 0x80000000)) = groups 4 (2 * K + b).
Proof.
  intros HK Hb. assert (Z.land K 0x80000000 = 0) as ->.
  { apply Z.bits_inj'. intros i Hi. rewrite Z.land_spec, Z.bits_0.
    change 0x80000000 with (2 ^ 31). rewrite Z.pow2_bits_eqb by lia.
    destruct (Z.eqb_spec 31 i) as [<-|]; [|by rewrite andb_false_r].
    rewrite <- (Z.mod_small K (2 ^ 31)), Z.mod_pow2_bits_high by lia. done. }
  rewrite Z.lor_0_r, (u32_small (2 * K)) by lia.
  unfold bcwrite_uleb128. rewrite u32_small, write_loop_groups by lia. f_equal. lia.
Qed.

Lemma write_int33_groups k :
  - 2 ^ 31 <= k < 2 ^ 31 -> write_int33 k = groups 4 (2 * u32 k).
Proof.
  intros Hk. unfold write_int33. rewrite <- (Z.add_0_l (Z.lor _ _)).
  destruct (Z.ltb_spec k 0).
  - assert (u32 k = k + 2 ^ 32) as -> by width.
    rewrite patch_groups by lia. by rewrite Z.add_0_r.
  - rewrite (u32_small k), unpatched_groups by lia. by rewrite Z.add_0_r.
Qed.

Lemma write_lo33_groups lo :
  0 <= lo < 2 ^ 32 -> write_lo33 lo = groups 4 (2 * lo + 1).
Proof.
  intros Hlo. unfold write_lo33. destruct (Z.leb_spec 0x80000000 lo).
  - apply patch_groups; lia.
  - apply unpatched_groups; lia.
Qed.

(** The 33 bit reader gives back the 32 payload bits of a number constant,
    for an integer (as an unsigned number) and for the low word of a double; the
    lowest bit of the first byte tells the two apart. *)
Theorem uleb33_roundtrip v rest :
  (- 2 ^ 31 <= v < 2 ^ 31 ->
   bcread_uleb128_33 (write_int33 v ++ rest) = Some (u32 v, rest) /\
   exists b l, write_int33 v = b :: l /\ Z.land (ubyte b) 1 = 0) /\
  (0 <= v < 2 ^ 32 ->
   bcread_uleb128_33 (write_lo33 v ++ rest) = Some (v, rest) /\
   exists b l, write_lo33 v = b :: l /\ Z.land (ubyte b) 1 = 1).
Proof.
  assert (∀ w, 0 <= w -> ∃ b l, groups 4 w = b :: l /\ Z.land (ubyte b) 1 = w mod 2) as Hb.
  { intros w Hw. unfold groups. destruct (Z.ltb_spec w 128); do 2 eexists; (split; [done|]);
      rewrite ubyte_zbyte; change 1 with (2 ^ 1 - 1); rewrite land_ones_mod by lia; width. }
  split; intros Hv.
  - pose proof (u32_range v). rewrite write_int33_groups, read33_groups by lia. split.
    + f_equal. f_equal. Z.to_euclidean_division_equations; lia.
    + destruct (Hb (2 * u32 v)) as (b & l & E & Hl); [lia|].
      exists b, l. split; [done|]. rewrite Hl. Z.to_euclidean_division_equations; lia.
  - rewrite write_lo33_groups, read33_groups by lia. split.
    + f_equal. f_equal. Z.to_euclidean_division_equations; lia.
    + destruct (Hb (2 * v + 1)) as (b & l & E & Hl); [lia|].
      exists b, l. split; [done|]. rewrite Hl. Z.to_euclidean_division_equations; lia.
Qed.

Lemma uleb33_roundtrip_witness :
  bcread_uleb128_33 (write_int33 (-2) ++ [x07]) = Some (4294967294, [x07]) /\
  bcread_uleb128_33 (write_lo33 4294967294 ++ [x07]) = Some (4294967294, [x07]).
Proof.
  split.
  - apply (proj1 (uleb33_roundtrip (-2) [x07])). lia.
  - apply (proj2 (uleb33_roundtrip 4294967294 [x07])). lia.
Defined.
