(* ===== verification/Double.v ===== *)
(** * IEEE binary64 values as bit patterns

    A [double] is its 64 bit pattern, as in the [union TValue] of
    [LuaJitBytecode.cpp]; arithmetic goes through the Standard Library's
    [SpecFloat].  The operations here are those of the language and its
    standard library that the sources use: conversions from integers,
    [+ - * /], comparisons and [std::fmod]. *)

From S2P Require Import Prelude.
From Stdlib Require Import SpecFloat.
Local Open Scope Z_scope.

Abbreviation dbl := Z.

Definition prec : Z := 53.
Definition emax : Z := 1024.

(** ** Bit patterns and [SpecFloat] values *)

Definition dbl_sign (d : dbl) : bool := Z.testbit d 63.
Definition dbl_exp (d : dbl) : Z := (d / 2 ^ 52) mod 2 ^ 11.
Definition dbl_man (d : dbl) : Z := d mod 2 ^ 52.

Definition dbl_nan : dbl := 0x7ff8000000000000.

Definition to_sf (d : dbl) : spec_float :=
  let m := dbl_man d in
  if dbl_exp d =? 0 then
    match m with Zpos p => S754_finite (dbl_sign d) p (-1074) | _ => S754_zero (dbl_sign d) end
  else if dbl_exp d =? 2047 then
    if m =? 0 then S754_infinity (dbl_sign d) else S754_nan
  else
    match m + 2 ^ 52 with
    | Zpos p => S754_finite (dbl_sign d) p (dbl_exp d - 1075)
    | _ => S754_nan
    end.

Definition sign_bit (s : bool) : Z := if s then 2 ^ 63 else 0.

Definition of_sf (x : spec_float) : dbl :=
  match x with
  | S754_nan => dbl_nan
  | S754_zero s => sign_bit s
  | S754_infinity s => sign_bit s + 2047 * 2 ^ 52
  | S754_finite s m e =>
      if Zpos m <? 2 ^ 52 then sign_bit s + Zpos m
      else sign_bit s + (e + 1075) * 2 ^ 52 + (Zpos m - 2 ^ 52)
  end.

Definition dbl_is_nan (d : dbl) : bool := (dbl_exp d =? 2047) && negb (dbl_man d =? 0).

(** ** Operations *)

Definition dbl_of_Z (z : Z) : dbl := of_sf (binary_normalize prec emax z 0 false).
Definition dbl_add (a b : dbl) : dbl := of_sf (SFadd prec emax (to_sf a) (to_sf b)).
Definition dbl_sub (a b : dbl) : dbl := of_sf (SFsub prec emax (to_sf a) (to_sf b)).
Definition dbl_mul (a b : dbl) : dbl := of_sf (SFmul prec emax (to_sf a) (to_sf b)).
Definition dbl_div (a b : dbl) : dbl := of_sf (SFdiv prec emax (to_sf a) (to_sf b)).
Definition dbl_opp (a : dbl) : dbl := of_sf (SFopp (to_sf a)).
Definition dbl_eqb (a b : dbl) : bool := SFeqb (to_sf a) (to_sf b).
Definition dbl_ltb (a b : dbl) : bool := SFltb (to_sf a) (to_sf b).
Definition dbl_leb (a b : dbl) : bool := SFleb (to_sf a) (to_sf b).

(** [std::fmod]: the exact remainder, with the sign of the dividend. *)
Definition sf_fmod (x y : spec_float) : spec_float :=
  match x, y with
  | S754_nan, _ | _, S754_nan | S754_infinity _, _ | _, S754_zero _ => S754_nan
  | S754_zero _, _ | _, S754_infinity _ => x
  | S754_finite sx mx ex, S754_finite _ my ey =>
      let e := Z.min ex ey in
      let r := (Zpos mx * 2 ^ (ex - e)) mod (Zpos my * 2 ^ (ey - e)) in
      match r with
      | Zpos _ => binary_normalize prec emax (if sx then - r else r) e sx
      | _ => S754_zero sx
      end
  end.
Definition dbl_fmod (a b : dbl) : dbl := of_sf (sf_fmod (to_sf a) (to_sf b)).

(** Conversion to an integer type: truncation toward zero, [None] outside of
    the range of the type, where the conversion is undefined. *)
Definition sf_trunc (x : spec_float) : option Z :=
  match x with
  | S754_zero _ => Some 0
  | S754_finite s m e =>
      let a := if 0 <=? e then Zpos m * 2 ^ e else Zpos m / 2 ^ (- e) in
      Some (if s then - a else a)
  | _ => None
  end.

(** ** The two conversions are inverse *)
Lemma dbl_split d :
  0 <= d < 2 ^ 64 -> d = sign_bit (dbl_sign d) + dbl_exp d * 2 ^ 52 + dbl_man d.
Proof.
  intros Hd. unfold sign_bit, dbl_sign, dbl_exp, dbl_man.
  assert (Z.testbit d 63 = (2 ^ 63 <=? d)) as ->.
  { rewrite Z.testbit_odd, Z.shiftr_div_pow2 by lia.
    destruct (Z.leb_spec (2 ^ 63) d).
    - replace (d / 2 ^ 63) with 1; [done|]. Z.to_euclidean_division_equations; lia.
    - rewrite Z.div_small by lia. done. }
  destruct (Z.leb_spec (2 ^ 63) d); Z.to_euclidean_division_equations; lia.
Qed.

(** Every pattern that is not a NaN survives the round trip. *)
Lemma of_to_sf d : 0 <= d < 2 ^ 64 -> dbl_is_nan d = false -> of_sf (to_sf d) = d.
Proof.
  intros Hd Hn. pose proof (dbl_split d Hd) as Hs.
  assert (0 <= dbl_exp d < 2 ^ 11) by (apply Z.mod_pos_bound; lia).
  assert (0 <= dbl_man d < 2 ^ 52) by (apply Z.mod_pos_bound; lia).
  unfold to_sf, dbl_is_nan in *.
  destruct (Z.eqb_spec (dbl_exp d) 0) as [He|He].
  - rewrite He in Hs. destruct (dbl_man d) as [|p|p] eqn:Em; unfold of_sf; [lia| |lia].
    destruct (Z.ltb_spec (Zpos p) (2 ^ 52)); lia.
  - destruct (Z.eqb_spec (dbl_exp d) 2047) as [He2|He2].
    + rewrite He2 in Hs. simpl in Hn. destruct (Z.eqb_spec (dbl_man d) 0); [|done].
      unfold of_sf. lia.
    + destruct (dbl_man d + 2 ^ 52) as [|p|p] eqn:Em; [lia| |lia]. unfold of_sf.
      destruct (Z.ltb_spec (Zpos p) (2 ^ 52)); lia.
Qed.

Example dbl_of_Z_one : dbl_of_Z 1 = 0x3ff0000000000000.
Proof. vm_compute. reflexivity. Qed.
Example dbl_arith : dbl_add (dbl_of_Z 3) (dbl_div (dbl_of_Z 1) (dbl_of_Z 2)) = 0x400c000000000000.
Proof. vm_compute. reflexivity. Qed.
Example dbl_mod : dbl_fmod (dbl_of_Z (-7)) (dbl_of_Z 3) = dbl_of_Z (-1).
Proof. vm_compute. reflexivity. Qed.
Example dbl_cmp : dbl_ltb (dbl_of_Z (-2)) (dbl_of_Z 3) = true /\ dbl_eqb dbl_nan dbl_nan = false.
Proof. vm_compute. done. Qed.
