(* ===== verification/Bytecode.v ===== *)
(** * Bytecode data structures

    The data of [LuaJitBytecode.h/.cpp]: values ([QVariant]), constant tables,
    opcodes, instructions and their fields, functions with their debug
    information, and the file header check.

    The opcode table and the field accessors come from LuaJIT's [lj_bc.h], which
    is not part of the sources: they are the class [LjBc], with the documented
    layout of an instruction as the laws [LjBcLaws]. *)

From S2P Require Import Prelude Double.
From Stdlib Require Import Strings.Byte.
Local Open Scope Z_scope.

(** ** Values *)

(** A [QString] is its sequence of UTF-16 code units. *)
Abbreviation QString := (list Z).

(** The value types stored in a [QVariant] by the bytecode library, the composer
    and the engine.  [QConstTable] holds the entries of [d_hash] in the iteration
    order of the [QHash], and [d_array]; a [QFuncRef] is the address of a function
    object, a [QTableRef] that of a table, a [QClosure] has the address of its
    function and those of its upvalue slots, a [QCFunction] identifies a native
    function.  A [QFloat] is kept as the [double] it widens to. *)
Inductive QVariant : Type :=
  | QInvalid
  | QBool (b : bool)
  | QInt (z : Z)
  | QUInt (z : Z)
  | QLongLong (z : Z)
  | QULongLong (z : Z)
  | QDouble (d : dbl)
  | QFloat (d : dbl)
  | QByteArray (s : bytes)
  | QText (s : QString)
  | QConstTable (hash : list (QVariant * QVariant)) (arr : list QVariant)
  | QFuncRef (f : nat)
  | QTableRef (t : option nat)
  | QClosure (f : nat) (upvals : list nat)
  | QCFunction (f : nat).

(** [src/LuaJitBytecode.h:40-45] ConstTable *)
Record ConstTable := mkConstTable {
  d_hash : list (QVariant * QVariant);
  d_array : list QVariant
}.

(** [QVariant::isNull] *)
Definition isNull (v : QVariant) : bool := match v with QInvalid => true | _ => false end.

(** [src/LuaJitBytecode.cpp:1042-1056] isNumber *)
Definition isNumber (v : QVariant) : bool :=
  match v with
  | QUInt _ | QULongLong _ | QInt _ | QLongLong _ | QDouble _ | QFloat _ => true
  | _ => false
  end.

(** [src/LuaJitBytecode.cpp:1058-1061] isString *)
Definition isString (v : QVariant) : bool :=
  match v with QText _ | QByteArray _ => true | _ => false end.

(** [src/LuaJitBytecode.cpp:1063-1066] isPrimitive *)
Definition isPrimitive (v : QVariant) : bool :=
  match v with QBool _ => true | _ => isNull v end.

(** [src/LuaJitBytecode.cpp:1068-1080] toPrimitive *)
Definition toPrimitive (v : QVariant) : Z :=
  if isNull v then 0
  else match v with QBool true => 2 | QBool false => 1 | _ => 0 end.

(** ** Opcodes *)

(** [src/LuaJitBytecode.h:92-103] Op *)
Inductive Op : Type :=
  | OP_ISLT | OP_ISGE | OP_ISLE | OP_ISGT | OP_ISEQV | OP_ISNEV | OP_ISEQS | OP_ISNES
  | OP_ISEQN | OP_ISNEN | OP_ISEQP | OP_ISNEP | OP_ISTC | OP_ISFC | OP_IST | OP_ISF
  | OP_MOV | OP_NOT | OP_UNM | OP_LEN | OP_ADDVN | OP_SUBVN | OP_MULVN | OP_DIVVN
  | OP_MODVN | OP_ADDNV | OP_SUBNV | OP_MULNV | OP_DIVNV | OP_MODNV | OP_ADDVV
  | OP_SUBVV | OP_MULVV | OP_DIVVV | OP_MODVV | OP_POW | OP_CAT | OP_KSTR | OP_KCDATA
  | OP_KSHORT | OP_KNUM | OP_KPRI | OP_KNIL | OP_UGET | OP_USETV | OP_USETS | OP_USETN
  | OP_USETP | OP_UCLO | OP_FNEW | OP_TNEW | OP_TDUP | OP_GGET | OP_GSET | OP_TGETV
  | OP_TGETS | OP_TGETB | OP_TSETV | OP_TSETS | OP_TSETB | OP_TSETM | OP_CALLM
  | OP_CALL | OP_CALLMT | OP_CALLT | OP_ITERC | OP_ITERN | OP_VARG | OP_ISNEXT
  | OP_RETM | OP_RET | OP_RET0 | OP_RET1 | OP_FORI | OP_JFORI | OP_FORL | OP_IFORL
  | OP_JFORL | OP_ITERL | OP_IITERL | OP_JITERL | OP_LOOP | OP_ILOOP | OP_JLOOP
  | OP_JMP | OP_INVALID.

(** The opcodes in the order of the enumeration, which numbers them from 0. *)
Definition all_ops : list Op := [
  OP_ISLT; OP_ISGE; OP_ISLE; OP_ISGT; OP_ISEQV; OP_ISNEV; OP_ISEQS; OP_ISNES; OP_ISEQN;
  OP_ISNEN; OP_ISEQP; OP_ISNEP; OP_ISTC; OP_ISFC; OP_IST; OP_ISF; OP_MOV; OP_NOT;
  OP_UNM; OP_LEN; OP_ADDVN; OP_SUBVN; OP_MULVN; OP_DIVVN; OP_MODVN; OP_ADDNV; OP_SUBNV;
  OP_MULNV; OP_DIVNV; OP_MODNV; OP_ADDVV; OP_SUBVV; OP_MULVV; OP_DIVVV; OP_MODVV;
  OP_POW; OP_CAT; OP_KSTR; OP_KCDATA; OP_KSHORT; OP_KNUM; OP_KPRI; OP_KNIL; OP_UGET;
  OP_USETV; OP_USETS; OP_USETN; OP_USETP; OP_UCLO; OP_FNEW; OP_TNEW; OP_TDUP; OP_GGET;
  OP_GSET; OP_TGETV; OP_TGETS; OP_TGETB; OP_TSETV; OP_TSETS; OP_TSETB; OP_TSETM;
  OP_CALLM; OP_CALL; OP_CALLMT; OP_CALLT; OP_ITERC; OP_ITERN; OP_VARG; OP_ISNEXT;
  OP_RETM; OP_RET; OP_RET0; OP_RET1; OP_FORI; OP_JFORI; OP_FORL; OP_IFORL; OP_JFORL;
  OP_ITERL; OP_IITERL; OP_JITERL; OP_LOOP; OP_ILOOP; OP_JLOOP; OP_JMP].

#[export] Instance Op_eq_dec : EqDecision Op.
Proof. solve_decision. Defined.

Definition Op_val (o : Op) : Z :=
  match list_find (fun o' => o' = o) all_ops with
  | Some (i, _) => Z.of_nat i
  | None => 255
  end.

(** The opcode of a [quint8], if it is one of the enumeration. *)
Definition Op_of (z : Z) : option Op :=
  if z <? 0 then None else if z =? 255 then Some OP_INVALID else all_ops !! Z.to_nat z.

Lemma Op_of_val o : Op_of (Op_val o) = Some o.
Proof. destruct o; reflexivity. Qed.

Lemma Op_val_range o : 0 <= Op_val o < 256.
Proof. destruct o; vm_compute; done. Qed.

Lemma Op_val_small o : o <> OP_INVALID -> 0 <= Op_val o < 85.
Proof. intros Ho. destruct o; [vm_compute; done ..|by destruct Ho]. Qed.

Lemma Op_val_inj o o' : Op_val o = Op_val o' -> o = o'.
Proof. intros H. pose proof (Op_of_val o). rewrite H, Op_of_val in *. congruence. Qed.

Lemma Op_of_Some z o : Op_of z = Some o -> Op_val o = z.
Proof.
  unfold Op_of. destruct (Z.ltb_spec z 0); [done|].
  destruct (Z.eqb_spec z 255) as [->|Hz]; [intros [= <-]; reflexivity|].
  intros Hl. assert (Z.to_nat z < 85)%nat as Hlt by apply (lookup_lt_Some _ _ _ Hl).
  assert (z = Z.of_nat (Z.to_nat z)) as -> by lia.
  generalize dependent (Z.to_nat z). intros n. intros.
  do 85 (destruct n as [|n]; [injection Hl as <-; reflexivity|]). lia.
Qed.

(** ** Instructions *)

(** [src/LuaJitBytecode.h:108-127] FieldType *)
Inductive FieldType : Type :=
  | Unused | _var | _str | _num | _pri | _dst | _rbase | _cdata | _lit | _lits
  | _base | _uv | _jump | _func | _tab.

#[export] Instance FieldType_eq_dec : EqDecision FieldType.
Proof. solve_decision. Defined.

(** [src/LuaJitBytecode.cpp:98-104] _ByteCode *)
Record ByteCode := mkByteCode {
  bc_name : bytes;
  d_fa : FieldType;
  d_fb : FieldType;
  d_fcd : FieldType
}.

(** What the sources use of LuaJIT's [lj_bc.h]: the accessors of the fields of an
    instruction word, and the table that [BCDEF(BCSTRUCT)] expands to. *)
Class LjBc := {
  bc_op : Z -> Z;
  bc_a : Z -> Z;
  bc_b : Z -> Z;
  bc_c : Z -> Z;
  s_byteCodes : list ByteCode
}.

(** ** The documented table

    The opcodes of LuaJIT 2.0 with the fields its bytecode documentation gives
    them. *)
Definition doc_table : list ByteCode := [
  mkByteCode (qb "ISLT") _var Unused _var;
  mkByteCode (qb "ISGE") _var Unused _var;
  mkByteCode (qb "ISLE") _var Unused _var;
  mkByteCode (qb "ISGT") _var Unused _var;
  mkByteCode (qb "ISEQV") _var Unused _var;
  mkByteCode (qb "ISNEV") _var Unused _var;
  mkByteCode (qb "ISEQS") _var Unused _str;
  mkByteCode (qb "ISNES") _var Unused _str;
  mkByteCode (qb "ISEQN") _var Unused _num;
  mkByteCode (qb "ISNEN") _var Unused _num;
  mkByteCode (qb "ISEQP") _var Unused _pri;
  mkByteCode (qb "ISNEP") _var Unused _pri;
  mkByteCode (qb "ISTC") _dst Unused _var;
  mkByteCode (qb "ISFC") _dst Unused _var;
  mkByteCode (qb "IST") Unused Unused _var;
  mkByteCode (qb "ISF") Unused Unused _var;
  mkByteCode (qb "MOV") _dst Unused _var;
  mkByteCode (qb "NOT") _dst Unused _var;
  mkByteCode (qb "UNM") _dst Unused _var;
  mkByteCode (qb "LEN") _dst Unused _var;
  mkByteCode (qb "ADDVN") _dst _var _num;
  mkByteCode (qb "SUBVN") _dst _var _num;
  mkByteCode (qb "MULVN") _dst _var _num;
  mkByteCode (qb "DIVVN") _dst _var _num;
  mkByteCode (qb "MODVN") _dst _var _num;
  mkByteCode (qb "ADDNV") _dst _var _num;
  mkByteCode (qb "SUBNV") _dst _var _num;
  mkByteCode (qb "MULNV") _dst _var _num;
  mkByteCode (qb "DIVNV") _dst _var _num;
  mkByteCode (qb "MODNV") _dst _var _num;
  mkByteCode (qb "ADDVV") _dst _var _var;
  mkByteCode (qb "SUBVV") _dst _var _var;
  mkByteCode (qb "MULVV") _dst _var _var;
  mkByteCode (qb "DIVVV") _dst _var _var;
  mkByteCode (qb "MODVV") _dst _var _var;
  mkByteCode (qb "POW") _dst _var _var;
  mkByteCode (qb "CAT") _dst _rbase _rbase;
  mkByteCode (qb "KSTR") _dst Unused _str;
  mkByteCode (qb "KCDATA") _dst Unused _cdata;
  mkByteCode (qb "KSHORT") _dst Unused _lits;
  mkByteCode (qb "KNUM") _dst Unused _num;
  mkByteCode (qb "KPRI") _dst Unused _pri;
  mkByteCode (qb "KNIL") _base Unused _base;
  mkByteCode (qb "UGET") _dst Unused _uv;
  mkByteCode (qb "USETV") _uv Unused _var;
  mkByteCode (qb "USETS") _uv Unused _str;
  mkByteCode (qb "USETN") _uv Unused _num;
  mkByteCode (qb "USETP") _uv Unused _pri;
  mkByteCode (qb "UCLO") _rbase Unused _jump;
  mkByteCode (qb "FNEW") _dst Unused _func;
  mkByteCode (qb "TNEW") _dst Unused _lit;
  mkByteCode (qb "TDUP") _dst Unused _tab;
  mkByteCode (qb "GGET") _dst Unused _str;
  mkByteCode (qb "GSET") _var Unused _str;
  mkByteCode (qb "TGETV") _dst _var _var;
  mkByteCode (qb "TGETS") _dst _var _str;
  mkByteCode (qb "TGETB") _dst _var _lit;
  mkByteCode (qb "TSETV") _var _var _var;
  mkByteCode (qb "TSETS") _var _var _str;
  mkByteCode (qb "TSETB") _var _var _lit;
  mkByteCode (qb "TSETM") _base Unused _num;
  mkByteCode (qb "CALLM") _base _lit _lit;
  mkByteCode (qb "CALL") _base _lit _lit;
  mkByteCode (qb "CALLMT") _base Unused _lit;
  mkByteCode (qb "CALLT") _base Unused _lit;
  mkByteCode (qb "ITERC") _base _lit _lit;
  mkByteCode (qb "ITERN") _base _lit _lit;
  mkByteCode (qb "VARG") _base _lit _lit;
  mkByteCode (qb "ISNEXT") _base Unused _jump;
  mkByteCode (qb "RETM") _base Unused _lit;
  mkByteCode (qb "RET") _rbase Unused _lit;
  mkByteCode (qb "RET0") _rbase Unused _lit;
  mkByteCode (qb "RET1") _rbase Unused _lit;
  mkByteCode (qb "FORI") _base Unused _jump;
  mkByteCode (qb "JFORI") _base Unused _jump;
  mkByteCode (qb "FORL") _base Unused _jump;
  mkByteCode (qb "IFORL") _base Unused _jump;
  mkByteCode (qb "JFORL") _base Unused _lit;
  mkByteCode (qb "ITERL") _base Unused _jump;
  mkByteCode (qb "IITERL") _base Unused _jump;
  mkByteCode (qb "JITERL") _base Unused _lit;
  mkByteCode (qb "LOOP") _rbase Unused _jump;
  mkByteCode (qb "ILOOP") _rbase Unused _jump;
  mkByteCode (qb "JLOOP") _rbase Unused _lit;
  mkByteCode (qb "JMP") _rbase Unused _jump;
  mkByteCode (qb "FUNCF") _rbase Unused Unused;
  mkByteCode (qb "IFUNCF") _rbase Unused Unused;
  mkByteCode (qb "JFUNCF") _rbase Unused _lit;
  mkByteCode (qb "FUNCV") _rbase Unused Unused;
  mkByteCode (qb "IFUNCV") _rbase Unused Unused;
  mkByteCode (qb "JFUNCV") _rbase Unused _lit;
  mkByteCode (qb "FUNCC") _rbase Unused Unused;
  mkByteCode (qb "FUNCCW") _rbase Unused Unused
].

(** The operand types of a row. *)
Definition field_types (r : ByteCode) : FieldType * FieldType * FieldType := (d_fa r, d_fb r, d_fcd r).

(** The documented instruction formats: [B C A OP] and [D A OP], from the most
    significant byte down; every opcode of [enum Op] has a row, with the documented
    operands. *)
Class LjBcLaws (L : LjBc) : Prop := {
  bc_op_law : forall i, 0 <= i < 2 ^ 32 -> bc_op i = i mod 2 ^ 8;
  bc_a_law : forall i, 0 <= i < 2 ^ 32 -> bc_a i = (i / 2 ^ 8) mod 2 ^ 8;
  bc_c_law : forall i, 0 <= i < 2 ^ 32 -> bc_c i = (i / 2 ^ 16) mod 2 ^ 8;
  bc_b_law : forall i, 0 <= i < 2 ^ 32 -> bc_b i = i / 2 ^ 24;
  bc_rows_law : (85 <= length s_byteCodes <= 255)%nat;
  bc_types_law : map field_types (take 85 s_byteCodes) = map field_types (take 85 doc_table)
}.

Section Instructions.
Context `{L : LjBc}.

Definition BC__MAX : Z := Z.of_nat (length s_byteCodes).

(** [s_byteCodes[op]]; an index outside of the table is undefined. *)
Definition row (op : Z) : option ByteCode :=
  if op <? 0 then None else s_byteCodes !! Z.to_nat op.

(** [src/LuaJitBytecode.h:105-146] Instruction *)
Record Instruction := mkInstruction {
  d_name : bytes;
  d_a : Z;
  d_b : Z;
  d_cd : Z;
  d_ta : FieldType;
  d_tb : FieldType;
  d_tcd : FieldType;
  d_op : Z
}.

Definition JumpBias : Z := 0x8000.

(** [src/LuaJitBytecode.h:135-145] getCd *)
Definition getCd (bc : Instruction) : Z :=
  match d_tcd bc with
  | _lits => s16 (d_cd bc)
  | _jump => d_cd bc - JumpBias
  | _ => d_cd bc
  end.

(** [src/LuaJitBytecode.cpp:541-565] dissectInstruction *)
Definition dissectInstruction (i : Z) : Instruction :=
  let op := bc_op i in
  match row op with
  | Some bc =>
      {| d_name := bc_name bc;
         d_op := u8 op;
         d_ta := d_fa bc;
         d_tb := d_fb bc;
         d_tcd := d_fcd bc;
         d_a := if bool_decide (d_fa bc = Unused) then 0 else bc_a i;
         d_b := if bool_decide (d_fb bc = Unused) then 0 else bc_b i;
         d_cd := if bool_decide (d_fcd bc = Unused) then 0
                 else if bool_decide (d_fb bc = Unused) then Z.shiftr i 16 else bc_c i |}
  | None =>
      {| d_name := qb "???"; d_op := 0; d_ta := Unused; d_tb := Unused; d_tcd := Unused;
         d_a := 0; d_b := 0; d_cd := 0 |}
  end.

(** [src/LuaJitBytecode.cpp:567-570] opFromBc *)
Definition opFromBc (i : Z) : Z := bc_op i.

(** [src/LuaJitBytecode.h:161-161] Format *)
Inductive Format : Type := ABC | AD.

(** [src/LuaJitBytecode.cpp:572-578] formatFromOp *)
Definition formatFromOp (op : Z) : Format :=
  match row op with
  | Some bc => if bool_decide (d_fb bc = Unused) then AD else ABC
  | None => AD
  end.

(** [src/LuaJitBytecode.cpp:580-586] typeCdFromOp *)
Definition typeCdFromOp (op : Z) : FieldType :=
  match row op with Some bc => d_fcd bc | None => Unused end.

(** [src/LuaJitBytecode.cpp:588-594] typeBFromOp *)
Definition typeBFromOp (op : Z) : FieldType :=
  match row op with Some bc => d_fb bc | None => Unused end.

(** [src/LuaJitBytecode.cpp:596-602] typeAFromOp *)
Definition typeAFromOp (op : Z) : FieldType :=
  match row op with Some bc => d_fa bc | None => Unused end.

(** [src/LuaJitBytecode.cpp:1082-1088] nameOfOp *)
Definition nameOfOp (op : Z) : option bytes :=
  if (op <? Op_val OP_ISLT) || (Op_val OP_INVALID <=? op) then Some (qb "???")
  else match row op with Some bc => Some (bc_name bc) | None => None end.

(** ** Instruction words *)

(** The words of the two formats. *)
Definition word_abc (op a b c : Z) : Z := op + a * 2 ^ 8 + c * 2 ^ 16 + b * 2 ^ 24.
Definition word_ad (op a d : Z) : Z := op + a * 2 ^ 8 + d * 2 ^ 16.

Context {LL : LjBcLaws L}.

Lemma row_some op : 0 <= op < BC__MAX -> exists bc, row op = Some bc.
Proof.
  intros Hop. unfold row, BC__MAX in *. destruct (Z.ltb_spec op 0); [lia|].
  apply lookup_lt_is_Some. lia.
Qed.

Lemma op_has_row o : o <> OP_INVALID -> exists bc, row (Op_val o) = Some bc.
Proof.
  intros Ho. apply row_some. unfold BC__MAX. pose proof bc_rows_law.
  pose proof (Op_val_small o Ho). lia.
Qed.

(** The documented operands of an opcode. *)
Definition doc_types (o : Op) : FieldType * FieldType * FieldType :=
  match doc_table !! Z.to_nat (Op_val o) with
  | Some r => field_types r
  | None => (Unused, Unused, Unused)
  end.

Lemma row_types o : o <> OP_INVALID -> exists bc, row (Op_val o) = Some bc /\ field_types bc = doc_types o.
Proof.
  intros Ho. destruct (op_has_row o Ho) as [bc Hbc]. exists bc. split; [done|].
  unfold row in Hbc. destruct (Op_val o <? 0) eqn:E; [done|].
  pose proof (Op_val_small o Ho) as Hsm. assert (Hlt : (Z.to_nat (Op_val o) < 85)%nat) by lia.
  pose proof (f_equal (lookup (Z.to_nat (Op_val o))) bc_types_law) as H.
  change (@map ByteCode) with (fun B (f : ByteCode -> B) => fmap (M:=list) f) in H.
  rewrite !list_lookup_fmap, !lookup_take_lt, Hbc in H by done. unfold doc_types.
  destruct (doc_table !! Z.to_nat (Op_val o)); simpl in H; congruence.
Qed.

(** Decoding a word of either format gives back its fields. *)
Lemma dissect_ad op a d bc :
  0 <= op < 2 ^ 8 -> 0 <= a < 2 ^ 8 -> 0 <= d < 2 ^ 16 ->
  row op = Some bc -> d_fb bc = Unused ->
  dissectInstruction (word_ad op a d) =
  {| d_name := bc_name bc; d_op := op; d_ta := d_fa bc; d_tb := d_fb bc; d_tcd := d_fcd bc;
     d_a := if bool_decide (d_fa bc = Unused) then 0 else a;
     d_b := 0;
     d_cd := if bool_decide (d_fcd bc = Unused) then 0 else d |}.
Proof.
  intros Hop Ha Hd Hr Hb. unfold dissectInstruction.
  assert (0 <= word_ad op a d < 2 ^ 32) by (unfold word_ad; lia).
  rewrite bc_op_law by done.
  assert (word_ad op a d mod 2 ^ 8 = op) as ->
    by (unfold word_ad; Z.to_euclidean_division_equations; lia).
  rewrite Hr, u8_small, Hb by lia.
  rewrite bc_a_law by done. rewrite Z.shiftr_div_pow2 by lia. f_equal.
  - destruct (bool_decide _); [done|]. unfold word_ad. Z.to_euclidean_division_equations; lia.
  - destruct (bool_decide _); [done|]. simpl.
    unfold word_ad. Z.to_euclidean_division_equations; lia.
Qed.

Lemma dissect_abc op a b c bc :
  0 <= op < 2 ^ 8 -> 0 <= a < 2 ^ 8 -> 0 <= b < 2 ^ 8 -> 0 <= c < 2 ^ 8 ->
  row op = Some bc -> d_fb bc <> Unused ->
  dissectInstruction (word_abc op a b c) =
  {| d_name := bc_name bc; d_op := op; d_ta := d_fa bc; d_tb := d_fb bc; d_tcd := d_fcd bc;
     d_a := if bool_decide (d_fa bc = Unused) then 0 else a;
     d_b := b;
     d_cd := if bool_decide (d_fcd bc = Unused) then 0 else c |}.
Proof.
  intros Hop Ha Hb Hc Hr Hfb. unfold dissectInstruction.
  assert (0 <= word_abc op a b c < 2 ^ 32) by (unfold word_abc; lia).
  rewrite bc_op_law by done.
  assert (word_abc op a b c mod 2 ^ 8 = op) as ->
    by (unfold word_abc; Z.to_euclidean_division_equations; lia).
  rewrite Hr, u8_small by lia. rewrite (bool_decide_eq_false_2 _ Hfb).
  rewrite bc_a_law, bc_b_law, bc_c_law by done. f_equal.
  - destruct (bool_decide _); [done|]. unfold word_abc. Z.to_euclidean_division_equations; lia.
  - unfold word_abc. Z.to_euclidean_division_equations; lia.
  - destruct (bool_decide _); [done|]. unfold word_abc. Z.to_euclidean_division_equations; lia.
Qed.

End Instructions.

Definition LuaJIT20 : LjBc := {|
  bc_op i := Z.land i 0xff;
  bc_a i := Z.land (Z.shiftr i 8) 0xff;
  bc_b i := Z.shiftr i 24;
  bc_c i := Z.land (Z.shiftr i 16) 0xff;
  s_byteCodes := doc_table
|}.

Lemma LuaJIT20_laws : LjBcLaws LuaJIT20.
Proof.
  constructor; simpl; intros; rewrite ?land_255, ?Z.shiftr_div_pow2 by lia; done || lia.
Qed.

(** ** Functions *)

(** [src/LuaJitBytecode.h:68-73] Var *)
Record Var := mkVar { d_startpc : Z; d_endpc : Z; v_name : bytes }.

Definition UvLocalMask : Z := 0x8000.
Definition UvImmutableMask : Z := 0x4000.

(** [src/LuaJitBytecode.h:47-89] Function *)
Record Function := mkFunction {
  d_sourceFile : QString;
  d_id : Z;
  d_flags : Z;
  d_numparams : Z;
  d_framesize : Z;
  d_isRoot : bool;
  d_firstline : Z;
  d_numline : Z;
  d_byteCodes : list Z;
  d_upvals : list Z;
  d_constObjs : list QVariant;
  d_constNums : list QVariant;
  d_lines : list Z;
  d_upNames : list bytes;
  d_vars : list Var;
  d_varNames : list bytes;
  d_outer : option nat
}.

(** The function objects of the program, by address. *)
Abbreviation Heap := (list Function).

(** [src/LuaJitBytecode.h:83-83] isStripped *)
Definition fn_isStripped (f : Function) : bool :=
  match d_lines f, d_upNames f, d_vars f with [], [], [] => true | _, _, _ => false end.

(** [src/LuaJitBytecode.h:84-84] getUpval *)
Definition getUpval (f : Function) (i : Z) : Z :=
  if (0 <=? i) && (i <? Z.of_nat (length (d_upvals f))) then
    match d_upvals f !! Z.to_nat i with
    | Some u => u16 (Z.land u (Z.lnot (Z.lor UvImmutableMask UvLocalMask)))
    | None => 0
    end
  else 0.

(** [src/LuaJitBytecode.h:85-85] isLocalUpval *)
Definition isLocalUpval (f : Function) (i : Z) : bool :=
  if (0 <=? i) && (i <? Z.of_nat (length (d_upvals f))) then
    match d_upvals f !! Z.to_nat i with
    | Some u => negb (Z.land u UvLocalMask =? 0)
    | None => false
    end
  else false.

(** Without a check of the index.
    [src/LuaJitBytecode.h:86-86] isImmutableUpval *)
Definition isImmutableUpval (f : Function) (i : Z) : option bool :=
  if i <? 0 then None
  else u ← d_upvals f !! Z.to_nat i; Some (negb (Z.land u UvImmutableMask =? 0)).

(** [src/LuaJitBytecode.h:88-88] lastLine *)
Definition lastLine (f : Function) : Z := u32 (d_firstline f + d_numline f - 1).

(** The loop over [d_vars]: the number of variables looked at, and the result.
    The comparison of [d_startpc] with the [int] [pc] is unsigned.
    [src/LuaJitBytecode.cpp:1118-1129] findVar *)
Fixpoint findVar_loop (vars : list Var) (pc slot idx : Z) : option Var * Z :=
  match vars with
  | [] => (None, idx)
  | v :: vars =>
      let idx := idx + 1 in
      if u32 pc <? d_startpc v then (None, idx)
      else if u32 pc <=? d_endpc v then
        if slot =? 0 then (Some v, idx) else findVar_loop vars pc (slot - 1) idx
      else findVar_loop vars pc slot idx
  end.

(** [src/LuaJitBytecode.cpp:1103-1130] findVar *)
Definition findVar (f : Function) (pc slot : Z) : option Var * Z :=
  let pc := pc + 1 in
  let pc := pc + 1 in
  findVar_loop (d_vars f) pc slot 0.

(** [src/LuaJitBytecode.cpp:1132-1139] getVarName *)
Definition getVarName (f : Function) (pc slot : Z) : bytes :=
  match fst (findVar f pc slot) with Some v => v_name v | None => [] end.

(** [QByteArray::startsWith('(')] *)
Definition startsWithPar (s : bytes) : bool :=
  match s with c :: _ => bool_decide (c = "("%byte) | [] => false end.

(** The body of the two loops.
    [src/LuaJitBytecode.cpp:1152-1157] calcVarNames *)
Definition calcVarNames_step (f : Function) (pc : Z) (names : list bytes) (slot : nat) : list bytes :=
  let name := getVarName f pc (Z.of_nat slot) in
  match name with
  | [] => names
  | _ =>
      match names !! slot with
      | Some slotName =>
          if bool_decide (slotName = []) || startsWithPar slotName
          then <[slot := name]> names else names
      | None => names
      end
  end.

(** [src/LuaJitBytecode.cpp:1141-1161] calcVarNames *)
Definition calcVarNames_list (f : Function) : list bytes :=
  foldl (fun names pc =>
      foldl (calcVarNames_step f (Z.of_nat pc)) names (seq 0 (Z.to_nat (d_framesize f))))
    (replicate (Z.to_nat (d_framesize f)) []) (seq 0 (length (d_byteCodes f))).

Definition set_varNames (f : Function) (names : list bytes) : Function :=
  {| d_sourceFile := d_sourceFile f; d_id := d_id f; d_flags := d_flags f;
     d_numparams := d_numparams f; d_framesize := d_framesize f; d_isRoot := d_isRoot f;
     d_firstline := d_firstline f; d_numline := d_numline f; d_byteCodes := d_byteCodes f;
     d_upvals := d_upvals f; d_constObjs := d_constObjs f; d_constNums := d_constNums f;
     d_lines := d_lines f; d_upNames := d_upNames f; d_vars := d_vars f;
     d_varNames := names; d_outer := d_outer f |}.

(** [src/LuaJitBytecode.cpp:1141-1161] calcVarNames *)
Definition calcVarNames (f : Function) : Function :=
  match d_varNames f with
  | [] => set_varNames f (calcVarNames_list f)
  | _ => f
  end.

(** The recursion follows [d_outer]; the result is the slot and the address of
    the function it belongs to, or [0] and no function.  The outer [None] stands
    for a recursion deeper than [fuel].
    [src/LuaJitBytecode.cpp:1163-1171] getFuncSlotFromUpval *)
Fixpoint getFuncSlotFromUpval (fuel : nat) (h : Heap) (f : nat) (upval : Z)
    : option (Z * option nat) :=
  match fuel with
  | O => None
  | S fuel =>
      match h !! f with
      | None => None
      | Some fn =>
          match d_outer fn with
          | None => Some (0, None)
          | Some o =>
              if isLocalUpval fn upval then Some (u8 (getUpval fn upval), Some o)
              else getFuncSlotFromUpval fuel h o (u8 (getUpval fn upval))
          end
      end
  end.

(** ** File header *)

(** [src/LuaJitBytecode.cpp:32-48] BCDUMP_HEAD1 *)
Definition BCDUMP_HEAD1 : Z := 0x1b.
Definition BCDUMP_HEAD2 : Z := 0x4c.
Definition BCDUMP_HEAD3 : Z := 0x4a.
Definition BCDUMP_VERSION : Z := 1.
Definition BCDUMP_F_BE : Z := 0x01.
Definition BCDUMP_F_STRIP : Z := 0x02.
Definition BCDUMP_F_FFI : Z := 0x04.
Definition BCDUMP_F_KNOWN : Z := BCDUMP_F_FFI * 2 - 1.

(** The error message, empty for a valid header.
    [src/LuaJitBytecode.cpp:1090-1101] checkFileHeader *)
Definition checkFileHeader (buf : bytes) : bytes :=
  match buf with
  | b0 :: b1 :: b2 :: b3 :: _ =>
      if negb (bool_decide (b0 = zbyte BCDUMP_HEAD1)) ||
         negb (bool_decide (b1 = zbyte BCDUMP_HEAD2)) ||
         negb (bool_decide (b2 = zbyte BCDUMP_HEAD3))
      then qb "invalid header format"
      else if negb (bool_decide (b3 = zbyte BCDUMP_VERSION)) then qb "wrong version"
      else []
  | _ => qb "file too short, invalid header"
  end.

(** [src/LuaJitBytecode.h:172-172] isLuaJitBc *)
Definition isLuaJitBc (buf : bytes) : bool := bool_decide (checkFileHeader buf = []).

(** ** Variables of a function *)

(** The variables [findVar] considers at [pc], in order. *)
Definition var_started (pc : Z) (v : Var) : bool := d_startpc v <=? pc + 2.
Definition var_live (pc : Z) (v : Var) : Prop := pc + 2 <= d_endpc v.
#[export] Instance var_live_dec pc v : Decision (var_live pc v).
Proof. apply Z_le_dec. Defined.

Definition visible_vars (f : Function) (pc : Z) : list Var :=
  filter (var_live pc) (take_while (var_started pc) (d_vars f)).

Lemma findVar_loop_spec vars pc slot idx :
  0 <= pc -> pc + 2 < 2 ^ 32 -> 0 <= slot ->
  fst (findVar_loop vars (pc + 2) slot idx) =
  filter (var_live pc) (take_while (var_started pc) vars) !! Z.to_nat slot.
Proof.
  intros Hpc Hlt. revert slot idx. induction vars as [|v vars IH]; intros slot idx Hs; simpl.
  - done.
  - rewrite u32_small by lia.
    assert (var_started pc v = negb (pc + 2 <? d_startpc v)) as -> by apply Z.leb_antisym.
    destruct (Z.ltb_spec (pc + 2) (d_startpc v)); simpl; [done|].
    rewrite filter_cons.
    destruct (Z.leb_spec (pc + 2) (d_endpc v)); case_decide as Hl; unfold var_live in Hl;
      try lia; [|by apply IH].
    destruct (Z.eqb_spec slot 0) as [->|]; [done|].
    rewrite IH by lia. replace (Z.to_nat slot) with (S (Z.to_nat (slot - 1))) by lia. done.
Qed.

(** [findVar(pc, slot)] is the [slot]-th of the variables live at [pc] among
    those listed before the first one that starts later; there is no result when
    fewer variables are live. *)
Theorem findVar_spec f pc slot :
  0 <= pc -> pc + 2 < 2 ^ 32 -> 0 <= slot ->
  fst (findVar f pc slot) = visible_vars f pc !! Z.to_nat slot.
Proof.
  intros. unfold findVar. replace (pc + 1 + 1) with (pc + 2) by lia.
  by apply findVar_loop_spec.
Qed.

(** A function with three variables, for examples. *)
Definition example_fn : Function :=
  {| d_sourceFile := []; d_id := 0; d_flags := 0; d_numparams := 1; d_framesize := 3;
     d_isRoot := true; d_firstline := 1; d_numline := 3; d_byteCodes := [0; 0; 0];
     d_upvals := [0x8001; 2]; d_constObjs := []; d_constNums := []; d_lines := [1; 2; 3];
     d_upNames := []; d_vars := [mkVar 0 5 (qb "x"); mkVar 2 2 (qb "(for index)");
                                 mkVar 3 5 (qb "i")];
     d_varNames := []; d_outer := None |}.

Lemma findVar_spec_witness :
  fst (findVar example_fn 1 1) = Some (mkVar 3 5 (qb "i")) /\
  fst (findVar example_fn 1 1) = visible_vars example_fn 1 !! 1%nat.
Proof. split; [reflexivity|]. apply (findVar_spec example_fn 1 1); lia. Defined.

(** ** Names of the slots *)

(** How the name found at one [pc] updates the name of a slot. *)
Definition merge_name (old name : bytes) : bytes :=
  match name with
  | [] => old
  | _ => if bool_decide (old = []) || startsWithPar old then name else old
  end.

Definition proper_name (s : bytes) : bool := negb (bool_decide (s = [])) && negb (startsWithPar s).

(** The first name that is not an internal one, else the last name at all. *)
Fixpoint choose_name (l : list bytes) (dflt : bytes) : bytes :=
  match l with
  | [] => dflt
  | s :: l => if proper_name s then s
              else choose_name l (if bool_decide (s = []) then dflt else s)
  end.

Definition slot_names (f : Function) (slot : nat) : list bytes :=
  map (fun pc => getVarName f (Z.of_nat pc) (Z.of_nat slot)) (seq 0 (length (d_byteCodes f))).

Lemma merge_choose l old :
  foldl merge_name old l = if proper_name old then old else choose_name l old.
Proof.
  revert old. induction l as [|s l IH]; intros old; simpl; [by destruct (proper_name old)|].
  rewrite IH. destruct s as [|c s]; simpl.
  - by destruct (proper_name old).
  - replace (bool_decide (c :: s = [])) with false by (symmetry; by apply bool_decide_eq_false_2).
    destruct (bool_decide (old = []) || startsWithPar old) eqn:E.
    + assert (proper_name old = false) as ->; [|done].
      unfold proper_name. by rewrite <- negb_orb, E.
    + assert (proper_name old = true) as ->; [|done].
      unfold proper_name. by rewrite <- negb_orb, E.
Qed.

Lemma step_lookup f pc names slot slot' :
  (slot < length names)%nat ->
  calcVarNames_step f pc names slot !! slot' =
  if decide (slot' = slot)
  then merge_name (default [] (names !! slot)) <$> (Some (getVarName f pc (Z.of_nat slot)))
  else names !! slot'.
Proof.
  intros Hlt. destruct (lookup_nat_lt _ _ Hlt) as [old Hold].
  unfold calcVarNames_step. rewrite Hold. simpl. unfold merge_name.
  destruct (getVarName f pc (Z.of_nat slot)) as [|c s].
  - case_decide; subst; [by rewrite Hold|done].
  - destruct (_ || _).
    + case_decide; subst; [by rewrite list_lookup_insert_eq|].
      by rewrite list_lookup_insert_ne.
    + case_decide; subst; [by rewrite Hold|done].
Qed.

Lemma length_step f pc names slot : length (calcVarNames_step f pc names slot) = length names.
Proof.
  unfold calcVarNames_step. destruct (getVarName _ _ _); [done|].
  destruct (names !! slot); [|done]. destruct (_ || _); rewrite ?length_insert; done.
Qed.

Lemma length_steps f pc names slots :
  length (foldl (calcVarNames_step f pc) names slots) = length names.
Proof.
  revert names. induction slots as [|s slots IH]; intros names; simpl; [done|].
  by rewrite IH, length_step.
Qed.

Lemma steps_lookup f pc names k n slot :
  (k + n <= length names)%nat ->
  foldl (calcVarNames_step f pc) names (seq k n) !! slot =
  if decide (k <= slot < k + n)%nat
  then Some (merge_name (default [] (names !! slot)) (getVarName f pc (Z.of_nat slot)))
  else names !! slot.
Proof.
  revert k names. induction n as [|n IH]; intros k names Hle; simpl.
  - case_decide; [lia|done].
  - rewrite IH by (rewrite length_step; lia). rewrite step_lookup by lia.
    do 3 case_decide; subst; try lia; done.
Qed.

Lemma calc_lookup f slot pcs names :
  length names = Z.to_nat (d_framesize f) -> (slot < length names)%nat ->
  foldl (fun names pc =>
      foldl (calcVarNames_step f (Z.of_nat pc)) names (seq 0 (Z.to_nat (d_framesize f))))
    names pcs !! slot =
  Some (foldl merge_name (default [] (names !! slot))
          (map (fun pc => getVarName f (Z.of_nat pc) (Z.of_nat slot)) pcs)).
Proof.
  revert names. induction pcs as [|pc pcs IH]; intros names Hlen Hlt; simpl.
  - destruct (lookup_nat_lt _ _ Hlt) as [old ->]. done.
  - rewrite IH by (rewrite length_steps; lia). rewrite steps_lookup by lia.
    case_decide; [done|lia].
Qed.

(** [calcVarNames] gives each slot of the frame the first source name any
    instruction sees in it; a slot that only ever holds internal variables gets
    the last of their parenthesised names, and an unused one the empty name. *)
Theorem calcVarNames_spec f slot :
  d_varNames f = [] -> (slot < Z.to_nat (d_framesize f))%nat ->
  d_varNames (calcVarNames f) !! slot = Some (choose_name (slot_names f slot) []).
Proof.
  intros Hf Hs. unfold calcVarNames. rewrite Hf. simpl. unfold calcVarNames_list.
  rewrite calc_lookup by (rewrite length_replicate; lia).
  rewrite lookup_replicate_2 by lia. simpl. rewrite merge_choose. done.
Qed.

Lemma calcVarNames_spec_witness :
  d_varNames (calcVarNames example_fn) !! 1%nat = Some (qb "i") /\
  Some (qb "i") = Some (choose_name (slot_names example_fn 1) []).
Proof.
  split; [reflexivity|].
  rewrite <- (calcVarNames_spec example_fn 1); [reflexivity|reflexivity|].
  vm_compute. lia.
Defined.

(** ** Upvalues *)

(** Where an upvalue leads: to a slot of the next outer function, or to what an
    upvalue of the outer function leads to; the outermost function has none. *)
Inductive resolves (h : Heap) : nat -> Z -> Z * option nat -> Prop :=
  | resolves_root f fn uv :
      h !! f = Some fn -> d_outer fn = None -> resolves h f uv (0, None)
  | resolves_local f fn uv o :
      h !! f = Some fn -> d_outer fn = Some o -> isLocalUpval fn uv = true ->
      resolves h f uv (u8 (getUpval fn uv), Some o)
  | resolves_outer f fn uv o r :
      h !! f = Some fn -> d_outer fn = Some o -> isLocalUpval fn uv = false ->
      resolves h o (u8 (getUpval fn uv)) r -> resolves h f uv r.

(** An outer function comes after the functions it contains, as in a bytecode
    file. *)
Definition outer_after (h : Heap) : Prop :=
  forall i fn o, h !! i = Some fn -> d_outer fn = Some o -> (i < o < length h)%nat.

Lemma resolve_fuel h fuel f uv :
  outer_after h -> (f < length h)%nat -> (length h - f <= fuel)%nat ->
  exists r, getFuncSlotFromUpval fuel h f uv = Some r /\ resolves h f uv r.
Proof.
  intros Ho. revert f uv. induction fuel as [|fuel IH]; intros f uv Hf Hfuel; [lia|].
  destruct (lookup_nat_lt _ _ Hf) as [fn Hfn]. simpl. rewrite Hfn.
  destruct (d_outer fn) as [o|] eqn:Eo.
  - destruct (isLocalUpval fn uv) eqn:El.
    + eexists. split; [done|]. eapply resolves_local; eauto.
    + destruct (Ho _ _ _ Hfn Eo). destruct (IH o (u8 (getUpval fn uv))) as (r & Hr & Hres); [lia..|].
      exists r. split; [done|]. eapply resolves_outer; eauto.
  - eexists. split; [done|]. eapply resolves_root; eauto.
Qed.

(** The recursion of [getFuncSlotFromUpval] ends on every function nesting
    of a bytecode file, after at most as many calls as there are functions, and
    its result is the slot the upvalue chain leads to. *)
Theorem getFuncSlotFromUpval_total h f uv :
  outer_after h -> (f < length h)%nat ->
  exists r, getFuncSlotFromUpval (length h) h f uv = Some r /\ resolves h f uv r.
Proof. intros. apply resolve_fuel; [done|done|lia]. Qed.

Definition with_outer (o : option nat) (f : Function) : Function :=
  {| d_sourceFile := d_sourceFile f; d_id := d_id f; d_flags := d_flags f;
     d_numparams := d_numparams f; d_framesize := d_framesize f; d_isRoot := d_isRoot f;
     d_firstline := d_firstline f; d_numline := d_numline f; d_byteCodes := d_byteCodes f;
     d_upvals := d_upvals f; d_constObjs := d_constObjs f; d_constNums := d_constNums f;
     d_lines := d_lines f; d_upNames := d_upNames f; d_vars := d_vars f;
     d_varNames := d_varNames f; d_outer := o |}.

Lemma getFuncSlotFromUpval_total_witness :
  let h := [with_outer (Some 1%nat) example_fn; with_outer (Some 2%nat) example_fn; example_fn] in
  getFuncSlotFromUpval 3 h 0 0 = Some (1, Some 1%nat) /\
  exists r, getFuncSlotFromUpval (length h) h 0 1 = Some r /\ resolves h 0 1 r.
Proof.
  intros h. split; [reflexivity|]. apply (getFuncSlotFromUpval_total h 0 1).
  - intros i fn o Hi Ho. destruct i as [|[|[|i]]]; simplify_eq/=; lia.
  - simpl. lia.
Defined.

(** ** The file header *)

(** [checkFileHeader] accepts exactly the buffers that start with the four
    bytes of a version 1 LuaJIT dump. *)
Theorem isLuaJitBc_iff buf :
  isLuaJitBc buf = true <-> exists rest, buf = [x1b; x4c; x4a; x01] ++ rest.
Proof.
  unfold isLuaJitBc, checkFileHeader. rewrite bool_decide_eq_true. split.
  - destruct buf as [|b0 [|b1 [|b2 [|b3 rest]]]]; try discriminate.
    repeat case_bool_decide; simpl; try discriminate. subst. intros _. by exists rest.
  - intros [rest ->]. reflexivity.
Qed.

(** A word whose opcode is beyond the table decodes like an [ISLT] without
    operands, since [d_op] keeps its initial value 0. *)
Lemma dissect_unknown_op `{L : LjBc} i :
  row (bc_op i) = None -> d_op (dissectInstruction i) = Op_val OP_ISLT.
Proof. intros H. unfold dissectInstruction. by rewrite H. Qed.
