(* ===== verification/QtLib.v ===== *)
(** * What the sources use of Qt

    Qt is not part of the sources.  Its value containers are modelled by their
    documented behaviour: [QByteArray] is [list byte], [QVector], [QList] and
    [QStringList] are lists, and a [QHash] is the list of its entries in its
    iteration order.  Everything else the sources rely on is a member of the class
    [QtLib]: the byte order of the host, the text conversions, the iteration order
    and the key comparison of a [QHash] with [QVariant] keys, and the conversions
    of a [QVariant] that are not numeric promotions. *)

From S2P Require Import Prelude Double Bytecode.
Local Open Scope Z_scope.

Class QtLib := {
  (** [QSysInfo::ByteOrder == QSysInfo::BigEndian] *)
  host_be : bool;
  (** whether the compiler evaluates the arguments of a call from left to right *)
  args_ltr : bool;
  fromUtf8 : bytes -> QString;
  toUtf8 : QString -> bytes;
  (** the order in which a [QHash] with these entries is iterated *)
  hash_order : forall {A : Type}, list (QVariant * A) -> list (QVariant * A);
  (** equal hash and equal by [operator==] *)
  key_eqb : QVariant -> QVariant -> bool;
  (** [QVariant::toDouble], [toInt], [toUInt], [toLongLong], [toBool] and [toByteArray] of other types *)
  other_toDouble : QVariant -> dbl;
  other_toInt : QVariant -> Z;
  other_toUInt : QVariant -> Z;
  other_toLongLong : QVariant -> Z;
  other_toBool : QVariant -> bool;
  other_toByteArray : QVariant -> bytes
}.

(** Documented behaviour: iterating a [QHash] visits each entry once. *)
Class QtLaws (Q : QtLib) : Prop := {
  hash_order_perm : forall A (l : list (QVariant * A)), hash_order l ≡ₚ l
}.

Section Qt.
Context `{Q : QtLib}.

(** [QVariant::toDouble] *)
Definition toDouble (v : QVariant) : dbl :=
  match v with
  | QInt z | QUInt z | QLongLong z | QULongLong z => dbl_of_Z z
  | QDouble d | QFloat d => d
  | _ => other_toDouble v
  end.

(** [QVariant::toInt] *)
Definition toInt (v : QVariant) : Z :=
  match v with
  | QInt z => z
  | QUInt z | QLongLong z | QULongLong z => s32 z
  | _ => other_toInt v
  end.

(** [QVariant::toUInt] *)
Definition toUInt (v : QVariant) : Z :=
  match v with
  | QUInt z => z
  | QInt z | QLongLong z | QULongLong z => u32 z
  | _ => other_toUInt v
  end.

(** [QVariant::toLongLong] *)
Definition toLongLong (v : QVariant) : Z :=
  match v with
  | QInt z | QUInt z | QLongLong z => z
  | QULongLong z => sgn 64 z
  | _ => other_toLongLong v
  end.

(** [QHash::value] *)
Fixpoint qhash_find {A} (k : QVariant) (l : list (QVariant * A)) : option A :=
  match l with
  | [] => None
  | (k', v) :: l => if key_eqb k' k then Some v else qhash_find k l
  end.

(** [QHash::insert]: the value of an existing key is replaced. *)
Fixpoint qhash_insert {A} (k : QVariant) (v : A) (l : list (QVariant * A))
    : list (QVariant * A) :=
  match l with
  | [] => [(k, v)]
  | (k', v') :: l => if key_eqb k' k then (k', v) :: l else (k', v') :: qhash_insert k v l
  end.

(** The keys of a [QHash] are pairwise different. *)
Definition keys_distinct {A} (l : list (QVariant * A)) : Prop :=
  forall i j e e', l !! i = Some e -> l !! j = Some e' -> i <> j -> key_eqb (fst e) (fst e') = false.

Lemma qhash_insert_fresh {A} k (v : A) l :
  (forall e, e ∈ l -> key_eqb (fst e) k = false) -> qhash_insert k v l = l ++ [(k, v)].
Proof.
  induction l as [|[k' v'] l IH]; intros H; simpl; [done|].
  pose proof (H (k', v') ltac:(constructor)) as E. simpl in E. rewrite E. f_equal. apply IH. intros e He. apply H. by constructor.
Qed.

End Qt.


(** ** An example

    A little-endian host whose text conversion is the one for Latin-1. *)
Definition simple_eqb (a b : QVariant) : bool :=
  match a, b with
  | QByteArray s, QByteArray t => bool_decide (s = t)
  | QBool x, QBool y => Bool.eqb x y
  | QInt x, QInt y | QUInt x, QUInt y => x =? y
  | QInt x, QUInt y | QUInt x, QInt y => x =? y
  | QDouble x, QDouble y => dbl_eqb x y
  | QDouble x, QInt y | QDouble x, QUInt y => dbl_eqb x (dbl_of_Z y)
  | QInt x, QDouble y | QUInt x, QDouble y => dbl_eqb (dbl_of_Z x) y
  | QInvalid, QInvalid => true
  | _, _ => false
  end.

Definition Qt_example : QtLib := {|
  host_be := false; args_ltr := true;
  fromUtf8 s := map ubyte s; toUtf8 s := map zbyte s;
  hash_order _ l := l; key_eqb := simple_eqb;
  other_toDouble _ := 0; other_toInt _ := 0; other_toUInt _ := 0; other_toLongLong _ := 0; other_toBool _ := false;
  other_toByteArray _ := []
|}.

Lemma Qt_example_laws : QtLaws Qt_example.
Proof. by constructor. Qed.
