(* ===== verification/BytecodeIO.v ===== *)
(** * Reading and writing bytecode files

    [JitBytecode::parse] and [JitBytecode::write] of [LuaJitBytecode.cpp] with
    everything they call.  A device that is read is the list of the bytes that are
    left; the functions that write return the bytes they put.  A [FuncRef] is the
    address of a [Function] in [d_funcs].  [None] is undefined behaviour or a
    failed [Q_ASSERT]; what the code reports through [error] or [qCritical] is
    kept in [d_log]. *)

From S2P Require Import Prelude Leb128 Double Bytecode QtLib.
From Stdlib Require Import Strings.Byte.
Local Open Scope Z_scope.
Local Open Scope rd_scope.

(** ** State *)

(** [src/LuaJitBytecode.h:187-190] JitBytecode *)
Record JitBytecode := mkJitBytecode {
  b_name : QString;
  d_funcs : Heap;
  (** the last function that was pushed first *)
  d_fstack : list nat;
  b_flags : Z;
  (** what was reported on [qCritical], last first *)
  d_log : list bytes
}.

(** [src/LuaJitBytecode.cpp:47-51] PROTO_CHILD *)
Definition PROTO_CHILD : Z := 0x01.
Definition PROTO_VARARG : Z := 0x02.
Definition PROTO_FFI : Z := 0x04.

(** [src/LuaJitBytecode.cpp:54-57] BCDUMP_KGC_CHILD *)
Definition BCDUMP_KGC_CHILD : Z := 0.
Definition BCDUMP_KGC_TAB : Z := 1.
Definition BCDUMP_KGC_STR : Z := 5.

(** [src/LuaJitBytecode.cpp:60-63] BCDUMP_KTAB_NIL *)
Definition BCDUMP_KTAB_NIL : Z := 0.
Definition BCDUMP_KTAB_FALSE : Z := 1.
Definition BCDUMP_KTAB_TRUE : Z := 2.
Definition BCDUMP_KTAB_INT : Z := 3.
Definition BCDUMP_KTAB_NUM : Z := 4.
Definition BCDUMP_KTAB_STR : Z := 5.

(** [src/LuaJitBytecode.cpp:75-83] s_varname *)
Definition s_varname : list bytes := [
  []; qb "(for index)"; qb "(for limit)"; qb "(for step)"; qb "(for generator)";
  qb "(for state)"; qb "(for control)"].
Definition VARNAME__MAX : Z := 7.

(** [src/LuaJitBytecode.cpp:1002-1008] setStripped *)
Definition setStripped (b : JitBytecode) (on : bool) : JitBytecode :=
  mkJitBytecode (b_name b) (d_funcs b) (d_fstack b) (if on then BCDUMP_F_STRIP else 0) (d_log b).

(** [src/LuaJitBytecode.cpp:520-523] isStripped *)
Definition isStripped (b : JitBytecode) : bool := negb (Z.land (b_flags b) BCDUMP_F_STRIP =? 0).

(** [src/LuaJitBytecode.cpp:512-518] getRoot *)
Definition getRoot (b : JitBytecode) : option nat :=
  match d_fstack b with [r] => Some r | _ => None end.

(** [src/LuaJitBytecode.cpp:533-539] clear *)
Definition clear (b : JitBytecode) : JitBytecode := mkJitBytecode [] [] [] 0 (d_log b).

(** [src/LuaJitBytecode.cpp:525-531] calcVarNames *)
Definition bc_calcVarNames (b : JitBytecode) : JitBytecode :=
  mkJitBytecode (b_name b) (map calcVarNames (d_funcs b)) (d_fstack b) (b_flags b) (d_log b).

Definition with_log (b : JitBytecode) (msg : bytes) : JitBytecode :=
  mkJitBytecode (b_name b) (d_funcs b) (d_fstack b) (b_flags b) (msg :: d_log b).

(** [src/LuaJitBytecode.cpp:996-1000] error *)
Definition error (b : JitBytecode) (msg : bytes) : JitBytecode := with_log b msg.

(** ** Reading *)

(** The bytes of a value in the other order, [qbswap]. *)
Definition qbswap (n : nat) (z : Z) : Z := le_combine (rev (le_split n z)).

(** [src/LuaJitBytecode.cpp:192-198] readByte *)
Definition readByte : Rd Z :=
  ch <~ dev_getChar; rret (match ch with Some c => ubyte c | None => 0 end).

(** [QVector(int)] and [QByteArray] have a size below 2^31. *)
Definition q_size (n : Z) : option nat := if n <? 2 ^ 31 then Some (Z.to_nat n) else None.
Definition rd_size (n : Z) : Rd nat := fun s => n ← q_size n; Some (n, s).

Section Reader.
Context `{Q : QtLib}.

(** The elements of a vector of [w]-byte words; those the device has no bytes
    for remain zero. *)
Fixpoint read_words (w : nat) (swap : bool) (len : nat) : Rd (list Z) :=
  match len with
  | O => rret []
  | S len =>
      buf <~ dev_read (Z.of_nat w);
      if (length buf <? w)%nat then rret (replicate (S len) 0)
      else
        let tmp := mem_load host_be buf in
        let tmp := if swap then qbswap w tmp else tmp in
        res <~ read_words w swap len; rret (tmp :: res)
  end.

(** [src/LuaJitBytecode.cpp:205-222] readCode *)
Definition readCode (swap : bool) (len : Z) : Rd (list Z) :=
  n <~ rd_size len; read_words 4 swap n.

(** [src/LuaJitBytecode.cpp:224-241] readUpval *)
Definition readUpval (swap : bool) (len : Z) : Rd (list Z) :=
  n <~ rd_size len; read_words 2 swap n.

(** The members of [union TValue].
    [src/LuaJitBytecode.cpp:86-92] TValue *)
Definition TValue_d (lo hi : Z) : dbl := if host_be then lo * 2 ^ 32 + hi else hi * 2 ^ 32 + lo.
Definition TValue_lo (d : dbl) : Z := if host_be then d / 2 ^ 32 else d mod 2 ^ 32.
Definition TValue_hi (d : dbl) : Z := if host_be then d mod 2 ^ 32 else d / 2 ^ 32.

(** [src/LuaJitBytecode.cpp:244-264] bcread_ktabk *)
Definition bcread_ktabk : Rd QVariant :=
  tp <~ bcread_uleb128;
  if BCDUMP_KTAB_STR <=? tp then
    let len := tp - BCDUMP_KTAB_STR in
    s <~ dev_read len; rret (QByteArray s)
  else if tp =? BCDUMP_KTAB_INT then
    v <~ bcread_uleb128; rret (QUInt v)
  else if tp =? BCDUMP_KTAB_NUM then
    lo <~ bcread_uleb128; hi <~ bcread_uleb128; rret (QDouble (TValue_d lo hi))
  else if tp =? BCDUMP_KTAB_TRUE then rret (QBool true)
  else if tp =? BCDUMP_KTAB_FALSE then rret (QBool false)
  else if tp =? BCDUMP_KTAB_NIL then rret QInvalid
  else fun _ => None.

(** The loop over the array part.
    [src/LuaJitBytecode.cpp:284-285] readObjConsts *)
Fixpoint read_array (n : nat) : Rd (list QVariant) :=
  match n with
  | O => rret []
  | S n => v <~ bcread_ktabk; l <~ read_array n; rret (v :: l)
  end.

(** The two arguments of [insert], in the order the compiler evaluates them.
    [src/LuaJitBytecode.cpp:292-292] readObjConsts *)
Definition read_entry : Rd (QVariant * QVariant) :=
  x <~ bcread_ktabk; y <~ bcread_ktabk; rret (if args_ltr then (x, y) else (y, x)).

(** The loop over the hash part.
    [src/LuaJitBytecode.cpp:291-292] readObjConsts *)
Fixpoint read_hash (n : nat) (h : list (QVariant * QVariant)) : Rd (list (QVariant * QVariant)) :=
  match n with
  | O => rret h
  | S n => e <~ read_entry; read_hash n (qhash_insert (fst e) (snd e) h)
  end.

(** [src/LuaJitBytecode.cpp:279-294] readObjConsts *)
Definition read_table : Rd QVariant :=
  narray <~ bcread_uleb128; nhash <~ bcread_uleb128;
  na <~ rd_size narray; nh <~ rd_size nhash;
  arr <~ read_array na; h <~ read_hash nh [];
  rret (QConstTable h (tail arr)).

(** [r->d_outer = f] *)
Definition set_outer (h : Heap) (r f : nat) : Heap := alter (with_outer (Some f)) r h.

(** The function [f] whose constants are read gets its address when it is
    appended to [d_funcs].
    [src/LuaJitBytecode.cpp:299-310] readObjConsts *)
Definition link_child (f : nat) (b : JitBytecode) : QVariant * JitBytecode :=
  match d_fstack b with
  | [] => (QInvalid, error b (qb "referencing unknown child function"))
  | r :: fstack =>
      let orphan := match d_funcs b !! r with
                    | Some rf => bool_decide (d_outer rf = None) | None => true end in
      let b' := if orphan
                then mkJitBytecode (b_name b) (set_outer (d_funcs b) r f) (d_fstack b)
                       (b_flags b) (d_log b)
                else error b (qb "invalid function hierarchy") in
      (QFuncRef r, mkJitBytecode (b_name b') (d_funcs b') fstack (b_flags b') (d_log b'))
  end.

(** The body of the loop.
    [src/LuaJitBytecode.cpp:271-311] readObjConsts *)
Definition readObjConst (f : nat) (b : JitBytecode) : Rd (QVariant * JitBytecode) :=
  tp <~ bcread_uleb128;
  if BCDUMP_KGC_STR <=? tp then
    s <~ dev_read (tp - BCDUMP_KGC_STR); rret (QByteArray s, b)
  else if tp =? BCDUMP_KGC_TAB then
    t <~ read_table; rret (t, b)
  else if negb (tp =? BCDUMP_KGC_CHILD) then
    rret (QInvalid, with_log b (qb "FFI not supported"))
  else rret (link_child f b).

Fixpoint readObjConsts_loop (f : nat) (n : nat) (b : JitBytecode)
    : Rd (list QVariant * JitBytecode) :=
  match n with
  | O => rret ([], b)
  | S n =>
      x <~ readObjConst f b; y <~ readObjConsts_loop f n (snd x);
      rret (fst x :: fst y, snd y)
  end.

(** [src/LuaJitBytecode.cpp:266-314] readObjConsts *)
Definition readObjConsts (f : nat) (len : Z) (b : JitBytecode) : Rd (list QVariant * JitBytecode) :=
  n <~ rd_size len; readObjConsts_loop f n b.

(** The body of the loop.
    [src/LuaJitBytecode.cpp:321-348] readNumConsts *)
Definition readNumConst : Rd QVariant := fun s =>
  let isnum := match s with ch :: _ => negb (Z.land (schar ch) 1 =? 0) | [] => false end in
  (lo <~ bcread_uleb128_33;
   if isnum then hi <~ bcread_uleb128; rret (QDouble (TValue_d lo hi))
   else rret (QUInt lo)) s.

Fixpoint readNumConsts_loop (n : nat) : Rd (list QVariant) :=
  match n with
  | O => rret []
  | S n => v <~ readNumConst; l <~ readNumConsts_loop n; rret (v :: l)
  end.

(** [src/LuaJitBytecode.cpp:316-351] readNumConsts *)
Definition readNumConsts (len : Z) : Rd (list QVariant) :=
  n <~ rd_size len; readNumConsts_loop n.

(** [memcpy] of [n] bytes at position [j], undefined outside of the buffer. *)
Definition load_at (n : nat) (buf : bytes) (j : nat) : option Z :=
  let b := take n (drop j buf) in
  if (length b =? n)%nat then Some (mem_load host_be b) else None.

(** The loop over the lines, [w] bytes per number.
    [src/LuaJitBytecode.cpp:370-400] readLineNumbers *)
Definition line_at (w : nat) (swap : bool) (buf : bytes) (firstline : Z) (i : nat) : option Z :=
  tmp ← load_at w buf (w * i);
  let tmp := if swap then qbswap w tmp else tmp in
  Some (u32 (tmp + firstline)).

(** The parameters are of type [int].
    [src/LuaJitBytecode.cpp:353-402] readLineNumbers *)
Definition readLineNumbers (swap : bool) (sizeli sizebc numline firstline : Z) (b : JitBytecode)
    : Rd (list Z * JitBytecode) :=
  if sizeli =? 0 then rret ([], b)
  else
    buf <~ dev_read sizeli;
    if bool_decide (buf = []) then rret ([], b)
    else if Z.of_nat (length buf) <? sizeli then rret ([], with_log b (qb "chunk too short"))
    else if sizebc <? 0 then fun _ => None
    else
      let at_ := if numline <? 256 then line_at 1 false buf firstline
                 else if numline <? 65536 then line_at 2 swap buf firstline
                 else line_at 4 swap buf firstline in
      fun s => lines ← list_map_option at_ (seq 0 (Z.to_nat sizebc)); Some (lines, b, s).

(** The bytes before the first zero and those after it: [indexOf] and [mid].
    The buffer comes with the zero behind its end, which is not found. *)
Fixpoint split_zero (p : bytes) : option (bytes * bytes) :=
  match p with
  | [] => None
  | c :: p =>
      match p with
      | [] => None
      | _ => if bool_decide (c = x00) then Some ([], p)
             else match split_zero p with Some (n, r) => Some (c :: n, r) | None => None end
      end
  end.

(** The loop over the names of the upvalues; the flag is false when one has no end.
    [src/LuaJitBytecode.cpp:411-422] readNames *)
Fixpoint read_upNames (sizeuv : nat) (p : bytes) : list bytes * option bytes :=
  match sizeuv with
  | O => ([], Some p)
  | S n =>
      match split_zero p with
      | None => ([], None)
      | Some (name, p) => let r := read_upNames n p in (name :: fst r, snd r)
      end
  end.

(** One record of the variables: its name.
    [src/LuaJitBytecode.cpp:433-445] readNames *)
Definition read_varname (p : bytes) : option (option (bytes * bytes)) :=
  match p with
  | [] => None
  | c :: p' =>
      if VARNAME__MAX <? schar c then Some (split_zero p)
      else match s_varname !! Z.to_nat (ubyte c) with
           | Some name => Some (Some (name, p'))
           | None => None
           end
  end.

(** The loop over the variables; the flag is false when a name has no end.  Each
    round uses up a byte at least, so the length of the buffer is fuel enough.
    [src/LuaJitBytecode.cpp:428-450] readNames *)
Fixpoint read_vars (fuel : nat) (lastpc : Z) (p : bytes) : option (list Var * bool) :=
  match fuel with
  | O => None
  | S fuel =>
      if (length p <=? 1)%nat || bool_decide (head p = Some x00) then Some ([], true)
      else
        match read_varname p with
        | None => None
        | Some None => Some ([], false)
        | Some (Some (name, p)) =>
            '(d1, p) ← debug_read_uleb128 p;
            let startpc := u32 (lastpc + d1) in
            '(d2, p) ← debug_read_uleb128 p;
            let v := mkVar startpc (u32 (startpc + d2)) name in
            '(vars, ok) ← read_vars fuel startpc p;
            Some (v :: vars, ok)
        end
  end.

Definition invalid_names (b : JitBytecode) (ok : bool) : JitBytecode :=
  if ok then b else with_log b (qb "invalid upval debug info").

(** The parameters are of type [int]; the result of the code, which its caller
    does not use, is left out.
    [src/LuaJitBytecode.cpp:404-452] readNames *)
Definition readNames (len sizeuv : Z) (b : JitBytecode)
    : Rd (list bytes * list Var * JitBytecode) :=
  if len =? 0 then rret ([], [], b)
  else
    tmp <~ dev_read len;
    let '(ups, p) := read_upNames (Z.to_nat sizeuv) (tmp ++ [x00]) in
    match p with
    | None => rret (ups, [], invalid_names b false)
    | Some p =>
        fun s => '(vars, ok) ← read_vars (S (length p)) 0 p;
                 Some (ups, vars, invalid_names b ok, s)
    end.

(** [src/LuaJitBytecode.cpp:604-625] parseHeader *)
Definition parseHeader (b : JitBytecode) : Rd (bool * JitBytecode) :=
  buf <~ dev_read 4;
  let err := checkFileHeader buf in
  if negb (bool_decide (err = [])) then rret (false, error b err)
  else
    flags <~ bcread_uleb128;
    let flags := u8 flags in
    let b := mkJitBytecode (b_name b) (d_funcs b) (d_fstack b) flags (d_log b) in
    if negb (Z.land flags (Z.lnot BCDUMP_F_KNOWN) =? 0)
    then rret (false, error b (qb "unknown dump"))
    else if negb (Z.land flags BCDUMP_F_FFI =? 0)
    then rret (false, error b (qb "FFI dumps not supported"))
    else if Z.land flags BCDUMP_F_STRIP =? 0 then
      len <~ bcread_uleb128;
      name <~ dev_read len;
      rret (true, mkJitBytecode (fromUtf8 name) (d_funcs b) (d_fstack b) flags (d_log b))
    else rret (true, b).

(** The number of bytes of the line numbers, a [quint32].
    [src/LuaJitBytecode.cpp:677-677] parseFunction *)
Definition size_lines (sizebc numline : Z) : Z :=
  u32 (Z.shiftl sizebc (if numline <? 256 then 0 else if numline <? 65536 then 1 else 2)).

(** [src/LuaJitBytecode.cpp:644-685] parseFunction *)
Definition parseFunction (b : JitBytecode) : Rd (bool * JitBytecode) :=
  len <~ bcread_uleb128;
  if len =? 0 then rret (false, b)
  else
    flags <~ readByte; numparams <~ readByte; framesize <~ readByte; sizeuv <~ readByte;
    sizekgc <~ bcread_uleb128; sizekn <~ bcread_uleb128; sizebc <~ bcread_uleb128;
    sizedbg <~ (if isStripped b then rret 0 else bcread_uleb128);
    firstline <~ (if sizedbg =? 0 then rret 0 else bcread_uleb128);
    numline <~ (if sizedbg =? 0 then rret 0 else bcread_uleb128);
    let swap := negb (Bool.eqb (negb (Z.land (b_flags b) BCDUMP_F_BE =? 0)) host_be) in
    byteCodes <~ readCode swap sizebc;
    upvals <~ readUpval swap sizeuv;
    let self := length (d_funcs b) in
    objs <~ readObjConsts self sizekgc b;
    nums <~ readNumConsts sizekn;
    let sizeli := size_lines sizebc numline in
    lines <~ readLineNumbers swap (if sizedbg =? 0 then 0 else s32 sizeli) (s32 sizebc)
               (s32 numline) (s32 firstline) (snd objs);
    names <~ readNames (if sizedbg =? 0 then 0 else s32 (sizedbg - sizeli)) sizeuv (snd lines);
    let b' := snd names in
    let f := {| d_sourceFile := b_name b; d_id := Z.of_nat self; d_flags := flags;
                d_numparams := numparams; d_framesize := framesize; d_isRoot := false;
                d_firstline := firstline; d_numline := numline; d_byteCodes := byteCodes;
                d_upvals := upvals; d_constObjs := fst objs; d_constNums := nums;
                d_lines := fst lines; d_upNames := fst (fst names); d_vars := snd (fst names);
                d_varNames := []; d_outer := None |} in
    rret (true, mkJitBytecode (b_name b') (d_funcs b' ++ [f]) (self :: d_fstack b')
                  (b_flags b') (d_log b')).

(** The loop that reads the functions; each round uses up a byte at least.
    [src/LuaJitBytecode.cpp:482-486] parse *)
Fixpoint parse_loop (fuel : nat) (b : JitBytecode) (s : bytes) : option (JitBytecode * bytes) :=
  match s with
  | [] => Some (b, [])
  | _ =>
      match fuel with
      | O => None
      | S fuel =>
          '(more, b, s) ← parseFunction b s;
          if (more : bool) then parse_loop fuel b s else Some (b, s)
      end
  end.

Definition set_isRoot (f : Function) : Function :=
  {| d_sourceFile := d_sourceFile f; d_id := d_id f; d_flags := d_flags f;
     d_numparams := d_numparams f; d_framesize := d_framesize f; d_isRoot := true;
     d_firstline := d_firstline f; d_numline := d_numline f; d_byteCodes := d_byteCodes f;
     d_upvals := d_upvals f; d_constObjs := d_constObjs f; d_constNums := d_constNums f;
     d_lines := d_lines f; d_upNames := d_upNames f; d_vars := d_vars f;
     d_varNames := d_varNames f; d_outer := d_outer f |}.

(** [src/LuaJitBytecode.cpp:487-488] parse *)
Definition mark_root (b : JitBytecode) : JitBytecode :=
  match getRoot b with
  | Some r => mkJitBytecode (b_name b) (alter set_isRoot r (d_funcs b)) (d_fstack b)
                (b_flags b) (d_log b)
  | None => b
  end.

(** [src/LuaJitBytecode.cpp:468-490] parse *)
Definition parse (path : QString) (b : JitBytecode) (inp : bytes)
    : option (bool * JitBytecode * bytes) :=
  let b := clear b in
  '(ok, b, s) ← parseHeader b inp;
  if negb ok then Some (false, b, s)
  else
    let b := match b_name b with
             | [] => mkJitBytecode path (d_funcs b) (d_fstack b) (b_flags b) (d_log b)
             | _ => b end in
    '(b, s) ← parse_loop (S (length s)) b s;
    Some (true, mark_root b, s).

(** ** Writing *)

(** [src/LuaJitBytecode.cpp:200-203] writeByte *)
Definition writeByte (b : Z) : bytes := [zbyte b].

(** [src/LuaJitBytecode.cpp:627-642] writeHeader *)
Definition writeHeader (b : JitBytecode) : bytes :=
  writeByte BCDUMP_HEAD1 ++ writeByte BCDUMP_HEAD2 ++ writeByte BCDUMP_HEAD3 ++
  writeByte BCDUMP_VERSION ++
  writeByte ((if isStripped b then BCDUMP_F_STRIP else 0) + (if host_be then BCDUMP_F_BE else 0)) ++
  (if isStripped b then []
   else let name := toUtf8 (b_name b) in bcwrite_uleb128 (Z.of_nat (length name)) ++ name).

(** [src/LuaJitBytecode.cpp:687-697] writeUpval *)
Definition writeUpval (l : list Z) : bytes := concat (map (mem_store host_be 2) l).

(** [src/LuaJitBytecode.cpp:984-994] writeByteCodes *)
Definition writeByteCodes (l : list Z) : bytes := concat (map (mem_store host_be 4) l).

(** The difference that is stored for a line.
    [src/LuaJitBytecode.cpp:768-768] writeDbgInfo *)
Definition line_len (f : Function) (line : Z) : Z :=
  if line =? 0 then 0 else u32 (line - d_firstline f).

(** Bytes per line number. *)
Definition line_width (numline : Z) : nat :=
  if numline <? 256 then 1 else if numline <? 65536 then 2 else 4.

(** The lines that are reported since they do not fit.
    [src/LuaJitBytecode.cpp:769-770] writeDbgInfo *)
Definition line_overflows (f : Function) : list Z :=
  filter (fun line => 2 ^ (8 * Z.of_nat (line_width (d_numline f))) <= line_len f line) (d_lines f).

(** [src/LuaJitBytecode.cpp:761-798] writeDbgInfo *)
Definition write_lines (f : Function) : bytes :=
  concat (map (fun line => mem_store host_be (line_width (d_numline f)) (line_len f line))
            (d_lines f)).

(** The code of an internal name.
    [src/LuaJitBytecode.cpp:812-821] writeDbgInfo *)
Definition varname_code (name : bytes) : option Z :=
  match list_find (fun n => n = name) (tail s_varname) with
  | Some (j, _) => Some (Z.of_nat (S j))
  | None => None
  end.

(** [src/LuaJitBytecode.cpp:810-827] writeDbgInfo *)
Definition write_varname (name : bytes) : option bytes :=
  if startsWithPar name then code ← varname_code name; Some (writeByte code)
  else Some (name ++ [x00]).

(** [src/LuaJitBytecode.cpp:807-831] writeDbgInfo *)
Fixpoint write_vars (lastpc : Z) (vars : list Var) : option bytes :=
  match vars with
  | [] => Some []
  | v :: vars =>
      name ← write_varname (v_name v);
      rest ← write_vars (d_startpc v) vars;
      Some (name ++ bcwrite_uleb128 (u32 (d_startpc v - lastpc)) ++
            bcwrite_uleb128 (u32 (d_endpc v - d_startpc v)) ++ rest)
  end.

(** [src/LuaJitBytecode.cpp:755-836] writeDbgInfo *)
Definition writeDbgInfo (f : Function) : option bytes :=
  vars ← write_vars 0 (d_vars f);
  Some (write_lines f ++ concat (map (fun n => n ++ [x00]) (d_upNames f)) ++ vars ++ [x00]).

(** [src/LuaJitBytecode.cpp:838-843] lj_num2bit *)
Definition lj_num2bit (n : dbl) : Z := s32 (TValue_lo (dbl_add n 0x4338000000000000)).

(** An integer constant is narrowed to [k] when it has that value.
    [src/LuaJitBytecode.cpp:861-864] writeNumConsts *)
Definition narrowed (d : dbl) : option Z :=
  let k := lj_num2bit d in if dbl_eqb d (dbl_of_Z k) then Some k else None.

(** [src/LuaJitBytecode.cpp:850-886] writeNumConsts *)
Definition writeNumConst (v : QVariant) : bytes :=
  match v with
  | QInt k => write_int33 k
  | _ =>
      let d := toDouble v in
      match narrowed d with
      | Some k => write_int33 k
      | None => write_lo33 (TValue_lo d) ++ bcwrite_uleb128 (TValue_hi d)
      end
  end.

(** [src/LuaJitBytecode.cpp:845-889] writeNumConsts *)
Definition writeNumConsts (l : list QVariant) : bytes := concat (map writeNumConst l).

(** [src/LuaJitBytecode.cpp:923-928] bcwrite_ktabk *)
Definition write_ktab_num (d : dbl) : bytes :=
  writeByte BCDUMP_KTAB_NUM ++ bcwrite_uleb128 (TValue_lo d) ++ bcwrite_uleb128 (TValue_hi d).

(** [src/LuaJitBytecode.cpp:891-929] bcwrite_ktabk *)
Definition bcwrite_ktabk (v : QVariant) (narrow : bool) : bytes :=
  match v with
  | QByteArray str => bcwrite_uleb128 (BCDUMP_KGC_STR + Z.of_nat (length str)) ++ str
  | QInt k => writeByte BCDUMP_KTAB_INT ++ bcwrite_uleb128 (u32 k)
  | QBool b => if b then writeByte BCDUMP_KTAB_TRUE else writeByte BCDUMP_KTAB_FALSE
  | QInvalid => writeByte BCDUMP_KTAB_NIL
  | _ =>
      let d := toDouble v in
      match (if narrow then narrowed d else None) with
      | Some k => writeByte BCDUMP_KTAB_INT ++ bcwrite_uleb128 (u32 k)
      | None => write_ktab_num d
      end
  end.

(** [QByteArray::replace]: every occurrence of [pat], from the left. *)
Fixpoint replace_loop (fuel : nat) (pat by_ s : bytes) : bytes :=
  match fuel, s with
  | S fuel, c :: s' =>
      if bool_decide (take (length pat) s = pat)
      then by_ ++ replace_loop fuel pat by_ (drop (length pat) s)
      else c :: replace_loop fuel pat by_ s'
  | _, _ => s
  end.
Definition qreplace (pat by_ s : bytes) : bytes := replace_loop (length s) pat by_ s.

(** The replacements, in the order they are made.
    [src/LuaJitBytecode.cpp:933-942] unescape *)
Definition unescapes : list (bytes * bytes) := [
  ([x5c; x5c], [x5c]);
  ([x5c; "n"%byte], [x0a]);
  ([x5c; "a"%byte], [x07]);
  ([x5c; "b"%byte], [x08]);
  ([x5c; "f"%byte], [x0c]);
  ([x5c; "r"%byte], [x0d]);
  ([x5c; "t"%byte], [x09]);
  ([x5c; "v"%byte], [x0b]);
  ([x5c; x22], [x22]);
  ([x5c; x27], [x27])].

(** [src/LuaJitBytecode.cpp:931-944] unescape *)
Definition unescape (str : bytes) : bytes :=
  foldl (fun s r => qreplace (fst r) (snd r) s) str unescapes.

(** [QVariant::toByteArray] *)
Definition toByteArray (v : QVariant) : bytes :=
  match v with
  | QByteArray s => s
  | QText s => toUtf8 s
  | _ => other_toByteArray v
  end.

(** [src/LuaJitBytecode.cpp:957-978] writeObjConsts *)
Definition write_table (hash : list (QVariant * QVariant)) (arr : list QVariant) : bytes :=
  bcwrite_uleb128 BCDUMP_KGC_TAB ++
  bcwrite_uleb128 (if bool_decide (arr = []) then 0 else Z.of_nat (length arr) + 1) ++
  bcwrite_uleb128 (Z.of_nat (length hash)) ++
  (if bool_decide (arr = []) then []
   else bcwrite_ktabk QInvalid true ++ concat (map (fun v => bcwrite_ktabk v true) arr)) ++
  concat (map (fun e => bcwrite_ktabk (fst e) false ++ bcwrite_ktabk (snd e) true)
            (hash_order hash)).

(** Nothing is written for a value of another type.
    [src/LuaJitBytecode.cpp:950-979] writeObjConsts *)
Definition writeObjConst (v : QVariant) : bytes :=
  if isString v then
    let str := unescape (toByteArray v) in
    bcwrite_uleb128 (BCDUMP_KGC_STR + Z.of_nat (length str)) ++ str
  else
    match v with
    | QFuncRef _ => bcwrite_uleb128 BCDUMP_KGC_CHILD
    | QConstTable hash arr => write_table hash arr
    | _ => []
    end.

(** [src/LuaJitBytecode.cpp:946-982] writeObjConsts *)
Definition writeObjConsts (l : list QVariant) : bytes := concat (map writeObjConst l).

(** [f->d_flags |= PROTO_CHILD] *)
Definition set_child_flag (f : Function) : Function :=
  {| d_sourceFile := d_sourceFile f; d_id := d_id f; d_flags := Z.lor (d_flags f) PROTO_CHILD;
     d_numparams := d_numparams f; d_framesize := d_framesize f; d_isRoot := d_isRoot f;
     d_firstline := d_firstline f; d_numline := d_numline f; d_byteCodes := d_byteCodes f;
     d_upvals := d_upvals f; d_constObjs := d_constObjs f; d_constNums := d_constNums f;
     d_lines := d_lines f; d_upNames := d_upNames f; d_vars := d_vars f;
     d_varNames := d_varNames f; d_outer := d_outer f |}.

(** The functions among the constants. *)
Fixpoint child_refs (l : list QVariant) : list nat :=
  match l with
  | [] => []
  | QFuncRef c :: l => c :: child_refs l
  | _ :: l => child_refs l
  end.

(** The content of a function's chunk.
    [src/LuaJitBytecode.cpp:711-747] writeFunction *)
Definition write_proto (stripped : bool) (f : Function) (dbgInfo : bytes) : bytes :=
  writeByte (Z.land (d_flags f) (Z.lor (Z.lor PROTO_CHILD PROTO_VARARG) PROTO_FFI)) ++
  writeByte (d_numparams f) ++ writeByte (d_framesize f) ++
  writeByte (Z.of_nat (length (d_upvals f))) ++
  bcwrite_uleb128 (Z.of_nat (length (d_constObjs f))) ++
  bcwrite_uleb128 (Z.of_nat (length (d_constNums f))) ++
  bcwrite_uleb128 (Z.of_nat (length (d_byteCodes f))) ++
  (if stripped then []
   else bcwrite_uleb128 (Z.of_nat (length dbgInfo)) ++
        (if bool_decide (dbgInfo = []) then []
         else bcwrite_uleb128 (d_firstline f) ++ bcwrite_uleb128 (d_numline f))) ++
  writeByteCodes (d_byteCodes f) ++ writeUpval (d_upvals f) ++
  writeObjConsts (d_constObjs f) ++ writeNumConsts (d_constNums f) ++ dbgInfo.

(** What follows the children of a function: its own chunk.
    [src/LuaJitBytecode.cpp:711-750] writeFunction *)
Definition write_body (stripped : bool) (f : Function) : option bytes :=
  match (if stripped then Some [] else writeDbgInfo f) with
  | Some dbgInfo =>
      let tmp := write_proto stripped f dbgInfo in
      Some (bcwrite_uleb128 (Z.of_nat (length tmp)) ++ tmp)
  | None => None
  end.

(** The loop over the constants, from the last to the first ([refs] is reversed),
    with the function that writes a child. *)
Fixpoint write_children (wr : Heap -> nat -> option (bytes * Heap)) (f : nat) (h : Heap)
    (refs : list nat) : option (bytes * Heap) :=
  match refs with
  | [] => Some ([], h)
  | c :: refs =>
      '(o1, h) ← wr (alter set_child_flag f h) c;
      '(o2, h) ← write_children wr f h refs;
      Some (o1 ++ o2, h)
  end.

(** The recursion is as deep as the functions are nested; [None] stands for a
    deeper one than [fuel], or an address without a function.
    [src/LuaJitBytecode.cpp:699-753] writeFunction *)
Fixpoint writeFunction (stripped : bool) (fuel : nat) (h : Heap) (f : nat)
    : option (bytes * Heap) :=
  match fuel with
  | O => None
  | S fuel =>
      fn ← h !! f;
      '(o1, h) ← write_children (writeFunction stripped fuel) f h (rev (child_refs (d_constObjs fn)));
      fn ← h !! f;
      o2 ← write_body stripped fn;
      Some (o1 ++ o2, h)
  end.

(** [src/LuaJitBytecode.cpp:492-500] write *)
Definition write (b : JitBytecode) : option (bool * bytes * JitBytecode) :=
  match d_fstack b with
  | [r] =>
      '(o, h) ← writeFunction (isStripped b) (length (d_funcs b)) (d_funcs b) r;
      Some (true, writeHeader b ++ o ++ [x00],
            mkJitBytecode (b_name b) h (d_fstack b) (b_flags b) (d_log b))
  | _ => Some (false, [], b)
  end.

(** [src/LuaJitBytecode.cpp:1034-1040] merged *)
Definition merged (t : ConstTable) : list (QVariant * QVariant) :=
  foldl (fun res e => qhash_insert (QInt (Z.of_nat (fst e) + 1)) (snd e) res)
    (d_hash t) (imap pair (d_array t)).

End Reader.
