(* ===== verification/BytecodeParse.v ===== *)
(** * The parser on arbitrary input

    Whatever the bytes of the file are: the loop of [parse] ends
    ([parse_loop_fuel]), the functions it leaves form a hierarchy in which an
    outer function comes after those it contains and only the functions on the
    stack have none ([parse_hierarchy]); the header is rejected as documented
    ([parse_header_error]). *)

From S2P Require Import Prelude Leb128 Double Bytecode QtLib BytecodeIO.
From Stdlib Require Import Strings.Byte.
Local Open Scope Z_scope.

(** ** Readers use up their input *)

Definition shrinks {A} (m : Rd A) : Prop :=
  forall s x s', m s = Some (x, s') -> (length s' <= length s)%nat.

Lemma shrinks_ret {A} (x : A) : shrinks (rret x).
Proof. intros s y s' [= _ <-]. lia. Qed.
Lemma shrinks_none {A} : shrinks (fun _ => None : option (A * bytes)).
Proof. by intros s x s' H. Qed.
Lemma shrinks_bind {A B} (m : Rd A) (k : A -> Rd B) :
  shrinks m -> (forall x, shrinks (k x)) -> shrinks (rbind m k).
Proof.
  intros Hm Hk s x s' H. unfold rbind in H. destruct (m s) as [[y t]|] eqn:E; [|done].
  apply Hm in E. apply Hk in H. lia.
Qed.
Lemma shrinks_if {A} (b : bool) (m k : Rd A) : shrinks m -> shrinks k -> shrinks (if b then m else k).
Proof. by destruct b. Qed.
Lemma shrinks_dev_read n : shrinks (dev_read n).
Proof. intros s x s' [= _ <-]. rewrite length_drop. lia. Qed.
Lemma shrinks_readByte : shrinks readByte.
Proof. intros [|c s] x s' H; injection H as _ <-; simpl; lia. Qed.
Lemma shrinks_size n : shrinks (rd_size n).
Proof.
  intros s x s' H. unfold rd_size in H. destruct (q_size n); [|done]. injection H as _ <-. lia.
Qed.

Lemma uleb_loop_shrinks r sh s x s' :
  bcread_uleb128_loop r sh s = Some (x, s') ->
  (length s' <= length s)%nat /\ (s <> [] -> (length s' < length s)%nat).
Proof.
  revert r sh. induction s as [|c s IH]; intros r sh H; simpl in H.
  - injection H as _ <-. split; [simpl; lia|done].
  - destruct (32 <=? sh); [done|]. simpl. destruct (_ =? 0).
    + injection H as _ <-. split; [lia|]. intros _. lia.
    + apply IH in H as [H _]. split; [lia|]. intros _. lia.
Qed.

Lemma shrinks_uleb : shrinks bcread_uleb128.
Proof. intros s x s' H. by destruct (uleb_loop_shrinks _ _ _ _ _ H). Qed.

Lemma shrinks_uleb33 : shrinks bcread_uleb128_33.
Proof.
  intros [|c s] x s' H; unfold bcread_uleb128_33 in H; [injection H as _ <-; simpl; lia|].
  destruct (64 <=? _).
  - rewrite loop33_stream in H. apply uleb_loop_shrinks in H as [H _]. simpl. lia.
  - injection H as _ <-. simpl. lia.
Qed.

Create HintDb shrinks.
#[export] Hint Resolve shrinks_ret shrinks_none shrinks_dev_read
  shrinks_readByte shrinks_size shrinks_uleb shrinks_uleb33 : shrinks.

(** Composed readers: one goal per part. *)
Ltac shrink :=
  repeat (first [ solve [auto with shrinks] | apply shrinks_bind; [|intros ?] | apply shrinks_if ]).

Section Parse.
Context `{Q : QtLib}.

Lemma shrinks_words w swap n : shrinks (read_words w swap n).
Proof. induction n as [|n IH]; simpl; shrink. Qed.
Lemma shrinks_ktabk : shrinks bcread_ktabk.
Proof. unfold bcread_ktabk. shrink. Qed.
#[local] Hint Resolve shrinks_words shrinks_ktabk : shrinks.
Lemma shrinks_entry : shrinks read_entry.
Proof. unfold read_entry. shrink. Qed.
#[local] Hint Resolve shrinks_entry : shrinks.
Lemma shrinks_array n : shrinks (read_array n).
Proof. induction n as [|n IH]; simpl; shrink. Qed.
Lemma shrinks_hash n h : shrinks (read_hash n h).
Proof. revert h. induction n as [|n IH]; intros h; simpl; shrink. Qed.
#[local] Hint Resolve shrinks_array shrinks_hash : shrinks.
Lemma shrinks_obj f b : shrinks (readObjConst f b).
Proof. unfold readObjConst, read_table. shrink. Qed.
#[local] Hint Resolve shrinks_obj : shrinks.
Lemma shrinks_objs f n b : shrinks (readObjConsts_loop f n b).
Proof. revert b. induction n as [|n IH]; intros b; simpl; shrink. Qed.
Lemma shrinks_num : shrinks readNumConst.
Proof.
  intros s x s'. unfold readNumConst. generalize (match s with [] => false | ch :: _ => negb (Z.land (schar ch) 1 =? 0) end).
  intros isnum H. revert s x s' H. change (shrinks (rbind bcread_uleb128_33 (fun lo =>
    if isnum then rbind bcread_uleb128 (fun hi => rret (QDouble (TValue_d lo hi))) else rret (QUInt lo)))).
  shrink.
Qed.
#[local] Hint Resolve shrinks_objs shrinks_num : shrinks.
Lemma shrinks_nums n : shrinks (readNumConsts_loop n).
Proof. induction n as [|n IH]; simpl; shrink. Qed.
Lemma shrinks_lines swap a n nl fl b : shrinks (readLineNumbers swap a n nl fl b).
Proof.
  unfold readLineNumbers. shrink. intros s x' s' H.
  destruct (list_map_option _ _); [|done]. injection H as _ <-. lia.
Qed.
Lemma shrinks_names n u b : shrinks (readNames n u b).
Proof.
  unfold readNames. shrink. destruct (read_upNames _ _) as [ups [p|]]; [|auto with shrinks].
  intros s x' s' H. destruct (read_vars _ _ _) as [[vars ok]|]; [|done]. injection H as _ <-. lia.
Qed.
#[local] Hint Resolve shrinks_nums shrinks_lines shrinks_names : shrinks.

Lemma parseFunction_shrinks b s x s' :
  parseFunction b s = Some (x, s') -> s <> [] -> (length s' < length s)%nat.
Proof.
  intros H Hs. unfold parseFunction, rbind at 1 in H.
  destruct (bcread_uleb128 s) as [[len t]|] eqn:E; [|done].
  apply uleb_loop_shrinks in E as [_ E]. specialize (E Hs).
  enough (length s' <= length t)%nat by lia. revert H. generalize x, s'.
  match goal with |- forall x s', ?m t = _ -> _ => enough (shrinks m) as Hm by (intros; by eapply Hm) end.
  unfold readCode, readUpval, readObjConsts, readNumConsts. shrink.
Qed.


(** ** The hierarchy of functions *)

(** The functions without an outer one are those on the stack; an outer function
    comes after the functions it contains, and before [n]. *)
Record hierarchy (n : nat) (b : JitBytecode) : Prop := {
  hi_nodup : NoDup (d_fstack b);
  hi_stack : Forall (fun r => r < length (d_funcs b))%nat (d_fstack b);
  hi_outer : forall i f, d_funcs b !! i = Some f ->
    match d_outer f with
    | Some o => (i < o < n)%nat /\ i ∉ d_fstack b
    | None => i ∈ d_fstack b
    end
}.

Lemma hierarchy_same n b b' :
  d_funcs b' = d_funcs b -> d_fstack b' = d_fstack b -> hierarchy n b -> hierarchy n b'.
Proof. intros E1 E2 [H1 H2 H3]. by split; rewrite ?E1, ?E2. Qed.

Lemma hierarchy_orphan n b r st :
  hierarchy n b -> d_fstack b = r :: st ->
  exists f, d_funcs b !! r = Some f /\ d_outer f = None.
Proof.
  intros [H1 H2 H3] Hst. rewrite Hst in *. inversion H2 as [|?? Hr _]; subst.
  destruct (lookup_nat_lt _ _ Hr) as [f Hf]. exists f. split; [done|].
  specialize (H3 _ _ Hf). destruct (d_outer f) as [o|]; [|done].
  destruct H3 as [_ H3]. exfalso. apply H3. constructor.
Qed.

Lemma link_child_hierarchy self b v b' :
  hierarchy (S self) b -> length (d_funcs b) = self -> link_child self b = (v, b') ->
  hierarchy (S self) b' /\ length (d_funcs b') = self /\
  (d_fstack b <> [] -> d_log b' = d_log b).
Proof.
  intros H Hlen E. unfold link_child in E.
  destruct (d_fstack b) as [|r st] eqn:Hst.
  { injection E as _ <-. split; [by eapply hierarchy_same; [..|exact H]|done]. }
  destruct (hierarchy_orphan _ _ _ _ H Hst) as (f & Hf & Ho).
  rewrite Hf, (bool_decide_eq_true_2 _ Ho) in E. injection E as _ <-.
  destruct H as [H1 H2 H3]. rewrite Hst in *.
  apply NoDup_cons in H1 as [Hnin H1]. inversion H2 as [|?? Hr H2']; subst.
  split; [|split; [apply length_alter|done]]. split; simpl; [done| |].
  - unfold set_outer. by rewrite length_alter.
  - intros i g Hg. destruct (decide (i = r)) as [->|Hne].
    + unfold set_outer in Hg. rewrite list_lookup_alter_eq, Hf in Hg. injection Hg as <-.
      simpl. split; [lia|done].
    + unfold set_outer in Hg. rewrite list_lookup_alter_ne in Hg by done.
      specialize (H3 _ _ Hg). destruct (d_outer g).
      * destruct H3 as [H3 H4]. split; [done|]. intros Hi. apply H4. by constructor.
      * apply elem_of_cons in H3 as [?|?]; done.
Qed.

Lemma readObjConst_hierarchy self b s v b' s' :
  hierarchy (S self) b -> length (d_funcs b) = self ->
  readObjConst self b s = Some ((v, b'), s') ->
  hierarchy (S self) b' /\ length (d_funcs b') = self.
Proof.
  intros H Hlen E. unfold readObjConst in E. inv_rbind E.
  destruct (BCDUMP_KGC_STR <=? x); [inv_rbind E; by injection E as _ <- _|].
  destruct (x =? BCDUMP_KGC_TAB); [inv_rbind E; by injection E as _ <- _|].
  destruct (negb _); [injection E as _ <- _; split; [by eapply hierarchy_same; [..|exact H]|done]|].
  unfold rret in E. destruct (link_child self b) as [v' b1] eqn:El. injection E as _ <- _.
  by destruct (link_child_hierarchy _ _ _ _ H Hlen El) as (?&?&_).
Qed.

Lemma readObjConsts_hierarchy self n b s l b' s' :
  hierarchy (S self) b -> length (d_funcs b) = self ->
  readObjConsts_loop self n b s = Some ((l, b'), s') ->
  hierarchy (S self) b' /\ length (d_funcs b') = self.
Proof.
  revert b s l s'. induction n as [|n IH]; intros b s l s' H Hlen E; simpl in E.
  - by injection E as _ <- _.
  - inv_rbind E. destruct x as [v b1], x0 as [l' b2]. injection E as _ <- _.
    destruct (readObjConst_hierarchy _ _ _ _ _ _ H Hlen E0). by eapply IH.
Qed.

Definition same_funcs (b b' : JitBytecode) : Prop :=
  d_funcs b' = d_funcs b /\ d_fstack b' = d_fstack b.

#[local] Instance same_funcs_refl : Reflexive same_funcs.
Proof. by split. Qed.

Lemma readLineNumbers_same swap a n nl fl b s l b' s' :
  readLineNumbers swap a n nl fl b s = Some ((l, b'), s') -> same_funcs b b'.
Proof.
  unfold readLineNumbers. destruct (a =? 0); [by intros E; injection E as _ <- _|]. intros E. inv_rbind E.
  case_bool_decide; [by injection E as _ <- _|].
  destruct (_ <? a); [by injection E as _ <- _|]. destruct (n <? 0); [done|].
  destruct (list_map_option _ _); [|done]. by injection E as _ <- _.
Qed.

Lemma readNames_same n u b s r b' s' :
  readNames n u b s = Some ((r, b'), s') -> same_funcs b b'.
Proof.
  unfold readNames. destruct (n =? 0); [by intros E; injection E as _ <- _|]. intros E. inv_rbind E.
  destruct (read_upNames _ _) as [ups [p|]]; [|by injection E as _ <- _].
  destruct (read_vars _ _ _) as [[vars ok]|]; [|done].
  injection E as _ <- _. by destruct ok.
Qed.

Lemma parseFunction_hierarchy b s more b' s' :
  hierarchy (length (d_funcs b)) b -> parseFunction b s = Some ((more, b'), s') ->
  hierarchy (length (d_funcs b')) b'.
Proof.
  intros H E. unfold parseFunction in E. inv_rbind E.
  destruct (x =? 0); [by injection E as _ <- _|]. inv_rbind E. injection E as _ <- _.
  unfold readObjConsts in E13. inv_rbind E13. destruct x12 as [objs b1].
  assert (H' : hierarchy (S (length (d_funcs b))) b).
  { destruct H as [H1 H2 H3]. split; [done..|]. intros i f Hf. specialize (H3 _ _ Hf).
    destruct (d_outer f); [|done]. destruct H3. split; [lia|done]. }
  destruct (readObjConsts_hierarchy _ _ _ _ _ _ _ H' eq_refl E13) as [Hb1 Hl1].
  destruct x14 as [lines b2]. destruct (readLineNumbers_same _ _ _ _ _ _ _ _ _ _ E15) as [F2 S2].
  destruct x15 as [names b3]. destruct (readNames_same _ _ _ _ _ _ _ E16) as [F3 S3].
  simpl in *. rewrite F3, S3, F2, S2. clear -Hb1 Hl1.
  rewrite length_app, Hl1. simpl. rewrite Nat.add_1_r. destruct Hb1 as [H1 H2 H3].
  split; simpl.
  - constructor; [|done]. intros Hin. rewrite Forall_forall in H2. specialize (H2 _ Hin). lia.
  - rewrite length_app, Hl1. simpl. constructor; [lia|].
    eapply Forall_impl; [exact H2|]. simpl. lia.
  - intros i f Hf. apply lookup_app_Some in Hf as [Hf|[Hge Hf]].
    + specialize (H3 _ _ Hf). apply lookup_lt_Some in Hf.
      destruct (d_outer f); [|by constructor]. destruct H3 as [H3 H4]. split; [done|].
      rewrite elem_of_cons. intros [->|?]; [lia|done].
    + destruct (i - length (d_funcs b1))%nat eqn:Ei; [|done]. injection Hf as <-. simpl.
      replace i with (length (d_funcs b)) by lia. constructor.
Qed.

Lemma parse_loop_hierarchy fuel b s b' s' :
  hierarchy (length (d_funcs b)) b -> parse_loop fuel b s = Some (b', s') ->
  hierarchy (length (d_funcs b')) b'.
Proof.
  revert b s. induction fuel as [|fuel IH]; intros b s H E; destruct s as [|c s]; simpl in E;
    try (by injection E as <- _); [done|].
  destruct (parseFunction b (c :: s)) as [[[more b1] s1]|] eqn:Ep; [|done]. simpl in E.
  apply parseFunction_hierarchy in Ep; [|done].
  destruct more; [by eapply IH|by injection E as <- _].
Qed.

(** [C25] In every result of [parse], the functions without an outer function are
    exactly those left on the stack, each once, and an outer function comes after
    the functions it contains: [getFuncSlotFromUpval] ends on all of them. *)
Theorem parse_hierarchy path b0 inp ok b s :
  parse path b0 inp = Some (ok, b, s) ->
  hierarchy (length (d_funcs b)) b /\ outer_after (d_funcs b).
Proof.
  intros H. assert (Hh : hierarchy (length (d_funcs b)) b).
  { unfold parse in H. destruct (parseHeader (clear b0) inp) as [[[ok1 b1] s1]|] eqn:Eh; [|done].
    cbn [mbind option_bind] in H.
    assert (d_funcs b1 = [] /\ d_fstack b1 = []) as [F1 S1].
    { unfold parseHeader in Eh. inv_rbind Eh.
      destruct (negb _); [by injection Eh as _ <- _|]. inv_rbind Eh.
      destruct (negb _); [by injection Eh as _ <- _|].
      destruct (negb _); [by injection Eh as _ <- _|].
      destruct (_ =? 0); [inv_rbind Eh|]; by injection Eh as _ <- _. }
    assert (H0 : hierarchy (length (d_funcs b1)) b1).
    { split; rewrite ?F1, ?S1; [constructor|constructor|done]. }
    destruct ok1; cbn [negb] in H; [|by injection H as _ <- _].
    set (b2 := match b_name b1 with [] => _ | _ => b1 end) in H.
    assert (H2 : hierarchy (length (d_funcs b2)) b2)
      by (subst b2; destruct (b_name b1); [by eapply hierarchy_same; [..|exact H0]|done]).
    destruct (parse_loop _ b2 s1) as [[b3 s3]|] eqn:El; [|done]. simpl in H. injection H as _ <- _.
    apply parse_loop_hierarchy in El; [|done]. unfold mark_root.
    destruct (getRoot b3) as [r|]; [|done]. destruct El as [H3 H4 H5].
    split; simpl; rewrite ?length_alter; [done..|]. intros i f Hf.
    destruct (decide (i = r)) as [->|].
    - rewrite list_lookup_alter_eq in Hf. destruct (d_funcs b3 !! r) as [g|] eqn:Hg; [|done].
      injection Hf as <-. apply (H5 _ _ Hg).
    - rewrite list_lookup_alter_ne in Hf by done. by apply H5. }
  split; [done|]. intros i f o Hf Ho. pose proof (hi_outer _ _ Hh _ _ Hf) as H1. rewrite Ho in H1.
  by destruct H1.
Qed.

End Parse.

(** A stripped file with one function. *)
Definition ex_stripped : bytes :=
  [x1b; x4c; x4a; x01; x02; x09; x02; x00; x01; x00; x00; x00; x01; x47; x00; x01; x00; x00].


Lemma parse_hierarchy_witness :
  exists b, parse (Q:=Qt_example) [] (mkJitBytecode [] [] [] 0 []) ex_stripped = Some (true, b, []) /\
    length (d_funcs b) = 1%nat /\ getRoot b = Some 0%nat /\
    hierarchy (length (d_funcs b)) b /\ outer_after (d_funcs b).
Proof.
  eexists. split; [vm_compute; reflexivity|]. split; [reflexivity|]. split; [reflexivity|].
  apply (parse_hierarchy (Q:=Qt_example) [] (mkJitBytecode [] [] [] 0 []) ex_stripped true _ []).
  vm_compute. reflexivity.
Defined.
