(* ===== verification/BytecodeRoundtrip.v ===== *)
(** * Reading back a written bytecode file

    For every function [writeFunction] can store, [parse] gives back a copy of it
    and of the functions it contains.  [copies] says what a copy is: equal up to
    what the file format does not keep, which the functions [norm_num],
    [norm_ktab] and [norm_obj] describe for constants. *)

From S2P Require Import Prelude Leb128 Double Bytecode QtLib BytecodeIO.
From Stdlib Require Import Strings.Byte.
Local Open Scope Z_scope.

Section Roundtrip.
Context `{Q : QtLib}.

(** ** Reading a field after it was written *)
Lemma rbind_bytes {B} (k : bytes -> Rd B) n s rest :
  n = Z.of_nat (length s) -> rbind (dev_read n) k (s ++ rest) = k s rest.
Proof. intros ->. apply rbind_Some, dev_read_app. Qed.

Lemma rbind_readByte {B} v (k : Z -> Rd B) rest :
  0 <= v < 256 -> rbind readByte k (writeByte v ++ rest) = k v rest.
Proof.
  intros. unfold rbind, readByte, writeByte, dev_getChar, rret, rbind. simpl.
  by rewrite ubyte_zbyte, u8_small.
Qed.

Lemma rbind_size {B} n (k : nat -> Rd B) s :
  n < 2 ^ 31 -> rbind (rd_size n) k s = k (Z.to_nat n) s.
Proof. intros. unfold rbind, rd_size, q_size. destruct (Z.ltb_spec n (2 ^ 31)); [done|lia]. Qed.

(** A byte below 128 is its own LEB128 encoding. *)
Lemma writeByte_uleb v : 0 <= v < 128 -> writeByte v = bcwrite_uleb128 v.
Proof.
  intros. unfold writeByte, bcwrite_uleb128. rewrite u32_small by lia.
  cbn [bcwrite_uleb128_loop]. destruct (Z.leb_spec 128 v); [lia|done].
Qed.

(** ** Words *)
Lemma mem_load_other be n z :
  mem_load be (mem_store (negb be) n z) = qbswap n (z mod 2 ^ (8 * Z.of_nat n)).
Proof.
  unfold mem_load, mem_store, qbswap.
  assert (forall n z, le_split n (z mod 2 ^ (8 * Z.of_nat n)) = le_split n z) as E.
  { clear n z. induction n as [|n IH]; intros z; simpl le_split; [done|].
    apply (f_equal2 (@cons byte)).
    - apply ubyte_inj. rewrite !ubyte_zbyte. unfold u8.
      symmetry. replace (8 * Z.of_nat (S n)) with (8 + 8 * Z.of_nat n) by lia.
      apply mod_mod_le. lia.
    - rewrite <- (IH (_ / 256)), <- (IH (z / 256)). f_equal.
      replace (8 * Z.of_nat (S n)) with (8 + 8 * Z.of_nat n) by lia.
      rewrite Z.pow_add_r by lia. change (2 ^ 8) with 256.
      rewrite Z.rem_mul_r by (try apply Z.pow_nonzero; lia).
      pose proof (Z.mod_pos_bound z 256 ltac:(lia)).
      replace (z mod 256 + 256 * ((z / 256) mod 2 ^ (8 * Z.of_nat n)))
        with ((z / 256) mod 2 ^ (8 * Z.of_nat n) * 256 + z mod 256) by lia.
      rewrite Z.div_add_l, (Z.div_small (z mod 256)), Z.add_0_r by lia.
      by rewrite Zmod_mod. }
  destruct be; simpl; by rewrite E.
Qed.

Lemma qbswap_involutive n z : qbswap n (qbswap n z) = z mod 2 ^ (8 * Z.of_nat n).
Proof.
  unfold qbswap.
  assert (forall l, le_split (length l) (le_combine l) = l) as E.
  { induction l as [|b l IH]; [done|]. simpl. apply (f_equal2 (@cons byte)).
    - apply ubyte_inj. rewrite ubyte_zbyte. pose proof (ubyte_range b). width.
    - replace ((ubyte b + 256 * le_combine l) / 256) with (le_combine l); [done|].
      pose proof (ubyte_range b). rewrite Z.mul_comm, Z.div_add, Z.div_small by lia. lia. }
  pose proof (E (rev (le_split n z))) as H. rewrite length_rev, length_le_split in H.
  rewrite H, rev_involutive. apply le_combine_split.
Qed.

(** Words written by a host of either byte order. *)
Lemma read_words_app w swap l rest :
  Forall (fun z => 0 <= z < 2 ^ (8 * Z.of_nat w)) l -> (0 < w)%nat ->
  read_words w swap (length l)
    (concat (map (mem_store (xorb swap host_be) w) l) ++ rest) = Some (l, rest).
Proof.
  intros Hl Hw. induction Hl as [|z l Hz Hl IH]; [done|].
  simpl length. simpl map. simpl concat. rewrite <- app_assoc. simpl read_words.
  rewrite rbind_bytes by (by rewrite length_mem_store).
  rewrite length_mem_store, Nat.ltb_irrefl. unfold rbind at 1. rewrite IH.
  unfold rret. do 2 f_equal. apply (f_equal2 cons); [|done].
  destruct swap; simpl.
  - rewrite mem_load_other, qbswap_involutive. rewrite Zmod_mod. by apply Z.mod_small.
  - rewrite mem_load_store. by apply Z.mod_small.
Qed.


(** ** Constants *)

(** A [double] that fits its 64 bits. *)
Definition dbl_ok (d : dbl) : Prop := 0 <= d < 2 ^ 64.

Definition short (s : bytes) : Prop := BCDUMP_KGC_STR + Z.of_nat (length s) < 2 ^ 32.

(** What a number constant is read back as. *)
Definition norm_num (v : QVariant) : QVariant :=
  match v with
  | QInt k => QUInt (u32 k)
  | _ => match narrowed (toDouble v) with
         | Some k => QUInt (u32 k)
         | None => QDouble (toDouble v)
         end
  end.
Definition num_storable (v : QVariant) : Prop :=
  match v with QInt k => - 2 ^ 31 <= k < 2 ^ 31 | _ => dbl_ok (toDouble v) end.

(** What an element of a constant table is read back as. *)
Definition norm_ktab (narrow : bool) (v : QVariant) : QVariant :=
  match v with
  | QByteArray _ | QBool _ | QInvalid => v
  | QInt k => QUInt (u32 k)
  | _ => match (if narrow then narrowed (toDouble v) else None) with
         | Some k => QUInt (u32 k)
         | None => QDouble (toDouble v)
         end
  end.
Definition ktab_storable (v : QVariant) : Prop :=
  match v with
  | QByteArray s => short s
  | QBool _ | QInvalid | QInt _ => True
  | _ => dbl_ok (toDouble v)
  end.

Lemma TValue_split d :
  dbl_ok d -> TValue_d (TValue_lo d) (TValue_hi d) = d /\
  0 <= TValue_lo d < 2 ^ 32 /\ 0 <= TValue_hi d < 2 ^ 32.
Proof.
  unfold dbl_ok, TValue_d, TValue_lo, TValue_hi.
  destruct host_be; intros; Z.to_euclidean_division_equations; lia.
Qed.

Lemma narrowed_range d k : narrowed d = Some k -> - 2 ^ 31 <= k < 2 ^ 31.
Proof.
  unfold narrowed. destruct (dbl_eqb _ _); [|done]. intros [= <-].
  unfold lj_num2bit. width.
Qed.

Lemma read_ktab_num d rest :
  dbl_ok d -> bcread_ktabk (write_ktab_num d ++ rest) = Some (QDouble d, rest).
Proof.
  intros Hd. destruct (TValue_split d Hd) as (E & Hlo & Hhi).
  unfold bcread_ktabk, write_ktab_num. rewrite writeByte_uleb, <- !app_assoc by (unfold BCDUMP_KTAB_NUM; lia).
  rewrite rbind_uleb by (unfold BCDUMP_KTAB_NUM; lia).
  change (rbind bcread_uleb128 (fun lo => rbind bcread_uleb128 (fun hi => rret (QDouble (TValue_d lo hi))))
    (bcwrite_uleb128 (TValue_lo d) ++ bcwrite_uleb128 (TValue_hi d) ++ rest) = Some (QDouble d, rest)).
  rewrite !rbind_uleb by done. by rewrite E.
Qed.

Lemma read_ktab_int k rest :
  bcread_ktabk ((writeByte BCDUMP_KTAB_INT ++ bcwrite_uleb128 (u32 k)) ++ rest) =
  Some (QUInt (u32 k), rest).
Proof.
  unfold bcread_ktabk. rewrite writeByte_uleb, <- app_assoc by (unfold BCDUMP_KTAB_INT; lia).
  rewrite rbind_uleb by (unfold BCDUMP_KTAB_INT; lia).
  change (rbind bcread_uleb128 (fun v => rret (QUInt v))
    (bcwrite_uleb128 (u32 k) ++ rest) = Some (QUInt (u32 k), rest)).
  rewrite rbind_uleb by apply u32_range. done.
Qed.

Lemma read_ktab v narrow rest :
  ktab_storable v ->
  bcread_ktabk (bcwrite_ktabk v narrow ++ rest) = Some (norm_ktab narrow v, rest).
Proof.
  assert (Hnum : dbl_ok (toDouble v) ->
    bcread_ktabk (match (if narrow then narrowed (toDouble v) else None) with
      | Some k => writeByte BCDUMP_KTAB_INT ++ bcwrite_uleb128 (u32 k)
      | None => write_ktab_num (toDouble v) end ++ rest) =
    Some (match (if narrow then narrowed (toDouble v) else None) with
          | Some k => QUInt (u32 k) | None => QDouble (toDouble v) end, rest)).
  { intros Hd. destruct (if narrow then _ else _); [apply read_ktab_int|by apply read_ktab_num]. }
  destruct v; simpl; intros Hv; try (by apply Hnum); try apply read_ktab_int.
  - unfold bcread_ktabk. simpl. reflexivity.
  - destruct b; reflexivity.
  - unfold short, BCDUMP_KGC_STR in *. unfold bcread_ktabk. rewrite <- app_assoc, rbind_uleb by lia.
    unfold BCDUMP_KTAB_STR, BCDUMP_KGC_STR. destruct (Z.leb_spec 5 (5 + Z.of_nat (length s))); [|lia].
    rewrite rbind_bytes by lia. done.
Qed.

Lemma read_array_app narrow l rest :
  Forall ktab_storable l ->
  read_array (length l) (concat (map (fun v => bcwrite_ktabk v narrow) l) ++ rest) =
  Some (map (norm_ktab narrow) l, rest).
Proof.
  intros Hl. induction Hl as [|v l Hv Hl IH]; [done|]. simpl.
  rewrite <- app_assoc, (rbind_Some _ _ _ _ _ (read_ktab v narrow _ Hv)).
  by rewrite (rbind_Some _ _ _ _ _ IH).
Qed.

(** The entries of a hash in the order they are written. *)
Definition norm_entry (e : QVariant * QVariant) : QVariant * QVariant :=
  (norm_ktab false (fst e), norm_ktab true (snd e)).
Definition insert_all (l h : list (QVariant * QVariant)) : list (QVariant * QVariant) :=
  foldl (fun h e => qhash_insert (fst e) (snd e) h) h l.

Definition entry_storable (e : QVariant * QVariant) : Prop :=
  ktab_storable (fst e) /\ ktab_storable (snd e).

Lemma read_hash_app l h rest :
  args_ltr = true -> Forall entry_storable l ->
  read_hash (length l)
    h (concat (map (fun e => bcwrite_ktabk (fst e) false ++ bcwrite_ktabk (snd e) true) l) ++ rest) =
  Some (insert_all (map norm_entry l) h, rest).
Proof.
  intros Ha Hl. revert h. induction Hl as [|[k v] l [Hk Hv] Hl IH]; intros h; [done|]. simpl in *.
  rewrite <- !app_assoc.
  assert (read_entry (bcwrite_ktabk k false ++ bcwrite_ktabk v true ++
    concat (map (fun e => bcwrite_ktabk e.1 false ++ bcwrite_ktabk e.2 true) l) ++ rest) =
    Some (norm_entry (k, v),
      concat (map (fun e => bcwrite_ktabk e.1 false ++ bcwrite_ktabk e.2 true) l) ++ rest)) as E.
  { unfold read_entry. rewrite (rbind_Some _ _ _ _ _ (read_ktab k false _ Hk)).
    rewrite (rbind_Some _ _ _ _ _ (read_ktab v true _ Hv)). by rewrite Ha. }
  rewrite (rbind_Some _ _ _ _ _ E). apply IH.
Qed.

(** What a constant of a function is read back as, a reference to a function excepted. *)
Definition norm_obj (v : QVariant) : QVariant :=
  match v with
  | QByteArray _ | QText _ => QByteArray (unescape (toByteArray v))
  | QConstTable hash arr =>
      QConstTable (insert_all (map norm_entry (hash_order hash)) []) (map (norm_ktab true) arr)
  | _ => v
  end.
Definition obj_storable (v : QVariant) : Prop :=
  match v with
  | QByteArray _ | QText _ => short (unescape (toByteArray v))
  | QConstTable hash arr =>
      Z.of_nat (length arr) + 1 < 2 ^ 31 /\ Forall ktab_storable arr /\
      Z.of_nat (length (hash_order hash)) < 2 ^ 31 /\ length (hash_order hash) = length hash /\
      Forall entry_storable (hash_order hash)
  | QFuncRef _ => True
  | _ => False
  end.

Lemma read_table_app hash arr rest :
  args_ltr = true -> obj_storable (QConstTable hash arr) ->
  exists s, write_table hash arr ++ rest = bcwrite_uleb128 BCDUMP_KGC_TAB ++ s /\
    read_table s = Some (norm_obj (QConstTable hash arr), rest).
Proof.
  intros Ha (Hlen & Harr & Hhl & Hh & Hent). unfold write_table.
  rewrite <- !app_assoc. eexists; split; [done|].
  unfold read_table. rewrite rbind_uleb by (case_bool_decide; lia).
  rewrite rbind_uleb, rbind_size by (repeat case_bool_decide; lia). rewrite rbind_size by lia.
  case_bool_decide as He.
  - subst arr. rewrite app_nil_l.
    change (read_array (Z.to_nat 0)) with (rret (S:=bytes) (A:=list QVariant) []). rewrite rbind_rret.
    rewrite Nat2Z.id, <- Hh. rewrite (rbind_Some _ _ _ _ _ (read_hash_app _ [] _ Ha Hent)). done.
  - replace (Z.to_nat (Z.of_nat (length arr) + 1)) with (S (length arr)) by lia.
    rewrite <- !app_assoc. simpl read_array.
    assert (Forall ktab_storable [QInvalid]) as Hn by (by repeat constructor).
    rewrite rbind_assoc. rewrite (rbind_Some _ _ _ _ _ (read_ktab QInvalid true _ I)).
    rewrite rbind_assoc. rewrite (rbind_Some _ _ _ _ _ (read_array_app true arr _ Harr)).
    rewrite rbind_rret. rewrite Nat2Z.id, <- Hh.
    rewrite (rbind_Some _ _ _ _ _ (read_hash_app _ [] _ Ha Hent)). done.
Qed.

(** The constants read back, when the functions on the stack are [refs]. *)
Fixpoint relabel (objs : list QVariant) (refs : list nat) : list QVariant :=
  match objs with
  | [] => []
  | QFuncRef _ :: objs =>
      match refs with r :: refs => QFuncRef r :: relabel objs refs | [] => [] end
  | v :: objs => norm_obj v :: relabel objs refs
  end.

Definition link_all (h : Heap) (refs : list nat) (self : nat) : Heap :=
  foldl (fun h r => set_outer h r self) h refs.

Definition orphan (h : Heap) (r : nat) : Prop := exists f, h !! r = Some f /\ d_outer f = None.

Lemma orphan_link h r r' self : r <> r' -> orphan h r -> orphan (set_outer h r' self) r.
Proof.
  intros Hne (f & Hf & Ho). exists f. split; [|done].
  unfold set_outer. by rewrite list_lookup_alter_ne.
Qed.

Definition with_funcs (b : JitBytecode) (h : Heap) (st : list nat) : JitBytecode :=
  mkJitBytecode (b_name b) h st (b_flags b) (d_log b).

Lemma read_simple_obj self b v rest :
  args_ltr = true -> obj_storable v -> child_refs [v] = [] ->
  readObjConst self b (writeObjConst v ++ rest) = Some ((norm_obj v, b), rest).
Proof.
  intros Ha Hv Hc.
  assert (Hstr : forall s, short s ->
    readObjConst self b ((bcwrite_uleb128 (BCDUMP_KGC_STR + Z.of_nat (length s)) ++ s) ++ rest) =
    Some ((QByteArray s, b), rest)).
  { intros s Hs. unfold short, BCDUMP_KGC_STR in *. unfold readObjConst.
    rewrite <- app_assoc, rbind_uleb by lia. unfold BCDUMP_KGC_STR.
    destruct (Z.leb_spec 5 (5 + Z.of_nat (length s))); [|lia].
    rewrite rbind_bytes by lia. done. }
  destruct v; try done; try (by apply Hstr).
  unfold readObjConst, writeObjConst. simpl isString. cbv iota.
  destruct (read_table_app hash arr rest Ha Hv) as (s & -> & E).
  rewrite rbind_uleb by (unfold BCDUMP_KGC_TAB; lia).
  change (BCDUMP_KGC_STR <=? BCDUMP_KGC_TAB) with false. rewrite Z.eqb_refl. cbv iota.
  by rewrite (rbind_Some _ _ _ _ _ E).
Qed.

Lemma read_objs self objs b refs st rest :
  args_ltr = true -> Forall obj_storable objs ->
  d_fstack b = refs ++ st -> length refs = length (child_refs objs) ->
  Forall (orphan (d_funcs b)) refs -> NoDup refs ->
  readObjConsts_loop self (length objs) b (writeObjConsts objs ++ rest) =
  Some ((relabel objs refs, with_funcs b (link_all (d_funcs b) refs self) st), rest).
Proof.
  intros Ha Hobj. revert b refs. induction Hobj as [|v objs Hv Hobj IH];
    intros b refs Hst Hlen Horph Hnd.
  - destruct refs; [|done]. destruct b. simpl in *. by subst.
  - unfold writeObjConsts. simpl map. simpl concat. rewrite <- app_assoc.
    simpl length. simpl readObjConsts_loop.
    destruct (decide (child_refs [v] = [])) as [Hc|Hc].
    + rewrite (rbind_Some _ _ _ _ _ (read_simple_obj self b v _ Ha Hv Hc)). simpl snd.
      assert (child_refs (v :: objs) = child_refs objs) as Hcr by (by destruct v).
      rewrite Hcr in Hlen. rewrite (rbind_Some _ _ _ _ _ (IH b refs Hst Hlen Horph Hnd)).
      simpl. by destruct v.
    + destruct v as [| | | | | | | | | | |c| | |]; try done. destruct refs as [|r refs]; [done|].
      inversion Horph as [|?? (rf & Hrf & Hout) Hrest]; subst.
      inversion Hnd as [|?? Hnin Hnd']; subst.
      assert (readObjConst self b (writeObjConst (QFuncRef c) ++ concat (map writeObjConst objs) ++ rest) =
        Some ((QFuncRef r, with_funcs b (set_outer (d_funcs b) r self) (refs ++ st)),
              concat (map writeObjConst objs) ++ rest)) as E.
      { unfold readObjConst, writeObjConst. simpl isString. cbv iota.
        rewrite rbind_uleb by (unfold BCDUMP_KGC_CHILD; lia).
        change (BCDUMP_KGC_STR <=? BCDUMP_KGC_CHILD) with false.
        change (BCDUMP_KGC_CHILD =? BCDUMP_KGC_TAB) with false. rewrite Z.eqb_refl. cbv iota beta.
        unfold link_child. rewrite Hst. cbn [app]. rewrite Hrf.
        rewrite (bool_decide_eq_true_2 _ Hout). done. }
      rewrite (rbind_Some _ _ _ _ _ E). simpl snd.
      assert (Forall (orphan (set_outer (d_funcs b) r self)) refs) as Horph'.
      { rewrite Forall_forall in Hrest |- *. intros x Hx. apply orphan_link; [|auto].
        intros ->. done. }
      simpl in Hlen. injection Hlen as Hlen.
      rewrite (rbind_Some _ _ _ _ _ (IH (with_funcs b _ _) refs eq_refl Hlen Horph' Hnd')). done.
Qed.

(** ** Number constants *)
Lemma land1_schar b : Z.land (schar b) 1 = Z.land (ubyte b) 1.
Proof.
  change 1 with (2 ^ 1 - 1). rewrite !land_ones_mod by lia.
  unfold schar. pose proof (ubyte_range b). width.
Qed.

Lemma head_groups w : 0 <= w -> exists b l, groups 4 w = b :: l /\ Z.land (schar b) 1 = w mod 2.
Proof.
  intros Hw. unfold groups.
  destruct (Z.ltb_spec w 128); do 2 eexists; (split; [done|]);
    rewrite land1_schar, ubyte_zbyte; change 1 with (2 ^ 1 - 1); rewrite land_ones_mod by lia; width.
Qed.

Lemma read_num_int k rest :
  - 2 ^ 31 <= k < 2 ^ 31 -> readNumConst (write_int33 k ++ rest) = Some (QUInt (u32 k), rest).
Proof.
  intros Hk. pose proof (u32_range k) as Hu. rewrite write_int33_groups by done.
  pose proof (read33_groups (2 * u32 k) rest ltac:(lia)) as E.
  destruct (head_groups (2 * u32 k)) as (b & l & Hg & Hb); [lia|].
  unfold readNumConst. rewrite Hg in *. simpl app in *. cbv zeta iota.
  rewrite Hb. replace ((2 * u32 k) mod 2) with 0 by (Z.to_euclidean_division_equations; lia).
  simpl negb. cbv iota. rewrite (rbind_Some _ _ _ _ _ E).
  unfold rret. do 3 f_equal. Z.to_euclidean_division_equations; lia.
Qed.

Lemma read_num_dbl d rest :
  dbl_ok d ->
  readNumConst ((write_lo33 (TValue_lo d) ++ bcwrite_uleb128 (TValue_hi d)) ++ rest) =
  Some (QDouble d, rest).
Proof.
  intros Hd. destruct (TValue_split d Hd) as (E & Hlo & Hhi).
  rewrite write_lo33_groups, <- app_assoc by done.
  assert (0 <= 2 * TValue_lo d + 1 < 2 ^ 33) as Hw by lia.
  pose proof (read33_groups _ (bcwrite_uleb128 (TValue_hi d) ++ rest) Hw) as Er.
  destruct (head_groups (2 * TValue_lo d + 1)) as (b & l & Hg & Hb); [lia|].
  unfold readNumConst. rewrite Hg in *. simpl app in *. cbv zeta iota.
  rewrite Hb. replace ((2 * TValue_lo d + 1) mod 2) with 1 by (Z.to_euclidean_division_equations; lia).
  simpl negb. cbv iota. rewrite (rbind_Some _ _ _ _ _ Er), rbind_uleb by done.
  unfold rret. do 2 f_equal.
  replace ((2 * TValue_lo d + 1) / 2) with (TValue_lo d) by (Z.to_euclidean_division_equations; lia).
  by rewrite E.
Qed.

Lemma read_num v rest :
  num_storable v -> readNumConst (writeNumConst v ++ rest) = Some (norm_num v, rest).
Proof.
  assert (Hn : dbl_ok (toDouble v) ->
    readNumConst (match narrowed (toDouble v) with
      | Some k => write_int33 k
      | None => write_lo33 (TValue_lo (toDouble v)) ++ bcwrite_uleb128 (TValue_hi (toDouble v))
      end ++ rest) =
    Some (match narrowed (toDouble v) with
          | Some k => QUInt (u32 k) | None => QDouble (toDouble v) end, rest)).
  { intros Hd. destruct (narrowed (toDouble v)) as [k|] eqn:E.
    - by apply read_num_int, (narrowed_range (toDouble v)).
    - by apply read_num_dbl. }
  destruct v; simpl; intros Hv; try (by apply Hn). by apply read_num_int.
Qed.

Lemma read_nums l rest :
  Forall num_storable l ->
  readNumConsts_loop (length l) (writeNumConsts l ++ rest) = Some (map norm_num l, rest).
Proof.
  unfold writeNumConsts. intros Hl. induction Hl as [|v l Hv Hl IH]; [done|]. simpl.
  rewrite <- app_assoc, (rbind_Some _ _ _ _ _ (read_num v _ Hv)).
  by rewrite (rbind_Some _ _ _ _ _ IH).
Qed.


#[export] Instance dbl_ok_dec d : Decision (dbl_ok d).
Proof. unfold dbl_ok. apply _. Defined.
#[export] Instance short_dec s : Decision (short s).
Proof. unfold short. apply _. Defined.
#[export] Instance ktab_storable_dec v : Decision (ktab_storable v).
Proof. destruct v; simpl; apply _. Defined.
#[export] Instance entry_storable_dec e : Decision (entry_storable e).
Proof. unfold entry_storable. apply _. Defined.
#[export] Instance num_storable_dec v : Decision (num_storable v).
Proof. destruct v; simpl; apply _. Defined.
#[export] Instance obj_storable_dec v : Decision (obj_storable v).
Proof. destruct v; simpl; apply _. Defined.

(** ** Line numbers *)

(** What the debug information must satisfy to be read back: the number of lines
    is an [int], no line is 0 or reported as an overflow, there is one line for
    each instruction, and a name for each upvalue. *)
Definition var_storable (v : Var) : Prop :=
  0 <= d_startpc v < 2 ^ 32 /\ 0 <= d_endpc v < 2 ^ 32 /\ (x00 ∉ v_name v) /\
  match v_name v with c :: _ => VARNAME__MAX < schar c | [] => False end /\
  (startsWithPar (v_name v) = true -> v_name v ∈ tail s_varname).

#[export] Instance var_storable_dec v : Decision (var_storable v).
Proof. unfold var_storable. destruct (v_name v); apply _. Defined.

Record dbg_storable (f : Function) : Prop := {
  ds_first : 0 <= d_firstline f < 2 ^ 32;
  ds_numline : 0 <= d_numline f < 2 ^ 31;
  ds_lines : Forall (fun l => 0 < l < 2 ^ 32) (d_lines f);
  ds_overflow : line_overflows f = [];
  ds_per_code : length (d_lines f) = length (d_byteCodes f);
  ds_per_upval : length (d_upNames f) = length (d_upvals f);
  ds_upNames : Forall (fun n => x00 ∉ n) (d_upNames f);
  ds_vars : Forall var_storable (d_vars f);
  ds_size : forall out, writeDbgInfo f = Some out -> Z.of_nat (length out) < 2 ^ 31
}.

Lemma length_words be w l : length (concat (map (mem_store be w) l)) = (w * length l)%nat.
Proof.
  induction l as [|x l IH]; simpl; [lia|]. rewrite length_app, length_mem_store, IH. lia.
Qed.

Lemma load_word w l i x :
  (0 < w)%nat -> l !! i = Some x ->
  load_at w (concat (map (mem_store host_be w) l)) (w * i) =
  Some (x mod 2 ^ (8 * Z.of_nat w)).
Proof.
  intros Hw. revert i. induction l as [|y l IH]; intros i Hi; [done|].
  simpl map. simpl concat. unfold load_at.
  destruct i as [|i]; simpl in Hi.
  - injection Hi as ->. replace (w * 0)%nat with 0%nat by lia. rewrite drop_0.
    rewrite take_app_length' by (by rewrite length_mem_store).
    by rewrite length_mem_store, Nat.eqb_refl, mem_load_store.
  - rewrite drop_app_ge by (rewrite length_mem_store; lia).
    rewrite length_mem_store. replace (w * S i - w)%nat with (w * i)%nat by lia.
    by apply IH.
Qed.

Lemma list_map_option_seq {A} (g : nat -> option A) l k :
  (forall i x, l !! i = Some x -> g (k + i)%nat = Some x) ->
  list_map_option g (seq k (length l)) = Some l.
Proof.
  revert k. induction l as [|x l IH]; intros k H; [done|]. simpl.
  rewrite <- (Nat.add_0_r k) at 1. rewrite (H 0%nat x eq_refl).
  rewrite IH; [done|]. intros i y Hi. replace (S k + i)%nat with (k + S i)%nat by lia. by apply H.
Qed.

Lemma line_fits f l :
  line_overflows f = [] -> l ∈ d_lines f ->
  line_len f l mod 2 ^ (8 * Z.of_nat (line_width (d_numline f))) = line_len f l.
Proof.
  intros Ho Hl. apply Z.mod_small. split.
  - unfold line_len. destruct (l =? 0); [lia|]. apply u32_range.
  - apply Z.nle_gt. intros Hge. assert (l ∈ line_overflows f) as H by (by apply list_elem_of_filter).
    rewrite Ho in H. by apply not_elem_of_nil in H.
Qed.

Lemma line_restored f l :
  0 <= d_firstline f < 2 ^ 32 -> 0 < l < 2 ^ 32 ->
  u32 (line_len f l + s32 (d_firstline f)) = l.
Proof.
  intros Hf Hl. unfold line_len. destruct (Z.eqb_spec l 0); [lia|]. width.
Qed.

Lemma line_width_pos n : (0 < line_width n)%nat.
Proof. unfold line_width. repeat case_match; lia. Qed.

Lemma size_lines_eq n numline :
  Z.of_nat (line_width numline * n) < 2 ^ 31 ->
  size_lines (Z.of_nat n) numline = Z.of_nat (line_width numline * n).
Proof.
  unfold size_lines, line_width. intros H.
  destruct (numline <? 256); [|destruct (numline <? 65536)];
    rewrite Z.shiftl_mul_pow2 by lia; apply eq_trans with (2 := eq_refl); rewrite u32_small; lia.
Qed.

Lemma length_write_lines f :
  length (write_lines f) = (line_width (d_numline f) * length (d_lines f))%nat.
Proof.
  unfold write_lines. rewrite <- (length_map (line_len f)), <- (length_words host_be).
  by rewrite map_map.
Qed.

Lemma read_lines f b rest :
  dbg_storable f -> Z.of_nat (length (write_lines f)) < 2 ^ 31 ->
  readLineNumbers false (Z.of_nat (length (write_lines f))) (Z.of_nat (length (d_byteCodes f)))
    (d_numline f) (s32 (d_firstline f)) b (write_lines f ++ rest) =
  Some ((d_lines f, b), rest).
Proof.
  intros Hd Hs. pose proof (length_write_lines f) as Hlen. unfold readLineNumbers.
  destruct (Z.eqb_spec (Z.of_nat (length (write_lines f))) 0) as [Hz|Hz].
  - assert (write_lines f = []) as -> by (apply nil_length_inv; lia).
    assert (d_lines f = []) as ->; [|done]. apply nil_length_inv.
    pose proof (line_width_pos (d_numline f)). nia.
  - rewrite rbind_bytes by done. rewrite bool_decide_eq_false_2 by (intros E; rewrite E in Hz; done).
    rewrite Z.ltb_irrefl. destruct (Z.ltb_spec (Z.of_nat (length (d_byteCodes f))) 0); [lia|].
    rewrite Nat2Z.id, <- (ds_per_code f Hd).
    assert (forall w, w = line_width (d_numline f) ->
      list_map_option (line_at w false (write_lines f) (s32 (d_firstline f)))
        (seq 0 (length (d_lines f))) = Some (d_lines f)) as Hw.
    { intros w ->. apply list_map_option_seq. intros i l Hi. simpl. unfold line_at.
      unfold write_lines. rewrite <- map_map.
      rewrite (load_word _ _ i (line_len f l) (line_width_pos _)) by (by rewrite list_lookup_fmap, Hi).
      simpl. rewrite line_fits; [|apply Hd|by eapply list_elem_of_lookup_2].
      rewrite line_restored; [done|apply Hd|].
      pose proof (ds_lines f Hd) as Hl. rewrite Forall_forall in Hl.
      apply Hl. by eapply list_elem_of_lookup_2. }
    unfold line_width in Hw.
    destruct (d_numline f <? 256); [|destruct (d_numline f <? 65536)]; by rewrite Hw.
Qed.


(** ** Names of upvalues and variables *)
Lemma split_zero_app n p : x00 ∉ n -> p <> [] -> split_zero (n ++ x00 :: p) = Some (n, p).
Proof.
  intros Hn Hp. induction n as [|c n IH]; simpl app.
  - by destruct p.
  - apply not_elem_of_cons in Hn as [Hc Hn]. specialize (IH Hn).
    assert (split_zero (c :: n ++ x00 :: p) =
      match split_zero (n ++ x00 :: p) with Some (n, r) => Some (c :: n, r) | None => None end) as ->.
    { destruct (n ++ x00 :: p) as [|d q] eqn:E; [by destruct n|]. simpl.
      by rewrite bool_decide_eq_false_2 by congruence. }
    by rewrite IH.
Qed.

Lemma read_upNames_app ups p :
  Forall (fun n => x00 ∉ n) ups -> p <> [] ->
  read_upNames (length ups) (concat (map (fun n => n ++ [x00]) ups) ++ p) = (ups, Some p).
Proof.
  intros Hu Hp. induction Hu as [|n ups Hn Hu IH]; [done|]. simpl.
  rewrite <- !app_assoc. simpl app. rewrite split_zero_app; [by rewrite IH|done|].
  by destruct (concat _).
Qed.

Lemma varname_code_ok name code :
  varname_code name = Some code ->
  0 < code < VARNAME__MAX /\ s_varname !! Z.to_nat code = Some name.
Proof.
  unfold varname_code. destruct (list_find _ _) as [[j n]|] eqn:E; [|done].
  intros [= <-]. apply list_find_Some in E as (Hj & -> & _).
  assert (j < 6)%nat by (apply (lookup_lt_Some _ _ _ Hj)).
  unfold VARNAME__MAX. split; [lia|]. rewrite Nat2Z.id. exact Hj.
Qed.

Lemma zbyte_small_eq a b : 0 <= a < 256 -> 0 <= b < 256 -> zbyte a = zbyte b -> a = b.
Proof.
  intros Ha Hb H. apply (f_equal ubyte) in H. rewrite !ubyte_zbyte, !u8_small in H by lia. done.
Qed.

(** The record of a variable starts with a byte that is not 0, and its name is
    read back. *)
Lemma read_varname_app v name p :
  var_storable v -> write_varname (v_name v) = Some name -> p <> [] ->
  exists c q, name ++ p = c :: q /\ c <> x00 /\
              read_varname (name ++ p) = Some (Some (v_name v, p)).
Proof.
  intros (_ & _ & Hz & Hname & _) Hw Hp.
  destruct (v_name v) as [|c s] eqn:Ename; [done|]. rename Hname into Hc.
  rewrite <- Ename in Hz, Hw |- *. unfold write_varname in Hw.
  destruct (startsWithPar (v_name v)).
  - destruct (varname_code (v_name v)) as [code|] eqn:Ec; [|done]. injection Hw as <-.
    apply varname_code_ok in Ec as [Hr Hl]. unfold VARNAME__MAX in Hr.
    unfold writeByte. simpl app. do 2 eexists. split; [done|]. split.
    { intros E. apply (zbyte_small_eq code 0) in E; lia. }
    unfold read_varname, schar. rewrite ubyte_zbyte, !u8_small by lia.
    destruct (Z.ltb_spec VARNAME__MAX (s8 code)); [unfold VARNAME__MAX in *; width|].
    by rewrite Hl.
  - injection Hw as <-. rewrite Ename in Hz |- *. simpl. do 2 eexists. split; [done|].
    apply not_elem_of_cons in Hz as [Hc0 Hz]. split; [congruence|].
    destruct (Z.ltb_spec VARNAME__MAX (schar c)); [|lia]. do 2 f_equal.
    rewrite <- app_assoc. refine (split_zero_app (c :: s) p _ Hp). by apply not_elem_of_cons.
Qed.

Lemma u32_diff a b : 0 <= a < 2 ^ 32 -> u32 (b + u32 (a - b)) = a.
Proof. intros. width. Qed.

Lemma read_vars_app vars out lastpc fuel rest :
  Forall var_storable vars -> write_vars lastpc vars = Some out -> (length vars < fuel)%nat ->
  read_vars fuel lastpc (out ++ [x00; rest]) = Some (vars, true).
Proof.
  intros Hv. revert lastpc out fuel.
  induction Hv as [|v vars Hv Hvs IH]; intros lastpc out fuel Hw Hf;
    (destruct fuel as [|fuel]; [lia|]).
  - injection Hw as <-. reflexivity.
  - simpl in Hw. destruct (write_varname (v_name v)) as [name|] eqn:En; [|done].
    destruct (write_vars (d_startpc v) vars) as [out'|] eqn:Eo; [|done]. injection Hw as <-.
    rewrite <- !app_assoc.
    set (p := bcwrite_uleb128 _ ++ _). assert (p <> []) as Hp.
    { intros E. apply app_eq_nil in E as [_ E]. apply app_eq_nil in E as [_ E].
      by destruct out'. }
    destruct (read_varname_app v name p Hv En Hp) as (c & q & Ecq & Hc & Er).
    simpl read_vars. rewrite Er, Ecq.
    assert ((length (c :: q) <=? 1)%nat = false) as ->.
    { apply Nat.leb_gt. rewrite <- Ecq. subst p. rewrite !length_app.
      destruct (bcwrite_terminates_len (u32 (d_startpc v - lastpc))).
      destruct (bcwrite_terminates_len (u32 (d_endpc v - d_startpc v))). lia. }
    rewrite bool_decide_eq_false_2 by (simpl; congruence). simpl orb. cbv iota.
    destruct Hv as (Hs & He & _). subst p.
    rewrite debug_roundtrip by apply u32_range. simpl.
    rewrite debug_roundtrip by apply u32_range. simpl.
    rewrite !u32_diff by done. rewrite IH by (done || simpl in Hf; lia). simpl. by destruct v.
Qed.

Lemma length_write_vars lastpc vars out :
  write_vars lastpc vars = Some out -> (length vars <= length out)%nat.
Proof.
  revert lastpc out. induction vars as [|v vars IH]; intros lastpc out Hw; simpl in *; [lia|].
  destruct (write_varname (v_name v)) as [name|]; [|done].
  destruct (write_vars (d_startpc v) vars) as [out'|] eqn:Eo; [|done]. injection Hw as <-.
  specialize (IH _ _ Eo). rewrite !length_app.
  destruct (bcwrite_terminates_len (u32 (d_startpc v - lastpc))). lia.
Qed.

Lemma read_names f b dbg rest n :
  dbg_storable f -> writeDbgInfo f = Some dbg ->
  n = Z.of_nat (length dbg) - Z.of_nat (length (write_lines f)) ->
  dbg = write_lines f ++ drop (length (write_lines f)) dbg /\
  readNames n (Z.of_nat (length (d_upvals f))) b (drop (length (write_lines f)) dbg ++ rest) =
  Some ((d_upNames f, d_vars f, b), rest).
Proof.
  intros Hd Hw Hn. unfold writeDbgInfo in Hw.
  destruct (write_vars 0 (d_vars f)) as [out|] eqn:Ev; [|done]. injection Hw as <-.
  rewrite drop_app_length. split; [done|]. rewrite length_app in Hn.
  set (names := concat _ ++ out ++ [x00]) in *.
  assert (n = Z.of_nat (length names)) as -> by lia.
  unfold readNames. destruct (Z.eqb_spec (Z.of_nat (length names)) 0) as [E|_].
  { unfold names in E. rewrite !length_app in E. simpl in E. lia. }
  rewrite rbind_bytes by done. rewrite Nat2Z.id, <- (ds_per_upval f Hd).
  unfold names. rewrite <- !app_assoc. rewrite read_upNames_app; [|apply Hd|by destruct out].
  simpl app. rewrite (read_vars_app (d_vars f)); [done|apply Hd|done|].
  rewrite length_app. pose proof (length_write_vars _ _ _ Ev). lia.
Qed.


(** ** One function *)

(** What [writeFunction] can store of a function.  In a stripped file there is no
    debug information. *)
Record fn_storable (strip : bool) (f : Function) : Prop := {
  fs_flags : 0 <= d_flags f;
  fs_params : 0 <= d_numparams f < 256;
  fs_frame : 0 <= d_framesize f < 256;
  fs_nuv : Z.of_nat (length (d_upvals f)) < 256;
  fs_uv : Forall (fun u => 0 <= u < 2 ^ 16) (d_upvals f);
  fs_nbc : Z.of_nat (length (d_byteCodes f)) < 2 ^ 31;
  fs_bc : Forall (fun i => 0 <= i < 2 ^ 32) (d_byteCodes f);
  fs_nobj : Z.of_nat (length (d_constObjs f)) < 2 ^ 31;
  fs_obj : Forall obj_storable (d_constObjs f);
  fs_nnum : Z.of_nat (length (d_constNums f)) < 2 ^ 31;
  fs_num : Forall num_storable (d_constNums f);
  fs_dbg : strip = false -> dbg_storable f;
  fs_size : forall out, write_body strip f = Some out -> Z.of_nat (length out) < 2 ^ 32
}.

Definition proto_flags : Z := Z.lor (Z.lor PROTO_CHILD PROTO_VARARG) PROTO_FFI.

(** The function that is read, when those it contains were read to [refs]. *)
Definition copy_fn (strip : bool) (name : QString) (self : nat) (refs : list nat) (f : Function)
    : Function :=
  {| d_sourceFile := name; d_id := Z.of_nat self; d_flags := Z.land (d_flags f) proto_flags;
     d_numparams := d_numparams f; d_framesize := d_framesize f; d_isRoot := false;
     d_firstline := if strip then 0 else d_firstline f;
     d_numline := if strip then 0 else d_numline f; d_byteCodes := d_byteCodes f;
     d_upvals := d_upvals f; d_constObjs := relabel (d_constObjs f) refs;
     d_constNums := map norm_num (d_constNums f);
     d_lines := if strip then [] else d_lines f; d_upNames := if strip then [] else d_upNames f;
     d_vars := if strip then [] else d_vars f; d_varNames := []; d_outer := None |}.

Lemma land_flags_range z : 0 <= z -> 0 <= Z.land z proto_flags < 256.
Proof.
  intros. change proto_flags with (2 ^ 3 - 1). rewrite land_ones_mod by lia.
  pose proof (Z.mod_pos_bound z (2 ^ 3)). lia.
Qed.

(** The debug information: the fields before and after the code and the constants. *)
Lemma read_dbg f b dbg rest :
  dbg_storable f -> writeDbgInfo f = Some dbg ->
  0 < Z.of_nat (length dbg) < 2 ^ 31 /\
  let sizeli := size_lines (Z.of_nat (length (d_byteCodes f))) (d_numline f) in
  exists mid,
    readLineNumbers false (s32 sizeli) (s32 (Z.of_nat (length (d_byteCodes f))))
      (s32 (d_numline f)) (s32 (d_firstline f)) b (dbg ++ rest) = Some ((d_lines f, b), mid) /\
    readNames (s32 (Z.of_nat (length dbg) - sizeli)) (Z.of_nat (length (d_upvals f))) b mid =
    Some ((d_upNames f, d_vars f, b), rest).
Proof.
  intros Hd Hw. pose proof (ds_size f Hd _ Hw) as Hs.
  destruct (read_names f b dbg rest _ Hd Hw eq_refl) as (Hsplit & Hr).
  assert (Hlen : Z.of_nat (length (write_lines f)) < Z.of_nat (length dbg)).
  { unfold writeDbgInfo in Hw. destruct (write_vars _ _); [|done]. injection Hw as <-.
    rewrite !length_app. simpl. lia. }
  split; [lia|]. cbv zeta.
  assert (size_lines (Z.of_nat (length (d_byteCodes f))) (d_numline f) =
    Z.of_nat (length (write_lines f))) as Hsz.
  { pose proof (length_write_lines f) as E. rewrite (ds_per_code f Hd) in E.
    rewrite size_lines_eq, E; [done|]. rewrite <- E. lia. }
  pose proof (ds_numline f Hd). pose proof (length_write_lines f) as E.
  pose proof (line_width_pos (d_numline f)). rewrite (ds_per_code f Hd) in E.
  rewrite Hsz. rewrite (s32_small (Z.of_nat (length (write_lines f)))) by lia.
  rewrite (s32_small (Z.of_nat (length (d_byteCodes f)))) by nia.
  rewrite (s32_small (d_numline f)) by lia.
  rewrite (s32_small (Z.of_nat (length dbg) - Z.of_nat (length (write_lines f)))) by lia.
  exists (drop (length (write_lines f)) dbg ++ rest). split; [|done].
  rewrite Hsplit at 1. rewrite <- app_assoc. apply read_lines; [done|lia].
Qed.

Lemma read_code_app l rest :
  Forall (fun i => 0 <= i < 2 ^ 32) l -> Z.of_nat (length l) < 2 ^ 31 ->
  readCode false (Z.of_nat (length l)) (writeByteCodes l ++ rest) = Some (l, rest).
Proof.
  intros Hl Hn. unfold readCode. rewrite rbind_size, Nat2Z.id by lia.
  pose proof (read_words_app 4 false l rest Hl ltac:(lia)) as E. by rewrite xorb_false_l in E.
Qed.

Lemma read_upval_app l rest :
  Forall (fun i => 0 <= i < 2 ^ 16) l -> Z.of_nat (length l) < 256 ->
  readUpval false (Z.of_nat (length l)) (writeUpval l ++ rest) = Some (l, rest).
Proof.
  intros Hl Hn. unfold readUpval. rewrite rbind_size, Nat2Z.id by lia.
  pose proof (read_words_app 2 false l rest Hl ltac:(lia)) as E. by rewrite xorb_false_l in E.
Qed.

Lemma read_objs_app self objs b refs st rest :
  args_ltr = true -> Forall obj_storable objs -> Z.of_nat (length objs) < 2 ^ 31 ->
  d_fstack b = refs ++ st -> length refs = length (child_refs objs) ->
  Forall (orphan (d_funcs b)) refs -> NoDup refs ->
  readObjConsts self (Z.of_nat (length objs)) b (writeObjConsts objs ++ rest) =
  Some ((relabel objs refs, with_funcs b (link_all (d_funcs b) refs self) st), rest).
Proof.
  intros. unfold readObjConsts. rewrite rbind_size, Nat2Z.id by lia. by apply read_objs.
Qed.

Lemma read_nums_app l rest :
  Forall num_storable l -> Z.of_nat (length l) < 2 ^ 31 ->
  readNumConsts (Z.of_nat (length l)) (writeNumConsts l ++ rest) = Some (map norm_num l, rest).
Proof.
  intros. unfold readNumConsts. rewrite rbind_size, Nat2Z.id by lia. by apply read_nums.
Qed.

Definition host_order (b : JitBytecode) : Prop :=
  negb (Z.land (b_flags b) BCDUMP_F_BE =? 0) = host_be.

Lemma parse_body f b out refs st rest :
  args_ltr = true -> host_order b -> fn_storable (isStripped b) f ->
  write_body (isStripped b) f = Some out ->
  d_fstack b = refs ++ st -> length refs = length (child_refs (d_constObjs f)) ->
  Forall (orphan (d_funcs b)) refs -> NoDup refs ->
  let self := length (d_funcs b) in
  parseFunction b (out ++ rest) =
  Some ((true, with_funcs b (link_all (d_funcs b) refs self ++
                 [copy_fn (isStripped b) (b_name b) self refs f]) (self :: st)), rest).
Proof.
  intros Ha Hbe Hf Hw Hst Hlen Horph Hnd self. pose proof (fs_size _ f Hf _ Hw) as Hsize.
  unfold write_body in Hw.
  destruct (if isStripped b then Some [] else writeDbgInfo f) as [dbg|] eqn:Edbg; [|done].
  assert (out = bcwrite_uleb128 (Z.of_nat (length (write_proto (isStripped b) f dbg))) ++
    write_proto (isStripped b) f dbg) as -> by congruence. rewrite length_app in Hsize.
  assert (0 < Z.of_nat (length (write_proto (isStripped b) f dbg)))
    by (unfold write_proto; rewrite length_app; simpl; lia).
  unfold parseFunction. rewrite <- app_assoc, rbind_uleb by lia.
  rewrite (proj2 (Z.eqb_neq _ 0)) by lia. unfold write_proto.
  rewrite <- !app_assoc.
  pose proof (land_flags_range _ (fs_flags _ f Hf)).
  rewrite !rbind_readByte by (apply Hf || assumption || (pose proof (fs_nuv _ f Hf); lia)).
  rewrite !rbind_uleb by
    (pose proof (fs_nobj _ f Hf); pose proof (fs_nnum _ f Hf); pose proof (fs_nbc _ f Hf); lia).
  rewrite Hbe, eqb_reflx. simpl negb.
  pose proof (read_code_app _ (writeUpval (d_upvals f) ++ writeObjConsts (d_constObjs f) ++
    writeNumConsts (d_constNums f) ++ dbg ++ rest) (fs_bc _ f Hf) (fs_nbc _ f Hf)) as Ecode.
  pose proof (read_upval_app _ (writeObjConsts (d_constObjs f) ++
    writeNumConsts (d_constNums f) ++ dbg ++ rest) (fs_uv _ f Hf) (fs_nuv _ f Hf)) as Euv.
  pose proof (read_objs_app self _ b refs st (writeNumConsts (d_constNums f) ++ dbg ++ rest)
    Ha (fs_obj _ f Hf) (fs_nobj _ f Hf) Hst Hlen Horph Hnd) as Eobj.
  pose proof (read_nums_app _ (dbg ++ rest) (fs_num _ f Hf) (fs_nnum _ f Hf)) as Enum.
  destruct (isStripped b) eqn:Es.
  - assert (dbg = []) as -> by congruence. unfold writeByte. cbn [app].
    rewrite !rbind_rret. cbn [Z.eqb].
    rewrite rbind_rret, rbind_rret, (rbind_Some _ _ _ _ _ Ecode), (rbind_Some _ _ _ _ _ Euv).
    fold self. rewrite (rbind_Some _ _ _ _ _ Eobj), (rbind_Some _ _ _ _ _ Enum). done.
  - destruct (read_dbg f (with_funcs b (link_all (d_funcs b) refs self) st) dbg rest
      (fs_dbg _ f Hf eq_refl) Edbg) as (Hdbg & mid & Elines & Enames).
    rewrite bool_decide_eq_false_2 by (intros ->; simpl in Hdbg; lia).
    rewrite <- !app_assoc, rbind_uleb by lia. rewrite (proj2 (Z.eqb_neq _ 0)) by lia.
    pose proof (fs_dbg _ f Hf eq_refl) as Hd. pose proof (ds_numline f Hd).
    rewrite !rbind_uleb by (apply Hd || lia).
    rewrite (rbind_Some _ _ _ _ _ Ecode), (rbind_Some _ _ _ _ _ Euv).
    fold self. rewrite (rbind_Some _ _ _ _ _ Eobj), (rbind_Some _ _ _ _ _ Enum).
    cbn [snd]. rewrite (rbind_Some _ _ _ _ _ Elines). cbn [snd].
    rewrite (rbind_Some _ _ _ _ _ Enames). done.
Qed.

(** ** The flags [writeFunction] sets on the way *)

Definition flagged (f : Function) : Function :=
  match child_refs (d_constObjs f) with [] => f | _ => set_child_flag f end.

(** [writeFunction] changes nothing but the child flag of functions with children. *)
Definition grows (h h' : Heap) : Prop :=
  forall i, option_map flagged (h' !! i) = option_map flagged (h !! i) /\
    (forall f, h !! i = Some (flagged f) -> h' !! i = Some (flagged f)).

Lemma set_child_flag_idem f : set_child_flag (set_child_flag f) = set_child_flag f.
Proof. unfold set_child_flag. destruct f; simpl. by rewrite <- Z.lor_assoc, Z.lor_diag. Qed.

Lemma refs_flagged f : child_refs (d_constObjs (flagged f)) = child_refs (d_constObjs f).
Proof. unfold flagged. by destruct (child_refs (d_constObjs f)) eqn:E. Qed.

Lemma flagged_idem f : flagged (flagged f) = flagged f.
Proof.
  unfold flagged. destruct (child_refs (d_constObjs f)) eqn:E; [by rewrite E|].
  simpl. rewrite E. apply set_child_flag_idem.
Qed.

Lemma grows_refl h : grows h h.
Proof. by intros i. Qed.
Lemma grows_trans h1 h2 h3 : grows h1 h2 -> grows h2 h3 -> grows h1 h3.
Proof.
  intros H1 H2 i. destruct (H1 i) as [E1 F1], (H2 i) as [E2 F2]. split; [congruence|auto].
Qed.

Lemma grows_alter h a f :
  h !! a = Some f -> child_refs (d_constObjs f) <> [] ->
  grows h (alter set_child_flag a h) /\ alter set_child_flag a h !! a = Some (flagged f).
Proof.
  intros Ha Hc.
  assert (alter set_child_flag a h !! a = Some (flagged f)) as Hf.
  { rewrite list_lookup_alter_eq, Ha. simpl. unfold flagged. by destruct (child_refs _). }
  split; [|done]. intros i. destruct (decide (i = a)) as [->|Hne].
  - rewrite Hf, Ha. simpl. rewrite flagged_idem. split; [done|].
    intros g [= ->]. by rewrite flagged_idem.
  - by rewrite list_lookup_alter_ne by done.
Qed.

Lemma grows_lookup h h' a f' :
  grows h h' -> h' !! a = Some f' -> exists f, h !! a = Some f /\ flagged f = flagged f'.
Proof.
  intros Hg Hf. destruct (Hg a) as [E _]. rewrite Hf in E.
  destruct (h !! a) as [f|]; [|done]. exists f. by injection E.
Qed.

Lemma children_grow wr a f h refs out h' :
  (forall h c out h', wr h c = Some (out, h') -> grows h h') ->
  h !! a = Some f -> child_refs (d_constObjs f) <> [] ->
  write_children wr a h refs = Some (out, h') -> grows h h'.
Proof.
  intros Hwr. revert h f out. induction refs as [|c refs IH]; intros h f out Ha Hc Hw; simpl in Hw.
  - injection Hw as <- <-. apply grows_refl.
  - destruct (wr (alter set_child_flag a h) c) as [[o1 h1]|] eqn:E1; [|done]. simpl in Hw.
    destruct (write_children wr a h1 refs) as [[o2 h2]|] eqn:E2; [|done]. injection Hw as _ <-.
    destruct (grows_alter h a f Ha Hc) as [G1 Hf]. apply Hwr in E1 as G2.
    destruct (G2 a) as [_ Hkeep]. specialize (Hkeep _ Hf).
    eapply grows_trans; [exact G1|]. eapply grows_trans; [exact G2|].
    eapply (IH h1); [exact Hkeep|by rewrite refs_flagged|exact E2].
Qed.

Lemma rev_nil {A} (l : list A) : rev l = [] -> l = [].
Proof. intros H. by rewrite <- (rev_involutive l), H. Qed.

Lemma writeFunction_grows strip fuel h a out h' :
  writeFunction strip fuel h a = Some (out, h') -> grows h h'.
Proof.
  revert h a out h'. induction fuel as [|fuel IH]; intros h a out h' Hw; [done|]. simpl in Hw.
  destruct (h !! a) as [f|] eqn:Ha; [|done]. simpl in Hw.
  destruct (write_children _ a h _) as [[o1 h1]|] eqn:E1; [|done]. simpl in Hw.
  destruct (h1 !! a); [|done]. simpl in Hw.
  destruct (write_body strip _); [|done]. injection Hw as _ <-.
  destruct (child_refs (d_constObjs f)) eqn:Ec.
  - injection E1 as _ <-. apply grows_refl.
  - eapply children_grow; [exact IH|exact Ha|by rewrite Ec|exact E1].
Qed.

(** The function whose chunk is written, when its children have been. *)
Lemma written_function strip fuel h a f o1 h1 f1 :
  h !! a = Some f ->
  write_children (writeFunction strip fuel) a h (rev (child_refs (d_constObjs f))) = Some (o1, h1) ->
  h1 !! a = Some f1 -> f1 = flagged f.
Proof.
  intros Ha Hw Hf1. pose proof (writeFunction_grows strip fuel) as Hg.
  destruct (child_refs (d_constObjs f)) eqn:Ec.
  - injection Hw as _ <-. unfold flagged. rewrite Ec. congruence.
  - destruct (rev (n :: l)) as [|c refs] eqn:Er; [by apply rev_nil in Er|]. simpl in Hw.
    destruct (writeFunction strip fuel (alter set_child_flag a h) c) as [[o2 h2]|] eqn:E1; [|done].
    simpl in Hw. destruct (write_children _ a h2 refs) as [[o3 h3]|] eqn:E2; [|done].
    injection Hw as _ <-.
    destruct (grows_alter h a f Ha) as [G1 Hf]; [by rewrite Ec|].
    destruct (Hg _ _ _ _ E1 a) as [_ Hkeep]. specialize (Hkeep _ Hf).
    assert (grows h2 h3) as G3.
    { eapply children_grow; [exact Hg|exact Hkeep| |exact E2]. by rewrite refs_flagged, Ec. }
    destruct (G3 a) as [_ Hkeep2]. specialize (Hkeep2 _ Hkeep). congruence.
Qed.

(** ** Copies *)

(** A function up to what its place in a file decides. *)
Definition erase (f : Function) : Function :=
  {| d_sourceFile := d_sourceFile f; d_id := d_id f; d_flags := d_flags f;
     d_numparams := d_numparams f; d_framesize := d_framesize f; d_isRoot := false;
     d_firstline := d_firstline f; d_numline := d_numline f; d_byteCodes := d_byteCodes f;
     d_upvals := d_upvals f; d_constObjs := d_constObjs f; d_constNums := d_constNums f;
     d_lines := d_lines f; d_upNames := d_upNames f; d_vars := d_vars f;
     d_varNames := d_varNames f; d_outer := None |}.

(** The function at [a'] of [h'], and those it contains, were read from what was
    written for the function at [a] of [h]. *)
Inductive copies (strip : bool) (name : QString) (h h' : Heap) : nat -> nat -> Prop :=
  | copies_fn a a' f f' refs :
      h !! a = Some f -> h' !! a' = Some f' ->
      erase f' = copy_fn strip name a' refs (flagged f) ->
      Forall2 (copies strip name h h') (child_refs (d_constObjs f)) refs ->
      copies strip name h h' a a'.

Section CopiesInd.
Variables (strip : bool) (name : QString) (h h' : Heap) (P : nat -> nat -> Prop).
Hypothesis Hfn : forall a a' f f' refs,
  h !! a = Some f -> h' !! a' = Some f' ->
  erase f' = copy_fn strip name a' refs (flagged f) ->
  Forall2 (copies strip name h h') (child_refs (d_constObjs f)) refs ->
  Forall2 P (child_refs (d_constObjs f)) refs -> P a a'.

Fixpoint copies_ind' a a' (H : copies strip name h h' a a') : P a a' :=
  match H with
  | copies_fn _ _ _ _ a a' f f' refs H1 H2 H3 H4 =>
      Hfn a a' f f' refs H1 H2 H3 H4
        ((fix go l l' (H : Forall2 (copies strip name h h') l l') : Forall2 P l l' :=
            match H with
            | List.Forall2_nil _ => List.Forall2_nil _
            | List.Forall2_cons _ _ Hx Hl => List.Forall2_cons _ _ (copies_ind' _ _ Hx) (go _ _ Hl)
            end) _ _ H4)
  end.
End CopiesInd.

Definition preserves (h1 h2 : Heap) : Prop :=
  forall i f, h1 !! i = Some f -> exists f', h2 !! i = Some f' /\ erase f' = erase f.

Lemma copies_preserved strip name h h1 h2 a a' :
  preserves h1 h2 -> copies strip name h h1 a a' -> copies strip name h h2 a a'.
Proof.
  intros Hp. induction 1 as [a a' f f' refs Hf Hf' He Hr IH] using copies_ind'.
  destruct (Hp _ _ Hf') as (f2 & Hf2 & He2). econstructor; eauto. congruence.
Qed.

Lemma preserves_trans h1 h2 h3 : preserves h1 h2 -> preserves h2 h3 -> preserves h1 h3.
Proof.
  intros H1 H2 i f Hf. destruct (H1 _ _ Hf) as (f2 & Hf2 & E2).
  destruct (H2 _ _ Hf2) as (f3 & Hf3 & E3). exists f3. split; [done|congruence].
Qed.

Lemma preserves_app h l : preserves h (h ++ l).
Proof. intros i f Hf. exists f. split; [by apply lookup_app_l_Some|done]. Qed.

Lemma preserves_alter h g r : (forall f, erase (g f) = erase f) -> preserves h (alter g r h).
Proof.
  intros Hg i f Hf. destruct (decide (i = r)) as [->|].
  - exists (g f). split; [by rewrite list_lookup_alter_eq, Hf|apply Hg].
  - exists f. split; [by rewrite list_lookup_alter_ne|done].
Qed.

Lemma preserves_link h refs self : preserves h (link_all h refs self).
Proof.
  revert h. induction refs as [|r refs IH]; intros h; simpl.
  - intros i f Hf. by exists f.
  - eapply preserves_trans; [|apply IH]. apply preserves_alter. by intros [].
Qed.

Lemma length_link h refs self : length (link_all h refs self) = length h.
Proof.
  revert h. induction refs as [|r refs IH]; intros h; simpl; [done|].
  rewrite IH. apply length_alter.
Qed.

Lemma link_app h new refs self :
  Forall (fun r => length h <= r)%nat refs ->
  link_all (h ++ new) refs self =
  h ++ link_all new (map (fun r => r - length h)%nat refs) self.
Proof.
  intros Hr. revert new. induction Hr as [|r refs Hr Hrs IH]; intros new; [done|]. simpl.
  unfold set_outer at 1.
  replace r with (length h + (r - length h))%nat at 1 by lia.
  rewrite alter_app_r. apply IH.
Qed.

(** ** The functions of a file *)

(** [parse_loop] reads the functions in [s] up to [s']. *)
Inductive parses : JitBytecode -> bytes -> JitBytecode -> bytes -> Prop :=
  | parses_none b s : parses b s b s
  | parses_more b s b1 s1 b2 s2 :
      (length s1 < length s)%nat -> parseFunction b s = Some ((true, b1), s1) ->
      parses b1 s1 b2 s2 -> parses b s b2 s2.

Lemma parses_trans b1 s1 b2 s2 b3 s3 :
  parses b1 s1 b2 s2 -> parses b2 s2 b3 s3 -> parses b1 s1 b3 s3.
Proof. induction 1; [done|]. intros. econstructor; eauto. Qed.

Lemma parses_loop b s b' s' fuel :
  parses b s b' s' -> (length s < fuel)%nat ->
  exists fuel', (length s' < fuel')%nat /\ parse_loop fuel b s = parse_loop fuel' b' s'.
Proof.
  intros H. revert fuel. induction H as [b s|b s b1 s1 b2 s2 Hl Hp Hs IH]; intros fuel Hf.
  - by exists fuel.
  - destruct s as [|c s]; [simpl in Hl; lia|]. destruct fuel as [|fuel]; [lia|].
    destruct (IH fuel) as (fuel' & Hf' & E); [lia|]. exists fuel'. split; [done|].
    simpl parse_loop. rewrite Hp. simpl. exact E.
Qed.


Section Written.
Variables (strip : bool) (h0 : Heap).
Hypothesis Hltr : args_ltr = true.
Hypothesis Hstore : forall i f, h0 !! i = Some f -> fn_storable strip (flagged f).

Definition ready (b : JitBytecode) : Prop := isStripped b = strip /\ host_order b.

(** [out] is read as copies of the functions in [l], the last one read first on
    the stack. *)
Definition reads_list (l : list nat) (out : bytes) : Prop :=
  forall b s, ready b -> exists new refs,
    let h' := d_funcs b ++ new in
    parses b (out ++ s) (with_funcs b h' (refs ++ d_fstack b)) s /\
    Forall (fun r => length (d_funcs b) <= r)%nat refs /\
    Forall (orphan h') refs /\ NoDup refs /\
    Forall2 (copies strip (b_name b) h0 h') (rev l) refs.

Lemma ready_with b h st : ready b -> ready (with_funcs b h st).
Proof. done. Qed.

Lemma orphan_app h l r : orphan h r -> orphan (h ++ l) r.
Proof. intros (f & Hf & Ho). exists f. split; [by apply lookup_app_l_Some|done]. Qed.

Lemma orphan_lt h r : orphan h r -> (r < length h)%nat.
Proof. intros (f & Hf & _). by eapply lookup_lt_Some. Qed.

Lemma reads_nil : reads_list [] [].
Proof.
  intros b s Hb. exists [], []. rewrite app_nil_r. repeat split; try constructor.
  destruct b; constructor.
Qed.

Lemma reads_cons c l o1 o2 :
  reads_list [c] o1 -> reads_list l o2 -> reads_list (c :: l) (o1 ++ o2).
Proof.
  intros H1 H2 b s Hb.
  destruct (H1 b (o2 ++ s) Hb) as (n1 & r1 & P1 & L1 & O1 & D1 & C1).
  destruct (H2 (with_funcs b (d_funcs b ++ n1) (r1 ++ d_fstack b)) s Hb) as (n2 & r2 & P2 & L2 & O2 & D2 & C2).
  simpl in P2, L2, O2, D2, C2.
  exists (n1 ++ n2), (r2 ++ r1). cbv zeta. rewrite <- (app_assoc o1), (app_assoc (d_funcs b)).
  split; [|split; [|split; [|split]]].
  - eapply parses_trans; [exact P1|]. unfold with_funcs in *. simpl in *.
    rewrite <- (app_assoc r2). exact P2.
  - apply Forall_app. split; [|done]. eapply Forall_impl; [exact L2|]. simpl.
    intros r Hr. rewrite length_app in Hr. lia.
  - apply Forall_app. split; [done|]. eapply Forall_impl; [exact O1|]. intros. by apply orphan_app.
  - apply NoDup_app. split; [done|]. split; [|done]. intros r Hr2 Hr1.
    rewrite Forall_forall in L2, O1. specialize (L2 _ Hr2). apply O1, orphan_lt in Hr1. lia.
  - simpl rev. apply Forall2_app; [done|].
    eapply Forall2_impl; [exact C1|]. intros. eapply copies_preserved; [apply preserves_app|done].
Qed.

Lemma reads_function a f o1 o2 :
  h0 !! a = Some f -> reads_list (rev (child_refs (d_constObjs f))) o1 ->
  write_body strip (flagged f) = Some o2 -> reads_list [a] (o1 ++ o2).
Proof.
  intros Ha H1 Hw b s Hb. destruct (H1 b (o2 ++ s) Hb) as (new & refs & P & L & O & D & C).
  rewrite rev_involutive in C.
  set (b1 := with_funcs b (d_funcs b ++ new) (refs ++ d_fstack b)) in *.
  assert (ready b1) as [Hs1 Hh1] by exact Hb.
  pose proof (refs_flagged f) as Hcf.
  assert (fn_storable (isStripped b1) (flagged f)) as Hst by (rewrite Hs1; by eapply Hstore).
  assert (write_body (isStripped b1) (flagged f) = Some o2) as Hw1 by (by rewrite Hs1).
  pose proof (Forall2_length _ _ _ C) as Hlen. rewrite <- Hcf in Hlen.
  pose proof (parse_body (flagged f) b1 o2 refs (d_fstack b) s Hltr Hh1 Hst Hw1 eq_refl
    (eq_sym Hlen) O D) as E. simpl in E. rewrite Hs1 in E.
  set (self := length (d_funcs b ++ new)) in *.
  rewrite link_app in E by done. rewrite <- app_assoc in E.
  eexists _, [self]. cbv zeta. rewrite <- app_assoc. split; [|split; [|split; [|split]]].
  - eapply parses_trans; [exact P|]. eapply parses_more; [|exact E|constructor].
    rewrite length_app. unfold write_body in Hw.
    destruct (if strip then _ else _) as [dbg|]; [|done].
    set (tmp := write_proto strip (flagged f) dbg) in Hw.
    assert (o2 = bcwrite_uleb128 (Z.of_nat (length tmp)) ++ tmp) as -> by congruence.
    rewrite length_app. pose proof (bcwrite_terminates_len (Z.of_nat (length tmp))). lia.
  - constructor; [|done]. subst self. rewrite length_app. lia.
  - constructor; [|done]. exists (copy_fn strip (b_name b) self refs (flagged f)).
    split; [|reflexivity]. rewrite app_assoc. apply lookup_app_Some. right. subst self.
    rewrite !length_app, length_link. split; [lia|]. by rewrite Nat.sub_diag.
  - apply NoDup_singleton.
  - constructor; [|constructor]. apply (copies_fn _ _ _ _ _ _ f (copy_fn strip (b_name b) self refs (flagged f)) refs Ha);
      [|reflexivity|].
    + rewrite app_assoc. apply lookup_app_Some. right. subst self.
      rewrite !length_app, length_link. split; [lia|]. by rewrite Nat.sub_diag.
    + eapply Forall2_impl; [exact C|]. intros x y Hxy.
      eapply copies_preserved; [|exact Hxy].
      rewrite app_assoc, <- link_app by done.
      eapply preserves_trans; [apply (preserves_link _ refs self)|apply preserves_app].
Qed.

Lemma reads_children fuel a f :
  (forall h c out h', grows h0 h -> writeFunction strip fuel h c = Some (out, h') ->
     reads_list [c] out) ->
  child_refs (d_constObjs f) <> [] ->
  forall l h out h', grows h0 h -> h !! a = Some f ->
  write_children (writeFunction strip fuel) a h l = Some (out, h') -> reads_list l out.
Proof.
  intros IH Hc l. revert f Hc.
  induction l as [|c l IHl]; intros f Hc h out h' Hg Ha Hw; simpl in Hw.
  - injection Hw as <- _. apply reads_nil.
  - destruct (writeFunction strip fuel (alter set_child_flag a h) c) as [[o1 h1]|] eqn:E1; [|done].
    simpl in Hw. destruct (write_children _ a h1 l) as [[o2 h2]|] eqn:E2; [|done].
    injection Hw as <- _. destruct (grows_alter h a f Ha Hc) as [G1 Hf].
    pose proof (writeFunction_grows _ _ _ _ _ _ E1) as G2.
    destruct (G2 a) as [_ Hkeep]. specialize (Hkeep _ Hf).
    apply reads_cons.
    + eapply IH; [|exact E1]. by eapply grows_trans.
    + eapply (IHl (flagged f)); [| |exact Hkeep|exact E2].
      * by rewrite refs_flagged.
      * eapply grows_trans; [exact Hg|]. by eapply grows_trans.
Qed.

Lemma reads_written fuel h a out h' :
  grows h0 h -> writeFunction strip fuel h a = Some (out, h') -> reads_list [a] out.
Proof.
  revert h a out h'. induction fuel as [|fuel IH]; intros h a out h' Hg Hw; [done|]. simpl in Hw.
  destruct (h !! a) as [f|] eqn:Ha; [|done]. simpl in Hw.
  destruct (write_children _ a h _) as [[o1 h1]|] eqn:E1; [|done]. simpl in Hw.
  destruct (h1 !! a) as [f1|] eqn:Hf1; [|done]. simpl in Hw.
  destruct (write_body strip f1) as [o2|] eqn:Eb; [|done]. injection Hw as <- _.
  destruct (grows_lookup _ _ _ _ Hg Ha) as (f0 & Hf0 & Efl).
  pose proof (written_function _ _ _ _ _ _ _ _ Ha E1 Hf1) as ->.
  assert (child_refs (d_constObjs f) = child_refs (d_constObjs f0)) as Ec.
  { by rewrite <- (refs_flagged f), <- Efl, refs_flagged. }
  eapply reads_function; [exact Hf0| |by rewrite Efl].
  rewrite <- Ec. destruct (child_refs (d_constObjs f)) as [|c cs] eqn:Ecs.
  - injection E1 as <- _. apply reads_nil.
  - eapply reads_children; [exact IH| |exact Hg|exact Ha|exact E1]. by rewrite Ecs.
Qed.


(** ** Writing succeeds *)

(** A function refers to functions of a smaller rank only. *)
Definition nested (rank : nat -> nat) (h : Heap) : Prop :=
  forall i f c, h !! i = Some f -> c ∈ child_refs (d_constObjs f) ->
  (c < length h /\ rank c < rank i)%nat.

Lemma write_vars_total l vars : Forall var_storable vars -> is_Some (write_vars l vars).
Proof.
  intros Hv. revert l. induction Hv as [|v vars (_ & _ & _ & _ & Hp) Hv IH]; intros l; [done|].
  simpl. destruct (IH (d_startpc v)) as [rest ->].
  assert (is_Some (write_varname (v_name v))) as [n ->]; [|done].
  unfold write_varname. destruct (startsWithPar (v_name v)); [|done].
  unfold varname_code. specialize (Hp eq_refl).
  apply list_elem_of_lookup in Hp as [j Hj].
  destruct (list_find_elem_of (fun n => n = v_name v) (tail s_varname) (v_name v)) as [[k n] ->];
    [by eapply list_elem_of_lookup_2|done|done].
Qed.

Lemma write_body_total i f : h0 !! i = Some f -> is_Some (write_body strip (flagged f)).
Proof.
  intros Hf. unfold write_body. generalize (fs_dbg _ _ (Hstore _ _ Hf)).
  case strip; intros Hd; [done|]. specialize (Hd eq_refl).
  unfold writeDbgInfo. by destruct (write_vars_total 0 _ (ds_vars _ Hd)) as [v ->].
Qed.

Lemma write_total rank fuel h i :
  nested rank h0 -> grows h0 h -> (i < length h0)%nat -> (rank i < fuel)%nat ->
  is_Some (writeFunction strip fuel h i).
Proof.
  intros Hn. revert h i. induction fuel as [|fuel IH]; intros h i Hg Hi Hr; [lia|]. simpl.
  destruct (lookup_nat_lt _ _ Hi) as [f0 Hf0].
  destruct (Hg i) as [Hi1 _]. rewrite Hf0 in Hi1. destruct (h !! i) as [f|] eqn:Hf; [|done].
  simpl in Hi1. injection Hi1 as Efl. simpl.
  assert (Ec : child_refs (d_constObjs f) = child_refs (d_constObjs f0))
    by (by rewrite <- (refs_flagged f), Efl, refs_flagged).
  assert (Hch : forall l h1 f1, (forall c, c ∈ l -> c ∈ child_refs (d_constObjs f0)) ->
    grows h0 h1 -> h1 !! i = Some f1 -> flagged f1 = flagged f0 ->
    exists o h2, write_children (writeFunction strip fuel) i h1 l = Some (o, h2) /\ grows h0 h2).
  { induction l as [|c l IHl]; intros h1 f1 Hin Hg1 Hf1 E1; simpl; [by eauto|].
    assert (c ∈ child_refs (d_constObjs f0)) as Hc by (apply Hin; constructor).
    destruct (Hn _ _ _ Hf0 Hc) as [Hlt Hrank].
    destruct (grows_alter h1 i f1 Hf1) as [Ga Hfa].
    { rewrite <- (refs_flagged f1), E1, refs_flagged. intros E. rewrite E in Hc.
      by apply not_elem_of_nil in Hc. }
    assert (grows h0 (alter set_child_flag i h1)) as Gb by (by eapply grows_trans).
    destruct (IH (alter set_child_flag i h1) c Gb Hlt) as [[o1 h2] Ew]; [lia|]. rewrite Ew. simpl.
    pose proof (writeFunction_grows _ _ _ _ _ _ Ew) as G2. destruct (G2 i) as [_ Hkeep].
    destruct (IHl h2 (flagged f1)) as (o2 & h3 & E3 & G3).
    - intros x Hx. apply Hin. by constructor.
    - by eapply grows_trans.
    - by apply Hkeep.
    - by rewrite flagged_idem.
    - rewrite E3. simpl. eauto. }
  destruct (Hch (rev (child_refs (d_constObjs f))) h f) as (o1 & h1 & E1 & G1); try done.
  { intros c Hc. rewrite <- Ec. by apply list_elem_of_In, in_rev, list_elem_of_In. }
  rewrite E1. simpl. destruct (G1 i) as [Hi2 _]. rewrite Hf0 in Hi2.
  destruct (h1 !! i) as [f1|] eqn:Hf1; [|done]. simpl.
  rewrite (written_function _ _ _ _ _ _ _ _ Hf E1 Hf1), Efl.
  destruct (write_body_total _ _ Hf0) as [o2 ->]. done.
Qed.

End Written.

(** ** The file *)
Lemma read_header b b0 rest :
  Z.of_nat (length (toUtf8 (b_name b))) < 2 ^ 32 -> b_name b0 = [] ->
  exists b1, parseHeader b0 (writeHeader b ++ rest) = Some ((true, b1), rest) /\
    isStripped b1 = isStripped b /\ host_order b1 /\
    d_funcs b1 = d_funcs b0 /\ d_fstack b1 = d_fstack b0 /\ d_log b1 = d_log b0 /\
    b_name b1 = if isStripped b then [] else fromUtf8 (toUtf8 (b_name b)).
Proof.
  intros Hlen Hname.
  set (F := (if isStripped b then BCDUMP_F_STRIP else 0) + (if host_be then BCDUMP_F_BE else 0)).
  assert (HF : 0 <= F < 128 /\ Z.land F (Z.lnot BCDUMP_F_KNOWN) = 0 /\ Z.land F BCDUMP_F_FFI = 0 /\
    (Z.land F BCDUMP_F_STRIP =? 0) = negb (isStripped b) /\
    negb (Z.land F BCDUMP_F_BE =? 0) = host_be).
  { subst F. destruct (isStripped b), host_be; by vm_compute. }
  destruct HF as (HF & Hk & Hffi & Hs & Hbe).
  unfold writeHeader. fold F. rewrite (writeByte_uleb F) by done.
  set (nm := if isStripped b then [] else _).
  unfold parseHeader. rewrite <- !app_assoc.
  change (writeByte BCDUMP_HEAD1 ++ writeByte BCDUMP_HEAD2 ++ writeByte BCDUMP_HEAD3 ++
    writeByte BCDUMP_VERSION ++ bcwrite_uleb128 F ++ nm ++ rest) with
    ([x1b; x4c; x4a; x01] ++ bcwrite_uleb128 F ++ nm ++ rest).
  rewrite rbind_bytes by done.
  assert (checkFileHeader [x1b; x4c; x4a; x01] = []) as -> by reflexivity.
  rewrite bool_decide_eq_true_2 by done. change (negb true) with false. cbv iota.
  rewrite rbind_uleb, u8_small, Hk, Hffi, Hs by lia. simpl. subst nm.
  destruct (isStripped b); simpl.
  - eexists. split; [reflexivity|]. unfold isStripped, host_order. simpl.
    by rewrite Hs, Hbe, Hname.
  - rewrite <- app_assoc, rbind_uleb, rbind_bytes by lia.
    eexists. split; [reflexivity|]. unfold isStripped, host_order. simpl. by rewrite Hs, Hbe.
Qed.

Lemma parse_loop_end b fuel : (1 < fuel)%nat -> parse_loop fuel b [x00] = Some (b, []).
Proof. intros. destruct fuel as [|fuel]; [lia|]. reflexivity. Qed.

Lemma preserves_isRoot h r : preserves h (alter set_isRoot r h).
Proof. by apply preserves_alter. Qed.

(** [C1] [write] succeeds on every root whose functions are storable and nested,
    and [parse] of the file gives one root that is a copy of it, whatever was
    parsed before; nothing is reported. *)
Theorem parse_write b r rank :
  args_ltr = true ->
  (forall i f, d_funcs b !! i = Some f -> fn_storable (isStripped b) (flagged f)) ->
  nested rank (d_funcs b) -> (r < length (d_funcs b))%nat ->
  (rank r < length (d_funcs b))%nat -> getRoot b = Some r ->
  Z.of_nat (length (toUtf8 (b_name b))) < 2 ^ 32 ->
  exists out b', write b = Some (true, out, b') /\
    forall path b0, exists b1 r1,
      parse path b0 out = Some (true, b1, []) /\ getRoot b1 = Some r1 /\
      copies (isStripped b) (b_name b1) (d_funcs b) (d_funcs b1) r r1 /\
      isStripped b1 = isStripped b /\ d_log b1 = d_log b0.
Proof.
  intros Ha Hst Hn Hr Hrank Hroot Hname.
  assert (d_fstack b = [r]) as Hstack.
  { unfold getRoot in Hroot. destruct (d_fstack b) as [|x [|]]; congruence. }
  destruct (write_total _ _ Hst rank (length (d_funcs b)) (d_funcs b) r Hn (grows_refl _) Hr Hrank)
    as [[o h] Hw].
  unfold write. rewrite Hstack, Hw. do 2 eexists. split; [reflexivity|].
  intros path b0.
  destruct (read_header b (clear b0) (o ++ [x00]) Hname eq_refl)
    as (b1 & Hp & Hs1 & Ho1 & Hf1 & Hst1 & Hl1 & Hn1).
  unfold parse. rewrite Hp. cbn [mbind option_bind negb].
  set (b2 := match b_name b1 with [] => _ | _ => b1 end).
  assert (ready (isStripped b) b2 /\ d_funcs b2 = [] /\ d_fstack b2 = [] /\ d_log b2 = d_log b0)
    as (Hr2 & Hf2 & Hst2 & Hl2).
  { subst b2. by destruct (b_name b1); repeat split. }
  destruct (reads_written _ _ Ha Hst _ _ _ _ _ (grows_refl _) Hw b2 [x00] Hr2)
    as (new & refs & P & _ & O & _ & C).
  rewrite Hf2, Hst2, app_nil_l, app_nil_r in *.
  inversion C as [|? r1 ? ? C1 C2]; subst. inversion C2; subst.
  destruct (parses_loop _ _ _ _ (S (length (o ++ [x00]))) P) as (fuel' & Hf' & E); [lia|].
  rewrite E, parse_loop_end by done. simpl.
  do 2 eexists. split; [reflexivity|]. split; [reflexivity|]. split; [|split; [apply Hr2|done]].
  eapply copies_preserved; [apply preserves_isRoot|]. exact C1.
Qed.

End Roundtrip.

(** ** An example file *)

Definition ex_child : Function :=
  {| d_sourceFile := []; d_id := 0; d_flags := 0; d_numparams := 1; d_framesize := 3;
     d_isRoot := false; d_firstline := 1; d_numline := 3; d_byteCodes := [0x10; 0x20; 0x80000048];
     d_upvals := [0x8001; 2]; d_constObjs := [QByteArray (qb "print")];
     d_constNums := [QInt (-5); QDouble 0x3fe0000000000000]; d_lines := [1; 2; 3];
     d_upNames := [qb "a"; qb "b"];
     d_vars := [mkVar 0 5 (qb "x"); mkVar 2 2 (qb "(for index)"); mkVar 3 5 (qb "i")];
     d_varNames := []; d_outer := None |}.

Definition ex_root : Function :=
  {| d_sourceFile := []; d_id := 1; d_flags := 2; d_numparams := 0; d_framesize := 2;
     d_isRoot := true; d_firstline := 0; d_numline := 300; d_byteCodes := [0x31; 0x48];
     d_upvals := [];
     d_constObjs := [QFuncRef 0; QConstTable [(QByteArray (qb "k"), QInt 7)] [QBool true; QInvalid]];
     d_constNums := []; d_lines := [4; 299]; d_upNames := []; d_vars := [];
     d_varNames := []; d_outer := None |}.

Definition ex_file : JitBytecode := mkJitBytecode (map ubyte (qb "@x.lua")) [ex_child; ex_root] [1%nat] 0 [].

Ltac storable :=
  constructor;
  [by_decide ..
  | first [intros _; constructor;
      [by_decide .. | intros out E; vm_compute in E; injection E as <-; by_decide] | done]
  | intros out E; vm_compute in E; injection E as <-; by_decide].

Lemma ex_child_storable : fn_storable (Q:=Qt_example) false ex_child.
Proof. storable. Qed.
Lemma ex_root_storable : fn_storable (Q:=Qt_example) false (flagged ex_root).
Proof. storable. Qed.

Lemma parse_write_witness :
  exists out b', write (Q:=Qt_example) ex_file = Some (true, out, b') /\
    forall path b0, exists b1 r1,
      parse (Q:=Qt_example) path b0 out = Some (true, b1, []) /\ getRoot b1 = Some r1 /\
      copies (Q:=Qt_example) (isStripped ex_file) (b_name b1) (d_funcs ex_file) (d_funcs b1) 1 r1 /\
      isStripped b1 = isStripped ex_file /\ d_log b1 = d_log b0.
Proof.
  apply (parse_write (Q:=Qt_example) ex_file 1 id); try reflexivity; try (simpl; unfold id; lia).
  - intros [|[|i]] f Hf; [injection Hf as <-; exact ex_child_storable
      |injection Hf as <-; exact ex_root_storable|done].
  - intros [|[|i]] f c Hf Hc; [injection Hf as <-; by inversion Hc| |done].
    injection Hf as <-. apply list_elem_of_singleton in Hc as ->. unfold id. simpl. lia.
Defined.
