(* ===== verification/SlotPool.v ===== *)
(** * Register slots of the composer

    The slot pool of [LuaJitComposer.h/.cpp] and the functions on it:
    [nextFreeSlot], [releaseSlot], and the register allocation
    [allocateWithLinearScan].  The [std::bitset] is the list of its 250 bits; its
    [test] and [set] throw for a larger position, which is [None] here, as is a
    failed [Q_ASSERT]. *)

From S2P Require Import Prelude.
Local Open Scope nat_scope.

(** [src/LuaJitComposer.h:51-51] MAX_SLOTS *)
Definition MAX_SLOTS : nat := 250.
#[global] Arguments MAX_SLOTS : simpl never.

(** [d_callArgs] has the innermost call last.
    [src/LuaJitComposer.h:61-67] SlotPool *)
Record SlotPool := mkSlotPool {
  d_slots : list bool;
  d_callArgs : list nat;
  d_frameSize : Z
}.

(** [std::bitset::set] *)
Definition set_bit (slots : list bool) (i : nat) (val : bool) : option (list bool) :=
  if decide (i < length slots) then Some (<[i := val]> slots) else None.

Definition with_slots (pool : SlotPool) (slots : list bool) : SlotPool :=
  mkSlotPool slots (d_callArgs pool) (d_frameSize pool).

(** The loop over the positions.
    [src/LuaJitComposer.cpp:698-703] checkFree *)
Fixpoint checkFree_loop (slots : list bool) (slot len i : nat) : nat :=
  match len with
  | O => i
  | S len => if default false (slots !! (slot + i)) then i else checkFree_loop slots slot len (S i)
  end.

(** [src/LuaJitComposer.cpp:694-704] checkFree *)
Definition checkFree (pool : SlotPool) (slot len : nat) : nat :=
  if MAX_SLOTS <=? slot + len then 0 else checkFree_loop (d_slots pool) slot len 0.

(** [src/LuaJitComposer.cpp:706-711] fill *)
Fixpoint fill (slots : list bool) (val : bool) (from n : nat) : option (list bool) :=
  match n with
  | O => Some slots
  | S n => slots ← set_bit slots from val; fill slots val (S from) n
  end.

(** [d_frameSize] is a [quint8].
    [src/LuaJitComposer.cpp:713-720] setFrameSize *)
Definition setFrameSize (pool : SlotPool) (slot len : nat) : SlotPool :=
  let max := Z.of_nat (slot + len) in
  if (d_frameSize pool <? max)%Z then mkSlotPool (d_slots pool) (d_callArgs pool) (u8 max) else pool.

(** [src/LuaJitComposer.cpp:722-734] setCallArgs *)
Definition setCallArgs (pool : SlotPool) (slot : nat) (callArgs : bool) : SlotPool :=
  if callArgs then mkSlotPool (d_slots pool) (d_callArgs pool ++ [slot]) (d_frameSize pool) else pool.

(** The loop from the highest position down to 0.
    [src/LuaJitComposer.cpp:789-791] highestUsedSlot *)
Fixpoint highestUsed_loop (slots : list bool) (i : nat) : Z :=
  match i with
  | O => -1
  | S i => if default false (slots !! i) then Z.of_nat i else highestUsed_loop slots i
  end.

(** [src/LuaJitComposer.cpp:787-793] highestUsedSlot *)
Definition highestUsedSlot (pool : SlotPool) : Z := highestUsed_loop (d_slots pool) MAX_SLOTS.

(** [src/LuaJitComposer.cpp:797-799] lowestUnusedSlot *)
Fixpoint lowestUnused_loop (slots : list bool) (slot : nat) : nat :=
  match slots with true :: slots => lowestUnused_loop slots (S slot) | _ => slot end.

(** [src/LuaJitComposer.cpp:795-801] lowestUnusedSlot *)
Definition lowestUnusedSlot (pool : SlotPool) (start : nat) : nat :=
  lowestUnused_loop (drop start (d_slots pool)) start.

(** The block that was found is taken.
    [src/LuaJitComposer.cpp:752-766] nextFreeSlot *)
Definition take_block (pool : SlotPool) (slot len : nat) (callArgs : bool) : option (Z * SlotPool) :=
  slots ← fill (d_slots pool) true slot len;
  Some (Z.of_nat slot, setCallArgs (setFrameSize (with_slots pool slots) slot len) slot callArgs).

(** One round of the loop: the result, or the slot to go on with.
    [src/LuaJitComposer.cpp:743-771] nextFreeSlot *)
Definition nextFree_round (pool : SlotPool) (len : nat) (callArgs : bool) (slot : nat)
    : option ((Z * SlotPool) + nat) :=
  let slot := if callArgs then Z.to_nat (highestUsedSlot pool + 1)
              else lowestUnusedSlot pool slot in
  if slot <? MAX_SLOTS then
    match d_slots pool !! slot with
    | Some false =>
        if len =? 1 then r ← take_block pool slot 1 callArgs; Some (inl r)
        else
          let free := checkFree pool slot len in
          if free =? len then r ← take_block pool slot len callArgs; Some (inl r)
          else Some (inr (slot + free))
    | _ => None
    end
  else Some (inl ((-1)%Z, pool)).

Fixpoint nextFree_loop (fuel : nat) (pool : SlotPool) (len : nat) (callArgs : bool) (slot : nat)
    : option (Z * SlotPool) :=
  match fuel with
  | O => None
  | S fuel =>
      r ← nextFree_round pool len callArgs slot;
      match r with
      | inl r => Some r
      | inr slot => nextFree_loop fuel pool len callArgs slot
      end
  end.

(** Where the search starts.
    [src/LuaJitComposer.cpp:738-740] nextFreeSlot *)
Definition search_start (pool : SlotPool) : nat := default 0 (last (d_callArgs pool)).

(** With the fuel it gets, the loop has either ended or never does (see
    [nextFreeSlot_ends_or_never]).
    [src/LuaJitComposer.cpp:736-773] nextFreeSlot *)
Definition nextFreeSlot (pool : SlotPool) (len : nat) (callArgs : bool) : option (Z * SlotPool) :=
  nextFree_loop (S (S MAX_SLOTS)) pool len callArgs (search_start pool).

(** [src/LuaJitComposer.cpp:777-782] releaseSlot *)
Fixpoint release_loop (slots : list bool) (i n : nat) : option (bool * list bool) :=
  match n with
  | O => Some (true, slots)
  | S n =>
      b ← slots !! i;
      if (b : bool) then slots ← set_bit slots i false; release_loop slots (S i) n
      else Some (false, slots)
  end.

(** [QList::removeOne] *)
Fixpoint removeOne (x : nat) (l : list nat) : list nat :=
  match l with
  | [] => []
  | y :: l => if decide (y = x) then l else y :: removeOne x l
  end.

(** [src/LuaJitComposer.cpp:775-785] releaseSlot *)
Definition releaseSlot (pool : SlotPool) (slot len : nat) : option (bool * SlotPool) :=
  '(ok, slots) ← release_loop (d_slots pool) slot len;
  if (ok : bool)
  then Some (true, mkSlotPool slots (removeOne slot (d_callArgs pool)) (d_frameSize pool))
  else Some (false, with_slots pool slots).

(** ** Blocks of slots *)

(** A pool as the constructor makes it and the operations keep it. *)
Record pool_ok (pool : SlotPool) : Prop := {
  po_size : length (d_slots pool) = MAX_SLOTS;
  po_calls : Forall (fun c => d_slots pool !! c = Some true) (d_callArgs pool);
  po_frame : (0 <= d_frameSize pool < 256)%Z
}.

Definition all_slots (val : bool) (slots : list bool) (slot len : nat) : Prop :=
  forall i, slot <= i < slot + len -> slots !! i = Some val.

(** The slots after a block was set. *)
Definition block_set (slots slots' : list bool) (slot len : nat) (val : bool) : Prop :=
  forall i, slots' !! i = if decide (slot <= i < slot + len) then Some val else slots !! i.

Lemma fill_spec slots val from n :
  from + n <= length slots ->
  exists slots', fill slots val from n = Some slots' /\ length slots' = length slots /\
                 block_set slots slots' from n val.
Proof.
  revert slots from. induction n as [|n IH]; intros slots from Hle; simpl.
  - exists slots. split; [done|]. split; [done|]. intros i. case_decide; [lia|done].
  - unfold set_bit. rewrite decide_True by lia. simpl.
    destruct (IH (<[from:=val]> slots) (S from)) as (s' & Hs & Hl & Hb);
      [rewrite length_insert; lia|]. exists s'. split; [done|].
    rewrite length_insert in Hl. split; [done|]. intros i. rewrite Hb.
    destruct (decide (i = from)) as [->|Hne].
    + rewrite list_lookup_insert_eq by lia. do 2 case_decide; try lia; done.
    + rewrite list_lookup_insert_ne by done. do 2 case_decide; try lia; done.
Qed.

Lemma checkFree_loop_spec slots slot n i :
  slot + i + n <= length slots ->
  i <= checkFree_loop slots slot n i <= i + n /\
  all_slots false slots (slot + i) (checkFree_loop slots slot n i - i) /\
  (checkFree_loop slots slot n i < i + n -> slots !! (slot + checkFree_loop slots slot n i) = Some true).
Proof.
  revert i. induction n as [|n IH]; intros i Hle; simpl.
  - split; [lia|]. split; [|lia]. intros j Hj. lia.
  - destruct (lookup_nat_lt slots (slot + i)) as [b Hb]; [lia|]. rewrite Hb. simpl. destruct b.
    + split; [lia|]. split; [|by rewrite Hb]. intros j Hj. lia.
    + destruct (IH (S i)) as (H1 & H2 & H3); [lia|]. split; [lia|]. split; [|intros; apply H3; lia].
      intros j Hj. destruct (decide (j = slot + i)) as [->|]; [done|]. apply H2. lia.
Qed.

Lemma checkFree_spec pool slot len :
  pool_ok pool ->
  checkFree pool slot len <= len /\
  (checkFree pool slot len = len -> 0 < len ->
     slot + len < MAX_SLOTS /\ all_slots false (d_slots pool) slot len) /\
  (slot + len < MAX_SLOTS -> checkFree pool slot len < len ->
     d_slots pool !! (slot + checkFree pool slot len) = Some true).
Proof.
  intros [Hs _ _]. unfold checkFree. destruct (Nat.leb_spec MAX_SLOTS (slot + len)).
  - split; [lia|]. split; lia.
  - destruct (checkFree_loop_spec (d_slots pool) slot len 0) as (H1 & H2 & H3); [lia|].
    rewrite Nat.add_0_r, Nat.sub_0_r in *. split; [lia|]. split; [|intros; apply H3; lia].
    intros E _. rewrite E in H2. done.
Qed.

Lemma highestUsed_spec slots n :
  n <= length slots ->
  (-1 <= highestUsed_loop slots n < Z.of_nat n)%Z /\
  forall i, i < n -> slots !! i = Some true -> (Z.of_nat i <= highestUsed_loop slots n)%Z.
Proof.
  induction n as [|n IH]; intros Hn; simpl; [split; [lia|intros; lia]|].
  destruct IH as [H1 H2]; [lia|]. destruct (lookup_nat_lt slots n) as [b Hb]; [lia|].
  rewrite Hb. simpl. destruct b.
  - split; [lia|]. intros; lia.
  - split; [lia|]. intros i Hi Hu. destruct (decide (i = n)) as [->|]; [congruence|].
    apply H2; [lia|done].
Qed.

Lemma highestUsed_used slots n i :
  highestUsed_loop slots n = Z.of_nat i -> slots !! i = Some true.
Proof.
  induction n as [|n IH]; simpl; [lia|]. destruct (slots !! n) as [[|]|] eqn:Hn; simpl; [|done..].
  intros H. by replace i with n by lia.
Qed.

Lemma lowestUnused_spec slots start :
  let s := lowestUnused_loop (drop start slots) start in
  start <= s /\ all_slots true slots start (s - start) /\
  (s < length slots -> slots !! s = Some false).
Proof.
  assert (forall l k, (forall i, l !! i = slots !! (k + i)) ->
    let s := lowestUnused_loop l k in
    k <= s /\ all_slots true slots k (s - k) /\ (s < length slots -> slots !! s = Some false)) as H.
  { induction l as [|b l IH]; intros k Hl; cbv zeta; simpl.
    - split; [lia|]. split; [intros i Hi; lia|]. intros Hlt.
      specialize (Hl 0). rewrite Nat.add_0_r in Hl. simpl in Hl.
      destruct (lookup_nat_lt _ _ Hlt). congruence.
    - assert (slots !! k = Some b) as Hb by (specialize (Hl 0); by rewrite Nat.add_0_r in Hl).
      destruct b; [|split; [lia|]; split; [intros i Hi; lia|done]].
      destruct (IH (S k)) as (H1 & H2 & H3).
      { intros i. specialize (Hl (S i)). by rewrite Nat.add_succ_r in Hl. }
      split; [lia|]. split; [|done]. intros i Hi.
      destruct (decide (i = k)) as [->|]; [done|]. apply H2. lia. }
  apply H. intros i. by rewrite lookup_drop.
Qed.

(** ** Allocation of a block *)

(** What a successful search gives: [len] slots from [slot] on that were free. *)
Record allocated (pool : SlotPool) (len : nat) (callArgs : bool) (slot : nat) (pool' : SlotPool)
    : Prop := {
  al_fits : slot + len <= MAX_SLOTS;
  al_free : all_slots false (d_slots pool) slot len;
  al_set : block_set (d_slots pool) (d_slots pool') slot len true;
  al_start : callArgs = false -> search_start pool <= slot;
  al_above : callArgs = true -> forall i, d_slots pool !! i = Some true -> i < slot;
  al_calls : d_callArgs pool' = d_callArgs pool ++ (if callArgs then [slot] else []);
  al_frame : d_frameSize pool' = Z.max (d_frameSize pool) (Z.of_nat (slot + len))
}.

Lemma take_block_spec pool slot len callArgs :
  pool_ok pool -> slot + len <= MAX_SLOTS ->
  exists pool', take_block pool slot len callArgs = Some (Z.of_nat slot, pool') /\
    length (d_slots pool') = MAX_SLOTS /\
    block_set (d_slots pool) (d_slots pool') slot len true /\
    d_callArgs pool' = d_callArgs pool ++ (if callArgs then [slot] else []) /\
    d_frameSize pool' = Z.max (d_frameSize pool) (Z.of_nat (slot + len)).
Proof.
  intros [Hs _ Hf] Hle. destruct (fill_spec (d_slots pool) true slot len) as (s & E & Hl & Hb); [lia|].
  unfold take_block. rewrite E. simpl. eexists. split; [reflexivity|].
  unfold setCallArgs, setFrameSize, with_slots. simpl.
  destruct (Z.ltb_spec (d_frameSize pool) (Z.of_nat (slot + len)));
    destruct callArgs; simpl; rewrite ?app_nil_r; repeat split; try done; try congruence; try lia;
    rewrite u8_small; lia || (unfold MAX_SLOTS in *; lia).
Qed.

Lemma all_slots_sub val slots slot len slot' len' :
  slot <= slot' -> slot' + len' <= slot + len -> all_slots val slots slot len ->
  all_slots val slots slot' len'.
Proof. intros ?? H i Hi. apply H. lia. Qed.

(** The slot looked at in a round, from the position the search is at. *)
Definition round_slot (pool : SlotPool) (callArgs : bool) (slot : nat) : nat :=
  if callArgs then Z.to_nat (highestUsedSlot pool + 1) else lowestUnusedSlot pool slot.

Lemma round_slot_spec pool callArgs slot :
  pool_ok pool ->
  let s := round_slot pool callArgs slot in
  (s < MAX_SLOTS -> d_slots pool !! s = Some false) /\
  (callArgs = false -> slot <= s /\ all_slots true (d_slots pool) slot (s - slot)) /\
  (callArgs = true -> forall i, d_slots pool !! i = Some true -> i < s).
Proof.
  intros [Hs _ _] s. subst s. unfold round_slot. destruct callArgs.
  - destruct (highestUsed_spec (d_slots pool) MAX_SLOTS) as [H1 H2]; [lia|].
    unfold highestUsedSlot.
    assert (forall i, d_slots pool !! i = Some true ->
      i < Z.to_nat (highestUsed_loop (d_slots pool) MAX_SLOTS + 1)) as Ha.
    { intros i Hi. pose proof (lookup_lt_Some _ _ _ Hi). specialize (H2 i ltac:(lia) Hi). lia. }
    split; [|split; [done|done]]. intros Hlt.
    destruct (lookup_nat_lt (d_slots pool) _ ltac:(rewrite Hs; exact Hlt)) as [[|] Hb]; [|done].
    specialize (Ha _ Hb). lia.
  - destruct (lowestUnused_spec (d_slots pool) slot) as (H1 & H2 & H3).
    unfold lowestUnusedSlot. rewrite Hs in H3. done.
Qed.

(** The three results of a round: a block, no slot left, or a search that goes on
    after a used slot, or at the same place for good. *)
Lemma round_cases pool len callArgs slot :
  pool_ok pool -> 0 < len -> (callArgs = false -> search_start pool <= slot) ->
  let s := round_slot pool callArgs slot in
  (MAX_SLOTS <= s /\ nextFree_round pool len callArgs slot = Some (inl ((-1)%Z, pool))) \/
  (exists pool', allocated pool len callArgs s pool' /\ length (d_slots pool') = MAX_SLOTS /\
     nextFree_round pool len callArgs slot = Some (inl (Z.of_nat s, pool'))) \/
  (1 < len /\ s + len < MAX_SLOTS /\ callArgs = false /\
     exists k, 0 < k < len /\ d_slots pool !! (s + k) = Some true /\
     nextFree_round pool len callArgs slot = Some (inr (s + k))) \/
  (1 < len /\ s < MAX_SLOTS <= s + len /\ nextFree_round pool len callArgs slot = Some (inr s)).
Proof.
  intros Hok Hlen Hstart s. destruct (round_slot_spec pool callArgs slot Hok) as (H1 & H2 & H3).
  fold s in H1, H2, H3. unfold nextFree_round. fold (round_slot pool callArgs slot). fold s. cbv zeta.
  destruct (Nat.ltb_spec s MAX_SLOTS) as [Hlt|Hge]; [|by left]. rewrite (H1 Hlt). right.
  assert (Hal : forall n, n = len -> s + n <= MAX_SLOTS -> all_slots false (d_slots pool) s n ->
    exists pool', allocated pool len callArgs s pool' /\ length (d_slots pool') = MAX_SLOTS /\
      take_block pool s n callArgs = Some (Z.of_nat s, pool')).
  { intros n -> Hfit Hfree.
    destruct (take_block_spec pool s len callArgs Hok Hfit) as (p' & E & Hl & Hb & Hc & Hf).
    exists p'. split; [|done]. split; try done. intros Hca. specialize (Hstart Hca).
    destruct (H2 Hca). lia. }
  destruct (Nat.eqb_spec len 1) as [->|Hne].
  - left. destruct (Hal 1) as (p' & Ha & Hl & E); [done|lia| |].
    { intros i Hi. replace i with s by lia. by apply H1. }
    exists p'. rewrite E. done.
  - destruct (checkFree_spec pool s len Hok) as (C1 & C2 & C3).
    destruct (Nat.eqb_spec (checkFree pool s len) len) as [E|E].
    { left. destruct (C2 E) as [Hfit Hfree]; [lia|].
      destruct (Hal len) as (p' & Ha & Hl & Et); [done|lia|done|]. exists p'. by rewrite Et. }
    right. destruct (decide (s + len < MAX_SLOTS)) as [Hfit|Hfit].
    + left. assert (checkFree pool s len < len) as Hc by lia. specialize (C3 Hfit Hc).
      assert (checkFree pool s len <> 0) as Hz.
      { intros Hz. rewrite Hz, Nat.add_0_r in C3. specialize (H1 Hlt). congruence. }
      split; [lia|]. split; [done|]. split.
      * destruct callArgs; [|done]. specialize (H3 eq_refl _ C3). lia.
      * exists (checkFree pool s len). split; [lia|]. done.
    + right. split; [lia|]. split; [lia|]. unfold checkFree.
      rewrite (proj2 (Nat.leb_le _ _)) by lia. by rewrite Nat.add_0_r.
Qed.

(** A search that comes back to the same position never ends. *)
Definition stuck (pool : SlotPool) (len : nat) (callArgs : bool) (slot : nat) : Prop :=
  forall fuel, nextFree_loop fuel pool len callArgs slot = None.

Lemma round_slot_idem pool callArgs slot :
  pool_ok pool -> let s := round_slot pool callArgs slot in
  s < MAX_SLOTS -> round_slot pool callArgs s = s.
Proof.
  intros Hok s Hs. destruct callArgs; [done|].
  destruct (round_slot_spec pool false slot Hok) as (H1 & _ & _). specialize (H1 Hs).
  destruct (round_slot_spec pool false s Hok) as (_ & H2 & _). destruct (H2 eq_refl) as [Hge Ha].
  destruct (decide (round_slot pool false s = s)) as [|Hne]; [done|].
  specialize (Ha s). fold s in H1. unfold all_slots in Ha. rewrite Ha in H1 by lia. done.
Qed.

Lemma stuck_at_end pool len callArgs slot :
  pool_ok pool -> 1 < len -> (callArgs = false -> search_start pool <= slot) ->
  let s := round_slot pool callArgs slot in s < MAX_SLOTS <= s + len ->
  stuck pool len callArgs slot.
Proof.
  intros Hok Hlen Hst s Hs.
  assert (forall slot', round_slot pool callArgs slot' = s ->
    (callArgs = false -> search_start pool <= slot') -> stuck pool len callArgs slot') as H.
  { intros slot' Hr Hst' fuel. revert slot' Hr Hst'.
    induction fuel as [|fuel IH]; intros slot' Hr Hst'; [done|]. simpl.
    destruct (round_cases pool len callArgs slot' Hok) as [[H _]|[(p' & [Hf _ _ _ _ _ _] & _ & E)|
      [(_ & H & _)|(_ & _ & E)]]]; try done; try lia; try (rewrite Hr in *; lia).
    - unfold nextFree_round in E. fold (round_slot pool callArgs slot') in E. rewrite Hr in *.
      cbv zeta in E. destruct (Nat.ltb_spec s MAX_SLOTS); [|lia].
      destruct (d_slots pool !! s) as [[|]|]; [done| |done].
      destruct (Nat.eqb_spec len 1); [lia|]. unfold checkFree in E.
      rewrite (proj2 (Nat.leb_le MAX_SLOTS (s + len))) in E by lia.
      destruct (Nat.eqb_spec 0 len); [lia|done].
    - rewrite E, Hr. simpl. apply IH.
      + apply (round_slot_idem pool callArgs slot Hok). subst s. lia.
      + intros Hc. destruct (round_slot_spec pool callArgs slot Hok) as (_ & H2 & _).
        destruct (H2 Hc). specialize (Hst Hc). lia. }
  by apply H.
Qed.

Lemma loop_result fuel pool len callArgs slot :
  pool_ok pool -> 0 < len -> (callArgs = false -> search_start pool <= slot) ->
  MAX_SLOTS < fuel + slot ->
  (exists r, nextFree_loop (S fuel) pool len callArgs slot = Some r) \/
  stuck pool len callArgs slot.
Proof.
  intros Hok Hlen. revert slot. induction fuel as [|fuel IH]; intros slot Hst Hf.
  - destruct (round_cases pool len callArgs slot Hok Hlen Hst)
      as [[_ E]|[(p' & _ & _ & E)|[(_ & H & Hc & _)|(H1 & H2 & _)]]].
    + left. simpl. rewrite E. by eexists.
    + left. simpl. rewrite E. by eexists.
    + destruct (round_slot_spec pool callArgs slot Hok) as (_ & H2 & _). destruct (H2 Hc). lia.
    + right. by apply stuck_at_end.
  - destruct (round_cases pool len callArgs slot Hok Hlen Hst)
      as [[_ E]|[(p' & _ & _ & E)|[(_ & H & Hc & k & Hk & _ & E)|(H1 & H2 & _)]]].
    + left. simpl. rewrite E. by eexists.
    + left. simpl. rewrite E. by eexists.
    + destruct (round_slot_spec pool callArgs slot Hok) as (_ & H2 & _).
      destruct (H2 Hc) as [Hle _]. specialize (Hst Hc).
      destruct (IH (round_slot pool callArgs slot + k)) as [[r Er]|Hstuck].
      * intros _. lia.
      * lia.
      * left. exists r. change (nextFree_loop (S (S fuel)) pool len callArgs slot) with
          (r ← nextFree_round pool len callArgs slot;
           match r with inl r => Some r | inr slot => nextFree_loop (S fuel) pool len callArgs slot end).
        rewrite E. exact Er.
      * right. intros [|n]; [done|]. simpl. rewrite E. simpl. apply Hstuck.
    + right. by apply stuck_at_end.
Qed.

(** The search of [nextFreeSlot] has ended after at most 252 rounds or never
    ends; for a single slot it always ends, in the first round. *)
Theorem nextFreeSlot_ends_or_never pool len callArgs :
  pool_ok pool -> 0 < len ->
  ((exists r, nextFreeSlot pool len callArgs = Some r) \/
   stuck pool len callArgs (search_start pool)) /\
  (len = 1 -> exists r, nextFree_loop 1 pool len callArgs (search_start pool) = Some r /\
                        nextFreeSlot pool len callArgs = Some r).
Proof.
  intros Hok Hlen. split.
  - apply loop_result; [done|done|done|lia].
  - intros ->. destruct (round_cases pool 1 callArgs (search_start pool) Hok Hlen (fun _ => le_n _))
      as [[_ E]|[(p' & _ & _ & E)|[(H & _)|(H & _)]]]; try lia;
      eexists; unfold nextFreeSlot; simpl; rewrite E; done.
Qed.

Definition empty_pool : SlotPool := mkSlotPool (replicate MAX_SLOTS false) [] 0.
Lemma empty_pool_ok : pool_ok empty_pool.
Proof. split; [done|constructor|done]. Qed.

(** A pool in which only the last two slots are free, by a waiting call. *)
Definition tight_pool : SlotPool :=
  mkSlotPool (replicate 248 true ++ [false; false]) [247] 248.
Lemma tight_pool_ok : pool_ok tight_pool.
Proof. split; [done|by repeat constructor|done]. Qed.

Lemma nextFreeSlot_ends_or_never_witness :
  ((exists r, nextFreeSlot empty_pool 3 true = Some r) \/
   stuck empty_pool 3 true (search_start empty_pool)) /\
  (3 = 1 -> exists r, nextFree_loop 1 empty_pool 3 true (search_start empty_pool) = Some r /\
                      nextFreeSlot empty_pool 3 true = Some r).
Proof. apply (nextFreeSlot_ends_or_never empty_pool 3 true empty_pool_ok). lia. Defined.

(** Two free slots at the end of the pool are not found: the search for a
    block of two never ends. *)
Theorem nextFreeSlot_diverges : stuck tight_pool 2 false (search_start tight_pool).
Proof.
  apply stuck_at_end; [apply tight_pool_ok|lia|done|]. vm_compute. lia.
Qed.

(** ** The block that is found *)

(** No block of [len] free slots starts between two positions. *)
Definition no_block (pool : SlotPool) (len a b : nat) : Prop :=
  forall t, a <= t < b -> ~ all_slots false (d_slots pool) t len.

Lemma used_no_block pool len t :
  0 < len -> d_slots pool !! t = Some true -> ~ all_slots false (d_slots pool) t len.
Proof. intros Hl Ht H. specialize (H t ltac:(lia)). congruence. Qed.

Lemma no_block_round pool len slot :
  pool_ok pool -> 0 < len -> no_block pool len (search_start pool) slot ->
  no_block pool len (search_start pool) (round_slot pool false slot).
Proof.
  intros Hok Hl Hn t Ht. destruct (round_slot_spec pool false slot Hok) as (_ & H2 & _).
  destruct (H2 eq_refl) as [Hge Ha]. destruct (decide (t < slot)); [apply Hn; lia|].
  apply used_no_block; [done|]. apply Ha. lia.
Qed.

Lemma allocated_ok pool len callArgs slot pool' :
  pool_ok pool -> 0 < len -> allocated pool len callArgs slot pool' ->
  length (d_slots pool') = MAX_SLOTS -> pool_ok pool'.
Proof.
  intros [H1 H2 H3] Hl [Hfit Hfree Hset _ _ Hc Hf] Hlen.
  assert (forall c, d_slots pool !! c = Some true -> d_slots pool' !! c = Some true) as Hk.
  { intros c Hu. rewrite Hset. by case_decide. }
  split; [done| |].
  - rewrite Hc. apply Forall_app. split; [by eapply Forall_impl|].
    destruct callArgs; [|done]. constructor; [|done]. rewrite Hset. rewrite decide_True by lia. done.
  - unfold MAX_SLOTS in *. lia.
Qed.

Lemma loop_sound fuel pool len callArgs slot z pool' :
  pool_ok pool -> 0 < len -> (callArgs = false -> search_start pool <= slot) ->
  (callArgs = false -> no_block pool len (search_start pool) slot) ->
  nextFree_loop fuel pool len callArgs slot = Some (z, pool') ->
  (z = (-1)%Z /\ pool' = pool /\
   (callArgs = false -> no_block pool len (search_start pool) MAX_SLOTS) /\
   (callArgs = true -> d_slots pool !! (MAX_SLOTS - 1) = Some true)) \/
  (exists s, z = Z.of_nat s /\ allocated pool len callArgs s pool' /\ pool_ok pool' /\
   (callArgs = false -> no_block pool len (search_start pool) s)).
Proof.
  intros Hok Hlen. revert slot. induction fuel as [|fuel IH]; intros slot Hst Hnb H; [done|].
  simpl in H.
  destruct (round_cases pool len callArgs slot Hok Hlen Hst)
    as [[Hge E]|[(p' & Ha & Hl & E)|[(H1 & Hfit & -> & k & Hk & Hu & E)|(H1 & H2 & E)]]];
    rewrite E in H; simpl in H.
  - left. injection H as <- <-. split; [done|]. split; [done|]. split.
    + intros ->. intros t Ht. eapply no_block_round; [done|done|by apply Hnb|].
      split; [apply Ht|]. lia.
    + intros ->. unfold round_slot in Hge.
      destruct (highestUsed_spec (d_slots pool) MAX_SLOTS) as [Hr _];
        [by rewrite (po_size pool Hok)|].
      assert (0 < MAX_SLOTS) by (unfold MAX_SLOTS; lia).
      apply (highestUsed_used (d_slots pool) MAX_SLOTS). unfold highestUsedSlot in *. lia.
  - right. injection H as <- <-. eexists. split; [done|]. split; [done|]. split.
    + by eapply allocated_ok.
    + intros ->. apply no_block_round; [done|done|by apply Hnb].
  - specialize (Hst eq_refl). specialize (Hnb eq_refl).
    destruct (round_slot_spec pool false slot Hok) as (_ & H2 & _). destruct (H2 eq_refl) as [Hge _].
    apply (IH (round_slot pool false slot + k)); [lia| |done].
    intros _ t Ht. destruct (decide (t < round_slot pool false slot)).
    + eapply no_block_round; [done|done|done|]. lia.
    + intros Hf. specialize (Hf (round_slot pool false slot + k)). rewrite Hf in Hu by lia. done.
  - apply (IH _) in H; [done| |].
    + intros ->. specialize (Hst eq_refl). specialize (Hnb eq_refl).
      destruct (round_slot_spec pool false slot Hok) as (_ & H3 & _). destruct (H3 eq_refl). lia.
    + intros ->. apply no_block_round; [done|done|by apply Hnb].
Qed.

Lemma nextFreeSlot_loop_sound pool len callArgs z pool' :
  pool_ok pool -> 0 < len -> nextFreeSlot pool len callArgs = Some (z, pool') ->
  (z = (-1)%Z /\ pool' = pool /\
   (callArgs = false -> no_block pool len (search_start pool) MAX_SLOTS) /\
   (callArgs = true -> d_slots pool !! (MAX_SLOTS - 1) = Some true)) \/
  (exists s, z = Z.of_nat s /\ allocated pool len callArgs s pool' /\ pool_ok pool' /\
   (callArgs = false -> no_block pool len (search_start pool) s)).
Proof.
  intros Hok Hlen H. eapply loop_sound; [done|done| | |exact H]; [done|].
  intros _ t Ht. lia.
Qed.

(** A slot [nextFreeSlot] returns starts a block of [len] slots that were
    free, which are now taken and nothing else changed; it is the lowest such
    block above the innermost waiting call, and above every used slot for a call.
    Without a result there is no such block. *)
Theorem nextFreeSlot_sound pool len callArgs z pool' :
  pool_ok pool -> 0 < len -> nextFreeSlot pool len callArgs = Some (z, pool') ->
  (z = (-1)%Z /\ pool' = pool /\
   (callArgs = false -> no_block pool len (search_start pool) MAX_SLOTS) /\
   (callArgs = true -> d_slots pool !! (MAX_SLOTS - 1) = Some true)) \/
  (exists s, z = Z.of_nat s /\ allocated pool len callArgs s pool' /\ pool_ok pool' /\
   (callArgs = false -> no_block pool len (search_start pool) s)).
Proof. apply nextFreeSlot_loop_sound. Qed.

Lemma nextFreeSlot_sound_witness :
  exists pool', nextFreeSlot empty_pool 3 true = Some (0%Z, pool') /\
  ((0%Z = (-1)%Z /\ pool' = empty_pool /\
    (true = false -> no_block empty_pool 3 (search_start empty_pool) MAX_SLOTS) /\
    (true = true -> d_slots empty_pool !! (MAX_SLOTS - 1) = Some true)) \/
   (exists s, 0%Z = Z.of_nat s /\ allocated empty_pool 3 true s pool' /\ pool_ok pool' /\
    (true = false -> no_block empty_pool 3 (search_start empty_pool) s))).
Proof.
  eexists. split; [vm_compute; reflexivity|].
  apply (nextFreeSlot_sound empty_pool 3 true 0%Z); [apply empty_pool_ok|lia|vm_compute; reflexivity].
Defined.

(** ** Release *)
Lemma release_spec slots slot n :
  all_slots true slots slot n ->
  exists slots', release_loop slots slot n = Some (true, slots') /\ length slots' = length slots /\
                 block_set slots slots' slot n false.
Proof.
  revert slots slot. induction n as [|n IH]; intros slots slot Ha; simpl.
  - exists slots. split; [done|]. split; [done|]. intros i. case_decide; [lia|done].
  - pose proof (Ha slot ltac:(lia)) as Hs. rewrite Hs. simpl. unfold set_bit.
    pose proof (lookup_lt_Some _ _ _ Hs). rewrite decide_True by done. simpl.
    destruct (IH (<[slot:=false]> slots) (S slot)) as (s' & E & Hl & Hb).
    { intros i Hi. rewrite list_lookup_insert_ne by lia. apply Ha. lia. }
    exists s'. split; [done|]. rewrite length_insert in Hl. split; [done|].
    intros i. rewrite Hb. destruct (decide (i = slot)) as [->|Hne].
    + rewrite list_lookup_insert_eq by done. do 2 case_decide; try lia; done.
    + rewrite list_lookup_insert_ne by done. do 2 case_decide; try lia; done.
Qed.

Lemma removeOne_app x l k : x ∉ l -> removeOne x (l ++ k) = l ++ removeOne x k.
Proof.
  intros Hx. induction l as [|y l IH]; simpl; [done|].
  apply not_elem_of_cons in Hx as [Hne Hx]. rewrite decide_False by done. f_equal. by apply IH.
Qed.

Lemma removeOne_none x l : x ∉ l -> removeOne x l = l.
Proof. intros. rewrite <- (app_nil_r l) at 1. rewrite removeOne_app by done. apply app_nil_r. Qed.

(** [releaseSlot] gives back what [nextFreeSlot] took: the slots and the
    waiting calls are as before. *)
Theorem release_inverse pool len callArgs s pool' :
  pool_ok pool -> 0 < len -> nextFreeSlot pool len callArgs = Some (Z.of_nat s, pool') ->
  exists pool2, releaseSlot pool' s len = Some (true, pool2) /\
    d_slots pool2 = d_slots pool /\ d_callArgs pool2 = d_callArgs pool /\
    d_frameSize pool2 = d_frameSize pool'.
Proof.
  intros Hok Hlen H.
  destruct (nextFreeSlot_loop_sound pool len callArgs _ _ Hok Hlen H)
    as [[Hz _]|(s' & Hs & [Hfit Hfree Hset _ _ Hc _] & Hok' & _)]; [lia|].
  assert (s' = s) as -> by lia.
  destruct (release_spec (d_slots pool') s len) as (slots & E & Hl & Hb).
  { intros i Hi. rewrite Hset. by rewrite decide_True. }
  unfold releaseSlot. rewrite E. simpl. eexists. split; [reflexivity|]. simpl. split; [|split; [|done]].
  - apply list_eq. intros i. rewrite Hb, Hset. case_decide; [|done]. symmetry. by apply Hfree.
  - assert (s ∉ d_callArgs pool) as Hnin.
    { intros Hin. pose proof (po_calls pool Hok) as Hu. rewrite Forall_forall in Hu.
      specialize (Hu _ Hin). rewrite (Hfree s) in Hu by lia. done. }
    rewrite Hc, removeOne_app by done. destruct callArgs; simpl; [|by rewrite app_nil_r].
    rewrite decide_True by done. apply app_nil_r.
Qed.

Lemma release_inverse_witness :
  exists pool' pool2, nextFreeSlot empty_pool 3 true = Some (Z.of_nat 0, pool') /\
    releaseSlot pool' 0 3 = Some (true, pool2) /\
    d_slots pool2 = d_slots empty_pool /\ d_callArgs pool2 = d_callArgs empty_pool /\
    d_frameSize pool2 = d_frameSize pool'.
Proof.
  eexists. match goal with |- exists p2, ?a = Some (_, ?p') /\ _ =>
    assert (a = Some (Z.of_nat 0, mkSlotPool (replicate 3 true ++ replicate 247 false) [0] 3)) as E
      by (vm_compute; reflexivity) end.
  destruct (release_inverse empty_pool 3 true 0 _ empty_pool_ok ltac:(lia) E) as (p2 & H).
  exists p2. split; [exact E|exact H].
Defined.
