(* ===== verification/LinearScan.v ===== *)
(** * Linear scan register allocation

    [JitComposer::allocateWithLinearScan]: intervals are sorted by their start,
    each one gets the next free slot, and the slots of intervals that have ended
    are given back first.  [std::sort] leaves the order of equal elements open: it
    is the class [StdSort].  The map [active] is the list of its entries in the
    order a [QMultiMap] is iterated. *)

From S2P Require Import Prelude SlotPool.
Local Open Scope nat_scope.
#[local] Arguments Nat.leb : simpl never.

(** [src/LuaJitComposer.h:52-59] Interval *)
Record Interval := mkInterval {
  d_from : Z;
  d_to : Z;
  d_payload : Z;
  d_slot : nat
}.

(** [src/LuaJitComposer.cpp:689-692] sortIntervals *)
Definition sortIntervals (lhs rhs : Interval) : bool := (d_from lhs <? d_from rhs)%Z.

(** [std::sort] gives a permutation sorted by a strict weak order. *)
Class StdSort := std_sort : (Interval -> Interval -> bool) -> list Interval -> list Interval.
Class StdSortLaws (S : StdSort) : Prop := {
  std_sort_perm : forall lt l, std_sort lt l ≡ₚ l;
  std_sort_sorted : forall lt l,
    (forall x y, lt x y = true -> lt y x = false) ->
    (forall x y z, lt x y = false -> lt y z = false -> lt x z = false) ->
    StronglySorted (fun x y => lt y x = false) (std_sort lt l)
}.

(** [QMultiMap<quint32,quint32>]: ordered by the key, the last inserted first. *)
Abbreviation Active := (list (Z * nat)).
Fixpoint active_insert (k : Z) (i : nat) (l : Active) : Active :=
  match l with
  | [] => [(k, i)]
  | (k', i') :: l' => if (k' <? k)%Z then (k', i') :: active_insert k i l' else (k, i) :: l
  end.

(** [vars[i].d_slot = slot] *)
Definition with_slot (slot : nat) (v : Interval) : Interval :=
  mkInterval (d_from v) (d_to v) (d_payload v) slot.

(** The intervals that end before [from] give back their slots.
    [src/LuaJitComposer.cpp:826-836] allocateWithLinearScan *)
Fixpoint expire (vars : list Interval) (from : Z) (len : nat) (active : Active) (pool : SlotPool)
    : option (Active * SlotPool) :=
  match active with
  | [] => Some ([], pool)
  | (k, j) :: rest =>
      v ← vars !! j;
      if (from <=? d_to v)%Z then Some (active, pool)
      else
        slots ← set_bit (d_slots pool) (d_slot v) false;
        slots ← fill slots false (d_slot v) len;
        expire vars from len rest (with_slots pool slots)
  end.

(** The loop over the intervals; the outer [None] stands for a search for a slot
    that never ends.
    [src/LuaJitComposer.cpp:824-843] allocateWithLinearScan *)
Fixpoint scan (n i : nat) (vars : list Interval) (len : nat) (active : Active) (pool : SlotPool)
    : option (bool * list Interval * SlotPool) :=
  match n with
  | O => Some (true, vars, pool)
  | S n =>
      v ← vars !! i;
      '(active, pool) ← expire vars (d_from v) len active pool;
      '(slot, pool) ← nextFreeSlot pool len false;
      if (MAX_SLOTS <=? length active) || (slot <? 0)%Z then Some (false, vars, pool)
      else
        scan n (S i) (<[i := with_slot (Z.to_nat slot) v]> vars) len
          (active_insert (d_to v) i active) pool
  end.

Section LinearScan.
Context `{Srt : StdSort}.

(** [src/LuaJitComposer.cpp:815-845] allocateWithLinearScan *)
Definition allocateWithLinearScan (pool : SlotPool) (vars : list Interval) (len : nat)
    : option (bool * list Interval * SlotPool) :=
  let vars := std_sort sortIntervals vars in
  scan (length vars) 0 vars len [] pool.

(** ** Safety *)

Definition overlap (u v : Interval) : Prop := (d_from u <= d_to v /\ d_from v <= d_to u)%Z.
Definition disjoint_blocks (len s t : nat) : Prop := s + len <= t \/ t + len <= s.
Definition in_block (len s t : nat) : Prop := s <= t < s + len.

Lemma disjoint_in len s t : 
  0 < len -> (forall x, in_block len s x -> in_block len t x -> False) -> disjoint_blocks len s t.
Proof.
  intros Hl H. unfold disjoint_blocks, in_block in *.
  destruct (decide (s + len <= t)) as [|H1]; [by left|]. destruct (decide (t + len <= s)) as [|H2]; [by right|].
  destruct (decide (s <= t)); [destruct (H t); lia|destruct (H s); lia].
Qed.

(** The state before interval [i]: the used slots are those used at the start and
    those of the active intervals; an interval that is not active any more ends
    before every interval still to come starts. *)
Record scan_inv (slots0 : list bool) (start len : nat) (vars : list Interval) (i : nat)
    (active : Active) (pool : SlotPool) : Prop := {
  si_ok : pool_ok pool;
  si_start : search_start pool = start;
  si_calls : Forall (fun c => slots0 !! c = Some true) (d_callArgs pool);
  si_used : forall t, d_slots pool !! t = Some true <->
    slots0 !! t = Some true \/
    exists k j v, (k, j) ∈ active /\ vars !! j = Some v /\ in_block len (d_slot v) t;
  si_active : forall k j, (k, j) ∈ active -> j < i /\ exists v, vars !! j = Some v /\ d_to v = k;
  si_sorted : StronglySorted (fun a b => (fst a <= fst b)%Z) active;
  si_nodup : NoDup (map snd active);
  si_disj : forall j1 j2 u v, (exists k, (k, j1) ∈ active) -> (exists k, (k, j2) ∈ active) ->
    vars !! j1 = Some u -> vars !! j2 = Some v -> j1 <> j2 ->
    disjoint_blocks len (d_slot u) (d_slot v);
  si_done : forall j v, j < i -> vars !! j = Some v ->
    (exists k, (k, j) ∈ active) \/
    forall m w, i <= m -> vars !! m = Some w -> (d_to v < d_from w)%Z;
  si_free : forall j v, j < i -> vars !! j = Some v ->
    all_slots false slots0 (d_slot v) len /\ d_slot v + len <= MAX_SLOTS /\ start <= d_slot v;
  si_safe : forall j1 j2 u v, j1 < i -> j2 < i -> j1 <> j2 ->
    vars !! j1 = Some u -> vars !! j2 = Some v -> overlap u v ->
    disjoint_blocks len (d_slot u) (d_slot v)
}.

Definition from_sorted (vars : list Interval) : Prop :=
  forall i j u v, i <= j -> vars !! i = Some u -> vars !! j = Some v -> (d_from u <= d_from v)%Z.

Lemma sorted_list vars : StdSortLaws Srt -> from_sorted (std_sort sortIntervals vars).
Proof.
  intros L.
  assert (Hs : StronglySorted (fun x y => sortIntervals y x = false) (std_sort sortIntervals vars)).
  { apply std_sort_sorted; unfold sortIntervals; [intros x y|intros x y z];
      rewrite ?Z.ltb_lt, ?Z.ltb_ge; lia. }
  induction Hs as [|x l Hs IH Hx]; intros i j u v Hij Hu Hv; [done|].
  destruct j as [|j].
  - assert (i = 0) as -> by lia. simpl in *. assert (u = v) by congruence. subst. lia.
  - simpl in Hv. destruct i as [|i]; simpl in Hu.
    + injection Hu as <-. rewrite Forall_forall in Hx. apply Z.ltb_ge, Hx.
      by eapply list_elem_of_lookup_2.
    + by apply (IH i j); [lia|..].
Qed.

Lemma active_insert_elem k i l e : e ∈ active_insert k i l <-> e = (k, i) \/ e ∈ l.
Proof.
  induction l as [|[k' i'] l IH]; simpl; [by rewrite list_elem_of_singleton, elem_of_nil; tauto|].
  destruct (k' <? k)%Z; rewrite !elem_of_cons, ?IH; tauto.
Qed.

Lemma active_insert_sorted k i l :
  StronglySorted (fun a b => (fst a <= fst b)%Z) l ->
  StronglySorted (fun a b => (fst a <= fst b)%Z) (active_insert k i l).
Proof.
  induction 1 as [|[k' i'] l Hs IH Hx]; simpl; [by repeat constructor|].
  destruct (Z.ltb_spec k' k).
  - constructor; [done|]. rewrite Forall_forall in Hx |- *. intros e He.
    apply active_insert_elem in He as [->|He]; simpl; [lia|by apply Hx].
  - constructor; [by constructor|]. constructor; [simpl; lia|].
    eapply Forall_impl; [exact Hx|]. simpl. lia.
Qed.

Lemma active_insert_perm k i l : map snd (active_insert k i l) ≡ₚ i :: map snd l.
Proof.
  induction l as [|[k' i'] l IH]; simpl; [done|].
  destruct (k' <? k)%Z; simpl; [|done]. rewrite IH. constructor.
Qed.

Lemma nodup_key (active : Active) k k' j :
  NoDup (map snd active) -> (k, j) ∈ active -> (k', j) ∈ active -> k = k'.
Proof.
  induction active as [|[a b] l IH]; simpl; intros Hn H1 H2; [by apply elem_of_nil in H1|].
  apply NoDup_cons in Hn as [Hnin Hn].
  assert (forall c, (c, b) ∈ l -> False) as Hb.
  { intros c Hc. apply Hnin. by apply (list_elem_of_fmap_2 snd _ (c, b)). }
  apply elem_of_cons in H1 as [H1|H1], H2 as [H2|H2]; simplify_eq; try done; try (by exfalso; eauto).
  by apply IH.
Qed.

(** Giving back the slots of an interval that has ended. *)
Lemma expire_one slots0 start len vars i k j v rest pool :
  0 < len -> scan_inv slots0 start len vars i ((k, j) :: rest) pool -> vars !! j = Some v ->
  (forall m w, i <= m -> vars !! m = Some w -> (d_to v < d_from w)%Z) ->
  exists s1 s2, set_bit (d_slots pool) (d_slot v) false = Some s1 /\
    fill s1 false (d_slot v) len = Some s2 /\
    scan_inv slots0 start len vars i rest (with_slots pool s2).
Proof.
  intros Hl [Hok Hst Hc0 Hu Ha Hso Hn Hdj Hd Hf Hs] Hv Hend.
  destruct (Ha k j) as (Hj & _); [constructor|]. destruct (Hf j v Hj Hv) as (Hfree & Hfit & Hge).
  pose proof (po_size pool Hok) as Hsz.
  exists (<[d_slot v := false]> (d_slots pool)).
  destruct (fill_spec (<[d_slot v := false]> (d_slots pool)) false (d_slot v) len)
    as (s2 & E & Hlen & Hset); [rewrite length_insert; lia|].
  exists s2. unfold set_bit. rewrite decide_True by lia. split; [done|]. split; [done|].
  assert (Hs2 : block_set (d_slots pool) s2 (d_slot v) len false).
  { intros t. rewrite Hset. case_decide; [done|]. apply list_lookup_insert_ne. lia. }
  apply NoDup_cons in Hn as [Hnin Hn].
  assert (Hin : forall k', (k', j) ∈ rest -> False).
  { intros k' Hk. apply Hnin. by apply (list_elem_of_fmap_2 snd _ (k', j)). }
  assert (Hout : forall t, slots0 !! t = Some true -> ~ in_block len (d_slot v) t).
  { intros t Ht Hb. rewrite (Hfree t Hb) in Ht. done. }
  split; simpl; try assumption.
  - destruct Hok as [_ Hcalls Hframe]. split; simpl; [| |done].
    + rewrite Hlen, length_insert. done.
    + rewrite Forall_forall in Hc0, Hcalls |- *. intros c Hc. rewrite Hs2. rewrite decide_False.
      * by apply Hcalls.
      * by apply Hout, Hc0.
  - intros t. rewrite Hs2. case_decide as Ht.
    + split; [done|]. intros [H|(k' & j' & v' & Hk' & Hv' & Hb)].
      * by destruct (Hout t H).
      * assert (j' <> j) as Hne by (intros ->; by eapply Hin).
        destruct (Hdj j' j v' v) as [Hd'|Hd']; try done; unfold in_block in *; try lia;
          eexists; [by apply elem_of_cons; right|constructor].
    + rewrite Hu. split; (intros [H|(k' & j' & v' & Hk' & Hv' & Hb)]; [by left|]).
      * apply elem_of_cons in Hk' as [Hk'|Hk']; [|right; by eauto 8].
        injection Hk' as -> ->. assert (v' = v) as -> by congruence. done.
      * right. exists k', j', v'. split; [by apply elem_of_cons; right|done].
  - intros k' j' H. apply Ha. by apply elem_of_cons; right.
  - by inversion Hso.
  - intros j1 j2 u w [k1 H1] [k2 H2]. apply Hdj; eexists; apply elem_of_cons; right; eauto.
  - intros j' w Hj' Hw. destruct (Hd j' w Hj' Hw) as [[k' Hk']|H]; [|by right].
    apply elem_of_cons in Hk' as [Hk'|Hk']; [|left; by eauto].
    injection Hk' as -> ->. right. assert (w = v) as -> by congruence. done.
Qed.

Lemma expire_spec slots0 start len vars i v active pool :
  0 < len -> from_sorted vars -> vars !! i = Some v ->
  scan_inv slots0 start len vars i active pool ->
  exists active' pool', expire vars (d_from v) len active pool = Some (active', pool') /\
    scan_inv slots0 start len vars i active' pool'.
Proof.
  intros Hl Hsort Hi. revert pool. induction active as [|[k j] rest IH]; intros pool Hinv; simpl.
  - by exists [], pool.
  - destruct (si_active _ _ _ _ _ _ _ Hinv k j) as (Hj & w & Hw & Hk); [constructor|].
    rewrite Hw. simpl. destruct (Z.leb_spec (d_from v) (d_to w)).
    + by do 2 eexists.
    + destruct (expire_one slots0 start len vars i k j w rest pool Hl Hinv Hw)
        as (s1 & s2 & -> & E & Hinv').
      { intros m x Hm Hx. specialize (Hsort i m v x Hm Hi Hx). lia. }
      simpl. rewrite E. simpl. by apply IH.
Qed.

(** ** The loop *)
Lemma update_other {A} (l : list A) i x j y :
  <[i := x]> l !! j = Some y -> j <> i -> l !! j = Some y.
Proof. intros H Hne. by rewrite list_lookup_insert_ne in H. Qed.

Lemma sorted_update vars i v slot :
  from_sorted vars -> vars !! i = Some v -> from_sorted (<[i := with_slot slot v]> vars).
Proof.
  intros Hs Hi.
  assert (H : forall j x, <[i := with_slot slot v]> vars !! j = Some x ->
    exists y, vars !! j = Some y /\ d_from y = d_from x).
  { intros j x Hx. destruct (decide (j = i)) as [->|Hne].
    - rewrite list_lookup_insert_eq in Hx by (by eapply lookup_lt_Some). injection Hx as <-. by exists v.
    - exists x. split; [by eapply update_other|done]. }
  intros a b x y Hab Hx Hy. destruct (H _ _ Hx) as (x' & Hx' & <-), (H _ _ Hy) as (y' & Hy' & <-).
  by eapply Hs.
Qed.

Section Step.
Variables (slots0 : list bool) (start len i slot : nat) (vars : list Interval) (v : Interval)
  (active : Active) (pool pool' : SlotPool).
Hypotheses (Hl : 0 < len) (Hlen0 : length slots0 = MAX_SLOTS) (Hi : vars !! i = Some v)
  (Hinv : scan_inv slots0 start len vars i active pool)
  (Hal : allocated pool len false slot pool') (Hok' : pool_ok pool').

Let vars' := <[i := with_slot slot v]> vars.
Let active' := active_insert (d_to v) i active.

Lemma vars_new : vars' !! i = Some (with_slot slot v).
Proof. apply list_lookup_insert_eq. by eapply lookup_lt_Some. Qed.

Lemma vars_old j w : j <> i -> vars' !! j = Some w <-> vars !! j = Some w.
Proof. intros. unfold vars'. by rewrite list_lookup_insert_ne. Qed.

Lemma active_new k j : (k, j) ∈ active' <-> (k = d_to v /\ j = i) \/ (k, j) ∈ active.
Proof.
  unfold active'. rewrite active_insert_elem. split; (intros [H|H]; [left|by right]).
  - by injection H as -> ->.
  - by destruct H as [-> ->].
Qed.

Lemma active_below k j : (k, j) ∈ active -> j < i.
Proof. intros H. by destruct (si_active _ _ _ _ _ _ _ Hinv k j H). Qed.

(** The new block is apart from that of every active interval. *)
Lemma new_disjoint k j w :
  (k, j) ∈ active -> vars !! j = Some w -> disjoint_blocks len slot (d_slot w).
Proof.
  intros Hj Hw. apply disjoint_in; [done|]. intros x Hs Hx.
  assert (d_slots pool !! x = Some true) as Hu.
  { apply (si_used _ _ _ _ _ _ _ Hinv). right. exists k, j, w. done. }
  rewrite (al_free _ _ _ _ _ Hal x Hs) in Hu. done.
Qed.

Lemma disjoint_sym s t : disjoint_blocks len s t -> disjoint_blocks len t s.
Proof. unfold disjoint_blocks. tauto. Qed.

Lemma step_used t :
  d_slots pool' !! t = Some true <->
  slots0 !! t = Some true \/
  exists k j w, (k, j) ∈ active' /\ vars' !! j = Some w /\ in_block len (d_slot w) t.
Proof.
  rewrite (al_set _ _ _ _ _ Hal t). pose proof (si_used _ _ _ _ _ _ _ Hinv t) as Hu.
  case_decide as Ht.
  - split; [|done]. intros _. right. exists (d_to v), i, (with_slot slot v).
    split; [apply active_new; by left|]. split; [apply vars_new|done].
  - rewrite Hu. split; (intros [H|(k & j & w & Hk & Hw & Hb)]; [by left|]).
    + right. exists k, j, w. split; [apply active_new; by right|]. split; [|done].
      apply vars_old; [|done]. apply active_below in Hk. lia.
    + apply active_new in Hk as [[-> ->]|Hk].
      * rewrite vars_new in Hw. injection Hw as <-. done.
      * right. exists k, j, w. split; [done|]. split; [|done].
        apply vars_old in Hw; [done|]. apply active_below in Hk. lia.
Qed.

Lemma step_inv : scan_inv slots0 start len vars' (S i) active' pool'.
Proof.
  destruct Hinv as [Hok Hst Hc0 Hu Ha Hso Hn Hdj Hd Hf Hs].
  pose proof (al_calls _ _ _ _ _ Hal) as Hcalls. rewrite app_nil_r in Hcalls.
  assert (Hlt : forall j, j < S i -> j = i \/ j < i) by lia.
  split.
  - done.
  - unfold search_start in *. by rewrite Hcalls.
  - by rewrite Hcalls.
  - apply step_used.
  - intros k j Hk. apply active_new in Hk as [[-> ->]|Hk].
    + split; [lia|]. eexists. by split; [apply vars_new|].
    + destruct (Ha k j Hk) as (Hj & w & Hw & E). split; [lia|]. exists w. split; [|done].
      apply vars_old; [lia|done].
  - by apply active_insert_sorted.
  - unfold active'. rewrite active_insert_perm. constructor; [|done].
    intros Hin. apply list_elem_of_fmap in Hin as ([k j] & E & Hk). simpl in E. subst j.
    apply active_below in Hk. lia.
  - intros j1 j2 u w [k1 H1] [k2 H2] Hu1 Hu2 Hne.
    apply active_new in H1 as [[-> ->]|H1], H2 as [[-> ->]|H2]; try done.
    + rewrite vars_new in Hu1. injection Hu1 as <-. apply vars_old in Hu2; [|done].
      by eapply new_disjoint.
    + rewrite vars_new in Hu2. injection Hu2 as <-. apply vars_old in Hu1; [|done].
      apply disjoint_sym. by eapply new_disjoint.
    + pose proof (active_below _ _ H1). pose proof (active_below _ _ H2).
      apply vars_old in Hu1, Hu2; [|lia..]. apply (Hdj j1 j2); try done; by eexists.
  - intros j w Hj Hw. apply Hlt in Hj as [->|Hj].
    + left. exists (d_to v). apply active_new. by left.
    + apply vars_old in Hw; [|lia]. destruct (Hd j w Hj Hw) as [[k Hk]|Hend].
      * left. exists k. apply active_new. by right.
      * right. intros m x Hm Hx. apply vars_old in Hx; [|lia]. apply (Hend m); [lia|done].
  - intros j w Hj Hw. apply Hlt in Hj as [->|Hj].
    + rewrite vars_new in Hw. injection Hw as <-. simpl. split; [|split].
      * intros t Ht. pose proof (al_free _ _ _ _ _ Hal t Ht) as Hfree.
        destruct (slots0 !! t) as [[|]|] eqn:E; [|done|].
        -- assert (d_slots pool !! t = Some true) as Ht' by (apply Hu; by left). congruence.
        -- apply lookup_ge_None in E. pose proof (al_fits _ _ _ _ _ Hal). lia.
      * apply (al_fits _ _ _ _ _ Hal).
      * rewrite <- Hst. by apply (al_start _ _ _ _ _ Hal).
    + apply vars_old in Hw; [|lia]. by apply (Hf j).
  - intros j1 j2 u w H1 H2 Hne Hu1 Hu2 Hov.
    assert (Hnew : forall j x, j < i -> vars !! j = Some x -> (d_from v <= d_to x)%Z ->
      disjoint_blocks len slot (d_slot x)).
    { intros j x Hj Hx Ho. destruct (Hd j x Hj Hx) as [[k Hk]|Hend]; [by eapply new_disjoint|].
      specialize (Hend i v (le_n _) Hi). lia. }
    apply Hlt in H1 as [->|H1], H2 as [->|H2]; try done.
    + rewrite vars_new in Hu1. injection Hu1 as <-. apply vars_old in Hu2; [|lia].
      apply (Hnew j2); [done|done|]. apply Hov.
    + rewrite vars_new in Hu2. injection Hu2 as <-. apply vars_old in Hu1; [|lia].
      apply disjoint_sym, (Hnew j1); [done|done|]. apply Hov.
    + apply vars_old in Hu1, Hu2; [|lia..]. by apply (Hs j1 j2).
Qed.
End Step.

Lemma initial_inv pool len vars :
  pool_ok pool -> scan_inv (d_slots pool) (search_start pool) len vars 0 [] pool.
Proof.
  intros Hok. split; try done.
  - apply Hok.
  - intros t. split; [by left|]. intros [H|(k & j & v & H & _)]; [done|by apply elem_of_nil in H].
  - intros k j H. by apply elem_of_nil in H.
  - constructor.
  - constructor.
  - intros j1 j2 u v [k H]. by apply elem_of_nil in H.
  - intros j v Hj. lia.
  - intros j v Hj. lia.
  - intros j1 j2 u v Hj. lia.
Qed.

Lemma nextFree_single pool callArgs :
  pool_ok pool -> exists r, nextFreeSlot pool 1 callArgs = Some r.
Proof.
  intros Hok.
  destruct (round_cases pool 1 callArgs (search_start pool) Hok (le_n _) (fun _ => le_n _))
    as [[_ E]|[(p' & _ & _ & E)|[(H & _)|(H & _)]]]; try lia;
    eexists; unfold nextFreeSlot; simpl; rewrite E; done.
Qed.

Lemma slot_irrelevant vars i v slot :
  vars !! i = Some v ->
  map (with_slot 0) (<[i := with_slot slot v]> vars) = map (with_slot 0) vars.
Proof.
  intros Hi. apply list_eq. intros j. change (map (with_slot 0)) with (fmap (M:=list) (with_slot 0)).
  rewrite !list_lookup_fmap. destruct (decide (j = i)) as [->|Hne].
  - rewrite list_lookup_insert_eq by (by eapply lookup_lt_Some). by rewrite Hi.
  - by rewrite list_lookup_insert_ne.
Qed.

Lemma scan_spec slots0 start len n i vars active pool :
  0 < len -> length slots0 = MAX_SLOTS -> from_sorted vars -> i + n = length vars ->
  scan_inv slots0 start len vars i active pool ->
  match scan n i vars len active pool with
  | Some (true, vars', pool') =>
      map (with_slot 0) vars' = map (with_slot 0) vars /\
      exists active', scan_inv slots0 start len vars' (i + n) active' pool'
  | Some _ => True
  | None => len <> 1
  end.
Proof.
  intros Hl Hlen0. revert i vars active pool.
  induction n as [|n IH]; intros i vars active pool Hsort Hn Hinv; simpl.
  { split; [done|]. exists active. by rewrite Nat.add_0_r. }
  destruct (lookup_nat_lt vars i) as [v Hv]; [lia|]. rewrite Hv. simpl.
  destruct (expire_spec slots0 start len vars i v active pool Hl Hsort Hv Hinv)
    as (act & p1 & -> & Hinv1). simpl.
  pose proof (si_ok _ _ _ _ _ _ _ Hinv1) as Hok1.
  destruct (nextFreeSlot p1 len false) as [[slot p2]|] eqn:En; simpl.
  - destruct ((MAX_SLOTS <=? length act) || (slot <? 0)%Z) eqn:Eb; [done|].
    apply orb_false_iff in Eb as [_ Eb]. apply Z.ltb_ge in Eb.
    destruct (nextFreeSlot_loop_sound _ _ _ _ _ Hok1 Hl En)
      as [[-> _]|(s & -> & Hal & Hok2 & _)]; [lia|].
    rewrite Nat2Z.id, <- (slot_irrelevant vars i v s Hv).
    replace (i + S n) with (S i + n) by lia. apply IH.
    + by apply sorted_update.
    + rewrite length_insert. lia.
    + by apply (step_inv slots0 start len i s vars v act p1 p2).
  - intros ->. destruct (nextFree_single p1 false Hok1) as (r & Er). congruence.
Qed.

Lemma linear_scan_sound pool vars len vars' pool' :
  StdSortLaws Srt -> pool_ok pool -> 0 < len ->
  allocateWithLinearScan pool vars len = Some (true, vars', pool') ->
  map (with_slot 0) vars' ≡ₚ map (with_slot 0) vars /\
  (forall i j u v, vars' !! i = Some u -> vars' !! j = Some v -> i <> j -> overlap u v ->
     disjoint_blocks len (d_slot u) (d_slot v)) /\
  (forall i u, vars' !! i = Some u ->
     all_slots false (d_slots pool) (d_slot u) len /\ d_slot u + len <= MAX_SLOTS /\
     search_start pool <= d_slot u).
Proof.
  intros L Hok Hl H. unfold allocateWithLinearScan in H.
  pose proof (scan_spec (d_slots pool) (search_start pool) len _ 0 _ [] pool Hl (po_size _ Hok)
    (sorted_list vars L) eq_refl (initial_inv pool len _ Hok)) as Hs.
  rewrite H in Hs. destruct Hs as (Hm & act & Hinv). simpl in Hinv.
  assert (Hlen : length vars' = length (std_sort sortIntervals vars)).
  { rewrite <- (length_map (with_slot 0) vars'), Hm. apply length_map. }
  split; [|split].
  - rewrite Hm. apply fmap_Permutation, std_sort_perm.
  - intros i j u v Hu Hv Hne Hov. apply (si_safe _ _ _ _ _ _ _ Hinv i j); try done.
    + rewrite <- Hlen. by eapply lookup_lt_Some.
    + rewrite <- Hlen. by eapply lookup_lt_Some.
  - intros i u Hu. apply (si_free _ _ _ _ _ _ _ Hinv i u); [|done].
    rewrite <- Hlen. by eapply lookup_lt_Some.
Qed.

(** [C27] Every assignment [allocateWithLinearScan] reports as a success is safe:
    two intervals that overlap have disjoint blocks of slots, and every block was
    free in the pool and lies above the innermost waiting call.  The intervals
    are those given. *)
Theorem linear_scan_safe pool vars len vars' pool' :
  StdSortLaws Srt -> pool_ok pool -> 0 < len ->
  allocateWithLinearScan pool vars len = Some (true, vars', pool') ->
  map (with_slot 0) vars' ≡ₚ map (with_slot 0) vars /\
  (forall i j u v, vars' !! i = Some u -> vars' !! j = Some v -> i <> j -> overlap u v ->
     disjoint_blocks len (d_slot u) (d_slot v)) /\
  (forall i u, vars' !! i = Some u ->
     all_slots false (d_slots pool) (d_slot u) len /\ d_slot u + len <= MAX_SLOTS /\
     search_start pool <= d_slot u).
Proof. apply linear_scan_sound. Qed.

(** For intervals of a single slot, [allocateWithLinearScan] always ends. *)
Theorem linear_scan_total pool vars :
  StdSortLaws Srt -> pool_ok pool -> exists r, allocateWithLinearScan pool vars 1 = Some r.
Proof.
  intros L Hok. unfold allocateWithLinearScan.
  pose proof (scan_spec (d_slots pool) (search_start pool) 1 _ 0 _ [] pool (le_n _) (po_size _ Hok)
    (sorted_list vars L) eq_refl (initial_inv pool 1 _ Hok)) as Hs.
  destruct (scan _ 0 _ 1 [] pool) as [r|]; [by exists r|done].
Qed.
End LinearScan.

(** ** An example *)

Definition sort_example : StdSort := fun lt l =>
  merge_sort (fun x y => lt y x = false) (H:=fun x y => bool_eq_dec (lt y x) false) l.

Lemma sort_example_laws : StdSortLaws sort_example.
Proof.
  split.
  - intros lt l. apply merge_sort_Permutation.
  - intros lt l Ha Ht.
    assert (Transitive (fun x y => lt y x = false)) by (intros x y z Hxy Hyz; by apply (Ht z y x)).
    assert (Total (fun x y => lt y x = false)).
    { intros x y. destruct (lt y x) eqn:E; [right|by left]. by apply Ha. }
    apply (StronglySorted_merge_sort _ l).
Qed.

Definition ex_intervals : list Interval :=
  [mkInterval 4 9 0 0; mkInterval 0 5 0 0; mkInterval 6 7 0 0; mkInterval 1 2 0 0].

Lemma linear_scan_safe_witness :
  exists vars' pool',
    allocateWithLinearScan (Srt:=sort_example) empty_pool ex_intervals 2 = Some (true, vars', pool') /\
    map d_slot vars' = [0; 2; 2; 0] /\
    map (with_slot 0) vars' ≡ₚ map (with_slot 0) ex_intervals /\
    (forall i j u v, vars' !! i = Some u -> vars' !! j = Some v -> i <> j -> overlap u v ->
       disjoint_blocks 2 (d_slot u) (d_slot v)) /\
    (forall i u, vars' !! i = Some u ->
       all_slots false (d_slots empty_pool) (d_slot u) 2 /\ d_slot u + 2 <= MAX_SLOTS /\
       search_start empty_pool <= d_slot u).
Proof.
  do 2 eexists. split; [vm_compute; reflexivity|]. split; [reflexivity|].
  refine (linear_scan_safe (Srt:=sort_example) empty_pool ex_intervals 2 _ _ sort_example_laws
    empty_pool_ok _ _); [lia|]. vm_compute. reflexivity.
Defined.

Lemma linear_scan_total_witness :
  exists r, allocateWithLinearScan (Srt:=sort_example) tight_pool ex_intervals 1 = Some r.
Proof. apply (linear_scan_total tight_pool ex_intervals sort_example_laws tight_pool_ok). Defined.
