(* ===== verification/Composer.v ===== *)
(** * The bytecode composer

    [JitComposer] of [LuaJitComposer.h/.cpp]: functions are opened, get their
    instructions, constants, upvalues and variables, and are closed; the result is
    written as a bytecode file.  The state is a record, each method a computation
    on it; a failed [Q_ASSERT] is [None], and the text of a warning (without the
    values it quotes) goes to the log.  Register slots are in [SlotPool.v]. *)

From S2P Require Import Prelude Double Bytecode QtLib BytecodeIO.
From Stdlib Require Import Strings.Byte.
Local Open Scope Z_scope.
Local Open Scope rd_scope.

(** ** State *)

(** What a [Func] adds to a [Function].
    [src/LuaJitComposer.h:179-184] Func *)
Record FuncAux := mkFuncAux {
  d_gcConst : list (QVariant * nat);
  d_numConst : list (QVariant * nat);
  d_var : list (bytes * nat)
}.

(** [d_aux] has the additional members of the functions in [d_funcs].
    [src/LuaJitComposer.h:174-177] JitComposer *)
Record JitComposer := mkComposer {
  d_bc : JitBytecode;
  d_aux : list FuncAux;
  d_hasDebugInfo : bool;
  d_stripped : bool;
  d_useRowColFormat : bool;
  colBitLen : Z;
  rowColBitLen : Z
}.

Abbreviation CM := (SM JitComposer).

Definition with_bc (c : JitComposer) (b : JitBytecode) : JitComposer :=
  mkComposer b (d_aux c) (d_hasDebugInfo c) (d_stripped c) (d_useRowColFormat c)
    (colBitLen c) (rowColBitLen c).
Definition with_aux (c : JitComposer) (a : list FuncAux) : JitComposer :=
  mkComposer (d_bc c) a (d_hasDebugInfo c) (d_stripped c) (d_useRowColFormat c)
    (colBitLen c) (rowColBitLen c).
Definition with_debug (c : JitComposer) (on : bool) : JitComposer :=
  mkComposer (d_bc c) (d_aux c) on (d_stripped c) (d_useRowColFormat c) (colBitLen c) (rowColBitLen c).

(** [src/LuaJitComposer.cpp:29-32] JitComposer *)
Definition new_composer : JitComposer :=
  mkComposer (mkJitBytecode [] [] [] 0 []) [] false false true 12 31.

(** [src/LuaJitComposer.cpp:34-38] clear *)
Definition c_clear (c : JitComposer) : JitComposer :=
  with_aux (with_debug (with_bc c (clear (d_bc c))) false) [].

(** [src/LuaJitComposer.cpp:679-682] setStripped *)
Definition c_setStripped (on : bool) (c : JitComposer) : JitComposer :=
  mkComposer (d_bc c) (d_aux c) (d_hasDebugInfo c) on (d_useRowColFormat c) (colBitLen c) (rowColBitLen c).

(** [src/LuaJitComposer.cpp:684-687] setUseRowColFormat *)
Definition setUseRowColFormat (on : bool) (c : JitComposer) : JitComposer :=
  mkComposer (d_bc c) (d_aux c) (d_hasDebugInfo c) (d_stripped c) on (colBitLen c) (rowColBitLen c).

(** [qWarning] *)
Definition warn (on : bool) (msg : bytes) (c : JitComposer) : JitComposer :=
  if on then with_bc c (with_log (d_bc c) msg) else c.

(** ** Rows and columns in one number *)

(** [src/LuaJitComposer.h:172-172] isRowCol *)
Definition isRowCol (c : JitComposer) : bool := negb (colBitLen c =? 0).
(** [src/LuaJitComposer.h:167-167] unpackCol *)
Definition unpackCol (c : JitComposer) (rowCol : Z) : Z := Z.land rowCol (Z.shiftl 1 (colBitLen c) - 1).
(** [src/LuaJitComposer.h:168-168] unpackRow *)
Definition unpackRow (c : JitComposer) (rowCol : Z) : Z := Z.shiftr rowCol (colBitLen c).

(** [src/LuaJitComposer.cpp:803-813] packRowCol *)
Definition packRowCol (c : JitComposer) (row col : Z) : option Z :=
  let maxRow := Z.shiftl 1 (rowColBitLen c - colBitLen c) - 1 in
  let maxCol := Z.shiftl 1 (colBitLen c) - 1 in
  if (row <=? maxRow) && (col <=? maxCol)
  then Some (Z.lor (u32 (Z.shiftl row (colBitLen c))) col) else None.

(** ** The function on top of the stack *)

Definition top (c : JitComposer) : option nat := head (d_fstack (d_bc c)).

Definition mod_fn (c : JitComposer) (i : nat) (g : Function -> Function) : JitComposer :=
  with_bc c (mkJitBytecode (b_name (d_bc c)) (alter g i (d_funcs (d_bc c))) (d_fstack (d_bc c))
               (b_flags (d_bc c)) (d_log (d_bc c))).

(** The members of a function the composer changes. *)
Definition set_codes (codes lines : list Z) (f : Function) : Function :=
  {| d_sourceFile := d_sourceFile f; d_id := d_id f; d_flags := d_flags f;
     d_numparams := d_numparams f; d_framesize := d_framesize f; d_isRoot := d_isRoot f;
     d_firstline := d_firstline f; d_numline := d_numline f; d_byteCodes := codes;
     d_upvals := d_upvals f; d_constObjs := d_constObjs f; d_constNums := d_constNums f;
     d_lines := lines; d_upNames := d_upNames f; d_vars := d_vars f;
     d_varNames := d_varNames f; d_outer := d_outer f |}.
Definition set_closed (framesize : Z) (objs nums : list QVariant) (f : Function) : Function :=
  {| d_sourceFile := d_sourceFile f; d_id := d_id f; d_flags := d_flags f;
     d_numparams := d_numparams f; d_framesize := framesize; d_isRoot := d_isRoot f;
     d_firstline := d_firstline f; d_numline := d_numline f; d_byteCodes := d_byteCodes f;
     d_upvals := d_upvals f; d_constObjs := objs; d_constNums := nums;
     d_lines := d_lines f; d_upNames := d_upNames f; d_vars := d_vars f;
     d_varNames := d_varNames f; d_outer := d_outer f |}.
Definition set_names (upvals : list Z) (upNames : list bytes) (vars : list Var) (f : Function) : Function :=
  {| d_sourceFile := d_sourceFile f; d_id := d_id f; d_flags := d_flags f;
     d_numparams := d_numparams f; d_framesize := d_framesize f; d_isRoot := d_isRoot f;
     d_firstline := d_firstline f; d_numline := d_numline f; d_byteCodes := d_byteCodes f;
     d_upvals := upvals; d_constObjs := d_constObjs f; d_constNums := d_constNums f;
     d_lines := d_lines f; d_upNames := upNames; d_vars := vars;
     d_varNames := d_varNames f; d_outer := d_outer f |}.

Section Composer.
Context `{Q : QtLib} `{L : LjBc}.

(** ** Constants *)

(** The slot of a key in a table that numbers its keys, and the table with it. *)
Definition slot_of (v : QVariant) (t : list (QVariant * nat)) : nat * list (QVariant * nat) :=
  match qhash_find v t with
  | Some slot => (slot, t)
  | None => (length t, qhash_insert v (length t) t)
  end.

(** [src/LuaJitComposer.cpp:638-657] getConstSlot *)
Definition getConstSlot (v : QVariant) : CM Z := fun c =>
  match top c with
  | None => Some (-1, c)
  | Some i =>
      a ← d_aux c !! i;
      if isNumber v then
        let r := slot_of v (d_numConst a) in
        Some (Z.of_nat (fst r), with_aux c (<[i := mkFuncAux (d_gcConst a) (snd r) (d_var a)]> (d_aux c)))
      else
        let r := slot_of v (d_gcConst a) in
        Some (Z.of_nat (fst r), with_aux c (<[i := mkFuncAux (snd r) (d_numConst a) (d_var a)]> (d_aux c)))
  end.

(** A [QHash] with byte arrays as keys. *)
Fixpoint var_find (name : bytes) (l : list (bytes * nat)) : option nat :=
  match l with
  | [] => None
  | (n, s) :: l => if bool_decide (n = name) then Some s else var_find name l
  end.

(** [src/LuaJitComposer.cpp:621-636] getLocalSlot *)
Definition getLocalSlot (name : bytes) : CM Z := fun c =>
  match top c with
  | None => Some (-1, c)
  | Some i =>
      a ← d_aux c !! i;
      match var_find name (d_var a) with
      | Some slot => Some (Z.of_nat slot, c)
      | None =>
          let slot := length (d_var a) in
          Some (Z.of_nat slot,
                with_aux c (<[i := mkFuncAux (d_gcConst a) (d_numConst a) (d_var a ++ [(name, slot)])]>
                              (d_aux c)))
      end
  end.

(** ** Functions *)

(** Whether there is debug information is decided by the first function.
    [src/LuaJitComposer.cpp:45-61] openFunction *)
Definition open_debug (firstLine lastLine : Z) (c : JitComposer) : JitComposer :=
  let missing := (firstLine =? 0) || (lastLine =? 0) in
  match top c with
  | None => with_debug c (negb missing)
  | Some _ =>
      if missing
      then warn (d_hasDebugInfo c) (qb "JitComposer::openFunction: expecting debug information") c
      else warn (negb (d_hasDebugInfo c)) (qb "JitComposer::openFunction: not expecting debug information") c
  end.

(** [new Func()] is zero-initialised.
    [src/LuaJitComposer.cpp:62-83] openFunction *)
Definition new_func (c : JitComposer) (parCount : Z) (source : QString) (firstLine lastLine : Z) : Function :=
  {| d_sourceFile := source; d_id := 0; d_flags := 0; d_numparams := parCount; d_framesize := 0;
     d_isRoot := false;
     d_firstline := if d_hasDebugInfo c then firstLine else 0;
     d_numline := if d_hasDebugInfo c then u32 (lastLine - firstLine + 1) else 1;
     d_byteCodes := []; d_upvals := []; d_constObjs := []; d_constNums := []; d_lines := [];
     d_upNames := []; d_vars := []; d_varNames := []; d_outer := None |}.

(** The function gets the next address of [d_funcs].
    [src/LuaJitComposer.cpp:40-88] openFunction *)
Definition openFunction (parCount : Z) (sourceRef : bytes) (firstLine lastLine : Z) : CM Z :=
  _ <~ rmod (fun c =>
    let b := d_bc c in
    match d_funcs b with
    | [] => with_bc c (mkJitBytecode (fromUtf8 sourceRef) [] (d_fstack b) (b_flags b) (d_log b))
    | _ => c
    end);
  _ <~ rmod (open_debug firstLine lastLine);
  c <~ rget id;
  let unpack := d_hasDebugInfo c && isRowCol c && negb (d_useRowColFormat c) in
  let firstLine := if unpack then unpackRow c firstLine else firstLine in
  let lastLine := if unpack then unpackRow c lastLine else lastLine in
  _ <~ rmod (warn (d_hasDebugInfo c && (lastLine <? firstLine))
              (qb "JitComposer::openFunction: last line smaller than first line in function"));
  let f := new_func c parCount (fromUtf8 sourceRef) firstLine lastLine in
  let self := length (d_funcs (d_bc c)) in
  slot <~ getConstSlot (QFuncRef self);
  _ <~ rmod (fun c =>
    let b := d_bc c in
    with_aux (with_bc c (mkJitBytecode (b_name b) (d_funcs b ++ [f]) (self :: d_fstack b)
                           (b_flags b) (d_log b)))
      (d_aux c ++ [mkFuncAux [] [] []]));
  rret slot.

(** [src/LuaJitComposer.cpp:90-97] isRET *)
Definition isRET (op : Z) : bool :=
  (op =? Op_val OP_RETM) || (op =? Op_val OP_RET) || (op =? Op_val OP_RET0) ||
  (op =? Op_val OP_RET1) || (op =? Op_val OP_CALLT).

(** [resize], and an assignment for each entry of the hash.
    [src/LuaJitComposer.cpp:106-108] closeFunction *)
Definition number_table (t : list (QVariant * nat)) : list QVariant :=
  foldl (fun l e => <[snd e := fst e]> l) (replicate (length t) QInvalid) (hash_order t).

(** The same from the end.
    [src/LuaJitComposer.cpp:109-111] closeFunction *)
Definition object_table (t : list (QVariant * nat)) : list QVariant :=
  foldl (fun l e => <[(length t - snd e - 1)%nat := fst e]> l) (replicate (length t) QInvalid)
    (hash_order t).

(** [src/LuaJitComposer.cpp:99-120] closeFunction *)
Definition closeFunction (frameSize : Z) : CM bool := fun c =>
  i ← top c;
  f ← d_funcs (d_bc c) !! i;
  a ← d_aux c !! i;
  let c := mod_fn c i (set_closed frameSize (object_table (d_gcConst a)) (number_table (d_numConst a))) in
  let hasReturn := match last (d_byteCodes f) with Some bc => isRET (opFromBc bc) | None => false end in
  let c := warn (negb hasReturn)
             (qb "JitComposer::closeFunction: last statement is neither RET nor CALLT in") c in
  let b := d_bc c in
  Some (hasReturn, with_bc c (mkJitBytecode (b_name b) (d_funcs b) (tail (d_fstack b)) (b_flags b) (d_log b))).

(** ** Instructions *)

(** The instruction word; [None] when the operand does not fit the format.
    [src/LuaJitComposer.cpp:127-138] addOpImp *)
Definition encode (op : Op) (a b cd : Z) : option Z :=
  let bc := Z.lor (Op_val op) (Z.shiftl a 8) in
  match formatFromOp (Op_val op) with
  | ABC =>
      let bc := Z.lor bc (Z.shiftl b 24) in
      if 255 <? cd then None else Some (Z.lor bc (Z.shiftl cd 16))
  | AD => Some (Z.lor bc (Z.shiftl cd 16))
  end.

(** The line that is stored, if any, and the warning.
    [src/LuaJitComposer.cpp:139-159] addOpImp *)
Definition stored_line (c : JitComposer) (f : Function) (line : Z) : list Z * option bytes :=
  if 0 <? line then
    if d_hasDebugInfo c then
      let msg :=
        if (line <? d_firstline f) || (u32 (d_firstline f + d_numline f - 1) <? line)
        then Some (qb "JitComposer::addOpImp: line number not in function")
        else if d_useRowColFormat c && isRowCol c &&
                ((unpackRow c line =? 0) || (unpackCol c line =? 0))
        then Some (qb "JitComposer::addOpImp: invalid row or column number")
        else None in
      ([if negb (d_useRowColFormat c) && isRowCol c then unpackRow c line else line], msg)
    else ([], Some (qb "JitComposer::addOpImp: not expecting line number"))
  else if d_hasDebugInfo c
  then ([0], Some (qb "JitComposer::addOpImp: expecting line number"))
  else ([], None).

(** [src/LuaJitComposer.cpp:122-162] addOpImp *)
Definition addOpImp (op : Op) (a b cd line : Z) : CM bool := fun c =>
  match top c with
  | None => Some (false, c)
  | Some i =>
      match encode op a b cd with
      | None => Some (false, c)
      | Some bc =>
          f ← d_funcs (d_bc c) !! i;
          let '(lines, msg) := stored_line c f line in
          let c := match msg with Some m => warn true m c | None => c end in
          Some (true, mod_fn c i (set_codes (d_byteCodes f ++ [bc]) (d_lines f ++ lines)))
      end
  end.

(** The parameters [a] and [b] are of type [quint8].
    [src/LuaJitComposer.cpp:164-168] addAbc *)
Definition addAbc (op : Op) (a b c_ line : Z) : CM bool :=
  if (0 <=? c_) && (c_ <=? 255) then addOpImp op (u8 a) (u8 b) c_ line else rfail.

(** [src/LuaJitComposer.cpp:170-174] addAd *)
Definition addAd (op : Op) (a d line : Z) : CM bool :=
  if (0 <=? d) && (d <=? 0xffff) then addOpImp op (u8 a) 0 d line else rfail.

(** [src/LuaJitComposer.cpp:176-181] getCurPc *)
Definition getCurPc (c : JitComposer) : Z :=
  match top c with
  | None => -1
  | Some i => match d_funcs (d_bc c) !! i with
              | Some f => Z.of_nat (length (d_byteCodes f)) - 1 | None => -1 end
  end.

(** [src/LuaJitComposer.cpp:189-195] patch *)
Definition is_patchable (op : Z) : bool :=
  (op =? Op_val OP_FORI) || (op =? Op_val OP_FORL) || (op =? Op_val OP_JMP) ||
  (op =? Op_val OP_LOOP) || (op =? Op_val OP_UCLO).

(** The operand of a jump with the offset [off].
    [src/LuaJitComposer.cpp:197-197] patch *)
Definition biased (off : Z) : Z := u16 (off + JumpBias).

(** [src/LuaJitComposer.cpp:183-203] patch *)
Definition patch (pc off : Z) : CM bool := fun c =>
  i ← top c;
  f ← d_funcs (d_bc c) !! i;
  if Z.of_nat (length (d_byteCodes f)) <=? pc then Some (false, c)
  else
    bc ← d_byteCodes f !! Z.to_nat pc;
    if is_patchable (opFromBc bc) then
      let bc := Z.lor (Z.land bc 0x0000ffff) (Z.shiftl (biased off) 16) in
      Some (true, mod_fn c i (set_codes (<[Z.to_nat pc := bc]> (d_byteCodes f)) (d_lines f)))
    else Some (false, c).

(** The second parameter of [patch] is a [qint16].
    [src/LuaJitComposer.h:83-83] patch *)
Definition patch_here (label : Z) : CM bool := fun c => patch label (s16 (getCurPc c - label)) c.

(** ** Mnemonics

    The overloads of a mnemonic are told apart by the kinds of their operands: a
    value [V] or a number constant [N]. *)

(** [src/LuaJitComposer.cpp:572-575] JMP *)
Definition JMP (base offset line : Z) : CM bool := addAd OP_JMP base (biased offset) line.

(** The offsets are converted to [qint16].
    [src/LuaJitComposer.cpp:205-209] jumpToLoop *)
Definition jumpToLoop (loopLabel base line : Z) : CM bool :=
  cur <~ rget getCurPc;
  _ <~ JMP base (s16 (loopLabel - cur - 2)) line;
  cur <~ rget getCurPc;
  patch loopLabel (s16 (cur - loopLabel - 1)).

(** The constant operand of an arithmetic instruction. *)
Definition with_number (v : QVariant) (k : Z -> CM bool) : CM bool :=
  if isNumber v then slot <~ getConstSlot v; k slot else rfail.

(** Without an assertion.
    [src/LuaJitComposer.cpp:211-217] ADD *)
Definition ADD_NV (dst : Z) (lhs : QVariant) (rhs line : Z) : CM bool :=
  if isNumber lhs then slot <~ getConstSlot lhs; addAbc OP_ADDNV dst rhs slot line
  else rret false.

(** [src/LuaJitComposer.cpp:219-225] ADD *)
Definition ADD_VN (dst lhs : Z) (rhs : QVariant) (line : Z) : CM bool :=
  with_number rhs (fun slot => addAbc OP_ADDVN dst lhs slot line).

(** [src/LuaJitComposer.cpp:227-230] ADD *)
Definition ADD_VV (dst lhs rhs : Z) (line : Z) : CM bool :=
  addAbc OP_ADDVV dst lhs rhs line.

(** [src/LuaJitComposer.cpp:232-238] SUB *)
Definition SUB_NV (dst : Z) (lhs : QVariant) (rhs : Z) (line : Z) : CM bool :=
  with_number lhs (fun slot => addAbc OP_SUBNV dst rhs slot line).

(** [src/LuaJitComposer.cpp:240-246] SUB *)
Definition SUB_VN (dst lhs : Z) (rhs : QVariant) (line : Z) : CM bool :=
  with_number rhs (fun slot => addAbc OP_SUBVN dst lhs slot line).

(** [src/LuaJitComposer.cpp:248-251] SUB *)
Definition SUB_VV (dst lhs rhs : Z) (line : Z) : CM bool :=
  addAbc OP_SUBVV dst lhs rhs line.

(** [src/LuaJitComposer.cpp:276-282] MUL *)
Definition MUL_NV (dst : Z) (lhs : QVariant) (rhs : Z) (line : Z) : CM bool :=
  with_number lhs (fun slot => addAbc OP_MULNV dst rhs slot line).

(** [src/LuaJitComposer.cpp:284-290] MUL *)
Definition MUL_VN (dst lhs : Z) (rhs : QVariant) (line : Z) : CM bool :=
  with_number rhs (fun slot => addAbc OP_MULVN dst lhs slot line).

(** [src/LuaJitComposer.cpp:292-295] MUL *)
Definition MUL_VV (dst lhs rhs : Z) (line : Z) : CM bool :=
  addAbc OP_MULVV dst lhs rhs line.

(** [src/LuaJitComposer.cpp:297-303] DIV *)
Definition DIV_NV (dst : Z) (lhs : QVariant) (rhs : Z) (line : Z) : CM bool :=
  with_number lhs (fun slot => addAbc OP_DIVNV dst rhs slot line).

(** [src/LuaJitComposer.cpp:305-311] DIV *)
Definition DIV_VN (dst lhs : Z) (rhs : QVariant) (line : Z) : CM bool :=
  with_number rhs (fun slot => addAbc OP_DIVVN dst lhs slot line).

(** [src/LuaJitComposer.cpp:313-316] DIV *)
Definition DIV_VV (dst lhs rhs : Z) (line : Z) : CM bool :=
  addAbc OP_DIVVV dst lhs rhs line.

(** [src/LuaJitComposer.cpp:333-339] MOD *)
Definition MOD_NV (dst : Z) (lhs : QVariant) (rhs : Z) (line : Z) : CM bool :=
  with_number lhs (fun slot => addAbc OP_MODNV dst rhs slot line).

(** [src/LuaJitComposer.cpp:341-347] MOD *)
Definition MOD_VN (dst lhs : Z) (rhs : QVariant) (line : Z) : CM bool :=
  with_number rhs (fun slot => addAbc OP_MODVN dst lhs slot line).

(** [src/LuaJitComposer.cpp:349-352] MOD *)
Definition MOD_VV (dst lhs rhs : Z) (line : Z) : CM bool :=
  addAbc OP_MODVV dst lhs rhs line.

(** [src/LuaJitComposer.cpp:253-259] TDUP *)
Definition TDUP (dst : Z) (constTable : QVariant) (line : Z) : CM bool :=
  match constTable with
  | QConstTable _ _ => slot <~ getConstSlot constTable; addAd OP_TDUP dst slot line
  | _ => rfail
  end.

(** [src/LuaJitComposer.cpp:261-264] TGET *)
Definition TGET_V (to table index : Z) (line : Z) : CM bool :=
  addAbc OP_TGETV to table (u8 index) line.

(** [src/LuaJitComposer.cpp:266-269] TGET *)
Definition TGET_S (to table : Z) (name : bytes) (line : Z) : CM bool :=
  slot <~ getConstSlot (QByteArray name); addAbc OP_TGETS to table slot line.

(** [src/LuaJitComposer.cpp:271-274] TGETi *)
Definition TGETi (to table index : Z) (line : Z) : CM bool :=
  addAbc OP_TGETB to table (u8 index) line.

(** [src/LuaJitComposer.cpp:318-321] FNEW *)
Definition FNEW (dst func : Z) (line : Z) : CM bool :=
  addAd OP_FNEW dst (u16 func) line.

(** [src/LuaJitComposer.cpp:323-326] FORI *)
Definition FORI (base offset : Z) (line : Z) : CM bool :=
  addAd OP_FORI base (biased offset) line.

(** [src/LuaJitComposer.cpp:328-331] FORL *)
Definition FORL (base offset : Z) (line : Z) : CM bool :=
  addAd OP_FORL base (biased offset) line.

(** [src/LuaJitComposer.cpp:354-359] CALL *)
Definition CALL (slot numOfReturns numOfArgs : Z) (line : Z) : CM bool :=
  addAbc OP_CALL slot (numOfReturns + 1) (numOfArgs + 1) line.

(** [src/LuaJitComposer.cpp:361-364] CALLT *)
Definition CALLT (slot numOfArgs : Z) (line : Z) : CM bool :=
  addAd OP_CALLT slot (numOfArgs + 1) line.

(** [src/LuaJitComposer.cpp:366-369] CAT *)
Definition CAT (dst from to : Z) (line : Z) : CM bool :=
  addAbc OP_CAT dst from (u8 to) line.

(** [src/LuaJitComposer.cpp:371-394] KSET *)
Definition KSET (dst : Z) (v : QVariant) (line : Z) : CM bool :=
  if isString v then slot <~ getConstSlot v; addAd OP_KSTR dst slot line
  else if isPrimitive v then addAd OP_KPRI dst (toPrimitive v) line
  else if isNumber v then
    match v with
    | QDouble _ => slot <~ getConstSlot v; addAd OP_KNUM dst slot line
    | _ =>
        if (- 32768 <=? toLongLong v) && (toLongLong v <=? 32767)
        then addAd OP_KSHORT dst (u16 (toLongLong v)) line
        else slot <~ getConstSlot v; addAd OP_KNUM dst slot line
    end
  else
    match v with
    | QConstTable _ _ => slot <~ getConstSlot v; addAd OP_KCDATA dst slot line
    | _ => rfail
    end.

(** [src/LuaJitComposer.cpp:396-399] LEN *)
Definition LEN (lhs rhs : Z) (line : Z) : CM bool :=
  addAd OP_LEN lhs (u8 rhs) line.

(** The offset is stored without the bias.
    [src/LuaJitComposer.cpp:401-404] LOOP *)
Definition LOOP (base offset line : Z) : CM bool := addAd OP_LOOP base (u16 offset) line.

(** [src/LuaJitComposer.cpp:406-409] MOV *)
Definition MOV (lhs rhs : Z) (line : Z) : CM bool :=
  addAd OP_MOV lhs (u8 rhs) line.

(** [src/LuaJitComposer.cpp:411-414] NOT *)
Definition NOT (lhs rhs : Z) (line : Z) : CM bool :=
  addAd OP_NOT lhs (u8 rhs) line.

(** The destination is not used.
    [src/LuaJitComposer.cpp:416-419] POW *)
Definition POW (dst lhs rhs line : Z) : CM bool := addAd OP_POW lhs (u8 rhs) line.

(** [src/LuaJitComposer.cpp:421-428] RET *)
Definition RET (slot len : Z) (line : Z) : CM bool :=
  if u8 len =? 1 then addAd OP_RET1 slot 2 line else addAd OP_RET slot (u8 len + 1) line.

(** [src/LuaJitComposer.cpp:430-433] RET *)
Definition RET_0  (line : Z) : CM bool :=
  addAd OP_RET0 0 1 line.

(** [src/LuaJitComposer.cpp:435-438] TNEW *)
Definition TNEW (slot arrSize hashSize : Z) (line : Z) : CM bool :=
  addAd OP_TNEW slot (u16 arrSize + Z.shiftl (u8 hashSize) 11) line.

(** [src/LuaJitComposer.cpp:440-443] TSET *)
Definition TSET_V (value table index : Z) (line : Z) : CM bool :=
  addAbc OP_TSETV value table (u8 index) line.

(** [src/LuaJitComposer.cpp:445-448] TSETi *)
Definition TSETi (value table index : Z) (line : Z) : CM bool :=
  addAbc OP_TSETB value table (u8 index) line.

(** [src/LuaJitComposer.cpp:450-454] TSET *)
Definition TSET_S (value table : Z) (index : bytes) (line : Z) : CM bool :=
  slot <~ getConstSlot (QByteArray index); addAbc OP_TSETS value table slot line.

(** [src/LuaJitComposer.cpp:456-459] UCLO *)
Definition UCLO (slot offset : Z) (line : Z) : CM bool :=
  addAd OP_UCLO slot (biased offset) line.

(** [src/LuaJitComposer.cpp:461-464] UGET *)
Definition UGET (toSlot fromUv : Z) (line : Z) : CM bool :=
  addAd OP_UGET toSlot (u8 fromUv) line.

(** [src/LuaJitComposer.cpp:466-469] USET *)
Definition USET_V (toUv rhs : Z) (line : Z) : CM bool :=
  addAd OP_USETV toUv (u8 rhs) line.

(** [src/LuaJitComposer.cpp:471-481] USET *)
Definition USET_K (toUv : Z) (rhs : QVariant) (line : Z) : CM bool :=
  if isString rhs then slot <~ getConstSlot rhs; addAd OP_USETS toUv slot line
  else if isNumber rhs then slot <~ getConstSlot rhs; addAd OP_USETN toUv slot line
  else if isPrimitive rhs then addAd OP_USETP toUv (toPrimitive rhs) line
  else rfail.

(** [src/LuaJitComposer.cpp:483-486] UNM *)
Definition UNM (lhs rhs : Z) (line : Z) : CM bool :=
  addAd OP_UNM lhs (u8 rhs) line.

(** [src/LuaJitComposer.cpp:488-491] GGET *)
Definition GGET (to : Z) (name : bytes) (line : Z) : CM bool :=
  slot <~ getConstSlot (QByteArray name); addAd OP_GGET to slot line.

(** [src/LuaJitComposer.cpp:493-496] GSET *)
Definition GSET (value : Z) (name : bytes) (line : Z) : CM bool :=
  slot <~ getConstSlot (QByteArray name); addAd OP_GSET value slot line.

(** [src/LuaJitComposer.cpp:498-501] ISGE *)
Definition ISGE (lhs rhs : Z) (line : Z) : CM bool :=
  addAd OP_ISGE lhs (u8 rhs) line.

(** [src/LuaJitComposer.cpp:503-506] ISGT *)
Definition ISGT (lhs rhs : Z) (line : Z) : CM bool :=
  addAd OP_ISGT lhs (u8 rhs) line.

(** [src/LuaJitComposer.cpp:508-511] ISLE *)
Definition ISLE (lhs rhs : Z) (line : Z) : CM bool :=
  addAd OP_ISLE lhs (u8 rhs) line.

(** [src/LuaJitComposer.cpp:513-516] ISLT *)
Definition ISLT (lhs rhs : Z) (line : Z) : CM bool :=
  addAd OP_ISLT lhs (u8 rhs) line.

(** [src/LuaJitComposer.cpp:518-528] ISEQ *)
Definition ISEQ_K (lhs : Z) (rhs : QVariant) (line : Z) : CM bool :=
  if isNumber rhs then slot <~ getConstSlot rhs; addAd OP_ISEQN lhs slot line
  else if isString rhs then slot <~ getConstSlot rhs; addAd OP_ISEQS lhs slot line
  else if isPrimitive rhs then addAd OP_ISEQP lhs (toPrimitive rhs) line
  else rfail.

(** [src/LuaJitComposer.cpp:530-533] ISEQ *)
Definition ISEQ_V (lhs rhs : Z) (line : Z) : CM bool :=
  addAd OP_ISEQV lhs (u8 rhs) line.

(** [src/LuaJitComposer.cpp:535-545] ISNE *)
Definition ISNE_K (lhs : Z) (rhs : QVariant) (line : Z) : CM bool :=
  if isNumber rhs then slot <~ getConstSlot rhs; addAd OP_ISNEN lhs slot line
  else if isString rhs then slot <~ getConstSlot rhs; addAd OP_ISNES lhs slot line
  else if isPrimitive rhs then addAd OP_ISNEP lhs (toPrimitive rhs) line
  else rfail.

(** [src/LuaJitComposer.cpp:547-550] ISNE *)
Definition ISNE_V (lhs rhs : Z) (line : Z) : CM bool :=
  addAd OP_ISNEV lhs (u8 rhs) line.

(** [src/LuaJitComposer.cpp:552-555] ISF *)
Definition ISF (slot : Z) (line : Z) : CM bool :=
  addAd OP_ISF 0 (u8 slot) line.

(** [src/LuaJitComposer.cpp:557-560] ISFC *)
Definition ISFC (lhs rhs : Z) (line : Z) : CM bool :=
  addAd OP_ISFC lhs (u8 rhs) line.

(** [src/LuaJitComposer.cpp:562-565] IST *)
Definition IST (slot : Z) (line : Z) : CM bool :=
  addAd OP_IST 0 (u8 slot) line.

(** [src/LuaJitComposer.cpp:567-570] ISTC *)
Definition ISTC (lhs rhs : Z) (line : Z) : CM bool :=
  addAd OP_ISTC lhs (u8 rhs) line.

(** [src/LuaJitComposer.cpp:577-584] KNIL *)
Definition KNIL (base len : Z) (line : Z) : CM bool :=
  if len =? 1 then addAd OP_KPRI base 0 line else addAd OP_KNIL base (base + len - 1) line.

(** ** Debug information *)

(** [src/LuaJitComposer.h:32-39] Upval *)
Record Upval := mkUpval { d_uv : Z; d_isLocal : bool; d_isRo : bool; uv_name : bytes }.

(** [src/LuaJitComposer.h:42-48] VarName *)
Record VarName := mkVarName { vn_name : bytes; vn_from : Z; vn_to : Z }.

(** [src/LuaJitComposer.cpp:593-597] setUpvals *)
Definition upval_word (uv : Upval) : Z :=
  let tmp := d_uv uv in
  let tmp := if d_isLocal uv then Z.lor tmp UvLocalMask else tmp in
  if d_isRo uv then Z.lor tmp UvImmutableMask else tmp.

(** [src/LuaJitComposer.cpp:586-602] setUpvals *)
Definition setUpvals (l : list Upval) : CM unit := fun c =>
  match top c with
  | None => Some (tt, c)
  | Some i =>
      Some (tt, mod_fn c i (fun f =>
        set_names (d_upvals f ++ map upval_word l)
          (if d_hasDebugInfo c then d_upNames f ++ map uv_name l else d_upNames f) (d_vars f) f))
  end.

(** [src/LuaJitComposer.cpp:613-617] setVarNames *)
Definition var_of (vn : VarName) : Var := mkVar (vn_from vn) (u32 (vn_to vn + 2)) (vn_name vn).

(** [src/LuaJitComposer.cpp:604-619] setVarNames *)
Definition setVarNames (l : list VarName) : CM unit := fun c =>
  match top c with
  | None => Some (tt, c)
  | Some i =>
      let c := warn (negb (d_hasDebugInfo c)) (qb "JitComposer::setUpvals: not expecting debug info") c in
      Some (tt, mod_fn c i (fun f => set_names (d_upvals f) (d_upNames f) (d_vars f ++ map var_of l) f))
  end.

(** ** Output *)

(** [src/LuaJitComposer.cpp:659-667] write *)
Definition c_write (c : JitComposer) : option (bool * bytes * JitComposer) :=
  let b := d_bc c in
  match d_funcs b with
  | [] => Some (false, [], c)
  | _ =>
      let b := match d_fstack b with
               | [] => mkJitBytecode (b_name b) (d_funcs b) [0%nat] (b_flags b) (d_log b)
               | _ => b end in
      '(ok, out, b) ← write (setStripped b (d_stripped c || negb (d_hasDebugInfo c)));
      Some (ok, out, with_bc c b)
  end.


(** ** Instructions decode to their operands *)

Context {LL : LjBcLaws L}.

Lemma op_row o : o <> OP_INVALID ->
  exists bc, row (Op_val o) = Some bc /\ field_types bc = doc_types o /\
    formatFromOp (Op_val o) = (if bool_decide (d_fb bc = Unused) then AD else ABC).
Proof.
  intros Ho. destruct (row_types o Ho) as (bc & Hr & Ht). exists bc. split; [done|]. split; [done|].
  unfold formatFromOp. by rewrite Hr.
Qed.

(** The words of the two formats are what [addOpImp] composes. *)
Lemma lor_ad op a d :
  0 <= op < 2 ^ 8 -> 0 <= a < 2 ^ 8 ->
  Z.lor (Z.lor op (Z.shiftl a 8)) (Z.shiftl d 16) = word_ad op a d.
Proof.
  intros Hop Ha. rewrite (lor_shiftl_add op a 8) by lia.
  rewrite lor_shiftl_add by lia. unfold word_ad. lia.
Qed.

Lemma lor_abc op a b c :
  0 <= op < 2 ^ 8 -> 0 <= a < 2 ^ 8 -> 0 <= c < 2 ^ 8 ->
  Z.lor (Z.lor (Z.lor op (Z.shiftl a 8)) (Z.shiftl b 24)) (Z.shiftl c 16) = word_abc op a b c.
Proof.
  intros Hop Ha Hc. rewrite <- Z.lor_assoc, (Z.lor_comm (Z.shiftl b 24)), Z.lor_assoc.
  rewrite (lor_shiftl_add op a 8), (lor_shiftl_add _ c 16), (lor_shiftl_add _ b 24) by lia.
  unfold word_abc. lia.
Qed.

(** The instruction [addOpImp] composes has the operands it was given; those the
    opcode does not have are 0. *)
Definition operand (t : FieldType) (x : Z) : Z := if bool_decide (t = Unused) then 0 else x.
Definition decodes (w : Z) (op : Op) (a b cd : Z) : Prop :=
  let i := dissectInstruction w in
  0 <= w < 2 ^ 32 /\ d_op i = Op_val op /\ (d_ta i, d_tb i, d_tcd i) = doc_types op /\
  d_a i = operand (fst (fst (doc_types op))) a /\
  d_b i = operand (snd (fst (doc_types op))) b /\
  d_cd i = operand (snd (doc_types op)) cd.

Lemma encode_decodes op a b cd w :
  op <> OP_INVALID -> 0 <= a < 2 ^ 8 -> 0 <= b < 2 ^ 8 -> 0 <= cd < 2 ^ 16 ->
  encode op a b cd = Some w -> decodes w op a b cd.
Proof.
  intros Ho Ha Hb Hcd He. destruct (op_row op Ho) as (bc & Hr & Ht & Hf).
  pose proof (Op_val_small op Ho) as Hop. unfold encode in He. rewrite Hf in He.
  unfold decodes, operand. rewrite <- Ht. unfold field_types in *. simpl.
  case_bool_decide as Hfb.
  - injection He as <-. rewrite lor_ad by lia.
    assert (0 <= word_ad (Op_val op) a cd < 2 ^ 32) by (unfold word_ad; lia).
    rewrite (dissect_ad _ _ _ bc) by (done || lia). simpl.
    done.
  - destruct (Z.ltb_spec 255 cd); [done|]. injection He as <-.
    rewrite lor_abc by lia.
    assert (0 <= word_abc (Op_val op) a b cd < 2 ^ 32) by (unfold word_abc; lia).
    rewrite (dissect_abc _ _ _ _ bc) by (done || lia). simpl.
    done.
Qed.

(** The code of function [i] after one more word. *)
Definition appended (c c' : JitComposer) (w : Z) : Prop :=
  exists i f f', top c = Some i /\ d_funcs (d_bc c) !! i = Some f /\
    d_funcs (d_bc c') !! i = Some f' /\ d_byteCodes f' = d_byteCodes f ++ [w] /\
    d_fstack (d_bc c') = d_fstack (d_bc c).

Lemma warn_funcs on msg c : d_funcs (d_bc (warn on msg c)) = d_funcs (d_bc c).
Proof. by destruct on. Qed.
Lemma warn_fstack on msg c : d_fstack (d_bc (warn on msg c)) = d_fstack (d_bc c).
Proof. by destruct on. Qed.

Lemma addOp_inv op a b cd line c r c' :
  addOpImp op a b cd line c = Some (r, c') ->
  (r = false /\ c' = c /\ (top c = None \/ encode op a b cd = None)) \/
  (r = true /\ exists w, encode op a b cd = Some w /\ appended c c' w).
Proof.
  unfold addOpImp. destruct (top c) as [i|] eqn:Ht; [|intros [= <- <-]; left; by auto].
  destruct (encode op a b cd) as [w|] eqn:He; [|intros [= <- <-]; left; by auto].
  destruct (d_funcs (d_bc c) !! i) as [f|] eqn:Hf; [|done]. simpl.
  destruct (stored_line c f line) as [lines msg]. intros [= <- <-]. right. split; [done|].
  exists w. split; [done|]. exists i, f, (set_codes (d_byteCodes f ++ [w]) (d_lines f ++ lines) f).
  split; [done|]. split; [done|]. simpl.
  split; [|split; [done|by destruct msg]].
  rewrite list_lookup_alter_eq. destruct msg; simpl; by rewrite Hf.
Qed.

(** [C29] An instruction that [addOpImp] accepts is appended to the function on top,
    and [dissectInstruction] of the word gives the opcode and the operands. *)
Theorem addOp_decodes op a b cd line c c' :
  op <> OP_INVALID -> 0 <= a < 2 ^ 8 -> 0 <= b < 2 ^ 8 -> 0 <= cd < 2 ^ 16 ->
  addOpImp op a b cd line c = Some (true, c') ->
  exists w, appended c c' w /\ decodes w op a b cd.
Proof.
  intros Ho Ha Hb Hcd H. apply addOp_inv in H as [(H & _)|(_ & w & He & Happ)]; [done|].
  exists w. split; [done|]. by apply encode_decodes.
Qed.

(** [addOpImp] refuses an instruction exactly when no function is open or a
    third operand does not fit its byte, and then changes nothing. *)
Theorem addOp_refused op a b cd line c c' :
  op <> OP_INVALID ->
  addOpImp op a b cd line c = Some (false, c') <->
  c' = c /\ (top c = None \/ (snd (fst (doc_types op)) <> Unused /\ 255 < cd)).
Proof.
  intros Ho. destruct (op_row op Ho) as (bc & Hr & Ht & Hf).
  assert (He : encode op a b cd = None <-> snd (fst (doc_types op)) <> Unused /\ 255 < cd).
  { rewrite <- Ht. unfold field_types, encode. simpl. rewrite Hf.
    case_bool_decide as Hfb; [by split; [|intros []]|].
    destruct (Z.ltb_spec 255 cd); split; try done; intros []; lia. }
  split.
  - intros H. apply addOp_inv in H as [(_ & -> & H)|(H & _)]; [|done]. by rewrite He in H.
  - rewrite <- He. unfold addOpImp. intros (-> & [H|H]); rewrite H; [done|]. by destruct (top c).
Qed.


(** ** Jumps *)
Lemma getCd_biased w op a off :
  - 2 ^ 15 <= off < 2 ^ 15 -> snd (doc_types op) = _jump -> decodes w op a 0 (biased off) ->
  getCd (dissectInstruction w) = off.
Proof.
  intros Hoff Hd (_ & _ & Ht & _ & _ & Hcd). unfold operand in Hcd.
  destruct (doc_types op) as [[fa fb] fcd]. simpl in *. subst fcd. unfold getCd.
  injection Ht as _ _ ->. rewrite Hcd. simpl.
  unfold biased, JumpBias. width.
Qed.

Lemma patched_word w off :
  0 <= w < 2 ^ 32 ->
  Z.lor (Z.land w 0xffff) (Z.shiftl (biased off) 16) =
  word_ad (w mod 2 ^ 8) ((w / 2 ^ 8) mod 2 ^ 8) (biased off).
Proof.
  intros Hw. change 0xffff with (2 ^ 16 - 1). pose proof (Z.mod_pos_bound w (2 ^ 16) ltac:(lia)).
  rewrite land_ones_mod, lor_shiftl_add by lia.
  unfold word_ad. Z.to_euclidean_division_equations; lia.
Qed.

Lemma patch_decodes op w off bc :
  op <> OP_INVALID -> 0 <= w < 2 ^ 32 -> opFromBc w = Op_val op ->
  row (Op_val op) = Some bc -> d_fb bc = Unused ->
  decodes (Z.lor (Z.land w 0xffff) (Z.shiftl (biased off) 16)) op (bc_a w) 0 (biased off).
Proof.
  intros Ho Hw Hop Hr Hfb. rewrite patched_word by done.
  pose proof (u16_range (off + JumpBias)) as Hb. unfold biased.
  unfold opFromBc in Hop. rewrite bc_op_law in Hop by done. rewrite Hop, bc_a_law by done.
  assert (0 <= (w / 2 ^ 8) mod 2 ^ 8 < 2 ^ 8) by (apply Z.mod_pos_bound; lia).
  pose proof (Op_val_small op Ho) as Hs.
  set (a := (w / 2 ^ 8) mod 2 ^ 8) in *.
  assert (0 <= word_ad (Op_val op) a (u16 (off + JumpBias)) < 2 ^ 32) by (unfold word_ad; lia).
  destruct (row_types op Ho) as (bc' & Hr' & Ht). assert (bc' = bc) as -> by congruence.
  unfold decodes, operand. rewrite <- Ht. unfold field_types.
  rewrite (dissect_ad _ _ _ bc) by (done || lia). simpl. rewrite Hfb. done.
Qed.

Lemma lookup_top c i f g :
  d_funcs (d_bc c) !! i = Some f -> d_funcs (d_bc (mod_fn c i g)) !! i = Some (g f).
Proof. intros H. simpl. by rewrite list_lookup_alter_eq, H. Qed.

(** Patching a jump of the function on top. *)
Lemma patch_spec c i f pc off w op :
  top c = Some i -> d_funcs (d_bc c) !! i = Some f -> d_byteCodes f !! pc = Some w ->
  0 <= w < 2 ^ 32 -> opFromBc w = Op_val op -> op <> OP_INVALID -> is_patchable (Op_val op) = true ->
  exists c' f' w', patch (Z.of_nat pc) off c = Some (true, c') /\
    d_funcs (d_bc c') !! i = Some f' /\ d_byteCodes f' = <[pc := w']> (d_byteCodes f) /\
    d_fstack (d_bc c') = d_fstack (d_bc c) /\
    decodes w' op (bc_a w) 0 (biased off) /\ snd (doc_types op) = _jump.
Proof.
  intros Ht Hf Hw Hr Hop Ho Hp. pose proof (lookup_lt_Some _ _ _ Hw) as Hlt.
  assert (Hdoc : snd (fst (doc_types op)) = Unused /\ snd (doc_types op) = _jump).
  { clear -Hp. destruct op; vm_compute in Hp; try discriminate; split; reflexivity. }
  destruct Hdoc as [Hfb Hj]. destruct (row_types op Ho) as (bc & Hbc & Hty).
  assert (d_fb bc = Unused) as Hfb' by (rewrite <- Hty in Hfb; exact Hfb).
  unfold patch. rewrite Ht. simpl. rewrite Hf. simpl.
  destruct (Z.leb_spec (Z.of_nat (length (d_byteCodes f))) (Z.of_nat pc)); [lia|].
  rewrite Nat2Z.id, Hw. simpl. rewrite Hop, Hp.
  do 3 eexists. split; [reflexivity|]. split; [by apply lookup_top|]. split; [reflexivity|].
  split; [done|]. split; [|done]. by apply (patch_decodes op w off bc).
Qed.

Lemma addAd_appends op a d line c i f :
  op <> OP_INVALID -> snd (fst (doc_types op)) = Unused -> 0 <= d < 2 ^ 16 ->
  top c = Some i -> d_funcs (d_bc c) !! i = Some f ->
  exists c' w, addAd op a d line c = Some (true, c') /\ appended c c' w /\ decodes w op (u8 a) 0 d.
Proof.
  intros Ho Hfb Hd Ht Hf. unfold addAd.
  rewrite (proj2 (Z.leb_le 0 d)), (proj2 (Z.leb_le d 0xffff)) by lia. simpl.
  destruct (op_row op Ho) as (bc & _ & Hty & Hfmt).
  assert (encode op (u8 a) 0 d <> None) as Henc.
  { unfold encode. rewrite Hfmt, bool_decide_eq_true_2; [done|]. by rewrite <- Hty in Hfb. }
  destruct (addOpImp op (u8 a) 0 d line c) as [[r c']|] eqn:E.
  - pose proof E as E'. apply addOp_inv in E as [(_ & _ & [H|H])|(-> & w & He & Happ)]; [congruence|done|].
    exists c', w. split; [done|]. split; [done|]. apply encode_decodes; try done; try lia.
    apply u8_range.
  - exfalso. unfold addOpImp in E. rewrite Ht in E.
    destruct (encode op (u8 a) 0 d); [|done]. rewrite Hf in E. simpl in E.
    by destruct (stored_line c f line).
Qed.

Lemma biased_range off : 0 <= biased off < 2 ^ 16.
Proof. apply u16_range. Qed.

(** [jumpToLoop] ends a loop: the jump it appends leads back to the [LOOP]
    instruction at the label, whose own offset then leads to that jump. *)
Theorem jumpToLoop_targets c i f label w base line :
  top c = Some i -> d_funcs (d_bc c) !! i = Some f ->
  d_byteCodes f !! label = Some w -> 0 <= w < 2 ^ 32 -> opFromBc w = Op_val OP_LOOP ->
  let n := length (d_byteCodes f) in
  Z.of_nat n - Z.of_nat label < 2 ^ 15 ->
  exists c' f' j w', jumpToLoop (Z.of_nat label) base line c = Some (true, c') /\
    d_funcs (d_bc c') !! i = Some f' /\
    d_byteCodes f' = <[label := w']> (d_byteCodes f) ++ [j] /\
    d_op (dissectInstruction j) = Op_val OP_JMP /\
    Z.of_nat n + 1 + getCd (dissectInstruction j) = Z.of_nat label /\
    d_op (dissectInstruction w') = Op_val OP_LOOP /\
    Z.of_nat label + 1 + getCd (dissectInstruction w') = Z.of_nat n.
Proof.
  intros Ht Hf Hw Hr Hop n Hn. pose proof (lookup_lt_Some _ _ _ Hw) as Hlt. fold n in Hlt.
  assert (Hcur : getCurPc c = Z.of_nat n - 1) by (unfold getCurPc; by rewrite Ht, Hf).
  unfold jumpToLoop, rbind at 1, rget at 1. rewrite Hcur.
  replace (Z.of_nat label - (Z.of_nat n - 1) - 2) with (Z.of_nat label - Z.of_nat n - 1) by lia.
  rewrite s16_small by lia. set (o1 := Z.of_nat label - Z.of_nat n - 1).
  destruct (addAd_appends OP_JMP base (biased o1) line c i f) as (c1 & j & E1 & Happ & Hj);
    [done|done|apply biased_range|done|done|].
  unfold JMP. rewrite (rbind_Some _ _ _ _ _ E1).
  destruct Happ as (i1 & g & f1 & Ht1 & Hg & Hf1 & Hc1 & Hst1). simplify_eq.
  assert (top c1 = Some i) as Htop1 by (unfold top in *; by rewrite Hst1).
  assert (Hcur1 : getCurPc c1 = Z.of_nat n).
  { unfold getCurPc. rewrite Htop1, Hf1, Hc1, length_app. simpl. subst n. lia. }
  unfold rbind, rget. rewrite Hcur1, s16_small by lia. set (o2 := Z.of_nat n - Z.of_nat label - 1).
  destruct (patch_spec c1 i f1 label o2 w OP_LOOP) as (c2 & f2 & w' & E2 & Hf2 & Hc2 & _ & Hw' & _);
    try done.
  { rewrite Hc1. by apply lookup_app_l_Some. }
  exists c2, f2, j, w'. split; [done|]. split; [done|]. split.
  { rewrite Hc2, Hc1. by apply insert_app_l. }
  rewrite (getCd_biased j OP_JMP (u8 base) o1) by (done || lia).
  rewrite (getCd_biased w' OP_LOOP (bc_a w) o2) by (done || lia).
  split; [apply Hj|]. split; [lia|]. split; [apply Hw'|]. lia.
Qed.


(** [POW] puts its first argument nowhere: the base becomes the destination and
    the operand B is 0. *)
Remark POW_misplaced dst lhs rhs line c c' :
  POW dst lhs rhs line c = Some (true, c') ->
  exists w, appended c c' w /\ d_a (dissectInstruction w) = u8 lhs /\
    d_b (dissectInstruction w) = 0 /\ d_cd (dissectInstruction w) = u8 rhs.
Proof.
  unfold POW, addAd. pose proof (u8_range lhs) as Hl. pose proof (u8_range rhs) as Hr.
  destruct (_ && _); [|done]. intros H. apply addOp_inv in H as [(H & _)|(_ & w & He & Happ)]; [done|].
  exists w. split; [done|]. apply encode_decodes in He; try done; try lia.
  destruct He as (_ & _ & _ & Ha & Hb & Hc). done.
Qed.

(** The offset given to [LOOP] comes back lessened by the bias. *)
Remark LOOP_unbiased base offset line c c' :
  LOOP base offset line c = Some (true, c') ->
  exists w, appended c c' w /\ getCd (dissectInstruction w) = u16 offset - JumpBias.
Proof.
  unfold LOOP, addAd. pose proof (u8_range base) as Hl. pose proof (u16_range offset) as Hr.
  destruct (_ && _); [|done]. intros H. apply addOp_inv in H as [(H & _)|(_ & w & He & Happ)]; [done|].
  exists w. split; [done|]. apply encode_decodes in He; try done; try lia.
  destruct He as (_ & _ & Ht & _ & _ & Hc). unfold getCd. injection Ht as _ _ ->. by rewrite Hc.
Qed.

(** ** Rows and columns *)


(** ** Constant tables *)

(** The keys are numbered in the order they were added. *)
Definition numbered (t : list (QVariant * nat)) : Prop := map snd t = seq 0 (length t).

Lemma numbered_snoc t v : numbered t -> numbered (t ++ [(v, length t)]).
Proof.
  intros H. unfold numbered. rewrite map_app, H, length_app. simpl. by rewrite seq_app.
Qed.

Lemma qhash_find_None {A} v (t : list (QVariant * A)) :
  qhash_find v t = None -> forall e, e ∈ t -> key_eqb (fst e) v = false.
Proof.
  induction t as [|[k x] t IH]; simpl; intros H e He; [by apply elem_of_nil in He|].
  destruct (key_eqb k v) eqn:E; [done|].
  apply elem_of_cons in He as [->|He]; [done|by apply IH].
Qed.

Lemma qhash_find_Some {A} v (t : list (QVariant * A)) x :
  qhash_find v t = Some x -> exists k, (k, x) ∈ t /\ key_eqb k v = true.
Proof.
  induction t as [|[k y] t IH]; simpl; [done|]. destruct (key_eqb k v) eqn:E.
  - intros [= ->]. exists k. split; [constructor|done].
  - intros H. destruct (IH H) as (k' & Hk & He). exists k'. split; [by constructor|done].
Qed.

(** The slot of a constant: its table keeps its entries and has one for it. *)
Lemma slot_of_spec v t :
  numbered t ->
  let '(s, t') := slot_of v t in
  numbered t' /\ t `prefix_of` t' /\ exists k, (k, s) ∈ t' /\ (k = v \/ key_eqb k v = true).
Proof.
  intros Hn. unfold slot_of. destruct (qhash_find v t) as [s|] eqn:E.
  - apply qhash_find_Some in E as (k & Hk & He). split; [done|]. split; [done|]. eauto.
  - rewrite (qhash_insert_fresh _ _ _ (qhash_find_None _ _ E)).
    split; [by apply numbered_snoc|]. split; [by apply prefix_app_r|].
    exists v. split; [apply elem_of_app; right; constructor|by left].
Qed.

Lemma numbered_lookup t k s : numbered t -> (k, s) ∈ t -> t !! s = Some (k, s).
Proof.
  intros Hn Hin. apply list_elem_of_lookup in Hin as [i Hi].
  assert (map snd t !! i = Some s) as Hs.
  { change (map snd t) with (snd <$> t). by rewrite list_lookup_fmap, Hi. }
  rewrite Hn in Hs. apply lookup_seq in Hs as [-> _]. done.
Qed.

(** Assigning the entries in any order, each to its own place. *)
Lemma place_all (g : nat -> nat) (l : list (QVariant * nat)) acc k s :
  (forall e e', e ∈ l -> e' ∈ l -> g (snd e) = g (snd e') -> e = e') ->
  (g s < length acc)%nat -> (k, s) ∈ l \/ acc !! g s = Some k /\ (forall e, e ∈ l -> g (snd e) <> g s) ->
  foldl (fun acc e => <[g (snd e) := fst e]> acc) acc l !! g s = Some k.
Proof.
  revert acc. induction l as [|[k' s'] l IH]; intros acc Hinj Hlt H; simpl.
  - destruct H as [H|[H _]]; [by apply elem_of_nil in H|done].
  - apply IH.
    + intros e e' He He'. apply Hinj; by constructor.
    + by rewrite length_insert.
    + destruct (decide (g s' = g s)) as [E|Hne].
      * destruct H as [H|[_ H]].
        2: { exfalso. apply (H (k', s')); [constructor|done]. }
        assert ((k', s') = (k, s)) as Heq by (apply Hinj; [constructor|done|done]).
        injection Heq as -> ->.
        destruct (decide (g s ∈ (fun e => g (snd e)) <$> l)) as [Hl|Hnin].
        -- left. apply list_elem_of_fmap in Hl as (e & Heg & He).
           assert (e = (k, s)) as <-; [|done]. apply Hinj; [by constructor|constructor|done].
        -- right. split; [by apply list_lookup_insert_eq|]. intros e He Heg. apply Hnin.
           apply list_elem_of_fmap. by exists e.
      * destruct H as [H|[H1 H2]].
        -- apply elem_of_cons in H as [H|H]; [|by left]. injection H as -> ->. done.
        -- right. split; [by rewrite list_lookup_insert_ne|]. intros e He. apply H2. by constructor.
Qed.

Context {QL : QtLaws Q}.

Lemma numbered_inj t e e' : numbered t -> e ∈ t -> e' ∈ t -> snd e = snd e' -> e = e'.
Proof.
  intros Hn He He' E. destruct e as [k s], e' as [k' s']. simpl in E. subst s'.
  apply numbered_lookup in He, He'; [|done..]. congruence.
Qed.

Lemma length_place (g : nat -> nat) (l : list (QVariant * nat)) acc :
  length (foldl (fun acc e => <[g (snd e) := fst e]> acc) acc l) = length acc.
Proof. revert acc. induction l as [|e l IH]; intros acc; simpl; [done|]. by rewrite IH, length_insert. Qed.

Lemma tables_lookup t k s :
  numbered t -> (k, s) ∈ t ->
  number_table t !! s = Some k /\ length (number_table t) = length t /\
  object_table t !! (length t - s - 1)%nat = Some k /\ length (object_table t) = length t.
Proof.
  intros Hn Hin. pose proof (lookup_lt_Some _ _ _ (numbered_lookup _ _ _ Hn Hin)) as Hlt.
  assert (Hlt' : forall e, e ∈ t -> (snd e < length t)%nat).
  { intros [k' s'] He. apply (numbered_lookup _ _ _ Hn) in He. by eapply lookup_lt_Some. }
  unfold number_table, object_table.
  rewrite (length_place id), (length_place (fun s => (length t - s - 1)%nat)), !length_replicate.
  split; [|split; [done|split; [|done]]].
  - apply (place_all id).
    + intros e e'. rewrite hash_order_perm. intros. by eapply numbered_inj.
    + by rewrite length_replicate.
    + left. by rewrite hash_order_perm.
  - apply (place_all (fun s => (length t - s - 1)%nat)).
    + intros e e'. rewrite hash_order_perm. intros He He' E. eapply numbered_inj; [done|done|done|].
      apply Hlt' in He, He'. lia.
    + rewrite length_replicate. lia.
    + left. by rewrite hash_order_perm.
Qed.


(** ** Invariant of the composer

    The constant tables are numbered; an open function has a line for each
    instruction and a name for each upvalue if there is debug information, else
    none; its code consists of 32 bit words. *)
Definition count_if (on : bool) (n : nat) : nat := if on then n else 0%nat.

Record composer_ok (c : JitComposer) : Prop := {
  co_aux : length (d_aux c) = length (d_funcs (d_bc c));
  co_stack : Forall (fun i => (i < length (d_funcs (d_bc c)))%nat) (d_fstack (d_bc c));
  co_nodup : NoDup (d_fstack (d_bc c));
  co_tables : forall i a, d_aux c !! i = Some a -> numbered (d_gcConst a) /\ numbered (d_numConst a);
  co_lines : forall i f, i ∈ d_fstack (d_bc c) -> d_funcs (d_bc c) !! i = Some f ->
    length (d_lines f) = count_if (d_hasDebugInfo c) (length (d_byteCodes f)) /\
    length (d_upNames f) = count_if (d_hasDebugInfo c) (length (d_upvals f));
  co_code : forall i f, d_funcs (d_bc c) !! i = Some f ->
    Forall (fun w => 0 <= w < 2 ^ 32) (d_byteCodes f)
}.

(** The constant tables only grow. *)
Definition aux_grows (c c' : JitComposer) : Prop :=
  forall i a, d_aux c !! i = Some a -> exists a', d_aux c' !! i = Some a' /\
    d_gcConst a `prefix_of` d_gcConst a' /\ d_numConst a `prefix_of` d_numConst a'.

#[local] Instance aux_grows_refl : Reflexive aux_grows.
Proof. intros c i a Ha. by exists a. Qed.
#[local] Instance aux_grows_trans : Transitive aux_grows.
Proof.
  intros c1 c2 c3 H1 H2 i a Ha. destruct (H1 i a Ha) as (a2 & Ha2 & G1 & G2).
  destruct (H2 i a2 Ha2) as (a3 & Ha3 & G3 & G4). exists a3. split; [done|]. split; by etrans.
Qed.

Lemma aux_same c c' : d_aux c' = d_aux c -> aux_grows c c'.
Proof. intros E i a Ha. exists a. by rewrite E. Qed.

Definition keeps {A} (m : CM A) : Prop :=
  forall c x c', composer_ok c -> m c = Some (x, c') -> composer_ok c' /\ aux_grows c c'.

Lemma keeps_ret {A} (x : A) : keeps (rret x).
Proof. by intros c y c' H [= _ <-]. Qed.
Lemma keeps_fail {A} : keeps (rfail : CM A).
Proof. by intros c y c' H. Qed.
Lemma keeps_get {A} (f : JitComposer -> A) : keeps (rget f).
Proof. by intros c y c' H [= _ <-]. Qed.
Lemma keeps_bind {A B} (m : CM A) (k : A -> CM B) :
  keeps m -> (forall x, keeps (k x)) -> keeps (rbind m k).
Proof.
  intros Hm Hk c x c' H E. apply rbind_inv in E as (y & c1 & E1 & E2).
  destruct (Hm _ _ _ H E1) as [H1 G1]. destruct (Hk _ _ _ _ H1 E2) as [H2 G2].
  split; [done|by etrans].
Qed.
Lemma keeps_if {A} (b : bool) (m k : CM A) : keeps m -> keeps k -> keeps (if b then m else k).
Proof. by destruct b. Qed.

(** A state that differs in the log, the name or the flags only. *)
Definition same_state (c c' : JitComposer) : Prop :=
  d_funcs (d_bc c') = d_funcs (d_bc c) /\ d_fstack (d_bc c') = d_fstack (d_bc c) /\
  d_aux c' = d_aux c /\ d_hasDebugInfo c' = d_hasDebugInfo c.

Lemma same_ok c c' : same_state c c' -> composer_ok c -> composer_ok c'.
Proof.
  intros (E1 & E2 & E3 & E4) [H1 H2 H3 H4 H5 H6]. split; rewrite ?E1, ?E2, ?E3, ?E4; done.
Qed.
Lemma same_warn on msg c : same_state c (warn on msg c).
Proof. by destruct on. Qed.

(** A change of the function on top that keeps the counts. *)
Lemma ok_mod_fn c i g :
  composer_ok c ->
  (forall f, d_funcs (d_bc c) !! i = Some f ->
     (length (d_lines f) = count_if (d_hasDebugInfo c) (length (d_byteCodes f)) ->
      length (d_lines (g f)) = count_if (d_hasDebugInfo c) (length (d_byteCodes (g f)))) /\
     (length (d_upNames f) = count_if (d_hasDebugInfo c) (length (d_upvals f)) ->
      length (d_upNames (g f)) = count_if (d_hasDebugInfo c) (length (d_upvals (g f)))) /\
     (Forall (fun w => 0 <= w < 2 ^ 32) (d_byteCodes f) ->
      Forall (fun w => 0 <= w < 2 ^ 32) (d_byteCodes (g f)))) ->
  composer_ok (mod_fn c i g).
Proof.
  intros [H1 H2 H3 H4 H5 H6] Hg.
  assert (Hl : forall j f', alter g i (d_funcs (d_bc c)) !! j = Some f' ->
    exists f, d_funcs (d_bc c) !! j = Some f /\ (j <> i /\ f' = f \/ j = i /\ f' = g f)).
  { intros j f' Hf'. destruct (decide (j = i)) as [->|Hne].
    - rewrite list_lookup_alter_eq in Hf'. destruct (d_funcs (d_bc c) !! i) as [f|]; [|done].
      injection Hf' as <-. exists f. auto.
    - rewrite list_lookup_alter_ne in Hf' by done. exists f'. auto. }
  split; simpl; try done.
  - by rewrite length_alter.
  - by rewrite length_alter.
  - intros j f' Hj Hf'. destruct (Hl _ _ Hf') as (f & Hf & [[_ ->]|[-> ->]]); [by eapply H5|].
    destruct (Hg f Hf) as (G1 & G2 & _), (H5 i f Hj Hf). auto.
  - intros j f' Hf'. destruct (Hl _ _ Hf') as (f & Hf & [[_ ->]|[-> ->]]); [by eapply H6|].
    destruct (Hg f Hf) as (_ & _ & G3). eauto.
Qed.

Lemma ok_with_table c i a a' :
  composer_ok c -> d_aux c !! i = Some a -> numbered (d_gcConst a') -> numbered (d_numConst a') ->
  d_gcConst a `prefix_of` d_gcConst a' -> d_numConst a `prefix_of` d_numConst a' ->
  let c' := with_aux c (<[i := a']> (d_aux c)) in composer_ok c' /\ aux_grows c c'.
Proof.
  intros [H1 H2 H3 H4 H5 H6] Ha Hn1 Hn2 Hp1 Hp2. pose proof (lookup_lt_Some _ _ _ Ha). split.
  - split; simpl; try done.
    + by rewrite length_insert.
    + intros j b Hj. destruct (decide (j = i)) as [->|].
      * rewrite list_lookup_insert_eq in Hj by done. injection Hj as <-. done.
      * rewrite list_lookup_insert_ne in Hj by done. by eapply H4.
  - intros j b Hj. simpl. destruct (decide (j = i)) as [->|].
    + exists a'. rewrite list_lookup_insert_eq by done. assert (b = a) as -> by congruence. done.
    + exists b. by rewrite list_lookup_insert_ne.
Qed.

Lemma keeps_getConstSlot v : keeps (getConstSlot v).
Proof.
  intros c x c' H E. unfold getConstSlot in E. destruct (top c) as [i|]; [|by injection E as _ <-].
  destruct (d_aux c !! i) as [a|] eqn:Ha; [|done]. simpl in E.
  destruct (co_tables _ H _ _ Ha) as [Hg Hn].
  destruct (isNumber v); injection E as _ <-.
  - pose proof (slot_of_spec v _ Hn) as Hs. destruct (slot_of v (d_numConst a)) as [s t].
    destruct Hs as (Hnt & Hpre & _). by apply (ok_with_table c i a).
  - pose proof (slot_of_spec v _ Hg) as Hs. destruct (slot_of v (d_gcConst a)) as [s t].
    destruct Hs as (Hnt & Hpre & _). by apply (ok_with_table c i a).
Qed.

Lemma keeps_getLocalSlot n : keeps (getLocalSlot n).
Proof.
  intros c x c' H E. unfold getLocalSlot in E. destruct (top c) as [i|]; [|by injection E as _ <-].
  destruct (d_aux c !! i) as [a|] eqn:Ha; [|done]. simpl in E.
  destruct (co_tables _ H _ _ Ha) as [Hg Hn].
  destruct (var_find n (d_var a)); injection E as _ <-; [done|]. by apply (ok_with_table c i a).
Qed.

Lemma encode_range op a b cd w :
  0 <= a < 2 ^ 8 -> 0 <= b < 2 ^ 8 -> 0 <= cd < 2 ^ 16 -> encode op a b cd = Some w -> 0 <= w < 2 ^ 32.
Proof.
  intros Ha Hb Hcd He. pose proof (Op_val_range op). unfold encode in He.
  destruct (formatFromOp (Op_val op)).
  - destruct (Z.ltb_spec 255 cd); [done|]. injection He as <-.
    rewrite lor_abc by lia. unfold word_abc. lia.
  - injection He as <-. rewrite lor_ad by lia. unfold word_ad. lia.
Qed.

Lemma keeps_addOp op a b cd line :
  0 <= cd < 2 ^ 16 -> keeps (addOpImp op (u8 a) (u8 b) cd line).
Proof.
  intros Hcd c x c' H E. unfold addOpImp in E. destruct (top c) as [i|]; [|by injection E as _ <-].
  destruct (encode op (u8 a) (u8 b) cd) as [w|] eqn:He; [|by injection E as _ <-].
  apply encode_range in He; [|apply u8_range|apply u8_range|done].
  destruct (d_funcs (d_bc c) !! i) as [f|] eqn:Hf; [|done]. cbn [mbind option_bind] in E.
  assert (Hl : length (fst (stored_line c f line)) = count_if (d_hasDebugInfo c) 1).
  { unfold stored_line. destruct (0 <? line), (d_hasDebugInfo c); done. }
  destruct (stored_line c f line) as [lines msg]. simpl in Hl. cbv zeta in E.
  set (c1 := match msg with Some m => warn true m c | None => c end) in E.
  assert (c' = mod_fn c1 i (set_codes (d_byteCodes f ++ [w]) (d_lines f ++ lines))) as -> by congruence.
  assert (S1 : same_state c c1) by (subst c1; destruct msg; [apply same_warn|done]).
  pose proof (same_ok _ _ S1 H) as H1. destruct S1 as (E1 & E2 & E3 & E4).
  split; [|intros j a' Ha'; exists a'; simpl; by rewrite E3].
  apply ok_mod_fn; [done|]. intros f' Hf'. rewrite E1 in Hf'. rewrite E4.
  assert (f' = f) as -> by congruence. simpl.
  split; [|split; [done|]].
  - rewrite !length_app, Hl. simpl. unfold count_if. destruct (d_hasDebugInfo c); lia.
  - intros Hc. apply Forall_app. split; [done|]. by apply Forall_singleton.
Qed.

Lemma keeps_addAbc op a b c_ line : keeps (addAbc op a b c_ line).
Proof.
  unfold addAbc. destruct (Z.leb_spec 0 c_), (Z.leb_spec c_ 255); simpl; try apply keeps_fail.
  apply keeps_addOp. lia.
Qed.
Lemma keeps_addAd op a d line : keeps (addAd op a d line).
Proof.
  unfold addAd. destruct (Z.leb_spec 0 d), (Z.leb_spec d 0xffff); simpl; try apply keeps_fail.
  apply (keeps_addOp op a 0 d line). lia.
Qed.

Lemma keeps_patch pc off : keeps (patch pc off).
Proof.
  intros c x c' H E. unfold patch in E. destruct (top c) as [i|]; [|done]. simpl in E.
  destruct (d_funcs (d_bc c) !! i) as [f|] eqn:Hf; [|done]. simpl in E.
  destruct (_ <=? pc); [by injection E as _ <-|].
  destruct (d_byteCodes f !! Z.to_nat pc) as [w|] eqn:Hw; [|done]. simpl in E.
  destruct (is_patchable _); [|by injection E as _ <-]. injection E as _ <-.
  split; [|by apply aux_same]. apply ok_mod_fn; [done|]. intros f' Hf'. assert (f' = f) as -> by congruence.
  simpl. rewrite length_insert. split; [done|]. split; [done|]. intros Hc.
  apply Forall_insert; [done|]. change 65535 with (2 ^ 16 - 1).
  pose proof (biased_range off). pose proof (Z.mod_pos_bound w (2 ^ 16) ltac:(lia)).
  rewrite land_ones_mod, lor_shiftl_add by lia. lia.
Qed.

Lemma keeps_patch_here label : keeps (patch_here label).
Proof. intros c x c' H E. unfold patch_here in E. by eapply keeps_patch. Qed.

Lemma keeps_setUpvals l : keeps (setUpvals l).
Proof.
  intros c x c' H E. unfold setUpvals in E. destruct (top c) as [i|]; injection E as _ <-; [|done].
  split; [|by apply aux_same]. apply ok_mod_fn; [done|]. intros f Hf. simpl. split; [done|]. split; [|done].
  unfold count_if. destruct (d_hasDebugInfo c); [|done]. rewrite !length_app, !length_map. lia.
Qed.

Lemma keeps_setVarNames l : keeps (setVarNames l).
Proof.
  intros c x c' H E. unfold setVarNames in E. destruct (top c) as [i|]; [|by injection E as _ <-].
  cbv zeta in E. set (c1 := warn _ _ c) in E.
  assert (S1 : same_state c c1) by apply same_warn. pose proof (same_ok _ _ S1 H) as H1.
  assert (G : d_aux c1 = d_aux c) by apply S1.
  match type of E with Some (_, ?c2) = _ => assert (c' = c2) as -> by congruence end.
  split; [|by apply aux_same; simpl]. apply ok_mod_fn; [done|]. intros f Hf. done.
Qed.

Lemma getConstSlot_funcs v c x c' :
  getConstSlot v c = Some (x, c') ->
  d_bc c' = d_bc c /\ d_hasDebugInfo c' = d_hasDebugInfo c /\ length (d_aux c') = length (d_aux c).
Proof.
  unfold getConstSlot. destruct (top c) as [i|]; [|by intros [= _ <-]].
  destruct (d_aux c !! i) as [a|]; [|done]. simpl.
  destruct (isNumber v); intros [= _ <-]; simpl; by rewrite length_insert.
Qed.

Lemma keeps_open_debug a b : keeps (rmod (open_debug a b)).
Proof.
  intros c x c' H [= _ <-]. unfold open_debug, top.
  destruct (d_fstack (d_bc c)) as [|i st] eqn:Hst; simpl.
  - split; [|by apply aux_same]. destruct H as [H1 H2 H3 H4 H5 H6]. split; simpl; try done.
    intros i f Hi. rewrite Hst in Hi. by apply elem_of_nil in Hi.
  - destruct (_ || _); (split; [by eapply same_ok; [apply same_warn|]|]);
      intros j d Hd; exists d; by destruct (d_hasDebugInfo c).
Qed.

Lemma keeps_warn f msg : keeps (rmod (fun c => warn (f c) msg c)).
Proof.
  intros c x c' H [= _ <-]. split; [by eapply same_ok; [apply same_warn|]|].
  intros j d Hd. exists d. by destruct (f c).
Qed.

(** The part of [openFunction] that makes the function. *)
Lemma keeps_push c f slot c' :
  composer_ok c -> d_byteCodes f = [] -> d_lines f = [] -> d_upNames f = [] -> d_upvals f = [] ->
  (slot <~ getConstSlot (QFuncRef (length (d_funcs (d_bc c))));
   _ <~ rmod (fun c1 =>
     let b := d_bc c1 in
     with_aux (with_bc c1 (mkJitBytecode (b_name b) (d_funcs b ++ [f])
                             (length (d_funcs (d_bc c)) :: d_fstack b) (b_flags b) (d_log b)))
       (d_aux c1 ++ [mkFuncAux [] [] []]));
   rret slot) c = Some (slot, c') ->
  composer_ok c' /\ aux_grows c c'.
Proof.
  intros H E1 E2 E3 E4 E. inv_rbind E. injection E as _ <-. injection E5 as _ <-.
  destruct (keeps_getConstSlot _ _ _ _ H E0) as [Hc G].
  destruct (getConstSlot_funcs _ _ _ _ E0) as (Eb & Ed & Ea). split.
  - destruct Hc as [H1 H2 H3 H4 H5 H6]. rewrite Eb in *. split; simpl.
    + rewrite !length_app, H1. done.
    + rewrite length_app. simpl. constructor; [lia|]. eapply Forall_impl; [exact H2|]. simpl. lia.
    + constructor; [|done]. intros Hin. rewrite Forall_forall in H2. specialize (H2 _ Hin). lia.
    + intros i a Ha. apply lookup_app_Some in Ha as [Ha|[_ Ha]]; [by eapply H4|].
      destruct (i - length (d_aux t))%nat; [|done]. injection Ha as <-. done.
    + intros i g Hi Hg. apply lookup_app_Some in Hg as [Hg|[Hge Hg]].
      * apply elem_of_cons in Hi as [->|Hi]; [|by eapply H5].
        apply lookup_lt_Some in Hg. lia.
      * destruct (i - length (d_funcs (d_bc c)))%nat; [|done]. injection Hg as <-.
        rewrite E1, E2, E3, E4. by destruct (d_hasDebugInfo t).
    + intros i g Hg. apply lookup_app_Some in Hg as [Hg|[_ Hg]]; [by eapply H6|].
      destruct (i - length (d_funcs (d_bc c)))%nat; [|done]. injection Hg as <-. by rewrite E1.
  - etrans; [exact G|]. intros i a Ha. exists a. simpl. split; [by apply lookup_app_l_Some|done].
Qed.

Lemma keeps_openFunction p s a b : keeps (openFunction p s a b).
Proof.
  unfold openFunction. apply keeps_bind.
  { intros c x c' H [= _ <-]. destruct (d_funcs (d_bc c)) as [|f l] eqn:Ef; [|done].
    split; [|by apply aux_same]. eapply same_ok; [|exact H]. by split; simpl. }
  intros _. apply keeps_bind; [apply keeps_open_debug|]. intros _.
  intros c x c' H E. unfold rbind at 1, rget in E. simpl in E.
  unfold rbind at 1, rmod at 1 in E.
  set (c1 := warn _ _ c) in E. assert (S1 : same_state c c1) by apply same_warn.
  destruct S1 as (F1 & F2 & F3 & F4).
  rewrite <- F1 in E. apply keeps_push in E; try done.
  - destruct E as [E1 E2]. split; [done|]. intros j d Hd. apply E2. by rewrite F3.
  - by eapply same_ok; [apply same_warn|].
Qed.

Lemma keeps_closeFunction n : keeps (closeFunction n).
Proof.
  intros c x c' H E. unfold closeFunction in E. destruct (top c) as [i|] eqn:Ht; [|done]. simpl in E.
  destruct (d_funcs (d_bc c) !! i) as [f|] eqn:Hf; [|done]. simpl in E.
  destruct (d_aux c !! i) as [a|] eqn:Ha; [|done]. cbn [mbind option_bind] in E. cbv zeta in E.
  set (c1 := mod_fn c i _) in E. set (c2 := warn _ _ c1) in E.
  assert (H1 : composer_ok c1) by (apply ok_mod_fn; [done|by intros g Hg]).
  assert (S2 : same_state c1 c2) by apply same_warn. pose proof (same_ok _ _ S2 H1) as H2.
  match type of E with Some (_, ?c3) = _ => assert (c' = c3) as -> by congruence end.
  clearbody c2. destruct S2 as (F1 & F2 & F3 & F4). split.
  - destruct H2 as [G1 G2 G3 G4 G5 G6]. split; simpl; try done.
    + destruct (d_fstack (d_bc c2)); [done|]. by inversion G2.
    + destruct (d_fstack (d_bc c2)); [done|]. by inversion G3.
    + intros j g Hj. apply G5. destruct (d_fstack (d_bc c2)); [done|by constructor].
  - intros j d Hd. exists d. simpl. by rewrite F3.
Qed.


(** ** Sequences of calls *)

Definition void {A} (m : CM A) : CM unit := _ <~ m; rret tt.

(** The methods that change the composer, [clear] and the settings excepted. *)
Inductive call : CM unit -> Prop :=
  | call_open p s a b : call (void (openFunction p s a b))
  | call_close n : call (void (closeFunction n))
  | call_addAbc op a b c line : call (void (addAbc op a b c line))
  | call_addAd op a d line : call (void (addAd op a d line))
  | call_patch pc off : call (void (patch pc off))
  | call_patch_here label : call (void (patch_here label))
  | call_jumpToLoop label base line : call (void (jumpToLoop label base line))
  | call_const v : call (void (getConstSlot v))
  | call_local n : call (void (getLocalSlot n))
  | call_upvals l : call (setUpvals l)
  | call_vars l : call (setVarNames l)
  | call_ADD_NV d l r line : call (void (ADD_NV d l r line))
  | call_ADD_VN d l r line : call (void (ADD_VN d l r line))
  | call_ADD_VV d l r line : call (void (ADD_VV d l r line))
  | call_SUB_NV d l r line : call (void (SUB_NV d l r line))
  | call_SUB_VN d l r line : call (void (SUB_VN d l r line))
  | call_SUB_VV d l r line : call (void (SUB_VV d l r line))
  | call_MUL_NV d l r line : call (void (MUL_NV d l r line))
  | call_MUL_VN d l r line : call (void (MUL_VN d l r line))
  | call_MUL_VV d l r line : call (void (MUL_VV d l r line))
  | call_DIV_NV d l r line : call (void (DIV_NV d l r line))
  | call_DIV_VN d l r line : call (void (DIV_VN d l r line))
  | call_DIV_VV d l r line : call (void (DIV_VV d l r line))
  | call_MOD_NV d l r line : call (void (MOD_NV d l r line))
  | call_MOD_VN d l r line : call (void (MOD_VN d l r line))
  | call_MOD_VV d l r line : call (void (MOD_VV d l r line))
  | call_TDUP d t line : call (void (TDUP d t line))
  | call_TGET_V t u i line : call (void (TGET_V t u i line))
  | call_TGET_S t u n line : call (void (TGET_S t u n line))
  | call_TGETi t u i line : call (void (TGETi t u i line))
  | call_FNEW d f line : call (void (FNEW d f line))
  | call_FORI b o line : call (void (FORI b o line))
  | call_FORL b o line : call (void (FORL b o line))
  | call_CALL s r a line : call (void (CALL s r a line))
  | call_CALLT s a line : call (void (CALLT s a line))
  | call_CAT d f t line : call (void (CAT d f t line))
  | call_KSET d v line : call (void (KSET d v line))
  | call_LEN l r line : call (void (LEN l r line))
  | call_LOOP b o line : call (void (LOOP b o line))
  | call_MOV l r line : call (void (MOV l r line))
  | call_NOT l r line : call (void (NOT l r line))
  | call_POW d l r line : call (void (POW d l r line))
  | call_RET s n line : call (void (RET s n line))
  | call_RET_0 line : call (void (RET_0 line))
  | call_TNEW s a h line : call (void (TNEW s a h line))
  | call_TSET_V v t i line : call (void (TSET_V v t i line))
  | call_TSETi v t i line : call (void (TSETi v t i line))
  | call_TSET_S v t i line : call (void (TSET_S v t i line))
  | call_UCLO s o line : call (void (UCLO s o line))
  | call_UGET t u line : call (void (UGET t u line))
  | call_USET_V u r line : call (void (USET_V u r line))
  | call_USET_K u r line : call (void (USET_K u r line))
  | call_UNM l r line : call (void (UNM l r line))
  | call_GGET t n line : call (void (GGET t n line))
  | call_GSET v n line : call (void (GSET v n line))
  | call_ISGE l r line : call (void (ISGE l r line))
  | call_ISGT l r line : call (void (ISGT l r line))
  | call_ISLE l r line : call (void (ISLE l r line))
  | call_ISLT l r line : call (void (ISLT l r line))
  | call_ISEQ_K l r line : call (void (ISEQ_K l r line))
  | call_ISEQ_V l r line : call (void (ISEQ_V l r line))
  | call_ISNE_K l r line : call (void (ISNE_K l r line))
  | call_ISNE_V l r line : call (void (ISNE_V l r line))
  | call_ISF s line : call (void (ISF s line))
  | call_ISFC l r line : call (void (ISFC l r line))
  | call_IST s line : call (void (IST s line))
  | call_ISTC l r line : call (void (ISTC l r line))
  | call_JMP b o line : call (void (JMP b o line))
  | call_KNIL b n line : call (void (KNIL b n line)).

(** The calls one after the other. *)
Fixpoint run (ms : list (CM unit)) (c : JitComposer) : option JitComposer :=
  match ms with
  | [] => Some c
  | m :: ms => '(_, c) ← m c; run ms c
  end.

Create HintDb keeps.
#[local] Hint Resolve keeps_ret keeps_fail keeps_get keeps_getConstSlot keeps_getLocalSlot
  keeps_addAbc keeps_addAd keeps_patch keeps_patch_here keeps_setUpvals keeps_setVarNames
  keeps_openFunction keeps_closeFunction : keeps.

Ltac keep :=
  repeat (first [ solve [auto with keeps] | apply keeps_bind; [|intros ?] | apply keeps_if
                | case_match ]).

Lemma call_keeps m : call m -> keeps m.
Proof.
  intros H. destruct H; unfold void; try (apply keeps_bind; [|intros; apply keeps_ret]);
    auto with keeps;
    unfold jumpToLoop, ADD_NV, ADD_VN, ADD_VV, SUB_NV, SUB_VN, SUB_VV, MUL_NV, MUL_VN, MUL_VV,
      DIV_NV, DIV_VN, DIV_VV, MOD_NV, MOD_VN, MOD_VV, with_number, TDUP, TGET_V, TGET_S, TGETi,
      FNEW, FORI, FORL, CALL, CALLT, CAT, KSET, LEN, LOOP, MOV, NOT, POW, RET, RET_0, TNEW,
      TSET_V, TSETi, TSET_S, UCLO, UGET, USET_V, USET_K, UNM, GGET, GSET, ISGE, ISGT, ISLE, ISLT,
      ISEQ_K, ISEQ_V, ISNE_K, ISNE_V, ISF, ISFC, IST, ISTC, JMP, KNIL; keep.
Qed.

Lemma run_keeps ms c c' :
  Forall call ms -> composer_ok c -> run ms c = Some c' -> composer_ok c' /\ aux_grows c c'.
Proof.
  intros Hms. revert c. induction Hms as [|m ms Hm Hms IH]; intros c H E; simpl in E.
  - by injection E as <-.
  - destruct (m c) as [[x c1]|] eqn:Em; [|done]. simpl in E.
    destruct (call_keeps _ Hm _ _ _ H Em) as [H1 G1]. destruct (IH _ H1 E) as [H2 G2].
    split; [done|by etrans].
Qed.

Lemma new_composer_ok : composer_ok new_composer.
Proof. split; simpl; try done; constructor. Qed.


(** [C3] The slot [getConstSlot] gives for a constant is where the closed function
    has that constant, or an equal one, whatever calls come in between: the number
    constants from the start of their table, the others from its end. *)
Theorem const_slot_found c i v slot c1 ms c2 frameSize b c3 :
  composer_ok c -> top c = Some i -> getConstSlot v c = Some (slot, c1) ->
  Forall call ms -> run ms c1 = Some c2 -> top c2 = Some i ->
  closeFunction frameSize c2 = Some (b, c3) ->
  exists f k, d_funcs (d_bc c3) !! i = Some f /\ (k = v \/ key_eqb k v = true) /\ 0 <= slot /\
    if isNumber v then d_constNums f !! Z.to_nat slot = Some k
    else d_constObjs f !! (length (d_constObjs f) - Z.to_nat slot - 1)%nat = Some k.
Proof.
  intros Hc Ht Hs Hms Hrun Ht2 Hcl.
  pose proof (keeps_getConstSlot _ _ _ _ Hc Hs) as [Hc1 _].
  destruct (run_keeps _ _ _ Hms Hc1 Hrun) as [Hc2 G].
  unfold getConstSlot in Hs. rewrite Ht in Hs.
  destruct (d_aux c !! i) as [a|] eqn:Ha; [|done]. cbn [mbind option_bind] in Hs.
  destruct (co_tables _ Hc _ _ Ha) as [Hg Hn]. pose proof (lookup_lt_Some _ _ _ Ha) as Hlt.
  unfold closeFunction in Hcl. rewrite Ht2 in Hcl. cbn [mbind option_bind] in Hcl.
  destruct (d_funcs (d_bc c2) !! i) as [f2|] eqn:Hf2; [|done]. cbn [mbind option_bind] in Hcl.
  destruct (d_aux c2 !! i) as [a2|] eqn:Ha2; [|done]. cbn [mbind option_bind] in Hcl. cbv zeta in Hcl.
  destruct (co_tables _ Hc2 _ _ Ha2) as [Hg2 Hn2].
  set (c2' := mod_fn c2 i _) in Hcl.
  assert (Hf3 : d_funcs (d_bc c3) !! i =
    Some (set_closed frameSize (object_table (d_gcConst a2)) (number_table (d_numConst a2)) f2)).
  { injection Hcl as _ <-. simpl. rewrite warn_funcs. by apply lookup_top. }
  destruct (isNumber v) eqn:Hv.
  - pose proof (slot_of_spec v _ Hn) as Hspec. destruct (slot_of v (d_numConst a)) as [s t].
    destruct Hspec as (_ & _ & k & Hk & Heq). injection Hs as <- <-.
    destruct (G i (mkFuncAux (d_gcConst a) t (d_var a))) as (a' & Ha' & _ & [rest Hp]);
      [by apply list_lookup_insert_eq|]. simpl in Hp. assert (a' = a2) as -> by congruence.
    assert (Hk2 : (k, s) ∈ d_numConst a2) by (rewrite Hp; apply elem_of_app; by left).
    destruct (tables_lookup _ _ _ Hn2 Hk2) as (H1 & _).
    do 2 eexists. split; [exact Hf3|]. split; [exact Heq|]. split; [lia|]. simpl. by rewrite Nat2Z.id.
  - pose proof (slot_of_spec v _ Hg) as Hspec. destruct (slot_of v (d_gcConst a)) as [s t].
    destruct Hspec as (_ & _ & k & Hk & Heq). injection Hs as <- <-.
    destruct (G i (mkFuncAux t (d_numConst a) (d_var a))) as (a' & Ha' & [rest Hp] & _);
      [by apply list_lookup_insert_eq|]. simpl in Hp. assert (a' = a2) as -> by congruence.
    assert (Hk2 : (k, s) ∈ d_gcConst a2) by (rewrite Hp; apply elem_of_app; by left).
    destruct (tables_lookup _ _ _ Hg2 Hk2) as (_ & _ & H1 & H2).
    do 2 eexists. split; [exact Hf3|]. split; [exact Heq|]. split; [lia|]. simpl.
    by rewrite Nat2Z.id, H2.
Qed.

End Composer.

(** ** Examples *)

(** [local a = 5 while a do a = a - 1.5 end], with lines. *)
Definition ex_calls : list (CM unit) := [
  void (openFunction (Q:=Qt_example) 0 (qb "t.lua") 4097 12288);
  void (KSET (Q:=Qt_example) (L:=LuaJIT20) 0 (QInt 5) 4098);
  void (LOOP (L:=LuaJIT20) 1 0 4099);
  void (SUB_VN (Q:=Qt_example) (L:=LuaJIT20) 0 0 (QDouble 0x3ff8000000000000) 8193)].

Definition ex_composed : JitComposer :=
  match run ex_calls new_composer with Some c => c | None => new_composer end.

Lemma ex_calls_ok : Forall (call (Q:=Qt_example) (L:=LuaJIT20)) ex_calls.
Proof.
  apply Forall_cons; split; [apply call_open|]. apply Forall_cons; split; [apply call_KSET|].
  apply Forall_cons; split; [apply call_LOOP|]. apply Forall_cons; split; [apply call_SUB_VN|].
  constructor.
Qed.


Lemma addOp_decodes_witness :
  exists c' w, addOpImp (L:=LuaJIT20) OP_ADDVV 1 2 3 4100 ex_composed = Some (true, c') /\
    appended ex_composed c' w /\ decodes (L:=LuaJIT20) w OP_ADDVV 1 2 3.
Proof.
  eexists. match goal with |- exists w, ?a = Some (true, ?c) /\ _ =>
    destruct (addOp_decodes (L:=LuaJIT20) (LL:=LuaJIT20_laws) OP_ADDVV 1 2 3 4100 ex_composed c)
      as (w & H) end; [discriminate|lia..|vm_compute; reflexivity|].
  exists w. split; [vm_compute; reflexivity|exact H].
Defined.

Lemma addOp_refused_witness :
  addOpImp (L:=LuaJIT20) OP_ADDVV 1 2 300 4100 ex_composed = Some (false, ex_composed).
Proof.
  apply (addOp_refused (L:=LuaJIT20) (LL:=LuaJIT20_laws)); [discriminate|]. split; [done|].
  right. split; [vm_compute; discriminate|lia].
Defined.

Definition ex_code : Function := default example_fn (d_funcs (d_bc ex_composed) !! 0%nat).
Definition ex_loop : Z := word_ad (Op_val OP_LOOP) 1 0.

Lemma jumpToLoop_targets_witness :
  let n := length (d_byteCodes ex_code) in n = 3%nat /\
  exists c' f' j w', jumpToLoop (L:=LuaJIT20) (Z.of_nat 1) 1 8194 ex_composed = Some (true, c') /\
    d_funcs (d_bc c') !! 0%nat = Some f' /\
    d_byteCodes f' = <[1%nat := w']> (d_byteCodes ex_code) ++ [j] /\
    d_op (dissectInstruction (L:=LuaJIT20) j) = Op_val OP_JMP /\
    Z.of_nat n + 1 + getCd (dissectInstruction (L:=LuaJIT20) j) = Z.of_nat 1 /\
    d_op (dissectInstruction (L:=LuaJIT20) w') = Op_val OP_LOOP /\
    Z.of_nat 1 + 1 + getCd (dissectInstruction (L:=LuaJIT20) w') = Z.of_nat n.
Proof.
  split; [vm_compute; reflexivity|].
  apply (jumpToLoop_targets (L:=LuaJIT20) (LL:=LuaJIT20_laws) ex_composed 0 ex_code 1 ex_loop 1 8194).
  - vm_compute; reflexivity.
  - vm_compute; reflexivity.
  - vm_compute; reflexivity.
  - vm_compute. split; congruence.
  - vm_compute; reflexivity.
  - vm_compute. reflexivity.
Defined.


Lemma const_slot_found_witness :
  exists c3 f k,
    closeFunction (Q:=Qt_example) (L:=LuaJIT20) 2 ex_composed = Some (false, c3) /\
    d_funcs (d_bc c3) !! 0%nat = Some f /\
    (k = QDouble 0x3ff8000000000000 \/
     key_eqb (QtLib:=Qt_example) k (QDouble 0x3ff8000000000000) = true) /\ 0 <= 0 /\
    d_constNums f !! Z.to_nat 0 = Some k.
Proof.
  eexists. match goal with |- exists f k, ?a = Some (_, ?c) /\ _ =>
    destruct (const_slot_found (Q:=Qt_example) (L:=LuaJIT20)
      (QL:=Qt_example_laws) ex_composed 0 (QDouble 0x3ff8000000000000) 0 ex_composed [] ex_composed
      2 false c) as (f & k & H) end.
  - apply (proj1 (run_keeps (Q:=Qt_example) (L:=LuaJIT20) ex_calls new_composer ex_composed ex_calls_ok new_composer_ok
      ltac:(vm_compute; reflexivity))).
  - vm_compute; reflexivity.
  - vm_compute; reflexivity.
  - constructor.
  - reflexivity.
  - vm_compute; reflexivity.
  - vm_compute; reflexivity.
  - exists f, k. split; [vm_compute; reflexivity|exact H].
Defined.
