(* ===== verification/Disasm.v ===== *)
(** * The disassembler

    [Disasm] of [LjDisasm.h/.cpp]: functions of a bytecode file as texts for the
    assembler.  What a [QTextStream] with the codec UTF-8 gets is the list of the bytes it
    puts; the functions on the heap change, since [calcVarNames] keeps its result in them.
    The static members of [JitComposer] are those of a composer. *)

From S2P Require Import Prelude Double Bytecode QtLib BytecodeIO Composer.
From Stdlib Require Import Strings.Byte.
Local Open Scope Z_scope.
Local Open Scope rd_scope.

(** What the disassembler needs of Qt beyond [QtLib]: [QByteArray::number(double)] and
    the codec of the locale. *)
Class DisLib := {
  number_double : dbl -> bytes;
  toLocal8Bit : QString -> bytes
}.

(** ** Operations *)

(** [src/LjDisasm.h:33-54] OP *)
Inductive OP : Type :=
  | INVALID | O_ISLT | O_ISGE | O_ISLE | O_ISGT | O_ISEQ | O_ISNE | O_ISTC | O_ISFC | O_IST | O_ISF
  | O_MOV | O_NOT | O_UNM | O_LEN | O_ADD | O_SUB | O_MUL | O_DIV | O_MOD | O_POW | O_CAT
  | O_KSET | O_KNIL | O_UGET | O_USET | O_UCLO | O_FNEW | O_TNEW | O_TDUP | O_GGET | O_GSET
  | O_TGET | O_TSET | O_CALL | O_CALLT | O_RET | O_FORI | O_FORL | O_LOOP | O_JMP.

#[export] Instance OP_eq_dec : EqDecision OP.
Proof. solve_decision. Defined.

(** [src/LjDisasm.cpp:30-51] s_opName *)
Definition s_opName (op : OP) : bytes :=
  match op with
  | INVALID => qb "???"
  | O_ISLT => qb "ISLT" | O_ISGE => qb "ISGE" | O_ISLE => qb "ISLE" | O_ISGT => qb "ISGT"
  | O_ISEQ => qb "ISEQ" | O_ISNE => qb "ISNE"
  | O_ISTC => qb "ISTC" | O_ISFC => qb "ISFC" | O_IST => qb "IST" | O_ISF => qb "ISF"
  | O_MOV => qb "MOV" | O_NOT => qb "NOT" | O_UNM => qb "UNM" | O_LEN => qb "LEN"
  | O_ADD => qb "ADD" | O_SUB => qb "SUB" | O_MUL => qb "MUL" | O_DIV => qb "DIV" | O_MOD => qb "MOD"
  | O_POW => qb "POW" | O_CAT => qb "CAT" | O_KSET => qb "KSET" | O_KNIL => qb "KNIL"
  | O_UGET => qb "UGET" | O_USET => qb "USET" | O_UCLO => qb "UCLO" | O_FNEW => qb "FNEW"
  | O_TNEW => qb "TNEW" | O_TDUP => qb "TDUP" | O_GGET => qb "GGET" | O_GSET => qb "GSET"
  | O_TGET => qb "TGET" | O_TSET => qb "TSET" | O_CALL => qb "CALL" | O_CALLT => qb "CALLT"
  | O_RET => qb "RET" | O_FORI => qb "FORI" | O_FORL => qb "FORL" | O_LOOP => qb "LOOP" | O_JMP => qb "JMP"
  end.

(** [src/LjDisasm.cpp:53-95] s_opHelp *)
Definition s_opHelp (op : OP) : bytes :=
  match op with
  | INVALID => qb "operation not supported"
  | O_ISLT => qb "ISLT lhs:desig rhs:desig"
  | O_ISGE => qb "ISGE lhs:desig rhs:desig"
  | O_ISLE => qb "ISLE lhs:desig rhs:desig"
  | O_ISGT => qb "ISGT lhs:desig rhs:desig"
  | O_ISEQ => qb "ISEQ lhs:desig rhs:( desig | string | number | primitive )"
  | O_ISNE => qb "ISNE lhs:desig rhs:( desig | string | number | primitive )"
  | O_ISTC => qb "ISTC lhs:desig rhs:desig, copy rhs to lhs and jump, if rhs is true"
  | O_ISFC => qb "ISFC lhs:desig rhs:desig, copy rhs to lhs and jump, if rhs is false"
  | O_IST => qb "IST slot:desig, jump if slot is true"
  | O_ISF => qb "ISF slot:desig, jump if slot is false"
  | O_MOV => qb "MOV dst:desig src:desig"
  | O_NOT => qb "NOT dst:desig src:desig"
  | O_UNM => qb "UNM dst:desig src:desig"
  | O_LEN => qb "LEN dst:desig table:desig"
  | O_ADD => qb "ADD dst:desig lhs:( desig | number ) rhs:( desig | number )"
  | O_SUB => qb "SUB dst:desig lhs:( desig | number ) rhs:( desig | number )"
  | O_MUL => qb "MUL dst:desig lhs:( desig | number ) rhs:( desig | number )"
  | O_DIV => qb "DIV dst:desig lhs:( desig | number ) rhs:( desig | number )"
  | O_MOD => qb "MOD dst:desig lhs:( desig | number ) rhs:( desig | number )"
  | O_POW => qb "POW dst:desig lhs:desig rhs:desig, dst = lhs ^ rhs"
  | O_CAT => qb "CAT dst:desig from:desig [ len:posint ], dst = from .. ~ .. from + len - 1"
  | O_KSET => qb "KSET dst:desig const:( string | number | primitive | cname )"
  | O_KNIL => qb "KNIL from:desig [ len:posint ], Set slots from to from + len - 1 to nil"
  | O_UGET => qb "UGET dst:desig uv:desig"
  | O_USET => qb "USET uv:desig src:( string | number | primitive | desig )"
  | O_UCLO => qb "UCLO from:desig [ label ], Close upvalues for slots ≥ from and jump to label"
  | O_FNEW => qb "FNEW dst:desig fname"
  | O_TNEW => qb "TNEW dst:desig [ arraySize:posint [ hashSize:posint ] ]"
  | O_TDUP => qb "TDUP dst:desig src:( cname | table_literal )"
  | O_GGET => qb "GGET dst:desig index:( string | cname )"
  | O_GSET => qb "GSET src:desig index:( string | cname )"
  | O_TGET => qb "TGET dst:desig table:desig index:( desig | string | posint )"
  | O_TSET => qb "TSET src:desig table:desig index:( desig | string | posint )"
  | O_CALL => qb "CALL slots:desig [ numOfReturns:posint [ numOfArgs:posint ] ]"
  | O_CALLT => qb "CALLT slots:desig [ numOfArgs:posint ]"
  | O_RET => qb "RET [ slots:desig [ numOfSlots:posint ] ]"
  | O_FORI => qb "FORI slots:desig label, slots=index,stop,step,index copy"
  | O_FORL => qb "FORL desig label"
  | O_LOOP => qb "LOOP"
  | O_JMP => qb "JMP label"
  end.

(** The operation of an opcode.
    [src/LjDisasm.cpp:115-248] adaptToLjasm *)
Definition ljasm_op (op : Op) : OP :=
  match op with
  | OP_ISLT => O_ISLT | OP_ISGE => O_ISGE | OP_ISLE => O_ISLE | OP_ISGT => O_ISGT
  | OP_ISTC => O_ISTC | OP_ISFC => O_ISFC | OP_IST => O_IST | OP_ISF => O_ISF
  | OP_MOV => O_MOV | OP_NOT => O_NOT | OP_UNM => O_UNM | OP_LEN => O_LEN | OP_POW => O_POW
  | OP_UGET => O_UGET | OP_UCLO => O_UCLO | OP_FNEW => O_FNEW | OP_TDUP => O_TDUP
  | OP_GGET => O_GGET | OP_GSET => O_GSET | OP_FORI => O_FORI | OP_FORL => O_FORL
  | OP_LOOP => O_LOOP | OP_JMP => O_JMP
  | OP_ISEQV | OP_ISEQS | OP_ISEQN | OP_ISEQP => O_ISEQ
  | OP_ISNEV | OP_ISNES | OP_ISNEN | OP_ISNEP => O_ISNE
  | OP_ADDVN | OP_ADDNV | OP_ADDVV => O_ADD
  | OP_SUBVN | OP_SUBNV | OP_SUBVV => O_SUB
  | OP_MULVN | OP_MULNV | OP_MULVV => O_MUL
  | OP_DIVVN | OP_DIVNV | OP_DIVVV => O_DIV
  | OP_MODVN | OP_MODNV | OP_MODVV => O_MOD
  | OP_KSTR | OP_KCDATA | OP_KSHORT | OP_KNUM | OP_KPRI => O_KSET
  | OP_USETV | OP_USETS | OP_USETN | OP_USETP => O_USET
  | OP_TGETV | OP_TGETS | OP_TGETB => O_TGET
  | OP_TSETV | OP_TSETS | OP_TSETB => O_TSET
  | OP_RET | OP_RET0 | OP_RET1 => O_RET
  | OP_KNIL => O_KNIL | OP_TNEW => O_TNEW | OP_CALL | OP_CALLM => O_CALL | OP_CALLT => O_CALLT
  | OP_CAT => O_CAT
  | _ => INVALID
  end.

(** The operands [b] and [cd] with their types; the fields have 16 bits. *)
Definition with_ops (b cd : Z) (ta tb tcd : FieldType) (i : Instruction) : Instruction :=
  {| d_name := d_name i; d_a := d_a i; d_b := u16 b; d_cd := u16 cd; d_ta := ta; d_tb := tb; d_tcd := tcd;
     d_op := d_op i |}.
Definition with_cd (cd : Z) (i : Instruction) : Instruction :=
  with_ops (d_b i) cd (d_ta i) (d_tb i) (d_tcd i) i.

(** The numbers of results and arguments, which are left out where they are 0.
    [src/LjDisasm.cpp:294-299] adaptToLjasm *)
Definition call_ops (b cd : Z) (i : Instruction) : Instruction :=
  with_ops b cd (d_ta i) (if (b =? 0) && (cd =? 0) then Unused else d_tb i) (if cd =? 0 then Unused else d_tcd i) i.

(** The operands as the assembler has them, and a warning.
    [src/LjDisasm.cpp:249-359] adaptToLjasm *)
Definition adapt_operands (op : Op) (i : Instruction) : Instruction * bytes :=
  let a := d_a i in let b := d_b i in let cd := d_cd i in
  let ta := d_ta i in let tb := d_tb i in let tcd := d_tcd i in
  match op with
  | OP_RET => (with_cd (cd - 1) i, [])
  | OP_RET0 => (with_ops b cd Unused tb Unused i, [])
  | OP_RET1 => (with_ops b cd ta tb Unused i, [])
  | OP_KNIL =>
      let n := u16 (cd - a + 1) in (with_ops b n ta tb (if n =? 1 then Unused else _lit) i, [])
  | OP_TNEW =>
      let n := Z.land cd 0x7ff in let h := Z.shiftr cd 11 in
      (with_ops n h ta (if (h =? 0) && (n =? 0) then Unused else _lit) (if h =? 0 then Unused else _lit) i, [])
  | OP_CALL =>
      let cd := u16 (cd - 1) in
      if 1 <=? b then (call_ops (b - 1) cd i, [])
      else (call_ops 1 cd i, qb "original second argument is MULTRES (not supported)")
  | OP_CALLM =>
      let w := qb "original is CALLM " ++ decimal b ++ qb " " ++ decimal cd ++ qb " (not supported)" in
      (call_ops (if 1 <=? b then b - 1 else 1) (if cd =? 0 then 1 else cd) i, w)
  | OP_CALLT => (with_cd (cd - 1) i, [])
  | OP_CALLMT =>
      (with_cd (if cd =? 0 then 1 else cd) i, qb "original is CALLMT " ++ decimal cd ++ qb " (not supported)")
  | OP_CAT =>
      let n := u16 (cd - b + 1) in (with_ops b n ta tb (if n =? 1 then Unused else _lit) i, [])
  | OP_TSETM | OP_RETM | OP_VARG | OP_ITERC | OP_ITERN | OP_ITERL | OP_JFORI | OP_IFORL | OP_JFORL
  | OP_IITERL | OP_JITERL | OP_ILOOP | OP_JLOOP | OP_ISNEXT => (i, qb "operator not supported")
  | _ => (i, [])
  end.

(** An opcode that is not one of the enumeration leaves the operation undefined.
    [src/LjDisasm.cpp:113-115] adaptToLjasm *)
Definition adaptToLjasm (i : Instruction) : option (Instruction * OP * bytes) :=
  op ← Op_of (d_op i);
  let '(i, w) := adapt_operands op i in
  Some (i, ljasm_op op, w).

(** [src/LjDisasm.cpp:363-371] adaptToLjasm *)
Definition adaptToLjasm_name (i : Instruction) : option (Instruction * bytes * bytes) :=
  '(i, op, w) ← adaptToLjasm i;
  Some (i, if bool_decide (op = INVALID) then d_name i else s_opName op, w).

(** ** Operands as texts *)

(** [src/LjDisasm.cpp:657-668] getPriConst *)
Definition getPriConst (i : Z) : bytes :=
  if i =? 1 then qb "false" else if i =? 2 then qb "true" else qb "nil".

(** [src/LjDisasm.cpp:674-683] escape *)
Definition escapes : list (bytes * bytes) :=
  [(qb "\", qb "\\"); ([x0a], qb "\n"); ([x07], qb "\a"); ([x08], qb "\b"); ([x0c], qb "\f");
   ([x0d], qb "\r"); ([x09], qb "\t"); ([x0b], qb "\v"); ([x22], [x5c; x22]); (qb "'", qb "\'")].
(** [src/LjDisasm.cpp:670-685] escape *)
Definition escape (str : bytes) : bytes :=
  match str with
  | x00 :: _ => []
  | _ => foldl (fun s r => qreplace (fst r) (snd r) s) str escapes
  end.

(** [src/LjDisasm.cpp:373-376] ws *)
Definition ws (level : nat) : bytes := replicate level x09.

(** [src/LjDisasm.cpp:378-385] varName *)
Definition dis_varName (name : bytes) (v : Z) : bytes := if startsWithPar name then qb "R" ++ decimal v else name.

Section Disasm.
Context `{Q : QtLib} `{L : LjBc} `{D : DisLib}.

(** [src/LjDisasm.cpp:687-698] tostring *)
Definition tostring (v : QVariant) : bytes :=
  match v with
  | QByteArray s => [x22] ++ escape s ++ [x22]
  | QText s => [x22] ++ toUtf8 s ++ [x22]
  | _ => if isNumber v then number_double (toDouble v) else toByteArray v
  end.

(** A byte array that is streamed as UTF-8 and in the codec of the locale. *)
Definition streamed (s : bytes) : bytes := toUtf8 (fromUtf8 s).
Definition streamed_local (s : bytes) : bytes := toLocal8Bit (fromUtf8 s).

(** The texts with blanks between them. *)
Fixpoint blank_separated (l : list bytes) : bytes :=
  match l with [] => [] | [s] => s | s :: l => s ++ qb " " ++ blank_separated l end.

(** [src/LjDisasm.cpp:792-818] renderArg *)
Definition render_table (hash : list (QVariant * QVariant)) (arr : list QVariant) : bytes :=
  qb "{ " ++ blank_separated (map (fun v => streamed_local (tostring v)) arr) ++
  blank_separated (map (fun e => streamed_local (tostring (fst e)) ++ qb " = " ++ streamed_local (tostring (snd e)))
                     (hash_order hash)) ++ qb " }".

(** A slot without a name.
    [src/LjDisasm.cpp:723-726] renderArg *)
Definition register (alt : bool) (v : Z) : bytes :=
  if alt then qb "[" ++ decimal v ++ qb "]" else qb "R" ++ decimal v.

(** The object at the negated index.
    [src/LjDisasm.cpp:731-732] renderArg *)
Definition gc_const (f : Function) (v : Z) : option QVariant :=
  if (0 <=? v) && (v <? Z.of_nat (length (d_constObjs f))) then
    d_constObjs f !! (length (d_constObjs f) - Z.to_nat v - 1)%nat
  else None.

(** [src/LjDisasm.cpp:713-728] renderArg *)
Definition render_slot (f : Function) (v : Z) (stripped alt : bool) : option bytes :=
  name ← (if stripped then Some []
          else if v <? Z.of_nat (length (d_varNames f)) then
            n ← (if v <? 0 then None else d_varNames f !! Z.to_nat v); Some (dis_varName n v)
          else Some (dis_varName [] v));
  Some (match name with [] => register alt v | _ => name end).

(** [src/LjDisasm.cpp:754-775] renderArg *)
Definition render_upval (h : Heap) (self : nat) (v : Z) (stripped alt : bool) : option bytes :=
  up ← getFuncSlotFromUpval (S (length h)) h self (u8 v);
  match up with
  | (_, None) => Some (qb "???")
  | (slot, Some o) =>
      g ← h !! o;
      let quali := if bool_decide (o = self) then [] else qb "F" ++ decimal (d_id g) ++ qb "." in
      match (if stripped then None else d_varNames g !! Z.to_nat slot) with
      | Some (c :: n) => Some (quali ++ c :: n)
      | _ => Some (quali ++ register alt slot)
      end
  end.

(** [src/LjDisasm.cpp:700-823] renderArg *)
Definition renderArg (h : Heap) (self : nat) (t : FieldType) (v pc : Z) (stripped alt : bool) : option bytes :=
  f ← h !! self;
  match t with
  | Unused | _cdata => Some []
  | _var | _dst | _base | _rbase => render_slot f v stripped alt
  | _str => Some (match gc_const f v with Some c => tostring c | None => qb "<invalid string>" end)
  | _num =>
      Some (if (0 <=? v) && (v <? Z.of_nat (length (d_constNums f))) then
              match d_constNums f !! Z.to_nat v with Some c => number_double (toDouble c) | None => [] end
            else qb "<invalid number>")
  | _pri => Some (getPriConst v)
  | _lit | _lits => Some (decimal v)
  | _jump => Some ((if alt then qb "->" else qb "__L") ++ decimal (pc + 1 + v))
  | _uv => render_upval h self v stripped alt
  | _func =>
      match gc_const f v with
      | Some (QFuncRef r) => g ← h !! r; Some (qb "F" ++ decimal (d_id g))
      | Some _ => Some []
      | None => Some (qb "<invalid const>")
      end
  | _tab =>
      Some (match gc_const f v with Some (QConstTable hash arr) => render_table hash arr | _ => qb "???" end)
  end.

(** ** Functions as texts *)

Abbreviation DM := (SM Heap).
Definition lift {A} (o : option A) : DM A := match o with Some x => rret x | None => rfail end.
Definition endl : bytes := [x0a].

(** The parameters of a function.
    [src/LjDisasm.cpp:399-415] writeFunc *)
Definition params_text (f : Function) (doStrip : bool) : bytes :=
  blank_separated (map (fun i =>
    match (if doStrip then None else d_varNames f !! i) with
    | Some name => streamed name
    | None => qb "R" ++ decimal (Z.of_nat i)
    end) (seq 0 (Z.to_nat (d_numparams f)))).

(** What is put out once a line gets long, and the rest of the line.
    [src/LjDisasm.cpp:515-519] writeFunc *)
Definition flush (level : nat) (out buf : bytes) : bytes * bytes :=
  if (80 <? Z.of_nat (length buf)) then (out ++ streamed buf ++ endl, ws (level + 2)) else (out, buf).

(** [src/LjDisasm.cpp:511-514] writeFunc *)
Definition alloc_text (alloc : bool) (i : nat) : bytes :=
  if alloc then qb "(" ++ decimal (Z.of_nat i) ++ qb ") " else qb " ".

(** The names of variables that are no parameters, each once.
    [src/LjDisasm.cpp:498-520] writeFunc *)
Fixpoint names_text (level : nat) (alloc : bool) (names : list bytes) (i : nat) (unique : list bytes) (out buf : bytes)
    : bytes * bytes :=
  match names with
  | [] => (out, buf)
  | name :: names =>
      if bool_decide (name = []) || startsWithPar name || bool_decide (name ∈ unique)
      then names_text level alloc names (S i) unique out buf
      else
        let '(out, buf) := flush level out (buf ++ name ++ alloc_text alloc i) in
        names_text level alloc names (S i) (name :: unique) out buf
  end.

(** The registers from [i] on.
    [src/LjDisasm.cpp:533-545] writeFunc *)
Fixpoint registers_text (level : nat) (alloc : bool) (n i : nat) (out buf : bytes) : bytes * bytes :=
  match n with
  | O => (out, buf)
  | S n =>
      let '(out, buf) := flush level out (buf ++ qb "R" ++ decimal (Z.of_nat i) ++ alloc_text alloc i) in
      registers_text level alloc n (S i) out buf
  end.

(** [src/LjDisasm.cpp:489-548] writeFunc *)
Definition vars_text (f : Function) (doStrip alloc : bool) (level : nat) : bytes :=
  if d_numparams f <? d_framesize f then
    let np := Z.to_nat (d_numparams f) in
    let named := negb doStrip && (np <? length (d_vars f))%nat in
    let buf := ws (level + 1) ++ qb "var" ++ [x09] in
    let '(out, buf) :=
      if named then
        let '(out, buf) := names_text level alloc (drop np (d_varNames f)) np [] [] (buf ++ qb "{ ") in
        (out, buf ++ qb "} ")
      else ([], buf) in
    let out := out ++ streamed buf in
    let '(out, buf) := if named then (out ++ endl, ws (level + 2)) else (out, []) in
    let '(out, buf) := registers_text level alloc (Z.to_nat (d_framesize f) - np) np out (buf ++ qb "{ ") in
    out ++ streamed (buf ++ qb "} ") ++ endl
  else [].

(** The positions that jumps lead to.
    [src/LjDisasm.cpp:591-597] writeFunc *)
Definition labels_of (codes : list Z) : list Z :=
  omap (fun e => let '(pc, w) := e in
    let bc := dissectInstruction w in
    if bool_decide (d_tcd bc = _jump) && negb (d_op bc =? Op_val OP_LOOP)
    then Some (u32 (Z.of_nat pc + 1 + getCd bc)) else None) (imap pair codes).

(** The operands of an instruction.
    [src/LjDisasm.cpp:614-628] writeFunc *)
Definition args_text (bc : Instruction) (a b c : bytes) : bytes :=
  if d_op bc =? Op_val OP_LOOP then []
  else if d_op bc =? Op_val OP_JMP then streamed c
  else concat (map (fun s => match s with [] => [] | _ => qb " " ++ streamed s end) [a; b; c]).

(** The line of an instruction, where it changes.
    [src/LjDisasm.cpp:635-646] writeFunc *)
Definition line_text (c : JitComposer) (f : Function) (pc : nat) (lastLine : Z) : option (bytes * Z) :=
  if fn_isStripped f then Some ([], lastLine)
  else
    line ← d_lines f !! pc;
    if lastLine =? line then Some ([], lastLine)
    else
      Some ([x09; x09] ++ qb "-- " ++
            (if isRowCol c then decimal (unpackRow c line) ++ qb ":" ++ decimal (unpackCol c line)
             else decimal line), line).

(** [src/LjDisasm.cpp:599-649] writeFunc *)
Fixpoint code_text (c : JitComposer) (h : Heap) (self : nat) (f : Function) (stripped : bool) (level : nat)
    (labels : list Z) (codes : list Z) (pc : nat) (lastLine : Z) : option bytes :=
  match codes with
  | [] => Some []
  | w :: codes =>
      let label := if bool_decide (Z.of_nat pc ∈ labels)
                   then ws level ++ qb "__L" ++ decimal (Z.of_nat pc) ++ qb ":" ++ endl else [] in
      '(bc, mnemonic, warning) ← adaptToLjasm_name (dissectInstruction w);
      a ← renderArg h self (d_ta bc) (d_a bc) (Z.of_nat pc) stripped false;
      b ← renderArg h self (d_tb bc) (d_b bc) (Z.of_nat pc) stripped false;
      cd ← renderArg h self (d_tcd bc) (getCd bc) (Z.of_nat pc) stripped false;
      '(lt, lastLine) ← line_text c f pc lastLine;
      rest ← code_text c h self f stripped level labels codes (S pc) lastLine;
      Some (label ++ ws (level + 1) ++ mnemonic ++ qb " " ++ args_text bc a b cd ++
            (match warning with [] => [] | _ => qb " -- WARNING " ++ warning end) ++ lt ++ endl ++ rest)
  end.

(** The functions among the constants, from the last one on.
    [src/LjDisasm.cpp:576-585] writeFunc *)
Fixpoint inner_text (rec : nat -> DM (option bytes)) (objs : list QVariant) (funCount : nat) : DM bytes :=
  match objs with
  | [] => rret []
  | QFuncRef g :: objs =>
      t <~ rec g;
      r <~ inner_text rec objs (S funCount);
      rret ((if (funCount =? 0)%nat then endl else []) ++ default [] t ++ r)
  | _ :: objs => inner_text rec objs funCount
  end.

(** The head of a function.
    [src/LjDisasm.cpp:394-423] writeFunc *)
Definition head_text (c : JitComposer) (f : Function) (doStrip : bool) (level : nat) : bytes :=
  ws level ++ qb "function F" ++ decimal (d_id f) ++ qb "(" ++ params_text f doStrip ++ qb ") " ++
  (if fn_isStripped f then []
   else [x09] ++ qb "-- lines " ++ decimal (unpackRow c (d_firstline f)) ++ qb " to " ++
        decimal (unpackRow c (lastLine f))) ++ endl.

(** [src/LjDisasm.cpp:575-655] writeFunc *)
Fixpoint writeFunc (c : JitComposer) (fuel : nat) (self : nat) (stripped alloc : bool) (level : nat) : DM (option bytes) :=
  match fuel with
  | O => rfail
  | S fuel =>
      _ <~ rmod (alter calcVarNames self);
      h <~ rget id;
      f <~ lift (h !! self);
      let doStrip := fn_isStripped f || stripped in
      let head := head_text c f doStrip level ++ vars_text f doStrip alloc level in
      inner <~ inner_text (fun g => writeFunc c fuel g stripped alloc (level + 1)) (rev (d_constObjs f)) 0;
      h <~ rget id;
      body <~ match d_byteCodes f with
              | [] => rret []
              | codes =>
                  t <~ lift (code_text c h self f stripped level (labels_of codes) codes 0 0);
                  rret (ws level ++ qb "begin" ++ endl ++ t)
              end;
      rret (Some (head ++ inner ++ body ++ ws level ++ qb "end F" ++ decimal (d_id f) ++ endl ++ endl))
  end.

(** [src/LjDisasm.cpp:98-111] disassemble *)
Definition disassemble (c : JitComposer) (bc : JitBytecode) (path : QString) (stripped alloc : bool)
    : option (bool * bytes * Heap) :=
  let head := qb "-- disassembled from " ++ (match path with [] => qb "Lua source" | _ => toUtf8 path end) ++ endl ++ endl in
  match getRoot bc with
  | None => Some (false, head, d_funcs bc)
  | Some r =>
      '(t, h) ← writeFunc c (S (length (d_funcs bc))) r stripped alloc 0 (d_funcs bc);
      Some (match t with Some _ => true | None => false end, head ++ default [] t, h)
  end.
End Disasm.
