(* ===== verification/TableHeap.v ===== *)
(** * The life time of tables

    [TableRef], [Table] and [collectGarbage] of [LuaJitEngine.h/.cpp].  A table is
    alive until [collectGarbage] finds no registered [TableRef] to it.  Here every
    [TableRef] object has an address, [TableRef::d_all] is the set of the registered
    ones, and a table has the addresses of the [TableRef] objects that are part of
    it: [d_metaTable] and those in the values of [d_hash].  [None] is undefined
    behaviour: a null or dangling pointer, or an object destroyed twice. *)

From S2P Require Import Prelude.
Local Open Scope Z_scope.
Local Open Scope rd_scope.

(** ** Data *)

(** [src/LuaJitEngine.h:93-98] d_all *)
Record TableObj := mkTableObj { m_marked : bool; m_user : bool; m_refs : list nat }.

(** The tables of [Table::d_all], the [TableRef] objects that exist with their
    [d_table], and [TableRef::d_all].
    [src/LuaJitEngine.cpp:27-28] d_all *)
Record TableHeap := mkTableHeap {
  h_tables : gmap nat TableObj;
  h_refs : gmap nat (option nat);
  h_all : gset nat
}.

(** The order in which a [QSet] is iterated. *)
Class SetOrder := { set_order : list nat -> list nat }.
Class SetOrderLaws (O : SetOrder) : Prop := { set_order_perm : forall l, set_order l ≡ₚ l }.

Definition set_ref (r : nat) (t : option nat) : SM TableHeap unit :=
  rmod (fun h => mkTableHeap (h_tables h) (<[r := t]> (h_refs h)) (h_all h)).
Definition register (r : nat) : SM TableHeap unit :=
  rmod (fun h => mkTableHeap (h_tables h) (h_refs h) ({[r]} ∪ h_all h)).
Definition unregister (r : nat) : SM TableHeap unit :=
  rmod (fun h => mkTableHeap (h_tables h) (h_refs h) (h_all h ∖ {[r]})).
Definition set_table (a : nat) (t : TableObj) : SM TableHeap unit :=
  rmod (fun h => mkTableHeap (<[a := t]> (h_tables h)) (h_refs h) (h_all h)).
Definition mwhen (b : bool) (m : SM TableHeap unit) : SM TableHeap unit := if b then m else rret tt.

(** A pointer or an object that has to exist. *)
Definition must {S A} (o : S -> option A) : SM S A := fun s => x ← o s; Some (x, s).

Definition notnull (t : option nat) : bool := match t with Some _ => true | None => false end.

(** ** Operations *)

(** The constructor from a table.
    [src/LuaJitEngine.h:43-47] TableRef *)
Definition TableRef_new (r : nat) (t : option nat) : SM TableHeap unit :=
  _ <~ set_ref r t; mwhen (notnull t) (register r).

(** [operator=]
    [src/LuaJitEngine.h:52-60] operator *)
Definition TableRef_assign (r rhs : nat) : SM TableHeap unit :=
  d <~ must (fun h => h_refs h !! r);
  d' <~ must (fun h => h_refs h !! rhs);
  _ <~ mwhen (notnull d && negb (notnull d')) (unregister r);
  _ <~ mwhen (negb (notnull d) && notnull d') (register r);
  set_ref r d'.

(** The copy constructor.
    [src/LuaJitEngine.h:48-51] TableRef *)
Definition TableRef_copy (r rhs : nat) : SM TableHeap unit :=
  _ <~ set_ref r None; TableRef_assign r rhs.

(** The destructor.
    [src/LuaJitEngine.h:61-65] TableRef *)
Definition TableRef_delete (r : nat) : SM TableHeap unit :=
  d <~ must (fun h => h_refs h !! r);
  _ <~ mwhen (notnull d) (unregister r);
  rmod (fun h => mkTableHeap (h_tables h) (delete r (h_refs h)) (h_all h)).

(** The constructor; [m] is the address of [d_metaTable].
    [src/LuaJitEngine.h:83-86] Table *)
Definition Table_new (a m : nat) : SM TableHeap unit :=
  _ <~ TableRef_new m None; set_table a (mkTableObj false false [m]).

(** [src/LuaJitEngine.cpp:1188-1192] allocateUserData *)
Definition Table_allocateUserData (a : nat) : SM TableHeap unit :=
  t <~ must (fun h => h_tables h !! a); set_table a (mkTableObj (m_marked t) true (m_refs t)).

(** An existing [TableRef] becomes a part of a value in [d_hash]. *)
Definition Table_store (a r : nat) : SM TableHeap unit :=
  t <~ must (fun h => h_tables h !! a); set_table a (mkTableObj (m_marked t) (m_user t) (r :: m_refs t)).

(** The destructor, and those of its members.
    [src/LuaJitEngine.h:87-92] Table *)
Definition Table_delete (a : nat) : SM TableHeap unit :=
  t <~ must (fun h => h_tables h !! a);
  _ <~ rmod (fun h => mkTableHeap (delete a (h_tables h)) (h_refs h) (h_all h));
  mfor (m_refs t) TableRef_delete.

Section Collect.
Context `{O : SetOrder}.

(** [src/LuaJitEngine.cpp:96-99] collectGarbage *)
Definition clear_marks : SM TableHeap unit :=
  rmod (fun h => mkTableHeap ((fun t => mkTableObj false (m_user t) (m_refs t)) <$> h_tables h)
                   (h_refs h) (h_all h)).

(** [src/LuaJitEngine.cpp:103-104] collectGarbage *)
Definition mark_ref (r : nat) : SM TableHeap unit :=
  a <~ must (fun h => d ← h_refs h !! r; d);
  t <~ must (fun h => h_tables h !! a);
  set_table a (mkTableObj true (m_user t) (m_refs t)).

Definition unmarked (h : TableHeap) : list nat :=
  (filter (fun at_ => m_marked at_.2 = false) (map_to_list (h_tables h))).*1.

(** [src/LuaJitEngine.cpp:94-115] collectGarbage *)
Definition collectGarbage : SM TableHeap unit :=
  _ <~ clear_marks;
  refs <~ rget (fun h => set_order (elements (h_all h)));
  _ <~ mfor refs mark_ref;
  toDelete <~ rget (fun h => set_order (unmarked h));
  mfor toDelete Table_delete.

End Collect.

(** ** Invariant *)

(** Exactly the references to a table are registered, they refer to tables that are
    alive, and every reference that is part of a table exists and is part of no
    other one. *)
Record heap_wf (h : TableHeap) : Prop := {
  wf_all : forall r, r ∈ h_all h <-> exists t, h_refs h !! r = Some (Some t);
  wf_alive : forall r t, h_refs h !! r = Some (Some t) -> is_Some (h_tables h !! t);
  wf_owned : forall a t r, h_tables h !! a = Some t -> r ∈ m_refs t -> is_Some (h_refs h !! r);
  wf_nodup : forall a t, h_tables h !! a = Some t -> NoDup (m_refs t);
  wf_disjoint : forall a b t u r, h_tables h !! a = Some t -> h_tables h !! b = Some u ->
    r ∈ m_refs t -> r ∈ m_refs u -> a = b
}.

(** A table that some reference names. *)
Definition referenced (h : TableHeap) (a : nat) : Prop := exists r, h_refs h !! r = Some (Some a).

(** The references that are part of no table: locals and temporaries of the program. *)
Definition free_ref (h : TableHeap) (r : nat) : Prop :=
  is_Some (h_refs h !! r) /\ forall a t, h_tables h !! a = Some t -> r ∉ m_refs t.

(** ** The operations on references *)
Lemma new_eval r t h :
  TableRef_new r t h = Some (tt, mkTableHeap (h_tables h) (<[r := t]> (h_refs h))
    (if notnull t then {[r]} ∪ h_all h else h_all h)).
Proof. by destruct t. Qed.

Lemma assign_eval r rhs d d' h :
  h_refs h !! r = Some d -> h_refs h !! rhs = Some d' ->
  TableRef_assign r rhs h = Some (tt, mkTableHeap (h_tables h) (<[r := d']> (h_refs h))
    (if notnull d' then if notnull d then h_all h else {[r]} ∪ h_all h
     else if notnull d then h_all h ∖ {[r]} else h_all h)).
Proof.
  intros Hd Hd'. unfold TableRef_assign, rbind, must, mwhen. rewrite Hd. cbn. rewrite Hd'. cbn.
  by destruct d, d'.
Qed.

Lemma delete_eval r d h :
  h_refs h !! r = Some d ->
  TableRef_delete r h = Some (tt, mkTableHeap (h_tables h) (delete r (h_refs h))
    (if notnull d then h_all h ∖ {[r]} else h_all h)).
Proof. intros Hd. unfold TableRef_delete, rbind, must, mwhen. rewrite Hd. cbn. by destruct d. Qed.

Lemma wf_set h r t all :
  heap_wf h -> (forall a, t = Some a -> is_Some (h_tables h !! a)) ->
  (forall r', r' ∈ all <-> if decide (r' = r) then is_Some t else r' ∈ h_all h) ->
  heap_wf (mkTableHeap (h_tables h) (<[r := t]> (h_refs h)) all).
Proof.
  intros [Ha Hl Ho Hn Hd] Ht Hall. split; simpl; try done.
  - intros r'. rewrite Hall. destruct (decide (r' = r)) as [->|Hne].
    + rewrite lookup_insert_eq. split; [intros [a ->]; by exists a|intros [a [= ->]]; by exists a].
    + rewrite lookup_insert_ne by done. apply Ha.
  - intros r' a. destruct (decide (r' = r)) as [->|Hne].
    + rewrite lookup_insert_eq. intros [= ->]. by apply Ht.
    + rewrite lookup_insert_ne by done. apply Hl.
  - intros a tb r' Htb Hr. destruct (decide (r' = r)) as [->|Hne].
    + rewrite lookup_insert_eq. by eexists.
    + rewrite lookup_insert_ne by done. by eapply Ho.
Qed.

Lemma wf_not_all h r : heap_wf h -> r ∈ h_all h -> exists t, h_refs h !! r = Some (Some t).
Proof. intros Hw. apply (wf_all _ Hw). Qed.

Lemma wf_new h r t :
  heap_wf h -> h_refs h !! r = None -> (forall a, t = Some a -> is_Some (h_tables h !! a)) ->
  exists h', TableRef_new r t h = Some (tt, h') /\ heap_wf h' /\ h_tables h' = h_tables h.
Proof.
  intros Hw Hr Ht. rewrite new_eval. eexists. split; [reflexivity|]. split; [|done].
  apply wf_set; try done. intros r'. pose proof (wf_all _ Hw r') as Hr'. clear Hw Ht.
  destruct t as [a|]; simpl; destruct (decide (r' = r)) as [->|Hne]; set_solver.
Qed.

Lemma wf_assign h r rhs d d' :
  heap_wf h -> h_refs h !! r = Some d -> h_refs h !! rhs = Some d' ->
  exists h', TableRef_assign r rhs h = Some (tt, h') /\ heap_wf h' /\ h_tables h' = h_tables h.
Proof.
  intros Hw Hd Hd'. rewrite (assign_eval _ _ _ _ _ Hd Hd'). eexists. split; [reflexivity|]. split; [|done].
  apply wf_set; [done| |].
  - intros a ->. by apply (wf_alive _ Hw _ _ Hd').
  - intros r'. pose proof (wf_all _ Hw r') as Hr'. clear Hw.
    destruct d as [a|], d' as [a'|]; simpl; destruct (decide (r' = r)) as [->|Hne]; set_solver.
Qed.

Lemma decide_cons {A} (x y : nat) l (u v : A) :
  (if decide (x ∈ y :: l) then u else v) =
  if decide (x = y) then u else if decide (x ∈ l) then u else v.
Proof.
  destruct (decide (x ∈ y :: l)) as [Hin|Hin]; rewrite elem_of_cons in Hin;
    destruct (decide (x = y)), (decide (x ∈ l)); tauto.
Qed.

(** A free reference can be destroyed. *)
Lemma wf_delete h r :
  heap_wf h -> free_ref h r ->
  exists h', TableRef_delete r h = Some (tt, h') /\ heap_wf h' /\ h_tables h' = h_tables h /\
             h_refs h' = delete r (h_refs h).
Proof.
  intros Hw [[d Hd] Hfree]. rewrite (delete_eval _ _ _ Hd). eexists. split; [reflexivity|]. split; [|done].
  destruct Hw as [Ha Hl Ho Hn Hdis]. split; simpl; try done.
  - intros r'. pose proof (Ha r') as Hr'. destruct (decide (r' = r)) as [->|Hne].
    + rewrite lookup_delete_eq. split; [|by intros [? ?]]. rewrite Hd in Hr'.
      destruct d; simpl; [set_solver|]. intros Hx. by apply Hr' in Hx as [? ?].
    + rewrite lookup_delete_ne by done. destruct d; simpl; set_solver.
  - intros r' a Hr'. apply lookup_delete_Some in Hr' as [_ Hr']. by apply (Hl r').
  - intros a t r' Ht Hr'. rewrite lookup_delete_ne; [by eapply Ho|]. intros ->. by eapply Hfree.
Qed.

Lemma wf_delete_list l : forall h,
  heap_wf h -> NoDup l -> Forall (free_ref h) l ->
  exists h', mfor l TableRef_delete h = Some (tt, h') /\ heap_wf h' /\ h_tables h' = h_tables h /\
    forall r, h_refs h' !! r = if decide (r ∈ l) then None else h_refs h !! r.
Proof.
  induction l as [|r l IH]; intros h Hw Hnd Hf; simpl.
  - exists h. split; [done|]. split; [done|]. split; [done|]. intros r. destruct (decide (r ∈ [])) as [Hin|]; [|done]. by apply not_elem_of_nil in Hin.
  - apply NoDup_cons in Hnd as [Hr Hnd]. apply Forall_cons in Hf as [Hf Hfl].
    destruct (wf_delete h r Hw Hf) as (h1 & E1 & Hw1 & Ht1 & Hr1).
    destruct (IH h1 Hw1 Hnd) as (h2 & E2 & Hw2 & Ht2 & Hr2).
    { apply Forall_forall. intros r' Hin. rewrite Forall_forall in Hfl.
      destruct (Hfl r' Hin) as [[d Hd] Hfree]. split.
      - rewrite Hr1, lookup_delete_ne; [by eexists|]. by intros ->.
      - rewrite Ht1. done. }
    exists h2. rewrite (rbind_Some _ _ _ _ _ E1). split; [done|]. split; [done|].
    split; [congruence|]. intros r'. rewrite Hr2, Hr1, decide_cons.
    destruct (decide (r' = r)) as [->|Hne]; [rewrite lookup_delete_eq|by rewrite lookup_delete_ne].
    by destruct (decide (r ∈ l)).
Qed.

(** ** The collector *)

(** The same tables up to their marks. *)
Definition same_tables (m m' : gmap nat TableObj) : Prop :=
  forall a, (fun t => (m_user t, m_refs t)) <$> m !! a = (fun t => (m_user t, m_refs t)) <$> m' !! a.

#[export] Instance same_tables_equiv : Equivalence same_tables.
Proof.
  split; [by intros m a|by intros m m' Hs a|].
  intros m1 m2 m3 H1 H2 a. by rewrite H1.
Qed.

Lemma same_tables_lookup m m' a t :
  same_tables m m' -> m !! a = Some t ->
  exists t', m' !! a = Some t' /\ m_user t' = m_user t /\ m_refs t' = m_refs t.
Proof.
  intros Hs Ht. specialize (Hs a). rewrite Ht in Hs. destruct (m' !! a) as [t'|]; [|done].
  injection Hs as Hu Hr. eauto.
Qed.

Lemma wf_same h m :
  heap_wf h -> same_tables (h_tables h) m -> heap_wf (mkTableHeap m (h_refs h) (h_all h)).
Proof.
  intros [Ha Hl Ho Hn Hd] Hs.
  assert (Hs' : same_tables m (h_tables h)) by by symmetry.
  split; simpl; try done.
  - intros r t Hr. destruct (Hl r t Hr) as [tb Htb].
    destruct (same_tables_lookup _ _ _ _ Hs Htb) as (t' & -> & _). by eexists.
  - intros a t r Ht Hr. destruct (same_tables_lookup _ _ _ _ Hs' Ht) as (t' & Ht' & _ & E).
    rewrite <- E in Hr. by eapply Ho.
  - intros a t Ht. destruct (same_tables_lookup _ _ _ _ Hs' Ht) as (t' & Ht' & _ & E).
    rewrite <- E. by eapply Hn.
  - intros a b t u r Ht Hu Hrt Hru.
    destruct (same_tables_lookup _ _ _ _ Hs' Ht) as (t' & Ht' & _ & E).
    destruct (same_tables_lookup _ _ _ _ Hs' Hu) as (u' & Hu' & _ & E').
    rewrite <- E in Hrt. rewrite <- E' in Hru. by eapply (Hd a b t' u').
Qed.

(** A table is marked when one of the references names it, or it was before. *)
Lemma mark_eval l : forall h,
  heap_wf h -> Forall (fun r => r ∈ h_all h) l ->
  exists m, mfor l mark_ref h = Some (tt, mkTableHeap m (h_refs h) (h_all h)) /\
    same_tables (h_tables h) m /\
    forall a t, m !! a = Some t -> m_marked t = true <->
      (exists t0, h_tables h !! a = Some t0 /\ m_marked t0 = true) \/
      Exists (fun r => h_refs h !! r = Some (Some a)) l.
Proof.
  induction l as [|r l IH]; intros h Hw Hl; cbn [mfor].
  - exists (h_tables h). split; [by destruct h|]. split; [done|]. intros a t Ht. rewrite Exists_nil. split.
    + intros Hm. left. by exists t.
    + intros [(t0 & Ht0 & Hm)|[]]. congruence.
  - apply Forall_cons in Hl as [Hr Hl]. apply (wf_all _ Hw) in Hr as [b Hb].
    destruct (wf_alive _ Hw _ _ Hb) as [tb Htb].
    set (tb' := mkTableObj true (m_user tb) (m_refs tb)).
    set (h1 := mkTableHeap (<[b := tb']> (h_tables h)) (h_refs h) (h_all h)).
    assert (E1 : mark_ref r h = Some (tt, h1)).
    { unfold mark_ref, rbind, must. rewrite Hb. cbn. by rewrite Htb. }
    assert (Hs1 : same_tables (h_tables h) (<[b := tb']> (h_tables h))).
    { intros a. destruct (decide (b = a)) as [<-|Hne].
      - by rewrite lookup_insert_eq, Htb.
      - by rewrite lookup_insert_ne. }
    destruct (IH h1) as (m & E & Hs & Hm); [by apply wf_same|done|].
    exists m. rewrite (rbind_Some _ _ _ _ _ E1). split; [exact E|]. split; [by etrans|].
    intros a t Ht. rewrite (Hm a t Ht), Exists_cons. simpl. destruct (decide (b = a)) as [<-|Hne].
    + rewrite lookup_insert_eq, Hb. split; intros _; [by right; left|]. left. by eexists.
    + rewrite lookup_insert_ne by done. rewrite Hb. split; [tauto|].
      intros [?|[[= ?]|?]]; [by left|done|by right].
Qed.

(** A table that no reference names can be deleted, with the references in it. *)
Lemma table_delete_wf h a t :
  heap_wf h -> h_tables h !! a = Some t -> ~ referenced h a ->
  exists h', Table_delete a h = Some (tt, h') /\ heap_wf h' /\
    h_tables h' = delete a (h_tables h) /\
    forall r, h_refs h' !! r = if decide (r ∈ m_refs t) then None else h_refs h !! r.
Proof.
  intros Hw Ht Hnr. set (h1 := mkTableHeap (delete a (h_tables h)) (h_refs h) (h_all h)).
  assert (Hw1 : heap_wf h1).
  { destruct Hw as [Ha Hl Ho Hn Hd]. split; simpl; try done.
    - intros r b Hr. rewrite lookup_delete_ne; [by eapply Hl|]. intros ->. apply Hnr. by exists r.
    - intros b u r Hu. apply lookup_delete_Some in Hu as [_ Hu]. by eapply Ho.
    - intros b u Hu. apply lookup_delete_Some in Hu as [_ Hu]. by eapply Hn.
    - intros b c u v r Hu Hv. apply lookup_delete_Some in Hu as [_ Hu].
      apply lookup_delete_Some in Hv as [_ Hv]. by eapply Hd. }
  destruct (wf_delete_list (m_refs t) h1 Hw1) as (h2 & E & Hw2 & Ht2 & Hr2).
  - by apply (wf_nodup _ Hw a).
  - apply Forall_forall. intros r Hr. split; [by apply (wf_owned _ Hw _ _ _ Ht Hr)|].
    simpl. intros b u Hu Hru. apply lookup_delete_Some in Hu as [Hne Hu]. apply Hne.
    by eapply (wf_disjoint _ Hw a b).
  - exists h2. split; [|done]. unfold Table_delete, must. unfold rbind at 1. rewrite Ht. cbn [mbind option_bind].
    exact E.
Qed.

(** What deleting a list of unreferenced tables leaves. *)
Lemma sweep_eval l : forall h,
  heap_wf h -> NoDup l -> Forall (fun a => is_Some (h_tables h !! a) /\ ~ referenced h a) l ->
  exists h', mfor l Table_delete h = Some (tt, h') /\ heap_wf h' /\
    (forall a, h_tables h' !! a = if decide (a ∈ l) then None else h_tables h !! a) /\
    (forall r, h_refs h' !! r = h_refs h !! r \/
       (h_refs h' !! r = None /\ exists a t, a ∈ l /\ h_tables h !! a = Some t /\ r ∈ m_refs t)).
Proof.
  induction l as [|a l IH]; intros h Hw Hnd Hl; cbn [mfor].
  - exists h. split; [done|]. split; [done|]. split; [|by left].
    intros a. destruct (decide (a ∈ [])) as [Hin|]; [|done]. by apply not_elem_of_nil in Hin.
  - apply NoDup_cons in Hnd as [Ha Hnd]. apply Forall_cons in Hl as [[[t Ht] Hnr] Hl].
    destruct (table_delete_wf h a t Hw Ht Hnr) as (h1 & E1 & Hw1 & Ht1 & Hr1).
    destruct (IH h1 Hw1 Hnd) as (h2 & E2 & Hw2 & Ht2 & Hr2).
    { apply Forall_forall. intros b Hb. rewrite Forall_forall in Hl. destruct (Hl b Hb) as [Hb1 Hb2]. split.
      - rewrite Ht1, lookup_delete_ne; [done|]. by intros ->.
      - intros [r Hr]. apply Hb2. exists r. rewrite Hr1 in Hr. by destruct (decide (r ∈ m_refs t)). }
    exists h2. rewrite (rbind_Some _ _ _ _ _ E1). split; [exact E2|]. split; [done|]. split.
    + intros b. rewrite Ht2, Ht1, decide_cons.
      destruct (decide (b = a)) as [->|Hne]; [rewrite lookup_delete_eq|by rewrite lookup_delete_ne].
      by destruct (decide (a ∈ l)).
    + intros r. destruct (Hr2 r) as [E|(E & b & u & Hb & Hu & Hru)].
      * rewrite E, Hr1. destruct (decide (r ∈ m_refs t)); [|by left]. right. split; [done|].
        exists a, t. split; [by left|done].
      * right. split; [done|]. exists b, u. split; [by right|]. split; [|done].
        rewrite Ht1 in Hu. by apply lookup_delete_Some in Hu as [_ Hu].
Qed.

Lemma clear_same m : same_tables m ((fun t => mkTableObj false (m_user t) (m_refs t)) <$> m).
Proof. intros a. rewrite lookup_fmap. by destruct (m !! a). Qed.

Lemma unmarked_spec h a :
  a ∈ unmarked h <-> exists t, h_tables h !! a = Some t /\ m_marked t = false.
Proof.
  unfold unmarked. rewrite list_elem_of_fmap. split.
  - intros ([b t] & -> & [Hm Hin]%list_elem_of_filter). apply elem_of_map_to_list in Hin. by exists t.
  - intros (t & Ht & Hm). exists (a, t). split; [done|]. apply list_elem_of_filter.
    split; [done|]. by apply elem_of_map_to_list.
Qed.

Lemma unmarked_nodup h : NoDup (unmarked h).
Proof.
  unfold unmarked. apply NoDup_fmap_fst.
  - intros a t u [_ Ht]%list_elem_of_filter [_ Hu]%list_elem_of_filter.
    apply elem_of_map_to_list in Ht, Hu. congruence.
  - apply NoDup_filter, NoDup_map_to_list.
Qed.

(** Marking: afterwards exactly the referenced tables are marked. *)
Lemma marked_eval `{O : SetOrder} `{OL : !SetOrderLaws O} h :
  heap_wf h ->
  exists m, (_ <~ clear_marks; refs <~ rget (fun h => set_order (elements (h_all h))); mfor refs mark_ref) h
      = Some (tt, mkTableHeap m (h_refs h) (h_all h)) /\
    same_tables (h_tables h) m /\
    forall a t, m !! a = Some t -> m_marked t = true <-> referenced h a.
Proof.
  intros Hw. set (h1 := mkTableHeap ((fun t => mkTableObj false (m_user t) (m_refs t)) <$> h_tables h)
                         (h_refs h) (h_all h)).
  assert (Hw1 : heap_wf h1) by apply (wf_same _ _ Hw (clear_same _)).
  destruct (mark_eval (set_order (elements (h_all h))) h1 Hw1) as (m & E & Hs & Hm).
  { rewrite set_order_perm. apply Forall_forall. intros r. by rewrite elem_of_elements. }
  exists m. split; [exact E|]. split; [etrans; [apply clear_same|exact Hs]|].
  intros a t Ht. rewrite (Hm a t Ht). simpl. rewrite set_order_perm, Exists_exists. split.
  - intros [(t0 & Ht0 & Hmk)|(r & _ & Hr)]; [|by exists r].
    rewrite lookup_fmap in Ht0. destruct (h_tables h !! a); [|done]. injection Ht0 as <-. done.
  - intros [r Hr]. right. exists r. split; [|done]. rewrite elem_of_elements. apply (wf_all _ Hw). by exists a.
Qed.

(** What a well-formed heap is after [collectGarbage]. *)
Definition collected (h h' : TableHeap) : Prop :=
  (forall a, is_Some (h_tables h' !! a) <-> is_Some (h_tables h !! a) /\ referenced h a) /\
  (forall a t', h_tables h' !! a = Some t' ->
     exists t, h_tables h !! a = Some t /\ m_user t' = m_user t /\ m_refs t' = m_refs t) /\
  (forall r, h_refs h' !! r = h_refs h !! r \/
     (h_refs h' !! r = None /\
      exists a t, h_tables h !! a = Some t /\ ~ referenced h a /\ r ∈ m_refs t)).

Lemma collect_eval `{O : SetOrder} `{OL : !SetOrderLaws O} h :
  heap_wf h -> exists h', collectGarbage h = Some (tt, h') /\ heap_wf h' /\ collected h h'.
Proof.
  intros Hw. destruct (marked_eval h Hw) as (m & E & Hs & Hm).
  set (h1 := mkTableHeap m (h_refs h) (h_all h)) in *.
  assert (Hw1 : heap_wf h1) by by apply wf_same.
  assert (Hdead : forall a, a ∈ set_order (unmarked h1) <-> is_Some (m !! a) /\ ~ referenced h a).
  { intros a. rewrite set_order_perm, unmarked_spec. simpl. split.
    - intros (t & Ht & Hmk). split; [by eexists|]. rewrite <- (Hm a t Ht). by rewrite Hmk.
    - intros [[t Ht] Hr]. exists t. split; [done|]. rewrite <- (Hm a t Ht) in Hr. by destruct (m_marked t). }
  destruct (sweep_eval (set_order (unmarked h1)) h1 Hw1) as (h2 & E2 & Hw2 & Ht2 & Hr2).
  { rewrite set_order_perm. apply unmarked_nodup. }
  { apply Forall_forall. intros a Ha. by apply Hdead in Ha. }
  exists h2. split; [|split; [done|]].
  { etransitivity; [exact (rbind_Some (mfor _ mark_ref) _ _ _ _ E)|exact E2]. }
  assert (Hs' : same_tables m (h_tables h)) by by symmetry.
  split; [|split].
  - intros a. rewrite Ht2. simpl. destruct (decide (a ∈ set_order (unmarked h1))) as [Hin|Hin].
    + apply Hdead in Hin as [_ Hn]. split; [by intros [? ?]|]. by intros [_ ?].
    + rewrite Hdead in Hin. split.
      * intros [t Ht]. destruct (same_tables_lookup _ _ _ _ Hs' Ht) as (t0 & Ht0 & _).
        split; [by eexists|]. apply (Hm a t Ht).
        destruct (m_marked t) eqn:Emk; [done|]. exfalso. apply Hin. split; [by eexists|].
        rewrite <- (Hm a t Ht). by rewrite Emk.
      * intros [[t Ht] _]. destruct (same_tables_lookup _ _ _ _ Hs Ht) as (t0 & Ht0 & _). by eexists.
  - intros a t' Ht'. rewrite Ht2 in Ht'. destruct (decide _); [done|].
    destruct (same_tables_lookup _ _ _ _ Hs' Ht') as (t & Ht & Hu & Hr). by exists t.
  - intros r. destruct (Hr2 r) as [Hr|(Hr & a & t & Ha & Ht & Hin)]; [by left|]. right.
    split; [done|]. apply Hdead in Ha as [_ Hn].
    destruct (same_tables_lookup _ _ _ _ Hs' Ht) as (t0 & Ht0 & _ & Er). exists a, t0.
    rewrite Er. done.
Qed.

(** ** Programs over tables *)

(** What a program does with [TableRef]s and tables. *)
Inductive heap_op : Type :=
  | Op_new (r : nat) (t : option nat)
  | Op_copy (r rhs : nat)
  | Op_assign (r rhs : nat)
  | Op_delete (r : nat)
  | Op_table (a m : nat)
  | Op_userdata (a : nat)
  | Op_store (a r : nat)
  | Op_collect.

Definition run_op `{O : SetOrder} (o : heap_op) : SM TableHeap unit :=
  match o with
  | Op_new r t => TableRef_new r t
  | Op_copy r rhs => TableRef_copy r rhs
  | Op_assign r rhs => TableRef_assign r rhs
  | Op_delete r => TableRef_delete r
  | Op_table a m => Table_new a m
  | Op_userdata a => Table_allocateUserData a
  | Op_store a r => Table_store a r
  | Op_collect => collectGarbage
  end.

(** What the language guarantees: new objects have new addresses, objects that are
    used exist, and an object that is part of a table is destroyed with it.  A
    [TableRef] is constructed from a null pointer, or from a table that is alive. *)
Definition legal (h : TableHeap) (o : heap_op) : Prop :=
  match o with
  | Op_new r t => h_refs h !! r = None /\ forall a, t = Some a -> is_Some (h_tables h !! a)
  | Op_copy r rhs => h_refs h !! r = None /\ is_Some (h_refs h !! rhs)
  | Op_assign r rhs => is_Some (h_refs h !! r) /\ is_Some (h_refs h !! rhs)
  | Op_delete r => free_ref h r
  | Op_table a m => h_tables h !! a = None /\ h_refs h !! m = None
  | Op_userdata a => is_Some (h_tables h !! a)
  | Op_store a r => is_Some (h_tables h !! a) /\ free_ref h r
  | Op_collect => True
  end.

Definition empty_heap : TableHeap := mkTableHeap ∅ ∅ ∅.

(** The heaps that programs reach. *)
Inductive reachable `{O : SetOrder} : TableHeap -> Prop :=
  | reach_empty : reachable empty_heap
  | reach_op h o h' : reachable h -> legal h o -> run_op o h = Some (tt, h') -> reachable h'.

Lemma wf_empty : heap_wf empty_heap.
Proof.
  split; simpl; try (intros *; rewrite ?lookup_empty; done).
  intros r. rewrite lookup_empty. split; [set_solver|by intros [? ?]].
Qed.

(** A table with a new address, or with other references of its own. *)
Lemma wf_set_table h a t :
  heap_wf h -> NoDup (m_refs t) ->
  (forall r, r ∈ m_refs t -> is_Some (h_refs h !! r)) ->
  (forall r b u, r ∈ m_refs t -> h_tables h !! b = Some u -> r ∈ m_refs u -> b = a) ->
  heap_wf (mkTableHeap (<[a := t]> (h_tables h)) (h_refs h) (h_all h)).
Proof.
  intros [Ha Hl Ho Hn Hd] Hnd Hex Hdis. split; simpl; try done.
  - intros r b Hr. destruct (decide (a = b)) as [->|Hne]; [rewrite lookup_insert_eq; by eexists|].
    rewrite lookup_insert_ne by done. by eapply Hl.
  - intros b u r Hu Hr. apply lookup_insert_Some in Hu as [[_ <-]|[_ Hu]]; [by apply Hex|by eapply Ho].
  - intros b u Hu. apply lookup_insert_Some in Hu as [[_ <-]|[_ Hu]]; [done|by eapply Hn].
  - intros b c u v r Hu Hv Hru Hrv.
    apply lookup_insert_Some in Hu as [[Eb Eu]|[Nb Hu]]; apply lookup_insert_Some in Hv as [[Ec Ev]|[Nc Hv]]; subst.
    + done.
    + symmetry. by eapply Hdis.
    + by eapply Hdis.
    + by eapply Hd.
Qed.

Lemma wf_copy h r rhs :
  heap_wf h -> h_refs h !! r = None -> is_Some (h_refs h !! rhs) ->
  exists h', TableRef_copy r rhs h = Some (tt, h') /\ heap_wf h'.
Proof.
  intros Hw Hr [d' Hd']. assert (Hne : rhs <> r) by congruence.
  destruct (wf_new h r None Hw Hr) as (h1 & E1 & Hw1 & _); [done|]. rewrite new_eval in E1. injection E1 as <-.
  destruct (wf_assign (mkTableHeap (h_tables h) (<[r := None]> (h_refs h)) (h_all h)) r rhs None d')
    as (h2 & E2 & Hw2 & _); [done|simpl; by rewrite lookup_insert_eq|simpl; by rewrite lookup_insert_ne|].
  exists h2. split; [exact E2|done].
Qed.

Lemma wf_new_table h a m :
  heap_wf h -> h_tables h !! a = None -> h_refs h !! m = None ->
  exists h', Table_new a m h = Some (tt, h') /\ heap_wf h'.
Proof.
  intros Hw Ha Hm. destruct (wf_new h m None Hw Hm) as (h1 & E1 & Hw1 & Ht1); [done|].
  pose proof E1 as E. rewrite new_eval in E. injection E as <-.
  eexists. split; [unfold Table_new; rewrite (rbind_Some _ _ _ _ _ E1); reflexivity|].
  apply (wf_set_table _ a (mkTableObj false false [m]) Hw1); simpl.
  - apply NoDup_singleton.
  - intros r ->%list_elem_of_singleton. rewrite lookup_insert_eq. by eexists.
  - intros r b u ->%list_elem_of_singleton Hu Hr. destruct (wf_owned _ Hw _ _ _ Hu Hr) as [? ?]. congruence.
Qed.

Lemma wf_store h a r :
  heap_wf h -> is_Some (h_tables h !! a) -> free_ref h r ->
  exists h', Table_store a r h = Some (tt, h') /\ heap_wf h'.
Proof.
  intros Hw [t Ht] [Hr Hfree].
  eexists. split; [unfold Table_store, must, rbind; rewrite Ht; reflexivity|].
  apply wf_set_table; simpl; [done|..].
  - apply NoDup_cons. split; [by eapply Hfree|by apply (wf_nodup _ Hw a)].
  - intros r' [->|Hin]%elem_of_cons; [done|by apply (wf_owned _ Hw a t)].
  - intros r' b u [->|Hin]%elem_of_cons Hu Hru; [by destruct (Hfree b u)|].
    by eapply (wf_disjoint _ Hw b a u t).
Qed.

Lemma wf_userdata h a :
  heap_wf h -> is_Some (h_tables h !! a) ->
  exists h', Table_allocateUserData a h = Some (tt, h') /\ heap_wf h'.
Proof.
  intros Hw [t Ht]. eexists. split; [unfold Table_allocateUserData, must, rbind; rewrite Ht; reflexivity|].
  apply wf_set_table; simpl; [done|by apply (wf_nodup _ Hw a)|intros r Hr; by apply (wf_owned _ Hw a t)|].
  intros r b u Hr Hu Hru. by apply (wf_disjoint _ Hw b a u t r).
Qed.

Lemma run_op_wf `{O : SetOrder} `{OL : !SetOrderLaws O} h o :
  heap_wf h -> legal h o -> exists h', run_op o h = Some (tt, h') /\ heap_wf h'.
Proof.
  intros Hw Hl. destruct o as [r t|r rhs|r rhs|r|a m|a|a r|]; simpl in *.
  - destruct Hl as [Hr Ht]. destruct (wf_new h r t Hw Hr Ht) as (h' & E & Hw' & _). eauto.
  - destruct Hl. by apply wf_copy.
  - destruct Hl as [[d Hd] [d' Hd']]. destruct (wf_assign h r rhs d d' Hw Hd Hd') as (h' & E & Hw' & _). eauto.
  - destruct (wf_delete h r Hw Hl) as (h' & E & Hw' & _). eauto.
  - destruct Hl. by apply wf_new_table.
  - by apply wf_userdata.
  - destruct Hl. by apply wf_store.
  - destruct (collect_eval h Hw) as (h' & E & Hw' & _). eauto.
Qed.

Lemma reachable_wf `{O : SetOrder} `{OL : !SetOrderLaws O} h : reachable h -> heap_wf h.
Proof.
  induction 1 as [|h o h' _ IH Hl E]; [apply wf_empty|].
  destruct (run_op_wf h o IH Hl) as (h2 & E2 & Hw). congruence.
Qed.

(** [C5] Tables never dangle: in every heap that a program reaches by creating,
    copying, assigning, storing and destroying references, creating tables and
    collecting garbage, every reference to a table is registered and its table is
    alive, so that whatever the program does next - the collector included - is
    defined: no freed table is touched, and nothing is destroyed twice. *)
Theorem tables_never_dangle `{O : SetOrder} `{OL : !SetOrderLaws O} h o :
  reachable h -> legal h o ->
  (forall r t, h_refs h !! r = Some (Some t) -> is_Some (h_tables h !! t) /\ r ∈ h_all h) /\
  exists h', run_op o h = Some (tt, h') /\ reachable h'.
Proof.
  intros Hr Hl. pose proof (reachable_wf h Hr) as Hw. split.
  - intros r t Ht. split; [by apply (wf_alive _ Hw r)|]. apply (wf_all _ Hw). by exists t.
  - destruct (run_op_wf h o Hw Hl) as (h' & E & _). exists h'. split; [done|]. by eapply reach_op.
Qed.

(** [C8] What [collectGarbage] frees: it always succeeds, and afterwards exactly
    the tables are alive that some [TableRef] named before, with their content
    unchanged; the only references that are gone are those that were part of the
    freed tables. *)
Theorem collectGarbage_exact `{O : SetOrder} `{OL : !SetOrderLaws O} h :
  reachable h -> exists h', collectGarbage h = Some (tt, h') /\ collected h h'.
Proof.
  intros Hr. destruct (collect_eval h (reachable_wf h Hr)) as (h' & E & _ & Hc). eauto.
Qed.

(** ** Examples *)

Definition order_example : SetOrder := {| set_order l := l |}.
Lemma order_example_laws : SetOrderLaws order_example.
Proof. done. Qed.

Lemma run_ops `{O : SetOrder} ops : forall h h',
  reachable h ->
  foldr (fun o (k : TableHeap -> Prop) h => legal h o /\ exists h1, run_op o h = Some (tt, h1) /\ k h1)
    (fun h1 => h1 = h') ops h -> reachable h'.
Proof.
  induction ops as [|o ops IH]; intros h h' Hr Ho; simpl in Ho; [by subst|].
  destruct Ho as (Hl & h1 & E & Ho). eapply IH; [by eapply reach_op|exact Ho].
Qed.

(** A local reference to table 0, whose hash names table 1; table 2 is garbage. *)
Definition three_tables : TableHeap :=
  default empty_heap (snd <$> mfor (S := TableHeap)
    [Op_table 0 10; Op_new 20 (Some 0%nat); Op_table 1 11; Op_new 21 (Some 1%nat); Op_store 0 21; Op_table 2 12]
    (@run_op order_example) empty_heap).

Lemma three_tables_reachable : @reachable order_example three_tables.
Proof.
  apply (run_ops [Op_table 0 10; Op_new 20 (Some 0%nat); Op_table 1 11; Op_new 21 (Some 1%nat);
                  Op_store 0 21; Op_table 2 12] empty_heap); [constructor|].
  cbn [foldr]. unfold legal, free_ref.
  repeat match goal with
    | |- _ /\ _ => split
    | |- exists h1, run_op _ _ = Some (tt, h1) /\ _ => eexists; split; [vm_compute; reflexivity|]
    | |- is_Some _ => vm_compute; by eexists
    | |- forall a, Some _ = Some a -> _ => intros ? [= <-]
    | |- _ = None => vm_compute; reflexivity
    end.
  - intros a t Ht. assert (Hm : map_Forall (fun _ t => 21%nat ∉ m_refs t) (h_tables
      (default empty_heap (snd <$> mfor (S := TableHeap)
        [Op_table 0 10; Op_new 20 (Some 0%nat); Op_table 1 11; Op_new 21 (Some 1%nat)]
        (@run_op order_example) empty_heap)))) by by_decide.
    by apply (Hm a t).
  - vm_compute. reflexivity.
Qed.

Lemma tables_never_dangle_witness :
  (forall r t, h_refs three_tables !! r = Some (Some t) ->
     is_Some (h_tables three_tables !! t) /\ r ∈ h_all three_tables) /\
  exists h', @run_op order_example Op_collect three_tables = Some (tt, h') /\ @reachable order_example h'.
Proof.
  apply (tables_never_dangle (O := order_example) (OL := order_example_laws) three_tables Op_collect).
  - exact three_tables_reachable.
  - exact I.
Defined.

Lemma collectGarbage_exact_witness :
  exists h', @collectGarbage order_example three_tables = Some (tt, h') /\ collected three_tables h'.
Proof.
  apply (collectGarbage_exact (O := order_example) (OL := order_example_laws) three_tables).
  exact three_tables_reachable.
Defined.

Example garbage_freed :
  option_map (fun r => map fst (map_to_list (h_tables (snd r)))) (@collectGarbage order_example three_tables)
  = Some [1%nat; 0%nat].
Proof. vm_compute. reflexivity. Qed.

(** Two tables that only name each other are never freed. *)
Remark cycles_not_freed :
  option_map (fun r => map fst (map_to_list (h_tables (snd r))))
    (mfor (S := TableHeap) [Op_table 0 10; Op_table 1 11; Op_new 20 (Some 0%nat); Op_new 21 (Some 1%nat);
      Op_store 1 20; Op_store 0 21; Op_collect; Op_collect] (@run_op order_example) empty_heap)
  = Some [1%nat; 0%nat].
Proof. vm_compute. reflexivity. Qed.
