(* ===== verification/Engine.v ===== *)
(** * The bytecode engine

    [JitEngine] of [LuaJitEngine.h/.cpp]: its heap of slots and tables, frames and
    closures, and the interpreter [run] with every instruction it supports.  Slots,
    tables and functions are addresses: closures share the slots they capture with
    the frame that created them, and every copy of a table value names the same
    table.  A computation is a [SM Engine]; [None] is undefined behaviour, or an
    execution that did not end within the fuel of [run].  The life time of tables
    ([TableRef], [collectGarbage]) is in [TableHeap]. *)

From S2P Require Import Prelude Double Bytecode QtLib BytecodeIO.
From Stdlib Require Import Strings.Byte.
Local Open Scope Z_scope.
Local Open Scope rd_scope.

(** ** What the engine uses of libraries *)

Class EngineLib := {
  (** [QFileInfo::fileName] *)
  fileName : QString -> QString;
  (** [operator==] of [QVariant] *)
  variant_eqb : QVariant -> QVariant -> bool;
  (** [std::pow] *)
  dbl_pow : dbl -> dbl -> dbl;
  (** [QByteArray::number(n, 16)] *)
  number16 : Z -> bytes;
  (** the addresses of tables, functions and native functions *)
  table_ptr : option nat -> Z;
  func_ptr : nat -> Z;
  native_ptr : nat -> Z
}.

(** ** Data *)

(** Both flags of a slot are not initialised when it is created, and never read.
    [src/LuaJitEngine.h:100-105] Slot *)
Record Slot := mkSlot { s_val : QVariant; s_closed : option bool }.

(** [d_metaTable] as the table it refers to; of the user data only whether there
    is some.
    [src/LuaJitEngine.h:74-98] Table *)
Record Table := mkTable { t_hash : list (QVariant * QVariant); t_meta : option nat; t_user : bool }.

(** [src/LuaJitEngine.h:108-113] Closure *)
Record Closure := mkClosure { cl_func : nat; cl_upvals : list nat }.

(** With the function [d_func->d_func] it runs.
    [src/LuaJitEngine.h:137-146] Frame *)
Record Frame := mkFrame { f_func : Closure; f_fn : Function; f_slots : list nat; f_pc : Z }.

(** The texts of the messages, by what they say. *)
Inductive EngineMsg : Type :=
  | InvalidChunk | InvalidSlot (i : Z) | InvalidUpvalue (i : Z) | InvalidNumConst (i : Z)
  | InvalidGcConst (i : Z) | NoHandlerValue | IncompatibleComparison | NotFollowedByJmp
  | NoIndexMethod | CannotIndex | NotTableReference | NotCallable | PcOutOfBytecode
  | NoLenMethod | InvalidLen | NotConstTable | NotPrototype (i : Z)
  | InvalidSlotUpval (u i : Z) | InvalidUpvalNumber (u : Z) | Unsupported (name : bytes)
  | ExpectTwoArguments | ExpectTableFirst | ExpectTableOrNull | ExpectOneArgument
  | ExpectTable.

Inductive EngineWhere : Type :=
  | Nowhere | AtLine (file : QString) (line : Z) | AtPc (file : QString) (id pc : Z).

(** The slots ever created, by address; the tables that are alive, and the address
    of the next one; what was printed and reported, last first.
    [src/LuaJitEngine.h:175-178] JitEngine *)
Record Engine := mkEngine {
  e_globals : list (QVariant * QVariant);
  e_slots : list Slot;
  e_tables : gmap nat Table;
  e_next : nat;
  e_prints : list bytes;
  e_errors : list (EngineWhere * EngineMsg)
}.

Definition set_globals (g : list (QVariant * QVariant)) (e : Engine) : Engine :=
  mkEngine g (e_slots e) (e_tables e) (e_next e) (e_prints e) (e_errors e).
Definition set_slots (l : list Slot) (e : Engine) : Engine :=
  mkEngine (e_globals e) l (e_tables e) (e_next e) (e_prints e) (e_errors e).
Definition set_tables (t : gmap nat Table) (n : nat) (e : Engine) : Engine :=
  mkEngine (e_globals e) (e_slots e) t n (e_prints e) (e_errors e).
Definition add_print (s : bytes) (e : Engine) : Engine :=
  mkEngine (e_globals e) (e_slots e) (e_tables e) (e_next e) (s :: e_prints e) (e_errors e).
Definition add_error (w : EngineWhere) (m : EngineMsg) (e : Engine) : Engine :=
  mkEngine (e_globals e) (e_slots e) (e_tables e) (e_next e) (e_prints e) ((w, m) :: e_errors e).

(** [src/LuaJitEngine.cpp:30-30] MetaEvent *)
Inductive MetaEvent : Type :=
  | ADD | SUB | MUL | DIV | MOD | POW | UNM | CAT | LEN | EQ | LT | LE | IDX | NIDX | CALL.

(** [src/LuaJitEngine.cpp:31-48] metaEventName *)
Definition metaEventName (e : MetaEvent) : bytes :=
  match e with
  | ADD => qb "__add" | SUB => qb "__sub" | MUL => qb "__mul" | DIV => qb "__div"
  | MOD => qb "__mod" | POW => qb "__pow" | UNM => qb "__unm" | CAT => qb "__concat"
  | LEN => qb "__len" | EQ => qb "__eq" | LT => qb "__lt" | LE => qb "__le"
  | IDX => qb "__index" | NIDX => qb "__newindex" | CALL => qb "__call"
  end.

(** [int] values [lo], [lo+1] ... below [hi]. *)
Definition zrange (lo hi : Z) : list Z := map (fun k => lo + Z.of_nat k) (seq 0 (Z.to_nat (hi - lo))).

Section Interpreter.
Context `{L : LjBc} `{Q : QtLib} `{EL : EngineLib}.
(** The function objects of the program. *)
Variable H : Heap.

(** [QVariant::toBool] *)
Definition toBool (v : QVariant) : bool :=
  match v with
  | QBool b => b
  | QInt z | QUInt z | QLongLong z | QULongLong z => negb (z =? 0)
  | _ => other_toBool v
  end.

(** [QVariant::isValid] *)
Definition isValid (v : QVariant) : bool := match v with QInvalid => false | _ => true end.

(** [canConvert<TableRef>()], [canConvert<Closure>()], [canConvert<CFunction>()] *)
Definition isTableRef (v : QVariant) : bool := match v with QTableRef _ => true | _ => false end.
Definition isClosure (v : QVariant) : bool := match v with QClosure _ _ => true | _ => false end.
Definition isCFunction (v : QVariant) : bool := match v with QCFunction _ => true | _ => false end.

(** [QHash::value] with the invalid variant as the default. *)
Definition qhash_value (k : QVariant) (l : list (QVariant * QVariant)) : QVariant :=
  match qhash_find k l with Some v => v | None => QInvalid end.

(** ** Errors *)

(** [src/LuaJitEngine.cpp:117-121] error *)
Definition eng_error (m : EngineMsg) : SM Engine bool :=
  _ <~ rmod (add_error Nowhere m); rret false.

(** [src/LuaJitEngine.cpp:132-139] error2 *)
Definition error2 (f : Frame) (m : EngineMsg) : SM Engine bool :=
  let info := fileName (d_sourceFile (f_fn f)) in
  let w := match d_lines (f_fn f) !! Z.to_nat (f_pc f) with
           | Some line => AtLine info line
           | None => AtPc info (d_id (f_fn f)) (f_pc f)
           end in
  _ <~ rmod (add_error w m); rret false.

(** ** Slots, upvalues and constants *)

(** [None] is the null pointer; an index below 0 is undefined.
    [src/LuaJitEngine.cpp:141-150] getSlot *)
Definition getSlot (f : Frame) (i : Z) : SM Engine (option nat) :=
  if i <? Z.of_nat (length (f_slots f)) then
    if i <? 0 then rfail else s <~ mderef (f_slots f !! Z.to_nat i); rret (Some s)
  else _ <~ error2 f (InvalidSlot i); rret None.

(** Reading and writing [d_val] of a slot. *)
Definition read_slot (s : nat) : SM Engine QVariant :=
  o <~ rget (fun e => e_slots e !! s); sl <~ mderef o; rret (s_val sl).
Definition write_slot (s : nat) (v : QVariant) : SM Engine unit :=
  rmod (fun e => set_slots (alter (fun sl => mkSlot v (s_closed sl)) s (e_slots e)) e).

(** [src/LuaJitEngine.cpp:152-159] getSlotVal *)
Definition getSlotVal (f : Frame) (i : Z) : SM Engine QVariant :=
  s <~ getSlot f i;
  match s with Some s => read_slot s | None => rret QInvalid end.

(** [src/LuaJitEngine.cpp:161-170] getTable *)
Definition getTable (f : Frame) (i : Z) : SM Engine (option nat) :=
  v <~ getSlotVal f i;
  match v with
  | QTableRef t => rret t
  | _ => _ <~ error2 f NotTableReference; rret None
  end.

(** [src/LuaJitEngine.cpp:172-177] setSlotVal *)
Definition setSlotVal (f : Frame) (i : Z) (v : QVariant) : SM Engine unit :=
  s <~ getSlot f i;
  match s with Some s => write_slot s v | None => rret tt end.

(** [src/LuaJitEngine.cpp:179-188] getUpvalue *)
Definition getUpvalue (f : Frame) (i : Z) : SM Engine QVariant :=
  let ups := cl_upvals (f_func f) in
  if i <? Z.of_nat (length ups) then
    if i <? 0 then rfail else s <~ mderef (ups !! Z.to_nat i); read_slot s
  else _ <~ error2 f (InvalidUpvalue i); rret QInvalid.

(** [src/LuaJitEngine.cpp:190-197] setUpvalue *)
Definition setUpvalue (f : Frame) (i : Z) (v : QVariant) : SM Engine unit :=
  let ups := cl_upvals (f_func f) in
  if i <? Z.of_nat (length ups) then
    if i <? 0 then rfail else s <~ mderef (ups !! Z.to_nat i); write_slot s v
  else _ <~ error2 f (InvalidUpvalue i); rret tt.

(** [src/LuaJitEngine.cpp:199-208] getNumConst *)
Definition getNumConst (f : Frame) (i : Z) : SM Engine QVariant :=
  let ks := d_constNums (f_fn f) in
  if i <? Z.of_nat (length ks) then
    if i <? 0 then rfail else mderef (ks !! Z.to_nat i)
  else _ <~ error2 f (InvalidNumConst i); rret QInvalid.

(** [src/LuaJitEngine.cpp:210-220] getGcConst *)
Definition getGcConst (f : Frame) (i : Z) : SM Engine QVariant :=
  let ks := d_constObjs (f_fn f) in
  let n := Z.of_nat (length ks) in
  if i <? n then
    if i <? 0 then rfail else mderef (ks !! Z.to_nat (n - i - 1))
  else _ <~ error2 f (InvalidGcConst i); rret QInvalid.

(** [src/LuaJitEngine.cpp:222-233] getPriConst *)
Definition getPriConst (i : Z) : QVariant :=
  if i =? 1 then QBool false else if i =? 2 then QBool true else QInvalid.

(** [src/LuaJitEngine.cpp:688-700] fromPrimitive *)
Definition fromPrimitive (p : Z) : QVariant :=
  if p =? 1 then QBool false else if p =? 2 then QBool true else QInvalid.

(** ** Tables *)

(** A table that is dereferenced: a null [TableRef] is undefined. *)
Definition the_table (t : option nat) : SM Engine Table :=
  a <~ mderef t; o <~ rget (fun e => e_tables e !! a); mderef o.

(** Changing a table in place. *)
Definition mod_table (t : option nat) (g : Table -> Table) : SM Engine unit :=
  _ <~ the_table t; a <~ mderef t;
  rmod (fun e => set_tables (alter g a (e_tables e)) (e_next e) e).

(** [src/LuaJitEngine.h:77-86] create *)
Definition create_table (h : list (QVariant * QVariant)) : SM Engine nat :=
  fun e => Some (e_next e, set_tables (<[e_next e := mkTable h None false]> (e_tables e)) (S (e_next e)) e).

(** [src/LuaJitEngine.cpp:1188-1192] allocateUserData *)
Definition allocateUserData (t : option nat) : SM Engine unit :=
  mod_table t (fun tb => mkTable (t_hash tb) (t_meta tb) true).

(** [src/LuaJitEngine.cpp:308-311] isTrue *)
Definition isTrue (v : QVariant) : bool :=
  negb (isNull v) && negb (match v with QBool b => negb b | _ => false end).

(** [src/LuaJitEngine.cpp:321-330] getHandler *)
Definition getHandler (v : QVariant) (event : MetaEvent) : SM Engine QVariant :=
  match v with
  | QTableRef t =>
      tb <~ the_table t;
      match t_meta tb with
      | Some m =>
          mt <~ the_table (Some m);
          rret (qhash_value (QByteArray (metaEventName event)) (t_hash mt))
      | None => rret QInvalid
      end
  | _ => rret QInvalid
  end.

(** [src/LuaJitEngine.cpp:313-319] getBinHandler *)
Definition getBinHandler (lhs rhs : QVariant) (event : MetaEvent) : SM Engine QVariant :=
  v <~ getHandler lhs event;
  if isValid v then rret v else getHandler rhs event.

(** [QVariant::type], by constructor. *)
Definition qtype (v : QVariant) : nat :=
  match v with
  | QInvalid => 0 | QBool _ => 1 | QInt _ => 2 | QUInt _ => 3 | QLongLong _ => 4
  | QULongLong _ => 5 | QDouble _ => 6 | QFloat _ => 38 | QByteArray _ => 12
  | QText _ => 10
  (** every registered type is [QVariant::UserType] *)
  | QConstTable _ _ | QFuncRef _ | QTableRef _ | QClosure _ _ | QCFunction _ => 1024
  end.

(** [src/LuaJitEngine.cpp:332-342] getCompHandler *)
Definition getCompHandler (lhs rhs : QVariant) (event : MetaEvent) : SM Engine QVariant :=
  if negb (qtype lhs =? qtype rhs)%nat then rret QInvalid
  else
    h1 <~ getHandler lhs event;
    h2 <~ getHandler rhs event;
    if variant_eqb h1 h2 then rret h1 else rret QInvalid.

(** ** The library functions *)

(** [src/LuaJitEngine.cpp:249-265] tostring *)
Definition tostring (v : QVariant) : bytes :=
  match v with
  | QTableRef t => qb "table: 0x" ++ number16 (table_ptr t)
  | QClosure f _ => qb "function: 0x" ++ number16 (func_ptr f)
  | QCFunction f => qb "native: 0x" ++ number16 (native_ptr f)
  | _ => toByteArray v
  end.

(** The loop over the arguments.
    [src/LuaJitEngine.cpp:235-247] _print *)
Fixpoint print_args (first : bool) (l : list QVariant) : bytes :=
  match l with
  | [] => []
  | v :: l => (if first then [] else [x09]) ++ tostring v ++ print_args false l
  end.

(** The result of a native function, and its [inout] list; a negative result is an
    error. *)
Definition native_result : Type := Z * list QVariant.

(** [src/LuaJitEngine.cpp:235-247] _print *)
Definition _print (inout : list QVariant) : SM Engine native_result :=
  _ <~ rmod (add_print (print_args true inout)); rret (0, inout).

(** [src/LuaJitEngine.cpp:267-287] _setmetatable *)
Definition _setmetatable (inout : list QVariant) : SM Engine native_result :=
  match inout with
  | [a0; a1] =>
      match a0 with
      | QTableRef t =>
          if negb (isNull a1) && negb (isTableRef a1)
          then _ <~ eng_error ExpectTableOrNull; rret (-1, inout)
          else
            let m := match a1 with QTableRef m => m | _ => None end in
            _ <~ mod_table t (fun tb => mkTable (t_hash tb) m (t_user tb));
            rret (1, [QTableRef t])
      | _ => _ <~ eng_error ExpectTableFirst; rret (-1, inout)
      end
  | _ => _ <~ eng_error ExpectTwoArguments; rret (-1, inout)
  end.

(** [src/LuaJitEngine.cpp:289-306] _getmetatable *)
Definition _getmetatable (inout : list QVariant) : SM Engine native_result :=
  match inout with
  | [a0] =>
      match a0 with
      | QTableRef t =>
          tb <~ the_table t;
          match t_meta tb with
          | Some m => rret (1, [QTableRef (Some m)])
          | None => rret (1, [QInvalid])
          end
      | _ => _ <~ eng_error ExpectTable; rret (-1, inout)
      end
  | _ => _ <~ eng_error ExpectOneArgument; rret (-1, inout)
  end.

(** The native functions, numbered. *)
Definition native (n : nat) (inout : list QVariant) : SM Engine native_result :=
  match n with
  | 0 => _print inout
  | 1 => _setmetatable inout
  | 2 => _getmetatable inout
  | _ => rfail
  end%nat.

(** [src/LuaJitEngine.cpp:123-130] installLibs *)
Definition installLibs : SM Engine unit :=
  rmod (fun e => set_globals
    (qhash_insert (QByteArray (qb "_VERSION")) (QByteArray (qb "TestVM"))
    (qhash_insert (QByteArray (qb "getmetatable")) (QCFunction 2)
    (qhash_insert (QByteArray (qb "setmetatable")) (QCFunction 1)
    (qhash_insert (QByteArray (qb "dbgout")) (QCFunction 0)
    (qhash_insert (QByteArray (qb "print")) (QCFunction 0) (e_globals e)))))) e).

(** ** Instructions *)

Definition set_pc (f : Frame) (pc : Z) : Frame := mkFrame (f_func f) (f_fn f) (f_slots f) (u32 pc).
(** [f.d_pc++] *)
Definition next_pc (f : Frame) : Frame := set_pc f (f_pc f + 1).

(** The word at the program counter; [None] when it points out of the bytecode. *)
Definition fetch (f : Frame) : option Z := d_byteCodes (f_fn f) !! Z.to_nat (f_pc f).

Definition op_of (bc : Instruction) : Op := default OP_INVALID (Op_of (d_op bc)).

(** [src/LuaJitEngine.cpp:536-548] doJumpAfterCompare *)
Definition doJumpAfterCompare (f : Frame) (res : bool) : SM Engine (bool * Frame) :=
  let f := next_pc f in
  match fetch f with
  | None => rret (true, f)
  | Some w =>
      let bc := dissectInstruction w in
      if negb (bool_decide (op_of bc = OP_JMP))
      then b <~ error2 f NotFollowedByJmp; rret (b, f)
      else
        let f := next_pc f in
        rret (true, if res then set_pc f (f_pc f + getCd bc) else f)
  end.

(** The rest of the section runs closures with [run_closure]: the result, and
    [inout] when it is [true]. *)
Section Step.
Variable run_closure : Closure -> list QVariant -> SM Engine (bool * list QVariant).

(** [src/LuaJitEngine.cpp:789-807] doCall *)
Definition doCall (f : Frame) (vc : QVariant) (inout : list QVariant) : SM Engine native_result :=
  match vc with
  | QClosure fn ups =>
      r <~ run_closure (mkClosure fn ups) inout;
      let '(ok, io) := r in
      rret (if ok : bool then Z.of_nat (length io) else -1, io)
  | QCFunction n => native n inout
  | _ => _ <~ error2 f NotCallable; rret (-1, inout)
  end.

(** The calls of a handler that has to return a value; [None] when the code
    returns [false].
    [src/LuaJitEngine.cpp:416-421] doCompare *)
Definition call_handler (f : Frame) (c : QVariant) (inout : list QVariant) : SM Engine (option QVariant) :=
  r <~ doCall f c inout;
  let '(n, io) := r in
  if n <? 0 then rret None
  else match io with
       | [] => _ <~ error2 f NoHandlerValue; rret None
       | v :: _ => rret (Some v)
       end.

(** The comparisons of numbers and of strings.
    [src/LuaJitEngine.cpp:349-387] doCompare *)
Definition compare_values {A} (lt le : A -> A -> bool) (op : Op) (lhs rhs : A) : bool :=
  match op with
  | OP_ISLT => lt lhs rhs
  | OP_ISGE => le rhs lhs
  | OP_ISLE => le lhs rhs
  | OP_ISGT => lt rhs lhs
  | _ => false
  end.

Definition bytes_leb (a b : bytes) : bool := negb (bytes_ltb b a).

(** The handler of the comparison with its arguments.
    [src/LuaJitEngine.cpp:389-414] doCompare *)
Definition compare_handler (op : Op) (lhs rhs : QVariant) : SM Engine (QVariant * list QVariant) :=
  c <~ match op with
       | OP_ISLT | OP_ISGT => getCompHandler lhs rhs LT
       | OP_ISLE | OP_ISGE => getCompHandler lhs rhs LE
       | _ => rret QInvalid
       end;
  let inout := match op with
               | OP_ISLT | OP_ISLE => [lhs; rhs]
               | OP_ISGT | OP_ISGE => [rhs; lhs]
               | _ => []
               end in
  if negb (isValid c) && bool_decide (op = OP_ISLE \/ op = OP_ISGE)
  then c <~ getCompHandler lhs rhs LT; rret (c, rev inout)
  else rret (c, inout).

(** [src/LuaJitEngine.cpp:344-427] doCompare *)
Definition doCompare (f : Frame) (bc : Instruction) : SM Engine (bool * Frame) :=
  let op := op_of bc in
  lhs <~ getSlotVal f (d_a bc);
  rhs <~ getSlotVal f (getCd bc);
  if isNumber lhs && isNumber rhs then
    doJumpAfterCompare f (compare_values dbl_ltb dbl_leb op (toDouble lhs) (toDouble rhs))
  else if isString lhs && isString rhs then
    doJumpAfterCompare f (compare_values bytes_ltb bytes_leb op (toByteArray lhs) (toByteArray rhs))
  else
    ch <~ compare_handler op lhs rhs;
    let '(c, inout) := ch in
    if isValid c then
      v <~ call_handler f c inout;
      match v with
      | Some v => doJumpAfterCompare f (toBool v)
      | None => rret (false, f)
      end
    else b <~ error2 f IncompatibleComparison; rret (b, f).

(** The right operand.
    [src/LuaJitEngine.cpp:432-451] doEquality *)
Definition equality_rhs (f : Frame) (bc : Instruction) : SM Engine QVariant :=
  match op_of bc with
  | OP_ISEQV | OP_ISNEV => getSlotVal f (getCd bc)
  | OP_ISEQS | OP_ISNES => getGcConst f (getCd bc)
  | OP_ISEQN | OP_ISNEN => getNumConst f (getCd bc)
  | OP_ISEQP | OP_ISNEP => rret (getPriConst (getCd bc))
  | _ => rret QInvalid
  end.

Definition is_eq_op (op : Op) : bool :=
  match op with OP_ISEQV | OP_ISEQS | OP_ISEQN | OP_ISEQP => true | _ => false end.
Definition is_ne_op (op : Op) : bool :=
  match op with OP_ISNEV | OP_ISNES | OP_ISNEN | OP_ISNEP => true | _ => false end.

(** The equality of two values that are compared without a handler.
    [src/LuaJitEngine.cpp:452-510] doEquality *)
Definition values_equal (lhs rhs : QVariant) : option bool :=
  if (isNumber lhs && isNumber rhs) || (isString lhs && isString rhs)
  then Some (bool_decide (toByteArray lhs = toByteArray rhs))
  else match lhs, rhs with
       | QTableRef a, QTableRef b => Some (bool_decide (a = b))
       | QClosure a _, QClosure b _ => Some (bool_decide (a = b))
       | QCFunction a, QCFunction b => Some (bool_decide (a = b))
       | _, _ => None
       end.

(** [src/LuaJitEngine.cpp:430-531] doEquality *)
Definition doEquality (f : Frame) (bc : Instruction) : SM Engine (bool * Frame) :=
  let op := op_of bc in
  lhs <~ getSlotVal f (d_a bc);
  rhs <~ equality_rhs f bc;
  match values_equal lhs rhs with
  | Some eq => doJumpAfterCompare f (if is_eq_op op then eq else negb eq)
  | None =>
      c <~ getCompHandler lhs rhs EQ;
      if isValid c then
        v <~ call_handler f c [lhs; rhs];
        match v with
        | Some v => doJumpAfterCompare f (if is_ne_op op then negb (toBool v) else toBool v)
        | None => rret (false, f)
        end
      else doJumpAfterCompare f false
  end.

(** The operands.
    [src/LuaJitEngine.cpp:552-581] doArith *)
Definition arith_operands (f : Frame) (bc : Instruction) : SM Engine (QVariant * QVariant) :=
  match op_of bc with
  | OP_ADDVN | OP_SUBVN | OP_MULVN | OP_DIVVN | OP_MODVN =>
      lhs <~ getSlotVal f (d_b bc); rhs <~ getNumConst f (getCd bc); rret (lhs, rhs)
  | OP_ADDNV | OP_SUBNV | OP_MULNV | OP_DIVNV | OP_MODNV =>
      lhs <~ getNumConst f (getCd bc); rhs <~ getSlotVal f (d_b bc); rret (lhs, rhs)
  | OP_ADDVV | OP_SUBVV | OP_MULVV | OP_DIVVV | OP_MODVV | OP_POW =>
      lhs <~ getSlotVal f (d_b bc); rhs <~ getSlotVal f (getCd bc); rret (lhs, rhs)
  | _ => rret (QInvalid, QInvalid)
  end.

(** The event of an operation.
    [src/LuaJitEngine.cpp:642-670] doArith *)
Definition arith_event (op : Op) : option MetaEvent :=
  match op with
  | OP_ADDVN | OP_ADDNV | OP_ADDVV => Some ADD
  | OP_SUBVN | OP_SUBNV | OP_SUBVV => Some SUB
  | OP_MULVN | OP_MULNV | OP_MULVV => Some MUL
  | OP_DIVVN | OP_DIVNV | OP_DIVVV => Some DIV
  | OP_MODVN | OP_MODNV | OP_MODVV => Some MOD
  | OP_POW => Some POW
  | _ => None
  end.

(** The operation on numbers.
    [src/LuaJitEngine.cpp:583-639] doArith *)
Definition arith_op (op : Op) : option (dbl -> dbl -> dbl) :=
  match op with
  | OP_ADDVN | OP_ADDNV | OP_ADDVV => Some dbl_add
  | OP_SUBVN | OP_SUBNV | OP_SUBVV => Some dbl_sub
  | OP_MULVN | OP_MULNV | OP_MULVV => Some dbl_mul
  | OP_DIVVN | OP_DIVNV | OP_DIVVV => Some dbl_div
  | OP_MODVN | OP_MODNV | OP_MODVV => Some dbl_fmod
  | OP_POW => Some dbl_pow
  | _ => None
  end.

(** [src/LuaJitEngine.cpp:550-686] doArith *)
Definition doArith (f : Frame) (bc : Instruction) : SM Engine bool :=
  let op := op_of bc in
  o <~ arith_operands f bc;
  let '(lhs, rhs) := o in
  if isNumber lhs && isNumber rhs then
    match arith_op op with
    | Some g => _ <~ setSlotVal f (d_a bc) (QDouble (g (toDouble lhs) (toDouble rhs))); rret true
    | None => rret true
    end
  else
    ev <~ mderef (arith_event op);
    c <~ getBinHandler lhs rhs ev;
    v <~ call_handler f c [lhs; rhs];
    match v with
    | Some v => _ <~ setSlotVal f (d_a bc) v; rret true
    | None => rret false
    end.

(** [src/LuaJitEngine.cpp:702-754] doGetT *)
Definition doGetT (f : Frame) (bc : Instruction) : SM Engine bool :=
  table <~ getSlotVal f (d_b bc);
  key <~ match op_of bc with
         | OP_TGETV => getSlotVal f (getCd bc)
         | OP_TGETS => getGcConst f (getCd bc)
         | OP_TGETB => rret (fromPrimitive (getCd bc))
         | _ => rret QInvalid
         end;
  match table with
  | QTableRef t =>
      tb <~ the_table t;
      let v := qhash_value key (t_hash tb) in
      if isValid v then _ <~ setSlotVal f (d_a bc) v; rret true
      else
        c <~ getHandler table IDX;
        if negb (isValid c) then
          if t_user tb then error2 f NoIndexMethod
          else _ <~ setSlotVal f (d_a bc) QInvalid; rret true
        else if isClosure c || isCFunction c then
          v <~ call_handler f c [table; key];
          rret (match v with Some _ => true | None => false end)
        else
          match c with
          | QTableRef t2 =>
              tb2 <~ the_table t2;
              _ <~ setSlotVal f (d_a bc) (qhash_value key (t_hash tb2)); rret true
          | _ => _ <~ setSlotVal f (d_a bc) QInvalid; rret true
          end
  | _ => error2 f CannotIndex
  end.

(** [src/LuaJitEngine.cpp:756-787] doSetT *)
Definition doSetT (f : Frame) (bc : Instruction) : SM Engine bool :=
  table <~ getSlotVal f (d_b bc);
  value <~ getSlotVal f (d_a bc);
  key <~ match op_of bc with
         | OP_TSETV => getSlotVal f (getCd bc)
         | OP_TSETS => getGcConst f (getCd bc)
         | OP_TSETB => rret (fromPrimitive (getCd bc))
         | _ => rret QInvalid
         end;
  match table with
  | QTableRef t =>
      _ <~ mod_table t (fun tb => mkTable (qhash_insert key value (t_hash tb)) (t_meta tb) (t_user tb));
      rret true
  | _ => _ <~ error2 f NotTableReference; rret false
  end.

(** What an instruction does to the loop of [run]: the next round, or [return] with
    the result and [inout]. *)
Inductive StepResult : Type :=
  | Continue (f : Frame)
  | Return (ok : bool) (inout : list QVariant).

(** [return error2(f, ...)] *)
Definition fail2 (f : Frame) (m : EngineMsg) : SM Engine StepResult :=
  b <~ error2 f m; rret (Return b []).

(** [if( !m ) return false; break;] *)
Definition or_return (m : SM Engine (bool * Frame)) : SM Engine StepResult :=
  r <~ m; let '(ok, f) := r in rret (if ok : bool then Continue f else Return false []).

(** [f.d_pc++; break;] after the work of an instruction. *)
Definition then_next (f : Frame) (m : SM Engine unit) : SM Engine StepResult :=
  _ <~ m; rret (Continue (next_pc f)).
Definition ok_next (f : Frame) (m : SM Engine bool) : SM Engine StepResult :=
  ok <~ m; rret (if ok : bool then Continue (next_pc f) else Return false []).

(** Whether a loop with this index goes on.
    [src/LuaJitEngine.cpp:883-883] run *)
Definition for_continues (idx stop step : Z) : bool :=
  ((0 <=? step) && (idx <=? stop)) || ((step <? 0) && (stop <=? idx)).

(** The result of a signed addition, undefined when it overflows. *)
Definition int_add (a b : Z) : option Z :=
  let s := a + b in if (- 2 ^ 31 <=? s) && (s <? 2 ^ 31) then Some s else None.

(** [src/LuaJitEngine.cpp:853-871] run *)
Definition step_FORI (f : Frame) (bc : Instruction) : SM Engine StepResult :=
  v0 <~ getSlotVal f (d_a bc); let idx := toInt v0 in
  v1 <~ getSlotVal f (d_a bc + 1); let stop := toInt v1 in
  v2 <~ getSlotVal f (d_a bc + 2); let step := toInt v2 in
  ext <~ getSlot f (d_a bc + 3);
  _ <~ setSlotVal f (d_a bc + 3) (QInt idx);
  let f := next_pc f in
  if for_continues idx stop step then
    s <~ mderef ext; _ <~ write_slot s (QInt idx); rret (Continue f)
  else rret (Continue (set_pc f (f_pc f + getCd bc))).

(** [src/LuaJitEngine.cpp:872-892] run *)
Definition step_FORL (f : Frame) (bc : Instruction) : SM Engine StepResult :=
  idxSlot <~ getSlot f (d_a bc);
  v1 <~ getSlotVal f (d_a bc + 1); let stop := toInt v1 in
  v2 <~ getSlotVal f (d_a bc + 2); let step := toInt v2 in
  ext <~ getSlot f (d_a bc + 3);
  i0 <~ mderef idxSlot;
  v0 <~ read_slot i0;
  idx <~ mderef (int_add (toInt v0) step);
  _ <~ write_slot i0 (QInt idx);
  let f := next_pc f in
  if for_continues idx stop step then
    s <~ mderef ext; _ <~ write_slot s (QInt idx);
    rret (Continue (set_pc f (f_pc f + getCd bc)))
  else rret (Continue f).

(** Loops and branches.
    [src/LuaJitEngine.cpp:849-896] run *)
Definition step_branch (f : Frame) (bc : Instruction) : SM Engine StepResult :=
  match op_of bc with
  | OP_JMP => rret (Continue (set_pc f (f_pc f + (getCd bc + 1))))
  | OP_FORI => step_FORI f bc
  | OP_FORL => step_FORL f bc
  | _ => rret (Continue (next_pc f))
  end.

(** Unary test and copy.
    [src/LuaJitEngine.cpp:898-917] run *)
Definition step_test (f : Frame) (bc : Instruction) : SM Engine StepResult :=
  let op := op_of bc in
  d <~ getSlotVal f (getCd bc);
  match op with
  | OP_ISTC | OP_ISFC =>
      if (bool_decide (op = OP_ISTC) && isTrue d) || negb (isTrue d) then
        _ <~ setSlotVal f (d_a bc) d;
        r <~ doJumpAfterCompare f true; rret (Continue (snd r))
      else rret (Continue (next_pc f))
  | _ =>
      r <~ doJumpAfterCompare f ((bool_decide (op = OP_IST) && isTrue d) || negb (isTrue d));
      rret (Continue (snd r))
  end.

(** Returns.
    [src/LuaJitEngine.cpp:919-932] run *)
Definition step_return (f : Frame) (bc : Instruction) : SM Engine StepResult :=
  match op_of bc with
  | OP_RET1 => v <~ getSlotVal f (d_a bc); rret (Return true [v])
  | OP_RET =>
      vs <~ mmap (zrange (d_a bc) (d_a bc + getCd bc - 2)) (getSlotVal f);
      rret (Return true vs)
  | _ => rret (Return true [])
  end.

(** [src/LuaJitEngine.cpp:943-961] run *)
Definition step_UNM (f : Frame) (bc : Instruction) : SM Engine StepResult :=
  val <~ getSlotVal f (getCd bc);
  if isNumber val then then_next f (setSlotVal f (d_a bc) (QDouble (dbl_opp (toDouble val))))
  else
    c <~ getHandler val UNM;
    v <~ call_handler f c [val];
    match v with
    | Some v => then_next f (setSlotVal f (d_a bc) v)
    | None => rret (Return false [])
    end.

(** [src/LuaJitEngine.cpp:962-991] run *)
Definition step_LEN (f : Frame) (bc : Instruction) : SM Engine StepResult :=
  v <~ getSlotVal f (getCd bc);
  match v with
  | QByteArray s => then_next f (setSlotVal f (d_a bc) (QInt (Z.of_nat (length s))))
  | QTableRef t =>
      tb <~ the_table t;
      if negb (t_user tb)
      then then_next f (setSlotVal f (d_a bc) (QInt (Z.of_nat (length (t_hash tb)))))
      else
        c <~ getHandler v LEN;
        if isValid c then
          r <~ call_handler f c [v];
          match r with
          | Some r => then_next f (setSlotVal f (d_a bc) r)
          | None => rret (Return false [])
          end
        else fail2 f NoLenMethod
  | _ => fail2 f InvalidLen
  end.

(** [src/LuaJitEngine.cpp:1015-1024] run *)
Definition step_CAT (f : Frame) (bc : Instruction) : SM Engine StepResult :=
  vs <~ mmap (zrange (d_b bc) (getCd bc + 1)) (getSlotVal f);
  then_next f (setSlotVal f (d_a bc) (QByteArray (concat (map toByteArray vs)))).

(** Unary and binary operations.
    [src/LuaJitEngine.cpp:934-1024] run *)
Definition step_op (f : Frame) (bc : Instruction) : SM Engine StepResult :=
  match op_of bc with
  | OP_MOV => then_next f (v <~ getSlotVal f (getCd bc); setSlotVal f (d_a bc) v)
  | OP_NOT => then_next f (v <~ getSlotVal f (getCd bc); setSlotVal f (d_a bc) (QBool (negb (toBool v))))
  | OP_UNM => step_UNM f bc
  | OP_LEN => step_LEN f bc
  | OP_CAT => step_CAT f bc
  | _ => ok_next f (doArith f bc)
  end.

(** Constants.
    [src/LuaJitEngine.cpp:1026-1048] run *)
Definition step_const (f : Frame) (bc : Instruction) : SM Engine StepResult :=
  match op_of bc with
  | OP_KSHORT => then_next f (setSlotVal f (d_a bc) (QInt (getCd bc)))
  | OP_KSTR | OP_KCDATA => then_next f (v <~ getGcConst f (getCd bc); setSlotVal f (d_a bc) v)
  | OP_KNUM => then_next f (v <~ getNumConst f (getCd bc); setSlotVal f (d_a bc) v)
  | OP_KPRI => then_next f (setSlotVal f (d_a bc) (getPriConst (getCd bc)))
  | _ => then_next f (mfor (zrange (d_a bc) (getCd bc + 1)) (fun i => setSlotVal f i QInvalid))
  end.

(** [src/LuaJitEngine.cpp:1077-1087] run *)
Definition step_TDUP (f : Frame) (bc : Instruction) : SM Engine StepResult :=
  t <~ create_table [];
  v <~ getGcConst f (getCd bc);
  match v with
  | QConstTable h arr =>
      then_next f (
        _ <~ mod_table (Some t) (fun tb => mkTable (merged (mkConstTable h arr)) (t_meta tb) (t_user tb));
        setSlotVal f (d_a bc) (QTableRef (Some t)))
  | _ => fail2 f NotConstTable
  end.

(** Globals and tables; of [d_globals[key] = value] the order in which the operands
    are evaluated makes no difference to the values.
    [src/LuaJitEngine.cpp:1050-1087] run *)
Definition step_table (f : Frame) (bc : Instruction) : SM Engine StepResult :=
  match op_of bc with
  | OP_GSET => then_next f (
      k <~ getGcConst f (getCd bc); v <~ getSlotVal f (d_a bc);
      rmod (fun e => set_globals (qhash_insert k v (e_globals e)) e))
  | OP_GGET => then_next f (
      k <~ getGcConst f (getCd bc); g <~ rget e_globals; setSlotVal f (d_a bc) (qhash_value k g))
  | OP_TNEW => then_next f (t <~ create_table []; setSlotVal f (d_a bc) (QTableRef (Some t)))
  | OP_TGETV | OP_TGETS | OP_TGETB => ok_next f (doGetT f bc)
  | OP_TSETV | OP_TSETS | OP_TSETB => ok_next f (doSetT f bc)
  | _ => step_TDUP f bc
  end.

(** The upvalue slots of a new closure; an invalid one is reported and left out.
    [src/LuaJitEngine.cpp:1134-1150] run *)
Fixpoint capture (f : Frame) (p : Function) (n : nat) (i : Z) : SM Engine (list nat) :=
  match n with
  | O => rret []
  | S n =>
      let u := getUpval p i in
      let raw := default 0 (d_upvals p !! Z.to_nat i) in
      s <~ (if isLocalUpval p i
            then match f_slots f !! Z.to_nat u with
                 | Some s => rret [s]
                 | None => _ <~ error2 f (InvalidSlotUpval raw i); rret []
                 end
            else match cl_upvals (f_func f) !! Z.to_nat u with
                 | Some s => rret [s]
                 | None => _ <~ error2 f (InvalidUpvalNumber raw); rret []
                 end);
      rest <~ capture f p n (i + 1);
      rret (s ++ rest)
  end.

(** [src/LuaJitEngine.cpp:1124-1154] run *)
Definition step_FNEW (f : Frame) (bc : Instruction) : SM Engine StepResult :=
  fv <~ getGcConst f (getCd bc);
  match fv with
  | QFuncRef a =>
      p <~ mderef (H !! a);
      ups <~ capture f p (length (d_upvals p)) 0;
      then_next f (setSlotVal f (d_a bc) (QClosure a ups))
  | _ => fail2 f (NotPrototype (getCd bc))
  end.

(** [src/LuaJitEngine.cpp:1116-1123] run *)
Definition step_UCLO (f : Frame) (bc : Instruction) : SM Engine StepResult :=
  _ <~ mfor (drop (Z.to_nat (d_a bc)) (f_slots f)) (fun s =>
         rmod (fun e => set_slots (alter (fun sl => mkSlot (s_val sl) (Some true)) s (e_slots e)) e));
  if negb (getCd bc =? 0) then rret (Continue (set_pc f (f_pc f + getCd bc)))
  else rret (Continue (next_pc f)).

(** Upvalues and functions.
    [src/LuaJitEngine.cpp:1095-1154] run *)
Definition step_upval (f : Frame) (bc : Instruction) : SM Engine StepResult :=
  match op_of bc with
  | OP_UGET => then_next f (v <~ getUpvalue f (getCd bc); setSlotVal f (d_a bc) v)
  | OP_USETV => then_next f (v <~ getSlotVal f (getCd bc); setUpvalue f (d_a bc) v)
  | OP_USETS => then_next f (v <~ getGcConst f (getCd bc); setUpvalue f (d_a bc) v)
  | OP_USETN => then_next f (v <~ getNumConst f (getCd bc); setUpvalue f (d_a bc) v)
  | OP_USETP => then_next f (setUpvalue f (d_a bc) (getPriConst (getCd bc)))
  | OP_UCLO => step_UCLO f bc
  | _ => step_FNEW f bc
  end.

(** The results go to the slots of their own index in [inout].
    [src/LuaJitEngine.cpp:1157-1170] run *)
Definition step_CALL (f : Frame) (bc : Instruction) : SM Engine StepResult :=
  vc <~ getSlotVal f (d_a bc);
  inout <~ mmap (zrange (d_a bc + 1) (d_a bc + getCd bc - 1 + 1)) (getSlotVal f);
  r <~ doCall f vc inout;
  let '(res, inout) := r in
  if res <? 0 then rret (Return false [])
  else
    let hi := Z.min (d_a bc + d_b bc - 2 + 1) (Z.min (Z.of_nat (length inout)) res) in
    then_next f (mfor (zrange (d_a bc) hi) (fun i =>
      v <~ mderef (inout !! Z.to_nat i); setSlotVal f i v)).

(** One instruction.
    [src/LuaJitEngine.cpp:827-848] run *)
Definition exec (f : Frame) (bc : Instruction) : SM Engine StepResult :=
  match op_of bc with
  | OP_ISLT | OP_ISGE | OP_ISLE | OP_ISGT => or_return (doCompare f bc)
  | OP_ISEQV | OP_ISNEV | OP_ISEQS | OP_ISNES | OP_ISEQN | OP_ISNEN | OP_ISEQP | OP_ISNEP =>
      or_return (doEquality f bc)
  | OP_JMP | OP_FORI | OP_FORL | OP_LOOP => step_branch f bc
  | OP_ISTC | OP_ISFC | OP_IST | OP_ISF => step_test f bc
  | OP_RET0 | OP_RET1 | OP_RET => step_return f bc
  | OP_MOV | OP_NOT | OP_UNM | OP_LEN | OP_CAT
  | OP_ADDVN | OP_SUBVN | OP_MULVN | OP_DIVVN | OP_MODVN
  | OP_ADDNV | OP_SUBNV | OP_MULNV | OP_DIVNV | OP_MODNV
  | OP_ADDVV | OP_SUBVV | OP_MULVV | OP_DIVVV | OP_MODVV | OP_POW => step_op f bc
  | OP_KSHORT | OP_KSTR | OP_KCDATA | OP_KNUM | OP_KPRI | OP_KNIL => step_const f bc
  | OP_GSET | OP_GGET | OP_TNEW | OP_TDUP
  | OP_TGETV | OP_TGETS | OP_TGETB | OP_TSETV | OP_TSETS | OP_TSETB => step_table f bc
  | OP_UGET | OP_USETV | OP_USETS | OP_USETN | OP_USETP | OP_UCLO | OP_FNEW => step_upval f bc
  | OP_CALL => step_CALL f bc
  | _ => fail2 f (Unsupported (d_name bc))
  end.

(** A round of the loop of [run].
    [src/LuaJitEngine.cpp:820-828] run *)
Definition step (f : Frame) : SM Engine StepResult :=
  match fetch f with
  | None => fail2 f PcOutOfBytecode
  | Some w => exec f (dissectInstruction w)
  end.

End Step.

(** The frame of a call, its slots initialised from the arguments.
    [src/LuaJitEngine.cpp:809-818] run *)
Definition new_frame (c : Closure) (inout : list QVariant) : SM Engine Frame :=
  fn <~ mderef (H !! cl_func c);
  fun e =>
    let n := Z.to_nat (d_framesize fn) in
    let base := length (e_slots e) in
    let vals := map (fun i => default QInvalid (inout !! i)) (seq 0 n) in
    Some (mkFrame c fn (seq base n) 0,
          set_slots (e_slots e ++ map (fun v => mkSlot v None) vals) e).

(** The loop of [run]: [fuel] bounds the rounds, those of the calls included on
    each path; [out_of_fuel] is what happens when it is used up.
    [src/LuaJitEngine.cpp:820-828] run *)
Fixpoint run_loop (out_of_fuel : SM Engine (bool * list QVariant)) (fuel : nat) (f : Frame)
    : SM Engine (bool * list QVariant) :=
  match fuel with
  | O => out_of_fuel
  | S fuel =>
      r <~ step (fun c args => f' <~ new_frame c args; run_loop out_of_fuel fuel f') f;
      match r with
      | Continue f => run_loop out_of_fuel fuel f
      | Return ok inout => rret (ok, inout)
      end
  end.

(** [src/LuaJitEngine.cpp:809-828] run *)
Definition run_closure (fuel : nat) (c : Closure) (inout : list QVariant) : SM Engine (bool * list QVariant) :=
  f <~ new_frame c inout; run_loop rfail fuel f.

(** [registered] are the tables of [TableRef::d_all].
    [src/LuaJitEngine.cpp:94-115] collectGarbage *)
Definition collectGarbage (registered : gset nat) : SM Engine unit :=
  rmod (fun e => set_tables (filter (fun at_ => at_.1 ∈ registered) (e_tables e)) (e_next e) e).

(** [src/LuaJitEngine.cpp:87-92] reset *)
Definition reset (registered : gset nat) : SM Engine unit :=
  _ <~ rmod (set_globals []);
  _ <~ collectGarbage registered;
  installLibs.

(** [bc] is [None] for a null pointer; its root function is [getRoot].
    [src/LuaJitEngine.cpp:67-85] run *)
Definition run (fuel : nat) (registered : gset nat) (bc : option JitBytecode) : SM Engine bool :=
  match bc with
  | None => rret false
  | Some bc =>
      _ <~ reset registered;
      match getRoot bc with
      | None => eng_error InvalidChunk
      | Some f =>
          r <~ run_closure fuel (mkClosure f []) [];
          let '(ok, vl) := r in
          _ <~ (if ok : bool then mfor vl (fun v => rmod (add_print (tostring v))) else rret tt);
          rret ok
      end
  end.

End Interpreter.
