(* ===== verification/EngineSpec.v ===== *)
(** * The engine does nothing undefined

    An invariant of the engine (every value names slots, tables and functions that are
    alive, and frames have the slots that their code uses) and the proof that each
    instruction keeps it and has a defined result. *)

From S2P Require Import Prelude Double Bytecode QtLib BytecodeIO Engine.
From Stdlib Require Import Strings.Byte.
Local Open Scope Z_scope.
Local Open Scope rd_scope.

(** ** An example of the libraries *)

Definition Engine_example : EngineLib := {|
  fileName s := s;
  variant_eqb a b := match a, b with
    | QClosure f _, QClosure g _ | QCFunction f, QCFunction g => bool_decide (f = g)
    | QTableRef s, QTableRef t => bool_decide (s = t)
    | _, _ => simple_eqb a b
    end;
  dbl_pow a b := if dbl_eqb b (dbl_of_Z 2) then dbl_mul a a else dbl_nan;
  number16 z := [zbyte z];
  table_ptr t := match t with Some t => Z.of_nat t + 1 | None => 0 end;
  func_ptr f := Z.of_nat f;
  native_ptr f := Z.of_nat f
|}.

Definition empty_engine : Engine := mkEngine [] [] ∅ 0 [] [].

(** A function with these constants and this code. *)
Definition test_function (framesize : Z) (code : list Z) (objs nums : list QVariant) (upvals : list Z) : Function :=
  {| d_sourceFile := []; d_id := 7; d_flags := 0; d_numparams := 0; d_framesize := framesize;
     d_isRoot := true; d_firstline := 0; d_numline := 0; d_byteCodes := code; d_upvals := upvals;
     d_constObjs := objs; d_constNums := nums; d_lines := []; d_upNames := []; d_vars := [];
     d_varNames := []; d_outer := None |}.

Definition i_ad (o : Op) (a d : Z) : Z := word_ad (Op_val o) a d.
Definition i_abc (o : Op) (a b c : Z) : Z := word_abc (Op_val o) a b c.
Definition jmp (d : Z) : Z := d + JumpBias.

(** Sums the numbers from 1 to 10 and prints the result. *)
Definition sum_program : Heap := [test_function 8 [
  i_ad OP_KSHORT 0 0;
  i_ad OP_KSHORT 1 1; i_ad OP_KSHORT 2 10; i_ad OP_KSHORT 3 1;
  i_ad OP_FORI 1 (jmp 2);
  i_abc OP_ADDVV 0 0 4;
  i_ad OP_FORL 1 (jmp (-2));
  i_ad OP_RET1 0 2] [] [] []].

Example sum_runs :
  option_map fst (@run_closure LuaJIT20 Qt_example Engine_example sum_program 100 (mkClosure 0 []) [] empty_engine)
  = Some (true, [QDouble (dbl_of_Z 55)]).
Proof. vm_compute. reflexivity. Qed.

(** ** Well-formed engines *)

(** Values that name no object. *)
Definition plain (v : QVariant) : Prop :=
  match v with
  | QConstTable _ _ | QFuncRef _ | QTableRef _ | QClosure _ _ | QCFunction _ => False
  | _ => True
  end.

Section Spec.
Context `{L : LjBc} `{Q : QtLib} `{EL : EngineLib}.
Variable H : Heap.

(** Every object a value names exists. *)
Definition val_ok (e : Engine) (v : QVariant) : Prop :=
  match v with
  | QTableRef t => exists a, t = Some a /\ is_Some (e_tables e !! a)
  | QClosure f ups => is_Some (H !! f) /\ Forall (fun s => (s < length (e_slots e))%nat) ups
  | QFuncRef f => is_Some (H !! f)
  | QCFunction n => (n < 3)%nat
  | QConstTable h arr => Forall (fun kv => plain kv.1 /\ plain kv.2) h /\ Forall plain arr
  | _ => True
  end.

Definition hash_ok (e : Engine) (l : list (QVariant * QVariant)) : Prop :=
  Forall (fun kv => val_ok e kv.1 /\ val_ok e kv.2) l.

Definition table_ok (e : Engine) (t : Table) : Prop :=
  hash_ok e (t_hash t) /\ (forall m, t_meta t = Some m -> is_Some (e_tables e !! m)).

Record engine_ok (e : Engine) : Prop := {
  ok_globals : hash_ok e (e_globals e);
  ok_slots : Forall (fun s => val_ok e (s_val s)) (e_slots e);
  ok_tables : map_Forall (fun _ t => table_ok e t) (e_tables e);
  ok_fresh : forall a, is_Some (e_tables e !! a) -> (a < e_next e)%nat
}.

(** Objects are added, never removed: what a run of the engine does to its heap. *)
Record extends (e e' : Engine) : Prop := {
  ext_slots : (length (e_slots e) <= length (e_slots e'))%nat;
  ext_tables : forall a, is_Some (e_tables e !! a) -> is_Some (e_tables e' !! a)
}.

(** The functions: their constants name functions of the heap only. *)
Definition const_ok (v : QVariant) : Prop :=
  match v with QTableRef _ | QClosure _ _ | QCFunction _ => False | _ => val_ok empty_engine v end.

Definition function_ok (fn : Function) : Prop :=
  Forall const_ok (d_constObjs fn) /\ Forall const_ok (d_constNums fn) /\
  Forall (fun w => 0 <= w < 2 ^ 32) (d_byteCodes fn).

Definition heap_ok : Prop := Forall function_ok H.

Record frame_ok (e : Engine) (f : Frame) : Prop := {
  fr_fn : H !! cl_func (f_func f) = Some (f_fn f);
  fr_slots : Forall (fun s => (s < length (e_slots e))%nat) (f_slots f);
  fr_upvals : Forall (fun s => (s < length (e_slots e))%nat) (cl_upvals (f_func f));
  fr_pc : 0 <= f_pc f < 2 ^ 32;
  fr_size : Z.of_nat (length (f_slots f)) = Z.max 0 (d_framesize (f_fn f))
}.

#[export] Instance extends_preorder : PreOrder extends.
Proof.
  split; [by split|]. intros a b c [H1 H2] [H3 H4]. split; [lia|auto].
Qed.

Lemma slots_mono e e' l : extends e e' ->
  Forall (fun s => (s < length (e_slots e))%nat) l -> Forall (fun s => (s < length (e_slots e'))%nat) l.
Proof. intros [Hs _] Hl. eapply Forall_impl; [exact Hl|]. intros; simpl in *; lia. Qed.

Lemma val_mono e e' v : extends e e' -> val_ok e v -> val_ok e' v.
Proof.
  intros He. destruct v; simpl; try done.
  - intros (a & -> & Ha). exists a. split; [done|]. by apply (ext_tables _ _ He).
  - intros [? ?]. split; [done|]. by eapply slots_mono.
Qed.

Lemma hash_mono e e' l : extends e e' -> hash_ok e l -> hash_ok e' l.
Proof.
  intros He Hl. eapply Forall_impl; [exact Hl|]. intros kv [? ?]. split; by eapply val_mono.
Qed.

Lemma vals_mono e e' l : extends e e' -> Forall (val_ok e) l -> Forall (val_ok e') l.
Proof. intros He Hl. eapply Forall_impl; [exact Hl|]. intros; by eapply val_mono. Qed.

Lemma table_mono e e' t : extends e e' -> table_ok e t -> table_ok e' t.
Proof.
  intros He [Hh Hm]. split; [by eapply hash_mono|]. intros m Hm'. apply (ext_tables _ _ He). auto.
Qed.

Lemma frame_mono e e' f : extends e e' -> frame_ok e f -> frame_ok e' f.
Proof. intros He []. split; eauto using slots_mono. Qed.

Lemma const_val_ok e v : const_ok v -> val_ok e v.
Proof. by destruct v. Qed.

Lemma plain_val_ok e v : plain v -> val_ok e v.
Proof. by destruct v. Qed.

(** ** Specifications of computations

    From a well-formed engine that extends [e0] the computation ends in a
    well-formed engine that extends the one it started from, with a result that
    satisfies [R]; it may be undefined only if [T] holds. *)
Definition spec (T : Prop) (e0 : Engine) {A} (m : SM Engine A) (R : Engine -> A -> Prop) : Prop :=
  forall e, extends e0 e -> engine_ok e ->
  match m e with
  | Some (x, e') => extends e e' /\ engine_ok e' /\ R e' x
  | None => T
  end.

Lemma spec_ret T e0 {A} (x : A) (R : Engine -> A -> Prop) :
  (forall e, extends e0 e -> R e x) -> spec T e0 (rret x) R.
Proof. intros HR e He Hok. simpl. split; [reflexivity|auto]. Qed.

Lemma spec_bind T e0 {A B} (m : SM Engine A) (k : A -> SM Engine B) R R' :
  spec T e0 m R -> (forall e1 x, extends e0 e1 -> R e1 x -> spec T e1 (k x) R') ->
  spec T e0 (rbind m k) R'.
Proof.
  intros Hm Hk e He Hok. specialize (Hm e He Hok). unfold rbind.
  destruct (m e) as [[x e1]|]; [|done]. destruct Hm as (He1 & Hok1 & Hx).
  specialize (Hk e1 x ltac:(by etrans) Hx e1 ltac:(done) Hok1).
  destruct (k x e1) as [[y e2]|]; [|done]. destruct Hk as (? & ? & ?).
  split; [by etrans|done].
Qed.

Lemma spec_weaken T e0 {A} (m : SM Engine A) (R R' : Engine -> A -> Prop) :
  spec T e0 m R -> (forall e x, extends e0 e -> R e x -> R' e x) -> spec T e0 m R'.
Proof.
  intros Hm HR e He Hok. specialize (Hm e He Hok). destruct (m e) as [[x e1]|]; [|done].
  destruct Hm as (? & ? & ?). split; [done|]. split; [done|]. apply HR; [by etrans|done].
Qed.

Lemma spec_fail (T : Prop) e0 {A} (R : Engine -> A -> Prop) : T -> spec T e0 rfail R.
Proof. intros HT e He Hok. exact HT. Qed.

Lemma spec_deref (T : Prop) e0 {A} (o : option A) (R : Engine -> A -> Prop) :
  (is_Some o \/ T) -> (forall e x, extends e0 e -> o = Some x -> R e x) -> spec T e0 (mderef o) R.
Proof.
  intros Ho HR. destruct o as [x|]; simpl.
  - apply spec_ret. intros. by apply HR.
  - destruct Ho as [[? ?]|]; [done|]. by apply spec_fail.
Qed.

Lemma spec_deref_Some (T : Prop) e0 {A} (x : A) : spec T e0 (mderef (Some x)) (fun _ y => y = x).
Proof. by apply spec_ret. Qed.

(** A change of the engine that keeps it well-formed. *)
Lemma spec_mod T e0 (g : Engine -> Engine) R :
  (forall e, extends e0 e -> engine_ok e -> extends e (g e) /\ engine_ok (g e) /\ R (g e) tt) ->
  spec T e0 (rmod g) R.
Proof. intros Hg e He Hok. simpl. by apply Hg. Qed.

Lemma spec_get T e0 {A} (g : Engine -> A) (R : Engine -> A -> Prop) :
  (forall e, extends e0 e -> engine_ok e -> R e (g e)) -> spec T e0 (rget g) R.
Proof. intros Hg e He Hok. simpl. split; [reflexivity|auto]. Qed.

Lemma spec_for T e0 {A} (P : A -> Prop) (l : list A) (body : A -> SM Engine unit) :
  Forall P l ->
  (forall e x, extends e0 e -> P x -> spec T e (body x) (fun _ _ => True)) ->
  spec T e0 (mfor l body) (fun _ _ => True).
Proof.
  revert e0. induction l as [|x l IH]; intros e0 HP Hb; simpl; [by apply spec_ret|].
  apply Forall_cons in HP as [Hx HP].
  eapply spec_bind; [by apply Hb|]. intros e1 [] He1 _. apply IH; [done|].
  intros. apply Hb; [by etrans|done].
Qed.

Lemma spec_map T e0 {A} (P : A -> Prop) (l : list A) (body : A -> SM Engine QVariant) :
  Forall P l ->
  (forall e x, extends e0 e -> P x -> spec T e (body x) val_ok) ->
  spec T e0 (mmap l body) (fun e vs => Forall (val_ok e) vs).
Proof.
  revert e0. induction l as [|x l IH]; intros e0 HP Hb; simpl; [by apply spec_ret|].
  apply Forall_cons in HP as [Hx HP].
  eapply spec_bind; [by apply Hb|]. intros e1 v He1 Hv.
  eapply spec_bind; [apply IH; [done|]; intros; apply Hb; [by etrans|done]|].
  intros e2 vs He2 Hvs. apply spec_ret. intros e He. constructor; [|by eapply vals_mono].
  eapply val_mono; [|exact Hv]. by etrans.
Qed.

(** ** Changes of a well-formed engine *)
Lemma ok_set_slots e l :
  engine_ok e -> (length (e_slots e) <= length l)%nat ->
  Forall (fun s => val_ok (set_slots l e) (s_val s)) l ->
  extends e (set_slots l e) /\ engine_ok (set_slots l e).
Proof.
  intros [Hg Hs Ht Hn] Hlen Hl.
  assert (He : extends e (set_slots l e)) by (by split).
  split; [exact He|]. split; simpl; [by eapply hash_mono|done| |done].
  intros a t Ha. eapply table_mono; [exact He|]. by apply (Ht a).
Qed.

Lemma ok_set_globals e g :
  engine_ok e -> hash_ok e g -> extends e (set_globals g e) /\ engine_ok (set_globals g e).
Proof. intros [Hg Hs Ht Hn] Hh. split; [by split|]. by split. Qed.

Lemma ok_set_table e a tb n :
  engine_ok e -> (a < n)%nat -> (e_next e <= n)%nat ->
  let e' := set_tables (<[a := tb]> (e_tables e)) n e in
  (extends e e' -> table_ok e' tb) -> extends e e' /\ engine_ok e'.
Proof.
  intros [Hg Hs Ht Hn] Ha Hle e' Htb.
  assert (Hin : forall b, is_Some (e_tables e !! b) -> is_Some (e_tables e' !! b)).
  { intros b Hb. simpl. destruct (decide (a = b)) as [->|Hne].
    - rewrite lookup_insert_eq. by eexists.
    - by rewrite lookup_insert_ne. }
  assert (He : extends e e') by (by split).
  split; [exact He|]. split; simpl.
  - by eapply hash_mono.
  - eapply Forall_impl; [exact Hs|]. intros. by eapply val_mono.
  - apply map_Forall_insert_2; [by apply Htb|].
    intros b t Hb. eapply table_mono; [exact He|]. by apply (Ht b).
  - intros b Hb. destruct (decide (a = b)) as [->|Hne]; [done|].
    rewrite lookup_insert_ne in Hb by done. pose proof (Hn b Hb). lia.
Qed.

Lemma alter_insert_Some (m : gmap nat Table) a g t :
  m !! a = Some t -> alter g a m = <[a := g t]> m.
Proof.
  intros Hm. apply map_eq. intros b. destruct (decide (a = b)) as [->|Hne].
  - by rewrite lookup_alter_eq, lookup_insert_eq, Hm.
  - by rewrite lookup_alter_ne, lookup_insert_ne.
Qed.

(** ** Hash tables *)
Lemma qhash_find_ok e k l v : hash_ok e l -> qhash_find k l = Some v -> val_ok e v.
Proof.
  intros Hl. induction Hl as [|[k' v'] l [_ Hv'] Hl IH]; simpl; [done|].
  destruct (key_eqb k' k); [|done]. by intros [= <-].
Qed.

Lemma qhash_value_ok e k l : hash_ok e l -> val_ok e (qhash_value k l).
Proof.
  intros Hl. unfold qhash_value. destruct (qhash_find k l) eqn:E; [|done]. by eapply qhash_find_ok.
Qed.

Lemma qhash_insert_Forall (p q : QVariant -> Prop) k v l :
  p k -> q v -> Forall (fun kv => p kv.1 /\ q kv.2) l ->
  Forall (fun kv => p kv.1 /\ q kv.2) (qhash_insert k v l).
Proof.
  intros Hk Hv Hl. induction Hl as [|[k' v'] l [Hx Hy] Hl IH]; simpl; [by constructor|].
  by destruct (key_eqb k' k); constructor.
Qed.

Lemma qhash_insert_ok e k v l :
  hash_ok e l -> val_ok e k -> val_ok e v -> hash_ok e (qhash_insert k v l).
Proof. intros Hl Hk Hv. by apply (qhash_insert_Forall (val_ok e) (val_ok e)). Qed.

Lemma merged_ok e h arr :
  Forall (fun kv => plain kv.1 /\ plain kv.2) h -> Forall plain arr ->
  hash_ok e (merged (mkConstTable h arr)).
Proof.
  intros Hh Harr. unfold merged. simpl.
  assert (Ha : Forall (fun iv : nat * QVariant => plain iv.2) (imap pair arr)).
  { apply Forall_lookup. intros i x Hx. rewrite list_lookup_imap in Hx.
    destruct (arr !! i) as [v|] eqn:E; [|done]. injection Hx as <-. simpl.
    rewrite Forall_lookup in Harr. eauto. }
  enough (Hp : forall l, Forall (fun kv => plain kv.1 /\ plain kv.2) h ->
    Forall (fun iv : nat * QVariant => plain iv.2) l ->
    Forall (fun kv => plain kv.1 /\ plain kv.2)
      (foldl (fun res e => qhash_insert (QInt (Z.of_nat (fst e) + 1)) (snd e) res) h l)).
  { eapply Forall_impl; [by apply Hp|]. intros kv [? ?]. split; by apply plain_val_ok. }
  intros l. revert h Hh. induction l as [|[i v] l IH]; intros h Hh _ Hl; simpl; [done|].
  apply Forall_cons in Hl as [Hv Hl].
  assert (Forall (fun kv : QVariant * QVariant => plain kv.1 /\ plain kv.2)
            (qhash_insert (QInt (Z.of_nat i + 1)) v h)) by by apply qhash_insert_Forall.
  by apply IH.
Qed.

(** ** The operations on frames *)

Section Frame_ops.
Variables (T : Prop) (e0 : Engine) (f : Frame).
Hypothesis Hf : frame_ok e0 f.
Hypothesis HH : heap_ok.

Lemma spec_rmod_same (g : Engine -> Engine) :
  (forall e, e_globals (g e) = e_globals e /\ e_slots (g e) = e_slots e /\
             e_tables (g e) = e_tables e /\ e_next (g e) = e_next e) ->
  forall e1, spec T e1 (rmod g) (fun _ _ => True).
Proof.
  intros Hg e1. apply spec_mod. intros e _ Hok. destruct (Hg e) as (G & S & Tb & N).
  assert (He : extends e (g e)) by (split; [by rewrite S|by rewrite Tb]).
  split; [exact He|]. split; [|done].
  destruct Hok as [Hgl Hs Ht Hn]. split.
  - rewrite G. by eapply hash_mono.
  - rewrite S. eapply Forall_impl; [exact Hs|]. intros. by eapply val_mono.
  - rewrite Tb. intros a t Ha. eapply table_mono; [exact He|]. by apply (Ht a).
  - rewrite Tb, N. done.
Qed.

Lemma spec_error2 e1 m : spec T e1 (error2 f m) (fun _ b => b = false).
Proof.
  unfold error2. eapply spec_bind; [by apply spec_rmod_same|]. intros. by apply spec_ret.
Qed.

Lemma spec_eng_error e1 m : spec T e1 (eng_error m) (fun _ b => b = false).
Proof.
  unfold eng_error. eapply spec_bind; [by apply spec_rmod_same|]. intros. by apply spec_ret.
Qed.

Lemma spec_getSlot e1 i :
  extends e0 e1 -> 0 <= i ->
  spec T e1 (getSlot f i) (fun e s => match s with
    | Some s => (s < length (e_slots e))%nat
    | None => Z.of_nat (length (f_slots f)) <= i end).
Proof.
  intros He Hi. unfold getSlot. destruct (Z.ltb_spec i (Z.of_nat (length (f_slots f)))) as [Hlt|Hge].
  - destruct (Z.ltb_spec i 0); [lia|].
    destruct (lookup_nat_lt (f_slots f) (Z.to_nat i)) as [s Hs]; [lia|]. rewrite Hs. simpl.
    eapply spec_bind; [by apply spec_ret with (R := fun _ x => x = s)|].
    intros e2 x He2 ->. apply spec_ret. intros e3 He3.
    pose proof (slots_mono e0 e3 _ ltac:(do 2 (etrans; [|eassumption]); exact He) (fr_slots _ _ Hf)) as Hall.
    rewrite Forall_lookup in Hall. eauto.
  - eapply spec_bind; [apply spec_error2|]. intros. by apply spec_ret.
Qed.

Lemma spec_read_slot e1 s : (s < length (e_slots e1))%nat -> spec T e1 (read_slot s) val_ok.
Proof.
  intros Hs e He Hok. unfold read_slot, rbind, rget, mderef.
  destruct (lookup_nat_lt (e_slots e) s) as [sl Hsl].
  { pose proof (ext_slots _ _ He). lia. }
  rewrite Hsl. simpl. split; [reflexivity|]. split; [done|].
  pose proof (ok_slots _ Hok) as Hall. rewrite Forall_lookup in Hall. eauto.
Qed.

Lemma spec_set_slot e1 s (g : Slot -> Slot) :
  (forall e sl, extends e1 e -> val_ok e (s_val sl) -> val_ok e (s_val (g sl))) ->
  spec T e1 (rmod (fun e => set_slots (alter g s (e_slots e)) e)) (fun _ _ => True).
Proof.
  intros Hg. apply spec_mod. intros e He Hok.
  edestruct (ok_set_slots e (alter g s (e_slots e))) as [Hx Hy]; [done|by rewrite length_alter| |done].
  apply Forall_lookup. intros i sl Hsl.
  pose proof (ok_slots _ Hok) as Hall. rewrite Forall_lookup in Hall.
  assert (Hm : extends e (set_slots (alter g s (e_slots e)) e)) by (split; simpl; rewrite ?length_alter; done).
  eapply val_mono; [exact Hm|].
  destruct (decide (i = s)) as [->|Hne].
  - rewrite list_lookup_alter_eq in Hsl. destruct (e_slots e !! s) as [sl'|] eqn:E; [|done].
    injection Hsl as <-. apply Hg; eauto.
  - rewrite list_lookup_alter_ne in Hsl by done. eauto.
Qed.

Lemma spec_write_slot e1 s v : val_ok e1 v -> spec T e1 (write_slot s v) (fun _ _ => True).
Proof. intros Hv. apply spec_set_slot. intros e sl He _. by eapply val_mono. Qed.

Lemma spec_getSlotVal e1 i : extends e0 e1 -> 0 <= i -> spec T e1 (getSlotVal f i) val_ok.
Proof.
  intros He Hi. unfold getSlotVal. eapply spec_bind; [by apply spec_getSlot|].
  intros e2 [s|] He2 Hs; [by apply spec_read_slot|by apply spec_ret].
Qed.

Lemma spec_setSlotVal e1 i v :
  extends e0 e1 -> 0 <= i -> val_ok e1 v -> spec T e1 (setSlotVal f i v) (fun _ _ => True).
Proof.
  intros He Hi Hv. unfold setSlotVal. eapply spec_bind; [by apply spec_getSlot|].
  intros e2 [s|] He2 Hs; [|by apply spec_ret]. apply spec_write_slot. by eapply val_mono.
Qed.

Lemma upval_lookup e1 i :
  extends e0 e1 -> 0 <= i < Z.of_nat (length (cl_upvals (f_func f))) ->
  exists s, cl_upvals (f_func f) !! Z.to_nat i = Some s /\ (s < length (e_slots e1))%nat.
Proof.
  intros He Hi. destruct (lookup_nat_lt (cl_upvals (f_func f)) (Z.to_nat i)) as [s Hs]; [lia|].
  exists s. split; [done|]. pose proof (slots_mono _ _ _ He (fr_upvals _ _ Hf)) as Hall.
  rewrite Forall_lookup in Hall. eauto.
Qed.

Lemma spec_getUpvalue e1 i : extends e0 e1 -> 0 <= i -> spec T e1 (getUpvalue f i) val_ok.
Proof.
  intros He Hi. unfold getUpvalue. cbv zeta. destruct (Z.ltb_spec i (Z.of_nat (length (cl_upvals (f_func f))))).
  - destruct (Z.ltb_spec i 0); [lia|]. destruct (upval_lookup e1 i He) as (s & -> & Hs); [lia|].
    intros e Hee Hok. unfold mderef. rewrite rbind_rret. by apply (spec_read_slot e1 s Hs).
  - eapply spec_bind; [apply spec_error2|]. intros. by apply spec_ret.
Qed.

Lemma spec_setUpvalue e1 i v :
  extends e0 e1 -> 0 <= i -> val_ok e1 v -> spec T e1 (setUpvalue f i v) (fun _ _ => True).
Proof.
  intros He Hi Hv. unfold setUpvalue. cbv zeta. destruct (Z.ltb_spec i (Z.of_nat (length (cl_upvals (f_func f))))).
  - destruct (Z.ltb_spec i 0); [lia|]. destruct (upval_lookup e1 i He) as (s & -> & Hs); [lia|].
    intros e Hee Hok. unfold mderef. rewrite rbind_rret. by apply (spec_write_slot e1 s v Hv).
  - eapply spec_bind; [apply spec_error2|]. intros. by apply spec_ret.
Qed.

Lemma function_of_frame : function_ok (f_fn f).
Proof. eapply Forall_lookup_1; [exact HH|]. apply (fr_fn _ _ Hf). Qed.

Lemma spec_const e1 (ks : list QVariant) (n : nat) :
  Forall const_ok ks -> (n < length ks)%nat -> spec T e1 (mderef (ks !! n)) val_ok.
Proof.
  intros Hk Hn. destruct (lookup_nat_lt ks n Hn) as [v Hv]. rewrite Hv. apply spec_ret.
  intros e _. apply const_val_ok. rewrite Forall_lookup in Hk. eauto.
Qed.

Lemma spec_getNumConst e1 i : 0 <= i -> spec T e1 (getNumConst f i) val_ok.
Proof.
  intros Hi. unfold getNumConst. cbv zeta. destruct function_of_frame as (_ & Hk & _).
  destruct (Z.ltb_spec i (Z.of_nat (length (d_constNums (f_fn f))))).
  - destruct (Z.ltb_spec i 0); [lia|]. apply spec_const; [done|lia].
  - eapply spec_bind; [apply spec_error2|]. intros. by apply spec_ret.
Qed.

Lemma spec_getGcConst e1 i : 0 <= i -> spec T e1 (getGcConst f i) val_ok.
Proof.
  intros Hi. unfold getGcConst. cbv zeta. destruct function_of_frame as (Hk & _).
  destruct (Z.ltb_spec i (Z.of_nat (length (d_constObjs (f_fn f))))).
  - destruct (Z.ltb_spec i 0); [lia|]. apply spec_const; [done|lia].
  - eapply spec_bind; [apply spec_error2|]. intros. by apply spec_ret.
Qed.

End Frame_ops.

(** ** Tables and handlers *)
Lemma val_table e t : val_ok e (QTableRef t) -> exists a tb, t = Some a /\ e_tables e !! a = Some tb.
Proof. intros (a & -> & tb & Ha). eauto. Qed.

Lemma spec_the_table T e1 t :
  val_ok e1 (QTableRef t) -> spec T e1 (the_table t) table_ok.
Proof.
  intros Ht e He Hok. apply (val_mono _ _ _ He) in Ht. destruct (val_table _ _ Ht) as (a & tb & -> & Ha).
  unfold the_table, rbind, mderef, rget, rret. rewrite Ha. split; [reflexivity|]. split; [done|].
  by apply (ok_tables _ Hok a).
Qed.

Lemma spec_mod_table T e1 t (g : Table -> Table) :
  val_ok e1 (QTableRef t) ->
  (forall e tb, extends e1 e -> table_ok e tb -> table_ok e (g tb)) ->
  spec T e1 (mod_table t g) (fun _ _ => True).
Proof.
  intros Ht Hg e He Hok. pose proof (val_mono _ _ _ He Ht) as Ht'.
  destruct (val_table _ _ Ht') as (a & tb & -> & Ha).
  unfold mod_table, the_table, rbind, mderef, rget, rret, rmod. rewrite Ha.
  rewrite (alter_insert_Some _ _ _ _ Ha).
  edestruct (ok_set_table e a (g tb) (e_next e)) as [Hx Hy]; [done| |done| |by split].
  - apply (ok_fresh _ Hok). by rewrite Ha.
  - intros Hx. apply Hg; [by etrans|]. eapply table_mono; [exact Hx|]. by apply (ok_tables _ Hok a).
Qed.

Lemma spec_create_table T e1 h :
  (forall e, extends e1 e -> hash_ok e h) ->
  spec T e1 (create_table h) (fun e a => val_ok e (QTableRef (Some a))).
Proof.
  intros Hh e He Hok. unfold create_table.
  edestruct (ok_set_table e (e_next e) (mkTable h None false) (S (e_next e))) as [Hx Hy]; [done|lia|lia| |].
  - intros Hx. split; [|done]. simpl. apply Hh. by etrans.
  - split; [exact Hx|]. split; [exact Hy|]. simpl. exists (e_next e). split; [done|].
    rewrite lookup_insert_eq. by eexists.
Qed.

Lemma spec_getHandler T e1 v ev : val_ok e1 v -> spec T e1 (getHandler v ev) val_ok.
Proof.
  intros Hv. unfold getHandler. destruct v; try by apply spec_ret.
  eapply spec_bind; [by apply spec_the_table|]. intros e2 tb He2 [Hh Hm].
  destruct (t_meta tb) as [m|] eqn:Em; [|by apply spec_ret].
  eapply spec_bind; [apply spec_the_table; simpl; eauto|].
  intros e3 mt He3 [Hmt _]. apply spec_ret. intros e He. apply qhash_value_ok. by eapply hash_mono.
Qed.

Lemma spec_getBinHandler T e1 l r ev :
  val_ok e1 l -> val_ok e1 r -> spec T e1 (getBinHandler l r ev) val_ok.
Proof.
  intros Hl Hr. unfold getBinHandler. eapply spec_bind; [by apply spec_getHandler|].
  intros e2 v He2 Hv. destruct (isValid v).
  - apply spec_ret. intros. by eapply val_mono.
  - apply spec_getHandler. by eapply val_mono.
Qed.

Lemma spec_getCompHandler T e1 l r ev :
  val_ok e1 l -> val_ok e1 r -> spec T e1 (getCompHandler l r ev) val_ok.
Proof.
  intros Hl Hr. unfold getCompHandler. destruct (negb _); [by apply spec_ret|].
  eapply spec_bind; [by apply spec_getHandler|]. intros e2 h1 He2 Hh1.
  eapply spec_bind; [apply spec_getHandler; by eapply val_mono|]. intros e3 h2 He3 Hh2.
  destruct (variant_eqb h1 h2); apply spec_ret; [|done]. intros e He.
  eapply val_mono; [|exact Hh1]. by etrans.
Qed.

(** ** Native functions *)
Lemma spec_native_error T e1 m l :
  Forall (val_ok e1) l ->
  spec T e1 (_ <~ eng_error m; rret (-1, l)) (fun e r => Forall (val_ok e) r.2).
Proof.
  intros Hl. eapply spec_bind; [apply spec_eng_error|]. intros e2 b He2 _. apply spec_ret.
  intros e He. simpl. eapply vals_mono; [|exact Hl]. by etrans.
Qed.

Lemma spec_native T e1 n l :
  (n < 3)%nat -> Forall (val_ok e1) l ->
  spec T e1 (native n l) (fun e r => Forall (val_ok e) r.2).
Proof.
  intros Hn Hl. destruct n as [|[|[|n]]]; simpl; [| | |lia].
  - eapply spec_bind; [by apply spec_rmod_same|]. intros e2 [] He2 _. apply spec_ret.
    intros e He. simpl. eapply vals_mono; [|exact Hl]. by etrans.
  - pose proof (fun m => spec_native_error T e1 m l Hl) as Herr.
    unfold _setmetatable. destruct l as [|a0 [|a1 [|]]]; try apply Herr.
    destruct a0; try apply Herr.
    destruct (negb (isNull a1) && negb (isTableRef a1)); [apply Herr|].
    apply Forall_cons in Hl as [H0 Hl]. apply Forall_cons in Hl as [H1 _].
    eapply spec_bind; [apply spec_mod_table; [done|]|].
    + intros e tb He [Hh _]. split; [done|]. simpl. intros m Hm.
      destruct a1; try done. destruct (val_mono _ _ _ He H1) as (a & Ha & Hs). congruence.
    + intros e2 [] He2 _. apply spec_ret. intros e He. simpl. apply Forall_singleton.
      eapply val_mono; [|exact H0]. by etrans.
  - pose proof (fun m => spec_native_error T e1 m l Hl) as Herr.
    unfold _getmetatable. destruct l as [|a0 [|]]; try apply Herr.
    destruct a0; try apply Herr. apply Forall_cons in Hl as [Hl _].
    eapply spec_bind; [by apply spec_the_table|]. intros e2 tb He2 [_ Hm].
    destruct (t_meta tb) as [m|] eqn:Em; apply spec_ret; intros e He; simpl; apply Forall_singleton; [|done].
    eapply val_mono; [exact He|]. simpl. eauto.
Qed.

(** ** Instructions *)

(** Chains of [extends], and what they carry over. *)
Ltac ext :=
  match goal with
  | |- extends ?a ?a => reflexivity
  | |- extends ?a ?c =>
      first [ assumption
            | match goal with He : extends ?b c |- _ => apply (transitivity (y := b)); [ext|exact He] end ]
  end.
Ltac vok :=
  cbv beta in *;
  match goal with
  | |- val_ok ?e ?v =>
      first [ done
            | match goal with Hv : val_ok ?e' v |- _ => apply (val_mono e' e v); [ext|exact Hv] end ]
  | |- Forall (val_ok ?e) [] => constructor
  | |- Forall (val_ok ?e) (_ :: _) => apply Forall_cons; split; [vok|vok]
  | |- Forall (val_ok ?e) ?l =>
      match goal with Hv : Forall (val_ok ?e') l |- _ => apply (vals_mono e' e l); [ext|exact Hv] end
  end.

(** One bind, its first computation by the lemma [l]. *)
Tactic Notation "sbind" uconstr(l) := eapply spec_bind; [eapply l; try eassumption; try ext; try lia; try vok|].

Definition result_ok (e : Engine) (r : StepResult) : Prop :=
  match r with
  | Continue f => frame_ok e f
  | Return _ io => Forall (val_ok e) io
  end.

Lemma frame_set_pc e f pc : frame_ok e f -> frame_ok e (set_pc f pc).
Proof. intros []. split; simpl; try done. apply u32_range. Qed.

Lemma fetch_range e f w : heap_ok -> frame_ok e f -> fetch f = Some w -> 0 <= w < 2 ^ 32.
Proof.
  intros HH Hf Hw. destruct (function_of_frame e f Hf HH) as (_ & _ & Hc).
  rewrite Forall_lookup in Hc. by apply (Hc _ _ Hw).
Qed.

Context {LL : LjBcLaws L}.

Lemma dissect_a_range w : 0 <= w < 2 ^ 32 ->
  0 <= d_a (dissectInstruction w) /\ 0 <= d_b (dissectInstruction w) /\ 0 <= d_cd (dissectInstruction w).
Proof.
  intros Hw. unfold dissectInstruction. rewrite bc_op_law, bc_a_law, bc_b_law, bc_c_law by done.
  rewrite Z.shiftr_div_pow2 by lia.
  destruct (row _); simpl; [|lia].
  repeat split; repeat case_bool_decide; try lia; Z.to_euclidean_division_equations; lia.
Qed.

(** Operands of the documented signed types are the only ones that can be negative. *)
Definition signed_operand (o : Op) : bool :=
  match snd (doc_types o) with _lits | _jump => true | _ => false end.

Lemma op_of_types w o :
  0 <= w < 2 ^ 32 -> op_of (dissectInstruction w) = o -> o <> OP_INVALID ->
  d_tcd (dissectInstruction w) = snd (doc_types o) \/ d_tcd (dissectInstruction w) = Unused.
Proof.
  intros Hw Ho Hinv. unfold op_of, dissectInstruction in *. rewrite bc_op_law in * by done.
  destruct (row (w mod 2 ^ 8)) as [bc|] eqn:Hr; [|by right]. left. simpl in *.
  rewrite u8_small in Ho by (apply Z.mod_pos_bound; lia).
  destruct (Op_of (w mod 2 ^ 8)) as [o'|] eqn:Eo; simpl in Ho; [|done]. subst o'.
  apply Op_of_Some in Eo. rewrite <- Eo in Hr.
  destruct (row_types o Hinv) as (bc' & Hbc' & Ht). rewrite Hr in Hbc'. injection Hbc' as <-.
  by rewrite <- Ht.
Qed.

Lemma getCd_nonneg w o :
  0 <= w < 2 ^ 32 -> op_of (dissectInstruction w) = o -> o <> OP_INVALID -> signed_operand o = false ->
  0 <= getCd (dissectInstruction w).
Proof.
  intros Hw Ho Hinv Hs. pose proof (dissect_a_range w Hw) as (_ & _ & Hcd).
  unfold getCd, signed_operand in *.
  destruct (op_of_types w o Hw Ho Hinv) as [-> | ->]; [|done]. by destruct (doc_types o).2.
Qed.

Section Steps.
Variables (T : Prop) (call : Closure -> list QVariant -> SM Engine (bool * list QVariant)).
Hypothesis Hcall : forall e1 c args,
  is_Some (H !! cl_func c) -> Forall (fun s => (s < length (e_slots e1))%nat) (cl_upvals c) ->
  Forall (val_ok e1) args -> spec T e1 (call c args) (fun e r => Forall (val_ok e) r.2).
Hypothesis HH : heap_ok.
Variables (e0 : Engine) (f : Frame).
Hypothesis Hf : frame_ok e0 f.

Lemma spec_doCall e1 vc l :
  extends e0 e1 -> val_ok e1 vc -> Forall (val_ok e1) l ->
  spec T e1 (doCall call f vc l) (fun e r => Forall (val_ok e) r.2).
Proof.
  intros He Hv Hl. unfold doCall.
  destruct vc; try (eapply spec_bind; [eapply spec_error2|]; intros ? ? ? _; apply spec_ret;
    intros ? ?; simpl; vok).
  - destruct Hv. eapply spec_bind; [by apply Hcall|]. intros e2 [ok io] He2 Hio. apply spec_ret.
    intros e3 He3. simpl in *. vok.
  - by apply spec_native.
Qed.

Lemma spec_call_handler e1 c l :
  extends e0 e1 -> val_ok e1 c -> Forall (val_ok e1) l ->
  spec T e1 (call_handler call f c l) (fun e r => match r with Some v => val_ok e v | None => True end).
Proof.
  intros He Hc Hl. unfold call_handler. eapply spec_bind; [by apply spec_doCall|].
  intros e2 [n io] He2 Hio. simpl in Hio. destruct (n <? 0); [by apply spec_ret|].
  destruct io as [|v io]; [sbind spec_error2; intros; by apply spec_ret|].
  apply Forall_cons in Hio as [Hv _]. apply spec_ret. intros. vok.
Qed.

(** The frame of a comparison after its jump. *)
Lemma spec_jump e1 res :
  extends e0 e1 -> spec T e1 (doJumpAfterCompare f res) (fun e r => frame_ok e r.2).
Proof.
  intros He. assert (Hn : forall e, extends e1 e -> frame_ok e (next_pc f)).
  { intros e Hee. apply frame_set_pc. apply (frame_mono e0); [ext|done]. }
  unfold doJumpAfterCompare. cbv zeta. destruct (fetch (next_pc f)); [|by apply spec_ret].
  destruct (negb _).
  - sbind spec_error2. intros e2 b He2 _. apply spec_ret. intros e3 He3. simpl. apply Hn. ext.
  - apply spec_ret. intros e2 He2. simpl. destruct res; by repeat apply frame_set_pc; apply (frame_mono e0); [ext|].
Qed.

(** A comparison that returns without a jump. *)
Lemma spec_stop e1 (b : bool) :
  extends e0 e1 -> spec T e1 (rret (b, f)) (fun e r => frame_ok e r.2).
Proof. intros He. apply spec_ret. intros e Hee. apply (frame_mono e0); [ext|done]. Qed.

Lemma spec_handler_jump e1 c l (g : bool -> bool) :
  extends e0 e1 -> val_ok e1 c -> Forall (val_ok e1) l ->
  spec T e1 (v <~ call_handler call f c l;
             match v with
             | Some v => doJumpAfterCompare f (g (toBool v))
             | None => rret (false, f)
             end) (fun e r => frame_ok e r.2).
Proof.
  intros He Hc Hl. eapply spec_bind; [by apply spec_call_handler|]. intros e2 [v|] He2 Hv.
  - apply spec_jump. ext.
  - apply spec_stop. ext.
Qed.

Lemma spec_compare_handler e1 op l r :
  val_ok e1 l -> val_ok e1 r ->
  spec T e1 (compare_handler op l r) (fun e ch => val_ok e ch.1 /\ Forall (val_ok e) ch.2).
Proof.
  intros Hl Hr. unfold compare_handler.
  eapply spec_bind with (R := val_ok);
    [destruct op; first [by apply spec_getCompHandler | by apply spec_ret]|].
  intros e2 c He2 Hc. cbv zeta.
  assert (Hio : forall e, extends e2 e -> Forall (val_ok e)
    match op with OP_ISLT | OP_ISLE => [l; r] | OP_ISGT | OP_ISGE => [r; l] | _ => [] end).
  { intros e He. destruct op; vok. }
  destruct (_ && _).
  - sbind spec_getCompHandler. intros e3 c' He3 Hc'. apply spec_ret. intros e He. simpl.
    split; [vok|]. apply Forall_rev. apply Hio. ext.
  - apply spec_ret. intros e He. simpl. split; [vok|]. by apply Hio.
Qed.

Lemma next_ok e1 e : extends e0 e1 -> extends e1 e -> frame_ok e (next_pc f).
Proof. intros. apply frame_set_pc, (frame_mono e0); [ext|done]. Qed.

Lemma spec_then_next e1 m :
  extends e0 e1 -> spec T e1 m (fun _ _ => True) -> spec T e1 (then_next f m) result_ok.
Proof.
  intros He Hm. eapply spec_bind; [exact Hm|]. intros e2 [] He2 _. apply spec_ret.
  intros e Hee. apply (next_ok e2); ext.
Qed.

Lemma spec_ok_next e1 m :
  extends e0 e1 -> spec T e1 m (fun _ _ => True) -> spec T e1 (ok_next f m) result_ok.
Proof.
  intros He Hm. eapply spec_bind; [exact Hm|]. intros e2 [] He2 _; apply spec_ret; [|constructor].
  intros e Hee. apply (next_ok e2); ext.
Qed.

Lemma spec_fail2 e1 m : extends e0 e1 -> spec T e1 (fail2 f m) result_ok.
Proof.
  intros He. eapply spec_bind; [eapply spec_error2|]. intros e2 b He2 _. apply spec_ret. constructor.
Qed.

Lemma spec_or_return e1 m :
  spec T e1 m (fun e r => frame_ok e r.2) -> spec T e1 (or_return m) result_ok.
Proof.
  intros Hm. eapply spec_bind; [exact Hm|]. intros e2 [[] f'] He2 Hf'; apply spec_ret; intros e He.
  - by apply (frame_mono e2).
  - constructor.
Qed.

Lemma spec_continue e1 pc : extends e0 e1 -> spec T e1 (rret (Continue (set_pc f pc))) result_ok.
Proof. intros He. apply spec_ret. intros e Hee. apply frame_set_pc, (frame_mono e0); [ext|done]. Qed.

(** A value that is computed and then stored. *)
Lemma spec_store e1 a (m : SM Engine QVariant) :
  extends e0 e1 -> 0 <= a -> spec T e1 m val_ok ->
  spec T e1 (v <~ m; setSlotVal f a v) (fun _ _ => True).
Proof.
  intros He Ha Hm. eapply spec_bind; [exact Hm|]. intros e2 v He2 Hv. sbind spec_setSlotVal || (eapply spec_setSlotVal; try done; ext).
Qed.

(** A handler whose result is stored. *)
Lemma spec_handler_store e1 c l a {B} (y n : SM Engine B) (R : Engine -> B -> Prop) :
  extends e0 e1 -> 0 <= a -> val_ok e1 c -> Forall (val_ok e1) l ->
  (forall e, extends e1 e -> spec T e y R) -> (forall e, extends e1 e -> spec T e n R) ->
  spec T e1 (v <~ call_handler call f c l;
             match v with Some v => (_ <~ setSlotVal f a v; y) | None => n end) R.
Proof.
  intros He Ha Hc Hl Hy Hn. eapply spec_bind; [by apply spec_call_handler|]. intros e2 [v|] He2 Hv; [|by apply Hn].
  sbind spec_setSlotVal. intros. apply Hy. ext.
Qed.

Lemma zrange_nonneg lo hi : 0 <= lo -> Forall (fun i => 0 <= i) (zrange lo hi).
Proof. intros Hlo. apply Forall_forall. intros i (k & <- & _)%list_elem_of_In%in_map_iff. lia. Qed.

Lemma spec_slot_values e1 lo hi :
  extends e0 e1 -> 0 <= lo ->
  spec T e1 (mmap (zrange lo hi) (getSlotVal f)) (fun e vs => Forall (val_ok e) vs).
Proof.
  intros He Hlo. apply spec_map with (P := fun i => 0 <= i); [by apply zrange_nonneg|].
  intros e i Hee Hi. eapply spec_getSlotVal; [exact Hf|ext|done].
Qed.

Section One.
Variable w : Z.
Let bc := dissectInstruction w.
Hypothesis Hw : 0 <= w < 2 ^ 32.

Lemma operands_nonneg : 0 <= d_a bc /\ 0 <= d_b bc.
Proof. pose proof (dissect_a_range w Hw). tauto. Qed.

Lemma spec_doCompare : 0 <= getCd bc -> spec T e0 (doCompare call f bc) (fun e r => frame_ok e r.2).
Proof.
  intros Hcd. pose proof operands_nonneg as [Ha Hb]. unfold doCompare. cbv zeta.
  sbind spec_getSlotVal. intros e1 lhs He1 Hl.
  sbind spec_getSlotVal. intros e2 rhs He2 Hr.
  destruct (isNumber lhs && isNumber rhs); [apply spec_jump; ext|].
  destruct (isString lhs && isString rhs); [apply spec_jump; ext|].
  sbind spec_compare_handler. intros e3 [c io] He3 [Hc Hio]. simpl in Hc, Hio.
  destruct (isValid c); [apply (spec_handler_jump e3 c io id); [ext|done|done]|].
  sbind spec_error2. intros e4 b He4 _. apply spec_stop. ext.
Qed.

Lemma spec_doEquality : 0 <= getCd bc -> spec T e0 (doEquality call f bc) (fun e r => frame_ok e r.2).
Proof.
  intros Hcd. pose proof operands_nonneg as [Ha Hb]. unfold doEquality. cbv zeta.
  sbind spec_getSlotVal. intros e1 lhs He1 Hl.
  eapply spec_bind with (R := val_ok).
  { unfold equality_rhs. destruct (op_of bc);
      first [ by apply spec_ret | by eapply spec_getSlotVal | by eapply spec_getGcConst
            | by eapply spec_getNumConst
            | apply spec_ret; intros; unfold getPriConst; repeat case_match; done ]. }
  intros e2 rhs He2 Hr. destruct (values_equal lhs rhs); [apply spec_jump; ext|].
  sbind spec_getCompHandler. intros e3 c He3 Hc.
  destruct (isValid c); [|apply spec_jump; ext].
  apply (spec_handler_jump e3 c _ (fun b => if is_ne_op (op_of bc) then negb b else b)); [ext|vok|vok].
Qed.

Lemma spec_doArith :
  0 <= getCd bc -> (arith_event (op_of bc) <> None) -> spec T e0 (doArith call f bc) (fun _ _ => True).
Proof.
  intros Hcd Hev. pose proof operands_nonneg as [Ha Hb]. unfold doArith. cbv zeta.
  eapply spec_bind with (R := fun e lr => val_ok e lr.1 /\ val_ok e lr.2).
  { unfold arith_operands. destruct (op_of bc); try (apply spec_ret; done);
      (eapply spec_bind; [first [by eapply spec_getSlotVal | by eapply spec_getNumConst]|]; intros e1 l He1 Hl;
       eapply spec_bind; [first [by eapply spec_getSlotVal | by eapply spec_getNumConst]|]; intros e2 r He2 Hr;
       apply spec_ret; intros; simpl; split; vok). }
  intros e1 [lhs rhs] He1 [Hl Hr]. simpl in Hl, Hr.
  destruct (isNumber lhs && isNumber rhs).
  - destruct (arith_op (op_of bc)); [|by apply spec_ret]. sbind spec_setSlotVal. intros. by apply spec_ret.
  - destruct (arith_event (op_of bc)) as [ev|]; [|done]. eapply spec_bind; [apply spec_deref_Some|].
    intros e2 ? He2 ->. sbind spec_getBinHandler. intros e3 c He3 Hc.
    apply spec_handler_store; first [ext|done|vok|by intros; apply spec_ret].
Qed.

(** The key of a table access. *)
Lemma spec_key e1 (ov os ob : bool) :
  extends e0 e1 -> 0 <= getCd bc ->
  spec T e1 (if ov then getSlotVal f (getCd bc) else if os then getGcConst f (getCd bc)
             else rret (if ob then fromPrimitive (getCd bc) else QInvalid)) val_ok.
Proof.
  intros He Hcd. destruct ov; [by eapply spec_getSlotVal|]. destruct os; [by eapply spec_getGcConst|].
  apply spec_ret. intros e _. destruct ob; [|done]. unfold fromPrimitive. repeat case_match; done.
Qed.

Lemma spec_doGetT : 0 <= getCd bc -> spec T e0 (doGetT call f bc) (fun _ _ => True).
Proof.
  intros Hcd. pose proof operands_nonneg as [Ha Hb]. unfold doGetT.
  sbind spec_getSlotVal. intros e1 tbl He1 Ht.
  eapply spec_bind with (R := val_ok).
  { destruct (op_of bc); first [by apply spec_ret | by apply (spec_key e1 true false false)
      | by apply (spec_key e1 false true false) | by apply (spec_key e1 false false true)]. }
  intros e2 key He2 Hk.
  destruct tbl; try (eapply spec_weaken; [eapply spec_error2|]; done).
  sbind spec_the_table. intros e3 tb He3 [Hh Hm].
  assert (Hst : forall e v, extends e3 e -> val_ok e v ->
    spec T e (_ <~ setSlotVal f (d_a bc) v; rret true) (fun _ _ => True)).
  { intros e v He Hv. sbind spec_setSlotVal. intros. by apply spec_ret. }
  cbv zeta. destruct (isValid _); [apply Hst; [ext|by apply qhash_value_ok]|].
  sbind spec_getHandler. intros e4 c He4 Hc.
  destruct (negb (isValid c)).
  { destruct (t_user tb); [eapply spec_weaken; [eapply spec_error2|]; done|]. by apply Hst. }
  destruct (isClosure c || isCFunction c).
  { eapply spec_bind; [apply spec_call_handler; [ext|done|vok]|]. intros. by apply spec_ret. }
  destruct c; try by apply Hst.
  sbind spec_the_table. intros e5 tb2 He5 [Hh2 _]. apply Hst; [ext|by apply qhash_value_ok].
Qed.

Lemma spec_doSetT : 0 <= getCd bc -> spec T e0 (doSetT f bc) (fun _ _ => True).
Proof.
  intros Hcd. pose proof operands_nonneg as [Ha Hb]. unfold doSetT.
  sbind spec_getSlotVal. intros e1 tbl He1 Ht. sbind spec_getSlotVal. intros e2 v He2 Hv.
  eapply spec_bind with (R := val_ok).
  { destruct (op_of bc); first [by apply spec_ret | solve [apply (spec_key e2 true false false); [ext|done]]
      | solve [apply (spec_key e2 false true false); [ext|done]] | solve [apply (spec_key e2 false false true); [ext|done]]]. }
  intros e3 key He3 Hk.
  destruct tbl; try (sbind spec_error2; intros; by apply spec_ret).
  eapply spec_bind; [apply spec_mod_table; [vok|]|intros; by apply spec_ret].
  intros e tb He [Hh Hm]. split; [|done]. simpl. apply qhash_insert_ok; [done|vok|vok].
Qed.

(** When the two instructions that use slots without a check are defined. *)
Definition for_defined : Prop :=
  match op_of bc with
  | OP_FORI => d_a bc + 3 < Z.of_nat (length (f_slots f))
  | OP_FORL => False
  | _ => True
  end.

Lemma spec_FORI :
  T \/ d_a bc + 3 < Z.of_nat (length (f_slots f)) -> spec T e0 (step_FORI f bc) result_ok.
Proof.
  intros Hd. pose proof operands_nonneg as [Ha _]. unfold step_FORI.
  sbind spec_getSlotVal. intros e1 v0 He1 _. sbind spec_getSlotVal. intros e2 v1 He2 _.
  sbind spec_getSlotVal. intros e3 v2 He3 _. sbind spec_getSlot. intros e4 s He4 Hs.
  sbind spec_setSlotVal. intros e5 [] He5 _.
  destruct (for_continues _ _ _); [|apply spec_continue; ext].
  eapply spec_bind; [apply (spec_deref T e5 s (fun _ _ => True)); [|done]|].
  { destruct s; [left; by eexists|]. destruct Hd; [by right|lia]. }
  intros e6 s' He6 _. sbind spec_write_slot. intros e7 [] He7 _. apply spec_ret.
  intros e8 He8. apply (next_ok e7); ext.
Qed.

Lemma spec_FORL : T -> spec T e0 (step_FORL f bc) result_ok.
Proof.
  intros HT. pose proof operands_nonneg as [Ha _]. unfold step_FORL.
  sbind spec_getSlot. intros e1 s0 He1 Hs0. sbind spec_getSlotVal. intros e2 v1 He2 _.
  sbind spec_getSlotVal. intros e3 v2 He3 _. sbind spec_getSlot. intros e4 s He4 Hs.
  eapply spec_bind; [apply (spec_deref T e4 s0 (fun e i => (i < length (e_slots e))%nat)); [by right|]|].
  { intros e i He ->. pose proof (ext_slots _ _ He2). pose proof (ext_slots _ _ He3).
    pose proof (ext_slots _ _ He4). pose proof (ext_slots _ _ He). lia. }
  intros e5 i0 He5 Hi0. sbind spec_read_slot. intros e6 v0 He6 _.
  eapply spec_bind; [apply (spec_deref T e6 _ (fun _ _ => True)); [by right|done]|].
  intros e7 idx He7 _. sbind spec_write_slot. intros e8 [] He8 _.
  destruct (for_continues _ _ _); [|apply spec_continue; ext].
  eapply spec_bind; [apply (spec_deref T e8 s (fun _ _ => True)); [by right|done]|].
  intros e9 s' He9 _. sbind spec_write_slot. intros e10 [] He10 _. apply spec_continue. ext.
Qed.

Lemma spec_step_branch : T \/ for_defined -> spec T e0 (step_branch f bc) result_ok.
Proof.
  intros Hd. unfold step_branch, for_defined in *.
  destruct (op_of bc); first [by apply spec_FORI | apply spec_FORL; tauto | by apply spec_continue].
Qed.

Lemma spec_step_test : 0 <= getCd bc -> spec T e0 (step_test f bc) result_ok.
Proof.
  intros Hcd. pose proof operands_nonneg as [Ha _]. unfold step_test. cbv zeta.
  sbind spec_getSlotVal. intros e1 d He1 Hd.
  assert (Hj : forall e b, extends e1 e ->
    spec T e (r <~ doJumpAfterCompare f b; rret (Continue (snd r))) result_ok).
  { intros e b He. eapply spec_bind; [apply spec_jump; ext|]. intros e2 r He2 Hr. apply spec_ret.
    intros e3 He3. by apply (frame_mono e2). }
  assert (Hc : spec T e1
    (if (bool_decide (op_of bc = OP_ISTC) && isTrue d) || negb (isTrue d)
     then _ <~ setSlotVal f (d_a bc) d; r <~ doJumpAfterCompare f true; rret (Continue (snd r))
     else rret (Continue (next_pc f))) result_ok).
  { destruct (_ || _); [|by apply spec_continue]. sbind spec_setSlotVal. intros. apply Hj. ext. }
  destruct (op_of bc); first [exact Hc | apply Hj; ext].
Qed.

Lemma spec_step_return : spec T e0 (step_return f bc) result_ok.
Proof.
  pose proof operands_nonneg as [Ha _]. unfold step_return.
  destruct (op_of bc); try (apply spec_ret; intros; constructor).
  - sbind spec_slot_values. intros e1 vs He1 Hvs. apply spec_ret. intros. simpl. vok.
  - sbind spec_getSlotVal. intros e1 v He1 Hv. apply spec_ret. intros. simpl. vok.
Qed.

Lemma spec_step_UNM : 0 <= getCd bc -> spec T e0 (step_UNM call f bc) result_ok.
Proof.
  intros Hcd. pose proof operands_nonneg as [Ha _]. unfold step_UNM.
  sbind spec_getSlotVal. intros e1 v He1 Hv.
  destruct (isNumber v); [apply spec_then_next; [ext|]; by eapply spec_setSlotVal|].
  sbind spec_getHandler. intros e2 c He2 Hc.
  apply spec_handler_store; try first [ext|done|vok]; intros; apply spec_ret; [|constructor].
  intros e' He'. apply (next_ok e); ext.
Qed.

Lemma spec_step_LEN : 0 <= getCd bc -> spec T e0 (step_LEN call f bc) result_ok.
Proof.
  intros Hcd. pose proof operands_nonneg as [Ha _]. unfold step_LEN.
  sbind spec_getSlotVal. intros e1 v He1 Hv.
  destruct v; try (by apply spec_fail2).
  - apply spec_then_next; [ext|]. by eapply spec_setSlotVal.
  - sbind spec_the_table. intros e2 tb He2 _.
    destruct (negb _); [apply spec_then_next; [ext|]; eapply spec_setSlotVal; try done; ext|].
    sbind spec_getHandler. intros e3 c He3 Hc. destruct (isValid c); [|apply spec_fail2; ext].
    apply spec_handler_store; try first [ext|done|vok]; intros; apply spec_ret; [|constructor].
    intros e' He'. apply (next_ok e); ext.
Qed.

Lemma spec_step_CAT : spec T e0 (step_CAT f bc) result_ok.
Proof.
  pose proof operands_nonneg as [Ha Hb]. unfold step_CAT.
  sbind spec_slot_values. intros e1 vs He1 _. apply spec_then_next; [ext|]. by eapply spec_setSlotVal.
Qed.

Lemma spec_step_op :
  0 <= getCd bc ->
  op_of bc = OP_MOV \/ op_of bc = OP_NOT \/ op_of bc = OP_UNM \/ op_of bc = OP_LEN \/
  op_of bc = OP_CAT \/ arith_event (op_of bc) <> None ->
  spec T e0 (step_op call f bc) result_ok.
Proof.
  intros Hcd Hop. pose proof operands_nonneg as [Ha Hb]. unfold step_op.
  assert (Hdef : arith_event (op_of bc) <> None -> spec T e0 (ok_next f (doArith call f bc)) result_ok).
  { intros Hev. apply spec_ok_next; [ext|by apply spec_doArith]. }
  destruct Hop as [-> | [-> | [-> | [-> | [-> | Hev]]]]].
  - apply spec_then_next; [ext|]. apply spec_store; [ext|done|by eapply spec_getSlotVal].
  - apply spec_then_next; [ext|]. sbind spec_getSlotVal. intros. eapply spec_setSlotVal; try done; ext.
  - by apply spec_step_UNM.
  - by apply spec_step_LEN.
  - by apply spec_step_CAT.
  - destruct (op_of bc); first [done | by apply Hdef].
Qed.

Lemma spec_step_const :
  op_of bc = OP_KSHORT \/ op_of bc = OP_KNIL \/ 0 <= getCd bc -> spec T e0 (step_const f bc) result_ok.
Proof.
  intros Hcd. pose proof operands_nonneg as [Ha Hb]. unfold step_const.
  assert (Hk : spec T e0 (then_next f (setSlotVal f (d_a bc) (QInt (getCd bc)))) result_ok).
  { apply spec_then_next; [ext|]. by eapply spec_setSlotVal. }
  assert (Hn : spec T e0 (then_next f (mfor (zrange (d_a bc) (getCd bc + 1)) (fun i => setSlotVal f i QInvalid)))
                 result_ok).
  { apply spec_then_next; [ext|]. apply spec_for with (P := fun i => 0 <= i); [by apply zrange_nonneg|].
    intros. by eapply spec_setSlotVal. }
  destruct Hcd as [-> | [-> | Hcd]]; [done|done|].
  destruct (op_of bc); try exact Hn; try exact Hk; (apply spec_then_next; [ext|]).
  1,2: apply spec_store; [ext|done|by eapply spec_getGcConst].
  - apply spec_store; [ext|done|by eapply spec_getNumConst].
  - eapply spec_setSlotVal; try done. unfold getPriConst. repeat case_match; done.
Qed.

Lemma spec_step_TDUP : 0 <= getCd bc -> spec T e0 (step_TDUP f bc) result_ok.
Proof.
  intros Hcd. pose proof operands_nonneg as [Ha Hb]. unfold step_TDUP.
  eapply spec_bind; [apply spec_create_table; constructor|]. intros e1 t He1 Ht.
  sbind spec_getGcConst. intros e2 v He2 Hv.
  destruct v; try (apply spec_fail2; ext). destruct Hv as [Hh Harr].
  apply spec_then_next; [ext|]. eapply spec_bind; [apply spec_mod_table; [vok|]|].
  - intros e tb He [_ Hm]. split; [by apply merged_ok|done].
  - intros e3 [] He3 _. eapply spec_setSlotVal; try done; [ext|vok].
Qed.

Lemma spec_step_table : 0 <= getCd bc -> spec T e0 (step_table call f bc) result_ok.
Proof.
  intros Hcd. pose proof operands_nonneg as [Ha Hb]. unfold step_table.
  assert (Hget : spec T e0 (ok_next f (doGetT call f bc)) result_ok).
  { apply spec_ok_next; [ext|by apply spec_doGetT]. }
  assert (Hset : spec T e0 (ok_next f (doSetT f bc)) result_ok).
  { apply spec_ok_next; [ext|by apply spec_doSetT]. }
  destruct (op_of bc); try first [exact Hget | exact Hset | by apply spec_step_TDUP];
    (apply spec_then_next; [ext|]).
  - eapply spec_bind; [apply spec_create_table; constructor|]. intros. eapply spec_setSlotVal; try done; ext.
  - sbind spec_getGcConst. intros e1 k He1 Hk.
    eapply spec_bind; [apply spec_get with (R := hash_ok); intros e _ Hok; apply (ok_globals _ Hok)|].
    intros e2 g He2 Hg. eapply spec_setSlotVal; try done; [ext|by apply qhash_value_ok].
  - sbind spec_getGcConst. intros e1 k He1 Hk. sbind spec_getSlotVal. intros e2 v He2 Hv.
    apply spec_mod. intros e He Hok.
    edestruct (ok_set_globals e (qhash_insert k v (e_globals e))) as [Hx Hy]; [done| |by split].
    apply qhash_insert_ok; [apply (ok_globals _ Hok)|vok|vok].
Qed.

Lemma spec_capture p n : forall e1 i,
  extends e0 e1 ->
  spec T e1 (capture f p n i) (fun e ups => Forall (fun s => (s < length (e_slots e))%nat) ups).
Proof.
  induction n as [|n IH]; intros e1 i He1; simpl; [apply spec_ret; constructor|].
  eapply spec_bind with (R := fun e ups => Forall (fun s => (s < length (e_slots e))%nat) ups).
  - assert (Hc : forall (l : list nat) m, Forall (fun s => (s < length (e_slots e0))%nat) l ->
      spec T e1 (match l !! Z.to_nat (getUpval p i) with
                 | Some s => rret [s] | None => _ <~ error2 f m; rret [] end)
        (fun e ups => Forall (fun s => (s < length (e_slots e))%nat) ups)).
    { intros l m Hl. destruct (l !! _) as [s|] eqn:El.
      - apply spec_ret. intros e He. constructor; [|done].
        rewrite Forall_lookup in Hl. pose proof (Hl _ _ El). pose proof (ext_slots _ _ He1).
        pose proof (ext_slots _ _ He). simpl in *. lia.
      - sbind spec_error2. intros. by apply spec_ret. }
    destruct (isLocalUpval p i); apply Hc; by destruct Hf.
  - intros e2 s He2 Hs. eapply spec_bind; [apply IH; ext|]. intros e3 r He3 Hr. apply spec_ret.
    intros e He. apply Forall_app. split; [apply (slots_mono e2)|apply (slots_mono e3)]; first [done|ext].
Qed.

Lemma spec_step_FNEW : 0 <= getCd bc -> spec T e0 (step_FNEW H f bc) result_ok.
Proof.
  intros Hcd. pose proof operands_nonneg as [Ha Hb]. unfold step_FNEW.
  sbind spec_getGcConst. intros e1 v He1 Hv. destruct v; try (apply spec_fail2; ext).
  destruct Hv as [p Hp]. rewrite Hp.
  eapply spec_bind; [apply spec_deref_Some|]. intros e2 p' He2 ->. eapply spec_bind; [apply spec_capture; ext|]. intros e3 ups He3 Hups.
  apply spec_then_next; [ext|]. eapply spec_setSlotVal; first [ext|done|split; [by eexists|done]].
Qed.

Lemma spec_step_UCLO : spec T e0 (step_UCLO f bc) result_ok.
Proof.
  unfold step_UCLO. eapply spec_bind.
  - apply spec_for with (P := fun _ => True); [by apply Forall_true|]. intros e s He _. by apply spec_set_slot.
  - intros e1 [] He1 _. destruct (negb _); apply spec_continue; ext.
Qed.

Lemma spec_step_upval : op_of bc = OP_UCLO \/ 0 <= getCd bc -> spec T e0 (step_upval H f bc) result_ok.
Proof.
  intros Hcd. pose proof operands_nonneg as [Ha Hb]. unfold step_upval.
  destruct Hcd as [-> | Hcd]; [apply spec_step_UCLO|].
  assert (Hset : forall m, spec T e0 m val_ok ->
    spec T e0 (then_next f (v <~ m; setUpvalue f (d_a bc) v)) result_ok).
  { intros m Hm. apply spec_then_next; [ext|]. eapply spec_bind; [exact Hm|].
    intros e1 v He1 Hv. by eapply spec_setUpvalue. }
  destruct (op_of bc); try first [by apply spec_step_FNEW | apply spec_step_UCLO].
  - apply spec_then_next; [ext|]. apply spec_store; [ext|done|by eapply spec_getUpvalue].
  - apply Hset. by eapply spec_getSlotVal.
  - apply Hset. by eapply spec_getGcConst.
  - apply Hset. by eapply spec_getNumConst.
  - apply spec_then_next; [ext|]. eapply spec_setUpvalue; try done.
    unfold getPriConst. repeat case_match; done.
Qed.

Lemma spec_step_CALL : 0 <= getCd bc -> spec T e0 (step_CALL call f bc) result_ok.
Proof.
  intros Hcd. pose proof operands_nonneg as [Ha Hb]. unfold step_CALL.
  sbind spec_getSlotVal. intros e1 vc He1 Hv. sbind spec_slot_values. intros e2 args He2 Hargs.
  eapply spec_bind; [apply spec_doCall; [ext|vok|vok]|]. intros e3 [res io] He3 Hio. simpl in Hio.
  destruct (res <? 0); [apply spec_ret; constructor|]. cbv zeta.
  apply spec_then_next; [ext|].
  set (hi := Z.min _ _). assert (hi <= Z.of_nat (length io)) as Hhi by (unfold hi; lia). clearbody hi.
  apply spec_for with (P := fun i => 0 <= i < Z.of_nat (length io)).
  { apply Forall_forall. intros i (k & <- & Hk)%list_elem_of_In%in_map_iff. apply in_seq in Hk. lia. }
  intros e i He Hi. destruct (lookup_nat_lt io (Z.to_nat i)) as [v Hlv]; [lia|]. rewrite Hlv.
  apply spec_store; [ext|lia|]. apply spec_deref; [left; by eexists|]. intros e4 x He4 [= <-].
  rewrite Forall_lookup in Hio. eapply val_mono; [|by apply (Hio _ _ Hlv)]. ext.
Qed.

Lemma spec_exec : T \/ for_defined -> spec T e0 (exec H call f bc) result_ok.
Proof.
  intros Hd. unfold exec.
  pose proof (fun o E => getCd_nonneg w o Hw E) as Hcd. fold bc in Hcd.
  destruct (op_of bc) eqn:E; try (apply spec_fail2; ext);
    try (apply spec_step_branch; rewrite ?E; done);
    try (pose proof (Hcd _ eq_refl ltac:(done) eq_refl) as Hcd'); clear Hcd;
    first [ by apply spec_or_return, spec_doCompare
          | by apply spec_or_return, spec_doEquality
          | by apply spec_step_test | apply spec_step_return
          | by apply spec_step_op; [|rewrite E; tauto]
          | by apply spec_step_op; [|rewrite E; do 5 right]
          | by apply spec_step_const; rewrite E; tauto
          | by apply spec_step_table | by apply spec_step_upval; rewrite E; tauto
          | by apply spec_step_CALL ].
Qed.

End One.
End Steps.

(** ** Runs *)

(** Numeric loops whose index can overflow, or whose slots are missing, are the
    only instructions that can be undefined. *)
Definition loops_defined (fn : Function) : bool :=
  forallb (fun w => let bc := dissectInstruction w in
    match op_of bc with
    | OP_FORI => d_a bc + 3 <? d_framesize fn
    | OP_FORL => false
    | _ => true
    end) (d_byteCodes fn).

Lemma spec_new_frame T e1 c args :
  is_Some (H !! cl_func c) -> Forall (fun s => (s < length (e_slots e1))%nat) (cl_upvals c) ->
  Forall (val_ok e1) args -> spec T e1 (new_frame H c args) frame_ok.
Proof.
  intros [fn Hfn] Hups Hargs e He Hok. unfold new_frame. rewrite Hfn. cbn [mderef]. rewrite rbind_rret.
  set (n := Z.to_nat (d_framesize fn)).
  set (vals := map (fun i => default QInvalid (args !! i)) (seq 0 n)).
  assert (Hlen : length vals = n) by (unfold vals; by rewrite length_map, length_seq).
  set (l := e_slots e ++ map (fun v => mkSlot v None) vals).
  assert (Hl : length l = (length (e_slots e) + n)%nat) by (unfold l; by rewrite length_app, length_map, Hlen).
  assert (Hext : extends e (set_slots l e)) by (split; simpl; [lia|done]).
  destruct (ok_set_slots e l Hok) as [_ Hok']; [lia| |].
  { unfold l. apply Forall_app. split.
    - eapply Forall_impl; [apply (ok_slots _ Hok)|]. intros. by eapply val_mono.
    - unfold vals. apply Forall_forall. intros sl (v & <- & (i & <- & _)%in_map_iff)%list_elem_of_In%in_map_iff.
      simpl. destruct (args !! i) as [v|] eqn:Ev; [|done]. simpl.
      rewrite Forall_lookup in Hargs. apply (val_mono e1); [|by apply (Hargs i)]. etrans; [exact He|exact Hext]. }
  split; [exact Hext|]. split; [exact Hok'|]. split; simpl.
  - done.
  - apply Forall_forall. intros s Hs%elem_of_seq. lia.
  - apply (slots_mono e1 (set_slots l e)); [|exact Hups]. etrans; [exact He|exact Hext].
  - lia.
  - rewrite length_seq. unfold n. lia.
Qed.

Definition run_ok (e : Engine) (r : bool * list QVariant) : Prop := Forall (val_ok e) r.2.

Lemma frame_for_defined e f w (T : Prop) :
  frame_ok e f -> fetch f = Some w -> T \/ Forall loops_defined H ->
  T \/ for_defined f w.
Proof.
  intros Hf Hw [HT|HL]; [by left|]. right. rewrite Forall_lookup in HL.
  pose proof (HL _ _ (fr_fn _ _ Hf)) as Hfn. unfold loops_defined in Hfn.
  apply Is_true_true, forallb_forall with (x := w) in Hfn;
    [|by apply list_elem_of_In, (list_elem_of_lookup_2 _ _ _ Hw)]. cbv zeta in Hfn. unfold for_defined. rewrite (fr_size _ _ Hf).
  destruct (op_of _); try done. lia.
Qed.

Lemma spec_step T call e0 f :
  (forall e1 c args, is_Some (H !! cl_func c) -> Forall (fun s => (s < length (e_slots e1))%nat) (cl_upvals c) ->
     Forall (val_ok e1) args -> spec T e1 (call c args) run_ok) ->
  heap_ok -> frame_ok e0 f -> T \/ Forall loops_defined H ->
  spec T e0 (step H call f) result_ok.
Proof.
  intros Hcall HH Hf HL. unfold step. destruct (fetch f) as [w|] eqn:Ew.
  - pose proof (fetch_range _ _ _ HH Hf Ew). by apply spec_exec; [..|eapply frame_for_defined].
  - eapply spec_fail2; done.
Qed.

Lemma spec_run_loop T out :
  heap_ok -> T \/ Forall loops_defined H -> (forall e, spec T e out run_ok) ->
  forall fuel e0 f, frame_ok e0 f -> spec T e0 (run_loop H out fuel f) run_ok.
Proof.
  intros HH HL Hout fuel. induction fuel as [|fuel IH]; intros e0 f Hf; simpl; [apply Hout|].
  eapply spec_bind; [apply spec_step; try done|].
  - intros e1 c args Hc Hu Ha. eapply spec_bind; [by apply spec_new_frame|]. intros. by apply IH.
  - intros e1 [f'|ok io] He1 Hr; [by apply IH|]. apply spec_ret. intros e He. unfold run_ok. simpl in *. vok.
Qed.

End Spec.

(** [C4] Runs of the engine keep its heap well-formed: whenever [run] of a closure
    ends, every slot, table and function that a value, a closure, a metatable or a
    global names still exists, no object has disappeared, and so do those that the
    results name. *)
Theorem engine_invariant `{L : LjBc} `{LL : !LjBcLaws L} `{Q : QtLib} `{EL : EngineLib} H fuel c args e ok io e' :
  heap_ok H -> engine_ok H e ->
  is_Some (H !! cl_func c) -> Forall (fun s => (s < length (e_slots e))%nat) (cl_upvals c) ->
  Forall (val_ok H e) args ->
  run_closure H fuel c args e = Some (ok, io, e') ->
  extends e e' /\ engine_ok H e' /\ Forall (val_ok H e') io.
Proof.
  intros HH Hok Hc Hu Ha Hrun.
  assert (Hs : spec H True e (run_closure H fuel c args) (run_ok H)).
  { unfold run_closure. eapply spec_bind; [by apply spec_new_frame|]. intros e1 f He1 Hf.
    apply spec_run_loop; first [done|by left|by intros; apply spec_fail]. }
  specialize (Hs e ltac:(reflexivity) Hok). by rewrite Hrun in Hs.
Qed.


(** ** Examples *)

(** The root creates a closure that increments its local, and calls it twice. *)
Definition counter_program : Heap := [
  test_function 3 [
    i_ad OP_KSHORT 0 5;
    i_ad OP_FNEW 1 0;
    i_abc OP_CALL 1 1 1; i_abc OP_CALL 1 1 1;
    i_ad OP_RET1 0 2] [QFuncRef 1] [] [];
  test_function 1 [
    i_ad OP_UGET 0 0; i_abc OP_ADDVN 0 0 0; i_ad OP_USETV 0 0; i_ad OP_RET0 0 1]
    [] [QInt 1] [0x8000]].

Example counter_runs :
  option_map fst (@run_closure LuaJIT20 Qt_example Engine_example counter_program 100 (mkClosure 0 []) [] empty_engine)
  = Some (true, [QDouble (dbl_of_Z 7)]).
Proof. vm_compute. reflexivity. Qed.

Lemma counter_heap_ok : heap_ok counter_program.
Proof.
  apply Forall_cons. split; [|apply Forall_cons; split; [|constructor]].
  - split; [|split; [constructor|by_decide]]. apply Forall_cons. split; [|constructor]. simpl. by eexists.
  - split; [constructor|]. split; [|by_decide]. by apply Forall_cons.
Qed.

Lemma empty_engine_ok H : engine_ok H empty_engine.
Proof. split; simpl; try constructor; try done. intros a [x Hx]. by rewrite lookup_empty in Hx. Qed.

Lemma engine_invariant_witness :
  exists e', @run_closure LuaJIT20 Qt_example Engine_example counter_program 100 (mkClosure 0 []) [] empty_engine
    = Some (true, [QDouble (dbl_of_Z 7)], e') /\
  extends empty_engine e' /\ engine_ok counter_program e' /\
  Forall (val_ok counter_program e') [QDouble (dbl_of_Z 7)].
Proof.
  eexists. split; [vm_compute; reflexivity|].
  apply (engine_invariant (L := LuaJIT20) (LL := LuaJIT20_laws) (Q := Qt_example) (EL := Engine_example)
    counter_program 100 (mkClosure 0 []) [] empty_engine true).
  - exact counter_heap_ok.
  - apply empty_engine_ok.
  - by eexists.
  - constructor.
  - constructor.
  - vm_compute. reflexivity.
Defined.

