(* ===== verification/EngineRun.v ===== *)
(** * Executions of the engine

    What single instructions and loops do: the numeric [for] loop, captured slots,
    tables, calls and errors, and that the result of a run does not depend on the
    fuel. *)

From S2P Require Import Prelude Double Bytecode QtLib BytecodeIO Engine EngineSpec.
From Stdlib Require Import Strings.Byte.
Local Open Scope Z_scope.
Local Open Scope rd_scope.

(** ** Fuel *)

(** [m'] has the results of [m]. *)
Definition le_sm {S A} (m m' : SM S A) : Prop := forall s r, m s = Some r -> m' s = Some r.

Lemma le_refl {S A} (m : SM S A) : le_sm m m.
Proof. by intros s r. Qed.

Lemma le_bind {S A B} (m m' : SM S A) (k k' : A -> SM S B) :
  le_sm m m' -> (forall x, le_sm (k x) (k' x)) -> le_sm (rbind m k) (rbind m' k').
Proof.
  intros Hm Hk s r Hr. apply rbind_inv in Hr as (x & t & E & Hr).
  rewrite (rbind_Some _ _ _ _ _ (Hm _ _ E)). by apply Hk.
Qed.

Lemma le_fail {S A} (m : SM S A) : le_sm rfail m.
Proof. by intros s r. Qed.

Section Fuel.
Context `{L : LjBc} `{Q : QtLib} `{EL : EngineLib}.
Variable H : Heap.
Variables call call' : Closure -> list QVariant -> SM Engine (bool * list QVariant).
Hypothesis Hcall : forall c args, le_sm (call c args) (call' c args).

Ltac le :=
  repeat (cbv zeta; intros; first
    [ apply le_refl | apply Hcall | assumption
    | apply le_bind | case_match ]).

Lemma le_doCall f v l : le_sm (doCall call f v l) (doCall call' f v l).
Proof. unfold doCall. le. Qed.

Lemma le_call_handler f c l : le_sm (call_handler call f c l) (call_handler call' f c l).
Proof. apply le_bind; [apply le_doCall|]. intros. apply le_refl. Qed.

Ltac le' :=
  repeat (cbv zeta; intros; first
    [ apply le_refl | apply le_call_handler | apply le_doCall | apply le_bind | case_match ]).

Lemma le_doCompare f bc : le_sm (doCompare call f bc) (doCompare call' f bc).
Proof. unfold doCompare. le'. Qed.
Lemma le_doEquality f bc : le_sm (doEquality call f bc) (doEquality call' f bc).
Proof. unfold doEquality. le'. Qed.
Lemma le_doArith f bc : le_sm (doArith call f bc) (doArith call' f bc).
Proof. unfold doArith. le'. Qed.
Lemma le_doGetT f bc : le_sm (doGetT call f bc) (doGetT call' f bc).
Proof. unfold doGetT. le'. Qed.
Lemma le_step_UNM f bc : le_sm (step_UNM call f bc) (step_UNM call' f bc).
Proof. unfold step_UNM. le'. Qed.
Lemma le_step_LEN f bc : le_sm (step_LEN call f bc) (step_LEN call' f bc).
Proof. unfold step_LEN. le'. Qed.
Lemma le_step_CALL f bc : le_sm (step_CALL call f bc) (step_CALL call' f bc).
Proof. unfold step_CALL. le'. Qed.

Lemma le_or_return (m m' : SM Engine (bool * Frame)) : le_sm m m' -> le_sm (or_return m) (or_return m').
Proof. intros Hm. apply le_bind; [done|]. intros. apply le_refl. Qed.
Lemma le_ok_next f (m m' : SM Engine bool) : le_sm m m' -> le_sm (ok_next f m) (ok_next f m').
Proof. intros Hm. apply le_bind; [done|]. intros. apply le_refl. Qed.

Lemma le_step_op f bc : le_sm (step_op call f bc) (step_op call' f bc).
Proof.
  unfold step_op. destruct (op_of bc);
    first [apply le_refl | apply le_step_UNM | apply le_step_LEN | apply le_ok_next, le_doArith].
Qed.
Lemma le_step_table f bc : le_sm (step_table call f bc) (step_table call' f bc).
Proof.
  unfold step_table. destruct (op_of bc); first [apply le_refl | apply le_ok_next, le_doGetT].
Qed.

Lemma le_step f : le_sm (step H call f) (step H call' f).
Proof.
  unfold step. destruct (fetch f) as [w|]; [|apply le_refl]. unfold exec.
  destruct (op_of _); first
    [ apply le_refl | apply le_or_return, le_doCompare | apply le_or_return, le_doEquality
    | apply le_step_op | apply le_step_table | apply le_step_CALL ].
Qed.

End Fuel.

(** The result of a run does not depend on the fuel: a run that ends has the
    same result, and leaves the same engine, with any larger fuel. *)
Theorem run_fuel_mono `{L : LjBc} `{Q : QtLib} `{EL : EngineLib} H fuel fuel' c args e r :
  (fuel <= fuel')%nat -> run_closure H fuel c args e = Some r -> run_closure H fuel' c args e = Some r.
Proof.
  intros Hle. assert (Hl : forall n m f, (n <= m)%nat -> le_sm (run_loop H rfail n f) (run_loop H rfail m f)).
  { induction n as [|n IH]; intros m f Hm; [apply le_fail|]. destruct m as [|m]; [lia|]. simpl.
    apply le_bind.
    - apply le_step. intros c' a'. apply le_bind; [apply le_refl|]. intros. apply IH. lia.
    - intros [f'|ok io]; [apply IH; lia|apply le_refl]. }
  apply le_bind; [apply le_refl|]. intros f. by apply Hl.
Qed.

Lemma run_fuel_mono_witness :
  exists r, @run_closure LuaJIT20 Qt_example Engine_example sum_program 60 (mkClosure 0 []) [] empty_engine = Some r /\
            @run_closure LuaJIT20 Qt_example Engine_example sum_program 90 (mkClosure 0 []) [] empty_engine = Some r.
Proof.
  eexists. split; [vm_compute; reflexivity|].
  apply (run_fuel_mono (L := LuaJIT20) (Q := Qt_example) (EL := Engine_example) sum_program 60 90); [lia|].
  vm_compute. reflexivity.
Defined.

(** ** Evaluating the operations on slots *)

(** The value of a slot, and an engine with another one. *)
Definition val_at (e : Engine) (s : nat) : option QVariant := s_val <$> e_slots e !! s.
Definition put (s : nat) (v : QVariant) (e : Engine) : Engine :=
  set_slots (alter (fun sl => mkSlot v (s_closed sl)) s (e_slots e)) e.

Lemma val_at_put_eq e s v : is_Some (val_at e s) -> val_at (put s v e) s = Some v.
Proof.
  unfold val_at, put. simpl. rewrite list_lookup_alter_eq. intros [x Hx].
  by destruct (e_slots e !! s).
Qed.
Lemma val_at_put_ne e s t v : s <> t -> val_at (put s v e) t = val_at e t.
Proof. intros Hne. unfold val_at, put. simpl. by rewrite list_lookup_alter_ne. Qed.
Lemma val_at_put_some e s t v : is_Some (val_at e t) -> is_Some (val_at (put s v e) t).
Proof.
  intros Ht. destruct (decide (s = t)) as [->|Hne]; [|by rewrite val_at_put_ne].
  rewrite val_at_put_eq by done. by eexists.
Qed.

Section Eval.
Context `{L : LjBc} `{Q : QtLib} `{EL : EngineLib}.

Lemma getSlot_eval f i s e :
  f_slots f !! Z.to_nat i = Some s -> 0 <= i -> getSlot f i e = Some (Some s, e).
Proof.
  intros Hs Hi. pose proof (lookup_lt_Some _ _ _ Hs). unfold getSlot.
  destruct (Z.ltb_spec i (Z.of_nat (length (f_slots f)))); [|lia].
  destruct (Z.ltb_spec i 0); [lia|]. by rewrite Hs.
Qed.

Lemma read_slot_eval s v e : val_at e s = Some v -> read_slot s e = Some (v, e).
Proof.
  unfold val_at, read_slot, rbind, rget, mderef. destruct (e_slots e !! s); [|done]. by intros [= <-].
Qed.

Lemma getSlotVal_eval f i s v e :
  f_slots f !! Z.to_nat i = Some s -> 0 <= i -> val_at e s = Some v -> getSlotVal f i e = Some (v, e).
Proof.
  intros Hs Hi Hv. unfold getSlotVal. rewrite (rbind_Some _ _ _ _ _ (getSlot_eval f i s e Hs Hi)).
  by apply read_slot_eval.
Qed.

Lemma setSlotVal_eval f i s v e :
  f_slots f !! Z.to_nat i = Some s -> 0 <= i -> setSlotVal f i v e = Some (tt, put s v e).
Proof.
  intros Hs Hi. unfold setSlotVal. by rewrite (rbind_Some _ _ _ _ _ (getSlot_eval f i s e Hs Hi)).
Qed.

Lemma setUpvalue_eval f i s v e :
  cl_upvals (f_func f) !! i = Some s -> setUpvalue f (Z.of_nat i) v e = Some (tt, put s v e).
Proof.
  intros Hs. pose proof (lookup_lt_Some _ _ _ Hs). unfold setUpvalue. cbv zeta.
  destruct (Z.ltb_spec (Z.of_nat i) (Z.of_nat (length (cl_upvals (f_func f))))); [|lia].
  destruct (Z.ltb_spec (Z.of_nat i) 0); [lia|]. by rewrite Nat2Z.id, Hs.
Qed.

Lemma getUpvalue_eval f i s v e :
  cl_upvals (f_func f) !! i = Some s -> val_at e s = Some v -> getUpvalue f (Z.of_nat i) e = Some (v, e).
Proof.
  intros Hs Hv. pose proof (lookup_lt_Some _ _ _ Hs). unfold getUpvalue. cbv zeta.
  destruct (Z.ltb_spec (Z.of_nat i) (Z.of_nat (length (cl_upvals (f_func f))))); [|lia].
  destruct (Z.ltb_spec (Z.of_nat i) 0); [lia|]. rewrite Nat2Z.id, Hs. by apply read_slot_eval.
Qed.

End Eval.

(** The rewriting of a computation by what its first part evaluates to. *)
Tactic Notation "ev" uconstr(t) := rewrite (rbind_Some _ _ _ _ _ t).

(** ** Sequences of steps *)

Section Loops.
Context `{L : LjBc} `{Q : QtLib} `{EL : EngineLib}.
Variable H : Heap.
Variable call : Closure -> list QVariant -> SM Engine (bool * list QVariant).

(** The frame and the engine after a number of instructions. *)
Inductive steps : Frame * Engine -> Frame * Engine -> Prop :=
  | steps_refl s : steps s s
  | steps_step f e f' e' s :
      step H call f e = Some (Continue f', e') -> steps (f', e') s -> steps (f, e) s.

#[export] Instance steps_trans : Transitive steps.
Proof. intros a b c Hab Hbc. induction Hab; [done|]. by eapply steps_step; [|apply IHHab]. Qed.

(** A numeric loop: [FORI] at [p], the body, [FORL] at [q], with the index, limit,
    step and visible index in the slots [a] to [a+3]. *)
Variables (f : Frame) (a p q : Z) (wi wl : Z) (si sl st sx : nat).
Record numeric_loop : Prop := {
  nl_range : 0 <= p < q /\ q + 1 < 2 ^ 32 /\ 0 <= a;
  nl_fori : d_byteCodes (f_fn f) !! Z.to_nat p = Some wi;
  nl_forl : d_byteCodes (f_fn f) !! Z.to_nat q = Some wl;
  nl_wi : let bc := dissectInstruction wi in op_of bc = OP_FORI /\ d_a bc = a /\ getCd bc = q - p;
  nl_wl : let bc := dissectInstruction wl in op_of bc = OP_FORL /\ d_a bc = a /\ getCd bc = p - q;
  nl_si : f_slots f !! Z.to_nat a = Some si;
  nl_sl : f_slots f !! Z.to_nat (a + 1) = Some sl;
  nl_st : f_slots f !! Z.to_nat (a + 2) = Some st;
  nl_sx : f_slots f !! Z.to_nat (a + 3) = Some sx;
  nl_distinct : NoDup (f_slots f)
}.

Variables (start stop stp : Z).

(** The control slots when the loop is at the index [i]. *)
Definition loop_control (i : Z) (e : Engine) : Prop :=
  (exists v, val_at e si = Some v /\ toInt v = i) /\
  (exists v, val_at e sl = Some v /\ toInt v = stop) /\
  (exists v, val_at e st = Some v /\ toInt v = stp) /\
  is_Some (val_at e sx).

(** The number of rounds. *)
Definition rounds (i : Z) : nat := Z.to_nat ((stop - i) / stp + 1).

Lemma for_continues_rounds i :
  stp <> 0 -> for_continues i stop stp = (0 <? rounds i)%nat.
Proof.
  intros Hs. unfold for_continues, rounds.
  assert (0 <= (stop - i) / stp <-> (0 <= stp /\ i <= stop) \/ (stp < 0 /\ stop <= i)) as Hd.
  { destruct (Z.lt_ge_cases stp 0).
    - rewrite <- (Z.div_opp_opp (stop - i) stp) by lia. split; intros.
      + right. split; [done|]. destruct (Z.lt_ge_cases (- (stop - i)) 0); [|lia].
        pose proof (Z.div_lt_upper_bound (- (stop - i)) (- stp) 0). lia.
      + apply Z.div_pos; lia.
    - split; intros.
      + left. split; [lia|]. destruct (Z.lt_ge_cases (stop - i) 0); [|lia].
        pose proof (Z.div_lt_upper_bound (stop - i) stp 0). lia.
      + apply Z.div_pos; lia. }
  destruct (Nat.ltb_spec 0 (Z.to_nat ((stop - i) / stp + 1)));
    destruct (Z.leb_spec 0 stp), (Z.ltb_spec stp 0), (Z.leb_spec i stop), (Z.leb_spec stop i);
    simpl; try reflexivity; lia.
Qed.

Lemma rounds_next i n : stp <> 0 -> rounds i = S n -> rounds (i + stp) = n.
Proof.
  unfold rounds. intros Hs Hr. replace (stop - (i + stp)) with (stop - i + (-1) * stp) by lia.
  rewrite Z.div_add by done. lia.
Qed.

Hypothesis Hloop : numeric_loop.

Lemma loop_slots_ne : si <> sl /\ si <> st /\ si <> sx /\ sl <> sx /\ st <> sx.
Proof.
  destruct Hloop as [(Hp & Hq & Ha) _ _ _ _ Hi Hl Ht Hx Hnd].
  assert (forall i j s t, f_slots f !! i = Some s -> f_slots f !! j = Some t -> i <> j -> s <> t) as Hne.
  { intros i j s t Hs Ht' Hij ->. apply Hij. by eapply NoDup_lookup. }
  repeat split; eapply Hne; try eassumption; lia.
Qed.

Lemma control_put_index i j e :
  loop_control i e -> loop_control j (put si (QInt j) e).
Proof.
  intros ((v0 & H0 & _) & (v1 & H1 & T1) & (v2 & H2 & T2) & Hx).
  destruct loop_slots_ne as (N1 & N2 & N3 & N4 & N5).
  repeat split; [exists (QInt j)|exists v1|exists v2|by apply val_at_put_some].
  - by rewrite val_at_put_eq by eauto.
  - by rewrite val_at_put_ne.
  - by rewrite val_at_put_ne.
Qed.

Lemma control_put_visible i v e :
  loop_control i e -> loop_control i (put sx v e).
Proof.
  intros ((v0 & H0 & T0) & (v1 & H1 & T1) & (v2 & H2 & T2) & Hx).
  destruct loop_slots_ne as (N1 & N2 & N3 & N4 & N5).
  repeat split; [exists v0|exists v1|exists v2|by apply val_at_put_some];
    by rewrite val_at_put_ne by done.
Qed.

Lemma fetch_at pc w : 0 <= pc < 2 ^ 32 -> d_byteCodes (f_fn f) !! Z.to_nat pc = Some w ->
  fetch (set_pc f pc) = Some w.
Proof. intros Hpc Hw. unfold fetch. simpl. by rewrite u32_small. Qed.

Lemma set_pc_pc x y : set_pc (set_pc f x) y = set_pc f y.
Proof. done. Qed.

Lemma pc_next x : 0 <= x < 2 ^ 32 -> next_pc (set_pc f x) = set_pc f (x + 1).
Proof. intros Hx. unfold next_pc. rewrite set_pc_pc. simpl. by rewrite u32_small. Qed.

(** [FORI] enters the body with the visible index set, or leaves the loop. *)
Lemma step_enter e :
  loop_control start e ->
  step H call (set_pc f p) e =
  Some (if for_continues start stop stp
        then (Continue (set_pc f (p + 1)), put sx (QInt start) (put sx (QInt start) e))
        else (Continue (set_pc f (q + 1)), put sx (QInt start) e)).
Proof.
  intros Hc. destruct (Hloop) as [(Hp & Hq & Ha) Hwi _ (Hop & Hda & Hcd) _ Hi Hl Ht Hx _].
  destruct Hc as ((v0 & H0 & T0) & (v1 & H1 & T1) & (v2 & H2 & T2) & Hx').
  unfold step. rewrite (fetch_at p wi) by (done || lia). unfold exec, step_branch. rewrite Hop.
  unfold step_FORI. rewrite Hda.
  ev (getSlotVal_eval (set_pc f p) _ _ _ e Hi ltac:(lia) H0).
  ev (getSlotVal_eval (set_pc f p) _ _ _ e Hl ltac:(lia) H1).
  ev (getSlotVal_eval (set_pc f p) _ _ _ e Ht ltac:(lia) H2).
  ev (getSlot_eval (set_pc f p) _ _ e Hx ltac:(lia)). cbv zeta. rewrite T0, T1, T2.
  ev (setSlotVal_eval (set_pc f p) _ _ (QInt start) e Hx ltac:(lia)).
  rewrite pc_next by lia.
  destruct (for_continues start stop stp); [done|].
  rewrite Hcd, set_pc_pc. simpl f_pc. rewrite u32_small by lia.
  by replace (p + 1 + (q - p)) with (q + 1) by lia.
Qed.

(** [FORL] advances the index and goes back to the body, or leaves the loop. *)
Lemma step_again i e :
  loop_control i e -> - 2 ^ 31 <= i + stp < 2 ^ 31 ->
  let j := i + stp in
  step H call (set_pc f q) e =
  Some (if for_continues j stop stp
        then (Continue (set_pc f (p + 1)), put sx (QInt j) (put si (QInt j) e))
        else (Continue (set_pc f (q + 1)), put si (QInt j) e)).
Proof.
  intros Hc Hr j. destruct (Hloop) as [(Hp & Hq & Ha) _ Hwl _ (Hop & Hda & Hcd) Hi Hl Ht Hx _].
  destruct Hc as ((v0 & H0 & T0) & (v1 & H1 & T1) & (v2 & H2 & T2) & Hx').
  unfold step. rewrite (fetch_at q wl) by (done || lia). unfold exec, step_branch. rewrite Hop.
  unfold step_FORL. rewrite Hda.
  ev (getSlot_eval (set_pc f q) _ _ e Hi ltac:(lia)).
  ev (getSlotVal_eval (set_pc f q) _ _ _ e Hl ltac:(lia) H1).
  ev (getSlotVal_eval (set_pc f q) _ _ _ e Ht ltac:(lia) H2).
  ev (getSlot_eval (set_pc f q) _ _ e Hx ltac:(lia)). cbv zeta. cbn [mderef]. rewrite rbind_rret.
  ev (read_slot_eval si v0 e H0). rewrite T0, T1, T2.
  unfold int_add. cbv zeta.
  destruct (Z.leb_spec (- 2 ^ 31) (i + stp)); [|lia]. destruct (Z.ltb_spec (i + stp) (2 ^ 31)); [|lia].
  cbn [andb mderef]. rewrite rbind_rret. fold j.
  assert (Hw : write_slot si (QInt j) e = Some (tt, put si (QInt j) e)) by done. ev Hw.
  rewrite pc_next by lia.
  destruct (for_continues j stop stp); [|done].
  rewrite Hcd, set_pc_pc. cbn [mderef]. rewrite rbind_rret. simpl f_pc. rewrite u32_small by lia.
  by replace (q + 1 + (p - q)) with (p + 1) by lia.
Qed.

(** What the body has to do: from the round of the index [i] to that of the next
    one, keeping the control slots. *)
Variable P : Z -> Engine -> Prop.
Definition body_ok : Prop := forall i e,
  for_continues i stop stp = true -> P i e -> loop_control i e -> val_at e sx = Some (QInt i) ->
  exists e', steps (set_pc f (p + 1), e) (set_pc f q, e') /\ P (i + stp) e' /\ loop_control i e'.

(** [P] is not about the slots that the loop changes. *)
Definition stable : Prop := forall i e j v, P i e -> P i (put si (QInt j) e) /\ P i (put sx v e).

Lemma index_between i n :
  - 2 ^ 31 <= i < 2 ^ 31 -> - 2 ^ 31 <= i + Z.of_nat (S n) * stp < 2 ^ 31 ->
  - 2 ^ 31 <= i + stp < 2 ^ 31.
Proof. intros Hi Hn. destruct (Z.lt_ge_cases stp 0); nia. Qed.

Lemma loop_rounds n : forall i e,
  stp <> 0 -> body_ok -> stable ->
  rounds i = S n -> - 2 ^ 31 <= i + Z.of_nat (S n) * stp < 2 ^ 31 -> - 2 ^ 31 <= i < 2 ^ 31 ->
  P i e -> loop_control i e -> val_at e sx = Some (QInt i) ->
  exists e', steps (set_pc f (p + 1), e) (set_pc f (q + 1), e') /\ P (i + Z.of_nat (S n) * stp) e'.
Proof.
  induction n as [|n IH]; intros i e Hs Hb Hst Hn Hr Hi HP Hc Hx;
    (destruct (Hb i e) as (e1 & Hs1 & HP1 & Hc1);
     [by rewrite for_continues_rounds, Hn by done|done..|]);
    pose proof (rounds_next i _ Hs Hn) as Hn1;
    pose proof (index_between i _ Hi Hr) as Hi1;
    pose proof (step_again i e1 Hc1 Hi1) as Hstep; cbv zeta in Hstep;
    rewrite for_continues_rounds, Hn1 in Hstep by done; simpl in Hstep;
    pose proof (proj1 (Hst _ _ (i + stp) QInvalid HP1)) as HP2.
  - exists (put si (QInt (i + stp)) e1). split.
    + etrans; [exact Hs1|]. eapply steps_step; [exact Hstep|]. constructor.
    + by rewrite Z.mul_1_l.
  - set (e2 := put sx (QInt (i + stp)) (put si (QInt (i + stp)) e1)) in *.
    assert (Hc2 : loop_control (i + stp) (put si (QInt (i + stp)) e1)) by (by eapply control_put_index).
    destruct (IH (i + stp) e2) as (e3 & Hs3 & HP3); try done.
    + replace (i + stp + Z.of_nat (S n) * stp) with (i + Z.of_nat (S (S n)) * stp) by lia. done.
    + by apply (Hst _ _ 0 (QInt (i + stp))) in HP2 as [_ HP2].
    + by apply control_put_visible.
    + apply val_at_put_eq. by destruct Hc2 as (_ & _ & _ & ?).
    + exists e3. split.
      * etrans; [exact Hs1|]. eapply steps_step; [exact Hstep|exact Hs3].
      * replace (i + Z.of_nat (S (S n)) * stp) with (i + stp + Z.of_nat (S n) * stp) by lia. done.
Qed.

End Loops.

(** [C7] The numeric [for] loop: started with the index [start], the limit [stop]
    and the step [stp], and a body that takes the loop from one index to the next,
    [FORI] and [FORL] run the body for [start], [start + stp], ... as long as the
    limit is not passed - [(stop - start) / stp + 1] times, not at all when this is
    not positive - with the visible index set in every round, and go on after the
    [FORL]. *)
Theorem for_loop `{L : LjBc} `{Q : QtLib} `{EL : EngineLib} H call f a p q wi wl si sl st sx start stop stp
    (P : Z -> Engine -> Prop) e :
  numeric_loop f a p q wi wl si sl st sx -> stp <> 0 ->
  let n := Z.of_nat (rounds stop stp start) in
  - 2 ^ 31 <= start < 2 ^ 31 -> - 2 ^ 31 <= start + n * stp < 2 ^ 31 ->
  body_ok H call f p q si sl st sx stop stp P -> stable si sx P ->
  loop_control si sl st sx stop stp start e -> P start e ->
  exists e', steps H call (set_pc f p, e) (set_pc f (q + 1), e') /\ P (start + n * stp) e'.
Proof.
  intros Hl Hs n Hi Hr Hb Hst Hc HP.
  pose proof (step_enter H call f a p q wi wl si sl st sx start stop stp Hl e Hc) as Hstep.
  rewrite for_continues_rounds in Hstep by done. unfold n in *.
  pose proof (control_put_visible f a p q wi wl si sl st sx stop stp Hl start (QInt start)) as Hv.
  assert (Hx : is_Some (val_at e sx)) by (by destruct Hc as (_ & _ & _ & ?)).
  destruct (rounds stop stp start) as [|m] eqn:En; simpl in Hstep.
  - exists (put sx (QInt start) e). split; [eapply steps_step; [exact Hstep|constructor]|].
    rewrite Z.mul_0_l, Z.add_0_r. by apply (Hst _ _ 0 (QInt start)) in HP as [_ HP].
  - destruct (loop_rounds H call f a p q wi wl si sl st sx stop stp Hl P m start
      (put sx (QInt start) (put sx (QInt start) e))) as (e' & Hs' & HP'); try done.
    + apply (Hst _ _ 0 (QInt start)), (Hst _ _ 0 (QInt start)). done.
    + by apply Hv, Hv.
    + apply val_at_put_eq. by apply val_at_put_some.
    + exists e'. split; [|exact HP']. eapply steps_step; [exact Hstep|exact Hs'].
Qed.

(** The loop of [sum_program]. *)
Definition sum_fn : Function := default (test_function 0 [] [] [] []) (sum_program !! 0%nat).
Definition sum_frame : Frame := mkFrame (mkClosure 0 []) sum_fn (seq 0 8) 0.
Definition sum_engine : Engine :=
  set_slots (map (fun v => mkSlot v None)
    [QInt 0; QInt 1; QInt 10; QInt 1; QInvalid; QInvalid; QInvalid; QInvalid]) empty_engine.
Definition no_call : Closure -> list QVariant -> SM Engine (bool * list QVariant) := fun _ _ => rfail.
Definition number_in_0 (_ : Z) (e : Engine) : Prop := exists v, val_at e 0 = Some v /\ isNumber v = true.

Lemma sum_body i e v :
  val_at e 0 = Some v -> isNumber v = true -> val_at e 4 = Some (QInt i) ->
  @step LuaJIT20 Qt_example Engine_example sum_program no_call (set_pc sum_frame 5) e =
  Some (Continue (set_pc sum_frame 6), put 0 (QDouble (dbl_add (@toDouble Qt_example v) (dbl_of_Z i))) e).
Proof.
  intros Hv Hn Hi.
  set (f := set_pc sum_frame 5).
  change (@step LuaJIT20 Qt_example Engine_example sum_program no_call f e)
    with (ok_next f (@doArith Qt_example Engine_example no_call f
            (@dissectInstruction LuaJIT20 (i_abc OP_ADDVV 0 0 4))) e).
  unfold ok_next, doArith. rewrite rbind_assoc.
  set (bc := @dissectInstruction _ _).
  change (op_of bc) with OP_ADDVV. unfold arith_operands. change (op_of bc) with OP_ADDVV. cbv iota.
  change (d_b bc) with 0. change (getCd bc) with 4. change (d_a bc) with 0.
  rewrite rbind_assoc. ev (getSlotVal_eval (EL := Engine_example) f 0 0 v e eq_refl ltac:(done) Hv).
  rewrite rbind_assoc. ev (getSlotVal_eval (EL := Engine_example) f 4 4 (QInt i) e eq_refl ltac:(done) Hi).
  rewrite rbind_rret. cbv zeta iota. rewrite Hn. cbn [andb isNumber arith_op]. rewrite rbind_assoc.
  ev (setSlotVal_eval (EL := Engine_example) f 0 0 (QDouble (dbl_add (@toDouble Qt_example v) (@toDouble Qt_example (QInt i)))) e eq_refl ltac:(done)).
  reflexivity.
Qed.

Lemma for_loop_witness :
  exists e', @steps LuaJIT20 Qt_example Engine_example sum_program no_call
    (set_pc sum_frame 4, sum_engine) (set_pc sum_frame 7, e') /\ number_in_0 11 e'.
Proof.
  destruct (for_loop (L := LuaJIT20) (Q := Qt_example) (EL := Engine_example) sum_program no_call sum_frame
    1 4 6 (i_ad OP_FORI 1 (jmp 2)) (i_ad OP_FORL 1 (jmp (-2))) 1 2 3 4 1 10 1 number_in_0 sum_engine)
    as (e' & Hs & HP).
  - split; try done. by apply NoDup_seq.
  - done.
  - done.
  - done.
  - intros i e _ (v & Hv & Hn) Hc Hx.
    eexists. split; [eapply steps_step; [by apply (sum_body i e v)|constructor]|]. split.
    + eexists. rewrite val_at_put_eq by eauto. done.
    + destruct Hc as ((v0 & H0 & T0) & (v1 & H1 & T1) & (v2 & H2 & T2) & H3).
      repeat split; [exists v0|exists v1|exists v2|]; by rewrite val_at_put_ne.
  - intros i e j v (u & Hu & Hn). split; exists u; by rewrite val_at_put_ne.
  - repeat split; [exists (QInt 1)|exists (QInt 10)|exists (QInt 1)|by eexists]; done.
  - by exists (QInt 0).
  - exists e'. split; [exact Hs|exact HP].
Defined.

(** ** Branches, closures, tables and errors *)

Section Behaviour.
Context `{L : LjBc} `{Q : QtLib} `{EL : EngineLib}.

(** [w] at the program counter has the opcode [o] with these operands. *)
Definition instruction_at (f : Frame) (o : Op) (a b cd : Z) : Prop :=
  exists w, fetch f = Some w /\
    let bc := dissectInstruction w in op_of bc = o /\ d_a bc = a /\ d_b bc = b /\ getCd bc = cd.

(** The slot [i] of the frame exists and has the value [v]. *)
Definition slot_is (e : Engine) (f : Frame) (i : Z) (v : QVariant) : Prop :=
  0 <= i /\ exists s, f_slots f !! Z.to_nat i = Some s /\ val_at e s = Some v.

Lemma slot_is_get e f i v : slot_is e f i v -> getSlotVal f i e = Some (v, e).
Proof. intros (Hi & s & Hs & Hv). by eapply getSlotVal_eval. Qed.

Lemma slot_is_next e f i v : slot_is e f i v -> slot_is e (next_pc f) i v.
Proof. done. Qed.

(** Where a comparison goes on: after the [JMP] that follows it, and by the offset
    of the [JMP] further when the comparison holds. *)
Definition after_compare (f : Frame) (offset : Z) (res : bool) : Frame :=
  set_pc f (f_pc f + 2 + (if res then offset else 0)).

Lemma jump_eval f a b offset res e :
  0 <= f_pc f < 2 ^ 32 - 2 -> instruction_at (next_pc f) OP_JMP a b offset ->
  doJumpAfterCompare f res e = Some ((true, after_compare f offset res), e).
Proof.
  intros Hpc (w & Hw & Hop & _ & _ & Hcd). unfold doJumpAfterCompare. cbv zeta. rewrite Hw, Hop.
  rewrite bool_decide_eq_true_2 by done. cbn [negb]. unfold rret, after_compare, next_pc. rewrite Hcd.
  unfold set_pc. simpl. rewrite !(u32_small (f_pc f + 1)) by lia.
  replace (f_pc f + 1 + 1) with (f_pc f + 2) by lia.
  destruct res; [|by rewrite Z.add_0_r]. by rewrite (u32_small (f_pc f + 2)) by lia.
Qed.

(** The order that a comparison tests. *)
Definition compares {A} (lt le : A -> A -> bool) (o : Op) : option (A -> A -> bool) :=
  match o with
  | OP_ISLT => Some lt
  | OP_ISGE => Some (fun x y => le y x)
  | OP_ISLE => Some le
  | OP_ISGT => Some (fun x y => lt y x)
  | _ => None
  end.

Lemma compares_values {A} (lt le : A -> A -> bool) o g x y :
  compares lt le o = Some g -> compare_values lt le o x y = g x y.
Proof. destruct o; simpl; by intros [= <-]. Qed.

Definition numbers_or_strings (v v' : QVariant) : Prop :=
  (isNumber v = true /\ isNumber v' = true) \/ (isString v = true /\ isString v' = true).

(** What a comparison of two numbers or two strings yields. *)
Definition compared (o : Op) (v v' : QVariant) : option bool :=
  if isNumber v
  then option_map (fun g => g (toDouble v) (toDouble v')) (compares dbl_ltb dbl_leb o)
  else option_map (fun g => g (toByteArray v) (toByteArray v')) (compares bytes_ltb bytes_leb o).

End Behaviour.

(** [C36] Comparisons: [ISLT], [ISGE], [ISLE] and [ISGT] of two numbers compare them
    as doubles, of two strings by their bytes, and the [JMP] that has to follow is
    taken exactly when the comparison holds; nothing else changes. *)
Theorem compare_branches `{L : LjBc} `{Q : QtLib} `{EL : EngineLib} H call f o a b cd ja jb offset v v' e r :
  0 <= f_pc f < 2 ^ 32 - 2 ->
  instruction_at f o a b cd -> instruction_at (next_pc f) OP_JMP ja jb offset ->
  slot_is e f a v -> slot_is e f cd v' -> numbers_or_strings v v' -> compared o v v' = Some r ->
  step H call f e = Some (Continue (after_compare f offset r), e).
Proof.
  intros Hpc (w & Hw & Hop & Ha & Hb & Hcd) Hj Hv Hv' Hty Hr.
  unfold step. rewrite Hw.
  assert (Hstep : or_return (doCompare call f (dissectInstruction w)) e =
                  Some (Continue (after_compare f offset r), e)).
  { unfold or_return, doCompare. cbv zeta. rewrite Hop, Ha, Hcd.
    rewrite !rbind_assoc. ev (slot_is_get _ _ _ _ Hv). rewrite rbind_assoc. ev (slot_is_get _ _ _ _ Hv').
    unfold compared in Hr.
    destruct Hty as [[Hn Hn'] | [Hs Hs']].
    - rewrite Hn in *. rewrite Hn'. cbn [andb]. destruct (compares dbl_ltb dbl_leb o) as [g|] eqn:Eg; [|done]. injection Hr as <-.
      rewrite (compares_values _ _ _ _ _ _ Eg). by ev (jump_eval _ _ _ _ _ e Hpc Hj).
    - assert (isNumber v = false) as Hn by (by destruct v). rewrite Hn in *. rewrite Hs, Hs'. cbn [andb].
      destruct (compares bytes_ltb bytes_leb o) as [g|] eqn:Eg; [|done]. injection Hr as <-.
      rewrite (compares_values _ _ _ _ _ _ Eg). by ev (jump_eval _ _ _ _ _ e Hpc Hj). }
  unfold exec. rewrite Hop. unfold compared in Hr.
  destruct o; first [exact Hstep | destruct (isNumber v); simpl in Hr; discriminate].
Qed.

(** Adds 1 to slot 0 until it is not below slot 1. *)
Definition while_program : Heap := [test_function 3 [
  i_ad OP_KSHORT 0 3; i_ad OP_KSHORT 1 8;
  i_ad OP_ISGE 0 1; i_ad OP_JMP 0 (jmp 2);
  i_abc OP_ADDVN 0 0 0; i_ad OP_JMP 0 (jmp (-4));
  i_ad OP_RET1 0 2] [] [QInt 1] []].

Example while_runs :
  option_map fst (@run_closure LuaJIT20 Qt_example Engine_example while_program 100 (mkClosure 0 []) [] empty_engine)
  = Some (true, [QDouble (dbl_of_Z 8)]).
Proof. vm_compute. reflexivity. Qed.

Definition while_frame : Frame :=
  mkFrame (mkClosure 0 []) (default (test_function 0 [] [] [] []) (while_program !! 0%nat)) [0; 1; 2]%nat 2.
Definition while_engine : Engine :=
  set_slots (map (fun v => mkSlot v None) [QInt 9; QInt 8; QInvalid]) empty_engine.

Lemma compare_branches_witness :
  @step LuaJIT20 Qt_example Engine_example while_program no_call while_frame while_engine =
  Some (Continue (set_pc while_frame 6), while_engine).
Proof.
  change (set_pc while_frame 6) with (after_compare while_frame 2 true).
  apply (compare_branches (L := LuaJIT20) (Q := Qt_example) (EL := Engine_example)
    while_program no_call while_frame OP_ISGE 0 0 1 0 0 2 (QInt 9) (QInt 8)).
  - done.
  - eexists. split; [reflexivity|]. vm_compute. done.
  - eexists. split; [reflexivity|]. vm_compute. done.
  - split; [done|]. by exists 0%nat.
  - split; [done|]. by exists 1%nat.
  - by left.
  - vm_compute. reflexivity.
Defined.

(** ** Captured slots *)

Section Capture.
Context `{L : LjBc} `{Q : QtLib} `{EL : EngineLib}.

(** The slot that the [i]-th upvalue of a function names when it is created in a
    frame: one of the frame for a local upvalue, one of the frame's own upvalues
    otherwise. *)
Definition upval_slot (f : Frame) (p : Function) (i : Z) : option nat :=
  if isLocalUpval p i then f_slots f !! Z.to_nat (getUpval p i)
  else cl_upvals (f_func f) !! Z.to_nat (getUpval p i).

Lemma capture_eval f p n : forall i ups e,
  0 <= i -> length ups = n ->
  (forall k s, ups !! k = Some s -> upval_slot f p (i + Z.of_nat k) = Some s) ->
  capture f p n i e = Some (ups, e).
Proof.
  induction n as [|n IH]; intros i ups e Hi Hlen Hups; [by destruct ups|].
  destruct ups as [|s ups]; [done|]. injection Hlen as Hlen. cbn [capture]. cbv zeta.
  pose proof (Hups 0%nat s eq_refl) as Hs. rewrite Z.add_0_r in Hs. unfold upval_slot in Hs.
  assert (Hrest : capture f p n (i + 1) e = Some (ups, e)).
  { apply IH; [lia|done|]. intros k t Hk. replace (i + 1 + Z.of_nat k) with (i + Z.of_nat (S k)) by lia.
    by apply (Hups (S k)). }
  destruct (isLocalUpval p i); rewrite Hs, rbind_rret; by ev Hrest.
Qed.

Lemma getGcConst_eval f i k e :
  let ks := d_constObjs (f_fn f) in
  0 <= i -> ks !! Z.to_nat (Z.of_nat (length ks) - i - 1) = Some k -> i < Z.of_nat (length ks) ->
  getGcConst f i e = Some (k, e).
Proof.
  intros ks Hi Hk Hlt. unfold getGcConst. cbv zeta. fold ks.
  destruct (Z.ltb_spec i (Z.of_nat (length ks))); [|lia]. destruct (Z.ltb_spec i 0); [lia|].
  by rewrite Hk.
Qed.

End Capture.

(** [C28] Closures share the slots they capture: [FNEW] on a prototype whose
    upvalues exist stores a closure with exactly the slots that the upvalue list
    names, in its order - slots of the frame for local upvalues, upvalues of the
    frame otherwise - so that a value the closure stores in an upvalue is the one
    the frame then reads from the local, and a value the frame stores in the local
    is the one the closure reads. *)
Theorem closure_shares_slots `{L : LjBc} `{Q : QtLib} `{EL : EngineLib} H call f a b cd dst ptr p ups e :
  let ks := d_constObjs (f_fn f) in
  instruction_at f OP_FNEW a b cd -> 0 <= cd < Z.of_nat (length ks) ->
  ks !! Z.to_nat (Z.of_nat (length ks) - cd - 1) = Some (QFuncRef ptr) -> H !! ptr = Some p ->
  length ups = length (d_upvals p) ->
  (forall i s, ups !! i = Some s -> upval_slot f p (Z.of_nat i) = Some s) ->
  0 <= a -> f_slots f !! Z.to_nat a = Some dst ->
  step H call f e = Some (Continue (next_pc f), put dst (QClosure ptr ups) e) /\
  forall g i j s v e', f_func g = mkClosure ptr ups ->
    ups !! i = Some s -> f_slots f !! j = Some s -> is_Some (val_at e' s) ->
    (exists e1, setUpvalue g (Z.of_nat i) v e' = Some (tt, e1) /\
                getSlotVal f (Z.of_nat j) e1 = Some (v, e1)) /\
    (exists e1, setSlotVal f (Z.of_nat j) v e' = Some (tt, e1) /\
                getUpvalue g (Z.of_nat i) e1 = Some (v, e1)).
Proof.
  intros ks (w & Hw & Hop & Ha & Hb & Hcd) Hr Hk Hp Hlen Hups Ha0 Hdst. split.
  - unfold step. rewrite Hw. unfold exec. rewrite Hop. unfold step_upval. rewrite Hop.
    unfold step_FNEW. rewrite Hcd, Ha.
    ev (getGcConst_eval f cd (QFuncRef ptr) e (proj1 Hr) Hk (proj2 Hr)). rewrite Hp. cbn [mderef].
    rewrite rbind_rret.
    ev (capture_eval f p _ 0 ups e ltac:(lia) Hlen Hups). unfold then_next.
    by ev (setSlotVal_eval f a dst (QClosure ptr ups) e Hdst Ha0).
  - intros g i j s v e' Hg Hi Hj Hs.
    assert (Hjz : f_slots f !! Z.to_nat (Z.of_nat j) = Some s) by by rewrite Nat2Z.id.
    assert (Hgi : cl_upvals (f_func g) !! i = Some s) by by rewrite Hg.
    split; exists (put s v e').
    + split; [by apply setUpvalue_eval|].
      apply (getSlotVal_eval _ _ s _ _ Hjz); [apply Nat2Z.is_nonneg|by apply val_at_put_eq].
    + split; [apply (setSlotVal_eval _ _ _ _ _ Hjz), Nat2Z.is_nonneg|].
      by eapply getUpvalue_eval, val_at_put_eq.
Qed.

Definition counter_frame : Frame :=
  mkFrame (mkClosure 0 []) (default (test_function 0 [] [] [] []) (counter_program !! 0%nat)) [0; 1; 2]%nat 1.

Lemma closure_shares_slots_witness :
  @step LuaJIT20 Qt_example Engine_example counter_program no_call counter_frame while_engine =
    Some (Continue (next_pc counter_frame), put 1 (QClosure 1 [0%nat]) while_engine) /\
  exists e1, setUpvalue (EL := Engine_example) (mkFrame (mkClosure 1 [0%nat]) sum_fn [] 0) 0 (QInt 77) while_engine
    = Some (tt, e1) /\ getSlotVal (EL := Engine_example) counter_frame 0 e1 = Some (QInt 77, e1).
Proof.
  destruct (closure_shares_slots (L := LuaJIT20) (Q := Qt_example) (EL := Engine_example)
    counter_program no_call counter_frame 1 0 0 1 1
    (default (test_function 0 [] [] [] []) (counter_program !! 1%nat)) [0%nat] while_engine) as [Hs Hsh].
  - eexists. split; [reflexivity|]. vm_compute. done.
  - done.
  - reflexivity.
  - reflexivity.
  - reflexivity.
  - intros [|i] s Hi; [injection Hi as <-; reflexivity|done].
  - done.
  - reflexivity.
  - split; [exact Hs|].
    apply (Hsh (mkFrame (mkClosure 1 [0%nat]) sum_fn [] 0) 0%nat 0%nat 0%nat (QInt 77) while_engine);
      try reflexivity. by eexists.
Defined.

(** ** Tables *)

Section Tables.
Context `{L : LjBc} `{Q : QtLib} `{EL : EngineLib}.

Lemma qhash_find_insert {A} k (v : A) l :
  key_eqb k k = true -> qhash_find k (qhash_insert k v l) = Some v.
Proof.
  intros Hk. induction l as [|[k' v'] l IH]; simpl; [by rewrite Hk|].
  destruct (key_eqb k' k) eqn:E; simpl; by rewrite E.
Qed.

(** The engine after an entry of the table [t] has been set. *)
Definition table_put (t : nat) (k v : QVariant) (e : Engine) : Engine :=
  set_tables (alter (fun tb => mkTable (qhash_insert k v (t_hash tb)) (t_meta tb) (t_user tb)) t (e_tables e))
    (e_next e) e.

Lemma mod_table_eval t tb g e :
  e_tables e !! t = Some tb ->
  mod_table (Some t) g e = Some (tt, set_tables (alter g t (e_tables e)) (e_next e) e).
Proof.
  intros Ht. unfold mod_table, the_table, rbind, mderef, rget, rret, rmod. by rewrite Ht.
Qed.

Lemma the_table_eval t tb e : e_tables e !! t = Some tb -> the_table (Some t) e = Some (tb, e).
Proof. intros Ht. unfold the_table, rbind, mderef, rget, rret. by rewrite Ht. Qed.

End Tables.

(** Table access: after [TSETV] has stored a value under a key, [TGETV] with
    the same table and key gives that value, whatever the table held before and
    whatever its metatable is. *)
Theorem table_set_get `{L : LjBc} `{Q : QtLib} `{EL : EngineLib} H call f a b c a' t tb k v dst e :
  0 <= f_pc f < 2 ^ 32 - 1 ->
  instruction_at f OP_TSETV a b c -> instruction_at (next_pc f) OP_TGETV a' b c ->
  slot_is e f b (QTableRef (Some t)) -> slot_is e f c k -> slot_is e f a v ->
  e_tables e !! t = Some tb -> key_eqb k k = true -> isValid v = true ->
  0 <= a' -> f_slots f !! Z.to_nat a' = Some dst ->
  steps H call (f, e) (next_pc (next_pc f), put dst v (table_put t k v e)).
Proof.
  intros Hpc (w & Hw & Hop & Ha & Hb & Hcd) (w' & Hw' & Hop' & Ha' & Hb' & Hcd') Ht Hk Hv Htb Hkk Hval Ha0 Hdst.
  eapply steps_step with (f' := next_pc f) (e' := table_put t k v e).
  - unfold step. rewrite Hw. unfold exec. rewrite Hop. unfold step_table. rewrite Hop.
    unfold ok_next, doSetT. rewrite Hop, Ha, Hb, Hcd. rewrite !rbind_assoc.
    ev (slot_is_get _ _ _ _ Ht). rewrite rbind_assoc. ev (slot_is_get _ _ _ _ Hv). rewrite rbind_assoc.
    ev (slot_is_get _ _ _ _ Hk). rewrite rbind_assoc. by ev (mod_table_eval t tb _ e Htb).
  - set (e1 := table_put t k v e).
    assert (Hs : forall i x, slot_is e f i x -> slot_is e1 (next_pc f) i x) by done.
    assert (Htb1 : e_tables e1 !! t =
      Some (mkTable (qhash_insert k v (t_hash tb)) (t_meta tb) (t_user tb))).
    { unfold e1, table_put. simpl. by rewrite lookup_alter_eq, Htb. }
    eapply steps_step; [|constructor].
    unfold step. rewrite Hw'. unfold exec. rewrite Hop'. unfold step_table. rewrite Hop'.
    unfold ok_next, doGetT. rewrite Hop', Ha', Hb', Hcd'. rewrite !rbind_assoc.
    ev (slot_is_get _ _ _ _ (Hs _ _ Ht)). rewrite rbind_assoc. ev (slot_is_get _ _ _ _ (Hs _ _ Hk)).
    rewrite rbind_assoc. ev (the_table_eval _ _ _ Htb1). cbv zeta. cbn [t_hash].
    unfold qhash_value. rewrite (qhash_find_insert k v _ Hkk), Hval. rewrite rbind_assoc.
    by ev (setSlotVal_eval (next_pc f) a' dst v e1 Hdst Ha0).
Qed.

Definition table_fn : Function :=
  test_function 4 [i_abc OP_TSETV 2 0 1; i_abc OP_TGETV 3 0 1; i_ad OP_RET1 3 2] [] [] [].
Definition table_frame : Frame := mkFrame (mkClosure 0 []) table_fn [0; 1; 2; 3]%nat 0.
Definition table_engine : Engine :=
  mkEngine [] (map (fun v => mkSlot v None) [QTableRef (Some 0%nat); QByteArray (qb "x"); QInt 5; QInvalid])
    {[ 0%nat := mkTable [(QByteArray (qb "x"), QInt 1)] None false ]} 1 [] [].

Lemma table_set_get_witness :
  @steps LuaJIT20 Qt_example Engine_example [table_fn] no_call (table_frame, table_engine)
    (next_pc (next_pc table_frame),
     put 3 (QInt 5) (table_put (Q := Qt_example) 0 (QByteArray (qb "x")) (QInt 5) table_engine)).
Proof.
  apply (table_set_get (L := LuaJIT20) (Q := Qt_example) (EL := Engine_example) [table_fn] no_call table_frame
    2 0 1 3 0 (mkTable [(QByteArray (qb "x"), QInt 1)] None false)).
  - done.
  - eexists. split; [reflexivity|]. vm_compute. done.
  - eexists. split; [reflexivity|]. vm_compute. done.
  - split; [done|]. by exists 0%nat.
  - split; [done|]. by exists 1%nat.
  - split; [done|]. by exists 2%nat.
  - reflexivity.
  - reflexivity.
  - reflexivity.
  - done.
  - reflexivity.
Defined.

(** ** Errors *)

(** The instructions that the switch of [run] has a case for. *)
Definition supported (o : Op) : bool :=
  match o with
  | OP_TSETM | OP_CALLM | OP_CALLMT | OP_CALLT | OP_ITERC | OP_ITERN | OP_VARG | OP_ISNEXT | OP_RETM
  | OP_JFORI | OP_IFORL | OP_JFORL | OP_ITERL | OP_IITERL | OP_JITERL | OP_ILOOP | OP_JLOOP
  | OP_INVALID => false
  | _ => true
  end.

(** Where [error2] says an error is. *)
Definition error_where `{EL : EngineLib} (f : Frame) : EngineWhere :=
  match d_lines (f_fn f) !! Z.to_nat (f_pc f) with
  | Some line => AtLine (fileName (d_sourceFile (f_fn f))) line
  | None => AtPc (fileName (d_sourceFile (f_fn f))) (d_id (f_fn f)) (f_pc f)
  end.

(** Bad exits: a program counter outside of the bytecode, and every opcode the
    engine does not implement, end the run with [false] and one message that names
    the place and, for an opcode, its name; the engine is otherwise unchanged. *)
Theorem bad_exits `{L : LjBc} `{Q : QtLib} `{EL : EngineLib} H call f e :
  match fetch f with
  | None => step H call f e = Some (Return false [], add_error (error_where f) PcOutOfBytecode e)
  | Some w =>
      let bc := dissectInstruction w in
      supported (op_of bc) = false ->
      step H call f e = Some (Return false [], add_error (error_where f) (Unsupported (d_name bc)) e)
  end.
Proof.
  unfold step. destruct (fetch f) as [w|]; [|done]. cbv zeta. intros Hs. unfold exec.
  destruct (op_of (dissectInstruction w)); done.
Qed.

Lemma bad_exits_witness :
  let f := mkFrame (mkClosure 0 []) (test_function 1 [i_ad OP_RETM 0 1] [] [] []) [] 0 in
  @step LuaJIT20 Qt_example Engine_example [] no_call f empty_engine =
  Some (Return false [], add_error (AtPc [] 7 0) (Unsupported (qb "RETM")) empty_engine).
Proof.
  exact (bad_exits (L := LuaJIT20) (Q := Qt_example) (EL := Engine_example) [] no_call
    (mkFrame (mkClosure 0 []) (test_function 1 [i_ad OP_RETM 0 1] [] [] []) [] 0) empty_engine eq_refl).
Defined.

(** [IST] takes its jump for every value, and [ISTC] copies and jumps for every value. *)
Remark IST_always_jumps `{L : LjBc} `{Q : QtLib} `{EL : EngineLib} f bc d e :
  op_of bc = OP_IST -> getSlotVal f (getCd bc) e = Some (d, e) ->
  step_test f bc e = (r <~ doJumpAfterCompare f true; rret (Continue (snd r))) e.
Proof.
  intros Hop Hd. unfold step_test. cbv zeta. ev Hd. rewrite Hop.
  rewrite bool_decide_eq_true_2 by done. by destruct (isTrue d).
Qed.

(** A function that returns 5, called into slot 1: the slot keeps the closure. *)
Definition call_program : Heap := [
  test_function 3 [i_ad OP_FNEW 1 0; i_abc OP_CALL 1 2 1; i_ad OP_RET1 1 2] [QFuncRef 1] [] [];
  test_function 1 [i_ad OP_KSHORT 0 5; i_ad OP_RET1 0 2] [] [] []].

Remark call_result_dropped :
  option_map fst (@run_closure LuaJIT20 Qt_example Engine_example call_program 100 (mkClosure 0 []) [] empty_engine)
  = Some (true, [QClosure 1 []]).
Proof. vm_compute. reflexivity. Qed.
