(* ===== verification/TokenTree.v ===== *)
(** * Nested switches over the characters of a string

    Both lexers classify punctuation and keywords by a function
    [tokenTypeFromString] that tests one character after the other.  This file has
    what the two have in common: the tests, and a checked way to state which
    strings such a function recognises.  A function made of tests is turned into a
    [tree] by the tactic [tree_of]; [check] then looks at every path of the tree. *)

From S2P Require Import Prelude.
From Stdlib Require Import Strings.Byte.
Local Open Scope Z_scope.

(** A character outside of the string is 0.
    [src/LuaTokenType.cpp:137-139] at *)
Definition at_ (str : bytes) (i : Z) : byte :=
  if (0 <=? i) && (i <? Z.of_nat (length str)) then nth (Z.to_nat i) str x00 else x00.

(** [at(str,i+k) == c] *)
Definition is_ (str : bytes) (i k : Z) (c : string) : bool :=
  bool_decide ([at_ str (i + k)] = qb c).

#[global] Arguments is_ : simpl never.

(** The text [s] is in [str] at [i]. *)
Definition text_at (str : bytes) (i : Z) (s : bytes) : Prop :=
  forall k c, s !! k = Some c -> at_ str (i + Z.of_nat k) = c.

Section Tree.
Context {T : Type}.

Inductive tree : Type :=
  | Fail_
  | Found (t : T) (n : Z)
  | Test (k : Z) (c : string) (yes no : tree).

Fixpoint eval (tr : tree) (str : bytes) (i : Z) : option (T * Z) :=
  match tr with
  | Fail_ => None
  | Found t n => Some (t, n)
  | Test k c yes no => if is_ str i k c then eval yes str i else eval no str i
  end.

(** The outcome as far as the characters [w] from the position on decide it. *)
Fixpoint eval_known (tr : tree) (w : bytes) : option (option (T * Z)) :=
  match tr with
  | Fail_ => Some None
  | Found t n => Some (Some (t, n))
  | Test k c yes no =>
      match w !! Z.to_nat k with
      | Some b => if bool_decide ([b] = qb c) then eval_known yes w else eval_known no w
      | None => None
      end
  end.

Fixpoint offsets_ok (tr : tree) : bool :=
  match tr with Test k _ yes no => (0 <=? k) && offsets_ok yes && offsets_ok no | _ => true end.

Lemma eval_known_sound tr w str i r :
  offsets_ok tr = true -> text_at str i w -> eval_known tr w = Some r -> eval tr str i = r.
Proof.
  intros Ho Hw. induction tr as [|t n|k c yes IHy no IHn]; simpl in *; [congruence..|].
  apply andb_true_iff in Ho as [Ho Hno]. apply andb_true_iff in Ho as [Hk Hyes].
  destruct (w !! Z.to_nat k) as [b|] eqn:E; [|done]. apply Hw in E. rewrite Z2Nat.id in E by lia.
  unfold is_. rewrite E. destruct (bool_decide _); auto.
Qed.

(** The tokens with their texts, and texts that are known not to be recognised. *)
Variables (all : list T) (text : T -> bytes) (holes : list bytes).

(** The outcome of a test, as the offset and the character. *)
Abbreviation test := (Z * byte)%type.

(** A text that does not agree with the tests that held and failed. *)
Definition excluded (pos neg : list test) (s : bytes) : bool :=
  existsb (fun kc => match s !! Z.to_nat kc.1 with
                     | Some c => (0 <=? kc.1) && negb (Byte.eqb c kc.2) | None => false end) pos ||
  existsb (fun kc => match s !! Z.to_nat kc.1 with
                     | Some c => (0 <=? kc.1) && Byte.eqb c kc.2 | None => false end) neg.

(** A text of which every character has been tested. *)
Definition established (pos : list test) (s : bytes) : bool :=
  forallb (fun kc => bool_decide (kc ∈ pos)) (imap (fun k c => (Z.of_nat k, c)) s).

Fixpoint check (tr : tree) (pos neg : list test) : bool :=
  match tr with
  | Fail_ => existsb (established pos) holes || forallb (fun t => excluded pos neg (text t)) all
  | Found t n =>
      (n =? Z.of_nat (length (text t))) && established pos (text t) &&
      forallb (fun t' => (Z.of_nat (length (text t')) <=? n) || excluded pos neg (text t')) all
  | Test k c yes no =>
      match qb c with
      | [b] => check yes ((k, b) :: pos) neg && check no pos ((k, b) :: neg)
      | _ => false
      end
  end.

Definition holds (str : bytes) (i : Z) (kc : test) : Prop := at_ str (i + kc.1) = kc.2.

Lemma excluded_sound str i pos neg s :
  Forall (holds str i) pos -> Forall (fun kc => ~ holds str i kc) neg ->
  excluded pos neg s = true -> ~ text_at str i s.
Proof.
  intros Hp Hn He Hs. unfold excluded in He. apply orb_true_iff in He as [He|He];
    apply existsb_exists in He as ([k c] & Hin & He); apply list_elem_of_In in Hin; simpl in He;
    destruct (s !! Z.to_nat k) as [c'|] eqn:Ec; try done;
    apply andb_true_iff in He as [Hk He]; pose proof (Hs _ _ Ec) as Hat; rewrite Z2Nat.id in Hat by lia.
  - rewrite Forall_forall in Hp. pose proof (Hp _ Hin) as H. unfold holds in H. simpl in H.
    apply negb_true_iff, Byte.eqb_false in He. congruence.
  - rewrite Forall_forall in Hn. apply (Hn _ Hin). unfold holds. simpl.
    apply Byte.byte_dec_bl in He. congruence.
Qed.

Lemma established_sound str i pos s :
  Forall (holds str i) pos -> established pos s = true -> text_at str i s.
Proof.
  intros Hp He k c Hk. unfold established in He. rewrite forallb_forall in He.
  assert (Hin : (Z.of_nat k, c) ∈ imap (fun k c => (Z.of_nat k, c)) s).
  { apply list_elem_of_lookup. exists k. by rewrite list_lookup_imap, Hk. }
  apply list_elem_of_In, He in Hin. apply bool_decide_eq_true_1 in Hin.
  rewrite Forall_forall in Hp. exact (Hp _ Hin).
Qed.

(** What a function that passes the check recognises: the longest text at the
    position, except where the position has one of the [holes]. *)
Definition recognises (r : option (T * Z)) (str : bytes) (i : Z) : Prop :=
  match r with
  | Some (t, n) =>
      n = Z.of_nat (length (text t)) /\ text_at str i (text t) /\
      forall t', t' ∈ all -> text_at str i (text t') -> Z.of_nat (length (text t')) <= n
  | None =>
      (exists h, h ∈ holes /\ text_at str i h) \/ forall t', t' ∈ all -> ~ text_at str i (text t')
  end.

Lemma check_sound str i tr : forall pos neg,
  Forall (holds str i) pos -> Forall (fun kc => ~ holds str i kc) neg ->
  check tr pos neg = true -> recognises (eval tr str i) str i.
Proof.
  induction tr as [|t n|k c yes IHy no IHn]; intros pos neg Hp Hn Hc; simpl in *.
  - apply orb_true_iff in Hc as [Hc|Hc].
    + left. apply existsb_exists in Hc as (h & Hin & He). exists h. split; [by apply list_elem_of_In|].
      by eapply established_sound.
    + right. intros t' Hin. rewrite forallb_forall in Hc. eapply excluded_sound; [done|done|].
      by apply Hc, list_elem_of_In.
  - apply andb_true_iff in Hc as [Hc Hl]. apply andb_true_iff in Hc as [Hlen He].
    split; [lia|]. split; [by eapply established_sound|].
    intros t' Hin Ht'. rewrite forallb_forall in Hl. apply list_elem_of_In, Hl, orb_true_iff in Hin.
    destruct Hin as [Hin|Hin]; [lia|]. by destruct (excluded_sound str i pos neg (text t') Hp Hn Hin).
  - destruct (qb c) as [|b [|]] eqn:Eb; try done. apply andb_true_iff in Hc as [Hy Hno].
    unfold is_. rewrite Eb. destruct (bool_decide_reflect ([at_ str (i + k)] = [b])) as [Hb|Hb].
    + apply (IHy ((k, b) :: pos) neg); [|done|done]. constructor; [|done]. unfold holds. simpl. congruence.
    + apply (IHn pos ((k, b) :: neg)); [done| |done]. constructor; [|done]. unfold holds. simpl. congruence.
Qed.

End Tree.

#[global] Arguments tree : clear implicits.
#[global] Arguments Fail_ {T}.
#[global] Arguments eval_known_sound {T}.

(** The tree of a term that is made of tests. *)
Ltac tree_of T t :=
  lazymatch t with
  | None => constr:(@Fail_ T)
  | Some (?x, ?n) => constr:(@Found T x n)
  | if is_ _ _ ?k ?c then ?a else ?b =>
      let ta := tree_of T a in let tb := tree_of T b in constr:(@Test T k c ta tb)
  end.

(** ** Texts in strings *)
Lemma at_lookup str i c : at_ str i = c -> c <> x00 -> 0 <= i /\ str !! Z.to_nat i = Some c.
Proof.
  unfold at_. destruct (Z.leb_spec 0 i), (Z.ltb_spec i (Z.of_nat (length str))); simpl; intros <- Hc; try done.
  split; [done|]. destruct (lookup_nat_lt str (Z.to_nat i)) as [x Hx]; [lia|].
  by rewrite (nth_lookup_Some _ _ _ _ Hx).
Qed.

Lemma at_Some str i c : str !! i = Some c -> at_ str (Z.of_nat i) = c.
Proof.
  intros Hc. pose proof (lookup_lt_Some _ _ _ Hc). unfold at_.
  destruct (Z.leb_spec 0 (Z.of_nat i)); [|lia]. destruct (Z.ltb_spec (Z.of_nat i) (Z.of_nat (length str))); [|lia].
  simpl. rewrite Nat2Z.id. by apply nth_lookup_Some.
Qed.

(** A text without zero bytes is a part of the string. *)
Lemma text_at_slice str i s :
  Forall (fun c => c <> x00) s -> text_at str (Z.of_nat i) s -> take (length s) (drop i str) = s.
Proof.
  intros Hnz Hs. apply list_eq. intros k. destruct (s !! k) as [c|] eqn:Ec.
  - pose proof (lookup_lt_Some _ _ _ Ec). rewrite lookup_take_lt, lookup_drop by done.
    rewrite Forall_lookup in Hnz. destruct (at_lookup str _ c (Hs k c Ec) (Hnz k c Ec)) as [_ Hl].
    by replace (Z.to_nat (Z.of_nat i + Z.of_nat k)) with (i + k)%nat in Hl by lia.
  - apply lookup_ge_None in Ec. apply lookup_ge_None. rewrite length_take. lia.
Qed.

Lemma text_at_app u s v : text_at (u ++ s ++ v) (Z.of_nat (length u)) s.
Proof.
  intros k c Hk. replace (Z.of_nat (length u) + Z.of_nat k) with (Z.of_nat (length u + k)) by lia.
  apply at_Some. rewrite lookup_app_r by lia. replace (length u + k - length u)%nat with k by lia.
  by apply lookup_app_l_Some.
Qed.
