(* ===== verification/LexCore.v ===== *)
(** * What the two lexers have in common

    The lexers of Lua and of the assembler (LuaLexer.cpp, LjasLexer.cpp) differ in the
    types of their tokens, in numbers, comments and strings; their lines, names,
    literals, block comments and lists of tokens are the same.  A device that is read is the
    list of the bytes that are left.  [None] is a failed [Q_ASSERT] or a loop that does not
    end within its fuel; the character classes are those of the C locale. *)

From S2P Require Import Prelude TokenTree.
From Stdlib Require Import Strings.Byte.
Local Open Scope Z_scope.
Local Open Scope rd_scope.

(** ** Tokens *)

(** What the code that is common uses of the types of tokens: some types, and
    [tokenTypeFromString]. *)
Class TokenKind (K : Type) := {
  #[global] kind_eq_dec :: EqDecision K;
  k_invalid : K; k_eof : K; k_name : K; k_comment : K; k_lcmt : K; k_rcmt : K;
  k_from_string : bytes -> Z -> K * Z
}.

(** [src/LuaToken.h:28-47] Token *)
Record LexToken (K : Type) := mkToken {
  d_type : K;
  d_lineNr : Z;
  d_colNr : Z;
  d_len : Z;
  d_val : bytes;
  d_sourcePath : bytes
}.
#[global] Arguments mkToken {K} _ _ _ _ _ _.
#[global] Arguments d_type {K} _.
#[global] Arguments d_lineNr {K} _.
#[global] Arguments d_colNr {K} _.
#[global] Arguments d_len {K} _.
#[global] Arguments d_val {K} _.
#[global] Arguments d_sourcePath {K} _.

(** The constructor reduces the numbers to their types.
    [src/LuaToken.h:43-44] Token *)
Definition new_Token {K} (t : K) (line col len : Z) (val : bytes) : LexToken K :=
  mkToken t (u32 line) (u16 col) (u16 len) val [].

(** [src/LuaToken.h:45-45] isValid *)
Definition isValid `{TokenKind K} (t : LexToken K) : bool :=
  negb (bool_decide (d_type t = k_eof)) && negb (bool_decide (d_type t = k_invalid)).
(** [src/LuaToken.h:46-46] isEof *)
Definition isEof `{TokenKind K} (t : LexToken K) : bool := bool_decide (d_type t = k_eof).

(** ** Characters *)

(** A name goes on with this character. *)
Definition ident_char (c : byte) : bool := isalnum c || Byte.eqb c "_".

(** [src/LuaLexer.cpp:149-161] isValidIdent *)
Definition isValidIdent (id : bytes) : bool :=
  match id with
  | [] => false
  | c :: rest => (isalpha c || Byte.eqb c "_") && forallb ident_char rest
  end.

(** [src/LuaLexer.cpp:163-166] isCharacter *)
Definition isCharacter (ch : byte) (withDigit : bool) : bool :=
  (if withDigit then isalnum ch else isalpha ch) || Byte.eqb ch "_" || Byte.eqb ch "$" || Byte.eqb ch "\".

(** [src/LuaLexer.cpp:262-270] isOnlyDecimalDigit *)
Definition isOnlyDecimalDigit (str : bytes) : bool := forallb isdigit str.

(** [QByteArray::trimmed], [mid] and [indexOf] *)
Fixpoint drop_while {A} (p : A -> bool) (l : list A) : list A :=
  match l with [] => [] | x :: l' => if p x then drop_while p l' else l end.
Definition trimmed (s : bytes) : bytes := rev (drop_while isspace (rev (drop_while isspace s))).

Definition mid (s : bytes) (pos len : Z) : bytes := take (Z.to_nat len) (drop (Z.to_nat pos) s).
Definition mid_all (s : bytes) (pos : Z) : bytes := drop (Z.to_nat pos) s.

Fixpoint prefix_of (p s : bytes) : bool :=
  match p, s with
  | [], _ => true
  | x :: p, y :: s => Byte.eqb x y && prefix_of p s
  | _, _ => false
  end.

(** The first position from [i] on, for a text that is not empty; [-1] without one. *)
Fixpoint index_of (fuel : nat) (p s : bytes) (i : Z) : Z :=
  match fuel with
  | O => -1
  | S fuel => if prefix_of p (mid_all s i) then i else index_of fuel p s (i + 1)
  end.
Definition indexOf (p s : bytes) (from : Z) : Z := index_of (S (length s - Z.to_nat from)) p s from.

(** ** State *)

(** Where and what of an error. *)
Record LexError := mkLexError { er_path : bytes; er_line : Z; er_col : Z; er_msg : bytes }.

(** [d_in] is [None] for a null pointer; [d_err] is the list of the errors reported,
    last first, or [None] without one.
    [src/LuaLexer.h:69-81] Lexer *)
Record LexState (K : Type) := mkLexer {
  d_in : option bytes;
  d_err : option (list LexError);
  x_lineNr : Z;
  x_colNr : Z;
  x_sourcePath : bytes;
  d_line : bytes;
  d_buffer : list (LexToken K);
  d_symbols : list bytes;
  d_lastToken : LexToken K;
  d_ignoreComments : bool;
  d_packComments : bool
}.

#[global] Arguments mkLexer {K} _ _ _ _ _ _ _ _ _ _ _.
#[global] Arguments d_in {K} _.
#[global] Arguments d_err {K} _.
#[global] Arguments x_lineNr {K} _.
#[global] Arguments x_colNr {K} _.
#[global] Arguments x_sourcePath {K} _.
#[global] Arguments d_line {K} _.
#[global] Arguments d_buffer {K} _.
#[global] Arguments d_symbols {K} _.
#[global] Arguments d_lastToken {K} _.
#[global] Arguments d_ignoreComments {K} _.
#[global] Arguments d_packComments {K} _.

Section Setters.
Context {K : Type}.

Definition set_in (b : option bytes) (x : LexState K) : LexState K :=
  mkLexer b (d_err x) (x_lineNr x) (x_colNr x) (x_sourcePath x) (d_line x) (d_buffer x) (d_symbols x)
    (d_lastToken x) (d_ignoreComments x) (d_packComments x).
Definition set_err (l : option (list LexError)) (x : LexState K) : LexState K :=
  mkLexer (d_in x) l (x_lineNr x) (x_colNr x) (x_sourcePath x) (d_line x) (d_buffer x) (d_symbols x)
    (d_lastToken x) (d_ignoreComments x) (d_packComments x).
(** The position; the numbers are those of a [quint32] and a [quint16]. *)
Definition set_pos (line col : Z) (x : LexState K) : LexState K :=
  mkLexer (d_in x) (d_err x) (u32 line) (u16 col) (x_sourcePath x) (d_line x) (d_buffer x) (d_symbols x)
    (d_lastToken x) (d_ignoreComments x) (d_packComments x).
Definition set_col (col : Z) (x : LexState K) : LexState K := set_pos (x_lineNr x) col x.
Definition set_path (p : bytes) (x : LexState K) : LexState K :=
  mkLexer (d_in x) (d_err x) (x_lineNr x) (x_colNr x) p (d_line x) (d_buffer x) (d_symbols x)
    (d_lastToken x) (d_ignoreComments x) (d_packComments x).
Definition set_line (l : bytes) (x : LexState K) : LexState K :=
  mkLexer (d_in x) (d_err x) (x_lineNr x) (x_colNr x) (x_sourcePath x) l (d_buffer x) (d_symbols x)
    (d_lastToken x) (d_ignoreComments x) (d_packComments x).
Definition set_buffer (l : list (LexToken K)) (x : LexState K) : LexState K :=
  mkLexer (d_in x) (d_err x) (x_lineNr x) (x_colNr x) (x_sourcePath x) (d_line x) l (d_symbols x)
    (d_lastToken x) (d_ignoreComments x) (d_packComments x).
Definition set_symbols (l : list bytes) (x : LexState K) : LexState K :=
  mkLexer (d_in x) (d_err x) (x_lineNr x) (x_colNr x) (x_sourcePath x) (d_line x) (d_buffer x) l
    (d_lastToken x) (d_ignoreComments x) (d_packComments x).
Definition set_last (t : LexToken K) (x : LexState K) : LexState K :=
  mkLexer (d_in x) (d_err x) (x_lineNr x) (x_colNr x) (x_sourcePath x) (d_line x) (d_buffer x) (d_symbols x)
    t (d_ignoreComments x) (d_packComments x).

End Setters.

Section Common.
Context `{TokenKind K}.
Abbreviation LM := (SM (LexState K)).

(** [src/LuaLexer.cpp:32-37] Lexer *)
Definition new_Lexer : LexState K :=
  mkLexer None None 0 0 [] [] [] [] (new_Token k_invalid 0 0 0 []) true true.

(** [src/LuaLexer.h:45-45] setErrors *)
Definition setErrors (on : bool) (x : LexState K) : LexState K := set_err (if on then Some [] else None) x.
(** [src/LuaLexer.h:47-47] setIgnoreComments *)
Definition setIgnoreComments (b : bool) (x : LexState K) : LexState K :=
  mkLexer (d_in x) (d_err x) (x_lineNr x) (x_colNr x) (x_sourcePath x) (d_line x) (d_buffer x) (d_symbols x)
    (d_lastToken x) b (d_packComments x).
(** [src/LuaLexer.h:48-48] setPackComments *)
Definition setPackComments (b : bool) (x : LexState K) : LexState K :=
  mkLexer (d_in x) (d_err x) (x_lineNr x) (x_colNr x) (x_sourcePath x) (d_line x) (d_buffer x) (d_symbols x)
    (d_lastToken x) (d_ignoreComments x) b.

Definition report (t : LexToken K) : LM unit :=
  rmod (fun x => match d_err x with
    | Some l => set_err (Some (mkLexError (d_sourcePath t) (d_lineNr t) (d_colNr t) (d_val t) :: l)) x
    | None => x end).

(** ** Reading lines and characters *)

(** The table of the symbols keeps one copy of each string.
    [src/LuaLexer.cpp:134-142] getSymbol *)
Definition getSymbol (str : bytes) : LM bytes :=
  fun x => match str with
    | [] => Some (str, x)
    | _ => Some (str, if bool_decide (str ∈ d_symbols x) then x else set_symbols (str :: d_symbols x) x)
    end.

(** [src/LuaLexer.cpp:144-147] clearSymbols *)
Definition clearSymbols : LM unit := rmod (set_symbols []).

(** [src/LuaLexer.cpp:39-51] setStream *)
Definition setStream (content : bytes) (path : bytes) : LM unit :=
  _ <~ rmod (fun x => set_pos 0 0 (set_in (Some content) x));
  p <~ getSymbol path;
  rmod (fun x => set_last (new_Token k_invalid 0 0 0 []) (set_path p x)).

(** [cache] is [FileCache::getFile], which finds nothing without a cache, and [file]
    reads a file, if it can be opened.
    [src/LuaLexer.cpp:53-88] setStream *)
Definition setStream_path (cache file : bytes -> option bytes) (path : bytes) : LM bool :=
  match cache path with
  | Some content => _ <~ setStream content path; rret true
  | None =>
      match file path with
      | Some content => _ <~ setStream content path; rret true
      | None =>
          _ <~ rmod (fun x => match d_err x with
            | Some l => set_err (Some (mkLexError path 0 0 (qb "cannot open file from path " ++ path) :: l)) x
            | None => x end);
          rret false
      end
  end.

(** [QIODevice::readLine]: up to the next line feed, which is included. *)
Fixpoint read_line (s : bytes) : bytes * bytes :=
  match s with
  | [] => ([], [])
  | c :: s => if Byte.eqb c x0a then ([c], s) else let '(l, r) := read_line s in (c :: l, r)
  end.

Definition endsWith (s e : bytes) : bool := prefix_of (rev e) (rev s).
Definition chop (s : bytes) (n : nat) : bytes := take (length s - n) s.

(** A line without its end.
    [src/LuaLexer.cpp:232-236] nextLine *)
Definition chop_line (l : bytes) : bytes :=
  if endsWith l [x0d; x0a] then chop l 2
  else if endsWith l [x0a] || endsWith l [x0d] || endsWith l [x15] then chop l 1
  else l.

(** [src/LuaLexer.cpp:227-237] nextLine *)
Definition nextLine : LM unit :=
  fun x => match d_in x with
    | Some s =>
        let '(l, r) := read_line s in
        Some (tt, set_line (chop_line l) (set_in (Some r) (set_pos (x_lineNr x + 1) 0 x)))
    | None => None
    end.

(** [d_in->atEnd()] *)
Definition atEnd : LM bool :=
  fun x => match d_in x with Some s => Some (bool_decide (s = []), x) | None => None end.

(** [src/LuaLexer.cpp:239-246] lookAhead *)
Definition lookAhead (x : LexState K) (off : Z) : byte := at_ (d_line x) (x_colNr x + off).

Definition line_size (x : LexState K) : Z := Z.of_nat (length (d_line x)).

(** [src/LuaLexer.cpp:219-225] skipWhiteSpace *)
Fixpoint skip_loop (fuel : nat) : LM unit :=
  match fuel with
  | O => rfail
  | S fuel => fun x =>
      if (x_colNr x <? line_size x) && isspace (at_ (d_line x) (x_colNr x))
      then skip_loop fuel (set_col (x_colNr x + 1) x)
      else Some (tt, x)
  end.
Definition skipWhiteSpace : LM unit := fun x => skip_loop (S (length (d_line x))) x.

(** The offset behind the characters from [off] on that satisfy [p]: the loops
    [while( true ) { c = lookAhead(off); if( !p(c) ) break; else off++; }]. *)
Definition scan (x : LexState K) (p : byte -> bool) (off : Z) : Z :=
  off + Z.of_nat (length (take_while p (mid_all (d_line x) (x_colNr x + off)))).

(** ** Tokens *)

Definition with_path (t : LexToken K) (p : bytes) : LexToken K :=
  mkToken (d_type t) (d_lineNr t) (d_colNr t) (d_len t) (d_val t) p.
Definition with_len (t : LexToken K) (n : Z) : LexToken K :=
  mkToken (d_type t) (d_lineNr t) (d_colNr t) (u16 n) (d_val t) (d_sourcePath t).

(** [src/LuaLexer.cpp:248-260] token *)
Definition token (ty : K) (len : Z) (val : bytes) : LM (LexToken K) :=
  v <~ (if bool_decide (ty = k_name) then getSymbol val else rret val);
  x <~ rget id;
  let t := new_Token ty (x_lineNr x) (x_colNr x + 1) len v in
  _ <~ rmod (set_last t);
  _ <~ rmod (fun x => set_col (x_colNr x + len) x);
  let t := with_path t (x_sourcePath x) in
  _ <~ (if bool_decide (ty = k_invalid) then report t else rret tt);
  rret t.

(** A word: a keyword, or a name.
    [src/LuaLexer.cpp:272-295] ident *)
Definition ident : LM (LexToken K) :=
  x <~ rget id;
  let off := scan x ident_char 1 in
  let str := mid (d_line x) (x_colNr x) off in
  if bool_decide (str = []) then rfail
  else
    let '(t, pos) := k_from_string str 0 in
    let t := if negb (bool_decide (t = k_invalid)) && negb (pos =? Z.of_nat (length str))
             then k_invalid else t in
    if negb (bool_decide (t = k_invalid)) then token t off []
    else token k_name off str.

(** The scale factor of a real number, at an [e].
    [src/LuaLexer.cpp:333-352] number *)
Definition scale_factor (x : LexState K) (off : Z) : Z * bool :=
  let off := off + 1 in
  let o := lookAhead x off in
  let '(off, o) := if Byte.eqb o "+" || Byte.eqb o "-" then (off + 1, lookAhead x (off + 1)) else (off, o) in
  if negb (isdigit o) then (off, false) else (scan x isdigit off, true).

Definition is_e (c : byte) : bool := Byte.eqb c "e" || Byte.eqb c "E".

(** The text collected so far, and more of it on a new line. *)
Definition add_line (str s : bytes) : bytes := if bool_decide (str = []) then s else str ++ [x0a] ++ s.

Definition line_comment (x : LexState K) : LM (LexToken K) :=
  token k_comment (line_size x - x_colNr x) (trimmed (mid_all (d_line x) (x_colNr x + 2))).

(** The loop over the lines of a block comment: the position behind its end or [-1],
    and the text.
    [src/LuaLexer.cpp:398-417] comment *)
Fixpoint comment_loop (fuel : nat) (endToken str : bytes) : LM (Z * bytes) :=
  match fuel with
  | O => rfail
  | S fuel =>
      e <~ atEnd;
      if (e : bool) then rret (-1, str)
      else
        x <~ rget id;
        let pos := indexOf endToken (d_line x) (x_colNr x) in
        if negb (pos =? -1) then
          let pos := pos + Z.of_nat (length endToken) in
          rret (pos, add_line str (mid (d_line x) (x_colNr x) (pos - x_colNr x)))
        else
          _ <~ nextLine;
          comment_loop fuel endToken (add_line str (mid_all (d_line x) (x_colNr x)))
  end.

Definition device_size (x : LexState K) : nat := match d_in x with Some s => length s | None => 0%nat end.

(** From the block comment on, with the text that ends it.
    [src/LuaLexer.cpp:393-439] comment *)
Definition block_comment (endToken : bytes) : LM (LexToken K) :=
  x0 <~ rget id;
  let startLine := x_lineNr x0 in
  let startCol := x_colNr x0 in
  r <~ comment_loop (S (device_size x0)) endToken [];
  let '(pos, str) := r in
  e <~ atEnd;
  if d_packComments x0 && (pos =? -1) && (e : bool) then
    _ <~ rmod (fun x => set_col (line_size x) x);
    let t := new_Token k_invalid startLine (startCol + 1) (Z.of_nat (length str)) (qb "non-terminated comment") in
    _ <~ report t;
    rret t
  else
    let ty := if d_packComments x0 then k_comment else k_lcmt in
    let t := with_path (new_Token ty startLine (startCol + 1) (Z.of_nat (length str)) str) (x_sourcePath x0) in
    _ <~ rmod (set_last t);
    _ <~ rmod (set_col pos);
    _ <~ (if negb (d_packComments x0) then
            rmod (fun x =>
              let t2 := with_path (new_Token k_rcmt (x_lineNr x) (pos - 3 + 1) 3 []) (x_sourcePath x0) in
              set_buffer (d_buffer x ++ [t2]) (set_last t2 x))
          else rret tt);
    rret t.

(** A Latin-1 character in UTF-8. *)
Definition latin1 (c : byte) : bytes :=
  if ubyte c <? 128 then [c] else [zbyte (192 + ubyte c / 64); zbyte (128 + ubyte c mod 64)].

(** [src/LuaLexer.cpp:209-209] nextTokenImp *)
Definition unexpected (ch : byte) : bytes :=
  qb "unexpected character '" ++ latin1 ch ++ qb "' " ++ decimal (schar ch).

(** The loop that goes to the next line with a token; [true] at the end of the device.
    [src/LuaLexer.cpp:174-185] nextTokenImp *)
Fixpoint line_loop (fuel : nat) : LM bool :=
  match fuel with
  | O => rfail
  | S fuel =>
      x <~ rget id;
      if x_colNr x <? line_size x then rret false
      else
        e <~ atEnd;
        if (e : bool) then rret true
        else _ <~ nextLine; _ <~ skipWhiteSpace; line_loop fuel
  end.

(** A literal, or a character that starts no token.
    [src/LuaLexer.cpp:205-216] nextTokenImp *)
Definition literal (ch : byte) : LM (LexToken K) :=
  x <~ rget id;
  let '(ty, pos) := k_from_string (d_line x) (x_colNr x) in
  if bool_decide (ty = k_invalid) || (pos =? x_colNr x)
  then token k_invalid 1 (unexpected ch)
  else token ty (pos - x_colNr x) (mid (d_line x) (x_colNr x) (pos - x_colNr x)).

Section Next.
(** The token at a position where there is a character. *)
Variable token_here : LM (LexToken K).

(** [src/LuaLexer.cpp:168-184] nextTokenImp *)
Definition next_imp : LM (LexToken K) :=
  x <~ rget id;
  match d_in x with
  | None => token k_eof 1 []
  | Some _ =>
      _ <~ skipWhiteSpace;
      e <~ line_loop (S (device_size x));
      if (e : bool) then token k_eof 0 [] else token_here
  end.

(** [fuel] bounds the comments that are skipped.
    [src/LuaLexer.cpp:90-102] nextToken *)
Fixpoint next_skip (fuel : nat) : LM (LexToken K) :=
  match fuel with
  | O => rfail
  | S fuel =>
      x <~ rget id;
      t <~ match d_buffer x with
           | t :: l => _ <~ rmod (set_buffer l); rret t
           | [] => next_imp
           end;
      if bool_decide (d_type t = k_comment) && d_ignoreComments x then next_skip fuel else rret t
  end.

(** [src/LuaLexer.cpp:104-110] peekToken *)
Fixpoint fill_buffer (n : nat) : LM unit :=
  match n with
  | O => rret tt
  | S n => t <~ next_imp; _ <~ rmod (fun x => set_buffer (d_buffer x ++ [t]) x); fill_buffer n
  end.
(** [src/LuaLexer.cpp:104-110] peekToken *)
Definition peek_ahead (lookAhead : nat) : LM (LexToken K) :=
  match lookAhead with
  | O => rfail
  | S i =>
      x <~ rget id;
      _ <~ fill_buffer (lookAhead - length (d_buffer x));
      y <~ rget id;
      match d_buffer y !! i with Some t => rret t | None => rfail end
  end.

(** [src/LuaLexer.cpp:117-132] tokens *)
Fixpoint tokens_from (fuel : nat) : LM (list (LexToken K)) :=
  match fuel with
  | O => rfail
  | S fuel =>
      t <~ next_skip (S fuel);
      if isValid t then l <~ tokens_from fuel; rret (t :: l) else rret []
  end.
(** [src/LuaLexer.cpp:117-132] tokens *)
Definition lex_tokens (fuel : nat) (code path : bytes) : LM (list (LexToken K)) :=
  _ <~ setStream code path; tokens_from fuel.
End Next.
End Common.
