(* ===== verification/SyntaxTree.v ===== *)
(** * Syntax trees and grammars

    What the syntax trees of Lua and of the assembler (LuaSynTree.h/.cpp, LjasSynTree.h/.cpp)
    have in common, and the productions of a grammar as regular expressions over what the
    children of a node are. *)

From S2P Require Import Prelude LexCore.
From Stdlib Require Import Strings.Byte.
Local Open Scope Z_scope.

(** ** Trees *)

(** The type of a token in a tree: that of a token of the lexer, or a rule of the parser. *)
Inductive NodeType (K R : Type) : Type := Tk (t : K) | Rule (r : R).
#[global] Arguments Tk {K R} _.
#[global] Arguments Rule {K R} _.

#[export] Instance NodeType_eq_dec `{EqDecision K} `{EqDecision R} : EqDecision (NodeType K R).
Proof. solve_decision. Defined.

(** [src/LuaSynTree.h:54-62] SynTree *)
Inductive SynTree (T : Type) : Type := Node (d_tok : LexToken T) (d_children : list (SynTree T)).
#[global] Arguments Node {T} _ _.

Section Trees.
Context {T : Type}.
Definition d_tok (st : SynTree T) : LexToken T := match st with Node t _ => t end.
Definition d_children (st : SynTree T) : list (SynTree T) := match st with Node _ l => l end.
Definition st_type (st : SynTree T) : T := d_type (d_tok st).
Definition st_val (st : SynTree T) : bytes := d_val (d_tok st).
Definition has_type `{EqDecision T} (st : SynTree T) (t : T) : bool := bool_decide (st_type st = t).

Fixpoint height (st : SynTree T) : nat := match st with Node _ l => S (list_max (map height l)) end.

Lemma height_child st c : c ∈ d_children st -> (height c < height st)%nat.
Proof.
  destruct st as [t l]. simpl. intros Hc. apply Nat.lt_succ_r.
  assert (Hm : Forall (fun k => (k <= list_max (map height l))%nat) (map height l)) by by apply list_max_le.
  rewrite Forall_map, Forall_forall in Hm. by apply Hm.
Qed.
End Trees.

Section Tokens.
Context {K R : Type}.

(** The token of a lexer in a tree. *)
Definition node_token (t : LexToken K) : LexToken (NodeType K R) :=
  mkToken (Tk (d_type t)) (d_lineNr t) (d_colNr t) (d_len t) (d_val t) (d_sourcePath t).

(** The position of a node is that of a token.
    [src/LuaSynTree.cpp:5-9] SynTree *)
Definition rule_token (r : R) (t : LexToken K) : LexToken (NodeType K R) :=
  mkToken (Rule r) (d_lineNr t) (d_colNr t) 0 [] (d_sourcePath t).

(** The tokens of a tree, from left to right. *)
Fixpoint leaves (st : SynTree (NodeType K R)) : list (LexToken (NodeType K R)) :=
  match st with
  | Node t l => match d_type t with Tk _ => [t] | Rule _ => flat_map leaves l end
  end.

Definition leaf (st : SynTree (NodeType K R)) : Prop := d_children st = [] /\ exists k, st_type st = Tk k.
End Tokens.

(** ** Regular expressions *)

Section Regexp.
Context {K : Type} `{!EqDecision K}.

Inductive re : Type := Void | Eps | OneOf (l : list K) | Cat (a b : re) | Alt (a b : re) | Star (a : re).

Definition Sym (k : K) : re := OneOf [k].
Definition Opt (a : re) : re := Alt a Eps.
Definition Plus (a : re) : re := Cat a (Star a).

Inductive lang : re -> list K -> Prop :=
  | l_eps : lang Eps []
  | l_one ks k : k ∈ ks -> lang (OneOf ks) [k]
  | l_cat a b u v : lang a u -> lang b v -> lang (Cat a b) (u ++ v)
  | l_left a b u : lang a u -> lang (Alt a b) u
  | l_right a b u : lang b u -> lang (Alt a b) u
  | l_nil a : lang (Star a) []
  | l_more a u v : lang a u -> lang (Star a) v -> lang (Star a) (u ++ v).

(** The matcher takes one symbol after the other. *)
Fixpoint nullable (a : re) : bool :=
  match a with
  | Void | OneOf _ => false
  | Eps | Star _ => true
  | Cat a b => nullable a && nullable b
  | Alt a b => nullable a || nullable b
  end.

Fixpoint derive (k : K) (a : re) : re :=
  match a with
  | Void | Eps => Void
  | OneOf ks => if bool_decide (k ∈ ks) then Eps else Void
  | Cat a b => let d := Cat (derive k a) b in if nullable a then Alt d (derive k b) else d
  | Alt a b => Alt (derive k a) (derive k b)
  | Star a => Cat (derive k a) (Star a)
  end.

Definition matches (a : re) (w : list K) : bool := nullable (foldl (fun a k => derive k a) a w).

Lemma nullable_lang a : nullable a = true -> lang a [].
Proof.
  induction a as [| |ks|a IHa b IHb|a IHa b IHb|a IHa]; simpl; try done; intros H.
  - constructor.
  - apply andb_true_iff in H as [Ha Hb]. by apply (l_cat _ _ [] []); auto.
  - apply orb_true_iff in H as [H|H]; [apply l_left|apply l_right]; auto.
  - constructor.
Qed.

Lemma derive_lang k a w : lang (derive k a) w -> lang a (k :: w).
Proof.
  revert w. induction a as [| |ks|a IHa b IHb|a IHa b IHb|a IHa]; simpl; intros w H; try by inversion H.
  - case_bool_decide; inversion H; subst. by constructor.
  - assert (Hc : forall w, lang (Cat (derive k a) b) w -> lang (Cat a b) (k :: w)).
    { intros w' H'. inversion H' as [| |? ? u v Hu Hv| | | |]; subst. apply (l_cat _ _ (k :: u) v); auto. }
    destruct (nullable a) eqn:Hn; [|auto]. inversion H; subst; auto.
    apply (l_cat _ _ [] (k :: w)); [by apply nullable_lang|auto].
  - inversion H; subst; [apply l_left|apply l_right]; auto.
  - inversion H as [| |? ? u v Hu Hv| | | |]; subst. apply (l_more _ (k :: u) v); auto.
Qed.

(** What matches is in the language. *)
Lemma matches_lang a w : matches a w = true -> lang a w.
Proof.
  unfold matches. revert a. induction w as [|k w IH]; intros a H; simpl in H; [by apply nullable_lang|].
  by apply derive_lang, IH.
Qed.

Lemma lang_eps w : lang Eps w -> w = [].
Proof. by inversion 1. Qed.
Lemma lang_one ks w : lang (OneOf ks) w -> exists k, w = [k] /\ k ∈ ks.
Proof. inversion 1; eauto. Qed.
Lemma lang_cat a b w : lang (Cat a b) w -> exists u v, w = u ++ v /\ lang a u /\ lang b v.
Proof. inversion 1; eauto. Qed.
Lemma lang_alt a b w : lang (Alt a b) w -> lang a w \/ lang b w.
Proof. inversion 1; auto. Qed.

(** Every symbol of a repetition is one of a set. *)
Lemma lang_star ks w : lang (Star (OneOf ks)) w -> Forall (fun k => k ∈ ks) w.
Proof.
  remember (Star (OneOf ks)) as a eqn:E. induction 1 as [| | | | | |a u v Hu _ Hv IH]; try done.
  injection E as ->. inversion Hu; subst. constructor; auto.
Qed.
End Regexp.
#[global] Arguments re : clear implicits.

(** All symbols of an expression. *)
Fixpoint symbols {K} (a : re K) : list K :=
  match a with
  | Void | Eps => []
  | OneOf ks => ks
  | Cat a b | Alt a b => symbols a ++ symbols b
  | Star a => symbols a
  end.

Lemma lang_symbols {K} (a : re K) w : lang a w -> Forall (fun k => k ∈ symbols a) w.
Proof.
  induction 1 as [|ks k H|a b u v _ IHa _ IHb|a b u _ IH|a b u _ IH| |a u v _ IHa _ IHs]; simpl; try done.
  - by constructor.
  - apply Forall_app. split; (eapply Forall_impl; [eassumption|]); set_solver.
  - eapply Forall_impl; [exact IH|]. set_solver.
  - eapply Forall_impl; [exact IH|]. set_solver.
  - by apply Forall_app.
Qed.

Declare Scope re_scope.
Delimit Scope re_scope with re.
Notation "a ** b" := (Cat a b) (at level 45, right associativity) : re_scope.
Notation "a || b" := (Alt a b) : re_scope.

(** ** Grammars *)

(** The productions: what the children of a node of a rule are. *)
Class Grammar (K R : Type) := production : R -> re (NodeType K R).

Section Grammars.
Context {K R : Type} `{!EqDecision K} `{!EqDecision R} `{!Grammar K R}.
Abbreviation Tree := (SynTree (NodeType K R)).

Definition tk (t : K) : re (NodeType K R) := Sym (Tk t).
Definition nt (r : R) : re (NodeType K R) := Sym (Rule r).

(** A tree of the grammar. *)
Inductive conforms : Tree -> Prop :=
  | conf_leaf t k : d_type t = Tk k -> conforms (Node t [])
  | conf_rule t r l : d_type t = Rule r -> lang (production r) (map st_type l) -> Forall conforms l -> conforms (Node t l).

(** What follows from the type of a node. *)
Lemma conforms_rule (st : Tree) r : conforms st -> st_type st = Rule r ->
  lang (production r) (map st_type (d_children st)) /\ Forall conforms (d_children st).
Proof. intros [t k E|t r' l E Hl Hc]; unfold st_type; simpl; rewrite E; [done|]. by intros [= ->]. Qed.

Lemma conforms_leaf (st : Tree) k : conforms st -> st_type st = Tk k -> d_children st = [].
Proof. intros [t k' E|t r' l E Hl Hc]; unfold st_type; simpl; rewrite E; done. Qed.

Lemma conforms_is_leaf (st : Tree) k : conforms st -> st_type st = Tk k -> leaf st.
Proof. intros Hc Ht. split; [by eapply conforms_leaf|by exists k]. Qed.

(** What the children of a node can be. *)
Lemma child_symbols (st : Tree) r (c : Tree) : conforms st -> st_type st = Rule r -> c ∈ d_children st ->
  st_type c ∈ symbols (production r) /\ conforms c.
Proof.
  intros Hc Ht Hin. destruct (conforms_rule st r Hc Ht) as [Hl Hf]. apply lang_symbols in Hl.
  rewrite Forall_map in Hl. rewrite Forall_forall in Hl, Hf. split; [by apply Hl|by apply Hf].
Qed.

(** A test. *)
Fixpoint conforms_b (st : Tree) : bool :=
  match st with
  | Node t l =>
      match d_type t with
      | Tk _ => bool_decide (length l = 0%nat)
      | Rule r => matches (production r) (map st_type l) && forallb conforms_b l
      end
  end.

Lemma conforms_b_true (st : Tree) : conforms_b st = true -> conforms st.
Proof.
  remember (height st) as n eqn:Hn. revert st Hn. induction n as [n IH] using lt_wf_ind. intros [t l] -> H. simpl in H.
  destruct (d_type t) as [k|r] eqn:E.
  - apply bool_decide_eq_true in H. destruct l; [|done]. by eapply conf_leaf.
  - apply andb_true_iff in H as [Hl Hc]. eapply conf_rule; [exact E|by apply matches_lang|]. apply Forall_forall. intros c Hin.
    eapply IH; [by apply (height_child (Node t l))|done|]. rewrite forallb_forall in Hc. by apply Hc, list_elem_of_In.
Qed.
End Grammars.

(** *** Shapes *)

(** The children of a node, from the production of its rule. *)
Ltac lang_inv :=
  repeat match goal with
    | H : lang (Cat _ _) _ |- _ => apply lang_cat in H as (? & ? & ? & ? & ?)
    | H : lang (Alt _ _) _ |- _ => apply lang_alt in H as [H|H]
    | H : lang (Opt _) _ |- _ => apply lang_alt in H as [H|H]
    | H : lang Eps _ |- _ => apply lang_eps in H
    | H : lang Void _ |- _ => by inversion H
    | H : lang (tk _) _ |- _ => apply lang_one in H as (? & ? & H); apply list_elem_of_singleton in H
    | H : lang (nt _) _ |- _ => apply lang_one in H as (? & ? & H); apply list_elem_of_singleton in H
    | H : lang (OneOf _) _ |- _ => apply lang_one in H as (? & ? & H)
    | H : lang (Plus _) _ |- _ => apply lang_cat in H as (? & ? & ? & ? & H)
    | H : lang (Star (tk _)) _ |- _ => apply lang_star in H
    | H : lang (Star (nt _)) _ |- _ => apply lang_star in H
    | H : lang (Star (OneOf _)) _ |- _ => apply lang_star in H
  end; subst.

(** The nodes of a list from their types. *)
Ltac nodes :=
  simpl app in *;
  repeat match goal with
    | H : ?x = map st_type ?l |- _ => symmetry in H
    | H : map st_type _ = _ ++ _ |- _ => apply map_eq_app in H as (? & ? & -> & ? & ?)
    | H : map st_type _ = _ :: _ |- _ => apply map_eq_cons in H as (? & ? & -> & ? & ?)
    | H : map st_type _ = [] |- _ => apply map_eq_nil in H as ->
    | H : Forall conforms (_ :: _) |- _ => inversion H; clear H; subst
    | H : Forall conforms (_ ++ _) |- _ => apply Forall_app in H as [? ?]
    | H : Forall conforms [] |- _ => clear H
  end.

(** The children of a node of a rule, in all ways the production has. *)
Ltac open_node st Hc Ht :=
  let Hl := fresh "Hl" in let Hf := fresh "Hf" in let l := fresh "l" in
  destruct (conforms_rule st _ Hc Ht) as [Hl Hf]; unfold production in Hl; simpl in Hl; revert Hl Hf;
  generalize (d_children st); intros l Hl Hf; lang_inv; simpl in *; nodes.
