(* ===== verification/ErrorList.v ===== *)
(** * Messages and cached files

    [LjasErrors.h/.cpp] and [LjasFileCache.h/.cpp]: the list of errors and warnings that the
    lexers, the parsers and the modules report to, and the texts that are taken instead of
    files.  There is one thread, so the locks are left out. *)

From S2P Require Import Prelude LexCore.
From Stdlib Require Import Strings.Byte.
Local Open Scope Z_scope.
Local Open Scope rd_scope.

(** ** Messages *)

(** [src/LjasErrors.h:37-37] Source *)
Inductive Source : Type := S_Lexer | S_Syntax | S_Semantics | S_Generator | S_Runtime.
#[export] Instance Source_eq_dec : EqDecision Source.
Proof. solve_decision. Defined.

(** [src/LjasErrors.h:38-47] Entry *)
Record Entry := mkEntry {
  d_line : Z;
  d_col : Z;
  d_source : Source;
  d_msg : bytes;
  d_file : bytes;
  d_isErr : bool
}.

(** [console] is what has been logged.
    [src/LjasErrors.h:80-90] Errors *)
Record Errors := mkErrors {
  d_numOfErrs : Z;
  d_numOfSyntaxErrs : Z;
  d_numOfWrns : Z;
  d_entries : list Entry;
  d_showWarnings : bool;
  d_reportToConsole : bool;
  d_record : bool;
  console : list Entry
}.

#[export] Instance Entry_eq_dec : EqDecision Entry.
Proof. solve_decision. Defined.
#[export] Instance Errors_eq_dec : EqDecision Errors.
Proof. solve_decision. Defined.

(** [src/LjasErrors.cpp:26-32] Errors *)
Definition new_Errors : Errors := mkErrors 0 0 0 [] true false false [].

(** [src/LjasErrors.cpp:40-62] error *)
Definition error (s : Source) (file : bytes) (line col : Z) (msg : bytes) (x : Errors) : Errors :=
  let e := mkEntry (u32 line) (u16 col) s msg file true in
  let entries := if d_record x then d_entries x ++ [e] else d_entries x in
  if d_reportToConsole x
  then mkErrors (d_numOfErrs x) (d_numOfSyntaxErrs x) (d_numOfWrns x) entries (d_showWarnings x) true (d_record x) (console x ++ [e])
  else mkErrors (u32 (d_numOfErrs x + 1)) (if bool_decide (s = S_Syntax) then u32 (d_numOfSyntaxErrs x + 1) else d_numOfSyntaxErrs x)
         (d_numOfWrns x) entries (d_showWarnings x) false (d_record x) (console x).

(** [src/LjasErrors.cpp:70-89] warning *)
Definition warning (s : Source) (file : bytes) (line col : Z) (msg : bytes) (x : Errors) : Errors :=
  let e := mkEntry (u32 line) (u16 col) s msg file false in
  mkErrors (d_numOfErrs x) (d_numOfSyntaxErrs x) (u32 (d_numOfWrns x + 1))
    (if d_showWarnings x && d_record x then d_entries x ++ [e] else d_entries x)
    (d_showWarnings x) (d_reportToConsole x) (d_record x)
    (if d_showWarnings x && d_reportToConsole x then console x ++ [e] else console x).

(** [src/LjasErrors.cpp:99-104] setShowWarnings *)
Definition setShowWarnings (on : bool) (x : Errors) : Errors :=
  mkErrors (d_numOfErrs x) (d_numOfSyntaxErrs x) (d_numOfWrns x) (d_entries x) on (d_reportToConsole x) (d_record x) (console x).
(** [src/LjasErrors.cpp:114-119] setReportToConsole *)
Definition setReportToConsole (on : bool) (x : Errors) : Errors :=
  mkErrors (d_numOfErrs x) (d_numOfSyntaxErrs x) (d_numOfWrns x) (d_entries x) (d_showWarnings x) on (d_record x) (console x).
(** [src/LjasErrors.cpp:129-134] setRecord *)
Definition setRecord (on : bool) (x : Errors) : Errors :=
  mkErrors (d_numOfErrs x) (d_numOfSyntaxErrs x) (d_numOfWrns x) (d_entries x) (d_showWarnings x) (d_reportToConsole x) on (console x).

(** [src/LjasErrors.cpp:136-142] getErrCount *)
Definition getErrCount (x : Errors) : Z := d_numOfErrs x.
(** [src/LjasErrors.cpp:144-150] getWrnCount *)
Definition getWrnCount (x : Errors) : Z := d_numOfWrns x.

(** [src/LjasErrors.cpp:161-172] getErrors *)
Definition getErrors (x : Errors) : list Entry := filter (fun e => d_isErr e = true) (d_entries x).
(** [src/LjasErrors.cpp:174-185] getWarnings *)
Definition getWarnings (x : Errors) : list Entry := filter (fun e => d_isErr e = false) (d_entries x).
(** [src/LjasErrors.cpp:187-198] getErrors *)
Definition getErrors_of (file : bytes) (x : Errors) : list Entry :=
  filter (fun e => d_isErr e = true /\ d_file e = file) (d_entries x).
(** [src/LjasErrors.cpp:200-211] getWarnings *)
Definition getWarnings_of (file : bytes) (x : Errors) : list Entry :=
  filter (fun e => d_isErr e = false /\ d_file e = file) (d_entries x).

(** [src/LjasErrors.cpp:213-221] clear *)
Definition clear_errors (x : Errors) : Errors :=
  mkErrors 0 0 0 [] (d_showWarnings x) (d_reportToConsole x) (d_record x) (console x).

(** [src/LjasErrors.cpp:223-236] sourceName *)
Definition sourceName (s : Source) : bytes :=
  match s with
  | S_Lexer => qb "Lexer" | S_Syntax => qb "Syntax" | S_Semantics => qb "Semantics"
  | S_Generator | S_Runtime => []
  end.

(** Errors that are reported to the console are not counted. *)
Remark console_errors_not_counted s file line col msg x :
  d_reportToConsole x = true -> getErrCount (error s file line col msg x) = getErrCount x.
Proof. unfold error. by intros ->. Qed.

(** ** Cached files *)

(** What the file system does: the canonical path, and the content of a file that can be
    read. *)
Class FileSystem := {
  canonicalFilePath : bytes -> bytes;
  file_content : bytes -> option bytes
}.

Section Cache.
Context `{FileSystem}.

(** The texts by their canonical paths. *)
Abbreviation FileCache := (gmap bytes bytes).

(** [src/LjasFileCache.cpp:32-42] addFile *)
Definition addFile (path content : bytes) (c : FileCache) : FileCache := <[canonicalFilePath path := content]> c.
(** [src/LjasFileCache.cpp:44-54] removeFile *)
Definition removeFile (path : bytes) (c : FileCache) : FileCache := delete (canonicalFilePath path) c.
(** [None] is a file that is not found.
    [src/LjasFileCache.cpp:56-80] getFile *)
Definition getFile (path : bytes) (c : FileCache) : option bytes := c !! canonicalFilePath path.

(** [src/LjasFileCache.cpp:104-125] createFileStreamForReading *)
Definition createFileStreamForReading (path : bytes) (c : FileCache) : option bytes :=
  match getFile path c with Some b => Some b | None => file_content path end.

(** [n] lines are read; [None] at the end of the file.
    [src/LjasFileCache.cpp:88-96] fetchTextLineFromFile *)
Fixpoint nth_line (n : nat) (str rest : bytes) : option bytes :=
  match n with
  | O => Some str
  | S n =>
      match rest with
      | [] => None
      | _ => let '(l, rest) := read_line rest in nth_line n l rest
      end
  end.

(** [src/LjasFileCache.cpp:82-102] fetchTextLineFromFile *)
Definition fetchTextLineFromFile (path : bytes) (line : Z) (defaultString : bytes) (c : FileCache) : bytes :=
  match createFileStreamForReading path c with
  | None => defaultString
  | Some content =>
      match nth_line (Z.to_nat line) [] content with
      | None => defaultString
      | Some str => let str := chop str 1 in if endsWith str [x0d] then chop str 1 else str
      end
  end.

(** What is cached is taken instead of the file, until it is removed. *)
Remark cached_stream path content c :
  createFileStreamForReading path (addFile path content c) = Some content /\
  createFileStreamForReading path (removeFile path (addFile path content c)) = file_content path.
Proof.
  unfold createFileStreamForReading, getFile, addFile, removeFile. by rewrite lookup_insert_eq, lookup_delete_eq.
Qed.
End Cache.
