(* ===== verification/LexCoreSpec.v ===== *)
(** * What the two lexers deliver

    Positions in a text, and the theorems on the code that the lexers of Lua and of the
    assembler have in common: a lexer whose tokens are what the text has at their positions
    ends on every text, with the tokens in their order. *)

From S2P Require Import Prelude TokenTree LexCore.
From Stdlib Require Import Strings.Byte.
Local Open Scope Z_scope.
Local Open Scope rd_scope.

(** ** Lines and positions of a text *)

(** What is left of the text behind [k] lines, and line [k], counted from 1. *)
Fixpoint rest (code : bytes) (k : nat) : bytes :=
  match k with O => code | S k => (read_line (rest code k)).2 end.
Definition code_line (code : bytes) (k : nat) : bytes :=
  match k with O => [] | S j => chop_line (read_line (rest code j)).1 end.
#[global] Arguments code_line : simpl never.

Lemma length_chop_line l : (length (chop_line l) <= length l)%nat.
Proof. unfold chop_line, chop. repeat case_match; rewrite ?length_take; lia. Qed.

Lemma length_read_line s : (length (read_line s).1 + length (read_line s).2 = length s)%nat.
Proof.
  induction s as [|c s IH]; [done|]. simpl. destruct (Byte.eqb c x0a); [simpl; lia|].
  destruct (read_line s). simpl in *. lia.
Qed.

Lemma read_line_progress s : s <> [] -> (length (read_line s).2 < length s)%nat.
Proof.
  destruct s as [|c s]; [done|]. intros _. simpl. destruct (Byte.eqb c x0a); [simpl; lia|].
  pose proof (length_read_line s). destruct (read_line s). simpl in *. lia.
Qed.

(** Positions [(k, c)]: column [c] of line [k]. *)
Section Positions.
Variable code : bytes.
Abbreviation llen k := (Z.of_nat (length (code_line code k))).
Abbreviation rlen k := (Z.of_nat (length (rest code k))).

Lemma line_rest k : llen (S k) + rlen (S k) <= rlen k.
Proof.
  unfold code_line. simpl. pose proof (length_chop_line (read_line (rest code k)).1).
  pose proof (length_read_line (rest code k)). lia.
Qed.

Lemma rest_progress k : rest code k <> [] -> rlen (S k) < rlen k.
Proof. intros H. simpl. pose proof (read_line_progress _ H). lia. Qed.

Lemma rest_count k : rest code k <> [] -> Z.of_nat k + rlen k <= Z.of_nat (length code).
Proof.
  induction k as [|k IH]; intros H; [simpl; lia|]. assert (Hk : rest code k <> []).
  { intros E. apply H. simpl. by rewrite E. }
  specialize (IH Hk). pose proof (rest_progress k Hk). lia.
Qed.

Lemma rest_mono k k' : (k <= k')%nat -> rlen k' <= rlen k.
Proof. induction 1 as [|k' ? IH]; [lia|]. pose proof (line_rest k'). lia. Qed.

(** What is left to read, for a lexer at a position. *)
Definition remaining (k : nat) (c : Z) : Z := rlen k + Z.max 0 (llen k - c).
Definition in_text (k : nat) (c : Z) : Prop := (k <= length code)%nat /\ 0 <= c <= llen k.
(** A lexer can be one character behind the end of a line. *)
Definition passed (k : nat) (c : Z) : Prop := (k <= S (length code))%nat /\ 0 <= c <= llen k + 1.

Lemma in_text_passed k c : in_text k c -> passed k c.
Proof. intros [? ?]. split; lia. Qed.

Lemma rest_small k : rest code k <> [] -> (k < length code)%nat.
Proof. intros H. pose proof (rest_count k H). destruct (rest code k); [done|]. simpl in *. lia. Qed.

Lemma passed_in_text k c : passed k c -> c < llen k -> in_text k c.
Proof.
  intros [Hk Hc] Hl. split; [|lia]. destruct k as [|k]; [lia|]. destruct (decide (rest code k = [])) as [E|E].
  - unfold code_line in Hl. rewrite E in Hl. simpl in Hl. lia.
  - apply rest_small in E. lia.
Qed.

Definition pos_lt (p q : nat * Z) : Prop := (p.1 < q.1)%nat \/ (p.1 = q.1 /\ p.2 < q.2).
Definition pos_le (p q : nat * Z) : Prop := (p.1 < q.1)%nat \/ (p.1 = q.1 /\ p.2 <= q.2).

Lemma remaining_lt k c k' c' :
  c < llen k -> 0 <= c' -> pos_lt (k, c) (k', c') -> remaining k' c' < remaining k c.
Proof.
  unfold remaining, pos_lt. simpl. intros Hc Hc' [H|[-> H]]; [|lia].
  destruct k' as [|k']; [lia|]. pose proof (line_rest k'). pose proof (rest_mono k k' ltac:(lia)). lia.
Qed.

Lemma remaining_le k c k' c' : 0 <= c' -> pos_le (k, c) (k', c') -> remaining k' c' <= remaining k c.
Proof.
  unfold remaining, pos_le. simpl. intros Hc' [H|[-> H]]; [|lia].
  destruct k' as [|k']; [lia|]. pose proof (line_rest k'). pose proof (rest_mono k k' ltac:(lia)). lia.
Qed.
End Positions.

(** ** Lists of characters *)
Lemma mid_length s c n : 0 <= c -> 0 <= n -> c + n <= Z.of_nat (length s) -> Z.of_nat (length (mid s c n)) = n.
Proof. intros. unfold mid. rewrite length_take, length_drop. lia. Qed.

Lemma mid_again s c n : mid s c (Z.of_nat (length (mid s c n))) = mid s c n.
Proof.
  unfold mid. rewrite Nat2Z.id, length_take. set (l := drop _ _).
  destruct (Nat.min_spec (Z.to_nat n) (length l)) as [[? ->]|[? ->]]; [done|]. by rewrite firstn_all, take_ge.
Qed.

Lemma at_mid s c n i : 0 <= c -> 0 <= i < n -> c + n <= Z.of_nat (length s) -> at_ (mid s c n) i = at_ s (c + i).
Proof.
  intros. unfold at_. rewrite mid_length by lia.
  repeat match goal with |- context [?a <=? ?b] => destruct (Z.leb_spec a b); [|lia]
    | |- context [?a <? ?b] => destruct (Z.ltb_spec a b); [|lia] end.
  simpl. unfold mid. rewrite !nth_lookup, lookup_take_lt, lookup_drop by lia. do 2 f_equal. lia.
Qed.

Lemma at_nonzero s i : at_ s i <> x00 -> 0 <= i < Z.of_nat (length s).
Proof. unfold at_. destruct (Z.leb_spec 0 i), (Z.ltb_spec i (Z.of_nat (length s))); simpl; intros; try done; lia. Qed.

Lemma class_nonzero (p : byte -> bool) s i : p x00 = false -> p (at_ s i) = true -> 0 <= i < Z.of_nat (length s).
Proof. intros H0 H. apply at_nonzero. intros E. congruence. Qed.

Lemma length_take_while {A} (p : A -> bool) l : (length (take_while p l) <= length l)%nat.
Proof. induction l as [|x l IH]; simpl; [lia|]. destruct (p x); simpl; lia. Qed.
Lemma take_while_forall {A} (p : A -> bool) l : forallb p (take_while p l) = true.
Proof. induction l as [|x l IH]; [done|]. simpl. destruct (p x) eqn:E; [simpl; by rewrite E|done]. Qed.
Lemma take_while_prefix {A} (p : A -> bool) l : take (length (take_while p l)) l = take_while p l.
Proof. induction l as [|x l IH]; [done|]. simpl. destruct (p x); [simpl; by f_equal|done]. Qed.

Lemma prefix_of_length p s : prefix_of p s = true -> (length p <= length s)%nat.
Proof.
  revert s. induction p as [|x p IH]; intros [|y s] H; simpl in *; try done; [lia..|].
  apply andb_true_iff in H as [_ H]. specialize (IH _ H). lia.
Qed.

Lemma index_of_bounds fuel p s i :
  0 <= i -> index_of fuel p s i = -1 \/ i <= index_of fuel p s i /\
    (p <> [] -> index_of fuel p s i + Z.of_nat (length p) <= Z.of_nat (length s)).
Proof.
  revert i. induction fuel as [|fuel IH]; intros i Hi; [by left|]. simpl.
  destruct (prefix_of p (mid_all s i)) eqn:E.
  - right. split; [lia|]. intros Hp. apply prefix_of_length in E. unfold mid_all in E. rewrite length_drop in E.
    destruct p; [done|]. simpl in *. lia.
  - destruct (IH (i + 1)) as [?|[? ?]]; [lia|by left|]. right. split; [lia|done].
Qed.

Lemma indexOf_bounds p s from :
  0 <= from -> indexOf p s from = -1 \/ from <= indexOf p s from /\
    (p <> [] -> indexOf p s from + Z.of_nat (length p) <= Z.of_nat (length s)).
Proof. apply index_of_bounds. Qed.

(** ** Tokens of a text *)

(** What is known of the types of tokens: those with a fixed text, those with a column
    that is counted from 0 and a length that is one too large, and what the text and the
    value of a token of another type are. *)
Class TokenTexts (K : Type) := {
  k_fixed : list K;
  k_text : K -> bytes;
  k_shifted : K -> bool;
  k_other : K -> bytes -> bytes -> Prop
}.

(** The type of a whole word: the keyword it is, or invalid. *)
Definition word_kind `{TokenKind K} (str : bytes) : K :=
  let '(t, pos) := k_from_string str 0 in
  if negb (bool_decide (t = k_invalid)) && negb (pos =? Z.of_nat (length str)) then k_invalid else t.

Class TokenLaws (K : Type) `{TokenKind K} `{TokenTexts K} : Prop := {
  s_name_valid : k_name <> k_invalid /\ k_name <> k_eof /\ k_comment <> k_invalid /\ k_comment <> k_eof;
  s_fixed t : t ∈ k_fixed -> t <> k_invalid /\ t <> k_name /\ t <> k_comment /\ k_shifted t = false;
  s_plain : k_shifted k_name = false /\ k_shifted k_comment = false /\ k_name <> k_comment;
  s_comment txt v : k_other k_comment txt v;
  s_word str : (word_kind str <> k_invalid -> word_kind str ∈ k_fixed /\ str = k_text (word_kind str)) /\
    (word_kind str = k_invalid -> forall t, t ∈ k_fixed -> str <> k_text t);
  s_literal str c : 0 <= c -> let '(t, pos) := k_from_string str c in
    t = k_invalid \/
    t ∈ k_fixed /\ k_text t <> [] /\ pos = c + Z.of_nat (length (k_text t)) /\
    take (length (k_text t)) (drop (Z.to_nat c) str) = k_text t;
  s_invalid_eof : k_invalid <> k_eof;
  s_fixed_eof t : t ∈ k_fixed -> t <> k_eof
}.

(** ** Recognising the texts of tokens *)

Section Recognise.
Context `{Kd : TokenKind K} `{Tx : !TokenTexts K} (find : bytes -> Z -> option (K * Z)) (holes : list bytes).
Hypothesis Hfrom : forall str pos,
  k_from_string str pos = match find str pos with Some (t, n) => (t, pos + n) | None => (k_invalid, pos) end.
Hypothesis Hfound : forall str i t n, find str i = Some (t, n) -> t ∈ k_fixed.
Hypothesis Hfind : forall str i, recognises k_fixed k_text holes (find str i) str i.
Hypothesis Hfixed : forall t, t ∈ k_fixed ->
  (Forall (fun c => c <> x00) (k_text t) /\ k_text t <> []) /\ t <> k_invalid.
Hypothesis Hwhole : forall t, t ∈ k_fixed -> find (k_text t) 0 = Some (t, Z.of_nat (length (k_text t))).

(** The keyword that a whole word is. *)
Lemma word_law (str : bytes) :
  (word_kind str <> k_invalid -> word_kind str ∈ k_fixed /\ str = k_text (word_kind str)) /\
  (word_kind str = k_invalid -> forall t, t ∈ k_fixed -> str <> k_text t).
Proof using All.
  assert (Hno : forall t, find str 0 <> Some (t, Z.of_nat (length str)) -> t ∈ k_fixed -> str <> k_text t).
  { intros t Hne Ht ->. by apply Hne, Hwhole. }
  unfold word_kind. rewrite Hfrom. pose proof (Hfind str 0) as Hr.
  destruct (find str 0) as [[t n]|] eqn:E; [rewrite (Z.add_0_l n)|].
  - apply Hfound in E as Hf. destruct (Hfixed t Hf) as [Ht Hne]. destruct Hr as (-> & Hat & _).
    rewrite bool_decide_eq_false_2 by done. cbn [negb andb].
    destruct (Z.eqb_spec (Z.of_nat (length (k_text t))) (Z.of_nat (length str))) as [Hn|Hn]; cbn [negb]; split; try done.
    + intros _. split; [done|]. apply (text_at_slice str 0) in Hat; [|apply Ht].
      rewrite drop_0, take_ge in Hat by lia. done.
    + intros _ t' Ht'. apply Hno; [|done]. intros [= _ ?]. lia.
  - rewrite bool_decide_eq_true_2 by done. simpl. split; [done|]. intros _ t' Ht'. by apply Hno.
Qed.

Lemma literal_law str c : 0 <= c -> let '(t, pos) := k_from_string str c in
  t = k_invalid \/
  t ∈ k_fixed /\ k_text t <> [] /\ pos = c + Z.of_nat (length (k_text t)) /\
  take (length (k_text t)) (drop (Z.to_nat c) str) = k_text t.
Proof using All.
  intros Hc. rewrite Hfrom. pose proof (Hfind str c) as Hr.
  destruct (find str c) as [[t n]|] eqn:E; [|by left]. right.
  apply Hfound in E as Hf. destruct Hr as (-> & Hat & _). destruct (Hfixed _ Hf) as [[Hnz Hne] _].
  rewrite <- (Z2Nat.id c) in Hat by lia. apply text_at_slice in Hat; [|done]. by split.
Qed.
End Recognise.

Section Tokens.
Context `{Kd : TokenKind K} `{Tx : !TokenTexts K}.

(** Where a token starts, counted from line 1 and column 0. *)
Definition token_start (t : LexToken K) : nat * Z :=
  (Z.to_nat (d_lineNr t), if k_shifted (d_type t) then d_colNr t else d_colNr t - 1).
Definition token_text (code : bytes) (t : LexToken K) : bytes :=
  mid (code_line code (token_start t).1) (token_start t).2 (if k_shifted (d_type t) then d_len t - 1 else d_len t).

(** The token is what the text has at its position: a name that is no keyword, the text of a
    keyword or a literal, or what tokens of its type are. *)
Definition well_lexed (code : bytes) (t : LexToken K) : Prop :=
  if bool_decide (d_type t = k_name) then
    isValidIdent (d_val t) = true /\ (forall k, k ∈ k_fixed -> d_val t <> k_text k) /\ token_text code t = d_val t
  else if bool_decide (d_type t ∈ k_fixed) then token_text code t = k_text (d_type t)
  else k_other (d_type t) (token_text code t) (d_val t).

Lemma not_valid (t : LexToken K) : d_type t = k_invalid \/ d_type t = k_eof -> isValid t = false.
Proof using Type.
  unfold isValid. intros [-> | ->]; [rewrite (bool_decide_eq_true_2 (k_invalid = k_invalid))|rewrite (bool_decide_eq_true_2 (k_eof = k_eof))];
    by rewrite ?andb_false_r.
Qed.

Context `{Laws : !TokenLaws K}.

Lemma well_lexed_name code t :
  d_type t = k_name -> isValidIdent (d_val t) = true -> (forall k, k ∈ k_fixed -> d_val t <> k_text k) ->
  token_text code t = d_val t -> well_lexed code t.
Proof using Type. intros. unfold well_lexed. rewrite bool_decide_eq_true_2 by done. by split. Qed.

Lemma well_lexed_fixed code t :
  d_type t ∈ k_fixed -> token_text code t = k_text (d_type t) -> well_lexed code t.
Proof using Laws.
  intros Hf Ht. destruct (s_fixed _ Hf) as (_ & Hn & _). unfold well_lexed.
  rewrite bool_decide_eq_false_2 by done. by rewrite bool_decide_eq_true_2.
Qed.

Lemma well_lexed_other code t :
  d_type t <> k_name -> d_type t ∉ k_fixed -> k_other (d_type t) (token_text code t) (d_val t) -> well_lexed code t.
Proof using Type. intros. unfold well_lexed. by rewrite !bool_decide_eq_false_2. Qed.

Lemma comment_not_fixed : k_comment ∉ k_fixed.
Proof using Laws. intros H. by apply s_fixed in H as (_ & _ & ? & _). Qed.
End Tokens.

Record text_ok (code : bytes) : Prop := {
  text_small : Z.of_nat (length code) + 1 < 2 ^ 32;
  lines_short : forall k, Z.of_nat (length (code_line code k)) < 2 ^ 16 - 1
}.

Lemma short_text code : Z.of_nat (length code) < 2 ^ 16 - 1 -> text_ok code.
Proof.
  intros H. split; [lia|]. intros [|k]; [by unfold code_line|].
  pose proof (line_rest code k). pose proof (rest_mono code 0 k ltac:(lia)). simpl in *. lia.
Qed.

Section Text.
Context `{Kd : TokenKind K} `{Tx : !TokenTexts K} (code : bytes) (ign : bool) (Hok : text_ok code).
Abbreviation llen k := (Z.of_nat (length (code_line code k))).

(** The lexer has read [k] lines and is at column [c] of the last one. *)
Record at_pos (k : nat) (c : Z) (x : LexState K) : Prop := {
  at_in : d_in x = Some (rest code k);
  at_nr : x_lineNr x = Z.of_nat k;
  at_col : x_colNr x = c;
  at_line : d_line x = code_line code k;
  at_buffer : d_buffer x = [];
  at_pack : d_packComments x = true;
  at_ignore : d_ignoreComments x = ign
}.

Lemma col_small k c : in_text code k c -> 0 <= c < 2 ^ 16 - 1.
Proof using Hok. intros [_ ?]. pose proof (lines_short _ Hok k). lia. Qed.
Lemma line_small k c : in_text code k c -> 0 <= Z.of_nat k < 2 ^ 32 - 1.
Proof using Hok. intros [? _]. pose proof (text_small _ Hok). lia. Qed.
Lemma passed_small k c : passed code k c -> 0 <= c < 2 ^ 16 /\ 0 <= Z.of_nat k < 2 ^ 32.
Proof using Hok. intros [? ?]. pose proof (lines_short _ Hok k). pose proof (text_small _ Hok). lia. Qed.

Lemma passed_col k c c' x : at_pos k c x -> passed code k c' -> at_pos k c' (set_col c' x).
Proof using Hok.
  intros [? E ? ? ? ? ?] Hc. destruct (passed_small _ _ Hc).
  split; try done; simpl; [rewrite E; apply u32_small; lia|apply u16_small; lia].
Qed.
Lemma at_pos_col k c c' x : at_pos k c x -> in_text code k c' -> at_pos k c' (set_col c' x).
Proof using Hok. intros Hx Hc. eapply passed_col; [done|by apply in_text_passed]. Qed.

Lemma at_pos_last k c x t : at_pos k c x -> at_pos k c (set_last t x).
Proof. by intros []. Qed.

Lemma wp_nextLine k c x Q :
  at_pos k c x -> (k <= length code)%nat ->
  (forall x', at_pos (S k) 0 x' -> Q tt x') -> wp nextLine Q x.
Proof using Hok.
  intros [E1 E2 ? ? ? ? ?] Hk HQ. pose proof (text_small _ Hok). unfold wp, nextLine. rewrite E1.
  destruct (read_line (rest code k)) as [l r] eqn:E. apply HQ.
  split; simpl; try done; [by rewrite E|rewrite E2; rewrite u32_small; lia|].
  unfold code_line. by rewrite E.
Qed.

Lemma wp_atEnd k c x (Q : bool -> LexState K -> Prop) :
  at_pos k c x -> Q (bool_decide (rest code k = [])) x -> wp atEnd Q x.
Proof. intros [E ? ? ? ? ? ?] HQ. unfold wp, atEnd. by rewrite E. Qed.

Lemma wp_skip k c x Q :
  at_pos k c x -> passed code k c ->
  (forall c' x', c <= c' -> passed code k c' -> at_pos k c' x' -> Q tt x') -> wp skipWhiteSpace Q x.
Proof using Hok.
  intros Hx Hc HQ. unfold skipWhiteSpace, wp. rewrite (at_line _ _ _ Hx).
  assert (Hf : Z.max 0 (llen k - c) < Z.of_nat (S (length (code_line code k)))) by (destruct Hc; lia). revert Hf.
  generalize (S (length (code_line code k))) as n. intros n Hn.
  revert c x Hx Hc Hn HQ. induction n as [|n IH]; intros c x Hx Hc Hn HQ; simpl; [destruct Hc; lia|].
  unfold line_size. rewrite (at_line _ _ _ Hx), (at_col _ _ _ Hx).
  destruct (Z.ltb_spec c (llen k)) as [Hlt|]; [|by apply (HQ c x); [lia| |]]. simpl.
  destruct (isspace _); [|by apply (HQ c x); [lia| |]].
  assert (Hc' : passed code k (c + 1)) by (destruct Hc; split; lia).
  eapply IH; [by eapply passed_col|done|lia|]. intros c' x' ?. apply HQ. lia.
Qed.

Lemma in_text_next k : rest code k <> [] -> in_text code (S k) 0.
Proof. intros H. pose proof (rest_count code k H). pose proof (rest_progress code k H). split; lia. Qed.

Lemma wp_line_loop n k c x (Q : bool -> LexState K -> Prop) :
  at_pos k c x -> passed code k c -> (length (rest code k) < n)%nat ->
  (forall k' c' x', at_pos k' c' x' -> passed code k' c' -> llen k' <= c' -> rest code k' = [] -> Q true x') ->
  (forall k' c' x', at_pos k' c' x' -> in_text code k' c' -> c' < llen k' -> pos_le (k, c) (k', c') -> Q false x') ->
  wp (line_loop n) Q x.
Proof using Hok.
  revert k c x. induction n as [|n IH]; intros k c x Hx Hc Hn HQ1 HQ2; [lia|].
  apply wp_bind, wp_get. unfold line_size, id. rewrite (at_col _ _ _ Hx), (at_line _ _ _ Hx).
  destruct (Z.ltb_spec c (llen k)) as [Hlt|Hge].
  - apply wp_ret. eapply HQ2; [done|by apply passed_in_text|done|]. right. simpl. lia.
  - apply wp_bind. eapply wp_atEnd; [done|]. case_bool_decide as E; [by eapply HQ1|].
    pose proof (rest_small code k E). apply wp_bind. eapply wp_nextLine; [done|lia|]. intros x1 Hx1.
    pose proof (in_text_passed _ _ _ (in_text_next k E)) as Hc1. apply wp_bind. eapply wp_skip; [done..|].
    intros c2 x2 ? Hc2 Hx2. pose proof (rest_progress code k E).
    eapply IH; [done..|lia|done|]. intros k' c' x' ? ? ? Hle. eapply HQ2; [done..|].
    destruct Hle as [?|[? ?]]; left; simpl in *; lia.
Qed.

(** ** One token *)

(** The outcome of a function that lexes the token at a position: the lexer is behind it;
    unless the token is invalid it starts there and is what the text has. *)
Definition lexed (k : nat) (c : Z) (t : LexToken K) (x' : LexState K) : Prop :=
  d_type t <> k_eof /\ (isValid t = true -> token_start t = (k, c) /\ well_lexed code t) /\
  exists k' c', at_pos k' c' x' /\ passed code k' c' /\ pos_lt (k, c) (k', c').

Lemma getSymbol_val v (x : LexState K) : exists l, getSymbol v x = Some (v, set_symbols l x).
Proof.
  destruct x as [? ? ? ? ? ? ? sy ? ? ?]. unfold getSymbol. destruct v as [|b v]; [by exists sy|].
  simpl d_symbols. case_bool_decide; [by exists sy|]. by eexists.
Qed.

Lemma wp_token k c x ty len val (Q : LexToken K -> LexState K -> Prop) :
  (forall x' t, d_type t = ty -> d_lineNr t = u32 (x_lineNr x) -> d_colNr t = u16 (x_colNr x + 1) ->
     d_len t = u16 len -> d_val t = val ->
     (at_pos k c x -> passed code k (c + len) -> at_pos k (c + len) x') -> Q t x') ->
  wp (token ty len val) Q x.
Proof using Hok.
  intros HQ. unfold token. apply wp_bind.
  assert (Hv : exists l, (if bool_decide (ty = k_name) then getSymbol val else rret val) x
                         = Some (val, set_symbols l x)).
  { case_bool_decide; [apply getSymbol_val|]. exists (d_symbols x). by destruct x. }
  destruct Hv as [l Hv]. unfold wp at 1. rewrite Hv. clear Hv.
  apply wp_bind, wp_get, wp_bind, wp_mod, wp_bind, wp_mod, wp_bind.
  assert (Hx : forall l', at_pos k c x -> passed code k (c + len) ->
    at_pos k (c + len) (set_err l' (set_col (x_colNr x + len) (set_last (new_Token ty (x_lineNr x) (x_colNr x + 1) len val) (set_symbols l x))))).
  { intros l' [? E1 E2 ? ? ? ?] Hc. destruct (passed_small _ _ Hc).
    split; simpl; try done; [rewrite E1|rewrite E2]; rewrite ?u32_small, ?u16_small by lia; lia. }
  case_bool_decide as E; [apply wp_mod|apply wp_ret]; apply wp_ret; (apply HQ; [done..|]).
  - unfold report. simpl d_err. destruct (d_err x); [apply Hx|exact (Hx (d_err x))].
  - exact (Hx (d_err x)).
Qed.

(** A token on one line. *)
Lemma wp_token_valid k c x ty len val :
  at_pos k c x -> 0 <= c -> 0 < len -> in_text code k (c + len) ->
  ty <> k_eof -> k_shifted ty = false ->
  (forall t, d_type t = ty -> d_val t = val -> token_text code t = mid (code_line code k) c len -> well_lexed code t) ->
  wp (token ty len val) (lexed k c) x.
Proof using Hok.
  intros Hx H0 Hlen Hc H1 H2 Hw. pose proof (col_small _ _ Hc). pose proof (line_small _ _ Hc).
  apply (wp_token k c). intros x' t Et El Ec En Ev Hx'.
  rewrite (at_nr _ _ _ Hx), u32_small in El by lia. rewrite (at_col _ _ _ Hx), u16_small in Ec by lia.
  rewrite u16_small in En by lia. apply in_text_passed in Hc.
  assert (Hs : token_start t = (k, c)).
  { unfold token_start. rewrite Et, H2, El, Ec. f_equal; lia. }
  split; [by rewrite Et|]. split.
  - intros _. split; [done|]. apply Hw; [done|done|]. unfold token_text. by rewrite Hs, Et, H2, En.
  - exists k, (c + len). split; [by apply Hx'|]. split; [done|]. right. simpl. lia.
Qed.

(** Looking ahead from a position. *)
Lemma lookAhead_at k c x off : at_pos k c x -> lookAhead x off = at_ (code_line code k) (c + off).
Proof. intros []. unfold lookAhead. congruence. Qed.

Lemma scan_bounds k c x p off :
  at_pos k c x -> 0 <= c + off <= llen k -> off <= scan x p off /\ c + scan x p off <= llen k.
Proof.
  intros [? ? E1 E2 ? ? ?] H. unfold scan, mid_all. rewrite E1, E2.
  pose proof (length_take_while p (drop (Z.to_nat (c + off)) (code_line code k))) as Hl.
  rewrite length_drop in Hl. lia.
Qed.

(** The characters that a scan passes. *)
Lemma scan_chars k c x p :
  at_pos k c x -> 0 <= c < llen k ->
  mid (code_line code k) c (scan x p 1) =
  at_ (code_line code k) c :: take_while p (mid_all (code_line code k) (c + 1)).
Proof.
  intros [? ? E1 E2 ? ? ?] H. unfold scan, mid, mid_all. rewrite E1, E2.
  replace (Z.to_nat (1 + _)) with (S (length (take_while p (drop (Z.to_nat (c + 1)) (code_line code k))))) by lia.
  destruct (drop (Z.to_nat c) (code_line code k)) as [|b l] eqn:E.
  - apply (f_equal length) in E. rewrite length_drop in E. simpl in E. lia.
  - assert (Hl : drop (Z.to_nat (c + 1)) (code_line code k) = l).
    { replace (Z.to_nat (c + 1)) with (Z.to_nat c + 1)%nat by lia. by rewrite <- drop_drop, E. }
    rewrite Hl. simpl. f_equal; [|apply take_while_prefix].
    assert (Hb : code_line code k !! Z.to_nat c = Some b).
    { replace (Z.to_nat c) with (Z.to_nat c + 0)%nat by lia. by rewrite <- lookup_drop, E. }
    apply at_Some in Hb. rewrite Z2Nat.id in Hb by lia. done.
Qed.

Context `{Laws : !TokenLaws K}.

(** A token that is invalid, from the position [(k, c)] on. *)
Lemma wp_token_invalid k c k' c' x len val :
  at_pos k' c' x -> passed code k' (c' + len) -> pos_lt (k, c) (k', c' + len) -> wp (token k_invalid len val) (lexed k c) x.
Proof using Hok Laws.
  intros Hx Hp Hlt. apply (wp_token k' c'). intros x' t E _ _ _ _ Hx'. split; [rewrite E; apply s_invalid_eof|]. split.
  - intros Hv. rewrite not_valid in Hv by (by left). done.
  - exists k', (c' + len). auto.
Qed.

Lemma wp_ident k c x :
  at_pos k c x -> 0 <= c -> in_text code k c ->
  (isalpha (at_ (code_line code k) c) || Byte.eqb (at_ (code_line code k) c) "_") = true ->
  wp ident (lexed k c) x.
Proof using Hok Laws.
  intros Hx H0 [Hk Hc] Ha. assert (Hlt : 0 <= c < llen k).
  { apply (class_nonzero (fun b => isalpha b || Byte.eqb b "_")); done. }
  apply wp_bind, wp_get. unfold id. rewrite (at_line _ _ _ Hx), (at_col _ _ _ Hx).
  pose proof (scan_bounds k c x ident_char 1 Hx ltac:(lia)) as [Hs1 Hs2].
  pose proof (scan_chars k c x ident_char Hx Hlt) as Hch. set (off := scan x ident_char 1) in *.
  set (str := mid (code_line code k) c off) in *. cbv zeta.
  assert (Hlen : Z.of_nat (length str) = off) by (apply mid_length; lia).
  assert (Hid : isValidIdent str = true).
  { rewrite Hch. simpl. rewrite Ha. apply take_while_forall. }
  case_bool_decide as Es; [by rewrite Es in Hid|].
  pose proof (s_word str) as [Hkey Hname]. unfold word_kind in Hkey, Hname. destruct (k_from_string str 0) as [t pos].
  match goal with |- context [if ?b then k_invalid else t] => set (t' := if b then k_invalid else t) in * end.
  destruct s_plain as (Hp & _). destruct s_name_valid as (_ & Hne & _).
  destruct (decide (t' = k_invalid)) as [Ht|Ht].
  - rewrite bool_decide_eq_true_2 by done. simpl.
    apply wp_token_valid; try done; [lia|split; [done|lia]|].
    intros u Et Ev Htext. apply well_lexed_name; [done|by rewrite Ev|rewrite Ev; by apply Hname|by rewrite Ev, Htext].
  - rewrite bool_decide_eq_false_2 by done. simpl. destruct (Hkey Ht) as [Hf Hstr].
    destruct (s_fixed _ Hf) as (_ & _ & _ & Hsh).
    apply wp_token_valid; try done; [lia|split; [done|lia]|by apply s_fixed_eof|].
    intros u Et _ Htext. apply well_lexed_fixed; rewrite Et; [done|]. by rewrite <- Hstr.
Qed.

Lemma scale_factor_bounds k c x off :
  at_pos k c x -> 0 <= c -> 0 <= off -> c + off < llen k ->
  let '(off', ok) := scale_factor x off in off <= off' /\ c + off' <= llen k.
Proof.
  intros Hx H0 Hoff Hc. unfold scale_factor. rewrite !(lookAhead_at k c) by done.
  destruct (_ || _) eqn:Es;
    [apply (class_nonzero (fun b => Byte.eqb b "+" || Byte.eqb b "-")) in Es; [|done]|]; destruct (isdigit _) eqn:Ed; simpl; try lia;
    apply (class_nonzero isdigit) in Ed; try done.
  - pose proof (scan_bounds k c x isdigit (off + 1 + 1) Hx ltac:(lia)). lia.
  - pose proof (scan_bounds k c x isdigit (off + 1) Hx ltac:(lia)). lia.
Qed.

(** A token that may end on a later line. *)
Lemma lexed_to k c k' c' t x' :
  d_type t <> k_eof -> token_start t = (k, c) -> well_lexed code t -> at_pos k' c' x' -> passed code k' c' ->
  pos_lt (k, c) (k', c') -> lexed k c t x'.
Proof. intros ? ? ? ? ? ?. split; [done|]. split; [done|]. by exists k', c'. Qed.

Lemma lexed_invalid k c k' c' t x' : d_type t = k_invalid -> at_pos k' c' x' -> passed code k' c' -> pos_lt (k, c) (k', c') ->
  lexed k c t x'.
Proof using Laws.
  intros E Hx Hp Hlt. split; [rewrite E; apply s_invalid_eof|]. split; [|by exists k', c']. intros Hv. by rewrite not_valid in Hv by (by left).
Qed.

Lemma start_col k c ty n v p :
  in_text code k c -> k_shifted ty = false ->
  token_start (with_path (new_Token ty (Z.of_nat k) (c + 1) n v) p) = (k, c).
Proof using Hok Laws.
  intros Hc Hty. pose proof (col_small _ _ Hc). pose proof (line_small _ _ Hc).
  unfold token_start. simpl. rewrite Hty.
  rewrite u32_small, u16_small by lia. f_equal; lia.
Qed.

Lemma wp_comment_loop n e k c x str (Q : Z * bytes -> LexState K -> Prop) :
  at_pos k c x -> in_text code k c -> (length (rest code k) < n)%nat -> e <> [] ->
  (forall k' c' x' s', at_pos k' c' x' -> in_text code k' c' -> rest code k' = [] -> pos_le (k, c) (k', c') -> Q (-1, s') x') ->
  (forall k' c' x' pos s', at_pos k' c' x' -> in_text code k' pos -> 0 <= c' < pos ->
     pos_le (k, c) (k', c') -> Q (pos, s') x') ->
  wp (comment_loop n e str) Q x.
Proof using Hok Laws.
  intros Hx Hc Hn He. revert k c x str Hx Hc Hn. induction n as [|n IH]; intros k c x str Hx Hc Hn HQ1 HQ2; [lia|].
  apply wp_bind. eapply wp_atEnd; [done|]. case_bool_decide as E; [eapply wp_ret, HQ1; [done..|right; simpl; lia]|].
  apply wp_bind, wp_get. unfold id. rewrite !(at_col _ _ _ Hx), !(at_line _ _ _ Hx). cbv zeta.
  destruct (indexOf_bounds e (code_line code k) c ltac:(destruct Hc; lia)) as [Hi|[Hi1 Hi2]].
  - rewrite Hi. simpl. apply wp_bind. eapply wp_nextLine; [done|apply Hc|]. intros x1 Hx1.
    pose proof (in_text_next k E) as Hc1. pose proof (rest_progress code k E).
    eapply IH; [done..|lia| |].
    + intros k' c' x' s' ? ? ? Hle. eapply HQ1; [done..|]. destruct Hle as [?|[? ?]]; left; simpl in *; lia.
    + intros k' c' x' pos s' ? ? ? Hle. eapply HQ2; [done..|]. destruct Hle as [?|[? ?]]; left; simpl in *; lia.
  - specialize (Hi2 He). destruct e as [|b e]; [done|]. simpl length in *. destruct Hc as [Hk Hc].
    destruct (Z.eqb_spec (indexOf (b :: e) (code_line code k) c) (-1)); [lia|]. simpl.
    apply wp_ret. eapply HQ2; [done|split; [done|lia]|lia|]. right. simpl. lia.
Qed.

Lemma wp_block_comment e k c x :
  at_pos k c x -> in_text code k c -> c < llen k -> e <> [] -> wp (block_comment e) (lexed k c) x.
Proof using Hok Laws.
  intros Hx Hc Hcl He. apply wp_bind, wp_get. unfold id. cbv zeta. apply wp_bind.
  unfold device_size. rewrite (at_in _ _ _ Hx). eapply wp_comment_loop; [done..|lia|done| |].
  - intros k' c' x' s' Hx' Hc' E Hle. apply wp_bind. eapply wp_atEnd; [done|].
    rewrite bool_decide_eq_true_2, (at_pack _ _ _ Hx) by done. simpl.
    apply wp_bind, wp_mod, wp_bind. assert (Hp : in_text code k' (llen k')) by (split; [apply Hc'|lia]).
    pose proof (at_pos_col _ _ (llen k') _ Hx' Hp) as Hx1. replace (llen k') with (line_size x') in Hx1 at 2
      by (unfold line_size; by rewrite (at_line _ _ _ Hx')).
    unfold report. apply wp_mod, wp_ret. apply (lexed_invalid k c k' (llen k')); [done| |by apply in_text_passed|].
    + destruct Hx1. by destruct (d_err _).
    + destruct Hle as [?|[? ?]]; [by left|right]; simpl in *; subst; lia.
  - intros k' c' x' pos s' Hx' Hpos Hc' Hle. apply wp_bind. eapply wp_atEnd; [done|].
    destruct (Z.eqb_spec pos (-1)); [lia|]. rewrite (at_pack _ _ _ Hx). simpl.
    apply wp_bind, wp_mod, wp_bind, wp_mod, wp_bind, wp_ret, wp_ret.
    rewrite (at_nr _ _ _ Hx), (at_col _ _ _ Hx). destruct s_plain as (_ & Hp & _). eapply lexed_to; [apply s_name_valid|by apply start_col| | | |].
    + apply well_lexed_other; [intros E; by destruct s_plain as (_ & _ & []); rewrite <- E|apply comment_not_fixed|].
      apply s_comment.
    + eapply at_pos_col; [|done]. by eapply at_pos_last.
    + by apply in_text_passed.
    + destruct Hle as [?|[? ?]]; [by left|right]; simpl in *; lia.
Qed.

Lemma wp_line_comment k c x :
  at_pos k c x -> 0 <= c < llen k -> (k <= length code)%nat -> wp (line_comment x) (lexed k c) x.
Proof using Hok Laws.
  intros Hx Hc Hk. unfold line_comment, line_size. rewrite (at_line _ _ _ Hx), (at_col _ _ _ Hx).
  destruct s_plain as (_ & Hp & Hne).
  apply wp_token_valid; try done; [lia..|split; [done|lia]|apply s_name_valid|]. intros t Et _ _.
  apply well_lexed_other; rewrite Et; [by apply not_eq_sym|apply comment_not_fixed|apply s_comment].
Qed.

(** A literal at the position. *)
Lemma wp_literal k c x ch :
  at_pos k c x -> 0 <= c < llen k -> (k <= length code)%nat -> wp (literal ch) (lexed k c) x.
Proof using Hok Laws.
  intros Hx Hc Hk. apply wp_bind, wp_get. unfold id. rewrite (at_line _ _ _ Hx), (at_col _ _ _ Hx).
  pose proof (s_literal (code_line code k) c ltac:(lia)) as Hr. destruct (k_from_string _ _) as [t pos].
  assert (Hone : wp (token k_invalid 1 (unexpected ch)) (lexed k c) x).
  { eapply wp_token_invalid; [done|split; lia|right; simpl; lia]. }
  case_bool_decide as Et; [done|]. destruct Hr as [?|(Hf & Hne & -> & Hat)]; [done|]. simpl.
  destruct (s_fixed _ Hf) as (_ & _ & _ & Hsh).
  assert (Hl : 0 < Z.of_nat (length (k_text t)) /\ c + Z.of_nat (length (k_text t)) <= llen k).
  { apply (f_equal length) in Hat. rewrite length_take, length_drop in Hat. destruct (k_text t); [done|]. simpl length in *. lia. }
  destruct (Z.eqb_spec (c + Z.of_nat (length (k_text t))) c); [lia|].
  replace (c + _ - c) with (Z.of_nat (length (k_text t))) by lia.
  apply wp_token_valid; try done; [lia|lia|split; [done|lia]|by apply s_fixed_eof|].
  intros u Eu _ Htext. apply well_lexed_fixed; rewrite Eu; [done|]. rewrite Htext. unfold mid. by rewrite Nat2Z.id.
Qed.

Lemma add_line_nl str s : str <> [] -> x0a ∈ add_line str s.
Proof.
  intros H. unfold add_line. rewrite bool_decide_eq_false_2 by done.
  rewrite !elem_of_app. right. left. by apply list_elem_of_singleton.
Qed.

Lemma add_line_nonempty str s : str <> [] \/ s <> [] -> add_line str s <> [].
Proof. unfold add_line. case_bool_decide; [by intros [?|?]|]. by destruct str. Qed.

Lemma mid_all_nonempty s c : 0 <= c < Z.of_nat (length s) -> mid_all s c <> [].
Proof. intros H E. apply (f_equal length) in E. unfold mid_all in E. rewrite length_drop in E. simpl in E. lia. Qed.

(** ** The list of the tokens *)

Section Next.
Variable token_here : SM (LexState K) (LexToken K).
Hypothesis wp_token_here : forall k c x,
  at_pos k c x -> 0 <= c < llen k -> (k <= length code)%nat -> wp token_here (lexed k c) x.

(** [next_imp] skips to the next token or the end. *)
Lemma wp_next_imp k c x (Q : LexToken K -> LexState K -> Prop) :
  at_pos k c x -> passed code k c ->
  (forall t k' c' x', d_type t = k_eof -> at_pos k' c' x' -> passed code k' c' -> llen k' <= c' -> rest code k' = [] -> Q t x') ->
  (forall t k1 c1 k' c' x', d_type t <> k_eof -> (isValid t = true -> token_start t = (k1, c1) /\ well_lexed code t) ->
     at_pos k' c' x' -> passed code k' c' -> pos_le (k, c) (k1, c1) -> pos_lt (k1, c1) (k', c') ->
     remaining code k' c' < remaining code k c -> Q t x') ->
  wp (next_imp token_here) Q x.
Proof using Hok Laws wp_token_here.
  intros Hx Hc HQ1 HQ2. unfold next_imp. apply wp_bind, wp_get. unfold id. rewrite (at_in _ _ _ Hx).
  apply wp_bind. eapply wp_skip; [done..|]. intros c0 x0 Hc0 Hin0 Hx0. apply wp_bind.
  unfold device_size. rewrite (at_in _ _ _ Hx). eapply wp_line_loop; [done|done|lia| |].
  - intros k' c' x' Hx' Hp' Hl' Hr'. apply (wp_token k' c'). intros x'' t Et _ _ _ _ Hx''. rewrite Z.add_0_r in Hx''.
    eapply (HQ1 t k' c'); auto.
  - intros k1 c1 x1 Hx1 Hin1 Hlt Hle. eapply wp_mono; [eapply wp_token_here; [done|destruct Hin1; lia|apply Hin1]|].
    intros t x' (Hne & Hv & k' & c' & Hx' & Hin' & Hpos).
    assert (pos_le (k, c) (k1, c1)) by (destruct Hle as [?|[? ?]]; [left|right]; simpl in *; lia).
    eapply HQ2; [done..|]. pose proof (remaining_lt code k1 c1 k' c' Hlt ltac:(destruct Hin'; lia) Hpos).
    pose proof (remaining_le code k c k1 c1 ltac:(destruct Hin1; lia) ltac:(done)). lia.
Qed.

Lemma wp_next_skip n k c x (Q : LexToken K -> LexState K -> Prop) :
  at_pos k c x -> passed code k c -> remaining code k c < Z.of_nat n ->
  (forall t x', isValid t = false -> Q t x') ->
  (forall t k1 c1 k' c' x', isValid t = true -> token_start t = (k1, c1) -> well_lexed code t ->
     (ign = true -> d_type t <> k_comment) ->
     at_pos k' c' x' -> passed code k' c' -> pos_le (k, c) (k1, c1) -> pos_lt (k1, c1) (k', c') ->
     remaining code k' c' < remaining code k c -> Q t x') ->
  wp (next_skip token_here n) Q x.
Proof using Hok Laws wp_token_here.
  intros Hx Hc Hn HQ1. revert k c x Hx Hc Hn.
  induction n as [|n IH]; intros k c x Hx Hc Hn HQ2; [unfold remaining in Hn; destruct Hc; lia|].
  apply wp_bind, wp_get, wp_bind. unfold id. rewrite (at_buffer _ _ _ Hx), (at_ignore _ _ _ Hx).
  assert (Hbad : forall t x', isValid t = false ->
    wp (if bool_decide (d_type t = k_comment) && ign then next_skip token_here n else rret t) Q x').
  { intros t x' Hv. rewrite bool_decide_eq_false_2; [by apply wp_ret, HQ1|].
    intros E. destruct s_name_valid as (_ & _ & ? & ?). unfold isValid in Hv. rewrite E, !bool_decide_eq_false_2 in Hv; done. }
  eapply wp_next_imp; [done..| |].
  - intros t k' c' x' He _ _ _ _. apply Hbad, not_valid. by right.
  - intros t k1 c1 k' c' x' _ Hval Hx' Hc' Hle Hlt Hrem. destruct (isValid t) eqn:Hv; [|by apply Hbad].
    destruct (Hval eq_refl) as [Hst Hw].
    destruct (bool_decide (d_type t = k_comment) && ign) eqn:E.
    + eapply IH; [done..|lia|]. intros t2 k2 c2 k3 c3 x3 ? ? ? ? ? ? Hle2 ? ?.
      eapply HQ2; [done..| |done|lia]. unfold pos_le, pos_lt in *. simpl in *. lia.
    + apply wp_ret. eapply (HQ2 t k1 c1 k' c'); try done.
      intros Hi Ht. by rewrite Hi, bool_decide_eq_true_2 in E.
Qed.

Definition token_list (k : nat) (c : Z) (l : list (LexToken K)) : Prop :=
  Forall (well_lexed code) l /\ Forall (fun t => pos_le (k, c) (token_start t)) l /\
  StronglySorted pos_lt (map token_start l) /\ (ign = true -> Forall (fun t => d_type t <> k_comment) l).

Lemma token_list_cons k c t k1 c1 k' c' l :
  token_start t = (k1, c1) -> well_lexed code t -> (ign = true -> d_type t <> k_comment) ->
  pos_le (k, c) (k1, c1) -> pos_lt (k1, c1) (k', c') -> token_list k' c' l -> token_list k c (t :: l).
Proof.
  intros Hst Hw Hi Hle Hlt (H1 & H2 & H3 & H4). split; [by constructor|]. split; [|split].
  - constructor; [by rewrite Hst|]. eapply Forall_impl; [exact H2|]. intros u. simpl.
    unfold pos_le, pos_lt in *. simpl in *. lia.
  - simpl. constructor; [done|]. rewrite Forall_map. eapply Forall_impl; [exact H2|]. intros u. simpl.
    rewrite Hst. unfold pos_le, pos_lt in *. simpl in *. lia.
  - intros E. constructor; auto.
Qed.

Lemma wp_tokens_from n k c x :
  at_pos k c x -> passed code k c -> remaining code k c < Z.of_nat n ->
  wp (tokens_from token_here n) (fun l _ => token_list k c l) x.
Proof using Hok Laws wp_token_here.
  revert k c x. induction n as [|n IH]; intros k c x Hx Hc Hn; [unfold remaining in Hn; destruct Hc; lia|].
  apply wp_bind. eapply wp_next_skip; [done..| |].
  - intros t x' ->. apply wp_ret. by repeat split; constructor.
  - intros t k1 c1 k' c' x' -> ? ? ? Hx' Hc' ? ? ?. apply wp_bind. eapply wp_mono; [apply IH; [done..|lia]|].
    intros l x'' Hl. by eapply token_list_cons.
Qed.
End Next.
End Text.

(** ** Looking at the text ahead *)
Lemma at_drop s i j : 0 <= i -> 0 <= j -> at_ s (i + j) = at_ (drop (Z.to_nat i) s) j.
Proof.
  intros Hi Hj. unfold at_. rewrite length_drop.
  destruct (Z.ltb_spec (i + j) (Z.of_nat (length s))), (Z.ltb_spec j (Z.of_nat (length s - Z.to_nat i)));
    try lia; rewrite ?(proj2 (Z.leb_le _ _)) by lia; simpl; [|done].
  rewrite !nth_lookup, lookup_drop. do 2 f_equal. lia.
Qed.

Lemma at_hd s : at_ s 0 = hd x00 s.
Proof. by destruct s. Qed.

Lemma take_while_all {A} (p : A -> bool) a r :
  forallb p a = true -> match r with [] => True | x :: _ => p x = false end -> take_while p (a ++ r) = a.
Proof.
  intros Ha Hr. induction a as [|x a IH]; simpl in *.
  - destruct r as [|y r]; [done|]. simpl. by rewrite Hr.
  - apply andb_true_iff in Ha as [-> Ha]. by rewrite IH.
Qed.

Lemma stops (p : byte -> bool) v : p (hd x00 v) = false -> match v with [] => True | x :: _ => p x = false end.
Proof. by destruct v. Qed.

Section Ahead.
Context `{Kd : TokenKind K} (code : bytes) (ign : bool).
Abbreviation llen k := (Z.of_nat (length (code_line code k))).

(** The text from [off] characters behind the position on. *)
Definition ahead (k : nat) (c off : Z) (r : bytes) : Prop :=
  0 <= c + off <= llen k /\ drop (Z.to_nat (c + off)) (code_line code k) = r.

Lemma ahead_app k c off a r : ahead k c off (a ++ r) -> ahead k c (off + Z.of_nat (length a)) r.
Proof.
  intros [Hb Hd]. pose proof (f_equal length Hd) as Hl. rewrite length_drop, length_app in Hl.
  split; [lia|]. replace (Z.to_nat (c + (off + _))) with (Z.to_nat (c + off) + length a)%nat by lia.
  by rewrite <- drop_drop, Hd, drop_app_length.
Qed.

Lemma ahead_cons k c off b r : ahead k c off (b :: r) -> ahead k c (off + 1) r.
Proof. apply (ahead_app k c off [b] r). Qed.

Lemma lookAhead_hd k c off r (x : LexState K) : at_pos code ign k c x -> ahead k c off r -> lookAhead x off = hd x00 r.
Proof.
  intros Hx [Hb Hd]. rewrite (lookAhead_at code ign k c) by done.
  rewrite <- (Z.add_0_r (c + off)), at_drop, Hd by lia. apply at_hd.
Qed.

Lemma scan_app k c off p a r (x : LexState K) :
  at_pos code ign k c x -> ahead k c off (a ++ r) -> forallb p a = true -> p (hd x00 r) = false ->
  scan x p off = off + Z.of_nat (length a) /\ ahead k c (off + Z.of_nat (length a)) r.
Proof.
  intros Hx Hr Ha Hn. split; [|by apply ahead_app]. unfold scan, mid_all.
  rewrite (at_line _ _ _ _ _ Hx), (at_col _ _ _ _ _ Hx), (proj2 Hr), take_while_all; [done|done|]. by apply stops.
Qed.

Lemma mid_app k c a r : ahead k c 0 (a ++ r) -> mid (code_line code k) c (Z.of_nat (length a)) = a.
Proof.
  intros [_ Hd]. rewrite Z.add_0_r in Hd. unfold mid. by rewrite Hd, Nat2Z.id, take_app_length.
Qed.

(** A scan passes the characters of the class, and no more. *)
Lemma scan_split k c off p r (x : LexState K) :
  at_pos code ign k c x -> ahead k c off r ->
  exists a r', r = a ++ r' /\ forallb p a = true /\ match r' with [] => True | b :: _ => p b = false end /\
    scan x p off = off + Z.of_nat (length a) /\ ahead k c (off + Z.of_nat (length a)) r'.
Proof.
  intros Hx Hr. exists (take_while p r), (drop (length (take_while p r)) r).
  assert (E : r = take_while p r ++ drop (length (take_while p r)) r).
  { rewrite <- (take_while_prefix p r) at 1. by rewrite take_drop. }
  split; [exact E|]. split; [apply take_while_forall|]. split; [|split].
  - clear. induction r as [|b r IH]; [done|]. simpl. destruct (p b) eqn:E; simpl; [exact IH|by rewrite E].
  - unfold scan, mid_all. by rewrite (at_line _ _ _ _ _ Hx), (at_col _ _ _ _ _ Hx), (proj2 Hr).
  - rewrite E in Hr. by apply ahead_app.
Qed.

Lemma ahead_start k c : in_text code k c -> ahead k c 0 (mid_all (code_line code k) c).
Proof. intros [_ ?]. split; [lia|]. by rewrite Z.add_0_r. Qed.

End Ahead.

(** A lexer of which each token is what the text has at its position. *)
Lemma lex_tokens_faithful `{Kd : TokenKind K} `{Tx : !TokenTexts K} `{Laws : !TokenLaws K} code path (x : LexState K) token_here :
  text_ok code -> d_line x = [] -> d_buffer x = [] -> d_packComments x = true ->
  (forall k c y, at_pos code (d_ignoreComments x) k c y -> 0 <= c < Z.of_nat (length (code_line code k)) ->
     (k <= length code)%nat -> wp token_here (lexed code (d_ignoreComments x) k c) y) ->
  exists l x', lex_tokens token_here (S (length code)) code path x = Some (l, x') /\
    Forall (well_lexed code) l /\ StronglySorted pos_lt (map token_start l) /\
    (d_ignoreComments x = true -> Forall (fun t => d_type t <> k_comment) l).
Proof.
  intros Hok H1 H2 H3 Hh.
  assert (Hw : wp (lex_tokens token_here (S (length code)) code path)
                 (fun l _ => token_list code (d_ignoreComments x) 0 0 l) x).
  { apply wp_bind. unfold setStream. apply wp_bind, wp_mod, wp_bind.
    match goal with |- wp _ _ ?y => destruct (getSymbol_val path y) as [l Hl]; unfold wp at 1; rewrite Hl end.
    apply wp_mod. eapply wp_tokens_from; [done|done|exact Hh|by split|split; simpl; lia|unfold remaining, code_line; simpl; lia]. }
  apply wp_Some in Hw as (l & x' & E & Hl & _ & Hs & Hi). by exists l, x'.
Qed.

