(* ===== verification/ParserCore.v ===== *)
(** * What the two parsers have in common

    The parsers of Lua and of the assembler (LuaParser.h/.cpp, LjasParser.h/.cpp) are made
    by Coco/R from attributed grammars.  What does not depend on the grammar is the same code:
    the tokens at hand, the tree that is built, and the errors.  [None] is a failed [Q_ASSERT],
    an access outside of a list, or a loop that does not end within [limit] rounds. *)

From S2P Require Import Prelude ErrorList LexCore SyntaxTree.
From Stdlib Require Import Strings.Byte.
Local Open Scope Z_scope.
Local Open Scope rd_scope.

(** ** What the parsers need *)

(** What a parser calls of a lexer.  The list of the errors is shared with the lexer. *)
Class Scanner (S K : Type) := {
  sc_next : SM (S * option Errors) (LexToken K);
  sc_peek : Z -> SM (S * option Errors) (LexToken K)
}.

(** The types of the tokens with their numbers and texts; [k_silent] are those that are not in the trees,
    [k_peek_comments] tells that [peek] goes over comments; [k_specials] and [k_max] are numbers of types,
    and [k_message] has the messages with larger numbers; [k_start] are the sets of tokens that a rule starts with. *)
Class ParserKind (K : Type) := {
  #[global] pk_kind :: TokenKind K;
  k_types : list K;
  k_text : K -> bytes;
  k_specials : Z;
  k_max : Z;
  k_message : Z -> bytes;
  k_start : list string;
  k_silent : K -> bool;
  k_peek_comments : bool
}.

(** The number of a type, which is 0 for [Tok_Invalid], and the type with a number. *)
Definition k_number `{ParserKind K} (k : K) : Z :=
  match list_find (fun k' => k' = k) k_types with Some (i, _) => Z.of_nat i | None => 0 end.

(** What a lexer does; the errors that it reports are added to the list. *)
Definition with_errors_of {K A} (s : Source) (f : SM (LexState K) A) : SM (LexState K * option Errors) A :=
  fun '(x, e) =>
    match f (set_err (match e with Some _ => Some [] | None => None end) x) with
    | Some (a, x') =>
        let add r e := error s (er_path r) (er_line r) (er_col r) (er_msg r) e in
        Some (a, (x', match e, d_err x' with Some e, Some l => Some (foldr add e l) | e, _ => e end))
    | None => None
    end.
Definition with_errors {K A} : SM (LexState K) A -> SM (LexState K * option Errors) A := with_errors_of S_Syntax.

(** ** State *)

Section Parsers.
Context {S K R : Type} `{!ParserKind K} `{!Scanner S K}.
Abbreviation NodeType := (SyntaxTree.NodeType K R).
Abbreviation SynTree := (SyntaxTree.SynTree NodeType).

(** [errDist] counts the tokens and does not overflow for less than 2 ^ 31 of them; [d_stack] has the nodes that
    are open, the innermost first, with the children they have so far: a node is appended to its parent when it is
    closed, since its parent gets no other child before.  A message without a list of errors is only logged.
    [src/LuaParser.h:96-119] Parser *)
Record Parser := mkParser {
  scanner : S;
  errors : option Errors;
  d_cur : LexToken K;
  d_next : LexToken K;
  la : K;
  errDist : Z;
  d_comments : list (LexToken K);
  d_stack : list (LexToken NodeType * list SynTree)
}.
Abbreviation PM := (SM Parser).

Definition p_set_scanner (x : S) (e : option Errors) (p : Parser) : Parser :=
  mkParser x e (d_cur p) (d_next p) (la p) (errDist p) (d_comments p) (d_stack p).
Definition p_set_cur (t : LexToken K) (p : Parser) : Parser :=
  mkParser (scanner p) (errors p) t (d_next p) (la p) (errDist p) (d_comments p) (d_stack p).
Definition p_set_next (t : LexToken K) (p : Parser) : Parser :=
  mkParser (scanner p) (errors p) (d_cur p) t (la p) (errDist p) (d_comments p) (d_stack p).
Definition p_set_la (k : K) (p : Parser) : Parser :=
  mkParser (scanner p) (errors p) (d_cur p) (d_next p) k (errDist p) (d_comments p) (d_stack p).
Definition p_set_errors (e : option Errors) (p : Parser) : Parser :=
  mkParser (scanner p) e (d_cur p) (d_next p) (la p) (errDist p) (d_comments p) (d_stack p).
Definition p_set_dist (n : Z) (p : Parser) : Parser :=
  mkParser (scanner p) (errors p) (d_cur p) (d_next p) (la p) n (d_comments p) (d_stack p).
Definition p_add_comment (t : LexToken K) (p : Parser) : Parser :=
  mkParser (scanner p) (errors p) (d_cur p) (d_next p) (la p) (errDist p) (d_comments p ++ [t]) (d_stack p).
Definition p_set_stack (l : list (LexToken NodeType * list SynTree)) (p : Parser) : Parser :=
  mkParser (scanner p) (errors p) (d_cur p) (d_next p) (la p) (errDist p) (d_comments p) l.

Definition no_token : LexToken K := mkToken k_invalid 0 0 0 [] [].
Definition minErrDist : Z := 2.

(** The root of the tree; [la->kind] is not initialised before the first token.
    [src/LuaParser.cpp:842-851] Parser *)
Definition new_Parser (x : S) (e : option Errors) : Parser :=
  mkParser x e no_token no_token k_invalid minErrDist [] [(mkToken (Tk k_invalid) 0 0 0 [] [], [])].

(** A call of the scanner. *)
Definition scan_call {A} (f : SM (S * option Errors) A) : PM A :=
  fun p => match f (scanner p, errors p) with
    | Some (a, (x, e)) => Some (a, p_set_scanner x e p)
    | None => None
    end.

(** ** Errors *)

(** [src/LuaParser.cpp:875-887] SynErr *)
Definition syn_text (n : Z) (ctx : option bytes) : bytes :=
  let ctxStr := match ctx with Some c => qb " in " ++ c | None => [] end in
  let text := match k_types !! Z.to_nat n with Some k => k_text k | None => [] end in
  if n =? 0 then qb "EOF expected" ++ ctxStr
  else if n <? k_specials then qb "'" ++ text ++ qb "' expected" ++ ctxStr
  else if n <=? k_max then text ++ qb " expected" ++ ctxStr
  else k_message n.

(** [src/LuaParser.cpp:36-42] SynErr *)
Definition SynErr (n : Z) (ctx : option bytes) : PM unit :=
  rmod (fun p =>
    let t := d_next p in
    let p := if minErrDist <=? errDist p
             then p_set_errors (error S_Syntax (d_sourcePath t) (d_lineNr t) (d_colNr t) (syn_text n ctx) <$> errors p) p
             else p in
    p_set_dist 0 p).

(** The pointer to the errors must not be null.
    [src/LuaParser.cpp:44-47] SemErr *)
Definition SemErr (msg : bytes) : PM unit :=
  p <~ rget id;
  _ <~ (if minErrDist <=? errDist p then
          e <~ mderef (errors p);
          let t := d_cur p in
          rmod (p_set_errors (Some (error S_Semantics (d_sourcePath t) (d_lineNr t) (d_colNr t) msg e)))
        else rret tt);
  rmod (p_set_dist 0).

(** ** Tokens *)

(** The limit of loops. *)
Variable limit : nat.

(** [src/LuaParser.cpp:49-84] Get *)
Fixpoint get_loop (n : nat) : PM unit :=
  match n with
  | O => rfail
  | Datatypes.S n =>
      _ <~ rmod (fun p => p_set_cur (d_next p) p);
      t <~ scan_call sc_next;
      _ <~ rmod (p_set_next t);
      if bool_decide (d_type t = k_invalid) then
        _ <~ (if bool_decide (d_val t = []) then rret tt else SynErr (k_number (d_type t)) (Some (d_val t)));
        _ <~ rmod (fun p => p_set_next (d_cur p) p);
        get_loop n
      else if bool_decide (d_type t = k_comment) then
        _ <~ rmod (p_add_comment t);
        _ <~ rmod (fun p => p_set_next (d_cur p) p);
        get_loop n
      else
        let t := if bool_decide (d_type t = k_eof)
                 then mkToken k_invalid (d_lineNr t) (d_colNr t) (d_len t) (d_val t) (d_sourcePath t) else t in
        _ <~ rmod (p_set_next t);
        _ <~ rmod (p_set_la (d_type t));
        rmod (fun p => p_set_dist (errDist p + 1) p)
  end.
Definition Get : PM unit := get_loop limit.

(** The loop over the comments; the offset is a [quint8].
    [src/LuaParser.cpp:28-30] peek *)
Fixpoint peek_loop (n : nat) (i : Z) (t : LexToken K) : PM K :=
  match n with
  | O => rfail
  | Datatypes.S n =>
      if bool_decide (d_type t = k_comment) then
        let i := u8 (i + 1) in
        t <~ scan_call (sc_peek (u8 (i - 1)));
        peek_loop n i t
      else rret (d_type t)
  end.

(** [src/LuaParser.cpp:18-34] peek *)
Definition peek (i : Z) : PM K :=
  if i =? 0 then rget (fun p => d_type (d_cur p))
  else if i =? 1 then rget (fun p => d_type (d_next p))
  else
    t <~ scan_call (sc_peek (u8 (i - 1)));
    if k_peek_comments then peek_loop limit i t else rret (d_type t).

(** [src/LuaParser.cpp:86-88] Expect *)
Definition Expect (k : K) (ctx : bytes) : PM unit :=
  p <~ rget id;
  if bool_decide (la p = k) then Get else SynErr (k_number k) (Some ctx).

(** The sets have a letter T for each of their tokens.
    [src/LuaParser.cpp:853-869] StartOf *)
Definition in_start (s : nat) (k : K) : bool :=
  match k_start !! s with
  | Some set => match qb set !! Z.to_nat (k_number k) with Some c => Byte.eqb c "T" | None => false end
  | None => false
  end.
Definition StartOf (s : nat) : PM bool := rget (fun p => in_start s (la p)).

(** [while( cond ) body] *)
Fixpoint while_loop (n : nat) (cond : PM bool) (body : PM unit) : PM unit :=
  match n with
  | O => rfail
  | Datatypes.S n => b <~ cond; if (b : bool) then _ <~ body; while_loop n cond body else rret tt
  end.
Definition while_ (cond : PM bool) (body : PM unit) : PM unit := while_loop limit cond body.

(** [src/LuaParser.cpp:90-96] ExpectWeak *)
Definition ExpectWeak (k : K) (follow : nat) : PM unit :=
  p <~ rget id;
  if bool_decide (la p = k) then Get
  else _ <~ SynErr (k_number k) None; while_ (b <~ StartOf follow; rret (negb b)) Get.

(** [src/LuaParser.cpp:98-108] WeakSeparator *)
Definition WeakSeparator (k : K) (syFol repFol : nat) : PM bool :=
  p <~ rget id;
  if bool_decide (la p = k) then _ <~ Get; rret true
  else
    b <~ StartOf repFol;
    if (b : bool) then rret false
    else
      _ <~ SynErr (k_number k) None;
      _ <~ while_ (a <~ StartOf syFol; b <~ StartOf repFol; c <~ StartOf 0; rret (negb (a || b || c))) Get;
      StartOf syFol.

(** ** The tree *)

(** A child of the innermost open node. *)
Definition add_child (st : SynTree) : PM unit :=
  p <~ rget id;
  match d_stack p with
  | (t, l) :: rest => rmod (p_set_stack ((t, l ++ [st]) :: rest))
  | [] => rfail
  end.

(** [src/LuaParser.h:120-124] addTerminal *)
Definition addTerminal : PM unit :=
  p <~ rget id;
  if k_silent (d_type (d_cur p)) then rret tt else add_child (Node (node_token (d_cur p)) []).

(** The procedure of a rule: its node is opened in the beginning and closed in the end. *)
Definition rule_node (r : R) (body : PM unit) : PM unit :=
  _ <~ rmod (fun p => p_set_stack ((rule_token r (d_next p), []) :: d_stack p) p);
  _ <~ body;
  p <~ rget id;
  match d_stack p with
  | (t, l) :: rest => _ <~ rmod (p_set_stack rest); add_child (Node t l)
  | [] => rfail
  end.

(** A token of a type, and the token at hand. *)
Definition term (k : K) (ctx : bytes) : PM unit := _ <~ Expect k ctx; addTerminal.
Definition take_term : PM unit := _ <~ Get; addTerminal.

(** Conditions and conditionals; the operators do not look at their right side when the left one decides. *)
Definition at_ (k : K) : PM bool := rget (fun p => bool_decide (la p = k)).
Definition at_any (l : list K) : PM bool := rget (fun p => bool_decide (la p ∈ l)).
Definition peek_is (i : Z) (k : K) : PM bool := t <~ peek i; rret (bool_decide (t = k)).
Definition and_ (a b : PM bool) : PM bool := x <~ a; if (x : bool) then b else rret false.
Definition or_ (a b : PM bool) : PM bool := x <~ a; if (x : bool) then rret true else b.
Definition not_ (a : PM bool) : PM bool := x <~ a; rret (negb x).
Definition if_ (c : PM bool) (a b : PM unit) : PM unit := x <~ c; if (x : bool) then a else b.
Definition when_ (c : PM bool) (a : PM unit) : PM unit := if_ c a (rret tt).

Section Top.
(** The procedure of the first rule. *)
Variable start : PM unit.

(** [src/LuaParser.cpp:834-840] Parse *)
Definition Parse : PM unit :=
  _ <~ rmod (p_set_cur no_token);
  _ <~ rmod (p_set_next no_token);
  _ <~ Get;
  _ <~ start;
  Expect k_invalid (qb "Parse").

(** The tree, after a run.
    [src/LuaParser.h:111-116] RunParser *)
Definition RunParser : PM SynTree :=
  _ <~ Parse;
  p <~ rget id;
  match d_stack p with [(t, l)] => rret (Node t l) | _ => rfail end.
End Top.
End Parsers.
#[global] Arguments Parser : clear implicits.
