(* ===== verification/ParserSpec.v ===== *)
(** * What a parser builds

    The logic for the procedures of both parsers: a procedure ends, takes tokens from the text, and,
    as long as no error is reported, appends nodes that the grammar allows and that have exactly the
    tokens that were taken. *)

From S2P Require Import Prelude ErrorList LexCore SyntaxTree ParserCore.
From Stdlib Require Import Strings.Byte.
Local Open Scope Z_scope.
Local Open Scope rd_scope.

(** ** Errors *)

(** More errors may have been reported. *)
Inductive grows : option Errors -> option Errors -> Prop :=
  | g_refl e : grows e e
  | g_error s f l c m e e' : grows (Some (error s f l c m e)) e' -> grows (Some e) e'.

Lemma more_errors_trans a b c : grows a b -> grows b c -> grows a c.
Proof. induction 1 as [|s f l k m e e' _ IH]; [done|]. intros H. eapply g_error, IH, H. Qed.

Lemma grows_one s f l c m e : grows (Some e) (Some (error s f l c m e)).
Proof. eapply g_error, g_refl. Qed.

(** A list of errors that keeps what is reported. *)
Definition recording (e : Errors) : Prop := d_record e = true /\ d_reportToConsole e = false.

Lemma grows_entries e e' : grows (Some e) e' -> recording e -> exists e1 l, e' = Some e1 /\ recording e1 /\
  d_entries e1 = d_entries e ++ l /\ (l = [] -> e1 = e).
Proof.
  intros H. remember (Some e) as oe eqn:E. revert e E. induction H as [oe|s f l c m e e' _ IH]; intros e0 E Hr.
  - subst. exists e0, []. by rewrite app_nil_r.
  - injection E as <-. destruct (IH _ eq_refl) as (e1 & k & -> & Hr1 & Hk & _).
    { destruct Hr as [H1 H2]. unfold error, recording. rewrite H2. done. }
    destruct Hr as [H1 H2]. exists e1, (mkEntry (u32 l) (u16 c) s m f true :: k). split; [done|]. split; [done|].
    split; [|done]. rewrite Hk. unfold error. rewrite H1, H2. simpl. by rewrite <- app_assoc.
Qed.

(** Without a new error the list is as it was in between. *)
Lemma grows_back e a : grows (Some e) a -> grows a (Some e) -> recording e -> a = Some e.
Proof.
  intros H1 H2 Hr. destruct (grows_entries e a H1 Hr) as (e1 & l & -> & Hr1 & Hl & Hn).
  destruct (grows_entries e1 _ H2 Hr1) as (e2 & k & [= <-] & _ & Hk & _). rewrite Hl in Hk. f_equal. apply Hn.
  destruct l; [done|]. apply (f_equal length) in Hk. rewrite !length_app in Hk. simpl in Hk. lia.
Qed.

Lemma grows_reported e s f l c m : recording e -> Some (error s f l c m e) <> Some e.
Proof.
  intros [H1 H2] [= E]. apply (f_equal (length ∘ d_entries)) in E. unfold error in E. rewrite H1, H2 in E. simpl in E.
  rewrite length_app in E. simpl in E. lia.
Qed.

(** ** Scanners *)

(** What the types of tokens are like. *)
Class KindLaws (K : Type) `{ParserKind K} := {
  types_all k : k ∈ k_types;
  invalid_not_eof : (k_invalid : K) <> k_eof;
  invalid_not_comment : (k_invalid : K) <> k_comment;
  eof_not_comment : (k_eof : K) <> k_comment
}.

(** The tokens that are ahead, up to the end: the next one is the first one, perhaps behind comments that are left out,
    and all of them can be looked at. *)
Class ScannerLaws (S K : Type) `{ParserKind K} `{Scanner S K} := {
  ahead : S -> list (LexToken K) -> Prop;
  ahead_no_eof x ts : ahead x ts -> Forall (fun t => d_type t <> k_eof) ts;
  ahead_next x e ts : ahead x ts -> exists t x' e', sc_next (x, Some e) = Some (t, (x', e')) /\ grows (Some e) e' /\
    exists cs r, ts = cs ++ r /\ Forall (fun t => d_type t = k_comment) cs /\
    match r with [] => d_type t = k_eof /\ ahead x' [] | t0 :: r => t = t0 /\ ahead x' r end;
  ahead_peek x e ts i : ahead x ts -> 0 < i < 256 -> exists t x' e', sc_peek i (x, Some e) = Some (t, (x', e')) /\ grows (Some e) e' /\
    ahead x' ts /\ match ts !! Z.to_nat (i - 1) with Some t0 => t = t0 | None => d_type t = k_eof end
}.

Section Spec.
Context {S K R : Type} `{!ParserKind K} `{!KindLaws K} `{!Scanner S K} `{!ScannerLaws S K} `{!EqDecision R} `{!Grammar K R}.
Context (limit : nat) (e0 : Errors) (Hrec : recording e0).
Abbreviation Token := (LexToken K).
Abbreviation Tree := (SynTree (NodeType K R)).
Abbreviation Par := (Parser S K R).
Abbreviation PM := (SM Par).
Implicit Types (p : Par) (r : list Token).

(** Tokens for the parser, and tokens that are in the tree. *)
Definition live (t : Token) : bool := negb (bool_decide (d_type t = k_invalid)) && negb (bool_decide (d_type t = k_comment)).
Definition loud (t : Token) : bool := negb (k_silent (d_type t)).

(** At most 254 comments follow each other, for a parser that goes over them when it looks ahead. *)
Definition comments_bounded (ts : list Token) : Prop :=
  k_peek_comments = true -> forall n m, (forall i, (n <= i < n + m)%nat -> exists t, ts !! i = Some t /\ d_type t = k_comment) -> (m < 255)%nat.

(** No error has been reported. *)
Definition clean p : Prop := errors p = Some e0.

(** The parser with the tokens [ts] behind the next one. *)
Definition behind p (ts : list Token) : Prop :=
  ahead (scanner p) ts /\ (length ts + 2 <= limit)%nat /\ comments_bounded ts /\ grows (Some e0) (errors p) /\
  (errDist p < 2 -> ~ clean p).

(** The parser with the tokens [r] that are left; the end has the type [k_invalid]. *)
Definition good p r : Prop :=
  la p = d_type (d_next p) /\ exists ts, behind p ts /\
    if bool_decide (d_type (d_next p) = k_invalid) then r = [] /\ ts = [] else r = d_next p :: filter live ts.

Lemma clean_back p p' : grows (Some e0) (errors p) -> grows (errors p) (errors p') -> clean p' -> clean p.
Proof using Hrec. unfold clean. intros H1 H2 H3. rewrite H3 in H2. by apply grows_back. Qed.

Lemma good_grows p r : good p r -> grows (Some e0) (errors p).
Proof using Type. intros (_ & ts & (_ & _ & _ & H & _) & _). exact H. Qed.

Lemma good_length p r : good p r -> (length r < limit)%nat.
Proof using Type.
  intros (_ & ts & (_ & Hl & _) & H). case_bool_decide; [destruct H as [-> ->]; simpl in *; lia|]. subst r. simpl.
  pose proof (length_filter live ts). lia.
Qed.

(** The type of the next token, and that there is one. *)
Lemma good_head p r : good p r -> la p <> k_invalid -> exists r', r = d_next p :: r'.
Proof using Type. intros (Hla & ts & _ & H) Hk. rewrite <- Hla, bool_decide_eq_false_2 in H by done. subst. by eexists. Qed.

(** What is not changed. *)
Definition same p p' : Prop := la p' = la p /\ d_cur p' = d_cur p /\ d_next p' = d_next p /\ d_stack p' = d_stack p /\
  grows (errors p) (errors p').

(** ** Steps of the parser *)
Lemma some_errors p : grows (Some e0) (errors p) -> exists e, errors p = Some e.
Proof using Hrec. intros H. destruct (grows_entries e0 _ H Hrec) as (e & _ & -> & _). by exists e. Qed.

Lemma wp_SynErr n ctx p ts (Q : unit -> Par -> Prop) : behind p ts ->
  (forall p', behind p' ts -> ~ clean p' -> same p p' -> Q tt p') -> wp (SynErr n ctx) Q p.
Proof using Hrec.
  intros (Ha & Hl & Hc & Hg & Hd) HQ. destruct (some_errors p Hg) as [e He]. apply wp_mod. unfold minErrDist.
  destruct (Z.leb_spec 2 (errDist p)) as [H|H].
  - assert (Hg' : grows (errors p) (error S_Syntax (d_sourcePath (d_next p)) (d_lineNr (d_next p)) (d_colNr (d_next p)) (syn_text n ctx) <$> errors p)).
    { rewrite He. apply grows_one. }
    assert (Hn : ~ clean (p_set_dist 0 (p_set_errors (error S_Syntax (d_sourcePath (d_next p)) (d_lineNr (d_next p)) (d_colNr (d_next p)) (syn_text n ctx) <$> errors p) p))).
    { intros Hcl. assert (Hp : clean p) by (eapply clean_back; [exact Hg| |exact Hcl]; exact Hg'). unfold clean in Hcl, Hp. simpl in Hcl. rewrite Hp in Hcl.
      simpl in Hcl. by apply grows_reported in Hcl. }
    apply HQ; [|exact Hn|done]. split; [done|]. split; [done|]. split; [done|]. split; [by eapply more_errors_trans|done].
  - apply HQ; [|by apply Hd|]; [|repeat split; try done; apply g_refl]. repeat (split; [done|]). intros _. by apply Hd.
Qed.

Lemma comments_tail t ts : comments_bounded (t :: ts) -> comments_bounded ts.
Proof using Type.
  intros H Hp n m Hn. apply (H Hp (Datatypes.S n) m). intros i Hi. destruct i as [|i]; [lia|]. apply Hn. lia.
Qed.

(** What only depends on the scanner and the errors. *)
Lemma behind_kept p p' ts : scanner p' = scanner p -> errors p' = errors p -> errDist p <= errDist p' -> behind p ts -> behind p' ts.
Proof using Type.
  unfold behind, clean. intros -> -> He (Ha & Hl & Hc & Hg & Hd). repeat (split; [done|]). intros H. apply Hd. lia.
Qed.

Lemma comments_behind cs ts : comments_bounded (cs ++ ts) -> comments_bounded ts.
Proof using Type. induction cs as [|t cs IH]; [done|]. intros H. by apply IH, (comments_tail t). Qed.

Lemma wp_sc_next p ts (Q : Token -> Par -> Prop) : behind p ts ->
  (forall t p' cs r, same p p' -> ts = cs ++ r -> Forall (fun t => d_type t = k_comment) cs ->
     match r with [] => d_type t = k_eof /\ behind p' [] | t0 :: r => t = t0 /\ d_type t <> k_eof /\ behind p' r end -> Q t p') ->
  wp (scan_call sc_next) Q p.
Proof using Hrec.
  intros (Ha & Hl & Hc & Hg & Hd) HQ. destruct (some_errors p Hg) as [e Ee].
  destruct (ahead_next (scanner p) e ts Ha) as (t & x' & e' & Ht & Hge & cs & r & -> & Hcs & Hts). rewrite <- Ee in Ht, Hge.
  unfold wp, scan_call. rewrite Ht. apply (HQ _ _ cs r); [done|done|done|]. set (p1 := p_set_scanner x' e' p).
  assert (Hg1 : grows (Some e0) (errors p1)) by (eapply more_errors_trans; [exact Hg|exact Hge]).
  assert (Hd1 : errDist p1 < 2 -> ~ clean p1).
  { intros H Hcl. apply (Hd H), (clean_back p p1); [exact Hg|exact Hge|exact Hcl]. }
  apply comments_behind in Hc. rewrite length_app in Hl. pose proof (ahead_no_eof _ _ Ha) as Hf. apply Forall_app in Hf as [_ Hf].
  destruct r as [|t0 r]; [destruct Hts as [He Ha']; split; [done|]; split; [done|]; simpl in *; split; [lia|]; by repeat (split; [done|])|].
  destruct Hts as [-> Ha']. inversion Hf; subst.
  split; [done|]. split; [done|]. split; [done|]. split; [simpl in Hl |- *; lia|]. split; [by eapply comments_tail|done].
Qed.

Lemma live_not t : d_type t = k_invalid \/ d_type t = k_comment -> live t = false.
Proof using Type. unfold live. intros [-> | ->]; [by rewrite bool_decide_eq_true_2|]. apply andb_false_iff. right. by rewrite bool_decide_eq_true_2. Qed.

Lemma filter_not_live t ts : d_type t = k_invalid \/ d_type t = k_comment -> filter live (t :: ts) = filter live ts.
Proof using Type. intros H. rewrite filter_cons_False; [done|]. rewrite (live_not t H). by intros []. Qed.

Lemma filter_live t ts : d_type t <> k_invalid -> d_type t <> k_comment -> filter live (t :: ts) = t :: filter live ts.
Proof using Type. intros H1 H2. rewrite filter_cons_True; [done|]. unfold live. by rewrite !bool_decide_eq_false_2. Qed.

Lemma filter_comments cs ts : Forall (fun t => d_type t = k_comment) cs -> filter live (cs ++ ts) = filter live ts.
Proof using Type. induction 1 as [|t cs H _ IH]; [done|]. simpl app. rewrite filter_not_live; [done|by right]. Qed.

(** The next token is taken. *)
Lemma wp_get_loop n p ts (Q : unit -> Par -> Prop) : behind p ts -> (length ts < n)%nat ->
  (forall p', good p' (filter live ts) -> d_cur p' = d_next p -> d_stack p' = d_stack p -> grows (errors p) (errors p') -> Q tt p') ->
  wp (get_loop n) Q p.
Proof using Hrec KindLaws0.
  revert p ts Q. induction n as [|n IH]; intros p ts Q Hb Hn HQ; [lia|]. cbn [get_loop].
  apply wp_bind, wp_mod, wp_bind, (wp_sc_next _ ts); [by apply (behind_kept p)|]. intros t p1 cs r (_ & Ec & _ & Es & Eg) -> Hcs Hts.
  rewrite filter_comments in HQ by done. assert (Hn' : (length r < Datatypes.S n)%nat) by (rewrite length_app in Hn; lia).
  clear Hb Hn Hcs. rename r into ts, Hn' into Hn. simpl in Ec, Es, Eg. apply wp_bind, wp_mod.
  assert (Hend : d_type t <> k_invalid -> d_type t <> k_comment -> forall ts' t', behind p1 ts' ->
      (if bool_decide (d_type t' = k_invalid) then filter live ts = [] /\ ts' = [] else filter live ts = t' :: filter live ts') ->
      wp (_ <~ rmod (p_set_next t'); _ <~ rmod (p_set_la (d_type t')); rmod (fun p => p_set_dist (errDist p + 1) p)) Q (p_set_next t p1)).
  { intros _ _ ts' t' Hb' Ht'. apply wp_bind, wp_mod, wp_bind, wp_mod, wp_mod. apply HQ; [|done|done|done]. split; [done|].
    exists ts'. split; [|exact Ht']. apply (behind_kept p1); [done|done|simpl; lia|done]. }
  assert (Hskip : forall ts' p3, behind p3 ts' -> (length ts' < n)%nat -> filter live ts = filter live ts' -> same (p_set_next t p1) p3 ->
      wp (_ <~ rmod (fun p => p_set_next (d_cur p) p); get_loop n) Q p3).
  { intros ts' p3 H3 Hn' Hf (_ & Ec3 & _ & Es3 & Eg3). simpl in Ec3, Es3, Eg3. apply wp_bind, wp_mod.
    apply (IH _ ts'); [by apply (behind_kept p3)|done|]. intros p' Hgd Hcu Hst Hgr. simpl in Hcu, Hst, Hgr. rewrite Hf in HQ.
    apply HQ; [done|congruence|congruence|]. eapply more_errors_trans; [exact Eg|]. by eapply more_errors_trans. }
  destruct ts as [|t0 ts].
  - destruct Hts as [Hte Hb1]. rewrite !Hte. rewrite bool_decide_eq_false_2 by (intros E; by apply invalid_not_eof).
    rewrite bool_decide_eq_false_2 by apply eof_not_comment. rewrite bool_decide_eq_true_2 by done. cbv zeta.
    apply (Hend ltac:(rewrite Hte; intros E; by apply invalid_not_eof) ltac:(rewrite Hte; apply eof_not_comment) []); [done|].
    by rewrite bool_decide_eq_true_2.
  - destruct Hts as (<- & Hne & Hb1). simpl in Hn. assert (Hb2 : behind (p_set_next t p1) ts) by by apply (behind_kept p1).
    case_bool_decide as Ei; [|case_bool_decide as Ecm].
    + assert (Hf : filter live (t :: ts) = filter live ts) by (apply filter_not_live; by left). apply wp_bind. case_bool_decide.
      * apply wp_ret, (Hskip ts); [done|lia|done|]. repeat split; try done. apply g_refl.
      * apply (wp_SynErr _ _ _ ts); [done|]. intros p3 H3 _ Hs3. apply (Hskip ts); [done|lia|done|done].
    + apply wp_bind, wp_mod, (Hskip ts); [by apply (behind_kept (p_set_next t p1))|lia|apply filter_not_live; by right|].
      repeat split; try done. apply g_refl.
    + rewrite bool_decide_eq_false_2 by done. cbv zeta. apply (Hend Ei Ecm ts); [done|]. rewrite bool_decide_eq_false_2 by done.
      by apply filter_live.
Qed.

(** [Get] where there is a token, and at the end. *)
Lemma wp_Get p r (Q : unit -> Par -> Prop) : good p r ->
  (forall p', good p' (tail r) -> d_cur p' = d_next p -> d_stack p' = d_stack p -> grows (errors p) (errors p') -> Q tt p') ->
  wp (Get limit) Q p.
Proof using Hrec KindLaws0.
  intros (Hla & ts & Hb & Hr) HQ. pose proof Hb as (_ & Hl & _). apply (wp_get_loop limit p ts); [done|lia|].
  intros p' Hg. apply HQ. case_bool_decide; [destruct Hr as [-> ->]; done|]. by subst r.
Qed.

Lemma good_kept p p' r : la p' = la p -> d_next p' = d_next p -> scanner p' = scanner p -> errors p' = errors p ->
  errDist p <= errDist p' -> good p r -> good p' r.
Proof using Type.
  intros E1 E3 Es Ee Ed (Hla & ts & Hb & Hr). split; [by rewrite E1, E3|]. exists ts. rewrite E3.
  split; [by apply (behind_kept p)|done].
Qed.

(** Tokens are looked at. *)
Lemma wp_scan_peek i p r ts (Q : Token -> Par -> Prop) : good p r -> behind p ts -> 0 < i < 256 ->
  (r = [] -> ts = []) -> (r <> [] -> r = d_next p :: filter live ts) ->
  (forall t p', good p' r -> behind p' ts -> same p p' -> match ts !! Z.to_nat (i - 1) with Some t0 => t = t0 | None => d_type t = k_eof end -> Q t p') ->
  wp (scan_call (sc_peek i)) Q p.
Proof using Hrec.
  intros Hgd Hb Hi H1 H2 HQ. pose proof Hb as (Ha & Hl & Hc & Hg & Hd).
  destruct (some_errors p Hg) as [e Ee].
  destruct (ahead_peek (scanner p) e ts i Ha Hi) as (t & x' & e' & Ht & Hge & Ha' & Hts). rewrite <- Ee in Ht, Hge.
  unfold wp, scan_call. rewrite Ht. set (p1 := p_set_scanner x' e' p).
  assert (Hb1 : behind p1 ts).
  { split; [done|]. split; [done|]. split; [done|]. split; [by eapply more_errors_trans|]. intros H Hcl. apply (Hd H), (clean_back p p1); done. }
  apply HQ; [|done|done|done]. destruct Hgd as (Hla & ts' & Hb' & Hr). split; [done|]. exists ts. split; [done|].
  change (d_next p1) with (d_next p). case_bool_decide as E.
  - destruct Hr as [-> ->]. split; [done|]. by apply H1.
  - apply H2. by subst r.
Qed.

Lemma wp_peek_loop n j t p r ts (Q : K -> Par -> Prop) : k_peek_comments = true -> good p r -> behind p ts -> (j <= 254)%nat ->
  (r = [] -> ts = []) -> (r <> [] -> r = d_next p :: filter live ts) ->
  (forall i, (i < j)%nat -> exists t, ts !! i = Some t /\ d_type t = k_comment) ->
  match ts !! j with Some t0 => t = t0 | None => d_type t = k_eof end -> (length ts < n + j)%nat -> (0 < n)%nat ->
  (forall k p', good p' r -> same p p' -> Q k p') -> wp (peek_loop n (u8 (Z.of_nat j + 2)) t) Q p.
Proof using Hrec KindLaws0.
  intros Hpk. revert j t p. induction n as [|n IH]; intros j t p Hgd Hb Hj H1 H2 Hcm Ht Hn Hn0 HQ; [lia|]. cbn [peek_loop].
  case_bool_decide as Ec; [|apply wp_ret, HQ; [done|repeat split; try done; apply g_refl]].
  destruct (ts !! j) as [t0|] eqn:Etj; [|rewrite Ht in Ec; by destruct (eof_not_comment Ec)]. subst t0.
  assert (Hj' : (Datatypes.S j < 255)%nat).
  { destruct Hb as (_ & _ & Hc & _). apply (Hc Hpk 0%nat (Datatypes.S j)). intros i Hi. destruct (decide (i = j)) as [->|Hne]; [by exists t|].
    apply Hcm. lia. }
  assert (E1 : u8 (u8 (Z.of_nat j + 2) + 1) = u8 (Z.of_nat (Datatypes.S j) + 2)).
  { unfold u8. rewrite Zplus_mod_idemp_l. f_equal. lia. }
  assert (E2 : u8 (u8 (Z.of_nat (Datatypes.S j) + 2) - 1) = Z.of_nat j + 2).
  { unfold u8. rewrite Zminus_mod_idemp_l. rewrite Z.mod_small by lia. lia. }
  cbv zeta. rewrite E1, E2. apply wp_bind, (wp_scan_peek _ p r ts); [done|done|lia|done|done|]. intros t' p1 Hg1 Hb1 Hs1 Ht1.
  apply (lookup_lt_Some ts j) in Etj as Hlt.
  apply (IH (Datatypes.S j) t' p1); try done.
  - lia.
  - destruct Hs1 as (_ & _ & -> & _). done.
  - intros i Hi. destruct (decide (i = j)) as [->|Hne]; [by exists t|]. apply Hcm. lia.
  - replace (Z.to_nat (Z.of_nat j + 2 - 1)) with (Datatypes.S j) in Ht1 by lia. done.
  - lia.
  - lia.
  - intros k p' Hg' Hs'. apply HQ; [done|]. destruct Hs1 as (A1 & A2 & A3 & A4 & A5), Hs' as (B1 & B2 & B3 & B4 & B5).
    repeat split; try congruence. by eapply more_errors_trans.
Qed.

(** The next token, and the one behind it. *)
Lemma wp_parser_peek i p r (Q : K -> Par -> Prop) : good p r -> 1 <= i <= 2 ->
  (forall k p', good p' r -> same p p' -> (i = 1 -> k = la p) -> Q k p') -> wp (peek limit i) Q p.
Proof using Hrec KindLaws0.
  intros Hgd Hi HQ. unfold peek. rewrite (proj2 (Z.eqb_neq i 0)) by lia. destruct (Z.eqb_spec i 1) as [->|Hne].
  - apply wp_get, HQ; [done|repeat split; try done; apply g_refl|]. intros _. by destruct Hgd as [-> _].
  - assert (i = 2) as -> by lia. pose proof Hgd as (Hla & ts & Hb & Hr).
    assert (H1 : r = [] -> ts = []) by (case_bool_decide; [by destruct Hr|intros ->; done]).
    assert (H2 : r <> [] -> r = d_next p :: filter live ts) by (case_bool_decide; [by destruct Hr as [-> _]|done]).
    apply wp_bind. change (u8 (2 - 1)) with 1. apply (wp_scan_peek _ p r ts); [done|done|lia|done|done|]. intros t p1 Hg1 Hb1 Hs1 Ht1.
    destruct k_peek_comments eqn:Hpk; [|by apply wp_ret, HQ].
    pose proof Hb as (_ & Hl & _). apply (wp_peek_loop limit 0 t p1 r ts); try done; try lia.
    + destruct Hs1 as (_ & _ & -> & _). done.
    + intros k p' Hg' Hs'. apply HQ; [done| |done]. destruct Hs1 as (A1 & A2 & A3 & A4 & A5), Hs' as (B1 & B2 & B3 & B4 & B5).
      repeat split; try congruence. by eapply more_errors_trans.
Qed.

(** ** What a procedure does *)

(** What is known of the next token. *)
Abbreviation Known := (K -> bool).
Definition implied (P P' : Known) : Prop := forallb (fun k => implb (P k) (P' k)) k_types = true.
Definition any : Known := fun _ => true.

Lemma implied_spec P P' k : implied P P' -> P k = true -> P' k = true.
Proof using KindLaws0.
  unfold implied. rewrite forallb_forall. intros H Hk. specialize (H k (proj1 (list_elem_of_In _ _) (types_all k))).
  by rewrite Hk in H.
Qed.

(** With less than [n] tokens, and a next one that is known: the procedure takes some tokens, at least one when
    [eat]; if no error has been reported, it appends nodes that are in the language [a] and have the tokens. *)
Definition outcome (a : re (NodeType K R)) (eat : bool) p r top (l : list Tree) rest p' : Prop :=
  exists c r' l', r = c ++ r' /\ good p' r' /\ d_stack p' = (top, l ++ l') :: rest /\ grows (errors p) (errors p') /\
    (eat = true -> c <> []) /\
    (clean p' -> lang a (map st_type l') /\ Forall conforms l' /\ flat_map leaves l' = map node_token (filter loud c)).

Definition ok (P : Known) (a : re (NodeType K R)) (eat : bool) (n : nat) (body : PM unit) : Prop :=
  forall p r top l rest, good p r -> (length r < n)%nat -> P (la p) = true -> d_stack p = (top, l) :: rest ->
    wp body (fun _ => outcome a eat p r top l rest) p.

Lemma implied_refl P : implied P P.
Proof using Type. apply forallb_forall. intros k _. by destruct (P k). Qed.

Lemma ok_zero P a e body : ok P a e 0 body.
Proof using Type. intros p r top l rest _ H. lia. Qed.

(** A procedure that is not reached. *)
Lemma ok_absurd P a e n body : implied P (fun _ => false) -> ok P a e n body.
Proof using KindLaws0. intros H p r top l rest _ _ HP. by apply (implied_spec _ _ _ H) in HP. Qed.

Lemma ok_weak P P' a a' e e' n n' body : ok P a e n body -> implied P' P -> (forall w, lang a w -> lang a' w) ->
  implb e' e = true -> (n' <= n)%nat -> ok P' a' e' n' body.
Proof using KindLaws0.
  intros H HP Ha He Hn p r top l rest Hg Hl Hk Hs. eapply wp_mono; [apply (H p r top l rest); [done|lia|by eapply implied_spec|done]|].
  intros [] p' (c & r' & l' & E & Hg' & Hs' & Hgr & Hc & Hcl). exists c, r', l'. split; [done|]. split; [done|]. split; [done|].
  split; [done|]. split; [intros ->; apply Hc; by destruct e|]. intros H'. destruct (Hcl H') as (L & F & V). auto.
Qed.

Lemma ok_lang P a a' e n body : (forall w, lang a w -> lang a' w) -> ok P a e n body -> ok P a' e n body.
Proof using KindLaws0.
  intros Ha H. eapply ok_weak; [exact H|apply implied_refl|exact Ha|by destruct e|lia].
Qed.

Lemma ok_ret P n : ok P Eps false n (rret tt).
Proof using Type.
  intros p r top l rest Hg _ _ Hs. apply wp_ret. exists [], r, []. rewrite app_nil_r. split; [done|]. split; [done|]. split; [done|].
  split; [apply g_refl|]. split; [done|]. intros _. split; [constructor|done].
Qed.

(** An error. *)
Lemma outcome_error a p r top l rest p' : good p' r -> ~ clean p' -> same p p' -> d_stack p = (top, l) :: rest ->
  outcome a false p r top l rest p'.
Proof using Type.
  intros Hg Hn (E1 & E2 & E3 & E4 & E5) Hs. exists [], r, []. rewrite app_nil_r. split; [done|]. split; [done|].
  split; [congruence|]. split; [done|]. split; [done|]. intros H. by destruct Hn.
Qed.

Lemma ok_err P a n k ctx : ok P a false n (SynErr k ctx).
Proof using Hrec.
  intros p r top l rest Hg _ _ Hs. pose proof Hg as (Hla & ts & Hb & Hr). apply (wp_SynErr _ _ p ts); [done|].
  intros p' Hb' Hn Hsame. eapply outcome_error; [|done|done|done]. destruct Hsame as (E1 & E2 & E3 & E4 & E5).
  split; [by rewrite E1, E3|]. exists ts. by rewrite E3.
Qed.

(** *** Sequences *)
Lemma filter_loud_app c c' : map (node_token (R := R)) (filter loud (c ++ c')) = map node_token (filter loud c) ++ map node_token (filter loud c').
Proof using Type. by rewrite filter_app, map_app. Qed.

Lemma ok_seq P a b e e' n x y : ok P a e n x -> ok any b e' (if e then pred n else n) y -> ok P (Cat a b) (e || e') n (_ <~ x; y).
Proof using Hrec.
  intros Hx Hy p r top l rest Hg Hl Hk Hs. apply wp_bind. eapply wp_mono; [by apply (Hx p r top l rest)|].
  intros [] p1 (c & r1 & l1 & -> & Hg1 & Hs1 & Hgr1 & Hc1 & Hcl1). eapply wp_mono; [apply (Hy p1 r1 top (l ++ l1) rest); try done|].
  - rewrite length_app in Hl. destruct e; [|lia]. destruct c; [by destruct (Hc1 eq_refl)|]. simpl in Hl. lia.
  - intros [] p2 (c2 & r2 & l2 & -> & Hg2 & Hs2 & Hgr2 & Hc2 & Hcl2). exists (c ++ c2), r2, (l1 ++ l2).
    split; [by rewrite app_assoc|]. split; [done|]. split; [by rewrite app_assoc|]. split; [by eapply more_errors_trans|]. split.
    + intros He. destruct e; [|destruct c; [simpl; by apply Hc2|done]]. destruct c; [by destruct (Hc1 eq_refl)|done].
    + intros H2. assert (H1 : clean p1) by (eapply clean_back; [by eapply good_grows|exact Hgr2|exact H2]).
      destruct (Hcl1 H1) as (A1 & B1 & C1), (Hcl2 H2) as (A2 & B2 & C2). split; [rewrite map_app; by constructor|].
      split; [by apply Forall_app|]. by rewrite flat_map_app, filter_loud_app, C1, C2.
Qed.

(** A part that leaves nothing in the tree. *)
Lemma ok_silent_seq P a e e' n x y : ok P Eps e n x -> ok any a e' (if e then pred n else n) y -> ok P a (e || e') n (_ <~ x; y).
Proof using Hrec KindLaws0.
  intros Hx Hy. eapply ok_lang; [|by eapply ok_seq]. intros w Hw. apply lang_cat in Hw as (u & v & -> & Hu & Hv).
  apply lang_eps in Hu as ->. done.
Qed.
Lemma ok_seq_silent P a e e' n x y : ok P a e n x -> ok any Eps e' (if e then pred n else n) y -> ok P a (e || e') n (_ <~ x; y).
Proof using Hrec KindLaws0.
  intros Hx Hy. eapply ok_lang; [|by eapply ok_seq]. intros w Hw. apply lang_cat in Hw as (u & v & -> & Hu & Hv).
  apply lang_eps in Hv as ->. by rewrite app_nil_r.
Qed.

(** *** Conditions *)

(** What is known of the next token when the condition holds, and when not. *)
Definition decides (c : PM bool) (P P' : Known) : Prop := forall p r, good p r ->
  wp c (fun b p' => good p' r /\ same p p' /\ (if b then P (la p) else P' (la p)) = true) p.

Lemma same_refl p : same p p.
Proof using Type. repeat split; try done. apply g_refl. Qed.
Lemma same_trans p p1 p2 : same p p1 -> same p1 p2 -> same p p2.
Proof using Type.
  intros (A1 & A2 & A3 & A4 & A5) (B1 & B2 & B3 & B4 & B5). repeat split; try congruence. by eapply more_errors_trans.
Qed.

Lemma decides_at k : decides (at_ k) (fun k' => bool_decide (k' = k)) (fun k' => negb (bool_decide (k' = k))).
Proof using Type. intros p r Hg. apply wp_get. split; [done|]. split; [apply same_refl|]. by case_bool_decide. Qed.
Lemma decides_any l : decides (at_any l) (fun k' => bool_decide (k' ∈ l)) (fun k' => negb (bool_decide (k' ∈ l))).
Proof using Type. intros p r Hg. apply wp_get. split; [done|]. split; [apply same_refl|]. by case_bool_decide. Qed.
Lemma decides_start s : decides (StartOf s) (in_start s) (fun k => negb (in_start s k)).
Proof using Type. intros p r Hg. apply wp_get. split; [done|]. split; [apply same_refl|]. by destruct (in_start s (la p)). Qed.
Lemma decides_peek_1 k : decides (peek_is limit 1 k) (fun k' => bool_decide (k' = k)) (fun k' => negb (bool_decide (k' = k))).
Proof using Hrec KindLaws0.
  intros p r Hg. apply wp_bind, (wp_parser_peek 1 p r); [done|lia|]. intros k' p' Hg' Hs' Hk. apply wp_ret. rewrite (Hk eq_refl).
  split; [done|]. split; [done|]. by case_bool_decide.
Qed.
Lemma decides_peek_2 k : decides (peek_is limit 2 k) any any.
Proof using Hrec KindLaws0.
  intros p r Hg. apply wp_bind, (wp_parser_peek 2 p r); [done|lia|]. intros k' p' Hg' Hs' _. apply wp_ret.
  split; [done|]. split; [done|]. by case_bool_decide.
Qed.
Lemma decides_and c d P P' Q Q' : decides c P P' -> decides d Q Q' -> decides (and_ c d) (fun k => P k && Q k) (fun k => P' k || Q' k).
Proof using Type.
  intros Hc Hd p r Hg. apply wp_bind. eapply wp_mono; [by apply (Hc p r)|]. intros [] p1 (Hg1 & Hs1 & H1).
  - eapply wp_mono; [by apply (Hd p1 r)|]. intros b p2 (Hg2 & Hs2 & H2). split; [done|]. split; [by eapply same_trans|].
    destruct Hs1 as (E & _). rewrite E in H2. destruct b; rewrite ?H1, H2; [done|]. apply orb_true_r.
  - apply wp_ret. split; [done|]. split; [done|]. by rewrite H1.
Qed.
Lemma decides_or c d P P' Q Q' : decides c P P' -> decides d Q Q' -> decides (or_ c d) (fun k => P k || Q k) (fun k => P' k && Q' k).
Proof using Type.
  intros Hc Hd p r Hg. apply wp_bind. eapply wp_mono; [by apply (Hc p r)|]. intros [] p1 (Hg1 & Hs1 & H1).
  - apply wp_ret. split; [done|]. split; [done|]. by rewrite H1.
  - eapply wp_mono; [by apply (Hd p1 r)|]. intros b p2 (Hg2 & Hs2 & H2). split; [done|]. split; [by eapply same_trans|].
    destruct Hs1 as (E & _). rewrite E in H2. destruct b; rewrite ?H1, H2; [|done]. apply orb_true_r.
Qed.
Lemma decides_not c P P' : decides c P P' -> decides (not_ c) P' P.
Proof using Type.
  intros Hc p r Hg. apply wp_bind. eapply wp_mono; [by apply (Hc p r)|]. intros b p1 (Hg1 & Hs1 & H1). apply wp_ret.
  split; [done|]. split; [done|]. by destruct b.
Qed.

(** After a condition the parser is as good as before. *)
Lemma outcome_same a e p p1 r top l rest p' : same p p1 -> outcome a e p1 r top l rest p' -> outcome a e p r top l rest p'.
Proof using Type.
  intros (_ & _ & _ & _ & Hg) (c & r' & l' & E & Hg' & Hs' & Hgr & H). exists c, r', l'. split; [done|]. split; [done|].
  split; [done|]. split; [by eapply more_errors_trans|done].
Qed.

Lemma ok_if P Q Q' a e n c x y : decides c Q Q' -> ok (fun k => P k && Q k) a e n x -> ok (fun k => P k && Q' k) a e n y ->
  ok P a e n (if_ c x y).
Proof using Type.
  intros Hc Hx Hy p r top l rest Hg Hl Hk Hs. apply wp_bind. eapply wp_mono; [by apply (Hc p r)|].
  intros b p1 (Hg1 & Hs1 & H1). pose proof Hs1 as (E1 & _ & _ & E4 & _).
  destruct b.
  - eapply wp_mono; [apply (Hx p1 r top l rest); [done|done|by rewrite E1, Hk, H1|by rewrite E4]|]. intros [] p'. by apply outcome_same.
  - eapply wp_mono; [apply (Hy p1 r top l rest); [done|done|by rewrite E1, Hk, H1|by rewrite E4]|]. intros [] p'. by apply outcome_same.
Qed.

Lemma ok_when P Q Q' a n c x : decides c Q Q' -> ok (fun k => P k && Q k) a false n x -> ok P (Opt a) false n (when_ c x).
Proof using KindLaws0.
  intros Hc Hx. eapply ok_if; [done| |].
  - eapply ok_lang; [|exact Hx]. intros w. by apply l_left.
  - eapply ok_lang; [|apply ok_ret]. intros w. by apply l_right.
Qed.
Lemma ok_when_silent P Q Q' n c x : decides c Q Q' -> ok (fun k => P k && Q k) Eps false n x -> ok P Eps false n (when_ c x).
Proof using Type. intros Hc Hx. eapply ok_if; [done|exact Hx|apply ok_ret]. Qed.

(** *** Tokens *)

Definition term_tree (t : Token) : list Tree := if loud t then [Node (node_token t) []] else [].

Lemma term_tree_sound t : map st_type (term_tree t) = (if loud t then [Tk (d_type t)] else []) /\
  Forall conforms (term_tree t) /\ flat_map leaves (term_tree t) = map node_token (filter loud [t]).
Proof using Type.
  unfold term_tree. destruct (loud t) eqn:E.
  - split; [done|]. split; [constructor; [by apply (conf_leaf _ (d_type t))|constructor]|]. rewrite filter_cons_True by by rewrite E. done.
  - rewrite filter_cons_False; [done|]. rewrite E. by intros [].
Qed.

(** The next token is taken into the tree. *)
Lemma wp_take p r top l rest (Q : unit -> Par -> Prop) : good p r -> la p <> k_invalid -> d_stack p = (top, l) :: rest ->
  (forall p' r', r = d_next p :: r' -> good p' r' -> d_stack p' = (top, l ++ term_tree (d_next p)) :: rest -> grows (errors p) (errors p') -> Q tt p') ->
  wp (take_term limit) Q p.
Proof using Hrec KindLaws0.
  intros Hg Hk Hs HQ. destruct (good_head p r Hg Hk) as [r' ->]. apply wp_bind, (wp_Get p (d_next p :: r')); [done|].
  intros p1 Hg1 Hc1 Hs1 Hgr1. simpl in Hg1. apply wp_bind, wp_get. unfold id. rewrite Hc1. specialize (HQ).
  unfold term_tree, loud in HQ. destruct (k_silent (d_type (d_next p))); simpl in HQ.
  - apply wp_ret, (HQ p1 r'); [done|done|by rewrite Hs1, Hs, app_nil_r|done].
  - apply wp_bind, wp_get. unfold id. rewrite Hs1, Hs. apply wp_mod, (HQ _ r'); [done| |done|done].
    by apply (good_kept p1).
Qed.

Lemma ok_take_gen P a n : implied P (fun k => negb (bool_decide (k = k_invalid))) ->
  (forall k, P k = true -> lang a (if k_silent k then [] else [Tk k])) -> ok P a true n (take_term limit).
Proof using Hrec KindLaws0.
  intros HP Ha p r top l rest Hg Hl Hk Hs. pose proof (implied_spec _ _ _ HP Hk) as Hne. apply negb_true_iff, bool_decide_eq_false in Hne.
  apply (wp_take p r top l rest); [done|done|done|]. intros p' r' -> Hg' Hs' Hgr. exists [d_next p], r', (term_tree (d_next p)).
  split; [done|]. split; [done|]. split; [done|]. split; [done|]. split; [done|]. intros _.
  destruct (term_tree_sound (d_next p)) as (E1 & E2 & E3). split; [|done]. rewrite E1. destruct Hg as [Hla _]. specialize (Ha _ Hk).
  rewrite Hla in Ha. unfold loud. by destruct (k_silent (d_type (d_next p))).
Qed.

(** What is known of the next token: it is one of the symbols, or is not in the tree. *)
Definition in_syms (ks : list (NodeType K R)) : Known := fun k => bool_decide (Tk k ∈ ks) && negb (k_silent k) && negb (bool_decide (k = k_invalid)).
Definition quiet : Known := fun k => k_silent k && negb (bool_decide (k = k_invalid)).

Lemma ok_take P ks n : implied P (in_syms ks) -> ok P (OneOf ks) true n (take_term limit).
Proof using Hrec KindLaws0.
  intros HP. apply ok_take_gen.
  - apply forallb_forall. intros k _. destruct (P k) eqn:E; [|done]. apply (implied_spec _ _ _ HP) in E. by apply andb_true_iff in E as [_ ->].
  - intros k Hk. apply (implied_spec _ _ _ HP) in Hk. apply andb_true_iff in Hk as [Hk _]. apply andb_true_iff in Hk as [Hk Hs].
    apply negb_true_iff in Hs. rewrite Hs. constructor. by apply bool_decide_eq_true in Hk.
Qed.
Lemma ok_take_silent P n : implied P quiet -> ok P Eps true n (take_term limit).
Proof using Hrec KindLaws0.
  intros HP. apply ok_take_gen.
  - apply forallb_forall. intros k _. destruct (P k) eqn:E; [|done]. apply (implied_spec _ _ _ HP) in E. by apply andb_true_iff in E as [_ ->].
  - intros k Hk. apply (implied_spec _ _ _ HP) in Hk. apply andb_true_iff in Hk as [Hk _]. rewrite Hk. constructor.
Qed.

(** A token that is expected: it is taken, or an error is reported. *)
Lemma wp_addTerminal p top l rest (Q : unit -> Par -> Prop) : d_stack p = (top, l) :: rest ->
  Q tt (p_set_stack ((top, l ++ term_tree (d_cur p)) :: rest) p) -> wp addTerminal Q p.
Proof using Type.
  intros Hs HQ. apply wp_bind, wp_get. unfold id. unfold term_tree, loud in HQ. destruct (k_silent (d_type (d_cur p))); simpl in HQ.
  - apply wp_ret. rewrite app_nil_r, <- Hs in HQ. by destruct p.
  - apply wp_bind, wp_get. unfold id. rewrite Hs. by apply wp_mod.
Qed.

Lemma ok_term_gen P a e n k ctx : k <> k_invalid -> lang a (if k_silent k then [] else [Tk k]) ->
  implb e (forallb (fun k' => implb (P k') (bool_decide (k' = k))) k_types) = true -> ok P a e n (term limit k ctx).
Proof using Hrec KindLaws0.
  intros Hk Ha He p r top l rest Hg Hl HP Hs. apply wp_bind, wp_bind, wp_get. unfold id. case_bool_decide as Ela.
  - pose proof (ok_take_gen (fun k' => bool_decide (k' = k)) a n) as Ht. unfold take_term in Ht.
    assert (Hok : ok (fun k' => bool_decide (k' = k)) a true n (take_term limit)).
    { apply ok_take_gen.
      - apply forallb_forall. intros k' _. case_bool_decide; [|done]. subst. by rewrite bool_decide_eq_false_2.
      - intros k' Hk'. apply bool_decide_eq_true in Hk'. by subst. }
    specialize (Hok p r top l rest Hg Hl ltac:(by apply bool_decide_eq_true_2) Hs). unfold take_term, wp, rbind in Hok. unfold wp.
    destruct (Get limit p) as [[[] p1]|]; [|done]. unfold wp. eapply wp_mono; [exact Hok|]. intros [] p' (c & r' & l' & H1 & H2 & H3 & H4 & H5 & H6).
    exists c, r', l'. split; [done|]. split; [done|]. split; [done|]. split; [done|]. split; [intros _; by apply H5|done].
  - destruct e; [exfalso; simpl in He; by pose proof (implied_spec P _ _ He HP) as H%bool_decide_eq_true|].
    pose proof Hg as (Hla & ts & Hb & Hr). apply (wp_SynErr _ _ p ts); [done|]. intros p1 Hb1 Hn1 (E1 & E2 & E3 & E4 & E5).
    apply (wp_addTerminal _ top l rest); [congruence|]. exists [], r, (term_tree (d_cur p1)). split; [done|]. split.
    { split; [simpl; by rewrite E1, E3|]. exists ts. simpl. rewrite E3. split; [by apply (behind_kept p1)|done]. }
    split; [done|]. split; [done|]. split; [done|]. intros H. by destruct Hn1.
Qed.

Lemma ok_term P ks e n k ctx : in_syms ks k = true ->
  implb e (forallb (fun k' => implb (P k') (bool_decide (k' = k))) k_types) = true -> ok P (OneOf ks) e n (term limit k ctx).
Proof using Hrec KindLaws0.
  intros Hk. apply andb_true_iff in Hk as [Hk Hi]. apply andb_true_iff in Hk as [Hk Hs]. apply negb_true_iff in Hs, Hi.
  apply bool_decide_eq_false in Hi. apply bool_decide_eq_true in Hk. apply ok_term_gen; [done|]. rewrite Hs. by constructor.
Qed.
Lemma ok_term_silent P e n k ctx : quiet k = true ->
  implb e (forallb (fun k' => implb (P k') (bool_decide (k' = k))) k_types) = true -> ok P Eps e n (term limit k ctx).
Proof using Hrec KindLaws0.
  intros Hk. apply andb_true_iff in Hk as [Hs Hi]. apply negb_true_iff in Hi. apply bool_decide_eq_false in Hi.
  apply ok_term_gen; [done|]. rewrite Hs. by constructor.
Qed.

(** *** Loops and nodes *)
Lemma ok_while_loop P P' a n c body : decides c P P' -> ok P a true n body ->
  forall m p r top l rest, good p r -> (length r < n)%nat -> (length r < m)%nat -> d_stack p = (top, l) :: rest ->
    wp (while_loop m c body) (fun _ => outcome (Star a) false p r top l rest) p.
Proof using Hrec.
  intros Hc Hb. induction m as [|m IH]; intros p r top l rest Hg Hl Hm Hs; [lia|]. cbn [while_loop]. apply wp_bind.
  eapply wp_mono; [by apply (Hc p r)|]. intros [] p1 (Hg1 & Hs1 & H1); pose proof Hs1 as (E1 & _ & _ & E4 & E5).
  - apply wp_bind. eapply wp_mono; [apply (Hb p1 r top l rest); [done|done|by rewrite E1|congruence]|].
    intros [] p2 (c2 & r2 & l2 & -> & Hg2 & Hs2 & Hgr2 & Hc2 & Hcl2). rewrite length_app in Hl, Hm.
    assert (Hpos : (0 < length c2)%nat) by (destruct c2; [by destruct (Hc2 eq_refl)|simpl; lia]).
    eapply wp_mono; [apply (IH p2 r2 top (l ++ l2) rest); [done|lia|lia|done]|].
    intros [] p3 (c3 & r3 & l3 & -> & Hg3 & Hs3 & Hgr3 & Hc3 & Hcl3). exists (c2 ++ c3), r3, (l2 ++ l3).
    split; [by rewrite app_assoc|]. split; [done|]. split; [by rewrite app_assoc|].
    split; [by eapply more_errors_trans; [exact E5|]; eapply more_errors_trans|]. split; [done|]. intros H3.
    assert (H2 : clean p2) by (eapply clean_back; [by eapply good_grows|exact Hgr3|exact H3]).
    destruct (Hcl2 H2) as (A1 & B1 & C1), (Hcl3 H3) as (A2 & B2 & C2). split; [rewrite map_app; by constructor|].
    split; [by apply Forall_app|]. by rewrite flat_map_app, filter_loud_app, C1, C2.
  - apply wp_ret. exists [], r, []. rewrite app_nil_r. split; [done|]. split; [done|]. split; [congruence|]. split; [done|]. split; [done|].
    intros _. split; [constructor|done].
Qed.

Lemma ok_while P Q Q' a n c body : decides c Q Q' -> ok Q a true n body -> ok P (Star a) false n (while_ limit c body).
Proof using Hrec.
  intros Hc Hb p r top l rest Hg Hl _ Hs. apply (ok_while_loop Q Q' a n); try done. by eapply good_length.
Qed.

Lemma ok_node P (u : R) e n body : ok P (production u) e n body -> ok P (nt u) e n (rule_node u body).
Proof using Type.
  intros Hb p ts top l rest Hg Hl Hk Hs. apply wp_bind, wp_mod, wp_bind. rewrite Hs.
  eapply wp_mono; [apply (Hb _ ts (rule_token u (d_next p)) [] ((top, l) :: rest)); [by apply (good_kept p)|done|done|done]|].
  intros [] p1 (c & r' & l' & E & Hg1 & Hs1 & Hgr1 & Hc1 & Hcl1). apply wp_bind, wp_get. unfold id. rewrite Hs1. simpl.
  apply wp_bind, wp_mod, wp_bind, wp_get. unfold id. simpl. apply wp_mod. exists c, r', [Node (rule_token u (d_next p)) l'].
  split; [done|]. split; [by apply (good_kept p1)|]. split; [done|]. split; [done|]. split; [done|].
  intros Hcl. destruct (Hcl1 Hcl) as (A & B & C). split; [by repeat constructor|]. split.
  - constructor; [|constructor]. by eapply conf_rule.
  - simpl. by rewrite app_nil_r.
Qed.

(** A node that is one of several, and alternatives. *)
Lemma ok_one P (u : R) ks e n body : Rule u ∈ ks -> ok P (nt u) e n body -> ok P (OneOf ks) e n body.
Proof using KindLaws0. intros Hr. apply ok_lang. intros w Hw. apply lang_one in Hw as (k & -> & Hk). constructor. by apply list_elem_of_singleton in Hk as ->. Qed.
Lemma ok_left P a b e n body : ok P a e n body -> ok P (Alt a b) e n body.
Proof using KindLaws0. apply ok_lang. intros w. apply l_left. Qed.
Lemma ok_right P a b e n body : ok P b e n body -> ok P (Alt a b) e n body.
Proof using KindLaws0. apply ok_lang. intros w. apply l_right. Qed.
Lemma ok_known P P' a e n body : implied P' P -> ok P a e n body -> ok P' a e n body.
Proof using KindLaws0. intros HP H. eapply ok_weak; [exact H|exact HP|done|by destruct e|lia]. Qed.
Lemma ok_top P a e n body : ok any a e n body -> ok P a e n body.
Proof using KindLaws0. apply ok_known, forallb_forall. intros k _. by destruct (P k). Qed.
Lemma ok_less P a n body : ok P a true n body -> ok P a false n body.
Proof using KindLaws0. intros H. eapply ok_weak; [exact H| |done|done|lia]. apply forallb_forall. intros k _. by destruct (P k). Qed.

(** *** Sequences whose first part takes a token, or may not *)
Lemma ok_eat P a b e n x y : ok P a true n x -> ok any b false (pred n) y -> ok P (Cat a b) e n (_ <~ x; y).
Proof using Hrec KindLaws0.
  intros Hx Hy. eapply ok_weak; [exact (ok_seq P a b true false n x y Hx Hy)| |done|by destruct e|done]. apply implied_refl.
Qed.
Lemma ok_stay P a b n x y : ok P a false n x -> ok any b false n y -> ok P (Cat a b) false n (_ <~ x; y).
Proof using Hrec. exact (ok_seq P a b false false n x y). Qed.
Lemma ok_silent_eat P a e n x y : ok P Eps true n x -> ok any a false (pred n) y -> ok P a e n (_ <~ x; y).
Proof using Hrec KindLaws0.
  intros Hx Hy. eapply ok_weak; [exact (ok_silent_seq P a true false n x y Hx Hy)| |done|by destruct e|done]. apply implied_refl.
Qed.
Lemma ok_silent_stay P a n x y : ok P Eps false n x -> ok any a false n y -> ok P a false n (_ <~ x; y).
Proof using Hrec KindLaws0. exact (ok_silent_seq P a false false n x y). Qed.
Lemma ok_eat_silent P a e n x y : ok P a e n x -> ok any Eps false n y -> ok P a e n (_ <~ x; y).
Proof using Hrec KindLaws0.
  intros Hx Hy. eapply ok_weak; [eapply (ok_seq_silent P a e false n x y Hx)| |done|by destruct e|done]; [|apply implied_refl].
  destruct e; [|exact Hy]. eapply ok_weak; [exact Hy| |done|done|lia]. apply implied_refl.
Qed.

(** An option in front of what takes a token. *)
Lemma ok_when_eat P Q Q' a b n c x y : decides c Q Q' -> ok (fun k => P k && Q k) a true n x -> ok any b false (pred n) y ->
  ok (fun k => P k && Q' k) b true n y -> ok P (Cat (Opt a) b) true n (_ <~ when_ c x; y).
Proof using Hrec KindLaws0.
  intros Hc Hx Hy Hy' p r top l rest Hg Hl Hk Hs.
  assert (H : ok P (Cat (Opt a) b) true n (if_ c (_ <~ x; y) (_ <~ rret tt; y))).
  { eapply ok_if; [done| |].
    - eapply ok_eat; [|exact Hy]. eapply ok_lang; [|exact Hx]. intros w. by apply l_left.
    - eapply ok_lang; [|exact Hy']. intros w Hw. apply (l_cat _ _ []); [apply l_right; constructor|done]. }
  specialize (H p r top l rest Hg Hl Hk Hs). unfold wp, when_, if_, rbind in *. destruct (c p) as [[b' p1]|]; [|done]. by destruct b'.
Qed.

(** A repetition by recursion. *)
Lemma ok_more P a b e n x : ok P (Opt (Cat a (Cat b (Star (Cat a b))))) e n x -> ok P (Star (Cat a b)) e n x.
Proof using KindLaws0.
  apply ok_lang. intros w Hw. lang_inv; [|constructor]. rewrite app_assoc. apply l_more; [|done]. by constructor.
Qed.

(** ** A run *)

Definition root : LexToken (NodeType K R) := mkToken (Tk k_invalid) 0 0 0 [] [].

(** The tree of a text: what has the tokens [ts] that are for the parser. *)
Definition tree_of (u : R) (ts : list Token) (st : Tree) : Prop :=
  exists c, st = Node root [c] /\ st_type c = Rule u /\ conforms c /\ leaves c = map node_token (filter loud (filter live ts)).

Lemma wp_Expect_end p r ctx (Q : unit -> Par -> Prop) : good p r ->
  (forall p', grows (errors p) (errors p') -> d_stack p' = d_stack p -> (clean p' -> r = []) -> Q tt p') ->
  wp (Expect limit k_invalid ctx) Q p.
Proof using Hrec KindLaws0.
  intros Hg HQ. apply wp_bind, wp_get. unfold id. case_bool_decide as E; pose proof Hg as (Hla & ts & Hb & Hr).
  - apply (wp_Get p r); [done|]. intros p' _ _ Hs Hgr. apply HQ; [done|done|]. intros _.
    rewrite Hla in E. rewrite bool_decide_eq_true_2 in Hr by done. by destruct Hr.
  - apply (wp_SynErr _ _ p ts); [done|]. intros p' _ Hn (_ & _ & _ & Hs & Hgr). apply HQ; [done|done|]. intros H. by destruct Hn.
Qed.

Lemma run_sound (x : S) ts u start e : ahead x ts -> (length ts + 2 <= limit)%nat -> comments_bounded ts ->
  ok any (nt u) e (Datatypes.S (length ts)) start ->
  wp (RunParser limit start) (fun st p' => grows (Some e0) (errors p') /\ (errors p' = Some e0 -> tree_of u ts st))
    (new_Parser x (Some e0)).
Proof using Hrec KindLaws0.
  intros Ha Hl Hc Hok. apply wp_bind, wp_bind, wp_mod, wp_bind, wp_mod, wp_bind. apply (wp_get_loop limit _ ts); [|lia|].
  { split; [exact Ha|]. split; [done|]. split; [done|]. split; [apply g_refl|]. simpl. unfold minErrDist. lia. }
  intros p1 Hg1 _ Hs1 Hgr1. simpl in Hs1, Hgr1. apply wp_bind.
  eapply wp_mono; [apply (Hok p1 (filter live ts) root [] []); [done| |done|done]|].
  { pose proof (length_filter live ts). lia. }
  intros [] p2 (c & r & l & E & Hg2 & Hs2 & Hgr2 & _ & Hcl2). apply (wp_Expect_end p2 r); [done|]. intros p3 Hgr3 Hs3 Hr.
  apply wp_bind, wp_get. unfold id. rewrite Hs3, Hs2. simpl. apply wp_ret.
  assert (Hg02 : grows (Some e0) (errors p2)) by by eapply good_grows. split; [by eapply more_errors_trans|]. intros H3.
  assert (H2 : clean p2) by (eapply clean_back; [exact Hg02|exact Hgr3|exact H3]).
  destruct (Hcl2 H2) as (HL & HF & HV). rewrite (Hr H3), app_nil_r in E. subst c.
  apply lang_one in HL as (k & Hk & Hin). apply list_elem_of_singleton in Hin as ->.
  apply map_eq_cons in Hk as (d & l' & -> & Hd & Hl'). apply map_eq_nil in Hl' as ->.
  exists d. split; [done|]. split; [done|]. split; [by inversion HF|]. simpl in HV. by rewrite app_nil_r in HV.
Qed.
End Spec.

(** ** Procedures, step by step *)

Ltac known := vm_compute; reflexivity.

(** What a condition tells. *)
Ltac cond :=
  first [apply decides_at | apply decides_any | apply decides_start
        | eapply decides_and; cond | eapply decides_or; cond | eapply decides_not; cond
        | apply decides_peek_1; assumption | apply decides_peek_2; assumption].

(** Lemmas on the procedures. *)
Create HintDb procs.
#[export] Hint Extern 1 (implied _ _) => vm_compute; reflexivity : procs.
Ltac call :=
  let one := first [solve [eauto 3 with procs] | apply ok_less; solve [eauto 3 with procs]] in
  first [ one | eapply ok_one; [|one]; apply (bool_decide_unpack _); vm_compute; exact I ].

(** The body of a procedure along its production. *)
Ltac walk :=
  lazymatch goal with
  | |- ok _ _ _ (nt ?u) _ _ (rule_node ?u _) => apply ok_node; unfold production; simpl; walk
  | |- ok _ _ _ _ _ _ (if_ _ _ _) => eapply ok_if; [cond|walk|walk]
  | |- ok _ _ _ _ _ _ (SynErr _ _) => first [apply ok_err; assumption | apply ok_absurd; known]
  | |- ok _ _ _ (Alt _ _) _ _ _ => first [apply ok_left; solve [walk] | apply ok_right; solve [walk]]
  | |- ok _ _ _ _ true _ (rbind (when_ _ _) _) => eapply ok_when_eat; [assumption|cond|walk|walk|walk]
  | |- ok _ _ _ _ _ _ (rbind _ _) => walk_seq
  | |- ok _ _ _ (Opt _) false _ (when_ _ _) => eapply ok_when; [cond|walk]
  | |- ok _ _ _ Eps false _ (when_ _ _) => eapply ok_when_silent; [cond|walk]
  | |- ok _ _ _ (Star (Cat _ _)) false _ (when_ _ _) => apply ok_more; walk
  | |- ok _ _ _ (Star _) false _ (while_ _ _ _) => eapply ok_while; [assumption|cond|walk]
  | |- ok _ _ _ Eps true _ (take_term _) => apply ok_take_silent; [assumption|known]
  | |- ok _ _ _ Eps false _ (take_term _) => apply ok_less, ok_take_silent; [assumption|known]
  | |- ok _ _ _ Eps _ _ (term _ _ _) => apply ok_term_silent; [assumption|known|known]
  | |- ok _ _ _ _ true _ (take_term _) => apply ok_take; [assumption|known]
  | |- ok _ _ _ _ false _ (take_term _) => apply ok_less, ok_take; [assumption|known]
  | |- ok _ _ _ _ _ _ (term _ _ _) => apply ok_term; [assumption|known|known]
  | |- ok _ _ _ _ _ _ _ => call
  end
with walk_seq :=
  first
    [ apply ok_silent_eat; [assumption|solve [walk]|walk]
    | apply ok_silent_stay; [assumption|solve [walk]|walk]
    | apply ok_eat; [assumption|solve [walk]|walk]
    | apply ok_stay; [assumption|solve [walk]|walk]
    | apply ok_eat_silent; [assumption|solve [walk]|walk] ].
