(* ===== verification/LexScanner.v ===== *)
(** * A lexer behind a parser

    The tokens that a parser gets from a lexer, with or without looking ahead, are those of the
    text: what a lexer does depends neither on the errors reported before nor on the tokens that
    have been looked at. *)

From S2P Require Import Prelude ErrorList LexCore LexCoreSpec SyntaxTree ParserCore ParserSpec.
From Stdlib Require Import Strings.Byte.
Local Open Scope Z_scope.
Local Open Scope rd_scope.

Section Blind.
Context `{Kd : TokenKind K}.
Implicit Types (x y : LexState K).

(** A lexer with other errors and another buffer. *)
Definition moved (l : option (list LexError)) (b : list (LexToken K)) x : LexState K := set_err l (set_buffer b x).

Lemma moved_same x : d_buffer x = [] -> x = moved (d_err x) [] x.
Proof. destruct x. simpl. by intros ->. Qed.

(** What is done does not depend on them. *)
Definition blind {A} (m : SM (LexState K) A) : Prop := forall x l b a y, d_packComments x = true -> m x = Some (a, y) ->
  d_packComments y = true /\ exists l', m (moved l b x) = Some (a, moved l' b y).

Lemma blind_ret {A} (a : A) : blind (rret a).
Proof. intros x l b a' y Hp [= <- <-]. split; [done|]. by exists l. Qed.
Lemma blind_fail {A} : blind (rfail : SM (LexState K) A).
Proof. done. Qed.
Lemma blind_bind {A B} (m : SM (LexState K) A) (k : A -> SM (LexState K) B) :
  blind m -> (forall a, blind (k a)) -> blind (rbind m k).
Proof.
  intros Hm Hk x l b a y Hp H. unfold rbind in H. destruct (m x) as [[a1 x1]|] eqn:E; [|done].
  destruct (Hm x l b a1 x1 Hp E) as [Hp1 [l1 E1]]. unfold rbind. rewrite E1. by apply Hk.
Qed.
Lemma blind_id {A} (k : LexState K -> SM (LexState K) A) :
  (forall x l b, k (moved l b x) = k x) -> (forall x, d_packComments x = true -> blind (k x)) -> blind (rbind (rget id) k).
Proof. intros Hk Hb x l b a y Hp H. unfold rbind, rget, id in *. rewrite Hk. by apply (Hb x Hp x). Qed.
Lemma blind_mod f : (forall x l b, exists l', f (moved l b x) = moved l' b (f x)) ->
  (forall x, d_packComments (f x) = d_packComments x) -> blind (rmod f).
Proof. intros Hf Hp x l b a y H [= <- <-]. split; [by rewrite Hp|]. destruct (Hf x l b) as [l' E]. exists l'. unfold rmod. by rewrite E. Qed.

Lemma blind_getSymbol s : blind (getSymbol s).
Proof.
  intros x l b a y Hp. unfold getSymbol. destruct s as [|c s]; [intros [= <- <-]; split; [done|by exists l]|].
  change (d_symbols (moved l b x)) with (d_symbols x). case_bool_decide; intros [= <- <-]; (split; [done|by exists l]).
Qed.

Lemma blind_report t : blind (report t).
Proof.
  apply blind_mod; [|by intros x; destruct (d_err x)]. intros x l b. simpl. destruct (d_err x), l; by eexists.
Qed.

Lemma blind_nextLine : blind nextLine.
Proof.
  intros x l b a y Hp. unfold nextLine. change (d_in (moved l b x)) with (d_in x). destruct (d_in x) as [s|]; [|done].
  destruct (read_line s). intros [= <- <-]. split; [done|by exists l].
Qed.

Lemma blind_atEnd : blind atEnd.
Proof.
  intros x l b a y Hp. unfold atEnd. change (d_in (moved l b x)) with (d_in x). destruct (d_in x) as [s|]; [|done].
  intros [= <- <-]. split; [done|by exists l].
Qed.
End Blind.

Create HintDb blind.
#[export] Hint Resolve blind_ret blind_fail blind_getSymbol blind_report blind_nextLine blind_atEnd : blind.

(** The parts of a computation one after the other. *)
Ltac blind :=
  repeat match goal with
  | |- blind (rbind (rget id) _) => apply blind_id; [reflexivity|intros ? ?; cbv beta]
  | |- blind (rbind _ _) => apply blind_bind; [|intros ?; cbv beta]
  | |- blind (rmod _) => apply blind_mod; [intros; eexists; reflexivity|reflexivity]
  | |- blind (let '(_, _) := ?a in _) => destruct a
  | |- blind (if ?c then _ else _) => destruct c
  | |- blind (match ?o with Some _ => _ | None => _ end) => destruct o
  | |- _ => solve [eauto with blind]
  | |- blind (let _ := _ in _) => cbv zeta
  end.

Section Blind2.
Context `{Kd : TokenKind K}.

Lemma blind_skip_loop n : blind (skip_loop (K := K) n).
Proof.
  induction n as [|n IH]; [done|]. intros x l b a y Hp. simpl. unfold line_size. simpl.
  destruct (_ && _); [exact (IH (set_col _ x) l b a y Hp)|]. intros [= <- <-]. split; [done|by exists l].
Qed.
Lemma blind_skip : blind (skipWhiteSpace (K := K)).
Proof. intros x l b a y. exact (blind_skip_loop _ x l b a y). Qed.

Lemma blind_token ty len v : blind (token ty len v).
Proof. unfold token. blind. Qed.
#[local] Hint Resolve blind_skip blind_token : blind.

Lemma blind_ident : blind ident.
Proof. unfold ident. blind. Qed.
Lemma blind_line_comment x : blind (line_comment x).
Proof. unfold line_comment. blind. Qed.
Lemma blind_comment_loop n e s : blind (comment_loop (K := K) n e s).
Proof. revert s. induction n as [|n IH]; intros s; [done|]. cbn [comment_loop]. blind. Qed.
#[local] Hint Resolve blind_comment_loop : blind.
Lemma blind_block_comment e : blind (block_comment e).
Proof. unfold block_comment. apply blind_id; [reflexivity|]. intros x H. rewrite H. cbn [negb]. blind. Qed.
Lemma blind_literal ch : blind (literal ch).
Proof. unfold literal. blind. Qed.
Lemma blind_line_loop n : blind (line_loop (K := K) n).
Proof. induction n as [|n IH]; [done|]. cbn [line_loop]. blind. Qed.
#[local] Hint Resolve blind_line_loop : blind.
Lemma blind_next_imp m : blind m -> blind (next_imp m).
Proof. intros Hm. unfold next_imp. blind. Qed.
End Blind2.
#[export] Hint Resolve blind_skip blind_token blind_ident blind_line_comment blind_comment_loop blind_block_comment blind_literal : blind.

(** ** The tokens of a text *)

Section Scanner.
Context `{Pk : ParserKind K} `{Tx : !TokenTexts K} `{Laws : !TokenLaws K} (token_here : SM (LexState K) (LexToken K)).
Hypothesis here_blind : blind token_here.
Hypothesis here_lexed : forall code ign, text_ok code -> forall k c x, at_pos code ign k c x ->
  0 <= c < Z.of_nat (length (code_line code k)) -> (k <= length code)%nat -> wp token_here (lexed code ign k c) x.
Abbreviation Token := (LexToken K).
Implicit Types (x y : LexState K) (r b es : list Token).

(** The tokens from here on, up to the end. *)
Fixpoint drain (n : nat) x : option (list Token) :=
  match n with
  | O => None
  | S n =>
      match next_imp token_here x with
      | Some (t, x') => if bool_decide (d_type t = k_eof) then Some [] else option_map (cons t) (drain n x')
      | None => None
      end
  end.

(** The tokens of the text [code] are [r]: those that are valid are what the text has at their positions, in their order. *)
Definition text_tokens (code : bytes) (k : nat) (c : Z) r : Prop :=
  Z.of_nat (length r) <= remaining code k c /\ Forall (fun t => d_type t <> k_eof) r /\
  exists ps, Forall2 (fun t p => isValid t = true -> token_start t = p /\ well_lexed code t) r ps /\
    Forall (pos_le (k, c)) ps /\ StronglySorted pos_lt ps.

Lemma drain_total code ign n k c x : text_ok code -> at_pos code ign k c x -> passed code k c -> remaining code k c < Z.of_nat n ->
  exists r, drain n x = Some r /\ text_tokens code k c r.
Proof using here_lexed Laws.
  intros Hok. revert k c x. induction n as [|n IH]; intros k c x Hx Hc Hn; [unfold remaining in Hn; lia|].
  assert (H : wp (next_imp token_here) (fun t x' => d_type t = k_eof \/ d_type t <> k_eof /\ exists k1 c1 k' c', at_pos code ign k' c' x' /\
    passed code k' c' /\ remaining code k' c' < remaining code k c /\ pos_le (k, c) (k1, c1) /\ pos_lt (k1, c1) (k', c') /\
    (isValid t = true -> token_start t = (k1, c1) /\ well_lexed code t)) x).
  { eapply (wp_next_imp code ign Hok token_here (here_lexed code ign Hok)); [done..|by left|].
    intros t k1 c1 k' c' x' Hne Hv ? ? ? ? ?. right. split; [done|]. exists k1, c1, k', c'. auto 10. }
  apply wp_Some in H as (t & x' & E & H). cbn [drain]. rewrite E. destruct H as [He|(Hne & k1 & c1 & k' & c' & Hx' & Hc' & Hr & Hle & Hlt & Hv)].
  - rewrite bool_decide_eq_true_2 by done. exists []. split; [done|]. split; [unfold remaining; simpl; lia|]. split; [done|].
    exists []. split; [done|]. split; constructor.
  - rewrite bool_decide_eq_false_2 by done. destruct (IH k' c' x' Hx' Hc' ltac:(lia)) as (r & -> & Hl & Hf & ps & Hps & Hge & Hs).
    exists (t :: r). split; [done|]. split; [simpl length; lia|]. split; [by constructor|]. exists ((k1, c1) :: ps).
    assert (Hp : Forall (pos_lt (k1, c1)) ps).
    { eapply Forall_impl; [exact Hge|]. intros p. unfold pos_le, pos_lt in *. simpl in *. lia. }
    split; [by constructor|]. split; constructor; try done.
    eapply Forall_impl; [exact Hp|]. intros p. unfold pos_le, pos_lt in *. simpl in *. lia.
Qed.

Lemma drain_same n n' x r r' : drain n x = Some r -> drain n' x = Some r' -> r = r'.
Proof using Type.
  revert n' x r r'. induction n as [|n IH]; intros [|n'] x r r'; try done. cbn [drain].
  destruct (next_imp token_here x) as [[t x']|]; [|done]. case_bool_decide; [congruence|].
  destruct (drain n x') eqn:E, (drain n' x') eqn:E'; try done. intros [= <-] [= <-]. f_equal. by eapply IH.
Qed.

(** A lexer with an empty buffer in front of the tokens [r]. *)
Definition coming x r : Prop :=
  exists code ign k c n, text_ok code /\ at_pos code ign k c x /\ passed code k c /\ drain n x = Some r.

Lemma coming_next x r : coming x r -> exists t x', next_imp token_here x = Some (t, x') /\
  match r with [] => d_type t = k_eof /\ coming x' [] | t0 :: r => t = t0 /\ d_type t <> k_eof /\ coming x' r end.
Proof using here_lexed Laws.
  intros (code & ign & k & c & n & Hok & Hx & Hc & Hd).
  assert (H : wp (next_imp token_here) (fun t x' => exists k' c', at_pos code ign k' c' x' /\ passed code k' c' /\
    (d_type t = k_eof -> remaining code k' c' = 0)) x).
  { eapply (wp_next_imp code ign Hok token_here (here_lexed code ign Hok)); [done..| |].
    - intros t k' c' x' _ Hx' Hp' Hl Hr. exists k', c'. split; [done|]. split; [done|]. intros _. unfold remaining. rewrite Hr. simpl. lia.
    - intros t k1 c1 k' c' x' Hne _ ? ? _ _ _. exists k', c'. split; [done|]. split; [done|]. done. }
  apply wp_Some in H as (t & x' & E & k' & c' & Hx' & Hc' & He). exists t, x'. split; [done|].
  destruct n as [|n]; [done|]. cbn [drain] in Hd. rewrite E in Hd. case_bool_decide as Ht.
  - injection Hd as <-. split; [done|]. destruct (drain_total code ign 1 k' c' x' Hok Hx' Hc' ltac:(rewrite (He Ht); lia)) as (r & Hr & Hl & _).
    rewrite (He Ht) in Hl. destruct r; [|simpl in Hl; lia]. by exists code, ign, k', c', 1%nat.
  - destruct (drain n x') as [r'|] eqn:Er; [|done]. injection Hd as <-. split; [done|]. split; [done|]. by exists code, ign, k', c', n.
Qed.

(** There are no more tokens than characters. *)
Lemma coming_length x r : coming x r -> (length r <= device_size x + length (d_line x))%nat.
Proof using here_lexed Laws.
  intros (code & ign & k & c & n & Hok & Hx & Hc & Hd).
  destruct (drain_total code ign (S (Z.to_nat (remaining code k c))) k c x Hok Hx Hc ltac:(lia)) as (r' & Hd' & Hl & _).
  rewrite (drain_same _ _ _ _ _ Hd Hd'). unfold device_size. rewrite (at_in _ _ _ _ _ Hx), (at_line _ _ _ _ _ Hx).
  unfold remaining in Hl. destruct Hc as [_ Hc]. lia.
Qed.

(** The lexer with the tokens [b] and ends [es] in its buffer. *)
Definition waiting x (b es r : list Token) : Prop := exists y l, x = moved l (b ++ es) y /\ coming y r /\
  Forall (fun t => d_type t <> k_eof) b /\ Forall (fun t => d_type t = k_eof) es /\ (es <> [] -> r = []).
Definition lexer_ahead x (ts : list Token) : Prop := exists b es r, waiting x b es r /\ ts = b ++ r.

Lemma moved_next l b y t y' : d_packComments y = true -> next_imp token_here y = Some (t, y') ->
  exists l', next_imp token_here (moved l b y) = Some (t, moved l' b y').
Proof using here_blind. intros Hp H. by destruct (blind_next_imp _ here_blind y l b t y' Hp H). Qed.

Lemma coming_pack y r : coming y r -> d_packComments y = true.
Proof. intros (code & ign & k & c & n & _ & [] & _). done. Qed.

(** One more token is read. *)
Lemma waiting_fill x b es r : waiting x b es r -> exists t x', next_imp token_here x = Some (t, x') /\ d_buffer x' = b ++ es /\
  exists b' es' r', waiting (set_buffer (d_buffer x' ++ [t]) x') b' es' r' /\ b ++ r = b' ++ r' /\ b' ++ es' = b ++ es ++ [t].
Proof using here_blind here_lexed Laws.
  intros (y & l & -> & Hc & Hb & He & Hr). destruct (coming_next y r Hc) as (t & y' & E & Ht).
  pose proof (coming_pack y r Hc) as Hp. destruct (moved_next l (b ++ es) y t y' Hp E) as [l' E'].
  exists t, (moved l' (b ++ es) y'). split; [done|]. split; [done|].
  assert (Hset : forall bs, set_buffer bs (moved l' (b ++ es) y') = moved l' bs y') by done.
  destruct r as [|t0 r].
  - destruct Ht as [Ht Hc']. exists b, (es ++ [t]), []. split; [|done]. exists y', l'.
    rewrite Hset. split; [simpl; by rewrite app_assoc|]. split; [done|]. split; [done|]. split; [|done].
    apply Forall_app. split; [done|by constructor].
  - destruct Ht as (<- & Hne & Hc'). destruct es as [|e es]; [|by specialize (Hr ltac:(done))]. exists (b ++ [t]), [], r.
    split; [|split; [by rewrite <- app_assoc|by rewrite app_nil_r]]. exists y', l'. rewrite Hset. split; [simpl; by rewrite !app_nil_r|].
    split; [done|]. split; [|done]. apply Forall_app. split; [done|by constructor].
Qed.

Lemma waiting_err l x b es r : waiting x b es r -> waiting (set_err l x) b es r.
Proof using Type. intros (y & l0 & -> & H). by exists y, l. Qed.

Lemma waiting_buffer x b es r : waiting x b es r -> d_buffer x = b ++ es.
Proof using Type. by intros (y & l & -> & _). Qed.

(** A token from the buffer or from the text. *)
Lemma waiting_take x b es r : waiting x b es r -> exists t x',
  match d_buffer x with t :: l => _ <~ rmod (set_buffer l); rret t | [] => next_imp token_here end x = Some (t, x') /\
  exists b' es' r', waiting x' b' es' r' /\ match b ++ r with [] => d_type t = k_eof /\ b' ++ r' = [] | t0 :: ts => t = t0 /\ b' ++ r' = ts end.
Proof using here_blind here_lexed Laws.
  intros Hw. rewrite (waiting_buffer _ _ _ _ Hw). destruct Hw as (y & l & -> & Hc & Hb & He & Hr). destruct b as [|t b].
  - destruct es as [|t es].
    + destruct (coming_next y r Hc) as (t & y' & E & Ht). pose proof (coming_pack y r Hc) as Hp.
      destruct (moved_next l [] y t y' Hp E) as [l' E2]. exists t, (moved l' [] y'). split; [exact E2|]. exists [], [].
      destruct r as [|t0 r]; [destruct Ht as [Ht Hc']; exists []|destruct Ht as (-> & _ & Hc'); exists r];
        (split; [by exists y', l'|done]).
    + rewrite (Hr ltac:(done)) in *. inversion He; subst. exists t, (moved l es y). split; [done|]. exists [], es, [].
      split; [by exists y, l|done].
  - inversion Hb; subst. exists t, (moved l (b ++ es) y). split; [done|]. exists b, es, r. split; [by exists y, l|done].
Qed.

(** The next token; comments are left out if wanted. *)
Lemma lexer_next n x b es r : waiting x b es r -> (length (b ++ r) < n)%nat ->
  exists t x' cs ts, next_skip token_here n x = Some (t, x') /\ b ++ r = cs ++ ts /\ Forall (fun t => d_type t = k_comment) cs /\
    match ts with [] => d_type t = k_eof /\ lexer_ahead x' [] | t0 :: ts => t = t0 /\ lexer_ahead x' ts end.
Proof using here_blind here_lexed Laws.
  revert x b es r. induction n as [|n IH]; intros x b es r Hw Hn; [lia|]. cbn [next_skip].
  destruct (waiting_take x b es r Hw) as (t & x' & E & b' & es' & r' & Hw' & Ht). unfold rbind at 1, rget, id.
  unfold rbind. unfold rbind in E. rewrite E. clear E.
  destruct (bool_decide (d_type t = k_comment) && d_ignoreComments x) eqn:Ec.
  - apply andb_true_iff in Ec as [Ec _]. apply bool_decide_eq_true in Ec. destruct (b ++ r) as [|t0 ts].
    { destruct Ht as [Ht _]. destruct s_name_valid as (_ & _ & _ & Hne). congruence. }
    destruct Ht as [-> <-]. destruct (IH x' b' es' r' Hw') as (t1 & x1 & cs & ts & E & Ets & Hcs & Hts); [simpl in Hn; lia|].
    exists t1, x1, (t0 :: cs), ts. split; [done|]. split; [by rewrite Ets|]. split; [by constructor|done].
  - exists t, x', [], (b ++ r). split; [done|]. split; [done|]. split; [done|].
    destruct (b ++ r) as [|t0 ts]; destruct Ht as [? <-]; (split; [done|]); by exists b', es', r'.
Qed.

Lemma lexer_fill n x b es r : waiting x b es r -> exists x' b' es' r', fill_buffer token_here n x = Some (tt, x') /\
  waiting x' b' es' r' /\ b ++ r = b' ++ r' /\ length (b' ++ es') = (length (b ++ es) + n)%nat.
Proof using here_blind here_lexed Laws.
  revert x b es r. induction n as [|n IH]; intros x b es r Hw.
  { exists x, b, es, r. split; [done|]. split; [done|]. split; [done|lia]. }
  destruct (waiting_fill x b es r Hw) as (t & x' & E & Hb & b1 & es1 & r1 & Hw1 & E1 & E2).
  destruct (IH _ _ _ _ Hw1) as (x2 & b2 & es2 & r2 & F & Hw2 & E3 & E4). exists x2, b2, es2, r2.
  split; [cbn [fill_buffer]; unfold rbind, rmod; by rewrite E|]. split; [done|]. split; [congruence|].
  rewrite E4, E2, !length_app. simpl. lia.
Qed.

(** A token ahead. *)
Lemma lexer_peek i x ts : lexer_ahead x ts -> exists t x', peek_ahead token_here (S i) x = Some (t, x') /\ lexer_ahead x' ts /\
  match ts !! i with Some t0 => t = t0 | None => d_type t = k_eof end.
Proof using here_blind here_lexed Laws.
  intros (b & es & r & Hw & ->). pose proof (waiting_buffer _ _ _ _ Hw) as Hbuf.
  destruct (lexer_fill (S i - length (b ++ es)) x b es r Hw) as (x' & b' & es' & r' & F & Hw' & E & El).
  pose proof (waiting_buffer _ _ _ _ Hw') as Hbuf'. unfold peek_ahead, rbind, rget, id. rewrite Hbuf, F, Hbuf'.
  destruct (lookup_lt_is_Some_2 (b' ++ es') i ltac:(lia)) as [t Ht]. rewrite Ht. exists t, x'. split; [done|].
  split; [by exists b', es', r'|]. rewrite E. destruct Hw' as (y & l & _ & _ & Hb & He & Hr).
  apply lookup_app_Some in Ht as [Ht|[Hle Ht]]; [by rewrite (lookup_app_l_Some _ _ _ _ Ht)|].
  rewrite (Hr ltac:(by intros ->)), app_nil_r, lookup_ge_None_2 by done. exact (Forall_lookup_1 _ _ _ _ He Ht).
Qed.

(** The list of the errors is shared. *)
Lemma with_errors_grows {A} (f : SM (LexState K) A) x e a x' : f (set_err (Some []) x) = Some (a, x') ->
  exists e', with_errors f (x, Some e) = Some (a, (x', e')) /\ grows (Some e) e'.
Proof using Type.
  intros E. unfold with_errors, with_errors_of. rewrite E. eexists. split; [done|]. destruct (d_err x') as [l|]; [|apply g_refl].
  induction l as [|r l IH]; [apply g_refl|]. simpl. eapply more_errors_trans; [exact IH|apply grows_one].
Qed.

Lemma ahead_err l x ts : lexer_ahead x ts -> lexer_ahead (set_err l x) ts.
Proof using Type. intros (b & es & r & Hw & ->). exists b, es, r. split; [by apply waiting_err|done]. Qed.

Lemma drain_no_eof n x r : drain n x = Some r -> Forall (fun t => d_type t <> k_eof) r.
Proof using Type.
  revert x r. induction n as [|n IH]; intros x r; [done|]. cbn [drain]. destruct (next_imp token_here x) as [[t x']|]; [|done].
  case_bool_decide; [by intros [= <-]|]. destruct (drain n x') as [r'|] eqn:E; [|done]. intros [= <-]. constructor; [done|by eapply IH].
Qed.

Lemma lexer_ahead_no_eof x ts : lexer_ahead x ts -> Forall (fun t => d_type t <> k_eof) ts.
Proof using Type.
  intros (b & es & r & (y & l & _ & (code & ign & k & c & n & _ & _ & _ & Hd) & Hb & _) & ->). apply Forall_app. split; [done|].
  by eapply drain_no_eof.
Qed.

(** *** A lexer that a parser reads *)
Definition reading_fuel x : nat := S (length (d_buffer x) + device_size x + length (d_line x)).

Lemma scanner_laws :
  @ScannerLaws (LexState K) K Pk {| sc_next := with_errors (fun x => next_skip token_here (reading_fuel x) x);
    sc_peek i := with_errors (peek_ahead token_here (Z.to_nat i)) |}.
Proof using here_blind here_lexed Laws.
  refine {| ahead := lexer_ahead : _ -> _ -> Prop |}.
  - apply lexer_ahead_no_eof.
  - intros x e ts Ha. apply (ahead_err (Some [])) in Ha. destruct Ha as (b & es & r & Hw & ->).
    assert (Hn : (length (b ++ r) < reading_fuel (set_err (Some []) x))%nat).
    { unfold reading_fuel. rewrite (waiting_buffer _ _ _ _ Hw). destruct Hw as (y & l & -> & Hc & _).
      pose proof (coming_length y r Hc). rewrite !length_app. change (device_size (moved l (b ++ es) y)) with (device_size y). simpl. lia. }
    destruct (lexer_next _ _ b es r Hw Hn) as (t & x' & cs & ts & E & Ets & Hcs & Ht).
    destruct (with_errors_grows (fun x => next_skip token_here (reading_fuel x) x) x e t x' E) as (e' & E' & Hg).
    exists t, x', e'. split; [done|]. split; [done|]. by exists cs, ts.
  - intros x e ts i Ha Hi. destruct (lexer_peek (Z.to_nat (i - 1)) _ _ (ahead_err (Some []) x ts Ha)) as (t & x' & E & Ha' & Ht).
    replace (S (Z.to_nat (i - 1))) with (Z.to_nat i) in E by lia.
    destruct (with_errors_grows _ x e t x' E) as (e' & E' & Hg). by exists t, x', e'.
Defined.

(** The lexer at the start of a text. *)
Lemma stream_ahead code path x : text_ok code -> d_line x = [] -> d_buffer x = [] -> d_packComments x = true ->
  exists x' ts, setStream code path x = Some (tt, x') /\ lexer_ahead x' ts /\ text_tokens code 0 0 ts.
Proof using here_blind here_lexed Laws.
  intros Hok H1 H2 H3. unfold setStream, rbind, rmod at 1.
  match goal with |- context [getSymbol path ?y] => destruct (getSymbol_val path y) as [l ->] end. unfold rmod.
  eexists. match goal with |- context [Some (tt, ?y)] => set (x0 := y) end.
  assert (Hx : at_pos code (d_ignoreComments x) 0 0 x0) by by split.
  assert (Hp : passed code 0 0) by (split; unfold code_line; simpl; lia).
  destruct (drain_total code _ (S (length code)) 0 0 x0 Hok Hx Hp) as (r & Hr & Ht); [unfold remaining, code_line; simpl; lia|].
  exists r. split; [done|]. split; [|done]. exists [], [], r. split; [|done]. exists x0, (d_err x0). split; [apply moved_same, Hx|].
  split; [|done]. by exists code, (d_ignoreComments x), 0%nat, 0, (S (length code)).
Qed.
End Scanner.
