(* ===== verification/LuaToken.v ===== *)
(** * Tokens of Lua

    [TokenType] and [Token] of [LuaTokenType.h/.cpp] and [LuaToken.h]: the texts and
    classes of the tokens, and [tokenTypeFromString]. *)

From S2P Require Import Prelude TokenTree LexCore.
From Stdlib Require Import Strings.Byte.
Local Open Scope Z_scope.

(** [src/LuaTokenType.h:9-77] TokenType *)
Inductive TokenType : Type :=
  | Tok_Invalid | TT_Literals | Tok_Hash | Tok_Percent | Tok_Lpar | Tok_Rpar | Tok_Star | Tok_Plus
  | Tok_Comma | Tok_Minus | Tok_2Minus | Tok_2MinusLbrack | Tok_Dot | Tok_2Dot | Tok_3Dot
  | Tok_Slash | Tok_Colon | Tok_Semi | Tok_Lt | Tok_Leq | Tok_Eq | Tok_2Eq | Tok_Gt | Tok_Geq
  | Tok_Lbrack | Tok_Rbrack | Tok_Rbrack2Minus | Tok_Hat | Tok_Lbrace | Tok_Rbrace | Tok_TildeEq
  | TT_Keywords | Tok_and | Tok_break | Tok_do | Tok_else | Tok_elseif | Tok_end | Tok_false
  | Tok_for | Tok_function | Tok_if | Tok_in | Tok_local | Tok_nil | Tok_not | Tok_or | Tok_repeat
  | Tok_return | Tok_then | Tok_true | Tok_until | Tok_while | TT_Specials | Tok_Name | Tok_Number
  | Tok_String | Tok_Comment | Tok_Designator | Tok_Eof | TT_MaxToken | TT_Max.

#[export] Instance TokenType_eq_dec : EqDecision TokenType.
Proof. solve_decision. Defined.

(** The constants in the order of the enumeration. *)
Definition all_types : list TokenType := [
  Tok_Invalid; TT_Literals; Tok_Hash; Tok_Percent; Tok_Lpar; Tok_Rpar; Tok_Star; Tok_Plus;
  Tok_Comma; Tok_Minus; Tok_2Minus; Tok_2MinusLbrack; Tok_Dot; Tok_2Dot; Tok_3Dot; Tok_Slash;
  Tok_Colon; Tok_Semi; Tok_Lt; Tok_Leq; Tok_Eq; Tok_2Eq; Tok_Gt; Tok_Geq; Tok_Lbrack; Tok_Rbrack;
  Tok_Rbrack2Minus; Tok_Hat; Tok_Lbrace; Tok_Rbrace; Tok_TildeEq; TT_Keywords; Tok_and; Tok_break;
  Tok_do; Tok_else; Tok_elseif; Tok_end; Tok_false; Tok_for; Tok_function; Tok_if; Tok_in;
  Tok_local; Tok_nil; Tok_not; Tok_or; Tok_repeat; Tok_return; Tok_then; Tok_true; Tok_until;
  Tok_while; TT_Specials; Tok_Name; Tok_Number; Tok_String; Tok_Comment; Tok_Designator; Tok_Eof;
  TT_MaxToken; TT_Max].

(** [src/LuaTokenType.cpp:5-66] tokenTypeString *)
Definition tokenTypeString (r : TokenType) : bytes :=
  match r with
  | Tok_Invalid => qb "<invalid>" | Tok_Hash => qb "#" | Tok_Percent => qb "%" | Tok_Lpar => qb "("
  | Tok_Rpar => qb ")" | Tok_Star => qb "*" | Tok_Plus => qb "+" | Tok_Comma => qb ","
  | Tok_Minus => qb "-" | Tok_2Minus => qb "--" | Tok_2MinusLbrack => qb "--[" | Tok_Dot => qb "."
  | Tok_2Dot => qb ".." | Tok_3Dot => qb "..." | Tok_Slash => qb "/" | Tok_Colon => qb ":"
  | Tok_Semi => qb ";" | Tok_Lt => qb "<" | Tok_Leq => qb "<=" | Tok_Eq => qb "="
  | Tok_2Eq => qb "==" | Tok_Gt => qb ">" | Tok_Geq => qb ">=" | Tok_Lbrack => qb "["
  | Tok_Rbrack => qb "]" | Tok_Rbrack2Minus => qb "]--" | Tok_Hat => qb "^" | Tok_Lbrace => qb "{"
  | Tok_Rbrace => qb "}" | Tok_TildeEq => qb "~=" | Tok_and => qb "and" | Tok_break => qb "break"
  | Tok_do => qb "do" | Tok_else => qb "else" | Tok_elseif => qb "elseif" | Tok_end => qb "end"
  | Tok_false => qb "false" | Tok_for => qb "for" | Tok_function => qb "function"
  | Tok_if => qb "if" | Tok_in => qb "in" | Tok_local => qb "local" | Tok_nil => qb "nil"
  | Tok_not => qb "not" | Tok_or => qb "or" | Tok_repeat => qb "repeat" | Tok_return => qb "return"
  | Tok_then => qb "then" | Tok_true => qb "true" | Tok_until => qb "until"
  | Tok_while => qb "while" | Tok_Name => qb "Name" | Tok_Number => qb "Number"
  | Tok_String => qb "String" | Tok_Comment => qb "Comment" | Tok_Designator => qb "Designator"
  | Tok_Eof => qb "<eof>"
  | _ => []
  end.

(** [src/LuaTokenType.cpp:67-128] tokenTypeName *)
Definition tokenTypeName (r : TokenType) : bytes :=
  match r with
  | Tok_Invalid => qb "Tok_Invalid" | Tok_Hash => qb "Tok_Hash" | Tok_Percent => qb "Tok_Percent"
  | Tok_Lpar => qb "Tok_Lpar" | Tok_Rpar => qb "Tok_Rpar" | Tok_Star => qb "Tok_Star"
  | Tok_Plus => qb "Tok_Plus" | Tok_Comma => qb "Tok_Comma" | Tok_Minus => qb "Tok_Minus"
  | Tok_2Minus => qb "Tok_2Minus" | Tok_2MinusLbrack => qb "Tok_2MinusLbrack"
  | Tok_Dot => qb "Tok_Dot" | Tok_2Dot => qb "Tok_2Dot" | Tok_3Dot => qb "Tok_3Dot"
  | Tok_Slash => qb "Tok_Slash" | Tok_Colon => qb "Tok_Colon" | Tok_Semi => qb "Tok_Semi"
  | Tok_Lt => qb "Tok_Lt" | Tok_Leq => qb "Tok_Leq" | Tok_Eq => qb "Tok_Eq"
  | Tok_2Eq => qb "Tok_2Eq" | Tok_Gt => qb "Tok_Gt" | Tok_Geq => qb "Tok_Geq"
  | Tok_Lbrack => qb "Tok_Lbrack" | Tok_Rbrack => qb "Tok_Rbrack"
  | Tok_Rbrack2Minus => qb "Tok_Rbrack2Minus" | Tok_Hat => qb "Tok_Hat"
  | Tok_Lbrace => qb "Tok_Lbrace" | Tok_Rbrace => qb "Tok_Rbrace" | Tok_TildeEq => qb "Tok_TildeEq"
  | Tok_and => qb "Tok_and" | Tok_break => qb "Tok_break" | Tok_do => qb "Tok_do"
  | Tok_else => qb "Tok_else" | Tok_elseif => qb "Tok_elseif" | Tok_end => qb "Tok_end"
  | Tok_false => qb "Tok_false" | Tok_for => qb "Tok_for" | Tok_function => qb "Tok_function"
  | Tok_if => qb "Tok_if" | Tok_in => qb "Tok_in" | Tok_local => qb "Tok_local"
  | Tok_nil => qb "Tok_nil" | Tok_not => qb "Tok_not" | Tok_or => qb "Tok_or"
  | Tok_repeat => qb "Tok_repeat" | Tok_return => qb "Tok_return" | Tok_then => qb "Tok_then"
  | Tok_true => qb "Tok_true" | Tok_until => qb "Tok_until" | Tok_while => qb "Tok_while"
  | Tok_Name => qb "Tok_Name" | Tok_Number => qb "Tok_Number" | Tok_String => qb "Tok_String"
  | Tok_Comment => qb "Tok_Comment" | Tok_Designator => qb "Tok_Designator"
  | Tok_Eof => qb "Tok_Eof"
  | _ => []
  end.

(** [src/LuaTokenType.cpp:375-425] tokenTypeFromString *)
Definition from_string_2 (str : bytes) (i : Z) : option (TokenType * Z) :=
  if is_ str i 0 "t" then (if is_ str i 1 "h" then (if is_ str i 2 "e" then if is_ str i 3 "n" then Some (Tok_then, 4)
        else None
      else None)
    else if is_ str i 1 "r" then (if is_ str i 2 "u" then if is_ str i 3 "e" then Some (Tok_true, 4)
        else None
      else None)
    else None)
  else if is_ str i 0 "u" then (if is_ str i 1 "n" then if is_ str i 2 "t" then if is_ str i 3 "i" then if is_ str i 4 "l" then Some (Tok_until, 5)
          else None
        else None
      else None
    else None)
  else if is_ str i 0 "w" then (if is_ str i 1 "h" then if is_ str i 2 "i" then if is_ str i 3 "l" then if is_ str i 4 "e" then Some (Tok_while, 5)
          else None
        else None
      else None
    else None)
  else if is_ str i 0 "{" then Some (Tok_Lbrace, 1)
  else if is_ str i 0 "}" then Some (Tok_Rbrace, 1)
  else if is_ str i 0 "~" then (if is_ str i 1 "=" then Some (Tok_TildeEq, 2)
    else None)
  else None.

(** [src/LuaTokenType.cpp:256-374] tokenTypeFromString *)
Definition from_string_1 (str : bytes) (i : Z) : option (TokenType * Z) :=
  if is_ str i 0 "e" then (if is_ str i 1 "l" then (if is_ str i 2 "s" then if is_ str i 3 "e" then if is_ str i 4 "i" then if is_ str i 5 "f" then Some (Tok_elseif, 6)
            else None
          else Some (Tok_else, 4)
        else None
      else None)
    else if is_ str i 1 "n" then (if is_ str i 2 "d" then Some (Tok_end, 3)
      else None)
    else None)
  else if is_ str i 0 "f" then (if is_ str i 1 "a" then (if is_ str i 2 "l" then if is_ str i 3 "s" then if is_ str i 4 "e" then Some (Tok_false, 5)
          else None
        else None
      else None)
    else if is_ str i 1 "o" then (if is_ str i 2 "r" then Some (Tok_for, 3)
      else None)
    else if is_ str i 1 "u" then (if is_ str i 2 "n" then if is_ str i 3 "c" then if is_ str i 4 "t" then if is_ str i 5 "i" then if is_ str i 6 "o" then if is_ str i 7 "n" then Some (Tok_function, 8)
                else None
              else None
            else None
          else None
        else None
      else None)
    else None)
  else if is_ str i 0 "i" then (if is_ str i 1 "f" then Some (Tok_if, 2)
    else if is_ str i 1 "n" then Some (Tok_in, 2)
    else None)
  else if is_ str i 0 "l" then (if is_ str i 1 "o" then if is_ str i 2 "c" then if is_ str i 3 "a" then if is_ str i 4 "l" then Some (Tok_local, 5)
          else None
        else None
      else None
    else None)
  else if is_ str i 0 "n" then (if is_ str i 1 "i" then (if is_ str i 2 "l" then Some (Tok_nil, 3)
      else None)
    else if is_ str i 1 "o" then (if is_ str i 2 "t" then Some (Tok_not, 3)
      else None)
    else None)
  else if is_ str i 0 "o" then (if is_ str i 1 "r" then Some (Tok_or, 2)
    else None)
  else if is_ str i 0 "r" then (if is_ str i 1 "e" then if is_ str i 2 "p" then (if is_ str i 3 "e" then if is_ str i 4 "a" then if is_ str i 5 "t" then Some (Tok_repeat, 6)
            else None
          else None
        else None)
      else if is_ str i 2 "t" then (if is_ str i 3 "u" then if is_ str i 4 "r" then if is_ str i 5 "n" then Some (Tok_return, 6)
            else None
          else None
        else None)
      else None
    else None)
  else from_string_2 str i.

(** [src/LuaTokenType.cpp:145-255] tokenTypeFromString *)
Definition from_string (str : bytes) (i : Z) : option (TokenType * Z) :=
  if is_ str i 0 "#" then Some (Tok_Hash, 1)
  else if is_ str i 0 "%" then Some (Tok_Percent, 1)
  else if is_ str i 0 "(" then Some (Tok_Lpar, 1)
  else if is_ str i 0 ")" then Some (Tok_Rpar, 1)
  else if is_ str i 0 "*" then Some (Tok_Star, 1)
  else if is_ str i 0 "+" then Some (Tok_Plus, 1)
  else if is_ str i 0 "," then Some (Tok_Comma, 1)
  else if is_ str i 0 "-" then (if is_ str i 1 "-" then if is_ str i 2 "[" then Some (Tok_2MinusLbrack, 3)
      else Some (Tok_2Minus, 2)
    else Some (Tok_Minus, 1))
  else if is_ str i 0 "." then (if is_ str i 1 "." then if is_ str i 2 "." then Some (Tok_3Dot, 3)
      else Some (Tok_2Dot, 2)
    else Some (Tok_Dot, 1))
  else if is_ str i 0 "/" then Some (Tok_Slash, 1)
  else if is_ str i 0 ":" then Some (Tok_Colon, 1)
  else if is_ str i 0 ";" then Some (Tok_Semi, 1)
  else if is_ str i 0 "<" then (if is_ str i 1 "=" then Some (Tok_Leq, 2)
    else Some (Tok_Lt, 1))
  else if is_ str i 0 "=" then (if is_ str i 1 "=" then Some (Tok_2Eq, 2)
    else Some (Tok_Eq, 1))
  else if is_ str i 0 ">" then (if is_ str i 1 "=" then Some (Tok_Geq, 2)
    else Some (Tok_Gt, 1))
  else if is_ str i 0 "[" then Some (Tok_Lbrack, 1)
  else if is_ str i 0 "]" then (if is_ str i 1 "-" then if is_ str i 2 "-" then Some (Tok_Rbrack2Minus, 3)
      else None
    else Some (Tok_Rbrack, 1))
  else if is_ str i 0 "^" then Some (Tok_Hat, 1)
  else if is_ str i 0 "a" then (if is_ str i 1 "n" then if is_ str i 2 "d" then Some (Tok_and, 3)
      else None
    else None)
  else if is_ str i 0 "b" then (if is_ str i 1 "r" then if is_ str i 2 "e" then if is_ str i 3 "a" then if is_ str i 4 "k" then Some (Tok_break, 5)
          else None
        else None
      else None
    else None)
  else if is_ str i 0 "d" then (if is_ str i 1 "o" then Some (Tok_do, 2)
    else None)
  else from_string_1 str i.

(** The type of the token at [pos], and the position after it; [pos] stays where it is
    when there is none.
    [src/LuaTokenType.cpp:140-144] tokenTypeFromString *)
Definition tokenTypeFromString (str : bytes) (pos : Z) : TokenType * Z :=
  match from_string str pos with
  | Some (t, n) => (t, pos + n)
  | None => (Tok_Invalid, pos)
  end.

Definition tt_val (t : TokenType) : Z :=
  match list_find (fun t' => t' = t) all_types with Some (i, _) => Z.of_nat i | None => 0 end.

(** [src/LuaTokenType.cpp:128-130] tokenTypeIsLiteral *)
Definition tokenTypeIsLiteral (t : TokenType) : bool := (tt_val TT_Literals <? tt_val t) && (tt_val t <? tt_val TT_Keywords).
(** [src/LuaTokenType.cpp:131-133] tokenTypeIsKeyword *)
Definition tokenTypeIsKeyword (t : TokenType) : bool := (tt_val TT_Keywords <? tt_val t) && (tt_val t <? tt_val TT_Specials).
(** [src/LuaTokenType.cpp:134-136] tokenTypeIsSpecial *)
Definition tokenTypeIsSpecial (t : TokenType) : bool := (tt_val TT_Specials <? tt_val t) && (tt_val t <? tt_val TT_Max).

Abbreviation Token := (LexToken TokenType).

#[export] Instance Lua_kind : TokenKind TokenType := {|
  kind_eq_dec := TokenType_eq_dec;
  k_invalid := Tok_Invalid; k_eof := Tok_Eof; k_name := Tok_Name; k_comment := Tok_Comment;
  k_lcmt := Tok_2MinusLbrack; k_rcmt := Tok_Rbrack2Minus;
  k_from_string := tokenTypeFromString
|}.

(** ** What [tokenTypeFromString] recognises *)

(** The literals and the keywords. *)
Definition fixed_tokens : list TokenType :=
  filter (fun t => tokenTypeIsLiteral t || tokenTypeIsKeyword t) all_types.

(** Texts that are not recognised although they start with a token. *)
Definition holes : list bytes := [qb "]-"; qb "elsei"].

Definition lua_tree : tree TokenType :=
  ltac:(let t := eval cbv beta delta [from_string from_string_1 from_string_2] in (from_string [] 0) in
        let tr := tree_of TokenType t in exact tr).

Lemma from_string_eval str i : from_string str i = eval lua_tree str i.
Proof. reflexivity. Qed.

Lemma lua_tree_check : check fixed_tokens tokenTypeString holes lua_tree [] [] = true.
Proof. vm_compute. reflexivity. Qed.

Lemma fixed_nonzero t : t ∈ fixed_tokens -> Forall (fun c => c <> x00) (tokenTypeString t) /\ tokenTypeString t <> [].
Proof.
  intros Ht. assert (Hall : Forall (fun t => Forall (fun c => c <> x00) (tokenTypeString t) /\
    tokenTypeString t <> []) fixed_tokens) by by_decide.
  rewrite Forall_forall in Hall. by apply Hall.
Qed.

Lemma found_fixed str i t n : from_string str i = Some (t, n) -> t ∈ fixed_tokens.
Proof.
  unfold from_string, from_string_1, from_string_2. intros H.
  assert (Hall : Forall (fun t => bool_decide (t ∈ fixed_tokens) = true) fixed_tokens) by by_decide.
  repeat match type of H with (if ?b then _ else _) = _ => destruct b end;
    try discriminate; injection H as <- <-; by_decide.
Qed.

Lemma from_string_recognises str i :
  recognises fixed_tokens tokenTypeString holes (from_string str i) str i.
Proof.
  rewrite from_string_eval.
  apply (check_sound fixed_tokens tokenTypeString holes str i lua_tree [] []); [constructor..|apply lua_tree_check].
Qed.

Lemma invalid_not_fixed : Tok_Invalid ∉ fixed_tokens.
Proof. by_decide. Qed.


(** A closing bracket directly before a minus sign is not recognised. *)
Remark rbrack_minus_invalid : tokenTypeFromString (qb "]-1") 0 = (Tok_Invalid, 0).
Proof. reflexivity. Qed.

(** A whole string is a literal or keyword exactly when it is its text. *)
Lemma whole_token str t :
  t ∈ fixed_tokens ->
  (tokenTypeFromString str 0 = (t, Z.of_nat (length str)) <-> str = tokenTypeString t).
Proof.
  intros Ht. split.
  - intros H. unfold tokenTypeFromString in H. pose proof (from_string_recognises str 0) as Hr.
    destruct (from_string str 0) as [[t' n]|]; [|injection H as <-; by destruct invalid_not_fixed].
    injection H as <- Hn. destruct Hr as (-> & Hat & _).
    apply (text_at_slice str 0) in Hat; [|by apply fixed_nonzero].
    assert (length str = length (tokenTypeString t')) as E by lia.
    by rewrite drop_0, <- E, firstn_all in Hat.
  - intros ->. assert (Hall : Forall (fun t => tokenTypeFromString (tokenTypeString t) 0 =
      (t, Z.of_nat (length (tokenTypeString t)))) fixed_tokens) by by_decide.
    rewrite Forall_forall in Hall. by apply Hall.
Qed.
