(* ===== verification/LuaLexer.v ===== *)
(** * The lexer of Lua

    What [Lexer] of [LuaLexer.h/.cpp] does not have in common with the lexer of the
    assembler: numbers, the starts of comments, strings, and which token starts with a
    character. *)

From S2P Require Import Prelude TokenTree LexCore LuaToken.
From Stdlib Require Import Strings.Byte.
Local Open Scope Z_scope.
Local Open Scope rd_scope.

(** ** Characters *)

(** [src/LuaLexer.cpp:297-301] isHexDigit *)
Definition isHexDigit (c : byte) : bool := isdigit c || in_range "A" "F" c || in_range "a" "f" c.

Abbreviation Lexer := (LexState TokenType).
Abbreviation LM := (SM Lexer).

(** [src/LuaLexer.cpp:303-371] number *)
Definition number : LM Token :=
  x <~ rget id;
  let off := scan x isdigit 1 in
  let o1 := lookAhead x off in
  if Byte.eqb o1 "." || is_e o1 then
    let off := if is_e o1 then off else off + 1 in
    let off := scan x isdigit off in
    if is_e (lookAhead x off) then
      let '(off, ok) := scale_factor x off in
      if ok then token Tok_Number off (mid (d_line x) (x_colNr x) off)
      else token Tok_Invalid off (qb "invalid real")
    else token Tok_Number off (mid (d_line x) (x_colNr x) off)
  else if Byte.eqb o1 "x" then
    if negb (Byte.eqb (at_ (d_line x) (x_colNr x + off - 1)) "0")
    then token Tok_Invalid off (qb "invalid hex number")
    else
      let off := scan x isHexDigit (off + 1) in
      token Tok_Number off (mid (d_line x) (x_colNr x) off)
  else token Tok_Number off (mid (d_line x) (x_colNr x) off).

(** ["]"], the equal signs between the offsets, ["]"]. *)
Definition end_token (n : Z) : bytes := qb "]" ++ replicate (Z.to_nat n) "="%byte ++ qb "]".

(** [src/LuaLexer.cpp:373-392] comment *)
Definition comment : LM Token :=
  x <~ rget id;
  if negb (Byte.eqb (lookAhead x 2) "[") then line_comment x
  else if Byte.eqb (lookAhead x 3) "[" then block_comment (qb "]]")
  else if negb (Byte.eqb (lookAhead x 3) "=") then line_comment x
  else
    let off := scan x (Byte.eqb "=") 3 in
    if negb (Byte.eqb (lookAhead x off) "[") then token Tok_Invalid off (qb "invalid block comment")
    else block_comment (end_token (off - 3)).

(** The loop over the characters: the offset and the text, or the offset of the
    end that should not be there.
    [src/LuaLexer.cpp:446-468] string *)
Fixpoint string_loop (fuel : nat) (other : byte) (off : Z) (str : bytes) : LM (Z * option bytes) :=
  match fuel with
  | O => rfail
  | S fuel =>
      x <~ rget id;
      let c := lookAhead x off in
      let off := off + 1 in
      if Byte.eqb c "\" then
        if Byte.eqb (lookAhead x off) x00 then
          _ <~ nextLine;
          string_loop fuel other 0 (str ++ mid (d_line x) (x_colNr x) off ++ [x0a])
        else string_loop fuel other (off + 1) str
      else if Byte.eqb c other then rret (off, Some (str ++ mid (d_line x) (x_colNr x) off))
      else if Byte.eqb c x00 then rret (off, None)
      else string_loop fuel other off str
  end.

(** [src/LuaLexer.cpp:441-475] string *)
Definition string_ : LM Token :=
  x0 <~ rget id;
  let startLine := x_lineNr x0 in
  let startCol := x_colNr x0 in
  r <~ string_loop (2 + length (d_line x0) + 2 * device_size x0) (lookAhead x0 0) 1 [];
  let '(off, str) := r in
  match str with
  | None => token Tok_Invalid off (qb "non-terminated string")
  | Some str =>
      let t := with_path (new_Token Tok_String startLine startCol (Z.of_nat (length str)) str) (x_sourcePath x0) in
      _ <~ rmod (set_last t);
      _ <~ rmod (fun x => set_col (x_colNr x + off) x);
      rret (with_len t (d_len t + 1))
  end.

(** The loop over the lines of a long string: the position of its end or [-1], and
    the text of the lines before.
    [src/LuaLexer.cpp:498-506] longstring *)
Fixpoint long_loop (fuel : nat) (endToken : bytes) (pos : Z) (str : bytes) : LM (Z * bytes) :=
  match fuel with
  | O => rfail
  | S fuel =>
      e <~ atEnd;
      if negb (pos =? -1) || (e : bool) then rret (pos, str)
      else
        x <~ rget id;
        _ <~ nextLine;
        y <~ rget id;
        long_loop fuel endToken (indexOf endToken (d_line y) 0) (add_line str (mid_all (d_line x) (x_colNr x)))
  end.

(** From the search for the end on.
    [src/LuaLexer.cpp:497-525] longstring *)
Definition long_body (endToken : bytes) : LM Token :=
  x0 <~ rget id;
  let startLine := x_lineNr x0 in
  let startCol := x_colNr x0 in
  r <~ long_loop (S (device_size x0)) endToken (indexOf endToken (d_line x0) (x_colNr x0 + 1)) [];
  let '(pos, str) := r in
  if pos =? -1 then
    _ <~ rmod (fun x => set_col (line_size x) x);
    rret (new_Token Tok_Invalid startLine (startCol + 1) (Z.of_nat (length str))
            (qb "non-terminated hexadecimal string"))
  else
    let pos := pos + Z.of_nat (length endToken) in
    x <~ rget id;
    let str := add_line str (mid (d_line x) (x_colNr x) (pos - x_colNr x)) in
    let t := with_path (new_Token Tok_String startLine startCol (Z.of_nat (length str)) str) (x_sourcePath x0) in
    _ <~ rmod (set_last t);
    _ <~ rmod (set_col pos);
    rret (with_len t (d_len t + 1)).

(** [src/LuaLexer.cpp:477-525] longstring *)
Definition longstring : LM Token :=
  x <~ rget id;
  if Byte.eqb (lookAhead x 1) "[" then long_body (qb "]]")
  else if negb (Byte.eqb (lookAhead x 1) "=") then rfail
  else
    let off := scan x (Byte.eqb "=") 1 in
    if negb (Byte.eqb (lookAhead x off) "[") then token Tok_Invalid off (qb "invalid long string")
    else long_body (end_token (off - 1)).

(** ** The next token *)

(** The token at the position, where there is a character.
    [src/LuaLexer.cpp:186-217] nextTokenImp *)
Definition token_here : LM Token :=
  x <~ rget id;
  let ch := at_ (d_line x) (x_colNr x) in
  let la := lookAhead x 1 in
  if Byte.eqb ch x22 || Byte.eqb ch "'" then string_
  else if isalpha ch || Byte.eqb ch "_" then ident
  else if isdigit ch then number
  else if Byte.eqb ch "." && isdigit la then number
  else if Byte.eqb ch "-" && Byte.eqb la "-" then comment
  else if Byte.eqb ch "[" && (Byte.eqb la "[" || Byte.eqb la "=") then longstring
  else literal ch.

(** [src/LuaLexer.cpp:168-217] nextTokenImp *)
Definition nextTokenImp : LM Token := next_imp token_here.
(** [src/LuaLexer.cpp:90-102] nextToken *)
Definition nextToken (fuel : nat) : LM Token := next_skip token_here fuel.
(** [src/LuaLexer.cpp:104-110] peekToken *)
Definition peekToken (lookAhead : nat) : LM Token := peek_ahead token_here lookAhead.
(** [src/LuaLexer.cpp:117-132] tokens *)
Definition tokens (fuel : nat) (code path : bytes) : LM (list Token) := lex_tokens token_here fuel code path.
