(* ===== verification/LuaLexerSpec.v ===== *)
(** * What the lexer of Lua delivers

    The lexer ends on every text, and each token is what the text has at its position.
    Some texts that it gets wrong are at the end. *)

From S2P Require Import Prelude TokenTree LexCore LexCoreSpec LuaToken LuaLexer.
From Stdlib Require Import Strings.Byte.
Local Open Scope Z_scope.
Local Open Scope rd_scope.

(** The types and values of the tokens of a text. *)
Definition lex (code : bytes) : option (list (TokenType * bytes)) :=
  option_map (fun r => map (fun t => (d_type t, d_val t)) (fst r))
    (tokens (S (length code)) code [] (setErrors true new_Lexer)).

Example lex_code : lex (qb "local x1 = 0x1F + 1.5e-3 -- sum") =
  Some [(Tok_local, []); (Tok_Name, qb "x1"); (Tok_Eq, qb "="); (Tok_Number, qb "0x1F");
        (Tok_Plus, qb "+"); (Tok_Number, qb "1.5e-3")].
Proof. vm_compute. reflexivity. Qed.

Example lex_string : lex (qb "f [==[ a ]] ]==] 'it\'s' ... <= ~=") =
  Some [(Tok_Name, qb "f"); (Tok_String, qb "[==[ a ]] ]==]"); (Tok_String, qb "'it\'s'");
        (Tok_3Dot, qb "..."); (Tok_Leq, qb "<="); (Tok_TildeEq, qb "~=")].
Proof. vm_compute. reflexivity. Qed.

Definition nl : bytes := [x0a].

(** A block comment is skipped, but not when it ends on the last line of the file. *)
Example comment_skipped : lex (qb "a --[[ x ]] b" ++ nl ++ qb "c") =
  Some [(Tok_Name, qb "a"); (Tok_Name, qb "b"); (Tok_Name, qb "c")].
Proof. vm_compute. reflexivity. Qed.

Remark comment_on_last_line : lex (qb "a --[[ x ]] b") = Some [(Tok_Name, qb "a")].
Proof. vm_compute. reflexivity. Qed.

(** A bracket before a minus sign ends the list of the tokens. *)
Remark index_minus : lex (qb "a[i]-1") =
  Some [(Tok_Name, qb "a"); (Tok_Lbrack, qb "["); (Tok_Name, qb "i")].
Proof. vm_compute. reflexivity. Qed.

(** A lexer that is used again starts with the last line of the text before. *)
Remark stale_line :
  option_map (fun r => map d_val (fst r))
    ((_ <~ tokens 10 (qb "a") []; tokens 10 (qb "b") []) new_Lexer) = Some [qb "a"; qb "b"].
Proof. vm_compute. reflexivity. Qed.

(** [peekToken] delivers the comments that [nextToken] leaves out. *)
Remark peek_comment :
  option_map (fun r => d_type (fst r)) ((_ <~ setStream (qb "-- c" ++ nl ++ qb "x") []; peekToken 1) new_Lexer)
  = Some Tok_Comment /\
  option_map (fun r => d_type (fst r)) ((_ <~ setStream (qb "-- c" ++ nl ++ qb "x") []; nextToken 10) new_Lexer)
  = Some Tok_Name.
Proof. vm_compute. done. Qed.

(** ** The types of the tokens *)

(** The column of a string is counted from 0 and its length is one too large. *)
#[export] Instance Lua_texts : TokenTexts TokenType := {|
  k_fixed := fixed_tokens;
  k_text := tokenTypeString;
  k_shifted t := bool_decide (t = Tok_String);
  k_other t text val :=
    match t with
    | Tok_Number => text = val /\ val <> []
    | Tok_String => x0a ∉ val -> text = val
    | Tok_Comment => True
    | _ => False
    end
|}.

Lemma lua_fixed t : t ∈ fixed_tokens ->
  (Forall (fun c => c <> x00) (tokenTypeString t) /\ tokenTypeString t <> []) /\ t <> Tok_Invalid.
Proof. intros Ht. split; [by apply fixed_nonzero|]. intros ->. by destruct invalid_not_fixed. Qed.

Lemma lua_whole t : t ∈ fixed_tokens ->
  from_string (tokenTypeString t) 0 = Some (t, Z.of_nat (length (tokenTypeString t))).
Proof.
  intros Ht. assert (Hall : Forall (fun t => from_string (tokenTypeString t) 0 =
    Some (t, Z.of_nat (length (tokenTypeString t)))) fixed_tokens) by by_decide.
  rewrite Forall_forall in Hall. by apply Hall.
Qed.

(** The keyword that a whole word is. *)
Lemma word_type (str : bytes) :
  (word_kind str <> Tok_Invalid -> word_kind str ∈ fixed_tokens /\ str = tokenTypeString (word_kind str)) /\
  (word_kind str = Tok_Invalid -> forall t, t ∈ fixed_tokens -> str <> tokenTypeString t).
Proof. exact (word_law from_string holes (fun _ _ => eq_refl) found_fixed from_string_recognises lua_fixed lua_whole str). Qed.

#[export] Instance Lua_laws : TokenLaws TokenType.
Proof.
  split; simpl.
  - done.
  - intros t Ht. destruct t; try done; exfalso; revert Ht; by_decide.
  - done.
  - done.
  - apply word_type.
  - exact (literal_law from_string holes (fun _ _ => eq_refl) found_fixed from_string_recognises lua_fixed lua_whole).
  - done.
  - intros t Ht ->. revert Ht. by_decide.
Qed.

Section Text.
Context (code : bytes) (ign : bool) (Hok : text_ok code).
Abbreviation llen k := (Z.of_nat (length (code_line code k))).
Abbreviation at_pos := (at_pos code ign).
Abbreviation lexed := (lexed code ign).
Abbreviation at_in := (at_in code ign).
Abbreviation at_nr := (at_nr code ign).
Abbreviation at_col := (at_col code ign).
Abbreviation at_line := (at_line code ign).
Abbreviation lookAhead_at := (lookAhead_at code ign).
Abbreviation scan_bounds := (scan_bounds code ign).
Abbreviation col_small := (col_small code Hok).
Abbreviation wp_block_comment e := (wp_block_comment code ign Hok e).
Abbreviation wp_ident := (wp_ident code ign Hok).
Abbreviation wp_literal := (wp_literal code ign Hok).
Abbreviation lexed_invalid := (lexed_invalid code ign).
Abbreviation line_small := (line_small code Hok).
Abbreviation lexed_to := (lexed_to code ign).
Abbreviation wp_nextLine := (wp_nextLine code ign Hok).
Abbreviation wp_atEnd := (wp_atEnd code ign).
Abbreviation at_pos_col := (at_pos_col code ign Hok).
Abbreviation at_pos_last := (at_pos_last code ign).

Lemma wp_invalid k c x len val : at_pos k c x -> (k <= length code)%nat -> 0 <= c -> 0 < len -> c + len <= llen k + 1 ->
  wp (token Tok_Invalid len val) (lexed k c) x.
Proof using Hok.
  intros Hx Hk H0 Hl Hc. refine (wp_token_invalid code ign Hok k c k c x len val Hx _ _); [split; lia|right; simpl; lia].
Qed.

Lemma other_not_fixed t : t = Tok_Number \/ t = Tok_String -> (t : TokenType) ∉ k_fixed.
Proof using Type. intros [-> | ->]; simpl; by_decide. Qed.

(** A number whose characters are inside of the line. *)
Lemma wp_number_token k c x off :
  at_pos k c x -> 0 <= c -> (k <= length code)%nat -> 0 < off -> c + off <= llen k ->
  wp (token Tok_Number off (mid (code_line code k) c off)) (lexed k c) x.
Proof using Hok.
  intros Hx H0 Hk Hoff Hc. apply wp_token_valid; try done; [split; [done|lia]|].
  intros t Et Ev Htext. apply well_lexed_other; rewrite Et; [done|apply other_not_fixed; by left|].
  rewrite Htext, Ev. split; [reflexivity|]. intros E. apply (f_equal (fun l => Z.of_nat (length l))) in E. rewrite mid_length in E by lia. simpl in E. lia.
Qed.

Lemma wp_number k c x : at_pos k c x -> 0 <= c < llen k -> (k <= length code)%nat -> wp number (lexed k c) x.
Proof using Hok.
  intros Hx Hc Hk. apply wp_bind, wp_get. unfold id. rewrite !(at_line _ _ _ Hx), !(at_col _ _ _ Hx).
  pose proof (scan_bounds k c x isdigit 1 Hx ltac:(lia)) as [H1 H2]. set (off := scan x isdigit 1) in *. cbv zeta.
  rewrite !(lookAhead_at k c) by done.
  destruct (Byte.eqb (at_ (code_line code k) (c + off)) "." || _) eqn:Ed.
  - apply (class_nonzero (fun b => Byte.eqb b "." || is_e b)) in Ed; [|done].
    set (off1 := if is_e _ then off else off + 1).
    assert (Ho1 : off <= off1 <= off + 1) by (subst off1; destruct (is_e _); lia).
    pose proof (scan_bounds k c x isdigit off1 Hx ltac:(lia)) as [H3 H4]. set (off2 := scan x isdigit off1) in *.
    destruct (is_e (at_ _ (c + off2))) eqn:Ee.
    + apply (class_nonzero is_e) in Ee; [|done].
      pose proof (scale_factor_bounds code ign k c x off2 Hx ltac:(lia) ltac:(lia) ltac:(lia)) as Hs.
      destruct (scale_factor x off2) as [off3 [|]].
      * by apply wp_number_token; [|lia..].
      * by apply wp_invalid; [|lia..].
    + by apply wp_number_token; [|lia..].
  - destruct (Byte.eqb _ "x") eqn:Ex; [|by apply wp_number_token; [|lia..]].
    apply (class_nonzero (fun b => Byte.eqb b "x")) in Ex; [|done].
    destruct (negb _); [by apply wp_invalid; [|lia..]|].
    pose proof (scan_bounds k c x isHexDigit (off + 1) Hx ltac:(lia)) as [H3 H4].
    by apply wp_number_token; [|lia..].
Qed.

Lemma wp_comment k c x :
  at_pos k c x -> 0 <= c < llen k -> (k <= length code)%nat -> wp comment (lexed k c) x.
Proof using Hok.
  intros Hx Hc Hk. assert (Hin : in_text code k c) by (split; [done|lia]).
  assert (Hline : wp (line_comment x) (lexed k c) x) by (exact (wp_line_comment code ign Hok k c x Hx Hc Hk)).
  assert (Hblock : forall e, e <> [] -> wp (block_comment e) (lexed k c) x).
  { intros e He. apply (wp_block_comment e k c); [done|done|lia|done]. }
  apply wp_bind, wp_get. unfold id. rewrite !(lookAhead_at k c) by done. destruct (negb _); [done|].
  destruct (Byte.eqb (at_ _ (c + 3)) "["); [by apply Hblock|]. destruct (Byte.eqb _ "=") eqn:E; simpl; [|done].
  apply (class_nonzero (fun b => Byte.eqb b "=")) in E; [|done].
  pose proof (scan_bounds k c x (Byte.eqb "=") 3 Hx ltac:(lia)).
  destruct (negb _); [by apply wp_invalid; [|lia..]|by apply Hblock].
Qed.

Lemma rest_end k : rest code k = [] -> code_line code (S k) = [].
Proof. unfold code_line. by intros ->. Qed.

Lemma wp_string_loop n other k c x off str (Q : Z * option bytes -> Lexer -> Prop) :
  other <> x00 -> at_pos k c x -> in_text code k c -> 0 <= off -> c + off <= llen k ->
  llen k - (c + off) + 2 * Z.of_nat (length (rest code k)) < Z.of_nat n ->
  (forall k' c' x' off', at_pos k' c' x' -> passed code k' (c' + off') -> 0 <= c' -> 0 < off' -> pos_le (k, c) (k', c') ->
     Q (off', None) x') ->
  (forall k' c' x' off' s, at_pos k' c' x' -> in_text code k' (c' + off') -> 0 <= c' -> 0 < off' ->
     (k' = k /\ c' = c /\ s = str ++ mid (code_line code k) c off') \/ ((k < k')%nat /\ x0a ∈ s) ->
     Q (off', Some s) x') ->
  wp (string_loop n other off str) Q x.
Proof using Hok.
  intros Ho. revert k c x off str. induction n as [|n IH]; intros k c x off str Hx Hc Hoff Hco Hn HQ1 HQ2; [lia|].
  pose proof (proj2 Hc) as Hc2. apply wp_bind, wp_get. unfold id. cbv zeta. rewrite !(lookAhead_at k c) by done.
  assert (Hin : forall b, b <> x00 -> Byte.eqb (at_ (code_line code k) (c + off)) b = true -> c + off < llen k).
  { intros b Hb E. apply eqb_eq in E. rewrite <- E in Hb. apply at_nonzero in Hb. lia. }
  destruct (Byte.eqb (at_ _ (c + off)) "\") eqn:E1; [apply Hin in E1; [|done]|].
  - destruct (Byte.eqb (at_ _ (c + (off + 1))) x00) eqn:E2.
    + apply wp_bind. eapply wp_nextLine; [done|apply Hc|]. intros x1 Hx1.
      destruct (decide (rest code k = [])) as [Er|Er].
      * destruct n as [|n]; [lia|]. apply wp_bind, wp_get. unfold id. cbv zeta.
        rewrite !(lookAhead_at (S k) 0), (rest_end k Er) by done. change (at_ [] (0 + 0)) with x00.
        simpl. destruct (Byte.eqb x00 other) eqn:E3; [by apply eqb_eq in E3; destruct Ho|]. apply wp_ret.
        eapply (HQ1 (S k) 0); [done|split; [destruct Hc; lia|lia]|lia..|left; simpl; lia].
      * pose proof (in_text_next code k Er) as Hc1. pose proof (rest_progress code k Er). pose proof (line_rest code k).
        eapply IH; [done..|lia|destruct Hc1; lia|lia| |].
        { intros k' c' x' off' ? ? ? ? Hle. eapply HQ1; [done..|]. destruct Hle as [?|[? ?]]; left; simpl in *; lia. }
        intros k' c' x' off' s Hx' Hc' ? ? Hs. eapply HQ2; [done..|]. right. destruct Hs as [(-> & -> & ->)|[? ?]]; [|split; [lia|done]].
        split; [lia|]. rewrite !elem_of_app. left. right. right. by apply list_elem_of_singleton.
    + assert (c + (off + 1) < llen k).
      { destruct (at_nonzero (code_line code k) (c + (off + 1))); [|lia]. intros E. by rewrite E, eqb_refl in E2. }
      eapply IH; [done..|lia|lia|lia|done|done].
  - destruct (Byte.eqb (at_ _ (c + off)) other) eqn:E2; [apply Hin in E2; [|done]|].
    + apply wp_ret. rewrite (at_line _ _ _ Hx), (at_col _ _ _ Hx).
      eapply HQ2; [done|split; [apply Hc|lia]|apply Hc|lia|]. by left.
    + destruct (Byte.eqb (at_ _ (c + off)) x00) eqn:E3.
      { apply wp_ret. eapply HQ1; [done|split; [destruct Hc; lia|lia]|lia|lia|right; simpl; lia]. }
      assert (c + off < llen k).
      { destruct (at_nonzero (code_line code k) (c + off)); [|lia]. intros E. by rewrite E, eqb_refl in E3. }
      eapply IH; [done..|lia|lia|lia|done|done].
Qed.

(** The token of a string that starts at a position. *)
Lemma string_text k c v p :
  in_text code k c -> (x0a ∉ v -> exists n, v = mid (code_line code k) c n) ->
  let t := with_path (new_Token Tok_String (Z.of_nat k) c (Z.of_nat (length v)) v) p in
  let t := with_len t (d_len t + 1) in
  token_start t = (k, c) /\ well_lexed code t.
Proof using Hok.
  intros Hc Hv. pose proof (col_small _ _ Hc). pose proof (line_small _ _ Hc).
  assert (Hs : u32 (Z.of_nat k) = Z.of_nat k) by (apply u32_small; lia).
  simpl. split.
  - unfold token_start. simpl. rewrite Hs, u16_small by lia. f_equal; lia.
  - apply well_lexed_other; [done|apply other_not_fixed; by right|]. unfold token_text, token_start. simpl.
    rewrite Hs, Nat2Z.id, (u16_small c) by lia. intros Hnl. destruct (Hv Hnl) as [n ->].
    pose proof (lines_short _ Hok k) as Hl. assert (Hm : Z.of_nat (length (mid (code_line code k) c n)) < 2 ^ 16 - 1).
    { unfold mid. rewrite length_take, length_drop. lia. }
    rewrite (u16_small (Z.of_nat _)), u16_small by lia.
    rewrite Z.add_simpl_r. apply mid_again.
Qed.

Lemma wp_string k c x :
  at_pos k c x -> 0 <= c < llen k -> (k <= length code)%nat -> at_ (code_line code k) c <> x00 ->
  wp string_ (lexed k c) x.
Proof using Hok.
  intros Hx Hc Hk Hq. assert (Hin : in_text code k c) by (split; [done|lia]).
  apply wp_bind, wp_get. unfold id. cbv zeta. rewrite (lookAhead_at k c), Z.add_0_r by done.
  apply wp_bind. eapply wp_string_loop; [done..|lia|lia| | |].
  - unfold device_size. rewrite (at_line _ _ _ Hx), (at_in _ _ _ Hx). lia.
  - intros k' c' x' off' Hx' Hp' H0 Hoff Hle. refine (wp_token_invalid code ign Hok k c k' c' x' _ _ Hx' Hp' _).
    destruct Hle as [?|[? ?]]; [left|right]; simpl in *; lia.
  - intros k' c' x' off' s Hx' Hc' H0 Hoff Hs. apply wp_bind, wp_mod, wp_bind, wp_mod, wp_ret.
    rewrite (at_nr _ _ _ Hx), (at_col _ _ _ Hx).
    destruct (string_text k c s (x_sourcePath x) Hin) as [Hst Hw].
    { intros Hnl. destruct Hs as [(-> & -> & ->)|[_ Hs]]; [by eexists|done]. }
    eapply lexed_to; [discriminate|exact Hst|exact Hw| |by apply in_text_passed|].
    + simpl. rewrite (at_col _ _ _ Hx'). eapply at_pos_col; [by eapply at_pos_last|done].
    + destruct Hs as [(-> & -> & _)|[? _]]; [right|left]; simpl; lia.
Qed.

Lemma wp_long_loop n e k c x pos str (Q : Z * bytes -> Lexer -> Prop) :
  at_pos k c x -> in_text code k c -> (length (rest code k) < n)%nat -> e <> [] ->
  pos = -1 \/ c <= pos /\ pos + Z.of_nat (length e) <= llen k -> str <> [] \/ c < llen k ->
  (forall k' c' x' s', at_pos k' c' x' -> in_text code k' c' -> pos_le (k, c) (k', c') -> rest code k' = [] -> Q (-1, s') x') ->
  (forall k' c' x' pos' s', at_pos k' c' x' -> in_text code k' c' -> c' <= pos' ->
     pos' + Z.of_nat (length e) <= llen k' ->
     (k' = k /\ c' = c /\ s' = str) \/ ((k < k')%nat /\ s' <> []) -> Q (pos', s') x') ->
  wp (long_loop n e pos str) Q x.
Proof using Hok.
  intros Hx Hc Hn He. revert k c x pos str Hx Hc Hn.
  induction n as [|n IH]; intros k c x pos str Hx Hc Hn Hpos Hstr HQ1 HQ2; [lia|].
  apply wp_bind. eapply wp_atEnd; [done|].
  assert (Hdone : pos <> -1 -> Q (pos, str) x).
  { intros Hne. destruct Hpos as [?|[? ?]]; [done|]. eapply HQ2; [done..|]. by left. }
  destruct (Z.eqb_spec pos (-1)) as [->|Hne]; simpl; [|by apply wp_ret, Hdone].
  case_bool_decide as E; [apply wp_ret; eapply HQ1; [done..|right; simpl; lia|done]|].
  apply wp_bind, wp_get, wp_bind. eapply wp_nextLine; [done|apply Hc|]. intros x1 Hx1.
  apply wp_bind, wp_get. unfold id. rewrite (at_line _ _ _ Hx), (at_col _ _ _ Hx), (at_line _ _ _ Hx1).
  pose proof (in_text_next code k E) as Hc1. pose proof (rest_progress code k E).
  assert (Hadd : add_line str (mid_all (code_line code k) c) <> []).
  { apply add_line_nonempty. destruct Hstr as [?|?]; [by left|right]. apply mid_all_nonempty. destruct Hc; lia. }
  eapply IH; [done..|lia| |by left| |].
  - destruct (indexOf_bounds e (code_line code (S k)) 0) as [?|[? Hi]]; [done|by left|right]. by split; [|apply Hi].
  - intros k' c' x' s' ? ? Hle ?. eapply HQ1; [done..| |done]. destruct Hle as [?|[? ?]]; left; simpl in *; lia.
  - intros k' c' x' pos' s' ? ? ? ? Hs. eapply HQ2; [done..|]. right.
    destruct Hs as [(-> & _ & ->)|[? ?]]; split; [lia|done|lia|done].
Qed.

Lemma wp_long_body e k c x :
  at_pos k c x -> 0 <= c < llen k -> (k <= length code)%nat -> e <> [] -> wp (long_body e) (lexed k c) x.
Proof using Hok.
  intros Hx Hc Hk He. assert (Hin : in_text code k c) by (split; [done|lia]).
  apply wp_bind, wp_get. unfold id. cbv zeta. apply wp_bind. unfold device_size.
  rewrite (at_line _ _ _ Hx), (at_col _ _ _ Hx), (at_in _ _ _ Hx).
  eapply wp_long_loop; [done..|lia|done| |right; lia| |].
  - destruct (indexOf_bounds e (code_line code k) (c + 1)) as [?|[? Hi]]; [lia|by left|right].
    split; [lia|by apply Hi].
  - intros k' c' x' s' Hx' Hc' Hle Hr. apply wp_bind, wp_mod, wp_ret.
    assert (Hp : in_text code k' (llen k')) by (split; [apply Hc'|lia]).
    pose proof (at_pos_col _ _ (llen k') _ Hx' Hp) as Hx1. replace (llen k') with (line_size x') in Hx1 at 2
      by (unfold line_size; by rewrite (at_line _ _ _ Hx')).
    eapply (lexed_invalid k c k'); [done|exact Hx1|by apply in_text_passed|].
    destruct Hle as [?|[? ?]]; [by left|right]; simpl in *; subst; lia.
  - intros k' c' x' pos s' Hx' Hc' H1 H2 Hs. destruct (Z.eqb_spec pos (-1)); [destruct Hc'; lia|].
    apply wp_bind, wp_get, wp_bind, wp_mod, wp_bind, wp_mod, wp_ret. unfold id.
    rewrite (at_nr _ _ _ Hx), (at_line _ _ _ Hx'), (at_col _ _ _ Hx').
    assert (He' : 0 < Z.of_nat (length e)) by (destruct e; [done|simpl length; lia]).
    destruct (string_text k c (add_line s' (mid (code_line code k') c' (pos + Z.of_nat (length e) - c')))
                (x_sourcePath x) Hin) as [Hst Hw].
    { intros Hnl. destruct Hs as [(-> & -> & ->)|[_ Hs]]; [by eexists|]. by destruct Hnl; apply add_line_nl. }
    assert (Hpos : in_text code k' (pos + Z.of_nat (length e))) by (destruct Hc'; split; [done|lia]).
    eapply lexed_to; [discriminate|exact Hst|exact Hw| |by apply in_text_passed|].
    + eapply at_pos_col; [by eapply at_pos_last|done].
    + destruct Hs as [(-> & -> & _)|[? _]]; [right|left]; simpl; lia.
Qed.

Lemma wp_longstring k c x :
  at_pos k c x -> 0 <= c < llen k -> (k <= length code)%nat ->
  Byte.eqb (at_ (code_line code k) (c + 1)) "[" || Byte.eqb (at_ (code_line code k) (c + 1)) "=" = true ->
  wp longstring (lexed k c) x.
Proof using Hok.
  intros Hx Hc Hk Hla. apply wp_bind, wp_get. unfold id. rewrite !(lookAhead_at k c) by done.
  destruct (Byte.eqb _ "["); [by apply wp_long_body|]. simpl in Hla. rewrite Hla. simpl.
  pose proof (scan_bounds k c x (Byte.eqb "=") 1 Hx ltac:(lia)).
  destruct (negb _); [by apply wp_invalid; [|lia..]|by apply wp_long_body].
Qed.

Lemma wp_token_here k c x :
  at_pos k c x -> 0 <= c < llen k -> (k <= length code)%nat -> wp token_here (lexed k c) x.
Proof using Hok.
  intros Hx Hc Hk. apply wp_bind, wp_get. unfold id. cbv zeta.
  rewrite (lookAhead_at k c), (at_line _ _ _ Hx), (at_col _ _ _ Hx) by done.
  set (ch := at_ _ c) in *. destruct (Byte.eqb ch x22 || _) eqn:E1.
  { apply wp_string; [done..|]. fold ch. intros E. by rewrite E in E1. }
  destruct (isalpha ch || _) eqn:E2; [apply wp_ident; [done|lia|split; [done|lia]|done]|].
  destruct (isdigit ch); [by apply wp_number|].
  destruct (Byte.eqb ch "." && _); [by apply wp_number|].
  destruct (Byte.eqb ch "-" && _); [by apply wp_comment|].
  destruct (Byte.eqb ch "[" && _) eqn:E3; [|by apply wp_literal].
  apply andb_true_iff in E3 as [_ ?]. by apply wp_longstring.
Qed.

End Text.


