(* ===== verification/LuaLexerWords.v ===== *)
(** * The lexer of Lua finds every token

    A text that consists of the texts of tokens, with blanks between them, is lexed to
    these tokens. *)

From S2P Require Import Prelude TokenTree LexCore LexCoreSpec LuaToken LuaLexer LuaLexerSpec.
From Stdlib Require Import Strings.Byte.
Local Open Scope Z_scope.
Local Open Scope rd_scope.

(** ** Words *)

Definition is_blank (c : byte) : bool := Byte.eqb c " " || Byte.eqb c x09.

(** What follows a word: nothing, or a blank. *)
Definition ends_word (v : bytes) : Prop := match v with [] => True | c :: _ => is_blank c = true end.

Definition digits_text (s : bytes) : Prop := s <> [] /\ forallb isdigit s = true.

Inductive fraction : bytes -> Prop :=
  | fraction_none : fraction []
  | fraction_some ds : forallb isdigit ds = true -> fraction ("."%byte :: ds).

Inductive exponent : bytes -> Prop :=
  | exponent_none : exponent []
  | exponent_plain e ds : is_e e = true -> digits_text ds -> exponent (e :: ds)
  | exponent_signed e sg ds : is_e e = true -> (sg = "+"%byte \/ sg = "-"%byte) -> digits_text ds ->
      exponent (e :: sg :: ds).

(** The numbers of Lua. *)
Inductive numeral : bytes -> Prop :=
  | numeral_decimal ds fr ex : digits_text ds -> fraction fr -> exponent ex -> numeral (ds ++ fr ++ ex)
  | numeral_point ds ex : digits_text ds -> exponent ex -> numeral ("."%byte :: ds ++ ex)
  | numeral_hex hs : forallb isHexDigit hs = true -> numeral ("0" :: "x" :: hs)%byte.

(** The text of a token, with its type and its value.  Two minus signs start a
    comment. *)
Inductive word : bytes -> TokenType -> bytes -> Prop :=
  | word_keyword t : t ∈ fixed_tokens -> tokenTypeIsKeyword t = true -> word (tokenTypeString t) t []
  | word_literal t : t ∈ fixed_tokens -> tokenTypeIsLiteral t = true -> t <> Tok_2Minus -> t <> Tok_2MinusLbrack ->
      word (tokenTypeString t) t (tokenTypeString t)
  | word_name s : isValidIdent s = true -> (forall t, t ∈ fixed_tokens -> s <> tokenTypeString t) -> word s Tok_Name s
  | word_number s : numeral s -> word s Tok_Number s.

Definition literals : list TokenType :=
  filter (fun t => tokenTypeIsLiteral t && negb (bool_decide (t = Tok_2Minus)) &&
                   negb (bool_decide (t = Tok_2MinusLbrack))) fixed_tokens.

(** The character after a word. *)
Definition next_chars : list byte := [x00; " "%byte; x09].

Lemma ends_word_next v : ends_word v -> hd x00 v ∈ next_chars.
Proof.
  destruct v as [|c v]; simpl; [intros _; by_decide|]. unfold is_blank. intros H.
  apply orb_true_iff in H as [H|H]; apply eqb_eq in H as ->; by_decide.
Qed.

(** A literal is recognised whatever follows behind a blank. *)
Lemma literals_recognised :
  Forall (fun t => Forall (fun b =>
    eval_known lua_tree (tokenTypeString t ++ [b]) = Some (Some (t, Z.of_nat (length (tokenTypeString t)))))
    next_chars) literals.
Proof. by_decide. Qed.

(** A literal is not the start of any other token. *)
Definition other_token (ch la : byte) : bool :=
  (Byte.eqb ch x22 || Byte.eqb ch "'") || (isalpha ch || Byte.eqb ch "_") || isdigit ch ||
  (Byte.eqb ch "." && isdigit la) || (Byte.eqb ch "-" && Byte.eqb la "-") ||
  (Byte.eqb ch "[" && (Byte.eqb la "[" || Byte.eqb la "=")).

Lemma literals_plain :
  Forall (fun t => Forall (fun b =>
    other_token (at_ (tokenTypeString t ++ [b]) 0) (at_ (tokenTypeString t ++ [b]) 1) = false)
    next_chars) literals.
Proof. by_decide. Qed.

Lemma texts_distinct t t' :
  t ∈ fixed_tokens -> t' ∈ fixed_tokens -> tokenTypeString t = tokenTypeString t' -> t = t'.
Proof.
  intros Ht Ht' E. assert (Hall : Forall (fun t => Forall (fun t' =>
    tokenTypeString t = tokenTypeString t' -> t = t') fixed_tokens) fixed_tokens) by by_decide.
  rewrite Forall_forall in Hall. specialize (Hall t Ht). rewrite Forall_forall in Hall. auto.
Qed.

Lemma keywords_idents : Forall (fun t => tokenTypeIsKeyword t = true -> isValidIdent (tokenTypeString t) = true) fixed_tokens.
Proof. by_decide. Qed.

(** The end of a word does not belong to any class of characters. *)
Lemma next_class v (p : byte -> bool) :
  forallb (fun b => negb (p b)) next_chars = true -> ends_word v -> p (hd x00 v) = false.
Proof.
  intros Hp Hv. apply ends_word_next, list_elem_of_In in Hv. rewrite forallb_forall in Hp.
  apply Hp in Hv. by apply negb_true_iff.
Qed.

Section Text.
Context (code : bytes) (ign : bool) (Hok : text_ok code).
Abbreviation llen k := (Z.of_nat (length (code_line code k))).

Abbreviation ahead := (ahead code).
Abbreviation ahead_app := (ahead_app code).
Abbreviation ahead_cons := (ahead_cons code).
Abbreviation lookAhead_hd := (lookAhead_hd code ign).
Abbreviation scan_app := (scan_app code ign).
Abbreviation mid_app := (mid_app code).

(** A function that lexes a word of this type and value. *)
Definition takes (k : nat) (c : Z) (w : bytes) (ty : TokenType) (val : bytes) (t : Token) (x' : Lexer) : Prop :=
  d_type t = ty /\ d_val t = val /\ at_pos code ign k (c + Z.of_nat (length w)) x'.

Lemma wp_takes k c x w v ty val :
  at_pos code ign k c x -> (k <= length code)%nat -> ahead k c 0 (w ++ v) -> ty <> Tok_Invalid ->
  wp (token ty (Z.of_nat (length w)) val) (takes k c w ty val) x.
Proof using Hok.
  intros Hx Hk Ha Hne. apply (wp_token code ign Hok k c). intros x' t Et _ _ _ Ev Hx'.
  split; [done|]. split; [done|]. apply Hx'; [done|]. split; [lia|].
  pose proof (ahead_app _ _ _ _ _ Ha) as [Hb _]. destruct Ha as [? _]. lia.
Qed.

(** ** Names and literals *)
Lemma ident_no_space v : ends_word v -> ident_char (hd x00 v) = false.
Proof. by apply next_class. Qed.

Lemma wp_ident_word k c x w v ty val :
  at_pos code ign k c x -> (k <= length code)%nat -> ahead k c 0 (w ++ v) -> ends_word v ->
  isValidIdent w = true ->
  (ty = Tok_Name /\ val = w /\ (forall t, t ∈ fixed_tokens -> w <> tokenTypeString t)) \/
  (ty ∈ fixed_tokens /\ val = [] /\ w = tokenTypeString ty) ->
  wp ident (takes k c w ty val) x.
Proof using Hok.
  intros Hx Hk Ha Hv Hid Hty. destruct w as [|b w]; [done|]. simpl in Hid. apply andb_true_iff in Hid as [Hb Hw].
  apply wp_bind, wp_get. unfold id. rewrite (at_line _ _ _ _ _ Hx), (at_col _ _ _ _ _ Hx).
  destruct (scan_app k c 1 ident_char w v x Hx (ahead_cons _ _ _ _ _ Ha) Hw (ident_no_space v Hv)) as [-> _].
  replace (1 + Z.of_nat (length w)) with (Z.of_nat (length (b :: w))) by (simpl length; lia).
  rewrite (mid_app k c (b :: w) v) by done. cbv zeta. rewrite bool_decide_eq_false_2 by done.
  pose proof (word_type (b :: w)) as Hword. unfold word_kind in Hword.
  cbn [k_from_string k_invalid k_name Lua_kind] in *. destruct (tokenTypeFromString (b :: w) 0) as [t pos]. cbv zeta in *.
  match goal with |- context [if ?b then Tok_Invalid else t] => set (t' := if b then Tok_Invalid else t) in * end.
  destruct Hword as [Hkey Hname]. destruct (decide (t' = Tok_Invalid)) as [Ht|Ht].
  - rewrite bool_decide_eq_true_2 by done. simpl negb. cbv iota. destruct Hty as [(-> & -> & _)|(Hf & _ & Hw')].
    + by eapply wp_takes.
    + by destruct (Hname Ht ty Hf).
  - rewrite bool_decide_eq_false_2 by done. simpl negb. cbv iota. destruct (Hkey Ht) as [Hf Hs].
    destruct Hty as [(_ & _ & Hn)|(Hf' & -> & Hw')]; [by destruct (Hn t' Hf)|].
    assert (t' = ty) as <- by (apply texts_distinct; congruence). by eapply wp_takes.
Qed.

Lemma wp_literal_word k c x t v :
  at_pos code ign k c x -> (k <= length code)%nat -> ahead k c 0 (tokenTypeString t ++ v) -> ends_word v ->
  t ∈ literals -> wp token_here (takes k c (tokenTypeString t) t (tokenTypeString t)) x.
Proof using Hok.
  intros Hx Hk Ha Hv Ht. pose proof (ends_word_next v Hv) as Hn. set (w := tokenTypeString t) in *.
  assert (Hat : text_at (code_line code k) c (w ++ [hd x00 v])).
  { destruct Ha as [Hb Hd]. rewrite Z.add_0_r in *. intros i b Hi. rewrite at_drop, Hd by lia.
    destruct v as [|y v]; [|apply at_Some; simpl in Hi; rewrite cons_middle, app_assoc; by apply lookup_app_l_Some].
    simpl in Hi. rewrite app_nil_r. apply lookup_app_Some in Hi as [Hi|[Hi Hi']]; [by apply at_Some|].
    apply list_lookup_singleton_Some in Hi' as [Hi' <-]. unfold at_.
    rewrite (proj2 (Z.ltb_ge _ _)), andb_false_r by lia. done. }
  assert (Hf : t ∈ fixed_tokens) by (by apply list_elem_of_filter in Ht as [_ ?]).
  assert (Hlen : 0 < Z.of_nat (length w)).
  { destruct (fixed_nonzero t Hf) as [_ H]. subst w. destruct (tokenTypeString t); [done|simpl length; lia]. }
  assert (Hr : tokenTypeFromString (code_line code k) c = (t, c + Z.of_nat (length w))).
  { unfold tokenTypeFromString. rewrite from_string_eval.
    pose proof literals_recognised as Hall. rewrite Forall_forall in Hall. specialize (Hall t Ht).
    rewrite Forall_forall in Hall. by rewrite (eval_known_sound lua_tree _ _ _ _ eq_refl Hat (Hall _ Hn)). }
  assert (Hplain : other_token (at_ (code_line code k) c) (at_ (code_line code k) (c + 1)) = false).
  { pose proof literals_plain as Hall. rewrite Forall_forall in Hall. specialize (Hall t Ht).
    rewrite Forall_forall in Hall. specialize (Hall _ Hn). fold w in Hall.
    assert (Hi : forall i, (i < 2)%nat -> (i < length (w ++ [hd x00 v]))%nat ->
      at_ (code_line code k) (c + Z.of_nat i) = at_ (w ++ [hd x00 v]) (Z.of_nat i)).
    { intros i _ Hi. destruct (lookup_nat_lt _ _ Hi) as [b Hb]. rewrite (Hat _ _ Hb). symmetry. by apply at_Some. }
    rewrite length_app in Hi. simpl in Hi. pose proof (Hi 0%nat ltac:(lia) ltac:(lia)) as H0.
    pose proof (Hi 1%nat ltac:(lia) ltac:(lia)) as H1. rewrite Z.add_0_r in H0. change (Z.of_nat 1) with 1 in H1.
    rewrite H0, H1. exact Hall. }
  apply wp_bind, wp_get. unfold id. cbv zeta.
  rewrite (lookAhead_at code ign k c), (at_line _ _ _ _ _ Hx), (at_col _ _ _ _ _ Hx) by done.
  unfold other_token in Hplain. rewrite !orb_false_iff in Hplain.
  destruct Hplain as [[[[[[P1 P2] [P3 P4]] P5] P6] P7] P8].
  rewrite P1, P2, P3, P4, P5, P6, P7, P8. simpl orb. cbv iota.
  apply wp_bind, wp_get. unfold id. rewrite (at_line _ _ _ _ _ Hx), (at_col _ _ _ _ _ Hx).
  cbn [k_from_string k_invalid Lua_kind]. rewrite Hr.
  rewrite bool_decide_eq_false_2 by (intros ->; by destruct invalid_not_fixed). simpl orb.
  destruct (Z.eqb_spec (c + Z.of_nat (length w)) c); [lia|].
  rewrite Z.add_simpl_l, (mid_app k c w v) by done. eapply wp_takes; try done. intros ->. by destruct invalid_not_fixed.
Qed.

(** ** Numbers *)
Lemma next_of_exponent (p : byte -> bool) ex v :
  p "e"%byte = false -> p "E"%byte = false -> forallb (fun b => negb (p b)) next_chars = true ->
  exponent ex -> ends_word v -> p (hd x00 (ex ++ v)) = false.
Proof.
  intros He HE Hp Hex Hv. destruct Hex as [|e ds H _|e sg ds H _ _]; [by apply next_class|..]; simpl;
    apply orb_true_iff in H as [H|H]; apply eqb_eq in H as ->; done.
Qed.

Lemma wp_number_exponent k c x a ex v :
  at_pos code ign k c x -> (k <= length code)%nat -> ahead k c 0 ((a ++ ex) ++ v) -> exponent ex -> ends_word v ->
  wp (if is_e (lookAhead x (Z.of_nat (length a))) then
        let '(off, ok) := scale_factor x (Z.of_nat (length a)) in
        if ok : bool then token Tok_Number off (mid (code_line code k) c off)
        else token Tok_Invalid off (qb "invalid real")
      else token Tok_Number (Z.of_nat (length a)) (mid (code_line code k) c (Z.of_nat (length a))))
    (takes k c (a ++ ex) Tok_Number (a ++ ex)) x.
Proof using Hok.
  intros Hx Hk Ha Hex Hv. assert (Hw := mid_app k c (a ++ ex) v Ha). pose proof Ha as Ha'.
  rewrite <- app_assoc in Ha'. apply ahead_app in Ha' as Hb. rewrite Z.add_0_l in Hb.
  rewrite (lookAhead_hd k c _ _ x Hx Hb). destruct Hex as [|e ds He [Hne Hds]|e sg ds He Hsg [Hne Hds]].
  - rewrite app_nil_r in *. simpl hd. rewrite (next_class v is_e) by done. rewrite Hw. by eapply wp_takes.
  - simpl hd. rewrite He. unfold scale_factor. apply ahead_cons in Hb as Hc.
    rewrite (lookAhead_hd k c _ _ x Hx Hc). destruct ds as [|d ds]; [done|]. simpl in Hds.
    apply andb_true_iff in Hds as [Hd Hds]. simpl hd.
    assert (Hs : Byte.eqb d "+" || Byte.eqb d "-" = false) by (revert Hd; by destruct d).
    rewrite Hs, Hd. simpl negb. cbv iota.
    destruct (scan_app k c (Z.of_nat (length a) + 1) isdigit (d :: ds) v x Hx Hc) as [-> _];
      [simpl; by rewrite Hd|by apply next_class|].
    replace (_ + 1 + _) with (Z.of_nat (length (a ++ e :: d :: ds))) by (rewrite length_app; simpl length; lia).
    rewrite Hw. by eapply wp_takes.
  - simpl hd. rewrite He. unfold scale_factor. apply ahead_cons in Hb as Hc. apply ahead_cons in Hc as Hc'.
    rewrite (lookAhead_hd k c _ _ x Hx Hc), (lookAhead_hd k c _ _ x Hx Hc'). destruct ds as [|d ds]; [done|].
    simpl in Hds. apply andb_true_iff in Hds as [Hd Hds]. simpl hd.
    assert (Hs : Byte.eqb sg "+" || Byte.eqb sg "-" = true) by (by destruct Hsg as [-> | ->]).
    rewrite Hs, Hd. simpl negb. cbv iota.
    destruct (scan_app k c (Z.of_nat (length a) + 1 + 1) isdigit (d :: ds) v x Hx Hc') as [-> _];
      [simpl; by rewrite Hd|by apply next_class|].
    replace (_ + 1 + 1 + _) with (Z.of_nat (length (a ++ e :: sg :: d :: ds))) by (rewrite length_app; simpl length; lia).
    rewrite Hw. by eapply wp_takes.
Qed.

(** The part of a number up to the first character that is not a digit is [a]. *)
Lemma wp_number_from k c x b a fr ex v :
  at_pos code ign k c x -> (k <= length code)%nat -> ahead k c 0 (((b :: a) ++ fr ++ ex) ++ v) ->
  forallb isdigit a = true -> fraction fr -> exponent ex -> ends_word v ->
  wp number (takes k c ((b :: a) ++ fr ++ ex) Tok_Number ((b :: a) ++ fr ++ ex)) x.
Proof using Hok.
  intros Hx Hk Ha Hd Hfr Hex Hv. assert (Hn := next_of_exponent isdigit ex v eq_refl eq_refl eq_refl Hex Hv).
  assert (Hb : ahead k c 1 (a ++ fr ++ ex ++ v)).
  { rewrite <- !app_assoc in Ha. by apply ahead_cons in Ha. }
  assert (Hnf : isdigit (hd x00 (fr ++ ex ++ v)) = false) by (by destruct Hfr).
  apply wp_bind, wp_get. unfold id. rewrite (at_line _ _ _ _ _ Hx), (at_col _ _ _ _ _ Hx).
  destruct (scan_app k c 1 isdigit a _ x Hx Hb Hd Hnf) as [-> Hc]. cbv zeta.
  assert (Hlen : 1 + Z.of_nat (length a) = Z.of_nat (length (b :: a))) by (simpl length; lia).
  rewrite Hlen in *. rewrite (lookAhead_hd k c _ _ x Hx Hc). destruct Hfr as [|fs Hfs].
  - change ([] ++ ex) with ex in *. change ([] ++ ex ++ v) with (ex ++ v) in *.
    assert (Hdot : Byte.eqb (hd x00 (ex ++ v)) "." = false) by (by apply (next_of_exponent (fun b => Byte.eqb b "."))).
    rewrite Hdot. destruct (is_e (hd x00 (ex ++ v))) eqn:Ee; simpl orb; cbv iota.
    + rewrite ?Ee. destruct (scan_app k c _ isdigit [] _ x Hx Hc eq_refl Hn) as [-> _]. simpl length. rewrite Z.add_0_r.
      by apply (wp_number_exponent k c x (b :: a) ex v).
    + rewrite (next_of_exponent (fun b => Byte.eqb b "x") ex v) by done.
      pose proof (wp_number_exponent k c x (b :: a) ex v Hx Hk Ha Hex Hv) as H.
      rewrite (lookAhead_hd k c _ _ x Hx Hc), Ee in H. exact H.
  - simpl hd. change (Byte.eqb "." ".") with true. change (is_e ".") with false. simpl orb. cbv iota.
    simpl app in Hc. apply ahead_cons in Hc.
    destruct (scan_app k c _ isdigit fs _ x Hx Hc Hfs Hn) as [-> _].
    replace (Z.of_nat (length (b :: a)) + 1 + Z.of_nat (length fs))
      with (Z.of_nat (length ((b :: a) ++ "."%byte :: fs))) by (rewrite length_app; simpl length; lia).
    assert (Ew : (b :: a) ++ ("."%byte :: fs) ++ ex = ((b :: a) ++ "."%byte :: fs) ++ ex) by (by rewrite <- app_assoc).
    rewrite Ew in *. by apply wp_number_exponent with (v := v).
Qed.

Lemma wp_number_hex k c x hs v :
  at_pos code ign k c x -> (k <= length code)%nat -> ahead k c 0 (("0" :: "x" :: hs)%byte ++ v) ->
  forallb isHexDigit hs = true -> ends_word v ->
  wp number (takes k c ("0" :: "x" :: hs)%byte Tok_Number ("0" :: "x" :: hs)%byte) x.
Proof using Hok.
  intros Hx Hk Ha Hh Hv. pose proof (mid_app _ _ _ _ Ha) as Hm. apply ahead_cons in Ha as Hb. change (0 + 1) with 1 in Hb.
  apply ahead_cons in Hb as Hc. apply wp_bind, wp_get. unfold id. rewrite (at_line _ _ _ _ _ Hx), (at_col _ _ _ _ _ Hx).
  destruct (scan_app k c 1 isdigit [] _ x Hx Hb eq_refl eq_refl) as [-> _].
  change (1 + Z.of_nat (length [])) with 1. cbv zeta.
  rewrite (lookAhead_hd k c _ _ x Hx Hb). simpl hd. change (Byte.eqb "x" "." || is_e "x") with false.
  change (Byte.eqb "x" "x") with true. cbv iota. replace (c + 1 - 1) with (c + 0) by lia.
  destruct Ha as [Hr Hd]. rewrite at_drop by lia. rewrite Z.add_0_r in Hd. rewrite Hd. simpl negb. cbv iota.
  destruct (scan_app k c (1 + 1) isHexDigit hs v x Hx Hc Hh) as [-> _]; [by apply next_class|].
  replace (1 + 1 + Z.of_nat (length hs)) with (Z.of_nat (length ("0" :: "x" :: hs)%byte)) by (simpl length; lia).
  rewrite Hm. eapply wp_takes; [done|done| |done]. by split; [exact Hr|rewrite Z.add_0_r].
Qed.

(** ** Words *)
Lemma isdigit_class b : isdigit b = true -> Byte.eqb b x22 || Byte.eqb b "'" = false /\ isalpha b || Byte.eqb b "_" = false.
Proof. by destruct b. Qed.

Lemma wp_digit_number k c x b r Q :
  at_pos code ign k c x -> ahead k c 0 (b :: r) -> isdigit b = true \/ b = "."%byte /\ isdigit (hd x00 r) = true ->
  wp number Q x -> wp token_here Q x.
Proof.
  intros Hx Ha Hb Hnum. apply ahead_cons in Ha as Hr. apply wp_bind, wp_get. unfold id. cbv zeta.
  rewrite (lookAhead_hd k c 1 r x Hx Hr), (at_line _ _ _ _ _ Hx), (at_col _ _ _ _ _ Hx).
  destruct Ha as [H0 Hd]. rewrite Z.add_0_r in *. rewrite <- (Z.add_0_r c), at_drop, Hd by lia. rewrite at_hd. simpl hd.
  destruct Hb as [Hb|[-> Hb]].
  - destruct (isdigit_class b Hb) as [-> ->]. by rewrite Hb.
  - rewrite Hb. exact Hnum.
Qed.

Lemma wp_number_word k c x w v :
  at_pos code ign k c x -> (k <= length code)%nat -> ahead k c 0 (w ++ v) -> ends_word v -> numeral w ->
  wp token_here (takes k c w Tok_Number w) x.
Proof using Hok.
  intros Hx Hk Ha Hv Hw. destruct Hw as [ds fr ex [Hne Hd] Hfr Hex|ds ex [Hne Hd] Hex|hs Hh].
  - destruct ds as [|b ds]; [done|]. apply andb_true_iff in Hd as [Hb Hd].
    eapply wp_digit_number; [done|exact Ha|by left|]. by eapply wp_number_from.
  - eapply wp_digit_number; [done|exact Ha| |].
    + right. split; [done|]. destruct ds as [|b ds]; [done|]. by apply andb_true_iff in Hd as [Hb _].
    + apply (wp_number_from k c x "." ds [] ex v); [done..|constructor|done|done].
  - eapply wp_digit_number; [done|exact Ha|by left|]. by eapply wp_number_hex.
Qed.

Lemma wp_name_word k c x b w v ty val :
  at_pos code ign k c x -> ahead k c 0 ((b :: w) ++ v) -> isalpha b || Byte.eqb b "_" = true ->
  wp ident (takes k c (b :: w) ty val) x -> wp token_here (takes k c (b :: w) ty val) x.
Proof.
  intros Hx [H0 Hd] Hb Hid. apply wp_bind, wp_get. unfold id. cbv zeta.
  rewrite (at_line _ _ _ _ _ Hx), (at_col _ _ _ _ _ Hx).
  assert (Hat : at_ (code_line code k) c = b).
  { rewrite Z.add_0_r in *. rewrite <- (Z.add_0_r c), at_drop, Hd by lia. by rewrite at_hd. }
  rewrite Hat.
  assert (Hq : Byte.eqb b x22 || Byte.eqb b "'" = false) by (revert Hb; by destruct b).
  by rewrite Hq, Hb.
Qed.

Lemma wp_word k c x w v ty val :
  at_pos code ign k c x -> (k <= length code)%nat -> ahead k c 0 (w ++ v) -> ends_word v -> word w ty val ->
  wp token_here (takes k c w ty val) x.
Proof using Hok.
  intros Hx Hk Ha Hv Hw. destruct Hw as [t Hf Hkw|t Hf Hlit H1 H2|s Hid Hn|s Hnum].
  - pose proof keywords_idents as Hall. rewrite Forall_forall in Hall. specialize (Hall t Hf Hkw).
    assert (Hi := wp_ident_word k c x (tokenTypeString t) v t [] Hx Hk Ha Hv Hall ltac:(by right)).
    destruct (tokenTypeString t) as [|b w]; [done|]. apply andb_true_iff in Hall as [Hb _].
    by eapply wp_name_word.
  - eapply wp_literal_word; [done..|]. apply list_elem_of_filter. split; [|done].
    by rewrite Hlit, !bool_decide_eq_false_2 by done.
  - assert (Hi := wp_ident_word k c x s v Tok_Name s Hx Hk Ha Hv Hid ltac:(by left)).
    destruct s as [|b w]; [done|]. apply andb_true_iff in Hid as [Hb _]. by eapply wp_name_word.
  - by eapply wp_number_word.
Qed.
End Text.

(** ** Texts *)

(** A line of words with blanks around them, and the types and values of the words. *)
Inductive spaced : bytes -> list (TokenType * bytes) -> Prop :=
  | spaced_nil : spaced [] []
  | spaced_blank c s l : is_blank c = true -> spaced s l -> spaced (c :: s) l
  | spaced_word w ty val s l : word w ty val -> ends_word s -> spaced s l -> spaced (w ++ s) ((ty, val) :: l).

Definition text_of (lines : list bytes) : bytes := concat (map (fun l => l ++ [x0a]) lines).

(** A line is empty but for blanks, or has a word behind its first blanks. *)
Definition starts_word (s : bytes) (l : list (TokenType * bytes)) : Prop :=
  (s = [] /\ l = []) \/
  exists w ty val v l', s = w ++ v /\ l = (ty, val) :: l' /\ word w ty val /\ ends_word v /\ spaced v l'.

Lemma spaced_skip s l :
  spaced s l -> exists bl s', s = bl ++ s' /\ forallb is_blank bl = true /\ starts_word s' l.
Proof.
  induction 1 as [|c s l Hc Hs (bl & s' & -> & Hbl & Hs')|w ty val s l Hw He Hs _].
  - exists [], []. split; [done|]. split; [done|]. by left.
  - exists (c :: bl), s'. split; [done|]. simpl. by rewrite Hc.
  - exists [], (w ++ s). split; [done|]. split; [done|]. right. by exists w, ty, val, s, l.
Qed.

(** Characters of words. *)
Definition visible (c : byte) : bool := 32 <? ubyte c.

Lemma class_visible (p : byte -> bool) s :
  (forall c, p c = true -> visible c = true) -> forallb p s = true -> forallb visible s = true.
Proof. intros H Hs. rewrite forallb_forall in *. auto. Qed.

Lemma ident_visible c : ident_char c = true -> visible c = true.
Proof. by destruct c. Qed.
Lemma digit_visible c : isdigit c = true -> visible c = true.
Proof. by destruct c. Qed.
Lemma hex_visible c : isHexDigit c = true -> visible c = true.
Proof. by destruct c. Qed.
Lemma exp_visible c : is_e c = true -> visible c = true.
Proof. by destruct c. Qed.

Lemma exponent_visible ex : exponent ex -> forallb visible ex = true.
Proof.
  destruct 1 as [|e ds He [_ Hd]|e sg ds He Hs [_ Hd]]; [done|..]; apply (class_visible _ _ digit_visible) in Hd;
    simpl; rewrite (exp_visible e He), Hd; [done|]. by destruct Hs as [-> | ->].
Qed.

Lemma numeral_visible w : numeral w -> w <> [] /\ forallb visible w = true.
Proof.
  destruct 1 as [ds fr ex [Hn Hd] Hf He|ds ex [Hn Hd] He|hs Hh].
  - split; [by destruct ds|]. rewrite !forallb_app, (class_visible _ _ digit_visible Hd), (exponent_visible _ He).
    destruct Hf as [|fs Hf]; [done|]. simpl. by rewrite (class_visible _ _ digit_visible Hf).
  - split; [done|]. simpl. by rewrite forallb_app, (class_visible _ _ digit_visible Hd), (exponent_visible _ He).
  - split; [done|]. simpl. by rewrite (class_visible _ _ hex_visible Hh).
Qed.

Lemma fixed_visible : Forall (fun t => tokenTypeString t <> [] /\ forallb visible (tokenTypeString t) = true) fixed_tokens.
Proof. by_decide. Qed.

Lemma word_visible w ty val : word w ty val -> w <> [] /\ forallb visible w = true.
Proof.
  pose proof fixed_visible as Hall. rewrite Forall_forall in Hall.
  destruct 1 as [t Hf _|t Hf _ _ _|s Hid _|s Hn]; [by apply Hall..| |by apply numeral_visible].
  destruct s as [|c s]; [done|]. split; [done|]. apply (class_visible ident_char); [exact ident_visible|].
  simpl in *. apply andb_true_iff in Hid as [Hc ->]. rewrite andb_true_r. revert Hc. by destruct c.
Qed.

Lemma word_valid w ty val : word w ty val -> ty <> Tok_Invalid /\ ty <> Tok_Eof /\ ty <> Tok_Comment.
Proof.
  destruct 1 as [t Hf _|t Hf _ _ _|s Hid _|s Hn]; [| |done|done];
    repeat split; intros ->; revert Hf; by_decide.
Qed.

(** A line has no line end. *)
Lemma spaced_chars s l : spaced s l -> Forall (fun c => c <> x0a /\ c <> x0d) s.
Proof.
  induction 1 as [|c s l Hc Hs IH|w ty val s l Hw He Hs IH]; [done|..].
  - constructor; [|done]. revert Hc. by destruct c.
  - apply Forall_app. split; [|done]. destruct (word_visible _ _ _ Hw) as [_ Hv].
    rewrite forallb_forall in Hv. apply Forall_forall. intros c Hc. apply list_elem_of_In, Hv in Hc.
    revert Hc. by destruct c.
Qed.

Lemma read_line_app s r : Forall (fun c => c <> x0a /\ c <> x0d) s -> read_line ((s ++ [x0a]) ++ r) = (s ++ [x0a], r).
Proof.
  induction 1 as [|c s [Hc _] _ IH]; [done|]. simpl. destruct (Byte.eqb c x0a) eqn:E; [by apply eqb_eq in E|].
  by rewrite IH.
Qed.

Lemma chop_line_app s : Forall (fun c => c <> x0a /\ c <> x0d) s -> chop_line (s ++ [x0a]) = s.
Proof.
  intros Hs. assert (Hc : chop (s ++ [x0a]) 1 = s).
  { unfold chop. rewrite length_app. simpl. replace (length s + 1 - 1)%nat with (length s) by lia. apply take_app_length. }
  unfold chop_line, endsWith. rewrite rev_app_distr. simpl rev. simpl app.
  destruct (prefix_of _ (x0a :: rev s)) eqn:E; [|exact Hc].
  destruct (rev s) as [|b r] eqn:Er; [done|]. simpl in E. rewrite andb_true_r in E.
  apply (f_equal (@rev _)) in Er. rewrite rev_involutive in Er. subst s. simpl in Hs.
  apply Forall_app in Hs as [_ Hb]. inversion Hb as [|? ? [_ Hne] _]; subst. apply eqb_eq in E. by destruct Hne.
Qed.

(** Lines of words. *)
Definition program (lines : list bytes) (ls : list (list (TokenType * bytes))) : Prop := Forall2 spaced lines ls.

Section Program.
Context (lines : list bytes) (ls : list (list (TokenType * bytes))) (Hp : program lines ls).
Abbreviation code := (text_of lines).

Lemma line_chars j s : lines !! j = Some s -> Forall (fun c => c <> x0a /\ c <> x0d) s.
Proof using Hp.
  intros Hj. destruct (Forall2_lookup_l _ _ _ _ _ Hp Hj) as (l & _ & Hs). by eapply spaced_chars.
Qed.

Lemma rest_program k : rest code k = text_of (drop k lines).
Proof using Hp.
  induction k as [|k IH]; [by rewrite drop_0|]. simpl. rewrite IH.
  destruct (lines !! k) as [s|] eqn:E.
  - rewrite (drop_S _ _ _ E). unfold text_of. simpl. by rewrite read_line_app by (by eapply line_chars).
  - apply lookup_ge_None in E. by rewrite !drop_ge by lia.
Qed.

Lemma code_line_program k s : lines !! k = Some s -> code_line code (S k) = s.
Proof using Hp.
  intros E. unfold code_line. rewrite rest_program, (drop_S _ _ _ E). unfold text_of. simpl.
  rewrite read_line_app by (by eapply line_chars). apply chop_line_app. by eapply line_chars.
Qed.

Context (ign : bool) (Hok : text_ok code).
Abbreviation at_pos := (at_pos (K := TokenType) code ign).
Abbreviation wp_nextLine := (wp_nextLine code ign Hok).
Abbreviation wp_atEnd := (wp_atEnd code ign).
Abbreviation ahead := (ahead code).
Abbreviation llen k := (Z.of_nat (length (code_line code k))).

Lemma wp_skip_blanks k c bl s x :
  at_pos k c x -> (k <= length code)%nat -> ahead k c 0 (bl ++ s) -> forallb is_blank bl = true ->
  isspace (hd x00 s) = false ->
  wp skipWhiteSpace (fun _ x' => at_pos k (c + Z.of_nat (length bl)) x') x.
Proof using Hok.
  intros Hx Hk Ha Hbl Hs. unfold skipWhiteSpace, wp. rewrite (at_line _ _ _ _ _ Hx).
  pose proof (ahead_app code _ _ _ _ _ Ha) as [Hb _].
  assert (Hn : (length bl < S (length (code_line code k)))%nat) by (destruct Ha; lia). revert Hn.
  generalize (S (length (code_line code k))) as n. intros n Hn. clear Hb.
  revert c x bl Hx Ha Hbl Hn. induction n as [|n IH]; intros c x bl Hx Ha Hbl Hn; [lia|]. simpl.
  unfold line_size. rewrite (at_line _ _ _ _ _ Hx), (at_col _ _ _ _ _ Hx).
  assert (Hat : at_ (code_line code k) c = hd x00 (bl ++ s)).
  { rewrite <- (lookAhead_hd code ign k c 0 _ x Hx Ha), (lookAhead_at code ign k c) by done. by rewrite Z.add_0_r. }
  rewrite Hat. destruct bl as [|b bl].
  - simpl app. rewrite Hs, andb_false_r. simpl. by rewrite Z.add_0_r.
  - simpl hd. simpl in Hbl. apply andb_true_iff in Hbl as [Hb Hbl]. apply ahead_cons in Ha as Ha'.
    assert (Hsp : isspace b = true) by (revert Hb; by destruct b). rewrite Hsp.
    assert (Hlt : c < llen k) by (destruct Ha' as [? _]; lia). rewrite (proj2 (Z.ltb_lt _ _) Hlt). simpl.
    assert (Hin : in_text code k (c + 1)) by (destruct Ha as [? _]; split; [done|lia]).
    replace (c + Z.of_nat (S (length bl))) with (c + 1 + Z.of_nat (length bl)) by lia.
    apply IH; [by eapply at_pos_col| |done|simpl in Hn; lia].
    unfold LexCoreSpec.ahead in *. by rewrite Z.add_0_r in *.
Qed.

Lemma word_not_space w ty val v : word w ty val -> w <> [] /\ isspace (hd x00 (w ++ v)) = false.
Proof using.
  intros Hw. destruct (word_visible _ _ _ Hw) as [Hne Hv]. split; [done|].
  destruct w as [|b w]; [done|]. simpl in *. apply andb_true_iff in Hv as [Hb _]. revert Hb. by destruct b.
Qed.

Lemma starts_not_space s l : starts_word s l -> isspace (hd x00 s) = false.
Proof using. intros [[-> _]|(w & ty & val & v & l' & -> & _ & Hw & _)]; [done|]. by eapply word_not_space. Qed.

(** The words that follow a position. *)
Definition words_from (k : nat) (l : list (TokenType * bytes)) : list (TokenType * bytes) := l ++ concat (drop k ls).

Lemma wp_line_loop_words n k c s l x (Q : bool -> Lexer -> Prop) :
  at_pos k c x -> (k <= length code)%nat -> ahead k c 0 s -> starts_word s l -> (length (rest code k) < n)%nat ->
  (forall x', words_from k l = [] -> Q true x') ->
  (forall k1 c1 w ty val v l' x', at_pos k1 c1 x' -> (k1 <= length code)%nat -> ahead k1 c1 0 (w ++ v) ->
     word w ty val -> ends_word v -> spaced v l' -> pos_le (k, c) (k1, c1) ->
     words_from k l = (ty, val) :: words_from k1 l' -> Q false x') ->
  wp (line_loop n) Q x.
Proof using Hok Hp.
  revert k c s l x. induction n as [|n IH]; intros k c s l x Hx Hk Ha Hs Hn HQ1 HQ2; [lia|].
  apply wp_bind, wp_get. unfold line_size, id. rewrite (at_col _ _ _ _ _ Hx), (at_line _ _ _ _ _ Hx).
  destruct Hs as [[-> ->]|(w & ty & val & v & l' & -> & -> & Hw & Hv & Hsp)].
  - assert (c = llen k) as Hc.
    { destruct Ha as [? Hd]. apply (f_equal length) in Hd. rewrite length_drop in Hd. simpl in Hd. lia. }
    rewrite (proj2 (Z.ltb_ge _ _)) by lia. apply wp_bind. eapply wp_atEnd; [done|].
    case_bool_decide as E.
    + apply wp_ret, HQ1. unfold words_from. simpl. rewrite rest_program in E.
      assert (Hl : (length lines <= k)%nat).
      { destruct (Nat.le_gt_cases (length lines) k) as [|Hlt]; [done|]. destruct (lookup_nat_lt lines k Hlt) as [t Ht].
        rewrite (drop_S _ _ _ Ht) in E. unfold text_of in E. simpl in E. by destruct t. }
      pose proof (Forall2_length _ _ _ Hp). by rewrite drop_ge by lia.
    + destruct (lines !! k) as [t|] eqn:Et.
      2: { apply lookup_ge_None in Et. rewrite rest_program, drop_ge in E by lia. done. }
      destruct (Forall2_lookup_l _ _ _ _ _ Hp Et) as (l2 & El & Hsp).
      destruct (spaced_skip _ _ Hsp) as (bl & s' & -> & Hbl & Hst).
      apply wp_bind. eapply wp_nextLine; [done..|]. intros x1 Hx1.
      pose proof (in_text_next code k E) as Hin. pose proof (rest_progress code k E).
      assert (Ha1 : ahead (S k) 0 0 (bl ++ s')).
      { split; [simpl; lia|]. by rewrite (code_line_program k _ Et). }
      apply wp_bind. eapply wp_mono; [eapply wp_skip_blanks; [done|apply Hin|done..|by eapply starts_not_space]|].
      intros [] x2 Hx2. simpl in Hx2. assert (Hwords : words_from k [] = words_from (S k) l2).
      { unfold words_from. simpl. by rewrite (drop_S _ _ _ El). }
      eapply (IH (S k) _ s' l2); [done|apply Hin| |done|lia|by rewrite <- Hwords|].
      * apply ahead_app in Ha1. unfold LexCoreSpec.ahead in *. by rewrite Z.add_0_r, <- Z.add_0_l in *.
      * intros k1 c1 w ty val v l' x' ? ? ? ? ? ? Hle Hl. eapply HQ2; [done..| |by rewrite Hwords].
        destruct Hle as [?|[? ?]]; left; simpl in *; lia.
  - destruct (word_not_space w ty val v Hw) as [Hne _].
    assert (c < llen k) as Hlt.
    { destruct w as [|b w]; [done|]. apply ahead_cons in Ha as [? _]. lia. }
    rewrite (proj2 (Z.ltb_lt _ _) Hlt). apply wp_ret. eapply HQ2; [done..| |done]. right. simpl. lia.
Qed.

Lemma wp_next_word k c s l x (Q : Token -> Lexer -> Prop) :
  at_pos k c x -> (k <= length code)%nat -> ahead k c 0 s -> spaced s l ->
  (forall t x', words_from k l = [] -> isValid t = false -> Q t x') ->
  (forall t k' c' s' l' x', at_pos k' c' x' -> (k' <= length code)%nat -> ahead k' c' 0 s' -> spaced s' l' ->
     isValid t = true -> d_type t <> Tok_Comment ->
     words_from k l = (d_type t, d_val t) :: words_from k' l' ->
     remaining code k' c' < remaining code k c -> Q t x') ->
  wp nextTokenImp Q x.
Proof using Hok Hp.
  intros Hx Hk Ha Hsp HQ1 HQ2. unfold nextTokenImp, next_imp. apply wp_bind, wp_get. unfold id. rewrite (at_in _ _ _ _ _ Hx).
  destruct (spaced_skip _ _ Hsp) as (bl & s' & -> & Hbl & Hst).
  apply wp_bind. eapply wp_mono; [eapply wp_skip_blanks; [done..|by eapply starts_not_space]|].
  intros [] x1 Hx1. simpl in Hx1. apply ahead_app in Ha as Ha1.
  assert (Ha2 : ahead k (c + Z.of_nat (length bl)) 0 s').
  { unfold LexCoreSpec.ahead in *. by rewrite Z.add_0_r, Z.add_0_l in *. }
  apply wp_bind. unfold device_size. rewrite (at_in _ _ _ _ _ Hx).
  eapply wp_line_loop_words; [done..|lia| |].
  - intros x' Hnil. apply (wp_token code ign Hok k c). intros x'' t Et _ _ _ _ _. apply HQ1; [done|].
    unfold isValid. by rewrite Et.
  - intros k1 c1 w ty val v l' x' Hx' Hk1 Ha' Hw Hv Hsp' Hle Hwords.
    eapply wp_mono; [by eapply wp_word|]. intros t x2 (Et & Ev & Hx2).
    destruct (word_valid _ _ _ Hw) as (V1 & V2 & V3). destruct (word_not_space w ty val v Hw) as [Hne _].
    apply ahead_app in Ha' as Ha3.
    eapply (HQ2 t k1 _ v l'); [done..| |done| | | |].
    + unfold LexCoreSpec.ahead in *. by rewrite Z.add_0_r, Z.add_0_l in *.
    + unfold isValid. by rewrite Et, !bool_decide_eq_false_2 by done.
    + by rewrite Et.
    + by rewrite Et, Ev.
    + destruct Ha as [? _], Ha2 as [? _], Ha' as [? _], Ha3 as [? _].
      assert (0 < Z.of_nat (length w)) by (destruct w; [done|simpl length; lia]).
      unfold remaining. pose proof (remaining_le code k c k1 c1 ltac:(lia)) as Hr.
      unfold remaining in Hr. unfold pos_le in Hle. simpl in Hle. destruct Hle as [Hlt|[<- ?]]; [|lia].
      specialize (Hr ltac:(by left)). lia.
Qed.

Lemma wp_next_token n k c s l x (Q : Token -> Lexer -> Prop) :
  at_pos k c x -> (k <= length code)%nat -> ahead k c 0 s -> spaced s l ->
  (forall t x', words_from k l = [] -> isValid t = false -> Q t x') ->
  (forall t k' c' s' l' x', at_pos k' c' x' -> (k' <= length code)%nat -> ahead k' c' 0 s' -> spaced s' l' ->
     isValid t = true -> words_from k l = (d_type t, d_val t) :: words_from k' l' ->
     remaining code k' c' < remaining code k c -> Q t x') ->
  wp (nextToken (S n)) Q x.
Proof using Hok Hp.
  intros Hx Hk Ha Hsp HQ1 HQ2. apply wp_bind, wp_get, wp_bind. unfold id. rewrite (at_buffer _ _ _ _ _ Hx).
  eapply wp_next_word; [done..| |].
  - intros t x' Hnil Hv. rewrite bool_decide_eq_false_2; [|intros E; unfold isValid in Hv; by rewrite E in Hv].
    by apply wp_ret, HQ1.
  - intros. rewrite bool_decide_eq_false_2 by done. apply wp_ret. by eapply HQ2.
Qed.

Lemma wp_tokens_words n k c s l x :
  at_pos k c x -> (k <= length code)%nat -> ahead k c 0 s -> spaced s l -> remaining code k c < Z.of_nat n ->
  wp (tokens_from token_here n) (fun r _ => map (fun t => (d_type t, d_val t)) r = words_from k l) x.
Proof using Hok Hp.
  revert k c s l x. induction n as [|n IH]; intros k c s l x Hx Hk Ha Hsp Hn.
  - unfold remaining in Hn. destruct Ha. lia.
  - apply wp_bind. eapply wp_next_token; [done..| |].
    + intros t x' -> ->. by apply wp_ret.
    + intros t k' c' s' l' x' ? ? ? ? -> -> ?. apply wp_bind. eapply wp_mono; [eapply IH; [done..|lia]|].
      intros r x'' Hr. simpl in Hr. apply wp_ret. simpl. by rewrite Hr.
Qed.
End Program.

(** [C6] A text of lines that are words with blanks between them, where a word is a
    keyword, a literal other than those that start a comment, a name that is not a
    keyword, or a number: [Lexer::tokens] gives exactly these words, each with its type
    and its value. *)
Theorem tokens_complete lines ls path x :
  program lines ls -> text_ok (text_of lines) ->
  d_line x = [] -> d_buffer x = [] -> d_packComments x = true ->
  exists toks x', tokens (S (length (text_of lines))) (text_of lines) path x = Some (toks, x') /\
    map (fun t => (d_type t, d_val t)) toks = concat ls.
Proof.
  intros Hp Hok H1 H2 H3.
  assert (Hw : wp (tokens (S (length (text_of lines))) (text_of lines) path)
                 (fun r _ => map (fun t => (d_type t, d_val t)) r = words_from ls 0 []) x).
  { apply wp_bind. unfold setStream. apply wp_bind, wp_mod, wp_bind.
    match goal with |- wp _ _ ?y => destruct (getSymbol_val path y) as [l Hl]; unfold wp at 1; rewrite Hl end.
    apply wp_mod. apply (wp_tokens_words lines ls Hp (d_ignoreComments x) Hok _ 0 0 []);
      [by split|lia|by split|constructor|unfold remaining, code_line; simpl; lia]. }
  by apply wp_Some in Hw.
Qed.

Definition sample_lines : list bytes := [qb "if a_1 >= 10 then"; []; qb " return 0x1F .. nil end"].
Definition sample_words : list (list (TokenType * bytes)) :=
  [[(Tok_if, []); (Tok_Name, qb "a_1"); (Tok_Geq, qb ">="); (Tok_Number, qb "10"); (Tok_then, [])]; [];
   [(Tok_return, []); (Tok_Number, qb "0x1F"); (Tok_2Dot, qb ".."); (Tok_nil, []); (Tok_end, [])]].

Lemma sample_program : program sample_lines sample_words.
Proof.
  assert (Hk : forall t v l, t ∈ fixed_tokens -> tokenTypeIsKeyword t = true -> ends_word v -> spaced v l ->
    spaced (tokenTypeString t ++ v) ((t, []) :: l)) by (intros; by apply spaced_word; [by constructor|..]).
  assert (Hl : forall t v l, t ∈ literals -> ends_word v -> spaced v l ->
    spaced (tokenTypeString t ++ v) ((t, tokenTypeString t) :: l)).
  { intros t v l Ht Hv Hs. apply spaced_word; [|done..]. unfold literals in Ht.
    apply list_elem_of_filter in Ht as [Hb Hf]. apply andb_prop_elim in Hb as [Hb H1].
    apply andb_prop_elim in Hb as [Hb H2]. constructor; [done|by apply Is_true_true|..].
    - intros ->. done.
    - intros ->. done. }
  assert (Hb : forall v l, spaced v l -> spaced (" "%byte :: v) l) by (intros; by constructor).
  assert (Hn : forall s v l, isValidIdent s = true -> Forall (fun t => s <> tokenTypeString t) fixed_tokens ->
    ends_word v -> spaced v l -> spaced (s ++ v) ((Tok_Name, s) :: l)).
  { intros s v l Hid Hall ? ?. apply spaced_word; [|done..]. apply word_name; [done|]. by rewrite Forall_forall in Hall. }
  assert (Hd : forall s v l, numeral s -> ends_word v -> spaced v l -> spaced (s ++ v) ((Tok_Number, s) :: l))
    by (intros; by apply spaced_word; [by constructor|..]).
  constructor; [|constructor; [constructor|constructor; [|constructor]]].
  - apply (Hk Tok_if); [by_decide|done|done|apply Hb].
    apply (Hn (qb "a_1")); [done|by_decide|done|apply Hb].
    apply (Hl Tok_Geq); [by_decide|done|apply Hb].
    apply (Hd (qb "10")); [apply (numeral_decimal (qb "10") [] []); by constructor|done|apply Hb].
    apply (Hk Tok_then []); [by_decide|done|done|constructor].
  - apply Hb. apply (Hk Tok_return); [by_decide|done|done|apply Hb].
    apply (Hd (qb "0x1F")); [by apply (numeral_hex (qb "1F"))|done|apply Hb].
    apply (Hl Tok_2Dot); [by_decide|done|apply Hb]. apply (Hk Tok_nil); [by_decide|done|done|apply Hb].
    apply (Hk Tok_end []); [by_decide|done|done|constructor].
Qed.

Lemma tokens_complete_witness :
  program sample_lines sample_words /\
  exists toks x', tokens (S (length (text_of sample_lines))) (text_of sample_lines) [] new_Lexer = Some (toks, x') /\
    map (fun t => (d_type t, d_val t)) toks = concat sample_words.
Proof.
  split; [exact sample_program|].
  apply (tokens_complete sample_lines sample_words [] new_Lexer sample_program); [|done..].
  apply short_text. vm_compute. done.
Defined.
