(* ===== verification/LjasToken.v ===== *)
(** * Tokens of the assembler

    [TokenType] and [Token] of [LjasTokenType.h/.cpp] and [LjasToken.h/.cpp]: the texts
    and classes of the tokens, and [tokenTypeFromString]. *)

From S2P Require Import Prelude TokenTree.
From Stdlib Require Import Strings.Byte.
Local Open Scope Z_scope.

(** [src/LjasTokenType.h:9-86] TokenType *)
Inductive TokenType : Type :=
  | Tok_Invalid | TT_Literals | Tok_Lpar | Tok_Rpar | Tok_2Minus | Tok_2MinusLbrack | Tok_Dot
  | Tok_Colon | Tok_Eq | Tok_Rbrack2Minus | Tok_Lbrace | Tok_Rbrace | TT_Keywords | Tok_ADD
  | Tok_CALL | Tok_CALLT | Tok_CAT | Tok_DIV | Tok_FNEW | Tok_FORI | Tok_FORL | Tok_GGET | Tok_GSET
  | Tok_ISEQ | Tok_ISF | Tok_ISFC | Tok_ISGE | Tok_ISGT | Tok_ISLE | Tok_ISLT | Tok_ISNE | Tok_IST
  | Tok_ISTC | Tok_JMP | Tok_KNIL | Tok_KSET | Tok_LEN | Tok_LOOP | Tok_MOD | Tok_MOV | Tok_MUL
  | Tok_NOT | Tok_POW | Tok_RET | Tok_SUB | Tok_TDUP | Tok_TGET | Tok_TNEW | Tok_TSET | Tok_UCLO
  | Tok_UGET | Tok_UNM | Tok_USET | Tok_begin | Tok_const | Tok_end | Tok_false | Tok_function
  | Tok_nil | Tok_true | Tok_var | TT_Specials | Tok_ident | Tok_string | Tok_real | Tok_posint
  | Tok_negint | Tok_Comment | Tok_Eof | TT_MaxToken | TT_Max.

#[export] Instance TokenType_eq_dec : EqDecision TokenType.
Proof. solve_decision. Defined.

(** The constants in the order of the enumeration. *)
Definition all_types : list TokenType := [
  Tok_Invalid; TT_Literals; Tok_Lpar; Tok_Rpar; Tok_2Minus; Tok_2MinusLbrack; Tok_Dot; Tok_Colon;
  Tok_Eq; Tok_Rbrack2Minus; Tok_Lbrace; Tok_Rbrace; TT_Keywords; Tok_ADD; Tok_CALL; Tok_CALLT;
  Tok_CAT; Tok_DIV; Tok_FNEW; Tok_FORI; Tok_FORL; Tok_GGET; Tok_GSET; Tok_ISEQ; Tok_ISF; Tok_ISFC;
  Tok_ISGE; Tok_ISGT; Tok_ISLE; Tok_ISLT; Tok_ISNE; Tok_IST; Tok_ISTC; Tok_JMP; Tok_KNIL; Tok_KSET;
  Tok_LEN; Tok_LOOP; Tok_MOD; Tok_MOV; Tok_MUL; Tok_NOT; Tok_POW; Tok_RET; Tok_SUB; Tok_TDUP;
  Tok_TGET; Tok_TNEW; Tok_TSET; Tok_UCLO; Tok_UGET; Tok_UNM; Tok_USET; Tok_begin; Tok_const;
  Tok_end; Tok_false; Tok_function; Tok_nil; Tok_true; Tok_var; TT_Specials; Tok_ident; Tok_string;
  Tok_real; Tok_posint; Tok_negint; Tok_Comment; Tok_Eof; TT_MaxToken; TT_Max].

(** [src/LjasTokenType.cpp:5-75] tokenTypeString *)
Definition tokenTypeString (r : TokenType) : bytes :=
  match r with
  | Tok_Invalid => qb "<invalid>" | Tok_Lpar => qb "(" | Tok_Rpar => qb ")" | Tok_2Minus => qb "--"
  | Tok_2MinusLbrack => qb "--[" | Tok_Dot => qb "." | Tok_Colon => qb ":" | Tok_Eq => qb "="
  | Tok_Rbrack2Minus => qb "]--" | Tok_Lbrace => qb "{" | Tok_Rbrace => qb "}"
  | Tok_ADD => qb "ADD" | Tok_CALL => qb "CALL" | Tok_CALLT => qb "CALLT" | Tok_CAT => qb "CAT"
  | Tok_DIV => qb "DIV" | Tok_FNEW => qb "FNEW" | Tok_FORI => qb "FORI" | Tok_FORL => qb "FORL"
  | Tok_GGET => qb "GGET" | Tok_GSET => qb "GSET" | Tok_ISEQ => qb "ISEQ" | Tok_ISF => qb "ISF"
  | Tok_ISFC => qb "ISFC" | Tok_ISGE => qb "ISGE" | Tok_ISGT => qb "ISGT" | Tok_ISLE => qb "ISLE"
  | Tok_ISLT => qb "ISLT" | Tok_ISNE => qb "ISNE" | Tok_IST => qb "IST" | Tok_ISTC => qb "ISTC"
  | Tok_JMP => qb "JMP" | Tok_KNIL => qb "KNIL" | Tok_KSET => qb "KSET" | Tok_LEN => qb "LEN"
  | Tok_LOOP => qb "LOOP" | Tok_MOD => qb "MOD" | Tok_MOV => qb "MOV" | Tok_MUL => qb "MUL"
  | Tok_NOT => qb "NOT" | Tok_POW => qb "POW" | Tok_RET => qb "RET" | Tok_SUB => qb "SUB"
  | Tok_TDUP => qb "TDUP" | Tok_TGET => qb "TGET" | Tok_TNEW => qb "TNEW" | Tok_TSET => qb "TSET"
  | Tok_UCLO => qb "UCLO" | Tok_UGET => qb "UGET" | Tok_UNM => qb "UNM" | Tok_USET => qb "USET"
  | Tok_begin => qb "begin" | Tok_const => qb "const" | Tok_end => qb "end"
  | Tok_false => qb "false" | Tok_function => qb "function" | Tok_nil => qb "nil"
  | Tok_true => qb "true" | Tok_var => qb "var" | Tok_ident => qb "ident"
  | Tok_string => qb "string" | Tok_real => qb "real" | Tok_posint => qb "posint"
  | Tok_negint => qb "negint" | Tok_Comment => qb "Comment" | Tok_Eof => qb "<eof>"
  | _ => []
  end.

(** [src/LjasTokenType.cpp:76-146] tokenTypeName *)
Definition tokenTypeName (r : TokenType) : bytes :=
  match r with
  | Tok_Invalid => qb "Tok_Invalid" | Tok_Lpar => qb "Tok_Lpar" | Tok_Rpar => qb "Tok_Rpar"
  | Tok_2Minus => qb "Tok_2Minus" | Tok_2MinusLbrack => qb "Tok_2MinusLbrack"
  | Tok_Dot => qb "Tok_Dot" | Tok_Colon => qb "Tok_Colon" | Tok_Eq => qb "Tok_Eq"
  | Tok_Rbrack2Minus => qb "Tok_Rbrack2Minus" | Tok_Lbrace => qb "Tok_Lbrace"
  | Tok_Rbrace => qb "Tok_Rbrace" | Tok_ADD => qb "Tok_ADD" | Tok_CALL => qb "Tok_CALL"
  | Tok_CALLT => qb "Tok_CALLT" | Tok_CAT => qb "Tok_CAT" | Tok_DIV => qb "Tok_DIV"
  | Tok_FNEW => qb "Tok_FNEW" | Tok_FORI => qb "Tok_FORI" | Tok_FORL => qb "Tok_FORL"
  | Tok_GGET => qb "Tok_GGET" | Tok_GSET => qb "Tok_GSET" | Tok_ISEQ => qb "Tok_ISEQ"
  | Tok_ISF => qb "Tok_ISF" | Tok_ISFC => qb "Tok_ISFC" | Tok_ISGE => qb "Tok_ISGE"
  | Tok_ISGT => qb "Tok_ISGT" | Tok_ISLE => qb "Tok_ISLE" | Tok_ISLT => qb "Tok_ISLT"
  | Tok_ISNE => qb "Tok_ISNE" | Tok_IST => qb "Tok_IST" | Tok_ISTC => qb "Tok_ISTC"
  | Tok_JMP => qb "Tok_JMP" | Tok_KNIL => qb "Tok_KNIL" | Tok_KSET => qb "Tok_KSET"
  | Tok_LEN => qb "Tok_LEN" | Tok_LOOP => qb "Tok_LOOP" | Tok_MOD => qb "Tok_MOD"
  | Tok_MOV => qb "Tok_MOV" | Tok_MUL => qb "Tok_MUL" | Tok_NOT => qb "Tok_NOT"
  | Tok_POW => qb "Tok_POW" | Tok_RET => qb "Tok_RET" | Tok_SUB => qb "Tok_SUB"
  | Tok_TDUP => qb "Tok_TDUP" | Tok_TGET => qb "Tok_TGET" | Tok_TNEW => qb "Tok_TNEW"
  | Tok_TSET => qb "Tok_TSET" | Tok_UCLO => qb "Tok_UCLO" | Tok_UGET => qb "Tok_UGET"
  | Tok_UNM => qb "Tok_UNM" | Tok_USET => qb "Tok_USET" | Tok_begin => qb "Tok_begin"
  | Tok_const => qb "Tok_const" | Tok_end => qb "Tok_end" | Tok_false => qb "Tok_false"
  | Tok_function => qb "Tok_function" | Tok_nil => qb "Tok_nil" | Tok_true => qb "Tok_true"
  | Tok_var => qb "Tok_var" | Tok_ident => qb "Tok_ident" | Tok_string => qb "Tok_string"
  | Tok_real => qb "Tok_real" | Tok_posint => qb "Tok_posint" | Tok_negint => qb "Tok_negint"
  | Tok_Comment => qb "Tok_Comment" | Tok_Eof => qb "Tok_Eof"
  | _ => []
  end.

(** [src/LjasTokenType.cpp:496-552] tokenTypeFromString *)
Definition from_string_3 (str : bytes) (i : Z) : option (TokenType * Z) :=
  if is_ str i 0 "f" then (if is_ str i 1 "a" then (if is_ str i 2 "l" then if is_ str i 3 "s" then if is_ str i 4 "e" then Some (Tok_false, 5)
          else None
        else None
      else None)
    else if is_ str i 1 "u" then (if is_ str i 2 "n" then if is_ str i 3 "c" then if is_ str i 4 "t" then if is_ str i 5 "i" then if is_ str i 6 "o" then if is_ str i 7 "n" then Some (Tok_function, 8)
                else None
              else None
            else None
          else None
        else None
      else None)
    else None)
  else if is_ str i 0 "n" then (if is_ str i 1 "i" then if is_ str i 2 "l" then Some (Tok_nil, 3)
      else None
    else None)
  else if is_ str i 0 "t" then (if is_ str i 1 "r" then if is_ str i 2 "u" then if is_ str i 3 "e" then Some (Tok_true, 4)
        else None
      else None
    else None)
  else if is_ str i 0 "v" then (if is_ str i 1 "a" then if is_ str i 2 "r" then Some (Tok_var, 3)
      else None
    else None)
  else if is_ str i 0 "{" then Some (Tok_Lbrace, 1)
  else if is_ str i 0 "}" then Some (Tok_Rbrace, 1)
  else None.

(** [src/LjasTokenType.cpp:377-495] tokenTypeFromString *)
Definition from_string_2 (str : bytes) (i : Z) : option (TokenType * Z) :=
  if is_ str i 0 "P" then (if is_ str i 1 "O" then if is_ str i 2 "W" then Some (Tok_POW, 3)
      else None
    else None)
  else if is_ str i 0 "R" then (if is_ str i 1 "E" then if is_ str i 2 "T" then Some (Tok_RET, 3)
      else None
    else None)
  else if is_ str i 0 "S" then (if is_ str i 1 "U" then if is_ str i 2 "B" then Some (Tok_SUB, 3)
      else None
    else None)
  else if is_ str i 0 "T" then (if is_ str i 1 "D" then (if is_ str i 2 "U" then if is_ str i 3 "P" then Some (Tok_TDUP, 4)
        else None
      else None)
    else if is_ str i 1 "G" then (if is_ str i 2 "E" then if is_ str i 3 "T" then Some (Tok_TGET, 4)
        else None
      else None)
    else if is_ str i 1 "N" then (if is_ str i 2 "E" then if is_ str i 3 "W" then Some (Tok_TNEW, 4)
        else None
      else None)
    else if is_ str i 1 "S" then (if is_ str i 2 "E" then if is_ str i 3 "T" then Some (Tok_TSET, 4)
        else None
      else None)
    else None)
  else if is_ str i 0 "U" then (if is_ str i 1 "C" then (if is_ str i 2 "L" then if is_ str i 3 "O" then Some (Tok_UCLO, 4)
        else None
      else None)
    else if is_ str i 1 "G" then (if is_ str i 2 "E" then if is_ str i 3 "T" then Some (Tok_UGET, 4)
        else None
      else None)
    else if is_ str i 1 "N" then (if is_ str i 2 "M" then Some (Tok_UNM, 3)
      else None)
    else if is_ str i 1 "S" then (if is_ str i 2 "E" then if is_ str i 3 "T" then Some (Tok_USET, 4)
        else None
      else None)
    else None)
  else if is_ str i 0 "]" then (if is_ str i 1 "-" then if is_ str i 2 "-" then Some (Tok_Rbrack2Minus, 3)
      else None
    else None)
  else if is_ str i 0 "b" then (if is_ str i 1 "e" then if is_ str i 2 "g" then if is_ str i 3 "i" then if is_ str i 4 "n" then Some (Tok_begin, 5)
          else None
        else None
      else None
    else None)
  else if is_ str i 0 "c" then (if is_ str i 1 "o" then if is_ str i 2 "n" then if is_ str i 3 "s" then if is_ str i 4 "t" then Some (Tok_const, 5)
          else None
        else None
      else None
    else None)
  else if is_ str i 0 "e" then (if is_ str i 1 "n" then if is_ str i 2 "d" then Some (Tok_end, 3)
      else None
    else None)
  else from_string_3 str i.

(** [src/LjasTokenType.cpp:260-376] tokenTypeFromString *)
Definition from_string_1 (str : bytes) (i : Z) : option (TokenType * Z) :=
  if is_ str i 0 "I" then (if is_ str i 1 "S" then if is_ str i 2 "E" then (if is_ str i 3 "Q" then Some (Tok_ISEQ, 4)
        else None)
      else if is_ str i 2 "F" then (if is_ str i 3 "C" then Some (Tok_ISFC, 4)
        else Some (Tok_ISF, 3))
      else if is_ str i 2 "G" then (if is_ str i 3 "E" then Some (Tok_ISGE, 4)
        else if is_ str i 3 "T" then Some (Tok_ISGT, 4)
        else None)
      else if is_ str i 2 "L" then (if is_ str i 3 "E" then Some (Tok_ISLE, 4)
        else if is_ str i 3 "T" then Some (Tok_ISLT, 4)
        else None)
      else if is_ str i 2 "N" then (if is_ str i 3 "E" then Some (Tok_ISNE, 4)
        else None)
      else if is_ str i 2 "T" then (if is_ str i 3 "C" then Some (Tok_ISTC, 4)
        else Some (Tok_IST, 3))
      else None
    else None)
  else if is_ str i 0 "J" then (if is_ str i 1 "M" then if is_ str i 2 "P" then Some (Tok_JMP, 3)
      else None
    else None)
  else if is_ str i 0 "K" then (if is_ str i 1 "N" then (if is_ str i 2 "I" then if is_ str i 3 "L" then Some (Tok_KNIL, 4)
        else None
      else None)
    else if is_ str i 1 "S" then (if is_ str i 2 "E" then if is_ str i 3 "T" then Some (Tok_KSET, 4)
        else None
      else None)
    else None)
  else if is_ str i 0 "L" then (if is_ str i 1 "E" then (if is_ str i 2 "N" then Some (Tok_LEN, 3)
      else None)
    else if is_ str i 1 "O" then (if is_ str i 2 "O" then if is_ str i 3 "P" then Some (Tok_LOOP, 4)
        else None
      else None)
    else None)
  else if is_ str i 0 "M" then (if is_ str i 1 "O" then (if is_ str i 2 "D" then Some (Tok_MOD, 3)
      else if is_ str i 2 "V" then Some (Tok_MOV, 3)
      else None)
    else if is_ str i 1 "U" then (if is_ str i 2 "L" then Some (Tok_MUL, 3)
      else None)
    else None)
  else if is_ str i 0 "N" then (if is_ str i 1 "O" then if is_ str i 2 "T" then Some (Tok_NOT, 3)
      else None
    else None)
  else from_string_2 str i.

(** [src/LjasTokenType.cpp:163-259] tokenTypeFromString *)
Definition from_string (str : bytes) (i : Z) : option (TokenType * Z) :=
  if is_ str i 0 "(" then Some (Tok_Lpar, 1)
  else if is_ str i 0 ")" then Some (Tok_Rpar, 1)
  else if is_ str i 0 "-" then (if is_ str i 1 "-" then if is_ str i 2 "[" then Some (Tok_2MinusLbrack, 3)
      else Some (Tok_2Minus, 2)
    else None)
  else if is_ str i 0 "." then Some (Tok_Dot, 1)
  else if is_ str i 0 ":" then Some (Tok_Colon, 1)
  else if is_ str i 0 "=" then Some (Tok_Eq, 1)
  else if is_ str i 0 "A" then (if is_ str i 1 "D" then if is_ str i 2 "D" then Some (Tok_ADD, 3)
      else None
    else None)
  else if is_ str i 0 "C" then (if is_ str i 1 "A" then if is_ str i 2 "L" then (if is_ str i 3 "L" then if is_ str i 4 "T" then Some (Tok_CALLT, 5)
          else Some (Tok_CALL, 4)
        else None)
      else if is_ str i 2 "T" then Some (Tok_CAT, 3)
      else None
    else None)
  else if is_ str i 0 "D" then (if is_ str i 1 "I" then if is_ str i 2 "V" then Some (Tok_DIV, 3)
      else None
    else None)
  else if is_ str i 0 "F" then (if is_ str i 1 "N" then (if is_ str i 2 "E" then if is_ str i 3 "W" then Some (Tok_FNEW, 4)
        else None
      else None)
    else if is_ str i 1 "O" then (if is_ str i 2 "R" then if is_ str i 3 "I" then Some (Tok_FORI, 4)
        else if is_ str i 3 "L" then Some (Tok_FORL, 4)
        else None
      else None)
    else None)
  else if is_ str i 0 "G" then (if is_ str i 1 "G" then (if is_ str i 2 "E" then if is_ str i 3 "T" then Some (Tok_GGET, 4)
        else None
      else None)
    else if is_ str i 1 "S" then (if is_ str i 2 "E" then if is_ str i 3 "T" then Some (Tok_GSET, 4)
        else None
      else None)
    else None)
  else from_string_1 str i.

(** The type of the token at [pos], and the position after it; [pos] stays where it is
    when there is none.
    [src/LjasTokenType.cpp:159-162] tokenTypeFromString *)
Definition tokenTypeFromString (str : bytes) (pos : Z) : TokenType * Z :=
  match from_string str pos with
  | Some (t, n) => (t, pos + n)
  | None => (Tok_Invalid, pos)
  end.

Definition tt_val (t : TokenType) : Z :=
  match list_find (fun t' => t' = t) all_types with Some (i, _) => Z.of_nat i | None => 0 end.

(** [src/LjasTokenType.cpp:147-149] tokenTypeIsLiteral *)
Definition tokenTypeIsLiteral (t : TokenType) : bool := (tt_val TT_Literals <? tt_val t) && (tt_val t <? tt_val TT_Keywords).
(** [src/LjasTokenType.cpp:150-152] tokenTypeIsKeyword *)
Definition tokenTypeIsKeyword (t : TokenType) : bool := (tt_val TT_Keywords <? tt_val t) && (tt_val t <? tt_val TT_Specials).
(** [src/LjasTokenType.cpp:153-155] tokenTypeIsSpecial *)
Definition tokenTypeIsSpecial (t : TokenType) : bool := (tt_val TT_Specials <? tt_val t) && (tt_val t <? tt_val TT_Max).

(** ** What [tokenTypeFromString] recognises *)

(** The literals and the keywords. *)
Definition fixed_tokens : list TokenType :=
  filter (fun t => tokenTypeIsLiteral t || tokenTypeIsKeyword t) all_types.

Definition ljas_tree : tree TokenType :=
  ltac:(let t := eval cbv beta delta [from_string from_string_1 from_string_2 from_string_3] in (from_string [] 0) in
        let tr := tree_of TokenType t in exact tr).

Lemma ljas_string_eval str i : from_string str i = eval ljas_tree str i.
Proof. reflexivity. Qed.

Lemma ljas_tree_check : check fixed_tokens tokenTypeString [] ljas_tree [] [] = true.
Proof. vm_compute. reflexivity. Qed.
