(* ===== verification/LjasLexer.v ===== *)
(** * The lexer of the assembler

    [Lexer] of [LjasLexer.h/.cpp].  The code that it has in common with the lexer of Lua is
    in LexCore.v, here with the lines where it is in this lexer; numbers, the starts of
    comments, strings, and which token starts with a character are its own. *)

From S2P Require Import Prelude TokenTree LexCore LjasToken.
From Stdlib Require Import Strings.Byte.
Local Open Scope Z_scope.
Local Open Scope rd_scope.

#[export] Instance Ljas_kind : TokenKind TokenType := {|
  kind_eq_dec := TokenType_eq_dec;
  k_invalid := Tok_Invalid; k_eof := Tok_Eof; k_name := Tok_ident; k_comment := Tok_Comment;
  k_lcmt := Tok_2MinusLbrack; k_rcmt := Tok_Rbrack2Minus;
  k_from_string := tokenTypeFromString
|}.

Abbreviation Token := (LexToken TokenType).
(** The state of the lexer has the same fields as that of Lua, [LexState]. *)
Abbreviation Lexer := (LexState TokenType).
Abbreviation LM := (SM Lexer).

(** ** What is in common *)

(** [src/LjasLexer.cpp:30-35] Lexer *)
Definition new_Lexer : Lexer := LexCore.new_Lexer.
(** [src/LjasLexer.h:42-42] setErrors *)
Definition setErrors (on : bool) : Lexer -> Lexer := LexCore.setErrors on.
(** [src/LjasLexer.h:44-44] setIgnoreComments *)
Definition setIgnoreComments (b : bool) : Lexer -> Lexer := LexCore.setIgnoreComments b.
(** [src/LjasLexer.h:45-45] setPackComments *)
Definition setPackComments (b : bool) : Lexer -> Lexer := LexCore.setPackComments b.

(** [src/LjasLexer.cpp:37-49] setStream *)
Definition setStream (content path : bytes) : LM unit := LexCore.setStream content path.
(** [src/LjasLexer.cpp:51-86] setStream *)
Definition setStream_path (cache file : bytes -> option bytes) (path : bytes) : LM bool :=
  LexCore.setStream_path cache file path.

(** [src/LjasLexer.cpp:132-140] getSymbol *)
Definition getSymbol (str : bytes) : LM bytes := LexCore.getSymbol str.
(** [src/LjasLexer.cpp:142-145] clearSymbols *)
Definition clearSymbols : LM unit := LexCore.clearSymbols.

(** [src/LjasLexer.cpp:147-159] isValidIdent *)
Definition isValidIdent (id : bytes) : bool := LexCore.isValidIdent id.
(** [src/LjasLexer.cpp:161-164] isCharacter *)
Definition isCharacter (ch : byte) (withDigit : bool) : bool := LexCore.isCharacter ch withDigit.
(** [src/LjasLexer.cpp:263-271] isOnlyDecimalDigit *)
Definition isOnlyDecimalDigit (str : bytes) : bool := LexCore.isOnlyDecimalDigit str.

(** [src/LjasLexer.cpp:220-226] skipWhiteSpace *)
Definition skipWhiteSpace : LM unit := LexCore.skipWhiteSpace.
(** [src/LjasLexer.cpp:228-238] nextLine *)
Definition nextLine : LM unit := LexCore.nextLine.
(** [src/LjasLexer.cpp:240-247] lookAhead *)
Definition lookAhead (x : Lexer) (off : Z) : byte := LexCore.lookAhead x off.

(** [src/LjasLexer.cpp:249-261] token *)
Definition token (ty : TokenType) (len : Z) (val : bytes) : LM Token := LexCore.token ty len val.
(** [src/LjasLexer.cpp:273-296] ident *)
Definition ident : LM Token := LexCore.ident.

(** ** Numbers, comments and strings *)

(** The scale factor of a real number, at an [e]: the offset behind it, and whether it has
    digits.
    [src/LjasLexer.cpp:327-345] number *)
Definition exponent (x : Lexer) (off : Z) : Z * bool := scale_factor x off.

(** A number starts with a digit or with a sign in front of a digit.
    [src/LjasLexer.cpp:298-357] number *)
Definition number : LM Token :=
  x <~ rget id;
  let isNeg := Byte.eqb (lookAhead x 0) "-" in
  let off := scan x isdigit 1 in
  let '(isReal, off, ok) :=
    if Byte.eqb (lookAhead x off) "." then
      let off := scan x isdigit (off + 1) in
      if Byte.eqb (lookAhead x off) "e" then let '(off, ok) := exponent x off in (true, off, ok)
      else (true, off, true)
    else (false, off, true) in
  if negb (ok : bool) then token Tok_Invalid off (qb "invalid real")
  else
    let str := mid (d_line x) (x_colNr x) off in
    if bool_decide (str = []) then rfail
    else if (isReal : bool) then token Tok_real off str
    else if isNeg then token Tok_negint off str
    else token Tok_posint off str.

(** [src/LjasLexer.cpp:359-409] comment *)
Definition comment : LM Token :=
  x <~ rget id;
  if negb (Byte.eqb (lookAhead x 2) "[") then line_comment x else block_comment (qb "]--").

(** The loop over the characters: the offset behind the string, and whether it ends.
    [src/LjasLexer.cpp:414-424] string *)
Fixpoint string_loop (fuel : nat) (x : Lexer) (off : Z) : option (Z * bool) :=
  match fuel with
  | O => None
  | S fuel =>
      let c := lookAhead x off in
      let off := off + 1 in
      if Byte.eqb c "\" && Byte.eqb (lookAhead x off) x22 then string_loop fuel x (off + 1)
      else if Byte.eqb c x22 then Some (off, true)
      else if Byte.eqb c x00 then Some (off, false)
      else string_loop fuel x off
  end.

(** The fuel is one more than the characters of the line.
    [src/LjasLexer.cpp:411-427] string *)
Definition string_ : LM Token :=
  x <~ rget id;
  match string_loop (S (length (d_line x))) x 1 with
  | None => rfail
  | Some (off, false) => token Tok_Invalid off (qb "non-terminated string")
  | Some (off, true) => token Tok_string off (mid (d_line x) (x_colNr x) off)
  end.

(** ** The next token *)

(** The token at the position, where there is a character.
    [src/LjasLexer.cpp:184-217] nextTokenImp *)
Definition token_here : LM Token :=
  x <~ rget id;
  let ch := at_ (d_line x) (x_colNr x) in
  let la := lookAhead x 1 in
  if Byte.eqb ch x22 then string_
  else if isalpha ch || Byte.eqb ch "_" then ident
  else if isdigit ch then number
  else if Byte.eqb ch "-" && Byte.eqb la "-" then comment
  else if Byte.eqb ch "-" && isdigit la then number
  else if Byte.eqb ch "+" && isdigit la then number
  else literal ch.

(** [src/LjasLexer.cpp:166-218] nextTokenImp *)
Definition nextTokenImp : LM Token := next_imp token_here.
(** [src/LjasLexer.cpp:88-100] nextToken *)
Definition nextToken (fuel : nat) : LM Token := next_skip token_here fuel.
(** [src/LjasLexer.cpp:102-108] peekToken *)
Definition peekToken (lookAhead : nat) : LM Token := peek_ahead token_here lookAhead.
(** [src/LjasLexer.cpp:110-130] tokens *)
Definition tokens (fuel : nat) (code path : bytes) : LM (list Token) := lex_tokens token_here fuel code path.
