(* ===== verification/LjasLexerSpec.v ===== *)
(** * What the lexer of the assembler delivers

    The lexer ends on every text, and each token is what the text has at its position.
    Some texts that it gets wrong are at the start. *)

From S2P Require Import Prelude TokenTree LexCore LexCoreSpec LjasToken LjasLexer.
From Stdlib Require Import Strings.Byte.
Local Open Scope Z_scope.
Local Open Scope rd_scope.

(** The types and values of the tokens of a text. *)
Definition ljas_lex (code : bytes) : option (list (TokenType * bytes)) :=
  option_map (fun r => map (fun t => (d_type t, d_val t)) (fst r))
    (tokens (S (length code)) code [] (setErrors true new_Lexer)).

Example ljas_lex_code : ljas_lex (qb "ADD x, -1 +20 1.5e-3 CALLT") = Some [(Tok_ADD, []); (Tok_ident, qb "x")].
Proof. vm_compute. reflexivity. Qed.

Example ljas_lex_numbers : ljas_lex (qb "KSET x -1 +20 7 1.5e-3 2. -- rest") =
  Some [(Tok_KSET, []); (Tok_ident, qb "x"); (Tok_negint, qb "-1"); (Tok_posint, qb "+20"); (Tok_posint, qb "7");
        (Tok_real, qb "1.5e-3"); (Tok_real, qb "2.")].
Proof. vm_compute. reflexivity. Qed.

(** A block comment that ends on the last line of the file ends the list of the tokens. *)
Remark ljas_comment_on_last_line : ljas_lex (qb "MOV --[ x ]-- y") = Some [(Tok_MOV, [])].
Proof. vm_compute. reflexivity. Qed.

(** A string with a doubled backslash at its end does not end: the second one is taken
    with the quote. *)
Remark ljas_backslash_string :
  ljas_lex [x22; "a"; "\"; "\"; x22]%byte = Some [] /\
  ljas_lex [x22; "a"; "\"; x22; x22]%byte = Some [(Tok_string, [x22; "a"; "\"; x22; x22]%byte)].
Proof. vm_compute. done. Qed.

(** ** The texts of the tokens *)

Definition digits (s : bytes) : Prop := s <> [] /\ forallb isdigit s = true.

(** The scale factor of a real number. *)
Inductive scale : bytes -> Prop :=
  | scale_none : scale []
  | scale_some sg ds : sg = [] \/ sg = ["+"]%byte \/ sg = ["-"]%byte -> digits ds -> scale ("e"%byte :: sg ++ ds).

(** What is between the quotes of a string: a quote only behind a backslash, which takes
    it. *)
Inductive quoted : bytes -> Prop :=
  | quoted_nil : quoted []
  | quoted_escape s : quoted s -> quoted ("\"%byte :: x22 :: s)
  | quoted_char c s : c <> x22 -> c <> x00 -> (c = "\"%byte -> s <> [] /\ hd x00 s <> x22) ->
      quoted s -> quoted (c :: s).

Definition number_text (t : TokenType) (s : bytes) : Prop :=
  match t with
  | Tok_posint => exists ds, digits ds /\ (s = ds \/ s = "+"%byte :: ds)
  | Tok_negint => exists ds, digits ds /\ s = "-"%byte :: ds
  | _ => exists sg ds fs e, (sg = [] \/ sg = ["+"]%byte \/ sg = ["-"]%byte) /\ digits ds /\
      forallb isdigit fs = true /\ scale e /\ s = sg ++ ds ++ "."%byte :: fs ++ e
  end.

#[export] Instance Ljas_texts : TokenTexts TokenType := {|
  k_fixed := fixed_tokens;
  k_text := tokenTypeString;
  k_shifted _ := false;
  k_other t text val :=
    match t with
    | Tok_posint | Tok_negint | Tok_real => text = val /\ number_text t val
    | Tok_string => text = val /\ exists s, val = x22 :: s ++ [x22] /\ quoted s
    | Tok_Comment => True
    | _ => False
    end
|}.

(** ** What [tokenTypeFromString] finds *)
Lemma ljas_nonzero t : t ∈ fixed_tokens -> Forall (fun c => c <> x00) (tokenTypeString t) /\ tokenTypeString t <> [].
Proof.
  intros Ht. assert (Hall : Forall (fun t => Forall (fun c => c <> x00) (tokenTypeString t) /\
    tokenTypeString t <> []) fixed_tokens) by by_decide.
  rewrite Forall_forall in Hall. by apply Hall.
Qed.

Lemma ljas_recognises str i : recognises fixed_tokens tokenTypeString [] (from_string str i) str i.
Proof.
  rewrite ljas_string_eval.
  apply (check_sound fixed_tokens tokenTypeString [] str i ljas_tree [] []); [constructor..|apply ljas_tree_check].
Qed.

Lemma ljas_invalid : Tok_Invalid ∉ fixed_tokens.
Proof. by_decide. Qed.

Lemma ljas_found str i t n : from_string str i = Some (t, n) -> t ∈ fixed_tokens.
Proof.
  unfold from_string, from_string_1, from_string_2, from_string_3. intros H.
  repeat match type of H with (if ?b then _ else _) = _ => destruct b end;
    try discriminate; injection H as <- <-; by_decide.
Qed.

Lemma ljas_fixed t : t ∈ fixed_tokens ->
  (Forall (fun c => c <> x00) (tokenTypeString t) /\ tokenTypeString t <> []) /\ t <> Tok_Invalid.
Proof. intros Ht. split; [by apply ljas_nonzero|]. intros ->. by destruct ljas_invalid. Qed.

Lemma ljas_whole t : t ∈ fixed_tokens ->
  from_string (tokenTypeString t) 0 = Some (t, Z.of_nat (length (tokenTypeString t))).
Proof.
  intros Ht. assert (Hall : Forall (fun t => from_string (tokenTypeString t) 0 =
    Some (t, Z.of_nat (length (tokenTypeString t)))) fixed_tokens) by by_decide.
  rewrite Forall_forall in Hall. by apply Hall.
Qed.

#[export] Instance Ljas_laws : TokenLaws TokenType.
Proof.
  split; simpl.
  - done.
  - intros t Ht. destruct t; try done; exfalso; revert Ht; by_decide.
  - done.
  - done.
  - exact (word_law from_string [] (fun _ _ => eq_refl) ljas_found ljas_recognises ljas_fixed ljas_whole).
  - exact (literal_law from_string [] (fun _ _ => eq_refl) ljas_found ljas_recognises ljas_fixed ljas_whole).
  - done.
  - intros t Ht ->. revert Ht. by_decide.
Qed.

(** ** One token *)

Section Text.
Context (code : bytes) (ign : bool) (Hok : text_ok code).
Abbreviation llen k := (Z.of_nat (length (code_line code k))).
Abbreviation at_pos := (at_pos (K := TokenType) code ign).
Abbreviation lexed := (lexed code ign).
Abbreviation ahead := (ahead code).
Abbreviation lookAhead_hd := (lookAhead_hd code ign).

Lemma ljas_invalid_token k c x len val : at_pos k c x -> (k <= length code)%nat -> 0 <= c -> 0 < len -> c + len <= llen k + 1 ->
  wp (token Tok_Invalid len val) (lexed k c) x.
Proof using Hok.
  intros Hx Hk H0 Hl Hc. refine (wp_token_invalid code ign Hok k c k c x len val Hx _ _); [split; lia|right; simpl; lia].
Qed.

(** A token whose text is its value. *)
Lemma wp_plain k c x w v ty :
  at_pos k c x -> 0 <= c -> (k <= length code)%nat -> ahead k c 0 (w ++ v) -> w <> [] ->
  ty ∈ [Tok_real; Tok_posint; Tok_negint; Tok_string] -> k_other ty w w ->
  wp (token ty (Z.of_nat (length w)) (mid (code_line code k) c (Z.of_nat (length w)))) (lexed k c) x.
Proof using Hok.
  intros Hx H0 Hk Ha Hw Hty Ho. apply ahead_app in Ha as Hb. destruct Hb as [Hb _].
  assert (Hne : ty <> Tok_Eof /\ ty <> Tok_ident /\ ty ∉ fixed_tokens).
  { clear - Hty. revert ty Hty. apply Forall_forall. by_decide. }
  apply (wp_token_valid code ign Hok); try done.
  - destruct w; [done|simpl length; lia].
  - apply Hne.
  - intros t Et Ev Htext. apply well_lexed_other; rewrite Et; [apply Hne..|].
    rewrite Htext, Ev, (mid_app code k c w v) by done. exact Ho.
Qed.

(** The scale factor of a number. *)
Lemma exponent_ahead k c x off r :
  at_pos k c x -> ahead k c off ("e"%byte :: r) ->
  let '(off', ok) := exponent x off in
  ok = true -> exists e v, "e"%byte :: r = e ++ v /\ scale e /\ off' = off + Z.of_nat (length e).
Proof.
  intros Hx Ha. unfold exponent, scale_factor. apply ahead_cons in Ha as Hb.
  rewrite !(lookAhead_hd k c _ _ x Hx Hb).
  assert (Hdig : forall sg s off', (sg = [] \/ sg = ["+"]%byte \/ sg = ["-"]%byte) -> r = sg ++ s ->
    off' = off + 1 + Z.of_nat (length sg) -> ahead k c off' s -> isdigit (hd x00 s) = true ->
    exists e v, "e"%byte :: r = e ++ v /\ scale e /\ scan x isdigit off' = off + Z.of_nat (length e)).
  { intros sg s off' Hsg -> -> Hs Hd. destruct (scan_split code ign k c _ isdigit s x Hx Hs) as (a & v & -> & Hda & Hv & -> & _).
    exists ("e"%byte :: sg ++ a), v. split; [simpl; by rewrite app_assoc|]. split; [|simpl length; rewrite length_app; lia].
    constructor; [done|]. split; [|done]. intros ->. destruct v as [|b v]; [done|]. simpl in Hd. congruence. }
  destruct r as [|b r]; [done|]. cbn [hd]. destruct (Byte.eqb b "+" || Byte.eqb b "-") eqn:Es.
  - apply ahead_cons in Hb as Hc. rewrite !(lookAhead_hd k c _ _ x Hx Hc).
    destruct (isdigit (hd x00 r)) eqn:Ed; cbn [negb]; intros E; [|done].
    apply (Hdig [b] r); try done. right.
    apply orb_true_iff in Es as [Es|Es]; apply eqb_eq in Es as ->; auto.
  - destruct (isdigit b) eqn:Ed; cbn [negb]; intros E; [|done]. apply (Hdig [] (b :: r)); try done; [by left|simpl; lia].
Qed.

(** A number from its sign, if any, and its first digit on. *)
Lemma ljas_wp_number k c x sg d r :
  at_pos k c x -> 0 <= c -> (k <= length code)%nat -> (sg = [] \/ sg = ["+"]%byte \/ sg = ["-"]%byte) ->
  isdigit d = true -> ahead k c 0 (sg ++ d :: r) -> wp number (lexed k c) x.
Proof using Hok.
  intros Hx H0 Hk Hsg Hd Ha. apply wp_bind, wp_get. unfold id. rewrite (at_line _ _ _ _ _ Hx), (at_col _ _ _ _ _ Hx).
  assert (Hneg : Byte.eqb (lookAhead x 0) "-" = bool_decide (sg = ["-"]%byte)).
  { unfold lookAhead. rewrite (lookAhead_hd k c _ _ x Hx Ha). destruct Hsg as [-> | [-> | ->]]; [|done..]. by destruct d. }
  rewrite Hneg. assert (Hint : exists ds v, sg ++ d :: r = (sg ++ ds) ++ v /\ digits ds /\
      scan x isdigit 1 = Z.of_nat (length (sg ++ ds)) /\ ahead k c (Z.of_nat (length (sg ++ ds))) v).
  { assert (Hb : exists s, ahead k c 1 s /\ (sg = [] /\ s = r \/ length sg = 1%nat /\ s = d :: r)).
    { destruct Hsg as [-> | [-> | ->]]; [exists r|exists (d :: r)..]; (split; [by apply ahead_cons in Ha|auto]). }
    destruct Hb as (s & Hb & Hs). destruct (scan_split code ign k c _ isdigit s x Hx Hb) as (a & v & -> & Hda & Hv & -> & Hc).
    destruct Hs as [[-> <-]|[Hl Hs]].
    - exists (d :: a), v. split; [done|]. split; [split; [done|by simpl; rewrite Hd]|].
      simpl app. simpl length. replace (Z.of_nat (S (length a))) with (1 + Z.of_nat (length a)) by lia. done.
    - exists a, v. split; [by rewrite <- app_assoc, Hs|]. split.
      + split; [|done]. intros ->. simpl in Hs. subst v. congruence.
      + rewrite length_app, Hl. replace (Z.of_nat (1 + length a)) with (1 + Z.of_nat (length a)) by lia. done. }
  destruct Hint as (ds & v & Ew & Hds & -> & Hv). rewrite Ew in Ha.
  assert (Hne : forall t, sg ++ ds ++ t <> []).
  { intros t E. destruct Hds as [Hds _]. apply app_eq_nil in E as [_ E]. by apply app_eq_nil in E as [? _]. }
  assert (Hreal : forall fs e u, v = "."%byte :: fs ++ e ++ u -> forallb isdigit fs = true -> scale e ->
    wp (let str := mid (code_line code k) c (Z.of_nat (length ((sg ++ ds) ++ "."%byte :: fs ++ e))) in
        if bool_decide (str = []) then rfail
        else token Tok_real (Z.of_nat (length ((sg ++ ds) ++ "."%byte :: fs ++ e))) str) (lexed k c) x).
  { intros fs e u -> Hfs He. cbv zeta.
    replace ((sg ++ ds) ++ "."%byte :: fs ++ e ++ u) with ((sg ++ ds ++ "."%byte :: fs ++ e) ++ u) in Ha
      by (rewrite <- !app_assoc; simpl; by rewrite <- !app_assoc).
    rewrite <- app_assoc. rewrite bool_decide_eq_false_2 by (erewrite mid_app by done; apply Hne).
    eapply wp_plain; try done; [by_decide|]. split; [done|]. by exists sg, ds, fs, e. }
  unfold lookAhead. rewrite (lookAhead_hd k c _ _ x Hx Hv).
  destruct (Byte.eqb (hd x00 v) ".") eqn:Edot.
  - destruct v as [|b v]; [done|]. apply eqb_eq in Edot. simpl in Edot. subst b.
    apply ahead_cons in Hv as Hv'. destruct (scan_split code ign k c _ isdigit v x Hx Hv') as (fs & u & -> & Hfs & _ & -> & Hu).
    rewrite (lookAhead_hd k c _ _ x Hx Hu). destruct (Byte.eqb (hd x00 u) "e") eqn:Ee.
    + destruct u as [|b u]; [done|]. apply eqb_eq in Ee. simpl in Ee. subst b.
      pose proof (exponent_ahead k c x _ u Hx Hu) as He. destruct (exponent x _) as [off [|]] eqn:Eexp; cbn [negb]; cbv iota.
      * destruct (He eq_refl) as (e & u' & Eu & Hsc & ->).
        replace (_ + 1 + _ + _) with (Z.of_nat (length ((sg ++ ds) ++ "."%byte :: fs ++ e)))
          by (rewrite !length_app; simpl length; rewrite !length_app; lia).
        apply (Hreal fs e u'); [by rewrite Eu|done|done].
      * destruct (ahead_cons _ _ _ _ _ _ Hu) as [Hb _]. unfold exponent in Eexp.
        pose proof (scale_factor_bounds code ign k c x (Z.of_nat (length (sg ++ ds)) + 1 + Z.of_nat (length fs))
          Hx H0 ltac:(lia) ltac:(lia)) as Hb'. rewrite Eexp in Hb'. apply ljas_invalid_token; [done|done|done|lia|lia].
    + cbn [negb]. cbv iota.
      replace (_ + 1 + _) with (Z.of_nat (length ((sg ++ ds) ++ "."%byte :: fs ++ [])))
        by (rewrite !length_app; simpl length; rewrite !length_app; simpl length; lia).
      apply (Hreal fs [] u); [done|done|constructor].
  - cbn [negb]. cbv iota zeta.
    rewrite bool_decide_eq_false_2 by (erewrite mid_app by done; rewrite <- (app_nil_r (sg ++ ds)), <- app_assoc; apply Hne).
    assert (Hw : sg ++ ds <> []) by (rewrite <- (app_nil_r (sg ++ ds)), <- app_assoc; apply Hne).
    case_bool_decide as Es.
    + eapply wp_plain; try done; [by_decide|]. split; [done|]. exists ds. by rewrite Es.
    + eapply wp_plain; try done; [by_decide|]. split; [done|]. exists ds. split; [done|].
      destruct Hsg as [-> | [-> | ->]]; [by left|by right|done].
Qed.

Lemma ljas_wp_comment k c x :
  at_pos k c x -> 0 <= c < llen k -> (k <= length code)%nat -> wp comment (lexed k c) x.
Proof using Hok.
  intros Hx Hc Hk. apply wp_bind, wp_get. unfold id. destruct (negb _).
  - by apply (wp_line_comment code ign Hok).
  - apply (wp_block_comment code ign Hok); [done|split; [done|lia]|lia|done].
Qed.

(** The loop over a string ends, behind the quote or with an error. *)
Lemma string_loop_ends n k c x off r :
  at_pos k c x -> ahead k c off r -> (length r < n)%nat ->
  exists off' ok, string_loop n x off = Some (off', ok) /\ off < off' /\ c + off' <= llen k + 1 /\
    (ok = true -> exists s v, r = s ++ x22 :: v /\ quoted s /\ off' = off + Z.of_nat (length s) + 1).
Proof using Type.
  intros Hx. revert off r. induction n as [|n IH]; intros off r Ha Hn; [lia|].
  cbn [string_loop]. unfold lookAhead. rewrite !(lookAhead_hd k c _ _ x Hx Ha).
  pose proof (proj1 Ha) as Hbd. destruct r as [|b r]; [exists (off + 1), false; repeat split; [lia|lia|done]|]. cbn [hd].
  apply ahead_cons in Ha as Hb. rewrite !(lookAhead_hd k c _ _ x Hx Hb).
  destruct (Byte.eqb b "\" && Byte.eqb (hd x00 r) x22) eqn:E1.
  - apply andb_true_iff in E1 as [E1 E2]. apply eqb_eq in E1 as ->. destruct r as [|b r]; [done|].
    apply eqb_eq in E2. simpl in E2. subst b. apply ahead_cons in Hb as Hc.
    destruct (IH _ _ Hc) as (off' & ok & -> & Hlt & Hle & Hr); [simpl in Hn; lia|]. exists off', ok. do 2 (split; [done || lia|]). split; [done|].
    intros ->. destruct (Hr eq_refl) as (s & v & -> & Hs & ->). exists ("\"%byte :: x22 :: s), v.
    split; [done|]. split; [by constructor|simpl length; lia].
  - destruct (Byte.eqb b x22) eqn:E2.
    { apply eqb_eq in E2 as ->. exists (off + 1), true. split; [done|]. do 2 (split; [lia|]). intros _. exists [], r.
      split; [done|]. split; [constructor|simpl; lia]. }
    destruct (Byte.eqb b x00) eqn:E3; [exists (off + 1), false; repeat split; [lia|lia|done]|].
    destruct (IH _ _ Hb) as (off' & ok & -> & Hlt & Hle & Hr); [simpl in Hn; lia|]. exists off', ok. do 2 (split; [done || lia|]). split; [done|].
    intros ->. destruct (Hr eq_refl) as (s & v & -> & Hs & ->). exists (b :: s), v.
    split; [done|]. split; [|simpl length; lia].
    constructor; [| | |done]; intros ->; rewrite ?eqb_refl in *; [done..|]. simpl in E1.
    by destruct s as [|b s]; [done|]; split; [|intros E; simpl in E, E1; by rewrite E in E1].
Qed.

Lemma ljas_wp_string k c x r :
  at_pos k c x -> 0 <= c -> (k <= length code)%nat -> ahead k c 0 (x22 :: r) -> wp string_ (lexed k c) x.
Proof using Hok.
  intros Hx H0 Hk Ha. apply wp_bind, wp_get. unfold id. rewrite (at_line _ _ _ _ _ Hx), (at_col _ _ _ _ _ Hx).
  apply ahead_cons in Ha as Hb. pose proof (f_equal length (proj2 Ha)) as Hl. rewrite length_drop in Hl.
  destruct (string_loop_ends (S (length (code_line code k))) k c x 1 r Hx Hb) as (off & ok & -> & Hlt & Hle & Hr).
  { simpl in Hl. lia. }
  destruct ok; [|apply ljas_invalid_token; [done|done|done|lia|lia]]. destruct (Hr eq_refl) as (s & v & -> & Hs & ->).
  replace (1 + _ + 1) with (Z.of_nat (length (x22 :: s ++ [x22]))) by (simpl length; rewrite length_app; simpl length; lia).
  eapply (wp_plain _ _ _ _ v); try done; [by rewrite <- app_comm_cons, <- app_assoc|by_decide|].
  split; [done|]. by exists s.
Qed.

Lemma ljas_token_here k c x :
  at_pos k c x -> 0 <= c < llen k -> (k <= length code)%nat -> wp token_here (lexed k c) x.
Proof using Hok.
  intros Hx Hc Hk. assert (Ha : ahead k c 0 (mid_all (code_line code k) c)) by (apply ahead_start; split; [done|lia]).
  pose proof (mid_all_nonempty (code_line code k) c Hc) as Hne.
  destruct (mid_all (code_line code k) c) as [|b r]; [done|]. apply ahead_cons in Ha as Hb. change (0 + 1) with 1 in Hb.
  apply wp_bind, wp_get. unfold id, lookAhead. cbv zeta. rewrite !(lookAhead_hd k c _ _ x Hx Hb).
  assert (Hat : at_ (d_line x) (x_colNr x) = b).
  { pose proof (lookAhead_hd k c _ _ x Hx Ha) as E. unfold LexCore.lookAhead in E. by rewrite Z.add_0_r in E. }
  rewrite Hat.
  assert (Hnum : forall sg, sg = ["+"]%byte \/ sg = ["-"]%byte -> b :: r = sg ++ r -> isdigit (hd x00 r) = true ->
    wp number (lexed k c) x).
  { intros sg Hsg E Hd. rewrite E in Ha. destruct r as [|d r]; [done|].
    by apply (ljas_wp_number k c x sg d r); [done|lia|done|right|done|]. }
  destruct (Byte.eqb b x22) eqn:E1; [apply eqb_eq in E1 as ->; by eapply ljas_wp_string; [done|lia|..]|].
  destruct (isalpha b || Byte.eqb b "_") eqn:E2.
  { apply (wp_ident code ign Hok); [done|lia|split; [done|lia]|].
    rewrite <- (at_line _ _ _ _ _ Hx), <- (at_col _ _ _ _ _ Hx) at 1 2. by rewrite !Hat. }
  destruct (isdigit b) eqn:E3; [by apply (ljas_wp_number k c x [] b r); [done|lia|done|left|..]|].
  destruct (Byte.eqb b "-" && _); [by apply ljas_wp_comment|].
  destruct (Byte.eqb b "-" && _) eqn:E4.
  { apply andb_true_iff in E4 as [E4 ?]. apply eqb_eq in E4 as ->. by apply (Hnum ["-"]%byte); [right|..]. }
  destruct (Byte.eqb b "+" && _) eqn:E5; [|by apply (wp_literal code ign Hok)].
  apply andb_true_iff in E5 as [E5 ?]. apply eqb_eq in E5 as ->. by apply (Hnum ["+"]%byte); [left|..].
Qed.
End Text.

(** [C32] The lexer of the assembler always ends, after at most one token for each
    character.  Every token is what the text has where the token says: a name that is not a
    keyword, a signed or unsigned integer, a real number, a string in quotes, or the exact
    text of a keyword or literal; the tokens are in the order of the text, and there is no
    comment among them unless wanted.  Lines of 2^16 characters or more are excluded,
    since the column is a [quint16]. *)
Theorem ljas_tokens_faithful code path x :
  text_ok code -> d_line x = [] -> d_buffer x = [] -> d_packComments x = true ->
  exists l x', tokens (S (length code)) code path x = Some (l, x') /\
    Forall (well_lexed code) l /\ StronglySorted pos_lt (map token_start l) /\
    (d_ignoreComments x = true -> Forall (fun t => d_type t <> Tok_Comment) l).
Proof.
  intros Hok H1 H2 H3.
  exact (lex_tokens_faithful code path x token_here Hok H1 H2 H3 (ljas_token_here code _ Hok)).
Qed.

Lemma ljas_tokens_faithful_witness :
  text_ok (qb "KSET x -1.5e3 ADD y x +10") /\
  exists l x', tokens 26 (qb "KSET x -1.5e3 ADD y x +10") [] new_Lexer = Some (l, x') /\
    Forall (well_lexed (qb "KSET x -1.5e3 ADD y x +10")) l /\
    StronglySorted pos_lt (map token_start l) /\
    (d_ignoreComments new_Lexer = true -> Forall (fun t => d_type t <> Tok_Comment) l).
Proof.
  assert (Hok : text_ok (qb "KSET x -1.5e3 ADD y x +10")) by (apply short_text; vm_compute; done).
  split; [done|]. by apply (ljas_tokens_faithful (qb "KSET x -1.5e3 ADD y x +10") [] new_Lexer Hok).
Defined.
