(* ===== verification/LjasTree.v ===== *)
(** * Syntax trees of the assembler

    [SynTree] of [LjasSynTree.h], as the parser builds them, and the two functions of
    the assembler that search them. *)

From S2P Require Import Prelude LexCore LjasToken SyntaxTree.
From Stdlib Require Import Strings.Byte.
Local Open Scope Z_scope.

(** [src/LjasSynTree.h:12-78] ParserRule *)
Inductive ParserRule : Type :=
  | R_ADD_ | R_CALLT_ | R_CALL_ | R_CAT_ | R_DIV_ | R_FNEW_ | R_FORI_ | R_FORL_ | R_GGET_ | R_GSET_
  | R_ISEQ_ | R_ISFC_ | R_ISF_ | R_ISGE_ | R_ISGT_ | R_ISLE_ | R_ISLT_ | R_ISNE_ | R_ISTC_ | R_IST_
  | R_JMP_ | R_KNIL_ | R_KSET_ | R_LEN_ | R_LOOP_ | R_LjAsm | R_MOD_ | R_MOV_ | R_MUL_ | R_NOT_
  | R_POW_ | R_RET_ | R_SUB_ | R_TDUP_ | R_TGET_ | R_TNEW_ | R_TSET_ | R_UCLO_ | R_UGET_ | R_UNM_
  | R_USET_ | R_cname | R_comment_ | R_const_decls | R_const_val | R_desig | R_fname
  | R_formal_params | R_function_body | R_function_decl | R_function_header | R_integer | R_label
  | R_labelDef | R_nameWithPreset | R_number | R_primitive | R_record | R_statement
  | R_table_literal | R_var_decl | R_var_decls | R_vname.

#[export] Instance ParserRule_eq_dec : EqDecision ParserRule.
Proof. solve_decision. Defined.

Abbreviation NodeType := (SyntaxTree.NodeType TokenType ParserRule).
(** A token in a tree. *)
Abbreviation Token := (LexToken NodeType).
Abbreviation SynTree := (SyntaxTree.SynTree NodeType).

(** [src/LjasToken.cpp:23-26] isValid *)
Definition isValid (t : Token) : bool :=
  negb (bool_decide (d_type t = Tk Tok_Eof)) && negb (bool_decide (d_type t = Tk Tok_Invalid)).
(** [src/LjasToken.cpp:28-31] isEof *)
Definition isEof (t : Token) : bool := bool_decide (d_type t = Tk Tok_Eof).

(** [src/LjasSynTree.cpp:11-78] rToStr *)
Definition rToStr (r : NodeType) : bytes :=
  match r with
  | Tk t => tokenTypeName t
  | Rule R_ADD_ => qb "ADD_" | Rule R_CALLT_ => qb "CALLT_" | Rule R_CALL_ => qb "CALL_"
  | Rule R_CAT_ => qb "CAT_" | Rule R_DIV_ => qb "DIV_" | Rule R_FNEW_ => qb "FNEW_"
  | Rule R_FORI_ => qb "FORI_" | Rule R_FORL_ => qb "FORL_" | Rule R_GGET_ => qb "GGET_"
  | Rule R_GSET_ => qb "GSET_" | Rule R_ISEQ_ => qb "ISEQ_" | Rule R_ISFC_ => qb "ISFC_"
  | Rule R_ISF_ => qb "ISF_" | Rule R_ISGE_ => qb "ISGE_" | Rule R_ISGT_ => qb "ISGT_"
  | Rule R_ISLE_ => qb "ISLE_" | Rule R_ISLT_ => qb "ISLT_" | Rule R_ISNE_ => qb "ISNE_"
  | Rule R_ISTC_ => qb "ISTC_" | Rule R_IST_ => qb "IST_" | Rule R_JMP_ => qb "JMP_"
  | Rule R_KNIL_ => qb "KNIL_" | Rule R_KSET_ => qb "KSET_" | Rule R_LEN_ => qb "LEN_"
  | Rule R_LOOP_ => qb "LOOP_" | Rule R_LjAsm => qb "LjAsm" | Rule R_MOD_ => qb "MOD_"
  | Rule R_MOV_ => qb "MOV_" | Rule R_MUL_ => qb "MUL_" | Rule R_NOT_ => qb "NOT_"
  | Rule R_POW_ => qb "POW_" | Rule R_RET_ => qb "RET_" | Rule R_SUB_ => qb "SUB_"
  | Rule R_TDUP_ => qb "TDUP_" | Rule R_TGET_ => qb "TGET_" | Rule R_TNEW_ => qb "TNEW_"
  | Rule R_TSET_ => qb "TSET_" | Rule R_UCLO_ => qb "UCLO_" | Rule R_UGET_ => qb "UGET_"
  | Rule R_UNM_ => qb "UNM_" | Rule R_USET_ => qb "USET_" | Rule R_cname => qb "cname"
  | Rule R_comment_ => qb "comment" | Rule R_const_decls => qb "const_decls"
  | Rule R_const_val => qb "const_val" | Rule R_desig => qb "desig" | Rule R_fname => qb "fname"
  | Rule R_formal_params => qb "formal_params" | Rule R_function_body => qb "function_body"
  | Rule R_function_decl => qb "function_decl" | Rule R_function_header => qb "function_header"
  | Rule R_integer => qb "integer" | Rule R_label => qb "label" | Rule R_labelDef => qb "labelDef"
  | Rule R_nameWithPreset => qb "nameWithPreset" | Rule R_number => qb "number"
  | Rule R_primitive => qb "primitive" | Rule R_record => qb "record"
  | Rule R_statement => qb "statement" | Rule R_table_literal => qb "table_literal"
  | Rule R_var_decl => qb "var_decl" | Rule R_var_decls => qb "var_decls"
  | Rule R_vname => qb "vname"
  end.

Definition st_line (st : SynTree) : Z := d_lineNr (d_tok st).

(** A node of a rule takes its position from a token.
    [src/LjasSynTree.cpp:5-9] SynTree *)
Definition rule_node (r : ParserRule) (t : Token) (l : list SynTree) : SynTree :=
  Node (mkToken (Rule r) (d_lineNr t) (d_colNr t) 0 [] (d_sourcePath t)) l.

(** [src/LjAssembler.cpp:1926-1939] findFirstChild *)
Definition findFirstChild (st : SynTree) (type : NodeType) : option SynTree :=
  match list_find (fun sub => st_type sub = type) (d_children st) with
  | Some (_, sub) => Some sub
  | None => if has_type st type then Some st else None
  end.

(** [src/LjAssembler.cpp:1941-1948] flatten *)
Fixpoint flatten (st : SynTree) : SynTree :=
  match st with Node _ [c] => flatten c | _ => st end.

Lemma flatten_not_single st : length (d_children (flatten st)) <> 1%nat.
Proof.
  revert st. fix IH 1. intros [t [|c [|d l]]]; simpl; try lia. apply IH.
Qed.
