(* ===== verification/LjasGrammar.v ===== *)
(** * The grammar of the assembler

    The productions of [syntax/LjAsm.ebnf] as regular expressions over the types of the
    children of a node; every token has a node. *)

From S2P Require Import Prelude LexCore LjasToken SyntaxTree LjasTree.
Local Open Scope Z_scope.
Local Open Scope re_scope.

Definition constant : list NodeType := [Tk Tok_string; Rule R_number; Rule R_primitive].
Definition operand : re NodeType := OneOf [Rule R_desig; Rule R_number].
Definition index : re NodeType := OneOf [Rule R_desig; Tk Tok_string; Tk Tok_posint].

#[export] Instance Ljas_grammar : Grammar TokenType ParserRule := fun r =>
  let d := nt R_desig in
  match r with
  | R_LjAsm => nt R_function_decl
  | R_function_decl => tk Tok_function ** Opt (nt R_fname) ** nt R_function_header ** Opt (nt R_function_body) ** tk Tok_end ** Opt (nt R_fname)
  | R_function_header =>
      tk Tok_Lpar ** nt R_formal_params ** tk Tok_Rpar ** Opt (nt R_const_decls) ** Opt (nt R_var_decls) ** Star (nt R_function_decl)
  | R_function_body => tk Tok_begin ** Star (Opt (nt R_labelDef) ** nt R_statement)
  | R_labelDef => nt R_label ** tk Tok_Colon
  | R_formal_params => Star (nt R_vname)
  | R_var_decls => tk Tok_var ** Star (OneOf [Rule R_var_decl; Rule R_record])
  | R_var_decl => nt R_nameWithPreset
  | R_nameWithPreset => nt R_vname ** Opt (tk Tok_Lpar ** tk Tok_posint ** tk Tok_Rpar)
  | R_record => tk Tok_Lbrace ** nt R_nameWithPreset ** Star (nt R_nameWithPreset) ** tk Tok_Rbrace
  | R_const_decls => tk Tok_const ** nt R_cname ** tk Tok_Eq ** nt R_const_val ** Star (nt R_cname ** tk Tok_Eq ** nt R_const_val)
  | R_const_val => OneOf (constant ++ [Rule R_table_literal])
  | R_table_literal => tk Tok_Lbrace ** Star (Opt (nt R_vname ** tk Tok_Eq) ** OneOf constant) ** tk Tok_Rbrace
  | R_desig => Opt (nt R_fname ** tk Tok_Dot) ** nt R_vname
  | R_statement => OneOf (map Rule [R_ISLT_; R_ISGE_; R_ISLE_; R_ISGT_; R_ISEQ_; R_ISNE_; R_ISTC_; R_ISFC_; R_IST_; R_ISF_;
      R_MOV_; R_NOT_; R_UNM_; R_LEN_; R_ADD_; R_SUB_; R_MUL_; R_DIV_; R_MOD_; R_POW_; R_CAT_; R_KSET_; R_KNIL_; R_UGET_; R_USET_;
      R_UCLO_; R_FNEW_; R_TNEW_; R_TDUP_; R_GGET_; R_GSET_; R_TGET_; R_TSET_; R_CALL_; R_CALLT_; R_RET_; R_FORI_; R_FORL_; R_LOOP_; R_JMP_])
  | R_ISLT_ => tk Tok_ISLT ** d ** d | R_ISGE_ => tk Tok_ISGE ** d ** d
  | R_ISLE_ => tk Tok_ISLE ** d ** d | R_ISGT_ => tk Tok_ISGT ** d ** d
  | R_ISEQ_ => tk Tok_ISEQ ** d ** OneOf (Rule R_desig :: constant)
  | R_ISNE_ => tk Tok_ISNE ** d ** OneOf (Rule R_desig :: constant)
  | R_ISTC_ => tk Tok_ISTC ** d ** d | R_ISFC_ => tk Tok_ISFC ** d ** d
  | R_IST_ => tk Tok_IST ** d | R_ISF_ => tk Tok_ISF ** d
  | R_MOV_ => tk Tok_MOV ** d ** d | R_NOT_ => tk Tok_NOT ** d ** d
  | R_UNM_ => tk Tok_UNM ** d ** d | R_LEN_ => tk Tok_LEN ** d ** d
  | R_ADD_ => tk Tok_ADD ** d ** operand ** operand | R_SUB_ => tk Tok_SUB ** d ** operand ** operand
  | R_MUL_ => tk Tok_MUL ** d ** operand ** operand | R_DIV_ => tk Tok_DIV ** d ** operand ** operand
  | R_MOD_ => tk Tok_MOD ** d ** operand ** operand
  | R_POW_ => tk Tok_POW ** d ** d ** d
  | R_CAT_ => tk Tok_CAT ** d ** d ** Opt (tk Tok_posint)
  | R_KSET_ => tk Tok_KSET ** d ** OneOf (constant ++ [Rule R_cname])
  | R_KNIL_ => tk Tok_KNIL ** d ** Opt (tk Tok_posint)
  | R_UGET_ => tk Tok_UGET ** d ** d
  | R_USET_ => tk Tok_USET ** d ** OneOf (constant ++ [Rule R_desig])
  | R_UCLO_ => tk Tok_UCLO ** d ** Opt (nt R_label)
  | R_FNEW_ => tk Tok_FNEW ** d ** nt R_fname
  | R_TNEW_ => tk Tok_TNEW ** d ** Opt (tk Tok_posint ** Opt (tk Tok_posint))
  | R_TDUP_ => tk Tok_TDUP ** d ** OneOf [Rule R_cname; Rule R_table_literal]
  | R_GGET_ => tk Tok_GGET ** d ** OneOf [Tk Tok_string; Rule R_cname]
  | R_GSET_ => tk Tok_GSET ** d ** OneOf [Tk Tok_string; Rule R_cname]
  | R_TGET_ => tk Tok_TGET ** d ** d ** index | R_TSET_ => tk Tok_TSET ** d ** d ** index
  | R_CALL_ => tk Tok_CALL ** d ** Opt (tk Tok_posint ** Opt (tk Tok_posint))
  | R_CALLT_ => tk Tok_CALLT ** d ** Opt (tk Tok_posint)
  | R_RET_ => tk Tok_RET ** Opt (d ** Opt (tk Tok_posint))
  | R_FORI_ => tk Tok_FORI ** d ** nt R_label | R_FORL_ => tk Tok_FORL ** d ** nt R_label
  | R_LOOP_ => tk Tok_LOOP
  | R_JMP_ => tk Tok_JMP ** nt R_label
  | R_primitive => OneOf [Tk Tok_nil; Tk Tok_true; Tk Tok_false]
  | R_label | R_vname | R_cname | R_fname => tk Tok_ident
  | R_number => OneOf [Tk Tok_real; Rule R_integer]
  | R_integer => OneOf [Tk Tok_negint; Tk Tok_posint]
  | R_comment_ => Void
  end.
