(* ===== verification/LjasParser.v ===== *)
(** * The parser of the assembler

    [Parser] of [LjasParser.h/.cpp]: a procedure for each rule of the grammar in [syntax/LjAsm.ebnf].
    What does not depend on the grammar is in ParserCore.v.  [fuel] bounds the depth of functions
    within functions. *)

From S2P Require Import Prelude ErrorList LexCore LjasToken LjasLexer SyntaxTree LjasTree ParserCore.
From Stdlib Require Import Strings.Byte.
Local Open Scope Z_scope.
Local Open Scope rd_scope.

(** The messages of the rules.
    [src/LjasParser.cpp:1236-1266] SynErr *)
Definition message (n : Z) : bytes :=
  match n with
  | 71 => qb "invalid statement"
  | 72 => qb "invalid const_val"
  | 73 => qb "invalid number"
  | 74 => qb "invalid primitive"
  | 75 => qb "invalid table_literal"
  | 76 => qb "invalid ISEQ_"
  | 77 => qb "invalid ISNE_"
  | 78 => qb "invalid ADD_"
  | 79 => qb "invalid ADD_"
  | 80 => qb "invalid SUB_"
  | 81 => qb "invalid SUB_"
  | 82 => qb "invalid MUL_"
  | 83 => qb "invalid MUL_"
  | 84 => qb "invalid DIV_"
  | 85 => qb "invalid DIV_"
  | 86 => qb "invalid MOD_"
  | 87 => qb "invalid MOD_"
  | 88 => qb "invalid KSET_"
  | 89 => qb "invalid USET_"
  | 90 => qb "invalid TDUP_"
  | 91 => qb "invalid GGET_"
  | 92 => qb "invalid GSET_"
  | 93 => qb "invalid TGET_"
  | 94 => qb "invalid TSET_"
  | 95 => qb "invalid integer"
  | _ => qb "generic error " ++ decimal n
  end.

(** [src/LjasParser.cpp:1137-1141] StartOf *)
Definition start_sets : list string := [
  "Txxxxxxxxxxxxxxxxxxxxxxxxxxxxxxxxxxxxxxxxxxxxxxxxxxxxxxxxxxxxxxxxxxxxxxx";
  "xxxxxxxxxxxxxTTTTTTTTTTTTTTTTTTTTTTTTTTTTTTTTTTTTTTTTxxxxxxxxxTxxxxxxxxx";
  "xxxxxxxxxxxxxxxxxxxxxxxxxxxxxxxxxxxxxxxxxxxxxxxxxxxxxxxxTxTTxxTTTTTxxxxx"]%string.

#[export] Instance Ljas_parser : ParserKind TokenType := {|
  pk_kind := Ljas_kind; k_types := all_types; k_text := tokenTypeString;
  k_specials := tt_val TT_Specials; k_max := tt_val TT_Max; k_message := message; k_start := start_sets;
  k_silent := fun _ => false; k_peek_comments := false
|}.

(** ** Scanner *)

(** [fuel] bounds the comments that [nextToken] leaves out. *)
#[export] Instance Ljas_scanner : Scanner Lexer TokenType := {|
  sc_next := with_errors (fun x => nextToken (Datatypes.S (length (d_buffer x) + device_size x + length (d_line x))) x);
  sc_peek i := with_errors (peekToken (Z.to_nat i))
|}.

(** ** Rules *)

Section Rules.
Context {S : Type} `{!Scanner S TokenType} (limit : nat).
Abbreviation PM := (SM (Parser S TokenType ParserRule)).
Abbreviation term := (ParserCore.term limit).
Abbreviation take_term := (ParserCore.take_term limit).
Abbreviation while_ := (ParserCore.while_ limit).
Abbreviation peek_is := (ParserCore.peek_is limit).

(** [src/LjasParser.cpp:127-132] fname *)
Definition fname : PM unit :=
  rule_node R_fname (term Tok_ident (qb "fname")).

(** [src/LjasParser.cpp:381-386] label *)
Definition label : PM unit :=
  rule_node R_label (term Tok_ident (qb "label")).

(** [src/LjasParser.cpp:205-211] labelDef *)
Definition labelDef : PM unit :=
  rule_node R_labelDef (
    _ <~ label;
    term Tok_Colon (qb "labelDef")).

(** [src/LjasParser.cpp:388-393] vname *)
Definition vname : PM unit :=
  rule_node R_vname (term Tok_ident (qb "vname")).

(** [src/LjasParser.cpp:428-433] cname *)
Definition cname : PM unit :=
  rule_node R_cname (term Tok_ident (qb "cname")).

(** [src/LjasParser.cpp:1011-1021] integer *)
Definition integer : PM unit :=
  rule_node R_integer (
    if_ (at_ Tok_negint) take_term
    (if_ (at_ Tok_posint) take_term (SynErr 95 (Some (qb "integer"))))).

(** [src/LjasParser.cpp:450-459] number *)
Definition number : PM unit :=
  rule_node R_number (
    if_ (at_ Tok_real) take_term
    (if_ (at_any [Tok_posint; Tok_negint]) integer (SynErr 73 (Some (qb "number"))))).

(** [src/LjasParser.cpp:461-474] primitive *)
Definition primitive : PM unit :=
  rule_node R_primitive (
    if_ (at_ Tok_nil) take_term
    (if_ (at_ Tok_true) take_term
    (if_ (at_ Tok_false) take_term (SynErr 74 (Some (qb "primitive")))))).

(** [src/LjasParser.cpp:476-498] table_literal *)
Definition table_literal : PM unit :=
  rule_node R_table_literal (
    _ <~ term Tok_Lbrace (qb "table_literal");
    _ <~ while_ (StartOf 2) (
      _ <~ when_ (at_ Tok_ident) (
        _ <~ vname;
        term Tok_Eq (qb "table_literal"));
      if_ (at_ Tok_string) take_term
      (if_ (at_any [Tok_real; Tok_posint; Tok_negint]) number
      (if_ (at_any [Tok_false; Tok_nil; Tok_true]) primitive (SynErr 75 (Some (qb "table_literal"))))));
    term Tok_Rbrace (qb "table_literal")).

(** [src/LjasParser.cpp:500-509] desig *)
Definition desig : PM unit :=
  rule_node R_desig (
    _ <~ when_ (and_ (peek_is 1 Tok_ident) (peek_is 2 Tok_Dot)) (
      _ <~ fname;
      term Tok_Dot (qb "desig"));
    vname).

(** [src/LjasParser.cpp:511-518] ISLT_ *)
Definition ISLT_ : PM unit :=
  rule_node R_ISLT_ (
    _ <~ term Tok_ISLT (qb "ISLT_");
    _ <~ desig;
    desig).

(** [src/LjasParser.cpp:520-527] ISGE_ *)
Definition ISGE_ : PM unit :=
  rule_node R_ISGE_ (
    _ <~ term Tok_ISGE (qb "ISGE_");
    _ <~ desig;
    desig).

(** [src/LjasParser.cpp:529-536] ISLE_ *)
Definition ISLE_ : PM unit :=
  rule_node R_ISLE_ (
    _ <~ term Tok_ISLE (qb "ISLE_");
    _ <~ desig;
    desig).

(** [src/LjasParser.cpp:538-545] ISGT_ *)
Definition ISGT_ : PM unit :=
  rule_node R_ISGT_ (
    _ <~ term Tok_ISGT (qb "ISGT_");
    _ <~ desig;
    desig).

(** [src/LjasParser.cpp:547-563] ISEQ_ *)
Definition ISEQ_ : PM unit :=
  rule_node R_ISEQ_ (
    _ <~ term Tok_ISEQ (qb "ISEQ_");
    _ <~ desig;
    if_ (at_ Tok_ident) desig
    (if_ (at_ Tok_string) take_term
    (if_ (at_any [Tok_real; Tok_posint; Tok_negint]) number
    (if_ (at_any [Tok_false; Tok_nil; Tok_true]) primitive (SynErr 76 (Some (qb "ISEQ_"))))))).

(** [src/LjasParser.cpp:565-581] ISNE_ *)
Definition ISNE_ : PM unit :=
  rule_node R_ISNE_ (
    _ <~ term Tok_ISNE (qb "ISNE_");
    _ <~ desig;
    if_ (at_ Tok_ident) desig
    (if_ (at_ Tok_string) take_term
    (if_ (at_any [Tok_real; Tok_posint; Tok_negint]) number
    (if_ (at_any [Tok_false; Tok_nil; Tok_true]) primitive (SynErr 77 (Some (qb "ISNE_"))))))).

(** [src/LjasParser.cpp:583-590] ISTC_ *)
Definition ISTC_ : PM unit :=
  rule_node R_ISTC_ (
    _ <~ term Tok_ISTC (qb "ISTC_");
    _ <~ desig;
    desig).

(** [src/LjasParser.cpp:592-599] ISFC_ *)
Definition ISFC_ : PM unit :=
  rule_node R_ISFC_ (
    _ <~ term Tok_ISFC (qb "ISFC_");
    _ <~ desig;
    desig).

(** [src/LjasParser.cpp:601-607] IST_ *)
Definition IST_ : PM unit :=
  rule_node R_IST_ (
    _ <~ term Tok_IST (qb "IST_");
    desig).

(** [src/LjasParser.cpp:609-615] ISF_ *)
Definition ISF_ : PM unit :=
  rule_node R_ISF_ (
    _ <~ term Tok_ISF (qb "ISF_");
    desig).

(** [src/LjasParser.cpp:617-624] MOV_ *)
Definition MOV_ : PM unit :=
  rule_node R_MOV_ (
    _ <~ term Tok_MOV (qb "MOV_");
    _ <~ desig;
    desig).

(** [src/LjasParser.cpp:626-633] NOT_ *)
Definition NOT_ : PM unit :=
  rule_node R_NOT_ (
    _ <~ term Tok_NOT (qb "NOT_");
    _ <~ desig;
    desig).

(** [src/LjasParser.cpp:635-642] UNM_ *)
Definition UNM_ : PM unit :=
  rule_node R_UNM_ (
    _ <~ term Tok_UNM (qb "UNM_");
    _ <~ desig;
    desig).

(** [src/LjasParser.cpp:644-651] LEN_ *)
Definition LEN_ : PM unit :=
  rule_node R_LEN_ (
    _ <~ term Tok_LEN (qb "LEN_");
    _ <~ desig;
    desig).

(** [src/LjasParser.cpp:653-669] ADD_ *)
Definition ADD_ : PM unit :=
  rule_node R_ADD_ (
    _ <~ term Tok_ADD (qb "ADD_");
    _ <~ desig;
    _ <~ if_ (at_ Tok_ident) desig
    (if_ (at_any [Tok_real; Tok_posint; Tok_negint]) number (SynErr 78 (Some (qb "ADD_"))));
    if_ (at_ Tok_ident) desig
    (if_ (at_any [Tok_real; Tok_posint; Tok_negint]) number (SynErr 79 (Some (qb "ADD_"))))).

(** [src/LjasParser.cpp:671-687] SUB_ *)
Definition SUB_ : PM unit :=
  rule_node R_SUB_ (
    _ <~ term Tok_SUB (qb "SUB_");
    _ <~ desig;
    _ <~ if_ (at_ Tok_ident) desig
    (if_ (at_any [Tok_real; Tok_posint; Tok_negint]) number (SynErr 80 (Some (qb "SUB_"))));
    if_ (at_ Tok_ident) desig
    (if_ (at_any [Tok_real; Tok_posint; Tok_negint]) number (SynErr 81 (Some (qb "SUB_"))))).

(** [src/LjasParser.cpp:689-705] MUL_ *)
Definition MUL_ : PM unit :=
  rule_node R_MUL_ (
    _ <~ term Tok_MUL (qb "MUL_");
    _ <~ desig;
    _ <~ if_ (at_ Tok_ident) desig
    (if_ (at_any [Tok_real; Tok_posint; Tok_negint]) number (SynErr 82 (Some (qb "MUL_"))));
    if_ (at_ Tok_ident) desig
    (if_ (at_any [Tok_real; Tok_posint; Tok_negint]) number (SynErr 83 (Some (qb "MUL_"))))).

(** [src/LjasParser.cpp:707-723] DIV_ *)
Definition DIV_ : PM unit :=
  rule_node R_DIV_ (
    _ <~ term Tok_DIV (qb "DIV_");
    _ <~ desig;
    _ <~ if_ (at_ Tok_ident) desig
    (if_ (at_any [Tok_real; Tok_posint; Tok_negint]) number (SynErr 84 (Some (qb "DIV_"))));
    if_ (at_ Tok_ident) desig
    (if_ (at_any [Tok_real; Tok_posint; Tok_negint]) number (SynErr 85 (Some (qb "DIV_"))))).

(** [src/LjasParser.cpp:725-741] MOD_ *)
Definition MOD_ : PM unit :=
  rule_node R_MOD_ (
    _ <~ term Tok_MOD (qb "MOD_");
    _ <~ desig;
    _ <~ if_ (at_ Tok_ident) desig
    (if_ (at_any [Tok_real; Tok_posint; Tok_negint]) number (SynErr 86 (Some (qb "MOD_"))));
    if_ (at_ Tok_ident) desig
    (if_ (at_any [Tok_real; Tok_posint; Tok_negint]) number (SynErr 87 (Some (qb "MOD_"))))).

(** [src/LjasParser.cpp:743-751] POW_ *)
Definition POW_ : PM unit :=
  rule_node R_POW_ (
    _ <~ term Tok_POW (qb "POW_");
    _ <~ desig;
    _ <~ desig;
    desig).

(** [src/LjasParser.cpp:753-764] CAT_ *)
Definition CAT_ : PM unit :=
  rule_node R_CAT_ (
    _ <~ term Tok_CAT (qb "CAT_");
    _ <~ desig;
    _ <~ desig;
    when_ (at_ Tok_posint) take_term).

(** [src/LjasParser.cpp:766-782] KSET_ *)
Definition KSET_ : PM unit :=
  rule_node R_KSET_ (
    _ <~ term Tok_KSET (qb "KSET_");
    _ <~ desig;
    if_ (at_ Tok_string) take_term
    (if_ (at_any [Tok_real; Tok_posint; Tok_negint]) number
    (if_ (at_any [Tok_false; Tok_nil; Tok_true]) primitive
    (if_ (at_ Tok_ident) cname (SynErr 88 (Some (qb "KSET_"))))))).

(** [src/LjasParser.cpp:784-794] KNIL_ *)
Definition KNIL_ : PM unit :=
  rule_node R_KNIL_ (
    _ <~ term Tok_KNIL (qb "KNIL_");
    _ <~ desig;
    when_ (at_ Tok_posint) take_term).

(** [src/LjasParser.cpp:796-803] UGET_ *)
Definition UGET_ : PM unit :=
  rule_node R_UGET_ (
    _ <~ term Tok_UGET (qb "UGET_");
    _ <~ desig;
    desig).

(** [src/LjasParser.cpp:805-821] USET_ *)
Definition USET_ : PM unit :=
  rule_node R_USET_ (
    _ <~ term Tok_USET (qb "USET_");
    _ <~ desig;
    if_ (at_ Tok_string) take_term
    (if_ (at_any [Tok_real; Tok_posint; Tok_negint]) number
    (if_ (at_any [Tok_false; Tok_nil; Tok_true]) primitive
    (if_ (at_ Tok_ident) desig (SynErr 89 (Some (qb "USET_"))))))).

(** [src/LjasParser.cpp:823-832] UCLO_ *)
Definition UCLO_ : PM unit :=
  rule_node R_UCLO_ (
    _ <~ term Tok_UCLO (qb "UCLO_");
    _ <~ desig;
    when_ (and_ (peek_is 1 Tok_ident) (not_ (peek_is 2 Tok_Colon))) label).

(** [src/LjasParser.cpp:834-841] FNEW_ *)
Definition FNEW_ : PM unit :=
  rule_node R_FNEW_ (
    _ <~ term Tok_FNEW (qb "FNEW_");
    _ <~ desig;
    fname).

(** [src/LjasParser.cpp:843-857] TNEW_ *)
Definition TNEW_ : PM unit :=
  rule_node R_TNEW_ (
    _ <~ term Tok_TNEW (qb "TNEW_");
    _ <~ desig;
    when_ (at_ Tok_posint) (
      _ <~ take_term;
      when_ (at_ Tok_posint) take_term)).

(** [src/LjasParser.cpp:859-870] TDUP_ *)
Definition TDUP_ : PM unit :=
  rule_node R_TDUP_ (
    _ <~ term Tok_TDUP (qb "TDUP_");
    _ <~ desig;
    if_ (at_ Tok_ident) cname
    (if_ (at_ Tok_Lbrace) table_literal (SynErr 90 (Some (qb "TDUP_"))))).

(** [src/LjasParser.cpp:872-884] GGET_ *)
Definition GGET_ : PM unit :=
  rule_node R_GGET_ (
    _ <~ term Tok_GGET (qb "GGET_");
    _ <~ desig;
    if_ (at_ Tok_string) take_term
    (if_ (at_ Tok_ident) cname (SynErr 91 (Some (qb "GGET_"))))).

(** [src/LjasParser.cpp:886-898] GSET_ *)
Definition GSET_ : PM unit :=
  rule_node R_GSET_ (
    _ <~ term Tok_GSET (qb "GSET_");
    _ <~ desig;
    if_ (at_ Tok_string) take_term
    (if_ (at_ Tok_ident) cname (SynErr 92 (Some (qb "GSET_"))))).

(** [src/LjasParser.cpp:900-916] TGET_ *)
Definition TGET_ : PM unit :=
  rule_node R_TGET_ (
    _ <~ term Tok_TGET (qb "TGET_");
    _ <~ desig;
    _ <~ desig;
    if_ (at_ Tok_ident) desig
    (if_ (at_ Tok_string) take_term
    (if_ (at_ Tok_posint) take_term (SynErr 93 (Some (qb "TGET_")))))).

(** [src/LjasParser.cpp:918-934] TSET_ *)
Definition TSET_ : PM unit :=
  rule_node R_TSET_ (
    _ <~ term Tok_TSET (qb "TSET_");
    _ <~ desig;
    _ <~ desig;
    if_ (at_ Tok_ident) desig
    (if_ (at_ Tok_string) take_term
    (if_ (at_ Tok_posint) take_term (SynErr 94 (Some (qb "TSET_")))))).

(** [src/LjasParser.cpp:936-950] CALL_ *)
Definition CALL_ : PM unit :=
  rule_node R_CALL_ (
    _ <~ term Tok_CALL (qb "CALL_");
    _ <~ desig;
    when_ (at_ Tok_posint) (
      _ <~ take_term;
      when_ (at_ Tok_posint) take_term)).

(** [src/LjasParser.cpp:952-962] CALLT_ *)
Definition CALLT_ : PM unit :=
  rule_node R_CALLT_ (
    _ <~ term Tok_CALLT (qb "CALLT_");
    _ <~ desig;
    when_ (at_ Tok_posint) take_term).

(** [src/LjasParser.cpp:964-976] RET_ *)
Definition RET_ : PM unit :=
  rule_node R_RET_ (
    _ <~ term Tok_RET (qb "RET_");
    when_ (and_ (peek_is 1 Tok_ident) (not_ (peek_is 2 Tok_Colon))) (
      _ <~ desig;
      when_ (at_ Tok_posint) take_term)).

(** [src/LjasParser.cpp:978-985] FORI_ *)
Definition FORI_ : PM unit :=
  rule_node R_FORI_ (
    _ <~ term Tok_FORI (qb "FORI_");
    _ <~ desig;
    label).

(** [src/LjasParser.cpp:987-994] FORL_ *)
Definition FORL_ : PM unit :=
  rule_node R_FORL_ (
    _ <~ term Tok_FORL (qb "FORL_");
    _ <~ desig;
    label).

(** [src/LjasParser.cpp:996-1001] LOOP_ *)
Definition LOOP_ : PM unit :=
  rule_node R_LOOP_ (term Tok_LOOP (qb "LOOP_")).

(** [src/LjasParser.cpp:1003-1009] JMP_ *)
Definition JMP_ : PM unit :=
  rule_node R_JMP_ (
    _ <~ term Tok_JMP (qb "JMP_");
    label).

(** [src/LjasParser.cpp:213-379] statement *)
Definition statement : PM unit :=
  rule_node R_statement (
    if_ (at_ Tok_ISLT) ISLT_
    (if_ (at_ Tok_ISGE) ISGE_
    (if_ (at_ Tok_ISLE) ISLE_
    (if_ (at_ Tok_ISGT) ISGT_
    (if_ (at_ Tok_ISEQ) ISEQ_
    (if_ (at_ Tok_ISNE) ISNE_
    (if_ (at_ Tok_ISTC) ISTC_
    (if_ (at_ Tok_ISFC) ISFC_
    (if_ (at_ Tok_IST) IST_
    (if_ (at_ Tok_ISF) ISF_
    (if_ (at_ Tok_MOV) MOV_
    (if_ (at_ Tok_NOT) NOT_
    (if_ (at_ Tok_UNM) UNM_
    (if_ (at_ Tok_LEN) LEN_
    (if_ (at_ Tok_ADD) ADD_
    (if_ (at_ Tok_SUB) SUB_
    (if_ (at_ Tok_MUL) MUL_
    (if_ (at_ Tok_DIV) DIV_
    (if_ (at_ Tok_MOD) MOD_
    (if_ (at_ Tok_POW) POW_
    (if_ (at_ Tok_CAT) CAT_
    (if_ (at_ Tok_KSET) KSET_
    (if_ (at_ Tok_KNIL) KNIL_
    (if_ (at_ Tok_UGET) UGET_
    (if_ (at_ Tok_USET) USET_
    (if_ (at_ Tok_UCLO) UCLO_
    (if_ (at_ Tok_FNEW) FNEW_
    (if_ (at_ Tok_TNEW) TNEW_
    (if_ (at_ Tok_TDUP) TDUP_
    (if_ (at_ Tok_GGET) GGET_
    (if_ (at_ Tok_GSET) GSET_
    (if_ (at_ Tok_TGET) TGET_
    (if_ (at_ Tok_TSET) TSET_
    (if_ (at_ Tok_CALL) CALL_
    (if_ (at_ Tok_CALLT) CALLT_
    (if_ (at_ Tok_RET) RET_
    (if_ (at_ Tok_FORI) FORI_
    (if_ (at_ Tok_FORL) FORL_
    (if_ (at_ Tok_LOOP) LOOP_
    (if_ (at_ Tok_JMP) JMP_ (SynErr 71 (Some (qb "statement"))))))))))))))))))))))))))))))))))))))))))).

(** [src/LjasParser.cpp:153-164] function_body *)
Definition function_body : PM unit :=
  rule_node R_function_body (
    _ <~ term Tok_begin (qb "function_body");
    while_ (StartOf 1) (
      _ <~ when_ (at_ Tok_ident) labelDef;
      statement)).

(** [src/LjasParser.cpp:166-172] formal_params *)
Definition formal_params : PM unit :=
  rule_node R_formal_params (while_ (at_ Tok_ident) vname).

(** [src/LjasParser.cpp:435-448] const_val *)
Definition const_val : PM unit :=
  rule_node R_const_val (
    if_ (at_ Tok_string) take_term
    (if_ (at_any [Tok_real; Tok_posint; Tok_negint]) number
    (if_ (at_any [Tok_false; Tok_nil; Tok_true]) primitive
    (if_ (at_ Tok_Lbrace) table_literal (SynErr 72 (Some (qb "const_val"))))))).

(** [src/LjasParser.cpp:174-189] const_decls *)
Definition const_decls : PM unit :=
  rule_node R_const_decls (
    _ <~ term Tok_const (qb "const_decls");
    _ <~ cname;
    _ <~ term Tok_Eq (qb "const_decls");
    _ <~ const_val;
    while_ (at_ Tok_ident) (
      _ <~ cname;
      _ <~ term Tok_Eq (qb "const_decls");
      const_val)).

(** [src/LjasParser.cpp:414-426] nameWithPreset *)
Definition nameWithPreset : PM unit :=
  rule_node R_nameWithPreset (
    _ <~ vname;
    when_ (at_ Tok_Lpar) (
      _ <~ take_term;
      _ <~ term Tok_posint (qb "nameWithPreset");
      term Tok_Rpar (qb "nameWithPreset"))).

(** [src/LjasParser.cpp:395-399] var_decl *)
Definition var_decl : PM unit :=
  rule_node R_var_decl nameWithPreset.

(** [src/LjasParser.cpp:401-412] record *)
Definition record : PM unit :=
  rule_node R_record (
    _ <~ term Tok_Lbrace (qb "record");
    _ <~ nameWithPreset;
    _ <~ while_ (at_ Tok_ident) nameWithPreset;
    term Tok_Rbrace (qb "record")).

(** [src/LjasParser.cpp:191-203] var_decls *)
Definition var_decls : PM unit :=
  rule_node R_var_decls (
    _ <~ term Tok_var (qb "var_decls");
    while_ (at_any [Tok_Lbrace; Tok_ident]) (if_ (at_ Tok_ident) var_decl record)).

(** [src/LjasParser.cpp:108-125] function_decl *)
Fixpoint function_decl (fuel : nat) {struct fuel} : PM unit :=
  match fuel with
  | O => rfail
  | Datatypes.S fuel =>
      rule_node R_function_decl (
        _ <~ term Tok_function (qb "function_decl");
        _ <~ when_ (at_ Tok_ident) fname;
        _ <~ function_header fuel;
        _ <~ when_ (at_ Tok_begin) function_body;
        _ <~ term Tok_end (qb "function_decl");
        when_ (at_ Tok_ident) fname)
  end

(** [src/LjasParser.cpp:134-151] function_header *)
with function_header (fuel : nat) {struct fuel} : PM unit :=
  match fuel with
  | O => rfail
  | Datatypes.S fuel =>
      rule_node R_function_header (
        _ <~ term Tok_Lpar (qb "function_header");
        _ <~ formal_params;
        _ <~ term Tok_Rpar (qb "function_header");
        _ <~ when_ (at_ Tok_const) const_decls;
        _ <~ when_ (at_ Tok_var) var_decls;
        while_ (at_ Tok_function) (function_decl fuel))
  end.

(** [src/LjasParser.cpp:102-106] LjAsm *)
Definition LjAsm (fuel : nat) : PM unit :=
  function_decl fuel.

(** [src/LjasParser.cpp:1114-1120] Parse *)
Definition parse (fuel : nat) : SM (Parser S TokenType ParserRule) SynTree := RunParser limit (LjAsm fuel).
End Rules.
