(* ===== verification/LjasParserSpec.v ===== *)
(** * The parser of the assembler builds trees of the grammar *)

From S2P Require Import Prelude ErrorList LexCore LjasToken LjasLexer SyntaxTree LjasTree LjasGrammar ParserCore ParserSpec LjasParser.
From Stdlib Require Import Strings.Byte.
Local Open Scope Z_scope.
Local Open Scope rd_scope.

#[export] Instance Ljas_kind_laws : KindLaws TokenType.
Proof. split; [|done..]. intros k. apply (bool_decide_unpack _). destruct k; vm_compute; exact I. Qed.

Section Spec.
Context {S : Type} `{!Scanner S TokenType} `{!ScannerLaws S TokenType} (limit : nat) (e0 : Errors) (Hrec : recording e0).
Abbreviation ok := (ParserSpec.ok (R := ParserRule) (S := S) limit e0).
Abbreviation is_ k := (fun k' : TokenType => bool_decide (k' = k)).
Abbreviation in_ l := (fun k' : TokenType => bool_decide (k' ∈ l)).

(** A procedure takes a token when the next one starts its rule; otherwise it may report an error. *)
Definition does (r : ParserRule) (ks : list TokenType) (x : SM (Parser S TokenType ParserRule) unit) : Prop :=
  (forall P n, implied P (in_ ks) -> ok P (nt r) true n x) /\ (forall P n, ok P (nt r) false n x).
Lemma does_takes r ks x P n : does r ks x -> implied P (in_ ks) -> ok P (nt r) true n x.
Proof using Type. intros [H _]. apply H. Qed.
Lemma does_may r ks x P n : does r ks x -> ok P (nt r) false n x.
Proof using Type. intros [_ H]. apply H. Qed.
#[local] Hint Resolve does_takes does_may : procs.
Tactic Notation "rule" reference(f) := split; intros P n; [intros HP; eapply ok_known; [exact HP|]|apply ok_top]; unfold f; walk.

Lemma fname_does : does R_fname [Tok_ident] (fname limit).
Proof using Hrec. rule fname. Qed.
#[local] Hint Resolve fname_does : procs.
Lemma label_does : does R_label [Tok_ident] (label limit).
Proof using Hrec. rule label. Qed.
#[local] Hint Resolve label_does : procs.
Lemma vname_does : does R_vname [Tok_ident] (vname limit).
Proof using Hrec. rule vname. Qed.
#[local] Hint Resolve vname_does : procs.
Lemma cname_does : does R_cname [Tok_ident] (cname limit).
Proof using Hrec. rule cname. Qed.
#[local] Hint Resolve cname_does : procs.
Lemma labelDef_does : does R_labelDef [Tok_ident] (labelDef limit).
Proof using Hrec. rule labelDef. Qed.
#[local] Hint Resolve labelDef_does : procs.
Lemma integer_does : does R_integer [Tok_posint; Tok_negint] (integer limit).
Proof using Hrec. rule integer. Qed.
#[local] Hint Resolve integer_does : procs.
Lemma number_does : does R_number [Tok_real; Tok_posint; Tok_negint] (number limit).
Proof using Hrec. rule number. Qed.
#[local] Hint Resolve number_does : procs.
Lemma primitive_does : does R_primitive [Tok_false; Tok_nil; Tok_true] (primitive limit).
Proof using Hrec. rule primitive. Qed.
#[local] Hint Resolve primitive_does : procs.
Lemma table_literal_does : does R_table_literal [Tok_Lbrace] (table_literal limit).
Proof using Hrec. rule table_literal. Qed.
#[local] Hint Resolve table_literal_does : procs.
Lemma desig_does : does R_desig [Tok_ident] (desig limit).
Proof using Hrec. rule desig. Qed.
#[local] Hint Resolve desig_does : procs.
Lemma ISLT__does : does R_ISLT_ [Tok_ISLT] (ISLT_ limit).
Proof using Hrec. rule ISLT_. Qed.
#[local] Hint Resolve ISLT__does : procs.
Lemma ISGE__does : does R_ISGE_ [Tok_ISGE] (ISGE_ limit).
Proof using Hrec. rule ISGE_. Qed.
#[local] Hint Resolve ISGE__does : procs.
Lemma ISLE__does : does R_ISLE_ [Tok_ISLE] (ISLE_ limit).
Proof using Hrec. rule ISLE_. Qed.
#[local] Hint Resolve ISLE__does : procs.
Lemma ISGT__does : does R_ISGT_ [Tok_ISGT] (ISGT_ limit).
Proof using Hrec. rule ISGT_. Qed.
#[local] Hint Resolve ISGT__does : procs.
Lemma ISEQ__does : does R_ISEQ_ [Tok_ISEQ] (ISEQ_ limit).
Proof using Hrec. rule ISEQ_. Qed.
#[local] Hint Resolve ISEQ__does : procs.
Lemma ISNE__does : does R_ISNE_ [Tok_ISNE] (ISNE_ limit).
Proof using Hrec. rule ISNE_. Qed.
#[local] Hint Resolve ISNE__does : procs.
Lemma ISTC__does : does R_ISTC_ [Tok_ISTC] (ISTC_ limit).
Proof using Hrec. rule ISTC_. Qed.
#[local] Hint Resolve ISTC__does : procs.
Lemma ISFC__does : does R_ISFC_ [Tok_ISFC] (ISFC_ limit).
Proof using Hrec. rule ISFC_. Qed.
#[local] Hint Resolve ISFC__does : procs.
Lemma IST__does : does R_IST_ [Tok_IST] (IST_ limit).
Proof using Hrec. rule IST_. Qed.
#[local] Hint Resolve IST__does : procs.
Lemma ISF__does : does R_ISF_ [Tok_ISF] (ISF_ limit).
Proof using Hrec. rule ISF_. Qed.
#[local] Hint Resolve ISF__does : procs.
Lemma MOV__does : does R_MOV_ [Tok_MOV] (MOV_ limit).
Proof using Hrec. rule MOV_. Qed.
#[local] Hint Resolve MOV__does : procs.
Lemma NOT__does : does R_NOT_ [Tok_NOT] (NOT_ limit).
Proof using Hrec. rule NOT_. Qed.
#[local] Hint Resolve NOT__does : procs.
Lemma UNM__does : does R_UNM_ [Tok_UNM] (UNM_ limit).
Proof using Hrec. rule UNM_. Qed.
#[local] Hint Resolve UNM__does : procs.
Lemma LEN__does : does R_LEN_ [Tok_LEN] (LEN_ limit).
Proof using Hrec. rule LEN_. Qed.
#[local] Hint Resolve LEN__does : procs.
Lemma ADD__does : does R_ADD_ [Tok_ADD] (ADD_ limit).
Proof using Hrec. rule ADD_. Qed.
#[local] Hint Resolve ADD__does : procs.
Lemma SUB__does : does R_SUB_ [Tok_SUB] (SUB_ limit).
Proof using Hrec. rule SUB_. Qed.
#[local] Hint Resolve SUB__does : procs.
Lemma MUL__does : does R_MUL_ [Tok_MUL] (MUL_ limit).
Proof using Hrec. rule MUL_. Qed.
#[local] Hint Resolve MUL__does : procs.
Lemma DIV__does : does R_DIV_ [Tok_DIV] (DIV_ limit).
Proof using Hrec. rule DIV_. Qed.
#[local] Hint Resolve DIV__does : procs.
Lemma MOD__does : does R_MOD_ [Tok_MOD] (MOD_ limit).
Proof using Hrec. rule MOD_. Qed.
#[local] Hint Resolve MOD__does : procs.
Lemma POW__does : does R_POW_ [Tok_POW] (POW_ limit).
Proof using Hrec. rule POW_. Qed.
#[local] Hint Resolve POW__does : procs.
Lemma CAT__does : does R_CAT_ [Tok_CAT] (CAT_ limit).
Proof using Hrec. rule CAT_. Qed.
#[local] Hint Resolve CAT__does : procs.
Lemma KSET__does : does R_KSET_ [Tok_KSET] (KSET_ limit).
Proof using Hrec. rule KSET_. Qed.
#[local] Hint Resolve KSET__does : procs.
Lemma KNIL__does : does R_KNIL_ [Tok_KNIL] (KNIL_ limit).
Proof using Hrec. rule KNIL_. Qed.
#[local] Hint Resolve KNIL__does : procs.
Lemma UGET__does : does R_UGET_ [Tok_UGET] (UGET_ limit).
Proof using Hrec. rule UGET_. Qed.
#[local] Hint Resolve UGET__does : procs.
Lemma USET__does : does R_USET_ [Tok_USET] (USET_ limit).
Proof using Hrec. rule USET_. Qed.
#[local] Hint Resolve USET__does : procs.
Lemma UCLO__does : does R_UCLO_ [Tok_UCLO] (UCLO_ limit).
Proof using Hrec. rule UCLO_. Qed.
#[local] Hint Resolve UCLO__does : procs.
Lemma FNEW__does : does R_FNEW_ [Tok_FNEW] (FNEW_ limit).
Proof using Hrec. rule FNEW_. Qed.
#[local] Hint Resolve FNEW__does : procs.
Lemma TNEW__does : does R_TNEW_ [Tok_TNEW] (TNEW_ limit).
Proof using Hrec. rule TNEW_. Qed.
#[local] Hint Resolve TNEW__does : procs.
Lemma TDUP__does : does R_TDUP_ [Tok_TDUP] (TDUP_ limit).
Proof using Hrec. rule TDUP_. Qed.
#[local] Hint Resolve TDUP__does : procs.
Lemma GGET__does : does R_GGET_ [Tok_GGET] (GGET_ limit).
Proof using Hrec. rule GGET_. Qed.
#[local] Hint Resolve GGET__does : procs.
Lemma GSET__does : does R_GSET_ [Tok_GSET] (GSET_ limit).
Proof using Hrec. rule GSET_. Qed.
#[local] Hint Resolve GSET__does : procs.
Lemma TGET__does : does R_TGET_ [Tok_TGET] (TGET_ limit).
Proof using Hrec. rule TGET_. Qed.
#[local] Hint Resolve TGET__does : procs.
Lemma TSET__does : does R_TSET_ [Tok_TSET] (TSET_ limit).
Proof using Hrec. rule TSET_. Qed.
#[local] Hint Resolve TSET__does : procs.
Lemma CALL__does : does R_CALL_ [Tok_CALL] (CALL_ limit).
Proof using Hrec. rule CALL_. Qed.
#[local] Hint Resolve CALL__does : procs.
Lemma CALLT__does : does R_CALLT_ [Tok_CALLT] (CALLT_ limit).
Proof using Hrec. rule CALLT_. Qed.
#[local] Hint Resolve CALLT__does : procs.
Lemma RET__does : does R_RET_ [Tok_RET] (RET_ limit).
Proof using Hrec. rule RET_. Qed.
#[local] Hint Resolve RET__does : procs.
Lemma FORI__does : does R_FORI_ [Tok_FORI] (FORI_ limit).
Proof using Hrec. rule FORI_. Qed.
#[local] Hint Resolve FORI__does : procs.
Lemma FORL__does : does R_FORL_ [Tok_FORL] (FORL_ limit).
Proof using Hrec. rule FORL_. Qed.
#[local] Hint Resolve FORL__does : procs.
Lemma LOOP__does : does R_LOOP_ [Tok_LOOP] (LOOP_ limit).
Proof using Hrec. rule LOOP_. Qed.
#[local] Hint Resolve LOOP__does : procs.
Lemma JMP__does : does R_JMP_ [Tok_JMP] (JMP_ limit).
Proof using Hrec. rule JMP_. Qed.
#[local] Hint Resolve JMP__does : procs.
Lemma statement_does : does R_statement [Tok_ISLT; Tok_ISGE; Tok_ISLE; Tok_ISGT; Tok_ISEQ; Tok_ISNE; Tok_ISTC; Tok_ISFC; Tok_IST; Tok_ISF; Tok_MOV; Tok_NOT; Tok_UNM; Tok_LEN; Tok_ADD; Tok_SUB; Tok_MUL; Tok_DIV; Tok_MOD; Tok_POW; Tok_CAT; Tok_KSET; Tok_KNIL; Tok_UGET; Tok_USET; Tok_UCLO; Tok_FNEW; Tok_TNEW; Tok_TDUP; Tok_GGET; Tok_GSET; Tok_TGET; Tok_TSET; Tok_CALL; Tok_CALLT; Tok_RET; Tok_FORI; Tok_FORL; Tok_LOOP; Tok_JMP] (statement limit).
Proof using Hrec. rule statement. Qed.
#[local] Hint Resolve statement_does : procs.
Lemma function_body_does : does R_function_body [Tok_begin] (function_body limit).
Proof using Hrec. rule function_body. Qed.
#[local] Hint Resolve function_body_does : procs.
Lemma formal_params_may P n : ok P (nt R_formal_params) false n (formal_params limit).
Proof using Hrec. apply ok_top. unfold formal_params. walk. Qed.
#[local] Hint Resolve formal_params_may : procs.
Lemma const_val_does : does R_const_val [Tok_string; Tok_real; Tok_posint; Tok_negint; Tok_false; Tok_nil; Tok_true; Tok_Lbrace] (const_val limit).
Proof using Hrec. rule const_val. Qed.
#[local] Hint Resolve const_val_does : procs.
Lemma const_decls_does : does R_const_decls [Tok_const] (const_decls limit).
Proof using Hrec. rule const_decls. Qed.
#[local] Hint Resolve const_decls_does : procs.
Lemma nameWithPreset_does : does R_nameWithPreset [Tok_ident] (nameWithPreset limit).
Proof using Hrec. rule nameWithPreset. Qed.
#[local] Hint Resolve nameWithPreset_does : procs.
Lemma var_decl_does : does R_var_decl [Tok_ident] (var_decl limit).
Proof using Hrec. rule var_decl. Qed.
#[local] Hint Resolve var_decl_does : procs.
Lemma record_does : does R_record [Tok_Lbrace] (record limit).
Proof using Hrec. rule record. Qed.
#[local] Hint Resolve record_does : procs.
Lemma var_decls_does : does R_var_decls [Tok_var] (var_decls limit).
Proof using Hrec. rule var_decls. Qed.
#[local] Hint Resolve var_decls_does : procs.

(** ** Functions within functions *)

(** The depth of calls for less than [n] tokens. *)
Definition enough (rank n fuel : nat) : Prop := n = 0%nat \/ (4 * n + rank <= 4 + fuel)%nat.

Record works (fuel : nat) : Prop := {
  w_decl P n : enough 1 n fuel -> implied P (is_ Tok_function) -> ok P (nt R_function_decl) true n (function_decl limit fuel);
  w_decl_any P n : enough 3 n fuel -> ok P (nt R_function_decl) false n (function_decl limit fuel);
  w_header P n : enough 2 n fuel -> ok P (nt R_function_header) false n (function_header limit fuel)
}.
#[local] Hint Resolve w_decl w_decl_any w_header : procs.

Section Step.
Context (fuel : nat) (W : works fuel).
#[local] Hint Extern 1 (enough _ _ _) => unfold enough in *; lia : procs.
#[local] Hint Extern 1 (works _) => exact W : procs.

Lemma ljas_works_step : works (Datatypes.S fuel).
Proof using Hrec W.
  constructor; intros P n [->|H]; try (by intros; apply ok_zero); [intros HP; eapply ok_known; [exact HP|]|apply ok_top|apply ok_top];
    simpl; walk.
Qed.
End Step.

Lemma ljas_works fuel : works fuel.
Proof using Hrec.
  induction fuel as [|fuel IH]; [|by apply ljas_works_step].
  constructor; intros P n H; (assert (n = 0%nat) as -> by (destruct H; lia)); intros; apply ok_zero.
Qed.

(** ** The parser *)

(** The parser of the assembler ends on every text, the errors that were reported before it are kept, and when it reports
    none the tree is that of the grammar: it has exactly the tokens of the text, without comments, in their order. *)
Lemma ljas_parser_builds_trees x ts fuel : ahead x ts -> (length ts + 2 <= limit)%nat -> (4 * length ts + 3 <= fuel)%nat ->
  comments_bounded ts ->
  exists st p, parse limit fuel (new_Parser x (Some e0)) = Some (st, p) /\ grows (Some e0) (errors p) /\
    (errors p = Some e0 -> tree_of R_function_decl ts st).
Proof using Hrec.
  intros Ha Hl Hf Hc. apply wp_Some. eapply run_sound; [done..|]. apply (w_decl_any _ (ljas_works fuel)). right. lia.
Qed.
End Spec.
