(* ===== verification/LjasSource.v ===== *)
(** * From the text of the assembler to a tree

    The lexer of the assembler behind its parser. *)

From S2P Require Import Prelude ErrorList LexCore LexCoreSpec LjasToken LjasLexer LjasLexerSpec SyntaxTree LjasTree LjasGrammar.
From S2P Require Import ParserCore ParserSpec LexScanner LjasParser LjasParserSpec.
From Stdlib Require Import Strings.Byte.
Local Open Scope Z_scope.
Local Open Scope rd_scope.

Lemma ljas_blind_number : blind LjasLexer.number.
Proof. unfold LjasLexer.number, token. blind. Qed.
Lemma ljas_blind_comment : blind comment.
Proof. unfold comment. blind. Qed.
Lemma string_loop_moved n (x : Lexer) l b off : string_loop n (moved l b x) off = string_loop n x off.
Proof.
  revert off. induction n as [|n IH]; intros off; [done|]. cbn [string_loop].
  change (lookAhead (moved l b x)) with (lookAhead x). cbv zeta. by rewrite !IH.
Qed.
Lemma ljas_blind_string : blind string_.
Proof.
  unfold string_, token. apply blind_id; [intros x l b; by rewrite string_loop_moved|]. intros x _. destruct (string_loop _ x 1) as [[off [|]]|]; blind.
Qed.
#[local] Hint Resolve ljas_blind_number ljas_blind_comment ljas_blind_string : blind.
Lemma ljas_here_blind : blind token_here.
Proof. unfold token_here, ident. blind. Qed.

#[export] Instance Ljas_scanner_laws : ScannerLaws Lexer TokenType := scanner_laws token_here ljas_here_blind ljas_token_here.

(** [Parser], behind a [Lexer] with a text.
    [src/LjAsmEditor.cpp:732-739] compile *)
Definition parse_text (limit fuel : nat) (code path : bytes) (e : Errors) : option (SynTree * Parser Lexer TokenType ParserRule) :=
  match setStream code path new_Lexer with Some (_, x) => parse limit fuel (new_Parser x (Some e)) | None => None end.


Definition sample_text : bytes := qb "function main ( a b ) var c begin ADD c a -1.5 l: JMP l RET end".
Definition recorder : Errors := setRecord true new_Errors.


(** The texts of the tokens in a tree. *)
Definition show (t : LexToken NodeType) : bytes :=
  match d_type t with Tk t' => if bool_decide (d_val t = []) then tokenTypeString t' else d_val t | _ => [] end.
Definition shown (code : string) : option (list bytes * list bytes) :=
  match parse_text 200 2000 (qb code) [] recorder with
  | Some (Node _ [c], p) => Some (map show (leaves c), match errors p with Some e => map d_msg (d_entries e) | None => [] end)
  | _ => None
  end.

Example shown_function : shown "function f ( a ) -- c
  begin KSET a 1 l: JMP l end f" =
  Some (map qb ["function"; "f"; "("; "a"; ")"; "begin"; "KSET"; "a"; "1"; "l"; ":"; "JMP"; "l"; "end"; "f"]%string, []).
Proof. vm_compute. reflexivity. Qed.

(** A comment between a function and the dot behind its name hides the dot from [peek], and the text is rejected. *)
Remark comment_hides_dot :
  shown "function f ( a ) begin MOV a f.b end" =
    Some (map qb ["function"; "f"; "("; "a"; ")"; "begin"; "MOV"; "a"; "f"; "."; "b"; "end"]%string, []) /\
  snd <$> shown "function f ( a ) begin MOV a f -- c
    .b end" = Some [qb "'end' expected in function_decl"].
Proof. split; vm_compute; reflexivity. Qed.
