(* ===== verification/Assembler.v ===== *)
(** * The assembler: names and operands

    [Assembler] of [LjAssembler.h/.cpp]: its state, the objects that names stand for,
    declarations, and the operands of statements.  The objects of type [Named] have
    addresses: variables of a record are linked, and a statement of an inner function
    may name a variable of an outer one.  A method that returns [false] gives [None] as
    its result; a failed [Q_ASSERT], a null pointer or an access outside of a list is a
    failure of the computation.  Cross references, which are only made on request and
    never read by the assembler, are left out. *)

From S2P Require Import Prelude LexCore Double Bytecode QtLib BytecodeIO Composer LjasToken SyntaxTree LjasTree.
From Stdlib Require Import Strings.Byte.
Local Open Scope Z_scope.
Local Open Scope rd_scope.

(** What the assembler needs of Qt: the number that a text means, if it is one. *)
Class AsmLib := { text_toDouble : bytes -> option dbl }.

(** ** Objects *)

(** A variable; [v_from] and [v_to] have 22 bits, [v_n] and [v_slot] 8 bits.
    [src/LjAssembler.h:87-106] Var *)
Record AVar := mkAVar {
  v_name : option SynTree;
  v_from : Z;
  v_to : Z;
  v_n : Z;
  v_slot : Z;
  v_uvRo : bool;
  v_slotPreset : bool;
  v_uv : bool;
  v_call : bool;
  v_next : option nat;
  v_prev : option nat;
  v_func : option nat
}.

(** [src/LjAssembler.h:101-102] Var *)
Definition new_Var : AVar := mkAVar None 0 0 1 0 true false false false None None None.

(** [src/LjAssembler.h:81-85] Const *)
Record AConst := mkAConst { c_name : SynTree; c_val : QVariant }.

(** The names are sorted; an upvalue has its position in [f_upvals] as its number.
    [src/LjAssembler.h:116-134] Func *)
Record AFunc := mkAFunc {
  f_name : SynTree;
  f_names : list (bytes * nat);
  f_params : list nat;
  f_upvals : list nat;
  f_outer : option nat;
  f_id : Z;
  f_firstUnused : nat
}.

(** [src/LjAssembler.h:63-79] Named *)
Inductive Named : Type :=
  | NConst (c : AConst)
  | NVar (v : AVar)
  | NFunc (f : AFunc).

(** A value in a statement: a plain one, a pointer to a [Named], or a tree.
    [src/LjAssembler.h:140-140] Stmt *)
Inductive AVal : Type :=
  | AV (v : QVariant)
  | AN (n : nat)
  | AT (st : SynTree).

(** [src/LjAssembler.h:136-144] Stmt *)
Record Stmt := mkStmt {
  s_op : Op;
  s_pc : Z;
  s_vals : list AVal;
  s_st : SynTree
}.

(** An error: the position of the tree, and the message without its quotations. *)
Record AsmError := mkAsmError { ae_st : SynTree; ae_msg : bytes }.

(** [src/LjAssembler.h:188-195] Assembler *)
Record Assembler := mkAssembler {
  as_objs : list Named;
  d_comp : JitComposer;
  d_out : bytes;
  d_ref : bytes;
  d_errs : list AsmError
}.

Abbreviation AM := (SM Assembler).

Definition set_objs (l : list Named) (a : Assembler) : Assembler :=
  mkAssembler l (d_comp a) (d_out a) (d_ref a) (d_errs a).
Definition set_comp (c : JitComposer) (a : Assembler) : Assembler :=
  mkAssembler (as_objs a) c (d_out a) (d_ref a) (d_errs a).

(** The members of a variable that are changed. *)
Definition v_with_range (from to : Z) (v : AVar) : AVar :=
  mkAVar (v_name v) (from mod 2 ^ 22) (to mod 2 ^ 22) (v_n v) (v_slot v) (v_uvRo v) (v_slotPreset v) (v_uv v)
    (v_call v) (v_next v) (v_prev v) (v_func v).
Definition v_with_n (n : Z) (v : AVar) : AVar :=
  mkAVar (v_name v) (v_from v) (v_to v) (u8 n) (v_slot v) (v_uvRo v) (v_slotPreset v) (v_uv v)
    (v_call v) (v_next v) (v_prev v) (v_func v).
Definition v_with_slot (slot : Z) (v : AVar) : AVar :=
  mkAVar (v_name v) (v_from v) (v_to v) (v_n v) (u8 slot) (v_uvRo v) (v_slotPreset v) (v_uv v)
    (v_call v) (v_next v) (v_prev v) (v_func v).
Definition v_with_preset (v : AVar) : AVar :=
  mkAVar (v_name v) (v_from v) (v_to v) (v_n v) (v_slot v) (v_uvRo v) true (v_uv v)
    (v_call v) (v_next v) (v_prev v) (v_func v).
Definition v_with_uv (ro : bool) (v : AVar) : AVar :=
  mkAVar (v_name v) (v_from v) (v_to v) (v_n v) (v_slot v) ro (v_slotPreset v) true
    (v_call v) (v_next v) (v_prev v) (v_func v).
Definition v_with_call (v : AVar) : AVar :=
  mkAVar (v_name v) (v_from v) (v_to v) (v_n v) (v_slot v) (v_uvRo v) (v_slotPreset v) (v_uv v)
    true (v_next v) (v_prev v) (v_func v).
Definition v_with_next (next : nat) (v : AVar) : AVar :=
  mkAVar (v_name v) (v_from v) (v_to v) (v_n v) (v_slot v) (v_uvRo v) (v_slotPreset v) (v_uv v)
    (v_call v) (Some next) (v_prev v) (v_func v).

Definition f_with_names (l : list (bytes * nat)) (f : AFunc) : AFunc :=
  mkAFunc (f_name f) l (f_params f) (f_upvals f) (f_outer f) (f_id f) (f_firstUnused f).
Definition f_with_params (l : list nat) (f : AFunc) : AFunc :=
  mkAFunc (f_name f) (f_names f) l (f_upvals f) (f_outer f) (f_id f) (f_firstUnused f).
Definition f_with_upvals (l : list nat) (f : AFunc) : AFunc :=
  mkAFunc (f_name f) (f_names f) (f_params f) l (f_outer f) (f_id f) (f_firstUnused f).
Definition f_with_id (id : Z) (f : AFunc) : AFunc :=
  mkAFunc (f_name f) (f_names f) (f_params f) (f_upvals f) (f_outer f) (u16 id) (f_firstUnused f).

Definition s_with_vals (l : list AVal) (s : Stmt) : Stmt := mkStmt (s_op s) (s_pc s) l (s_st s).
Definition s_with_op (op : Op) (s : Stmt) : Stmt := mkStmt op (s_pc s) (s_vals s) (s_st s).
(** [s.d_vals << v] *)
Definition push (v : AVal) (s : Stmt) : Stmt := s_with_vals (s_vals s ++ [v]) s.

(** ** Access to the objects *)

Definition new_obj (n : Named) : AM nat :=
  fun a => Some (length (as_objs a), set_objs (as_objs a ++ [n]) a).
Definition get_obj (i : nat) : AM Named :=
  fun a => match as_objs a !! i with Some n => Some (n, a) | None => None end.
Definition get_var (i : nat) : AM AVar :=
  n <~ get_obj i; match n with NVar v => rret v | _ => rfail end.
Definition get_func (i : nat) : AM AFunc :=
  n <~ get_obj i; match n with NFunc f => rret f | _ => rfail end.
Definition mod_obj (i : nat) (g : Named -> Named) : AM unit :=
  rmod (fun a => set_objs (alter g i (as_objs a)) a).
Definition mod_var (i : nat) (g : AVar -> AVar) : AM unit :=
  mod_obj i (fun n => match n with NVar v => NVar (g v) | _ => n end).
Definition mod_func (i : nat) (g : AFunc -> AFunc) : AM unit :=
  mod_obj i (fun n => match n with NFunc f => NFunc (g f) | _ => n end).

(** A pointer that is dereferenced. *)
Definition deref {A} (o : option A) : AM A := match o with Some x => rret x | None => rfail end.

(** A call of the composer. *)
Definition comp {A} (m : SM JitComposer A) : AM A :=
  fun a => match m (d_comp a) with Some (x, c) => Some (x, set_comp c a) | None => None end.

(** ** Methods that may fail *)

Definition obind {A B} (m : AM (option A)) (k : A -> AM (option B)) : AM (option B) :=
  o <~ m; match o with Some x => k x | None => rret None end.
Notation "x <! m ; k" := (obind m (fun x => k))
  (at level 90, m at next level, right associativity) : rd_scope.
Definition ok {A} (x : A) : AM (option A) := rret (Some x).

(** [src/LjAssembler.cpp:1950-1954] error *)
Definition error {A} (st : SynTree) (msg : bytes) : AM (option A) :=
  _ <~ rmod (fun a => mkAssembler (as_objs a) (d_comp a) (d_out a) (d_ref a) (mkAsmError st msg :: d_errs a));
  rret None.

Definition assert (b : bool) : AM unit := if b then rret tt else rfail.

(** ** Names *)

(** [QMap<QByteArray,Named*>]: sorted by the keys; [insert] replaces the value. *)
Fixpoint names_find (k : bytes) (l : list (bytes * nat)) : option nat :=
  match l with
  | [] => None
  | (k', n) :: l => if bool_decide (k' = k) then Some n else names_find k l
  end.
Fixpoint names_insert (k : bytes) (n : nat) (l : list (bytes * nat)) : list (bytes * nat) :=
  match l with
  | [] => [(k, n)]
  | (k', n') :: l' =>
      if bool_decide (k' = k) then (k, n) :: l'
      else if bytes_ltb k k' then (k, n) :: l else (k', n') :: names_insert k n l'
  end.

Definition contains (f : nat) (k : bytes) : AM bool :=
  fn <~ get_func f; rret (match names_find k (f_names fn) with Some _ => true | None => false end).
Definition insert_name (f : nat) (k : bytes) (n : nat) : AM unit :=
  mod_func f (fun fn => f_with_names (names_insert k n (f_names fn)) fn).

(** The outer functions have smaller addresses, which bounds the search.
    [src/LjAssembler.cpp:1963-1979] findAll *)
Fixpoint findAll (fuel : nat) (objs : list Named) (f : nat) (name : bytes) : option nat :=
  match fuel with
  | O => None
  | S fuel =>
      match objs !! f with
      | Some (NFunc fn) =>
          match names_find name (f_names fn) with
          | Some n => Some n
          | None => match f_outer fn with Some o => findAll fuel objs o name | None => None end
          end
      | _ => None
      end
  end.

(** The object, and whether it is a name of the function itself.
    [src/LjAssembler.cpp:1963-1979] findAll *)
Definition find_all (f : nat) (name : bytes) : AM (option (nat * bool)) :=
  fn <~ get_func f;
  fun a => match names_find name (f_names fn) with
    | Some n => Some (Some (n, true), a)
    | None => Some (option_map (fun n => (n, false)) (findAll (S f) (as_objs a) f name), a)
    end.

(** [src/LjAssembler.cpp:1981-1988] findLocal *)
Definition findLocal (f : nat) (name : bytes) : AM (option nat) :=
  fn <~ get_func f; rret (names_find name (f_names fn)).

(** The position of a variable in a list of upvalues. *)
Definition upval_index (v : nat) (l : list nat) : option nat :=
  match list_find (fun w => w = v) l with Some (i, _) => Some i | None => None end.

(** [src/LjAssembler.cpp:1990-2002] resolveUpval *)
Fixpoint resolveUpval (fuel : nat) (f v : nat) (recursive : bool) : AM Z :=
  match fuel with
  | O => rfail
  | S fuel =>
      vv <~ get_var v;
      if bool_decide (v_func vv = Some f) then rret (-1)
      else
        fn <~ get_func f;
        match upval_index v (f_upvals fn) with
        | Some i => rret (u16 (Z.of_nat i))
        | None =>
            _ <~ mod_func f (fun fn => f_with_upvals (f_upvals fn ++ [v]) fn);
            _ <~ match f_outer fn with
                 | Some o =>
                     if recursive && negb (bool_decide (Some o = v_func vv))
                     then _ <~ resolveUpval fuel o v recursive; rret tt
                     else rret tt
                 | None => rret tt
                 end;
            rret (Z.of_nat (length (f_upvals fn)))
        end
  end.

(** ** Designators *)

Definition children_nr (st : SynTree) : Z := Z.of_nat (length (d_children st)).
(** [st->d_children[i]] *)
Definition child (st : SynTree) (i : nat) : AM SynTree := deref (d_children st !! i).

(** The function a name in front of a dot stands for; a name that is not known
    leaves the function as it is.  The test of [me->d_name] compares the pointer to a
    tree with the characters of a name, which are never the same.
    [src/LjAssembler.cpp:1842-1859] derefDesig *)
Definition desig_func (st : SynTree) (me : option nat) : AM (option (option nat)) :=
  _ <~ assert (3 <=? children_nr st);
  d <~ child st 1; v <~ child st 2;
  _ <~ assert (has_type d (Tk Tok_Dot) && has_type v (Rule R_vname));
  n <~ child st 0;
  let name := flatten n in
  m <~ deref me;
  t <~ find_all m (st_val name);
  match t with
  | None => ok (Some m)
  | Some (n, _) =>
      o <~ get_obj n;
      match o with
      | NFunc _ => ok (Some n)
      | _ => error name (qb "name doesn't designate a function")
      end
  end.

(** The object and the tree of its name.
    [src/LjAssembler.cpp:1834-1876] derefDesig *)
Definition derefDesig (st : SynTree) (me : option nat) (onlyLocalVars : bool) : AM (option (nat * SynTree)) :=
  _ <~ assert (has_type st (Rule R_desig) && (0 <? children_nr st));
  first <~ child st 0;
  let qualified := has_type first (Rule R_fname) in
  func <! (if qualified then desig_func st me else ok me);
  vname <~ child st (if qualified then 2%nat else 0%nat);
  _ <~ assert (has_type vname (Rule R_vname));
  let symName := flatten vname in
  f <~ deref func;
  sym <~ find_all f (st_val symName);
  match sym with
  | None => error vname (qb "name is not defined")
  | Some (n, isLocal) =>
      o <~ get_obj n;
      match o with
      | NVar _ =>
          if onlyLocalVars && negb isLocal
          then error vname (qb "cannot use non-local variables here") else ok (n, symName)
      | _ => ok (n, symName)
      end
  end.

(** [src/LjAssembler.cpp:2063-2071] registerRange *)
Definition registerRange (s : Stmt) (v : AVar) : AVar :=
  let pc := s_pc s + 1 in
  if (v_from v =? 0) && (v_to v =? 0) then v_with_range pc pc v
  else if v_to v <? pc then v_with_range (v_from v) pc v
  else v.

(** ** Numbers in texts *)

(** The digits of a text without blanks, with an optional sign. *)
Fixpoint decimal_value (acc : Z) (s : bytes) : option Z :=
  match s with
  | [] => Some acc
  | c :: s => if isdigit c then decimal_value (10 * acc + (ubyte c - 48)) s else None
  end.
Definition decimal_text (s : bytes) : option Z :=
  match s with
  | [] => None
  | c :: t =>
      if Byte.eqb c "-" then match t with [] => None | _ => option_map Z.opp (decimal_value 0 t) end
      else if Byte.eqb c "+" then match t with [] => None | _ => decimal_value 0 t end
      else decimal_value 0 s
  end.
(** [QByteArray::toInt(&ok)], and [toUInt()], which is 0 for a text that is not one. *)
Definition text_toInt (s : bytes) : option Z :=
  z ← decimal_text s; if (- 2 ^ 31 <=? z) && (z <? 2 ^ 31) then Some z else None.
Definition text_toUInt (s : bytes) : Z :=
  match decimal_text s with Some z => if (0 <=? z) && (z <? 2 ^ 32) then z else 0 | None => 0 end.

(** The text between the quotation marks. *)
Definition unquoted (s : bytes) : bytes := take (length s - 2) (drop 1 s).

Section Assembler.
Context `{Q : QtLib} `{AL : AsmLib}.

(** ** Values *)

(** The tests of [JitBytecode] on a value; a pointer is none of these. *)
Definition val_isString (v : AVal) : bool := match v with AV v => isString v | _ => false end.
Definition val_isNumber (v : AVal) : bool := match v with AV v => isNumber v | _ => false end.
Definition val_isPrimitive (v : AVal) : bool := match v with AV v => isPrimitive v | _ => false end.
Definition val_isNamed (v : AVal) : bool := match v with AN _ => true | _ => false end.
Definition val_isTable (v : AVal) : bool := match v with AV (QConstTable _ _) => true | _ => false end.
Definition val_toInt (v : AVal) : Z := match v with AV v => toInt v | _ => 0 end.
Definition val_toUInt (v : AVal) : Z := match v with AV v => toUInt v | _ => 0 end.
(** [s.d_vals.last()] *)
Definition last_val (s : Stmt) : AM AVal := deref (last (s_vals s)).

(** The value of a constant that is not a table.
    [src/LjAssembler.cpp:390-415] processConst *)
Definition constant (st : SynTree) : AM QVariant :=
  match st_type st with
  | Tk Tok_string => rret (QByteArray (unquoted (st_val st)))
  | Tk Tok_real => d <~ deref (text_toDouble (st_val st)); rret (QDouble d)
  | Tk Tok_negint | Tk Tok_posint => z <~ deref (text_toInt (st_val st)); rret (QInt z)
  | Tk Tok_nil => rret QInvalid
  | Tk Tok_true => rret (QBool true)
  | Tk Tok_false => rret (QBool false)
  | _ => rfail
  end.

(** The entries of a table from the position [i] on.
    [src/LjAssembler.cpp:543-566] processTable *)
Fixpoint table_loop (fuel : nat) (st : SynTree) (i : nat) (hash : list (QVariant * QVariant)) (arr : list QVariant)
    : AM (option QVariant) :=
  match fuel with
  | O => rfail
  | S fuel =>
      if (Z.of_nat i <? children_nr st - 1) then
        c <~ child st i;
        let name := flatten c in
        if has_type name (Tk Tok_ident) then
          _ <~ assert (Z.of_nat i <? children_nr st - 3);
          eq <~ child st (i + 1);
          _ <~ assert (has_type eq (Tk Tok_Eq));
          match qhash_find (QByteArray (st_val name)) hash with
          | Some _ => error name (qb "duplicate name in const table")
          | None =>
              c2 <~ child st (i + 2);
              v <~ constant (flatten c2);
              table_loop fuel st (i + 3) (qhash_insert (QByteArray (st_val name)) v hash) arr
          end
        else
          v <~ constant name;
          table_loop fuel st (i + 1) hash (arr ++ [v])
      else ok (QConstTable hash arr)
  end.

(** [src/LjAssembler.cpp:538-568] processTable *)
Definition processTable (st : SynTree) : AM (option QVariant) :=
  _ <~ assert (2 <=? children_nr st);
  a <~ child st 0; z <~ deref (last (d_children st));
  _ <~ assert (has_type a (Tk Tok_Lbrace) && has_type z (Tk Tok_Rbrace));
  table_loop (S (length (d_children st))) st 1 [] [].

(** [src/LjAssembler.cpp:386-426] processConst *)
Definition processConst (st : SynTree) : AM (option QVariant) :=
  let st := flatten st in
  if has_type st (Rule R_table_literal) then processTable st else v <~ constant st; ok v.

(** ** Operands *)

(** The [count] variables from one on are used by the statement.
    [src/LjAssembler.cpp:1083-1090] fetchV *)
Fixpoint register_loop (count : nat) (st : SynTree) (s : Stmt) (v : option nat) : AM (option unit) :=
  match count with
  | O => ok tt
  | S count =>
      match v with
      | None => error st (qb "%1 consecutive variables required")
      | Some i =>
          x <~ get_var i;
          _ <~ mod_var i (registerRange s);
          register_loop count st s (v_next x)
      end
  end.

(** [src/LjAssembler.cpp:1066-1093] fetchV *)
Definition fetchV (st : SynTree) (s : Stmt) (me : nat) (count : Z) (call : bool) : AM (option Stmt) :=
  _ <~ assert (0 <? count);
  ns <! derefDesig st (Some me) true;
  let n := fst ns in
  o <~ get_obj n;
  match o with
  | NVar _ =>
      _ <~ (if call then mod_var n v_with_call else rret tt);
      _ <~ mod_var n (fun v => if v_n v <? count then v_with_n count v else v);
      _ <! register_loop (Z.to_nat count) st s (Some n);
      ok (push (AN n) s)
  | _ => error st (qb "argument doesn't designate a variable")
  end.

(** [src/LjAssembler.cpp:1095-1110] fetchU *)
Definition fetchU (st : SynTree) (s : Stmt) (me : nat) (lhs : bool) : AM (option Stmt) :=
  fn <~ get_func me;
  ns <! derefDesig st (f_outer fn) false;
  let n := fst ns in
  o <~ get_obj n;
  match o with
  | NVar _ =>
      _ <~ resolveUpval (S me) me n true;
      _ <~ mod_var n (fun v => v_with_uv (v_uvRo v && negb lhs) v);
      ok (push (AN n) s)
  | _ => error st (qb "argument doesn't designate a variable")
  end.

(** [src/LjAssembler.cpp:1112-1135] fetchN *)
Definition fetchN (st : SynTree) (s : Stmt) : AM (option Stmt) :=
  let st := flatten st in
  match st_type st with
  | Tk Tok_real => d <~ deref (text_toDouble (st_val st)); ok (push (AV (QDouble d)) s)
  | Tk Tok_negint | Tk Tok_posint => z <~ deref (text_toInt (st_val st)); ok (push (AV (QInt z)) s)
  | _ => rfail
  end.

(** [src/LjAssembler.cpp:1137-1150] fetchS *)
Definition fetchS (st : SynTree) (s : Stmt) : AM (option Stmt) :=
  let st := flatten st in
  match st_type st with
  | Tk Tok_string => ok (push (AV (QByteArray (unquoted (st_val st)))) s)
  | _ => rfail
  end.

(** [src/LjAssembler.cpp:1152-1171] fetchP *)
Definition fetchP (st : SynTree) (s : Stmt) : AM (option Stmt) :=
  let st := flatten st in
  match st_type st with
  | Tk Tok_nil => ok (push (AV QInvalid) s)
  | Tk Tok_true => ok (push (AV (QBool true)) s)
  | Tk Tok_false => ok (push (AV (QBool false)) s)
  | _ => rfail
  end.

(** [src/LjAssembler.cpp:1173-1190] fetchVc *)
Definition fetchVc (st : SynTree) (s : Stmt) (me : nat) : AM (option Stmt) :=
  ns <! derefDesig st (Some me) true;
  let n := fst ns in
  o <~ get_obj n;
  match o with
  | NConst c => ok (push (AV (c_val c)) s)
  | NVar _ => _ <~ mod_var n (registerRange s); ok (push (AN n) s)
  | NFunc _ => error st (qb "argument doesn't designate a variable")
  end.

(** [src/LjAssembler.cpp:1192-1206] fetchC *)
Definition fetchC (st : SynTree) (s : Stmt) (me : nat) : AM (option Stmt) :=
  _ <~ assert (has_type st (Rule R_cname) && (0 <? children_nr st));
  let st := flatten st in
  r <~ find_all me (st_val st);
  match r with
  | None => error st (qb "unknown const")
  | Some (n, _) =>
      o <~ get_obj n;
      match o with
      | NConst c => ok (push (AV (c_val c)) s)
      | _ => error st (qb "invalid const")
      end
  end.

(** [src/LjAssembler.cpp:1208-1222] fetchF *)
Definition fetchF (st : SynTree) (s : Stmt) (me : nat) : AM (option Stmt) :=
  _ <~ assert (has_type st (Rule R_fname) && (0 <? children_nr st));
  let st := flatten st in
  r <~ findLocal me (st_val st);
  match r with
  | None => error st (qb "unknown function")
  | Some n =>
      o <~ get_obj n;
      match o with
      | NFunc _ => ok (push (AN n) s)
      | _ => error st (qb "invalid function")
      end
  end.

(** [src/LjAssembler.cpp:1224-1244] fetchVcsnp *)
Definition fetchVcsnp (st : SynTree) (s : Stmt) (me : nat) : AM (option Stmt) :=
  match st_type st with
  | Rule R_desig => fetchVc st s me
  | Tk Tok_string => fetchS st s
  | Rule R_number | Tk Tok_real | Tk Tok_negint | Tk Tok_posint => fetchN st s
  | Rule R_primitive => fetchP st s
  | _ => rfail
  end.

(** [src/LjAssembler.cpp:1246-1263] fetchCsnp *)
Definition fetchCsnp (st : SynTree) (s : Stmt) (me : nat) : AM (option Stmt) :=
  match st_type st with
  | Rule R_cname => fetchC st s me
  | Tk Tok_string => fetchS st s
  | Rule R_number => fetchN st s
  | Rule R_primitive => fetchP st s
  | _ => rfail
  end.

(** [src/LjAssembler.cpp:1265-1278] fetchVcn *)
Definition fetchVcn (st : SynTree) (s : Stmt) (me : nat) : AM (option Stmt) :=
  match st_type st with
  | Rule R_desig => fetchVc st s me
  | Rule R_number => fetchN st s
  | _ => rfail
  end.
End Assembler.
