(* ===== verification/AsmStat.v ===== *)
(** * The assembler: statements

    [Assembler::processStat] of [LjAssembler.cpp], one definition for each group of
    cases: the operation of a statement and its values are found, and the variables
    it uses get their ranges. *)

From S2P Require Import Prelude LexCore Double Bytecode QtLib BytecodeIO Composer LjasToken SyntaxTree LjasTree Assembler.
From Stdlib Require Import Strings.Byte.
Local Open Scope Z_scope.
Local Open Scope rd_scope.

Section Statements.
Context `{Q : QtLib} `{AL : AsmLib}.

(** [Q_ASSERT( st->d_children.size() == n )] *)
Definition sized (st : SynTree) (from to : Z) : AM unit :=
  assert ((from <=? children_nr st) && (children_nr st <=? to)).
Definition max_slots : Z := 250.

(** [qSwap( s.d_vals[i], s.d_vals[i+1] )] where the statement has so many values. *)
Definition swap_last (s : Stmt) : AM Stmt :=
  match rev (s_vals s) with
  | y :: x :: l => rret (s_with_vals (rev l ++ [y; x]) s)
  | _ => rfail
  end.

(** The operations with two variables.
    [src/LjAssembler.cpp:586-615] processStat *)
Definition vv_op (r : NodeType) : Op :=
  match r with
  | Rule R_ISTC_ => OP_ISTC | Rule R_ISFC_ => OP_ISFC | Rule R_MOV_ => OP_MOV | Rule R_NOT_ => OP_NOT
  | Rule R_UNM_ => OP_UNM | Rule R_LEN_ => OP_LEN | Rule R_ISGE_ => OP_ISGE | Rule R_ISLE_ => OP_ISLE
  | Rule R_ISGT_ => OP_ISGT | _ => OP_INVALID
  end.

(** [src/LjAssembler.cpp:577-621] processStat *)
Definition stat_VV (st : SynTree) (s : Stmt) (me : nat) : AM (option Stmt) :=
  let s := s_with_op (vv_op (st_type st)) s in
  _ <~ sized st 3 3;
  c1 <~ child st 1; c2 <~ child st 2;
  s <! fetchV c1 s me 1 false;
  fetchV c2 s me 1 false.

(** [src/LjAssembler.cpp:622-629] processStat *)
Definition stat_IST (st : SynTree) (s : Stmt) (me : nat) : AM (option Stmt) :=
  let s := s_with_op (if has_type st (Rule R_IST_) then OP_IST else OP_ISF) s in
  _ <~ sized st 2 2;
  c1 <~ child st 1;
  fetchV c1 (push (AV (QInt 0)) s) me 1 false.

(** [src/LjAssembler.cpp:630-639] processStat *)
Definition stat_POW (st : SynTree) (s : Stmt) (me : nat) : AM (option Stmt) :=
  let s := s_with_op OP_POW s in
  _ <~ sized st 4 4;
  c1 <~ child st 1; c2 <~ child st 2; c3 <~ child st 3;
  s <! fetchV c1 s me 1 false;
  s <! fetchV c2 s me 1 false;
  fetchV c3 s me 1 false.

(** [src/LjAssembler.cpp:640-658] processStat *)
Definition stat_ISEQ (st : SynTree) (s : Stmt) (me : nat) : AM (option Stmt) :=
  let eq := has_type st (Rule R_ISEQ_) in
  _ <~ sized st 3 3;
  c1 <~ child st 1; c2 <~ child st 2;
  s <! fetchV c1 s me 1 false;
  s <! fetchVcsnp c2 s me;
  v <~ last_val s;
  if val_isNamed v then ok (s_with_op (if eq then OP_ISEQV else OP_ISNEV) s)
  else if val_isString v then ok (s_with_op (if eq then OP_ISEQS else OP_ISNES) s)
  else if val_isPrimitive v then ok (s_with_op (if eq then OP_ISEQP else OP_ISNEP) s)
  else if val_isNumber v then ok (s_with_op (if eq then OP_ISEQN else OP_ISNEN) s)
  else error c2 (qb "argument 2 has not supported type").

(** The operations for a number and a variable, a variable and a number, and two
    variables.
    [src/LjAssembler.cpp:674-732] processStat *)
Definition arith_op (r : NodeType) (num_left num_right : bool) : Op :=
  match r with
  | Rule R_ADD_ => if num_left then OP_ADDNV else if num_right then OP_ADDVN else OP_ADDVV
  | Rule R_SUB_ => if num_left then OP_SUBNV else if num_right then OP_SUBVN else OP_SUBVV
  | Rule R_MUL_ => if num_left then OP_MULNV else if num_right then OP_MULVN else OP_MULVV
  | Rule R_DIV_ => if num_left then OP_DIVNV else if num_right then OP_DIVVN else OP_DIVVV
  | Rule R_MOD_ => if num_left then OP_MODNV else if num_right then OP_MODVN else OP_MODVV
  | _ => OP_INVALID
  end.

(** [src/LjAssembler.cpp:659-735] processStat *)
Definition stat_arith (st : SynTree) (s : Stmt) (me : nat) : AM (option Stmt) :=
  _ <~ sized st 4 4;
  c1 <~ child st 1; c2 <~ child st 2; c3 <~ child st 3;
  s <! fetchV c1 s me 1 false;
  s <! fetchVcn c2 s me;
  s <! fetchVcn c3 s me;
  match s_vals s with
  | [a; l; r] =>
      if val_isNumber l && val_isNamed r then
        ok (s_with_vals [a; r; l] (s_with_op (arith_op (st_type st) true false) s))
      else if val_isNamed l && val_isNumber r then ok (s_with_op (arith_op (st_type st) false true) s)
      else if val_isNamed l && val_isNamed r then ok (s_with_op (arith_op (st_type st) false false) s)
      else error c2 (qb "argument types not supported")
  | _ => rfail
  end.

(** [src/LjAssembler.cpp:736-744] processStat *)
Definition stat_LOOP (s : Stmt) (me : nat) : AM (option Stmt) :=
  fn <~ get_func me;
  ok (push (AV (QInt 0)) (push (AN (f_firstUnused fn)) (s_with_op OP_LOOP s))).

(** [src/LjAssembler.cpp:745-772] processStat *)
Definition stat_KSET (st : SynTree) (s : Stmt) (me : nat) : AM (option Stmt) :=
  _ <~ sized st 3 3;
  c1 <~ child st 1; c2 <~ child st 2;
  s <! fetchV c1 s me 1 false;
  s <! fetchCsnp c2 s me;
  v <~ last_val s;
  if val_isString v then ok (s_with_op OP_KSTR s)
  else if val_isPrimitive v then ok (s_with_op OP_KPRI s)
  else if val_isNumber v then
    match v with
    | AV (QDouble _) => ok (s_with_op OP_KNUM s)
    | _ => if (- 32768 <=? val_toInt v) && (val_toInt v <=? 32767)
           then ok (s_with_op OP_KSHORT s) else ok (s_with_op OP_KNUM s)
    end
  else if val_isTable v then ok (s_with_op OP_KCDATA s)
  else error c2 (qb "argument 2 has not supported type").

(** The variables from one to the end of its record.
    [src/LjAssembler.cpp:791-796] processStat *)
Fixpoint record_length (fuel : nat) (v : option nat) : AM Z :=
  match v, fuel with
  | None, _ => rret 0
  | Some _, O => rfail
  | Some i, S fuel => x <~ get_var i; n <~ record_length fuel (v_next x); rret (n + 1)
  end.

(** [toVar( derefDesig(...).first )]; the error is reported, but the name goes on as a
    null pointer.
    [src/LjAssembler.cpp:97-112] toVar *)
Definition desig_var (st : SynTree) (me : nat) : AM (option nat) :=
  ns <~ derefDesig st (Some me) true;
  match ns with
  | None => rret None
  | Some (n, _) => o <~ get_obj n; rret (match o with NVar _ => Some n | _ => None end)
  end.

(** The number of variables of [CAT] and [KNIL]: what the child [k] says, or up to the
    end of the record of the designator.
    [src/LjAssembler.cpp:780-797] processStat *)
Definition var_count (st : SynTree) (k : nat) (desig : SynTree) (s : Stmt) (me : nat) : AM (option (Z * Stmt)) :=
  match d_children st !! k with
  | Some c =>
      s <! fetchN c s;
      v <~ last_val s;
      if val_toInt v =? 0 then error c (qb "expecting integer greater than zero ")
      else ok (val_toInt v, s)
  | None =>
      v <~ desig_var desig me;
      objs <~ rget as_objs;
      n <~ record_length (length objs) v;
      ok (n, push (AV (QInt n)) s)
  end.

(** [src/LjAssembler.cpp:773-805] processStat *)
Definition stat_CAT (st : SynTree) (s : Stmt) (me : nat) : AM (option Stmt) :=
  _ <~ sized st 3 4;
  let s := s_with_op OP_CAT s in
  c1 <~ child st 1; c2 <~ child st 2;
  s <! fetchV c1 s me 1 false;
  r <! var_count st 3 c2 s me;
  s <! fetchV c2 (snd r) me (fst r) false;
  s <~ swap_last s; ok s.

(** [src/LjAssembler.cpp:806-836] processStat *)
Definition stat_KNIL (st : SynTree) (s : Stmt) (me : nat) : AM (option Stmt) :=
  _ <~ sized st 2 3;
  let s := s_with_op OP_KNIL s in
  c1 <~ child st 1;
  r <! var_count st 2 c1 s me;
  s <! fetchV c1 (snd r) me (fst r) false;
  s <~ swap_last s; ok s.

(** [src/LjAssembler.cpp:837-854] processStat *)
Definition stat_USET (st : SynTree) (s : Stmt) (me : nat) : AM (option Stmt) :=
  _ <~ sized st 3 3;
  c1 <~ child st 1; c2 <~ child st 2;
  s <! fetchU c1 s me true;
  s <! fetchVcsnp c2 s me;
  v <~ last_val s;
  if val_isString v then ok (s_with_op OP_USETS s)
  else if val_isPrimitive v then ok (s_with_op OP_USETP s)
  else if val_isNumber v then ok (s_with_op OP_USETN s)
  else if val_isNamed v then ok (s_with_op OP_USETV s)
  else error c2 (qb "argument 2 has not supported type").

(** [src/LjAssembler.cpp:855-862] processStat *)
Definition stat_UGET (st : SynTree) (s : Stmt) (me : nat) : AM (option Stmt) :=
  let s := s_with_op OP_UGET s in
  _ <~ sized st 3 3;
  c1 <~ child st 1; c2 <~ child st 2;
  s <! fetchV c1 s me 1 false;
  fetchU c2 s me false.

(** [src/LjAssembler.cpp:863-872] processStat *)
Definition stat_UCLO (st : SynTree) (s : Stmt) (me : nat) : AM (option Stmt) :=
  let s := s_with_op OP_UCLO s in
  _ <~ sized st 2 3;
  c1 <~ child st 1;
  s <! fetchV c1 s me 1 false;
  ok (push (match d_children st !! 2%nat with Some c => AT (flatten c) | None => AV QInvalid end) s).

(** [src/LjAssembler.cpp:873-880] processStat *)
Definition stat_FNEW (st : SynTree) (s : Stmt) (me : nat) : AM (option Stmt) :=
  let s := s_with_op OP_FNEW s in
  _ <~ sized st 3 3;
  c1 <~ child st 1; c2 <~ child st 2;
  s <! fetchV c1 s me 1 false;
  fetchF c2 s me.

(** [src/LjAssembler.cpp:881-906] processStat *)
Definition stat_TNEW (st : SynTree) (s : Stmt) (me : nat) : AM (option Stmt) :=
  let s := s_with_op OP_TNEW s in
  _ <~ sized st 2 4;
  c1 <~ child st 1;
  s <! fetchV c1 s me 1 false;
  match d_children st !! 2%nat with
  | None => ok (push (AV (QInt 0)) s)
  | Some c2 =>
      s1 <! fetchN c2 s;
      v <~ last_val s1;
      let a := u16 (val_toUInt v) in
      if 2047 <? a then error c2 (qb "array size 0..2047 (11 bits)")
      else
        match d_children st !! 3%nat with
        | None => ok s1
        | Some c3 =>
            s2 <! fetchN c3 s1;
            v <~ last_val s2;
            let h := u16 (val_toUInt v) in
            if 31 <? h then error c2 (qb "hash size 0..31 (5 bits)")
            else ok (push (AV (QInt (a + Z.shiftl h 11))) s)
        end
  end.

(** [src/LjAssembler.cpp:907-926] processStat *)
Definition stat_TDUP (st : SynTree) (s : Stmt) (me : nat) : AM (option Stmt) :=
  let s := s_with_op OP_TDUP s in
  _ <~ sized st 3 3;
  c1 <~ child st 1; c2 <~ child st 2;
  s <! fetchV c1 s me 1 false;
  if has_type c2 (Rule R_cname) then
    s <! fetchC c2 s me;
    v <~ last_val s;
    if val_isTable v then ok s else error c2 (qb "expecting table literal")
  else if has_type c2 (Rule R_table_literal) then
    t <! processTable c2; ok (push (AV t) s)
  else ok s.

(** [src/LjAssembler.cpp:927-945] processStat *)
Definition stat_GGET (st : SynTree) (s : Stmt) (me : nat) : AM (option Stmt) :=
  let s := s_with_op (if has_type st (Rule R_GGET_) then OP_GGET else OP_GSET) s in
  _ <~ sized st 3 3;
  c1 <~ child st 1; c2 <~ child st 2;
  s <! fetchV c1 s me 1 false;
  if has_type c2 (Rule R_cname) then
    s <! fetchC c2 s me;
    v <~ last_val s;
    if val_isString v then ok s else error c2 (qb "expecting string")
  else if has_type c2 (Tk Tok_string) then fetchS c2 s
  else ok s.

(** [src/LjAssembler.cpp:946-964] processStat *)
Definition stat_TGET (st : SynTree) (s : Stmt) (me : nat) : AM (option Stmt) :=
  let get := has_type st (Rule R_TGET_) in
  _ <~ sized st 4 4;
  c1 <~ child st 1; c2 <~ child st 2; c3 <~ child st 3;
  s <! fetchV c1 s me 1 false;
  s <! fetchV c2 s me 1 false;
  s <! fetchVcsnp c3 s me;
  v <~ last_val s;
  if val_isNamed v then ok (s_with_op (if get then OP_TGETV else OP_TSETV) s)
  else if val_isString v then ok (s_with_op (if get then OP_TGETS else OP_TSETS) s)
  else if val_isNumber v && (val_toInt v <=? 255) then ok (s_with_op (if get then OP_TGETB else OP_TSETB) s)
  else error c2 (qb "argument 3 has not supported type").

(** The numbers of results and arguments.
    [src/LjAssembler.cpp:969-987] processStat *)
Definition call_counts (st : SynTree) (s : Stmt) : AM (option (Z * Z * Stmt)) :=
  match d_children st !! 2%nat with
  | None => ok (0, 0, push (AV (QInt 0)) (push (AV (QInt 0)) s))
  | Some c2 =>
      s <! fetchN c2 s;
      v <~ last_val s;
      let rets := val_toInt v in
      r <! match d_children st !! 3%nat with
           | Some c3 => s <! fetchN c3 s; v <~ last_val s; ok (val_toInt v, s)
           | None => ok (0, push (AV (QInt 0)) s)
           end;
      let '(args, s) := r in
      if max_slots <? rets then error c2 (qb "invalid number of return values")
      else if max_slots <? args then error c2 (qb "invalid number of argument")
      else ok (rets, args, s)
  end.

(** [src/LjAssembler.cpp:965-995] processStat *)
Definition stat_CALL (st : SynTree) (s : Stmt) (me : nat) : AM (option Stmt) :=
  _ <~ sized st 2 4;
  let s := s_with_op OP_CALL s in
  r <! call_counts st s;
  let '(rets, args, s) := r in
  c1 <~ child st 1;
  s <! fetchV c1 s me (Z.max rets (args + 1)) true;
  match s_vals s with
  | [x; y; v] => ok (s_with_vals [v; x; y] s)
  | _ => rfail
  end.

(** [src/LjAssembler.cpp:996-1010] processStat *)
Definition stat_CALLT (st : SynTree) (s : Stmt) (me : nat) : AM (option Stmt) :=
  _ <~ sized st 3 3;
  let s := s_with_op OP_CALLT s in
  c1 <~ child st 1; c2 <~ child st 2;
  s <! fetchN c2 s;
  v <~ last_val s;
  let n := val_toInt v + 1 in
  if max_slots <? n then error c2 (qb "invalid number of argument")
  else s <! fetchV c1 s me n true; s <~ swap_last s; ok s.

(** [src/LjAssembler.cpp:1011-1038] processStat *)
Definition stat_RET (st : SynTree) (s : Stmt) (me : nat) : AM (option Stmt) :=
  _ <~ sized st 1 3;
  match d_children st !! 1%nat with
  | None => ok (push (AV (QInt 0)) (push (AV (QInt 0)) (s_with_op OP_RET0 s)))
  | Some c1 =>
      r <! match d_children st !! 2%nat with
           | Some c2 =>
               s <! fetchN c2 s;
               v <~ last_val s;
               if max_slots <? val_toInt v then error c2 (qb "invalid number of return values")
               else ok (val_toInt v, s_with_op OP_RET s)
           | None => ok (1, push (AV (QInt 1)) (s_with_op OP_RET1 s))
           end;
      s <! fetchV c1 (snd r) me (fst r) false;
      s <~ swap_last s; ok s
  end.

(** [src/LjAssembler.cpp:1039-1046] processStat *)
Definition stat_FOR (st : SynTree) (s : Stmt) (me : nat) : AM (option Stmt) :=
  let s := s_with_op (if has_type st (Rule R_FORI_) then OP_FORI else OP_FORL) s in
  _ <~ sized st 3 3;
  c1 <~ child st 1; c2 <~ child st 2;
  s <! fetchV c1 s me 4 false;
  ok (push (AT (flatten c2)) s).

(** [src/LjAssembler.cpp:1047-1056] processStat *)
Definition stat_JMP (st : SynTree) (s : Stmt) (me : nat) : AM (option Stmt) :=
  fn <~ get_func me;
  _ <~ sized st 2 2;
  c1 <~ child st 1;
  ok (push (AT (flatten c1)) (push (AN (f_firstUnused fn)) (s_with_op OP_JMP s))).

(** The statement is appended to the list.
    [src/LjAssembler.cpp:570-576] processStat *)
Definition processStat (st : SynTree) (l : list Stmt) (me : nat) : AM (option (list Stmt)) :=
  let s := mkStmt OP_INVALID (Z.of_nat (length l) mod 2 ^ 24) [] st in
  s <! match st_type st with
       | Rule R_ISTC_ | Rule R_ISFC_ | Rule R_MOV_ | Rule R_NOT_ | Rule R_UNM_ | Rule R_LEN_
       | Rule R_ISGE_ | Rule R_ISLE_ | Rule R_ISGT_ => stat_VV st s me
       | Rule R_IST_ | Rule R_ISF_ => stat_IST st s me
       | Rule R_POW_ => stat_POW st s me
       | Rule R_ISEQ_ | Rule R_ISNE_ => stat_ISEQ st s me
       | Rule R_ADD_ | Rule R_SUB_ | Rule R_MUL_ | Rule R_DIV_ | Rule R_MOD_ => stat_arith st s me
       | Rule R_LOOP_ => stat_LOOP s me
       | Rule R_KSET_ => stat_KSET st s me
       | Rule R_CAT_ => stat_CAT st s me
       | Rule R_KNIL_ => stat_KNIL st s me
       | Rule R_USET_ => stat_USET st s me
       | Rule R_UGET_ => stat_UGET st s me
       | Rule R_UCLO_ => stat_UCLO st s me
       | Rule R_FNEW_ => stat_FNEW st s me
       | Rule R_TNEW_ => stat_TNEW st s me
       | Rule R_TDUP_ => stat_TDUP st s me
       | Rule R_GGET_ | Rule R_GSET_ => stat_GGET st s me
       | Rule R_TGET_ | Rule R_TSET_ => stat_TGET st s me
       | Rule R_CALL_ => stat_CALL st s me
       | Rule R_CALLT_ => stat_CALLT st s me
       | Rule R_RET_ => stat_RET st s me
       | Rule R_FORI_ | Rule R_FORL_ => stat_FOR st s me
       | Rule R_JMP_ => stat_JMP st s me
       | _ => error st (qb "operator not yet supported")
       end;
  ok (l ++ [s]).
End Statements.
