(* ===== verification/AsmAlloc.v ===== *)
(** * The assembler: jumps, registers and checks

    What [Assembler] of [LjAssembler.cpp] does with the statements of a function before
    it generates code: labels are resolved, variables get their slots, and the order of
    the slots of records is checked. *)

From S2P Require Import Prelude LexCore Double Bytecode QtLib BytecodeIO SlotPool LinearScan Composer LjasToken SyntaxTree LjasTree Assembler AsmStat.
From Stdlib Require Import Strings.Byte.
Local Open Scope Z_scope.
Local Open Scope rd_scope.

Section Registers.
Context `{Q : QtLib} `{AL : AsmLib} `{Srt : StdSort}.

(** ** Jumps *)

(** The labels with the positions of their statements. *)
Definition Labels : Type := list (bytes * nat).

(** The operations that are followed by a jump.
    [src/LjAssembler.cpp:1601-1618] checkTestOp *)
Definition is_test (op : Op) : bool :=
  match op with
  | OP_ISLT | OP_ISGE | OP_ISLE | OP_ISGT | OP_ISEQV | OP_ISNEV | OP_ISEQS | OP_ISNES
  | OP_ISEQN | OP_ISNEN | OP_ISEQP | OP_ISNEP | OP_ISTC | OP_ISFC | OP_IST | OP_ISF => true
  | _ => false
  end.

(** [src/LjAssembler.cpp:1598-1624] checkTestOp *)
Definition checkTestOp (stmts : list Stmt) (pc : nat) : AM (option unit) :=
  s <~ deref (stmts !! pc);
  if is_test (s_op s) then
    match stmts !! S pc with
    | Some s' => if bool_decide (s_op s' = OP_JMP) then ok tt
                 else error (s_st s) (qb "expecting JMP after comparison or test ops")
    | None => error (s_st s) (qb "expecting JMP after comparison or test ops")
    end
  else ok tt.

(** [src/LjAssembler.cpp:1288-1293] checkJumpsAndMore *)
Definition has_label (op : Op) : bool :=
  match op with OP_UCLO | OP_FORI | OP_FORL | OP_JMP => true | _ => false end.

(** The operand of a jump from [pc] to [target].
    [src/LjAssembler.cpp:1305-1305] checkJumpsAndMore *)
Definition jump_operand (target pc : nat) : Z := u16 (Z.of_nat target - (Z.of_nat pc + 1) + JumpBias).

(** The statement with its label resolved.
    [src/LjAssembler.cpp:1288-1305] checkJumpsAndMore *)
Definition resolve_jump (s : Stmt) (pc : nat) (lbls : Labels) : AM (option Stmt) :=
  if has_label (s_op s) then
    v <~ last_val s;
    match v with
    | AT name =>
        match names_find (st_val name) lbls with
        | None => error (s_st s) (qb "label not defined")
        | Some target => ok (s_with_vals (removelast (s_vals s) ++ [AV (QInt (jump_operand target pc))]) s)
        end
    | _ => _ <~ assert (bool_decide (s_op s = OP_UCLO)); ok s
    end
  else ok s.

(** [src/LjAssembler.cpp:1282-1322] checkJumpsAndMore *)
Fixpoint jumps_loop (n pc : nat) (stmts : list Stmt) (lbls : Labels) : AM (option (list Stmt)) :=
  match n with
  | O => ok stmts
  | S n =>
      _ <! checkTestOp stmts pc;
      s <~ deref (stmts !! pc);
      s <! resolve_jump s pc lbls;
      jumps_loop n (S pc) (<[pc := s]> stmts) lbls
  end.

(** [src/LjAssembler.cpp:1324-1334] checkJumpsAndMore *)
Definition is_end (op : Op) : bool :=
  match op with OP_RET | OP_RET0 | OP_RET1 | OP_RETM | OP_CALLT => true | _ => false end.

(** [src/LjAssembler.cpp:1280-1336] checkJumpsAndMore *)
Definition checkJumpsAndMore (stmts : list Stmt) (lbls : Labels) : AM (option (list Stmt)) :=
  stmts <! jumps_loop (length stmts) 0 stmts lbls;
  s <~ deref (last stmts);
  if is_end (s_op s) then ok stmts
  else error (s_st s) (qb "last statement must be return or tail call").

(** ** Records that overlap *)

(** [src/LjAssembler.cpp:2074-2077] isUnused *)
Definition isUnused (v : AVar) : bool := (v_from v =? 0) && (v_to v =? 0) && negb (v_uv v).
(** [src/LjAssembler.cpp:2079-2082] isFixed *)
Definition isFixed (v : AVar) : bool := (v_from v =? 0) && negb (v_to v =? 0).

(** [src/LjAssembler.cpp:2088-2098] bounds *)
Fixpoint bounds_loop (n : nat) (v : option nat) (from to : Z) : AM (Z * Z) :=
  match n, v with
  | S n, Some i =>
      x <~ get_var i;
      bounds_loop n (v_next x) (if v_from x <? from then v_from x else from) (if to <? v_to x then v_to x else to)
  | _, _ => rret (from, to)
  end.
(** [src/LjAssembler.cpp:2084-2100] bounds *)
Definition bounds (v : AVar) : AM (Z * Z) :=
  bounds_loop (Z.to_nat (v_n v - 1)) (v_next v) (v_from v) (v_to v).

(** The loop over the variables behind [header]; [rec] is the call for one of them.
    [src/LjAssembler.cpp:120-135] findOverlaps *)
Fixpoint overlaps_loop (rec : nat -> list nat -> AM (list nat)) (header : nat) (n : nat) (v : option nat)
    (registered : bool) (out : list nat) : AM (list nat) :=
  match n, v with
  | S n, Some i =>
      x <~ get_var i;
      if 1 <? v_n x then
        let reg := negb registered && negb (bool_decide (header ∈ out)) in
        let out := if reg then out ++ [header] else out in
        let out := if bool_decide (i ∈ out) then out else out ++ [i] in
        out <~ rec i out;
        overlaps_loop rec header n (v_next x) (registered || reg) out
      else overlaps_loop rec header n (v_next x) registered out
  | _, _ => rret out
  end.

(** [src/LjAssembler.cpp:114-136] findOverlaps *)
Fixpoint findOverlaps (fuel : nat) (header : nat) (out : list nat) : AM (list nat) :=
  match fuel with
  | O => rfail
  | S fuel =>
      h <~ get_var header;
      overlaps_loop (findOverlaps fuel) header (Z.to_nat (v_n h - 1)) (v_next h) false out
  end.

(** The closest variable before one that starts a record, and its distance.
    [src/LjAssembler.cpp:143-151] resolveOverlaps *)
Fixpoint previous_header (fuel : nat) (v : nat) (off : Z) : AM (option nat * Z) :=
  match fuel with
  | O => rfail
  | S fuel =>
      x <~ get_var v;
      match v_prev x with
      | None => rret (None, off + 1)
      | Some h => y <~ get_var h; if 1 <? v_n y then rret (Some h, off + 1) else previous_header fuel h (off + 1)
      end
  end.

(** The list from its end.
    [src/LjAssembler.cpp:138-163] resolveOverlaps *)
Fixpoint resolveOverlaps (l : list nat) : AM unit :=
  match l with
  | v :: ((w :: _) as l') =>
      objs <~ rget as_objs;
      r <~ previous_header (length objs) v 0;
      let '(h, off) := r in
      _ <~ assert (bool_decide (h = Some w));
      x <~ get_var v;
      _ <~ mod_var w (fun y => v_with_n (v_n y + Z.max (off + v_n x - v_n y) 0) y);
      _ <~ mod_var v (v_with_n 0);
      resolveOverlaps l'
  | _ => rret tt
  end.

(** One direction of [checkCallGroup].
    [src/LjAssembler.cpp:1700-1706] checkCallGroup *)
Fixpoint group_loop (fuel : nat) (link : AVar -> option nat) (v : option nat) : AM bool :=
  match v, fuel with
  | None, _ => rret true
  | Some _, O => rfail
  | Some i, S fuel =>
      x <~ get_var i;
      if (1 <? v_n x) && negb (v_call x) then rret false else group_loop fuel link (link x)
  end.

(** [src/LjAssembler.cpp:1698-1715] checkCallGroup *)
Definition checkCallGroup (v : nat) : AM (option unit) :=
  objs <~ rget as_objs;
  x <~ get_var v;
  name <~ deref (v_name x);
  a <~ group_loop (length objs) v_next (Some v);
  if negb a then error name (qb "records cannot be used for both calls and non-calls")
  else
    b <~ group_loop (length objs) v_prev (Some v);
    if negb b then error name (qb "records cannot be used for both calls and non-calls") else ok tt.

(** ** Slots *)

(** [pool.d_slots.set(i)] *)
Definition pool_set (pool : SlotPool) (i : nat) : AM SlotPool :=
  slots <~ deref (set_bit (d_slots pool) i true); rret (with_slots pool slots).

(** [src/LjAssembler.cpp:1359-1361] allocateRegisters3 *)
Fixpoint set_params (n i : nat) (pool : SlotPool) : AM SlotPool :=
  match n with O => rret pool | S n => pool <~ pool_set pool i; set_params n (S i) pool end.

(** What is collected: the pool, the elements of records, and their headers. *)
Abbreviation Collected := (SlotPool * list nat * list nat)%type.

(** The elements of the record that starts with [h].
    [src/LjAssembler.cpp:1384-1396] allocateRegisters3 *)
Fixpoint elements_loop (h : AVar) (n : nat) (v : option nat) (arrays : list nat) : AM (option (list nat)) :=
  match n, v with
  | S n, Some i =>
      x <~ get_var i;
      let arrays := if v_slotPreset x then arrays else arrays ++ [i] in
      if xorb (v_slotPreset h) (v_slotPreset x) then
        name <~ deref (v_name h);
        error name (qb "record or array '%1' requires each element to be preallocated")
      else elements_loop h n (v_next x) arrays
  | _, _ => ok arrays
  end.

(** A name: the slot of a preset variable is taken, a record is registered.
    [src/LjAssembler.cpp:1369-1397] allocateRegisters3 *)
Definition collect_name (n : nat) (c : Collected) : AM (option Collected) :=
  o <~ get_obj n;
  match o with
  | NVar v =>
      let '(pool, arrays, headers) := c in
      let pending := negb (isUnused v) && negb (isFixed v) in
      pool <~ (if (v_n v =? 1) && pending && v_slotPreset v then pool_set pool (Z.to_nat (v_slot v)) else rret pool);
      if (1 <? v_n v) && pending then
        _ <! (if negb (v_slotPreset v) && v_call v then checkCallGroup n else ok tt);
        arrays <! elements_loop v (Z.to_nat (v_n v)) (Some n) arrays;
        ok (pool, arrays, if v_slotPreset v then headers else headers ++ [n])
      else ok (pool, arrays, headers)
  | _ => ok c
  end.

(** [src/LjAssembler.cpp:1367-1398] allocateRegisters3 *)
Fixpoint collect (names : list (bytes * nat)) (c : Collected) : AM (option Collected) :=
  match names with
  | [] => ok c
  | (_, n) :: names => c <! collect_name n c; collect names c
  end.

(** A variable that is not part of a record: an upvalue gets its slot at once, for the
    others there is an interval.
    [src/LjAssembler.cpp:1421-1439] allocateRegisters3 *)
Definition scalar_name (me : AFunc) (arrays : list nat) (n : nat) (c : SlotPool * list Interval)
    : AM (option (SlotPool * list Interval)) :=
  o <~ get_obj n;
  let '(pool, vars) := c in
  match o with
  | NVar v =>
      if negb (isUnused v) && negb (bool_decide (n ∈ arrays)) && negb (isFixed v) then
        if v_slotPreset v then ok c
        else if v_uv v then
          _ <~ assert (v_n v =? 1);
          r <~ deref (nextFreeSlot pool 1 false);
          let '(slot, pool) := r in
          if slot <? 0 then error (f_name me) (qb "running out of slots for up values")
          else _ <~ mod_var n (v_with_slot slot); ok (pool, vars)
        else
          _ <~ assert (v_n v =? 1);
          ok (pool, vars ++ [mkInterval (v_from v) (v_to v) (Z.of_nat n) 0])
      else ok c
  | _ => ok c
  end.

(** [src/LjAssembler.cpp:1417-1440] allocateRegisters3 *)
Fixpoint scalars (me : AFunc) (arrays : list nat) (names : list (bytes * nat)) (c : SlotPool * list Interval)
    : AM (option (SlotPool * list Interval)) :=
  match names with
  | [] => ok c
  | (_, n) :: names => c <! scalar_name me arrays n c; scalars me arrays names c
  end.

(** [src/LjAssembler.cpp:1445-1446] allocateRegisters3 *)
Fixpoint assign_slots (vars : list Interval) : AM unit :=
  match vars with
  | [] => rret tt
  | i :: vars =>
      _ <~ mod_var (Z.to_nat (d_payload i)) (v_with_slot (Z.of_nat (d_slot i))); assign_slots vars
  end.

(** [src/LjAssembler.cpp:1450-1476] allocateRegisters3 *)
Fixpoint overlaps (headers : list nat) : AM unit :=
  match headers with
  | [] => rret tt
  | h :: headers =>
      x <~ get_var h;
      _ <~ (if v_n x =? 0 then rret tt
            else
              objs <~ rget as_objs;
              overlap <~ findOverlaps (S (length objs)) h [];
              resolveOverlaps (rev overlap));
      overlaps headers
  end.

(** [QMap<QPair<bool,quint8>,VarList>]: sorted by the keys. *)
Definition hbn_key : Type := (bool * Z)%type.
Definition hbn_ltb (a b : hbn_key) : bool :=
  (negb (fst a) && fst b) || (Bool.eqb (fst a) (fst b) && (snd a <? snd b)).
Fixpoint hbn_append (k : hbn_key) (h : nat) (m : list (hbn_key * list nat)) : list (hbn_key * list nat) :=
  match m with
  | [] => [(k, [h])]
  | (k', l) :: m' =>
      if bool_decide (k = k') then (k', l ++ [h]) :: m'
      else if hbn_ltb k k' then (k, [h]) :: m else (k', l) :: hbn_append k h m'
  end.

(** [src/LjAssembler.cpp:1480-1484] allocateRegisters3 *)
Fixpoint headers_by_n (headers : list nat) (m : list (hbn_key * list nat)) : AM (list (hbn_key * list nat)) :=
  match headers with
  | [] => rret m
  | h :: headers =>
      x <~ get_var h;
      headers_by_n headers (if v_n x =? 0 then m else hbn_append (v_call x, v_n x) h m)
  end.

(** [src/LjAssembler.cpp:1489-1494] allocateRegisters3 *)
Fixpoint header_intervals (headers : list nat) : AM (list Interval) :=
  match headers with
  | [] => rret []
  | h :: headers =>
      x <~ get_var h;
      ft <~ bounds x;
      l <~ header_intervals headers;
      rret (mkInterval (u32 (fst ft)) (u32 (snd ft)) (Z.of_nat h) 0 :: l)
  end.

(** The slots of the elements of a record.
    [src/LjAssembler.cpp:1505-1513] allocateRegisters3 *)
Fixpoint record_slots (n : nat) (v : option nat) (slot : Z) : AM unit :=
  match n with
  | O => rret tt
  | S n =>
      i <~ deref v;
      x <~ get_var i;
      _ <~ mod_var i (v_with_slot slot);
      record_slots n (v_next x) (u8 (slot + 1))
  end.

(** [src/LjAssembler.cpp:1502-1514] allocateRegisters3 *)
Fixpoint assign_records (n : nat) (vars : list Interval) : AM unit :=
  match vars with
  | [] => rret tt
  | i :: vars =>
      _ <~ record_slots n (Some (Z.to_nat (d_payload i))) (Z.of_nat (d_slot i)); assign_records n vars
  end.

(** [src/LjAssembler.cpp:1486-1515] allocateRegisters3 *)
Fixpoint allocate_records (me : AFunc) (m : list (hbn_key * list nat)) (pool : SlotPool) : AM (option SlotPool) :=
  match m with
  | [] => ok pool
  | (k, headers) :: m =>
      let n := Z.to_nat (snd k) in
      vars <~ header_intervals headers;
      r <~ deref (allocateWithLinearScan pool vars n);
      let '(ok_, vars, pool) := r in
      if negb ok_ then error (f_name me) (qb "function requires more slots of length %1 than supported")
      else _ <~ assign_records n vars; allocate_records me m pool
  end.

(** The parts of the function in their order.
    [src/LjAssembler.cpp:1442-1535] allocateRegisters3 *)
Definition allocateRegisters3 (me : nat) : AM (option unit) :=
  fn <~ get_func me;
  pool <~ set_params (length (f_params fn)) 0 empty_pool;
  c <! collect (f_names fn) (pool, [], []);
  let '(pool, arrays, headers) := c in
  r <! scalars fn arrays (f_names fn) (pool, []);
  let '(pool, vars) := r in
  r <~ deref (allocateWithLinearScan pool vars 1);
  let '(ok_, vars, pool) := r in
  if negb ok_ then error (f_name fn) (qb "function requires more slots of length 1 than supported")
  else
    _ <~ assign_slots vars;
    _ <~ overlaps headers;
    m <~ headers_by_n headers [];
    pool <! allocate_records fn m pool;
    _ <~ mod_var (f_firstUnused fn) (v_with_slot (Z.min (highestUsedSlot pool + 1) 255));
    ok tt.

(** ** The order of slots *)

(** [src/LjAssembler.cpp:83-94] checkSlotOrder *)
Fixpoint slot_order_loop (n : nat) (v : option nat) (lastSlot : Z) : AM bool :=
  match n with
  | O => rret true
  | S n =>
      match v with
      | None => rret false
      | Some i =>
          x <~ get_var i;
          if v_slot x =? lastSlot + 1 then slot_order_loop n (v_next x) (v_slot x) else rret false
      end
  end.

(** [src/LjAssembler.cpp:81-95] checkSlotOrder *)
Definition checkSlotOrder (v : nat) (n : Z) : AM bool :=
  x <~ get_var v; slot_order_loop (Z.to_nat (n - 1)) (v_next x) (v_slot x).

(** The variable and the number of its slots that a statement needs in order, if any.
    [src/LjAssembler.cpp:1543-1592] checkSlotOrder *)
Definition ordered_slots (s : Stmt) : AM (option (AVal * Z)) :=
  match s_op s with
  | OP_CAT | OP_KNIL =>
      n <~ last_val s;
      v <~ deref (s_vals s !! (length (s_vals s) - 2)%nat);
      _ <~ assert (0 <? val_toInt n);
      rret (Some (v, val_toInt n))
  | OP_FORI | OP_FORL => v <~ deref (head (s_vals s)); rret (Some (v, 4))
  | OP_CALL =>
      match s_vals s with
      | [v; rets; args] => rret (Some (v, Z.max (val_toInt rets) (val_toInt args + 1)))
      | _ => rfail
      end
  | OP_CALLT =>
      match s_vals s with [v; args] => rret (Some (v, val_toInt args + 1)) | _ => rfail end
  | OP_RET =>
      v <~ deref (s_vals s !! 0%nat); n <~ deref (s_vals s !! 1%nat); rret (Some (v, val_toInt n))
  | _ => rret None
  end.

(** [src/LjAssembler.cpp:1537-1596] checkSlotOrder *)
Fixpoint checkSlotOrders (stmts : list Stmt) : AM (option unit) :=
  match stmts with
  | [] => ok tt
  | s :: stmts =>
      r <~ ordered_slots s;
      match r with
      | None => checkSlotOrders stmts
      | Some (AN v, n) =>
          b <~ checkSlotOrder v n;
          if (b : bool) then checkSlotOrders stmts
          else error (s_st s) (qb "allocator issue: invalid slot order")
      | Some _ => rfail
      end
  end.
End Registers.
