(* ===== verification/AsmGen.v ===== *)
(** * The assembler: code generation and functions

    The rest of [Assembler] of [LjAssembler.cpp]: declarations, the generation of code
    with the bytecode composer, and [process]. *)

From S2P Require Import Prelude LexCore Double Bytecode QtLib BytecodeIO SlotPool LinearScan Composer LjasToken SyntaxTree LjasTree Assembler AsmStat AsmAlloc.
From Stdlib Require Import Strings.Byte.
Local Open Scope Z_scope.
Local Open Scope rd_scope.

Section Generate.
Context `{Q : QtLib} `{L : LjBc} `{AL : AsmLib} `{Srt : StdSort}.

(** ** Operands *)

(** The variable that a value names.
    [src/LjAssembler.cpp:97-112] toVar *)
Definition toVar (v : AVal) : AM (option nat) :=
  match v with
  | AN n => o <~ get_obj n; rret (match o with NVar _ => Some n | _ => None end)
  | _ => rret None
  end.

Definition const_slot (v : AVal) : AM Z :=
  match v with AV v => comp (getConstSlot v) | _ => rfail end.

(** [src/LjAssembler.cpp:1763-1776] toValue *)
Definition slot_value (v : AVal) : AM Z :=
  x <~ toVar v;
  match x with
  | Some n => x <~ get_var n; rret (v_slot x)
  | None =>
      if val_isNumber v then
        let slot := val_toInt v in rret (if (slot <? 0) || (max_slots <? slot) then -1 else slot)
      else rret (-1)
  end.

(** [src/LjAssembler.cpp:1759-1832] toValue *)
Definition toValue (f : nat) (t : FieldType) (v : AVal) : AM Z :=
  match t with
  | _var | _dst | _rbase | _base => slot_value v
  | _str => if val_isString v then const_slot v else rret (-1)
  | _num => if val_isNumber v then const_slot v else rret (-1)
  | _pri => rret (match v with AV v => toPrimitive v | _ => 0 end)
  | _cdata => const_slot v
  | _jump | _lit =>
      let i := val_toInt v in
      rret (if val_isNumber v && (0 <=? i) && (i <=? 65535) then i else -1)
  | _lits =>
      let i := val_toInt v in
      rret (if val_isNumber v && (- 32768 <=? i) && (i <=? 32767) then u16 i else -1)
  | _uv =>
      x <~ toVar v;
      match x with
      | Some n => resolveUpval (S f) f n false
      | None => rret (if val_isNumber v then s32 (val_toUInt v) else -1)
      end
  | _func =>
      match v with
      | AN n => fn <~ get_func n; rret (f_id fn)
      | _ => rret (-1)
      end
  | _tab => if val_isTable v then const_slot v else rret (-1)
  | Unused => rret 0
  end.

(** The upvalues in the order of their numbers.
    [src/LjAssembler.cpp:2009-2023] getUpvals *)
Fixpoint upvals_loop (outer : option nat) (l : list nat) : AM (list Upval) :=
  match l with
  | [] => rret []
  | v :: l =>
      o <~ deref outer;
      x <~ get_var v;
      name <~ deref (v_name x);
      u <~ (if bool_decide (v_func x = Some o)
            then rret (mkUpval (v_slot x) true (v_uvRo x) (st_val name))
            else nr <~ resolveUpval (S o) o v false; rret (mkUpval (nr mod 2 ^ 14) false (v_uvRo x) (st_val name)));
      us <~ upvals_loop outer l;
      rret (u :: us)
  end.

(** [src/LjAssembler.cpp:2004-2025] getUpvals *)
Definition getUpvals (f : nat) : AM (list Upval) :=
  fn <~ get_func f; upvals_loop (f_outer fn) (f_upvals fn).

(** [src/LjAssembler.cpp:2039-2050] getVarNames *)
Fixpoint names_loop (names : list (bytes * nat)) (res : list VarName) : AM (list VarName) :=
  match names with
  | [] => rret res
  | (_, n) :: names =>
      o <~ get_obj n;
      match o with
      | NVar v =>
          if isUnused v then names_loop names res
          else
            old <~ deref (res !! Z.to_nat (v_slot v));
            name <~ deref (v_name v);
            names_loop names (<[Z.to_nat (v_slot v) := mkVarName (st_val name) (vn_from old) (vn_to old)]> res)
      | _ => names_loop names res
      end
  end.

(** [src/LjAssembler.cpp:2027-2053] getVarNames *)
Definition getVarNames (f : nat) : AM (list VarName) :=
  fn <~ get_func f;
  u <~ get_var (f_firstUnused fn);
  names_loop (f_names fn) (replicate (Z.to_nat (v_slot u)) (mkVarName (qb "N/A") (v_from u) (v_to u))).

(** ** Code *)

(** [toUInt() + 1] *)
Definition succ_val (v : AVal) : AVal := AV (QUInt (u32 (val_toUInt v + 1))).

(** The values of the instruction, from those of the statement.
    [src/LjAssembler.cpp:1636-1674] generateCode *)
Definition adjust_vals (f : nat) (s : Stmt) : AM (list AVal) :=
  match s_op s, s_vals s with
  | OP_CAT, [a; b; c] =>
      n <~ toValue f (typeBFromOp (Op_val OP_CAT)) b;
      rret [a; b; AV (QInt (s32 (n + s32 (val_toUInt c) - 1)))]
  | OP_KNIL, [a; b] =>
      n <~ toValue f (typeAFromOp (Op_val OP_KNIL)) a;
      rret [a; AV (QInt (s32 (n + s32 (val_toUInt b) - 1)))]
  | OP_RET0, [a; b] | OP_RET1, [a; b] | OP_RET, [a; b] | OP_CALLT, [a; b] => rret [a; succ_val b]
  | OP_CALL, [a; b; c] => rret [a; succ_val b; succ_val c]
  | OP_CAT, _ | OP_KNIL, _ | OP_RET0, _ | OP_RET1, _ | OP_RET, _ | OP_CALLT, _ | OP_CALL, _ => rfail
  | _, l => rret l
  end.

(** One statement; whether the composer took the instruction is not looked at.
    [src/LjAssembler.cpp:1634-1693] generateCode *)
Definition emit (f : nat) (s : Stmt) : AM (option unit) :=
  let op := Op_val (s_op s) in
  let line := st_line (s_st s) in
  vals <~ adjust_vals f s;
  match formatFromOp op, vals with
  | ABC, [va; vb; vc] =>
      a <~ toValue f (typeAFromOp op) va;
      b <~ toValue f (typeBFromOp op) vb;
      c <~ toValue f (typeCdFromOp op) vc;
      if (a <? 0) || (b <? 0) || (c <? 0) then error (s_st s) (qb "internal arument error")
      else _ <~ comp (addAbc (s_op s) a b c line); ok tt
  | AD, [va; vd] =>
      a <~ toValue f (typeAFromOp op) va;
      d <~ toValue f (typeCdFromOp op) vd;
      if (a <? 0) || (d <? 0) then error (s_st s) (qb "internal arument error")
      else _ <~ comp (addAd (s_op s) a d line); ok tt
  | _, _ => rfail
  end.

(** [src/LjAssembler.cpp:1632-1694] generateCode *)
Fixpoint emit_all (f : nat) (stmts : list Stmt) : AM (option unit) :=
  match stmts with [] => ok tt | s :: stmts => _ <! emit f s; emit_all f stmts end.

(** [src/LjAssembler.cpp:1626-1696] generateCode *)
Definition generateCode (f : nat) (stmts : list Stmt) : AM (option unit) :=
  u <~ getUpvals f;
  _ <~ comp (setUpvals u);
  n <~ getVarNames f;
  _ <~ comp (setVarNames n);
  emit_all f stmts.

(** ** Declarations *)

(** [src/LjAssembler.cpp:344-357] processParams *)
Fixpoint params_loop (me : nat) (i : nat) (l : list SynTree) : AM (option unit) :=
  match l with
  | [] => ok tt
  | p :: l =>
      let p := flatten p in
      dup <~ contains me (st_val p);
      if (dup : bool) then error p (qb "parameter name not unique")
      else
        v <~ new_obj (NVar (mkAVar (Some p) 0 1 1 (u8 (Z.of_nat i)) true false false false None None (Some me)));
        _ <~ insert_name me (st_val p) v;
        _ <~ mod_func me (fun fn => f_with_params (f_params fn ++ [v]) fn);
        params_loop me (S i) l
  end.

(** [src/LjAssembler.cpp:340-359] processParams *)
Definition processParams (hdr : SynTree) (me : nat) : AM (option unit) :=
  fp <~ deref (findFirstChild hdr (Rule R_formal_params));
  params_loop me 0 (d_children fp).

(** [src/LjAssembler.cpp:367-381] processConsts *)
Fixpoint consts_loop (fuel : nat) (me : nat) (c : SynTree) (i : nat) : AM (option unit) :=
  match fuel with
  | O => rfail
  | S fuel =>
      match d_children c !! i with
      | None => ok tt
      | Some n =>
          let name := flatten n in
          eq <~ child c (i + 1);
          val <~ child c (i + 2);
          _ <~ assert (has_type name (Tk Tok_ident) && has_type val (Rule R_const_val) && has_type eq (Tk Tok_Eq));
          dup <~ contains me (st_val name);
          if (dup : bool) then error name (qb "constant name not unique")
          else
            a <~ new_obj (NConst (mkAConst name QInvalid));
            _ <~ insert_name me (st_val name) a;
            v <! processConst val;
            _ <~ mod_obj a (fun _ => NConst (mkAConst name v));
            consts_loop fuel me c (i + 3)
      end
  end.

(** [src/LjAssembler.cpp:361-384] processConsts *)
Definition processConsts (hdr : SynTree) (me : nat) : AM (option unit) :=
  match findFirstChild hdr (Rule R_const_decls) with
  | None => ok tt
  | Some c => consts_loop (S (length (d_children c))) me c 1
  end.

(** The slot that a declaration gives to its variable, if any.
    [src/LjAssembler.cpp:482-491] processVars *)
Definition preset (nwp : SynTree) (v : nat) : AM (option unit) :=
  if 1 <? children_nr nwp then
    _ <~ sized nwp 4 4;
    l <~ child nwp 1; n <~ child nwp 2; r <~ child nwp 3;
    _ <~ assert (has_type l (Tk Tok_Lpar) && has_type n (Tk Tok_posint) && has_type r (Tk Tok_Rpar));
    let slot := s32 (text_toUInt (st_val n)) in
    if max_slots <? slot then error n (qb "preset slot out of range")
    else _ <~ mod_var v (fun x => v_with_slot slot (v_with_preset x)); ok tt
  else ok tt.

(** A variable, which is linked to the one before it in a record.
    [src/LjAssembler.cpp:502-528] processVars *)
Definition declare_var (nwp : SynTree) (me : nat) (prev : option nat) : AM (option nat) :=
  _ <~ assert (has_type nwp (Rule R_nameWithPreset));
  first <~ child nwp 0;
  let name := flatten first in
  dup <~ contains me (st_val name);
  if (dup : bool) then error name (qb "variable name not unique")
  else
    v <~ new_obj (NVar (mkAVar (Some name) 0 0 1 0 true false false false None prev (Some me)));
    _ <~ match prev with Some p => mod_var p (v_with_next v) | None => rret tt end;
    _ <~ insert_name me (st_val name) v;
    _ <! preset nwp v;
    ok v.

(** [src/LjAssembler.cpp:500-528] processVars *)
Fixpoint record_loop (l : list SynTree) (me : nat) (prev : option nat) : AM (option unit) :=
  match l with
  | [] => ok tt
  | nwp :: l =>
      first <~ child nwp 0;
      _ <~ assert (has_type (flatten first) (Tk Tok_ident));
      v <! declare_var nwp me prev; record_loop l me (Some v)
  end.

(** [src/LjAssembler.cpp:436-533] processVars *)
Fixpoint vars_loop (l : list SynTree) (me : nat) : AM (option unit) :=
  match l with
  | [] => ok tt
  | d :: l =>
      if has_type d (Rule R_var_decl) then
        _ <~ sized d 1 1;
        nwp <~ child d 0;
        _ <! declare_var nwp me None;
        vars_loop l me
      else if has_type d (Rule R_record) then
        _ <~ assert (3 <=? children_nr d);
        a <~ child d 0; z <~ deref (last (d_children d));
        _ <~ assert (has_type a (Tk Tok_Lbrace) && has_type z (Tk Tok_Rbrace));
        _ <! record_loop (removelast (drop 1 (d_children d))) me None;
        vars_loop l me
      else rfail
  end.

(** [src/LjAssembler.cpp:428-536] processVars *)
Definition processVars (hdr : SynTree) (me : nat) : AM (option unit) :=
  match findFirstChild hdr (Rule R_var_decls) with
  | None => ok tt
  | Some v =>
      first <~ child v 0;
      _ <~ assert (has_type first (Tk Tok_var));
      vars_loop (drop 1 (d_children v)) me
  end.

(** ** Functions *)

(** The name of the function, after the checks of it.
    [src/LjAssembler.cpp:174-187] processFunc *)
Definition func_name (st : SynTree) (outer : option nat) : AM (option (option SynTree)) :=
  match option_map flatten (findFirstChild st (Rule R_fname)) with
  | None =>
      match outer with
      | Some _ => error st (qb "only top-level function can be unnamed")
      | None => ok None
      end
  | Some fname =>
      dup <~ match outer with Some o => contains o (st_val fname) | None => rret false end;
      if (dup : bool) then error fname (qb "function name not unique")
      else
        l <~ deref (last (d_children st));
        let lastName := flatten l in
        if negb (has_type lastName (Tk Tok_ident)) then error lastName (qb "expected function name after 'end'")
        else if negb (bool_decide (st_val lastName = st_val fname))
        then error lastName (qb "name after 'end' not equal to function name")
        else ok (Some fname)
  end.

(** [src/LjAssembler.cpp:189-199] processFunc *)
Definition new_Func (st : SynTree) (fname : option SynTree) (outer : option nat) : AM nat :=
  u <~ new_obj (NVar new_Var);
  let name := match fname, outer with Some n, Some _ => n | _, _ => st end in
  me <~ new_obj (NFunc (mkAFunc name [] [] [] outer 0 u));
  _ <~ match outer with
       | Some o => insert_name o (match fname with Some n => st_val n | None => [] end) me
       | None => rret tt
       end;
  rret me.

(** One round of the loop over the statements: the next position.
    [src/LjAssembler.cpp:254-285] processFunc *)
Definition body_round (body : SynTree) (me i : nat) (stmts : list Stmt) (labels : Labels)
    : AM (option (nat * list Stmt * Labels)) :=
  c <~ child body i;
  r <! (if has_type c (Rule R_labelDef) then
          _ <~ sized c 2 2;
          n <~ child c 0; colon <~ child c 1;
          _ <~ assert (has_type colon (Tk Tok_Colon));
          let name := flatten n in
          _ <~ assert (has_type name (Tk Tok_ident));
          match names_find (st_val name) labels with
          | Some _ => error name (qb "duplicate label")
          | None => ok (S i, (st_val name, length stmts) :: labels)
          end
        else ok (i, labels));
  let '(i, labels) := r in
  c <~ child body i;
  if has_type c (Rule R_statement) then
    _ <~ sized c 1 1;
    s <~ child c 0;
    stmts <! processStat s stmts me;
    ok (S i, stmts, labels)
  else ok (i, stmts, labels).

(** The loop does not end at a child that is neither a label nor a statement.
    [src/LjAssembler.cpp:252-286] processFunc *)
Fixpoint body_loop (fuel : nat) (body : SynTree) (me i : nat) (stmts : list Stmt) (labels : Labels)
    : AM (option (list Stmt * Labels)) :=
  match fuel with
  | O => rfail
  | S fuel =>
      if Z.of_nat i <? children_nr body then
        r <! body_round body me i stmts labels;
        let '(i, stmts, labels) := r in body_loop fuel body me i stmts labels
      else ok (stmts, labels)
  end.

(** [src/LjAssembler.cpp:246-300] processFunc *)
Definition func_stmts (st : SynTree) (me : nat) : AM (option (list Stmt)) :=
  match findFirstChild st (Rule R_function_body) with
  | Some body =>
      r <! body_loop (S (length (d_children body))) body me 1 [] [];
      let '(stmts, labels) := r in
      checkJumpsAndMore stmts labels
  | None =>
      l <~ deref (last (d_children st));
      ok [mkStmt OP_RET0 0 [AV (QInt 0); AV (QInt 0)] l]
  end.

(** [src/LjAssembler.cpp:302-316] processFunc *)
Definition finish_func (me : nat) (stmts : list Stmt) : AM (option unit) :=
  fn <~ get_func me;
  _ <~ mod_var (f_firstUnused fn) (v_with_range 0 (Z.of_nat (length stmts)));
  _ <! allocateRegisters3 me;
  _ <! checkSlotOrders stmts;
  _ <! generateCode me stmts;
  u <~ get_var (f_firstUnused fn);
  _ <~ comp (closeFunction (v_slot u));
  ok tt.

(** The inner functions of a header; [rec] is the call for one of them.
    [src/LjAssembler.cpp:237-244] processFunc *)
Fixpoint inner_funcs (rec : SynTree -> AM (option unit)) (l : list SynTree) : AM (option unit) :=
  match l with
  | [] => ok tt
  | c :: l => _ <! (if has_type c (Rule R_function_decl) then rec c else ok tt); inner_funcs rec l
  end.

(** [src/LjAssembler.cpp:172-316] processFunc *)
Fixpoint processFunc (fuel : nat) (st : SynTree) (outer : option nat) : AM (option unit) :=
  match fuel with
  | O => rfail
  | S fuel =>
      _ <~ assert (has_type st (Rule R_function_decl));
      fname <! func_name st outer;
      me <~ new_Func st fname outer;
      hdr <~ deref (findFirstChild st (Rule R_function_header));
      _ <! processParams hdr me;
      _ <! processConsts hdr me;
      _ <! processVars hdr me;
      fn <~ get_func me;
      l <~ deref (last (d_children st));
      ref <~ rget d_ref;
      id <~ comp (openFunction (u8 (Z.of_nat (length (f_params fn)))) ref (st_line st) (st_line l));
      _ <~ match outer with
           | Some _ => _ <~ assert (negb (id =? -1)); mod_func me (f_with_id id)
           | None => rret tt
           end;
      _ <! inner_funcs (fun c => processFunc fuel c (Some me)) (drop 3 (d_children hdr));
      stmts <! func_stmts st me;
      finish_func me stmts
  end.

(** The depth of a tree bounds the depth of the functions in it. *)
Fixpoint depth (st : SynTree) : nat :=
  match st with Node _ l => S (foldr (fun c n => Nat.max (depth c) n) 0%nat l) end.

(** [src/LjAssembler.cpp:45-71] process *)
Definition process (st : SynTree) (sourceRef : bytes) : AM bool :=
  _ <~ assert (has_type st (Rule R_function_decl) && (3 <=? children_nr st));
  _ <~ rmod (fun a => mkAssembler [] (c_clear (d_comp a)) (d_out a) sourceRef (d_errs a));
  res <~ processFunc (depth st) st None;
  match res with
  | Some _ =>
      out <~ comp (fun c => match c_write c with Some (_, o, c) => Some (o, c) | None => None end);
      _ <~ rmod (fun a => mkAssembler (as_objs a) (d_comp a) out (d_ref a) (d_errs a));
      rret true
  | None => rret false
  end.

Definition new_Assembler : Assembler := mkAssembler [] new_composer [] [] [].
End Generate.
