(* ===== verification/AsmSpec.v ===== *)
(** * The assembler: what its parts guarantee

    Labels are resolved to the distances of jumps, test instructions are followed by a
    jump, and functions end by a return.  Variables that are used at the same time have
    different slots. *)

From S2P Require Import Prelude LexCore Double Bytecode QtLib BytecodeIO SlotPool LinearScan Composer LjasToken SyntaxTree LjasTree Assembler AsmStat AsmAlloc AsmGen.
From Stdlib Require Import Strings.Byte.
Local Open Scope Z_scope.
Local Open Scope rd_scope.

(** ** Computations that may fail *)
Lemma obind_inv {A B} (m : AM (option A)) (k : A -> AM (option B)) a r a' :
  (x <! m; k x) a = Some (Some r, a') -> exists x a1, m a = Some (Some x, a1) /\ k x a1 = Some (Some r, a').
Proof.
  unfold obind. intros H. apply rbind_inv in H as ([x|] & a1 & E & H); [by eauto|by injection H].
Qed.

Lemma deref_inv {A} (o : option A) a r a' : deref o a = Some (r, a') -> o = Some r /\ a' = a.
Proof. destruct o; [by intros [= <- <-]|done]. Qed.

Lemma assert_inv b a r a' : assert b a = Some (r, a') -> b = true /\ a' = a.
Proof. destruct b; [by intros [= _ <-]|done]. Qed.

Lemma error_not {A} st msg a (r : A) a' : error st msg a = Some (Some r, a') -> False.
Proof. done. Qed.

Lemma rget_inv {A} (f : Assembler -> A) a r a' : rget f a = Some (r, a') -> r = f a /\ a' = a.
Proof. by intros [= <- <-]. Qed.

Lemma get_obj_inv i a n a' : get_obj i a = Some (n, a') -> as_objs a !! i = Some n /\ a' = a.
Proof. unfold get_obj. destruct (as_objs a !! i); [by intros [= <- <-]|done]. Qed.

Lemma get_var_inv i a v a' : get_var i a = Some (v, a') -> as_objs a !! i = Some (NVar v) /\ a' = a.
Proof.
  intros H. apply rbind_inv in H as (n & a1 & E & H). apply get_obj_inv in E as [E ->].
  destruct n; try done. by injection H as <- <-.
Qed.

Lemma get_func_inv i a f a' : get_func i a = Some (f, a') -> as_objs a !! i = Some (NFunc f) /\ a' = a.
Proof.
  intros H. apply rbind_inv in H as (n & a1 & E & H). apply get_obj_inv in E as [E ->].
  destruct n; try done. by injection H as <- <-.
Qed.

(** Takes the next step of a computation that is known to succeed. *)
Ltac step H :=
  let x := fresh "x" in let a1 := fresh "a1" in let E := fresh "E" in
  first [ apply obind_inv in H as (x & a1 & E & H) | apply rbind_inv in H as (x & a1 & E & H) ];
  first [ apply deref_inv in E as [E ->] | apply get_var_inv in E as [E ->]
        | apply get_func_inv in E as [E ->] | apply get_obj_inv in E as [E ->]
        | apply assert_inv in E as [E ->] | apply rget_inv in E as [-> ->] | idtac ].

(** ** Jumps *)

(** The statement [s'] at [pc] is [s] with its label replaced by the distance. *)
Definition resolved (lbls : Labels) (pc : nat) (s s' : Stmt) : Prop :=
  s_op s' = s_op s /\ s_st s' = s_st s /\
  match has_label (s_op s), last (s_vals s) with
  | true, Some (AT name) => exists target, names_find (st_val name) lbls = Some target /\
      s_vals s' = removelast (s_vals s) ++ [AV (QInt (jump_operand target pc))]
  | true, _ => s_op s = OP_UCLO /\ s' = s
  | false, _ => s' = s
  end.

(** A test is followed by a jump. *)
Definition test_jump (stmts : list Stmt) (pc : nat) : Prop :=
  forall s, stmts !! pc = Some s -> is_test (s_op s) = true ->
  exists j, stmts !! S pc = Some j /\ s_op j = OP_JMP.

Section Jumps.
Context `{Q : QtLib} `{AL : AsmLib}.

Lemma resolve_jump_inv s pc lbls a s' a' :
  resolve_jump s pc lbls a = Some (Some s', a') -> a' = a /\ resolved lbls pc s s'.
Proof.
  unfold resolve_jump, resolved. destruct (has_label (s_op s)).
  - intros H. step H. unfold last_val in E. rewrite E. destruct x as [v|n|name].
    + step H. apply bool_decide_eq_true in E0. by injection H as <- <-.
    + step H. apply bool_decide_eq_true in E0. by injection H as <- <-.
    + destruct (names_find (st_val name) lbls) as [t|]; [|done].
      injection H as <- <-. split; [done|]. split; [done|]. split; [done|]. by exists t.
  - intros [= <- <-]. by split.
Qed.

Lemma checkTestOp_inv stmts pc a u a' :
  checkTestOp stmts pc a = Some (Some u, a') -> a' = a /\ test_jump stmts pc.
Proof.
  unfold checkTestOp, test_jump. intros H. step H. rewrite E. destruct (is_test (s_op x)) eqn:Et.
  - destruct (stmts !! S pc) as [j|]; [|done]. case_bool_decide; [|done]. injection H as _ <-.
    split; [done|]. intros s [= <-] _. eauto.
  - injection H as _ <-. split; [done|]. intros s [= <-]. congruence.
Qed.

Lemma jumps_loop_inv n pc stmts lbls a r a' :
  (pc + n = length stmts)%nat -> jumps_loop n pc stmts lbls a = Some (Some r, a') ->
  a' = a /\ length r = length stmts /\
  forall i, (if decide (i < pc)%nat then r !! i = stmts !! i
             else forall s, stmts !! i = Some s -> exists s', r !! i = Some s' /\ resolved lbls i s s' /\
               (is_test (s_op s') = true -> exists j, r !! S i = Some j /\ s_op j = OP_JMP)).
Proof.
  revert pc stmts a. induction n as [|n IH]; intros pc stmts a Hn H; simpl in H.
  - injection H as <- <-. split; [done|]. split; [done|]. intros i. case_decide; [done|].
    intros s Hs. apply lookup_lt_Some in Hs. lia.
  - step H. apply checkTestOp_inv in E as [-> Ht]. step H. step H. apply resolve_jump_inv in E0 as [-> Hr].
    apply IH in H as (-> & Hl & H); [|rewrite length_insert; lia]. rewrite length_insert in Hl.
    split; [done|]. split; [done|]. intros i. specialize (H i) as Hi.
    case_decide; case_decide; try lia.
    + rewrite Hi. apply list_lookup_insert_ne. lia.
    + assert (i = pc) as -> by lia. intros s Hs. assert (x0 = s) as -> by congruence.
      exists x1. split; [rewrite Hi; apply list_lookup_insert_eq; by eapply lookup_lt_Some|].
      split; [done|]. destruct Hr as (Hop & _ & _). rewrite Hop. intros Hte. destruct (Ht s Hs Hte) as (j & Hj & Hop').
      specialize (H (S pc)). rewrite decide_False in H by lia.
      destruct (H j) as (j' & Hj' & (Hop2 & _) & _); [by rewrite list_lookup_insert_ne by lia|].
      exists j'. split; [done|]. congruence.
    + intros s Hs. apply Hi. rewrite list_lookup_insert_ne by lia. done.
Qed.

(** [C22] When [checkJumpsAndMore] accepts the statements of a function, each label is
    defined and is replaced by the biased distance from the next instruction to the
    position of the label, everything else stays as it is, each test is followed by a
    jump, and the last statement leaves the function. *)
Theorem jumps_resolved stmts lbls a r a' :
  checkJumpsAndMore stmts lbls a = Some (Some r, a') ->
  a' = a /\ length r = length stmts /\
  (forall pc s, stmts !! pc = Some s -> exists s', r !! pc = Some s' /\ resolved lbls pc s s') /\
  (forall pc, test_jump r pc) /\
  (exists s, last r = Some s /\ is_end (s_op s) = true) /\
  (forall target pc, - JumpBias <= Z.of_nat target - (Z.of_nat pc + 1) < JumpBias ->
     Z.of_nat pc + 1 + (jump_operand target pc - JumpBias) = Z.of_nat target).
Proof.
  intros H. unfold checkJumpsAndMore in H. step H. apply jumps_loop_inv in E as (-> & Hl & Hr); [|done].
  step H. destruct (is_end (s_op x0)) eqn:Ee; [|done]. injection H as <- <-.
  split; [done|]. split; [done|]. split; [|split; [|split; [by eauto|]]].
  - intros pc s Hs. specialize (Hr pc). rewrite decide_False in Hr by lia. destruct (Hr s Hs) as (s' & ? & ? & _). eauto.
  - intros pc s' Hs'. destruct (lookup_nat_lt stmts pc) as [s Hs]; [rewrite <- Hl; by eapply lookup_lt_Some|].
    specialize (Hr pc). rewrite decide_False in Hr by lia. destruct (Hr s Hs) as (s2 & Hs2 & _ & H).
    assert (s2 = s') as <- by congruence. done.
  - intros target pc Hb. unfold jump_operand, JumpBias in *. width.
Qed.
End Jumps.

(** ** Registers *)

(** A variable that needs a slot. *)
Definition pending (v : AVar) : bool := negb (isUnused v) && negb (isFixed v).
(** The variable [n] of the names [l]. *)
Definition local (objs : list Named) (l : list (bytes * nat)) (n : nat) (v : AVar) : Prop :=
  n ∈ l.*2 /\ objs !! n = Some (NVar v) /\ pending v = true.

(** Both are used at the same time, as far as their ranges say; an upvalue and a
    variable with a given slot are in use all the time. *)
Definition conflict (v w : AVar) : Prop :=
  v_slotPreset w = true \/ v_uv v = true \/ v_uv w = true \/ (v_from v <= v_to w /\ v_from w <= v_to v).

Definition taken (pool : SlotPool) (t : nat) : Prop := d_slots pool !! t = Some true.
Definition plain (pool : SlotPool) : Prop := pool_ok pool /\ d_callArgs pool = [].
(** The pool [q] comes after [p]. *)
Definition grows (p q : SlotPool) : Prop := plain q /\ forall t, taken p t -> taken q t.

Lemma pool_grows_trans p q r : grows p q -> grows q r -> grows p r.
Proof. intros [_ H1] [H2 H3]. split; auto. Qed.
Lemma pool_grows_refl p : plain p -> grows p p.
Proof. by split. Qed.

Lemma mod_var_inv i g a u a' :
  mod_var i g a = Some (u, a') ->
  a' = set_objs (alter (fun n => match n with NVar v => NVar (g v) | _ => n end) i (as_objs a)) a.
Proof. by intros [= _ <-]. Qed.

Lemma mod_var_lookup i (g : AVar -> AVar) a v :
  as_objs a !! i = Some (NVar v) ->
  as_objs (set_objs (alter (fun n => match n with NVar v => NVar (g v) | _ => n end) i (as_objs a)) a) !! i
    = Some (NVar (g v)).
Proof. intros H. simpl. by rewrite list_lookup_alter_eq, H. Qed.

Lemma mod_var_other i j (g : AVar -> AVar) a :
  i <> j ->
  as_objs (set_objs (alter (fun n => match n with NVar v => NVar (g v) | _ => n end) i (as_objs a)) a) !! j
    = as_objs a !! j.
Proof. intros H. simpl. by rewrite list_lookup_alter_ne. Qed.

Section Allocation.
Context `{Q : QtLib} `{AL : AsmLib} `{Srt : StdSort}.
Hypothesis SL : StdSortLaws Srt.

Lemma pool_set_inv pool i a r a' :
  plain pool -> pool_set pool i a = Some (r, a') -> a' = a /\ grows pool r /\ taken r i.
Proof.
  intros [Hok Hc] H. unfold pool_set in H. step H. injection H as <- <-. unfold set_bit in E.
  case_decide as Hlt; [|done]. injection E as <-.
  assert (Ht : forall t, d_slots pool !! t = Some true -> <[i:=true]> (d_slots pool) !! t = Some true).
  { intros t Ht. destruct (decide (t = i)) as [->|]; [by apply list_lookup_insert_eq|].
    by rewrite list_lookup_insert_ne. }
  split; [done|]. split; [split; [split; [|done]|done]|by apply list_lookup_insert_eq].
  destruct Hok as [Hs Hcalls Hf]. split; simpl; [by rewrite length_insert| |done].
  eapply Forall_impl; [exact Hcalls|]. simpl. auto.
Qed.

Lemma set_params_inv n i pool a r a' :
  plain pool -> set_params n i pool a = Some (r, a') ->
  a' = a /\ grows pool r /\ forall t, (i <= t < i + n)%nat -> taken r t.
Proof.
  revert i pool a. induction n as [|n IH]; intros i pool a Hp H; simpl in H.
  - injection H as <- <-. split; [done|]. split; [by apply pool_grows_refl|]. lia.
  - step H. apply pool_set_inv in E as (-> & Hg & Hi); [|done].
    apply IH in H as (-> & Hg' & Ht); [|by apply Hg]. split; [done|]. split; [by eapply pool_grows_trans|].
    intros t Hr. destruct (decide (t = i)) as [->|]; [by apply Hg'|]. apply Ht. lia.
Qed.

(** No variable of the names is the start of a record that is used as one. *)
Definition no_records (objs : list Named) (l : list (bytes * nat)) : Prop :=
  forall n v, local objs l n v -> v_n v = 1.

Lemma local_cons objs e l n v : local objs l n v -> local objs (e :: l) n v.
Proof. intros (H & Hr). split; [|done]. by right. Qed.

Lemma no_records_tail objs e l : no_records objs (e :: l) -> no_records objs l.
Proof. intros H n v Hl. by apply (H n), local_cons. Qed.

Lemma collect_inv l pool a r a' :
  plain pool -> no_records (as_objs a) l -> collect l (pool, [], []) a = Some (Some r, a') ->
  a' = a /\ exists pool', r = (pool', [], []) /\ grows pool pool' /\
  forall n v, local (as_objs a) l n v -> v_slotPreset v = true -> taken pool' (Z.to_nat (v_slot v)).
Proof.
  revert pool. induction l as [|[k n] l IH]; intros pool Hp Hn H; simpl in H.
  - injection H as <- <-. split; [done|]. exists pool. split; [done|]. split; [by apply pool_grows_refl|].
    intros n v (Hin & _). by apply elem_of_nil in Hin.
  - step H. assert (a1 = a /\ exists q, x = (q, [], []) /\ grows pool q /\
      forall v, as_objs a !! n = Some (NVar v) -> pending v = true -> v_slotPreset v = true ->
        taken q (Z.to_nat (v_slot v))) as (-> & q & -> & Hg & Hq).
    { unfold collect_name in E. step E. destruct x0 as [c|v|f].
      1,3: injection E as <- <-; split; [done|]; exists pool; split; [done|];
           split; [by apply pool_grows_refl|intros v; congruence].
      fold (pending v) in E. destruct (pending v) eqn:Epend; rewrite ?andb_true_r, ?andb_false_r in E; simpl in E.
      - pose proof (Hn n v) as Hn1. rewrite Hn1 in E by (split; [by left|done]). simpl in E.
        destruct (v_slotPreset v) eqn:Epre; simpl in E.
        + step E. apply pool_set_inv in E1 as (-> & Hg & Ht); [|done]. injection E as <- <-.
          split; [done|]. exists x0. split; [done|]. split; [done|]. intros w Hw. by assert (w = v) as -> by congruence.
        + step E. injection E1 as <- <-. injection E as <- <-.
          split; [done|]. exists pool. split; [done|]. split; [by apply pool_grows_refl|].
          intros w Hw _ Hpw. assert (w = v) as -> by congruence. congruence.
      - step E. injection E1 as <- <-. injection E as <- <-.
        split; [done|]. exists pool. split; [done|]. split; [by apply pool_grows_refl|].
        intros w Hw Hpw. assert (w = v) as -> by congruence. congruence. }
    apply IH in H as (-> & q' & -> & Hg' & Hq'); [|by apply Hg|by eapply no_records_tail].
    split; [done|]. exists q'. split; [done|]. split; [by eapply pool_grows_trans|].
    intros m v (Hm & Hv & Hpv) Hpre. apply elem_of_cons in Hm as [->|Hm].
    + apply Hg'. by apply Hq.
    + by apply (Hq' m).
Qed.

(** The interval of a variable that the linear scan is asked for. *)
Definition is_scalar (v : AVar) : bool := pending v && negb (v_slotPreset v) && negb (v_uv v).
Definition is_upval (v : AVar) : bool := pending v && negb (v_slotPreset v) && v_uv v.
Definition interval_of (objs : list Named) (n : nat) : option Interval :=
  match objs !! n with
  | Some (NVar v) => if is_scalar v then Some (mkInterval (v_from v) (v_to v) (Z.of_nat n) 0) else None
  | _ => None
  end.

(** What [scalar_name] does with one name. *)
Lemma scalar_name_inv me n pool vars a r a' :
  plain pool -> scalar_name me [] n (pool, vars) a = Some (Some r, a') ->
  exists pool' new, r = (pool', vars ++ new) /\ grows pool pool' /\
  new = option_list (interval_of (as_objs a) n) /\
  (forall m, m <> n -> as_objs a' !! m = as_objs a !! m) /\
  match as_objs a !! n with
  | Some (NVar v) => if is_upval v then exists s, as_objs a' !! n = Some (NVar (v_with_slot (Z.of_nat s) v)) /\
      taken pool' s /\ ~ taken pool s /\ (s < MAX_SLOTS)%nat
      else as_objs a' !! n = as_objs a !! n
  | _ => as_objs a' !! n = as_objs a !! n
  end.
Proof.
  intros Hp H. unfold scalar_name in H. step H. unfold interval_of. rewrite E.
  assert (Hnone : forall b, ok (pool, vars) a = Some (Some r, a') -> b = @None Interval ->
    exists pool' new, r = (pool', vars ++ new) /\ grows pool pool' /\ new = option_list b /\
    (forall m, m <> n -> as_objs a' !! m = as_objs a !! m) /\ as_objs a' !! n = Some x).
  { intros b [= <- <-] ->. exists pool, []. rewrite app_nil_r. split; [done|]. split; [by apply pool_grows_refl|]. done. }
  destruct x as [c|v|f]; [by apply Hnone| |by apply Hnone].
  rewrite bool_decide_eq_false_2 in H by apply not_elem_of_nil. rewrite andb_true_r in H.
  unfold is_scalar, is_upval. fold (pending v) in H. destruct (pending v); [|by apply (Hnone None)].
  simpl. destruct (v_slotPreset v); [by apply (Hnone None)|].
  simpl. destruct (v_uv v); simpl.
  - step H. step H. destruct x0 as [slot q]. destruct (Z.ltb_spec slot 0); [done|].
    step H. apply mod_var_inv in E2 as ->. injection H as <- <-.
    destruct (nextFreeSlot_loop_sound pool 1 false slot q) as [[-> _]|(s & -> & Hal & Hok & _)];
      [apply Hp|lia|done|lia|].
    exists q, []. rewrite app_nil_r. split; [done|]. pose proof (al_set _ _ _ _ _ Hal) as Hset.
    split; [split; [split; [done|]|]|].
    + pose proof (al_calls _ _ _ _ _ Hal) as Hc. destruct Hp as [_ Hc0]. by rewrite Hc, Hc0.
    + intros t Ht. unfold taken. rewrite (Hset t). case_decide; [done|]. apply Ht.
    + split; [done|]. split; [intros m Hm; apply mod_var_other; congruence|].
      exists s. split; [by apply mod_var_lookup|]. split; [|split].
      * unfold taken. rewrite (Hset s). rewrite decide_True by lia. done.
      * unfold taken. rewrite (al_free _ _ _ _ _ Hal s) by lia. done.
      * pose proof (al_fits _ _ _ _ _ Hal). lia.
  - step H. injection H as <- <-. exists pool, [mkInterval (v_from v) (v_to v) (Z.of_nat n) 0].
    split; [done|]. split; [by apply pool_grows_refl|]. done.
Qed.

(** The slot that [scalars] gives to an upvalue. *)
Definition upval_slot (objs' : list Named) (pool pool' : SlotPool) (n : nat) (v : AVar) : Prop :=
  exists s, objs' !! n = Some (NVar (v_with_slot (Z.of_nat s) v)) /\
    taken pool' s /\ ~ taken pool s /\ (s < MAX_SLOTS)%nat.

Definition upval_at (objs : list Named) (l : list nat) (n : nat) (v : AVar) : Prop :=
  n ∈ l /\ objs !! n = Some (NVar v) /\ is_upval v = true.

Lemma slot_of_nat s v : (s < MAX_SLOTS)%nat -> v_slot (v_with_slot (Z.of_nat s) v) = Z.of_nat s.
Proof. intros H. unfold MAX_SLOTS in H. simpl. apply u8_small. lia. Qed.

Lemma interval_of_ext objs objs' (l : list nat) :
  (forall m, m ∈ l -> objs' !! m = objs !! m) -> omap (interval_of objs') l = omap (interval_of objs) l.
Proof.
  induction l as [|m l IH]; intros H; [done|]. cbn [omap list_omap].
  assert (interval_of objs' m = interval_of objs m) as -> by (unfold interval_of; by rewrite H by (by left)).
  rewrite IH; [done|]. intros m' Hm'. apply H. by right.
Qed.

Lemma scalars_inv me l pool vars a r a' :
  plain pool -> NoDup l.*2 -> scalars me [] l (pool, vars) a = Some (Some r, a') ->
  exists pool', r = (pool', vars ++ omap (interval_of (as_objs a)) l.*2) /\ grows pool pool' /\
  (forall m, (forall v, ~ upval_at (as_objs a) l.*2 m v) -> as_objs a' !! m = as_objs a !! m) /\
  (forall n v, upval_at (as_objs a) l.*2 n v -> upval_slot (as_objs a') pool pool' n v) /\
  (forall n m v w v' w', upval_at (as_objs a) l.*2 n v -> upval_at (as_objs a) l.*2 m w -> n <> m ->
     as_objs a' !! n = Some (NVar v') -> as_objs a' !! m = Some (NVar w') -> v_slot v' <> v_slot w').
Proof.
  revert pool vars a. induction l as [|[k n] l IH]; intros pool vars a Hp Hnd H; simpl in H.
  - injection H as <- <-. exists pool. simpl. rewrite app_nil_r. split; [done|]. split; [by apply pool_grows_refl|].
    split; [done|]. by split; [intros n v (Hin & _)|intros n m v w v' w' (Hin & _)]; apply elem_of_nil in Hin.
  - apply NoDup_cons in Hnd as [Hnin Hnd]. step H.
    apply scalar_name_inv in E as (q & new & -> & Hg & -> & Hother & Hn); [|done].
    assert (Hsame : forall m, m ∈ l.*2 -> as_objs a1 !! m = as_objs a !! m).
    { intros m Hm. apply Hother. intros ->. done. }
    assert (Hat : forall m v, upval_at (as_objs a) (n :: l.*2) m v -> m <> n -> upval_at (as_objs a1) l.*2 m v).
    { intros m v (Hm & Hv & Hu) Hne. apply elem_of_cons in Hm as [->|Hm]; [done|].
      split; [done|]. by rewrite Hsame. }
    apply IH in H as (q' & -> & Hg' & Hs & Hup & Hdist); [|by apply Hg|done].
    assert (Hhead : as_objs a' !! n = as_objs a1 !! n) by (apply Hs; by intros v (Hin & _)).
    assert (Hslot : forall v, upval_at (as_objs a) (n :: l.*2) n v ->
      exists s, as_objs a' !! n = Some (NVar (v_with_slot (Z.of_nat s) v)) /\
        taken q s /\ ~ taken pool s /\ (s < MAX_SLOTS)%nat).
    { intros v (_ & Hv & Hu). rewrite Hv, Hu in Hn. by rewrite Hhead. }
    exists q'. split; [|split; [|split; [|split]]].
    + f_equal. rewrite <- app_assoc. f_equal. rewrite (interval_of_ext (as_objs a)) by done.
      simpl. by destruct (interval_of (as_objs a) n).
    + by eapply pool_grows_trans.
    + intros m Hm. destruct (decide (m = n)) as [->|Hne].
      * rewrite Hhead. destruct (as_objs a !! n) as [[c|v|f]|] eqn:Ev; try done.
        destruct (is_upval v) eqn:Eu; [|done]. destruct (Hm v). split; [by left|done].
      * rewrite Hs; [by apply Hother|]. intros v (Hin & Hv & Hu). apply (Hm v). split; [by right|].
        by rewrite <- Hsame.
    + intros m v Hm. destruct (decide (m = n)) as [->|Hne].
      * destruct (Hslot v Hm) as (s & ? & ? & ? & ?). exists s. split; [done|]. split; [by apply Hg'|done].
      * destruct (Hup m v (Hat m v Hm Hne)) as (s & ? & ? & Hnt & ?). exists s. split; [done|].
        split; [done|]. split; [|done]. intros Ht. by apply Hnt, Hg.
    + assert (Hpair : forall m v w v' w', upval_at (as_objs a) (n :: l.*2) n v ->
        upval_at (as_objs a) (n :: l.*2) m w -> m <> n -> as_objs a' !! n = Some (NVar v') ->
        as_objs a' !! m = Some (NVar w') -> v_slot v' <> v_slot w').
      { intros m v w v' w' Hv Hw Hne Hv' Hw'. destruct (Hslot v Hv) as (s & Hs1 & Ht & _ & Hlt).
        destruct (Hup m w (Hat m w Hw Hne)) as (t & Ht1 & _ & Hnt & Hlt2).
        assert (v' = v_with_slot (Z.of_nat s) v) as -> by congruence.
        assert (w' = v_with_slot (Z.of_nat t) w) as -> by congruence.
        rewrite !slot_of_nat by done. intros Heq. apply Hnt. assert (t = s) as -> by lia. done. }
      intros n1 n2 v w v' w' H1 H2 Hne Hv' Hw'.
      destruct (decide (n1 = n)) as [->|Hn1]; [by apply (Hpair n2 v w)|].
      destruct (decide (n2 = n)) as [->|Hn2]; [intros Heq; by apply (Hpair n1 w v w' v')|].
      apply (Hdist n1 n2 v w); auto.
Qed.

Lemma assign_slots_inv l a u a' :
  NoDup (map (fun i => Z.to_nat (d_payload i)) l) -> assign_slots l a = Some (u, a') ->
  (forall m, m ∉ map (fun i => Z.to_nat (d_payload i)) l -> as_objs a' !! m = as_objs a !! m) /\
  (forall i v, i ∈ l -> as_objs a !! Z.to_nat (d_payload i) = Some (NVar v) ->
     as_objs a' !! Z.to_nat (d_payload i) = Some (NVar (v_with_slot (Z.of_nat (d_slot i)) v))).
Proof.
  revert a. induction l as [|i l IH]; intros a Hnd H; simpl in H.
  - injection H as _ <-. split; [done|]. intros i v Hi. by apply elem_of_nil in Hi.
  - simpl in Hnd. apply NoDup_cons in Hnd as [Hnin Hnd]. step H. apply mod_var_inv in E as ->.
    apply IH in H as (Hs & Hi); [|done]. split.
    + intros m Hm. simpl in Hm. apply not_elem_of_cons in Hm as [Hne Hm].
      rewrite Hs by done. apply mod_var_other. congruence.
    + intros j v Hj Hv. apply elem_of_cons in Hj as [->|Hj].
      * rewrite Hs by done. by apply mod_var_lookup.
      * apply Hi; [done|]. rewrite mod_var_other; [done|]. intros Heq. apply Hnin. rewrite Heq.
        by apply (list_elem_of_fmap_2 (fun i => Z.to_nat (d_payload i))).
Qed.

(** ** The result of the linear scan *)

Definition payload (i : Interval) : nat := Z.to_nat (d_payload i).

Lemma interval_of_inv objs n i :
  interval_of objs n = Some i -> exists v, objs !! n = Some (NVar v) /\ is_scalar v = true /\
    i = mkInterval (v_from v) (v_to v) (Z.of_nat n) 0.
Proof.
  unfold interval_of. destruct (objs !! n) as [[c|v|f]|]; try done.
  destruct (is_scalar v) eqn:E; [|done]. intros [= <-]. eauto.
Qed.

Lemma payload_in objs (l : list nat) m :
  m ∈ map payload (omap (interval_of objs) l) -> m ∈ l /\ exists v, objs !! m = Some (NVar v) /\ is_scalar v = true.
Proof.
  intros H. apply list_elem_of_fmap in H as (i & -> & H). apply list_elem_of_omap in H as (n & Hn & E).
  apply interval_of_inv in E as (v & Hv & Hs & ->). unfold payload. simpl. rewrite Nat2Z.id. eauto.
Qed.

Lemma payload_nodup objs (l : list nat) : NoDup l -> NoDup (map payload (omap (interval_of objs) l)).
Proof.
  induction 1 as [|n l Hn Hnd IH]; [constructor|]. cbn [omap list_omap].
  destruct (interval_of objs n) as [i|] eqn:E; [|done]. cbn [map]. apply NoDup_cons. split; [|done].
  apply interval_of_inv in E as (v & _ & _ & ->). unfold payload at 1. simpl. rewrite Nat2Z.id.
  intros H. by apply payload_in in H as [H _].
Qed.

Lemma payload_slots l l' :
  map (with_slot 0) l' ≡ₚ map (with_slot 0) l -> map payload l' ≡ₚ map payload l.
Proof.
  intros H. apply (fmap_Permutation payload) in H. rewrite <- !list_fmap_compose in H. exact H.
Qed.

(** The interval that the scan has for a variable. *)
Lemma scanned objs l vars' n v :
  map (with_slot 0) vars' ≡ₚ map (with_slot 0) (omap (interval_of objs) l) ->
  n ∈ l -> objs !! n = Some (NVar v) -> is_scalar v = true ->
  exists j i, vars' !! j = Some i /\ payload i = n /\ d_from i = v_from v /\ d_to i = v_to v.
Proof.
  intros Hp Hn Hv Hs. assert (E : interval_of objs n = Some (mkInterval (v_from v) (v_to v) (Z.of_nat n) 0)).
  { unfold interval_of. by rewrite Hv, Hs. }
  assert (Hin : mkInterval (v_from v) (v_to v) (Z.of_nat n) 0 ∈ map (with_slot 0) vars').
  { rewrite Hp. apply list_elem_of_fmap. eexists. split; [|apply list_elem_of_omap; eauto]. done. }
  apply list_elem_of_fmap in Hin as (i & Hi & Hin). apply list_elem_of_lookup in Hin as [j Hj].
  exists j, i. split; [done|]. unfold with_slot in Hi. injection Hi as Hf Ht Hpl.
  unfold payload. rewrite <- Hpl, Nat2Z.id. done.
Qed.

(** A pool before the scan, and the objects before and after it. *)
Lemma scan_slots objs l pool vars' pool' a u a' :
  plain pool -> NoDup l ->
  allocateWithLinearScan pool (omap (interval_of objs) l) 1 = Some (true, vars', pool') ->
  assign_slots vars' a = Some (u, a') ->
  (forall n v, n ∈ l -> objs !! n = Some (NVar v) -> is_scalar v = true -> as_objs a !! n = Some (NVar v)) ->
  (forall m, (forall v, objs !! m = Some (NVar v) -> is_scalar v = false) -> as_objs a' !! m = as_objs a !! m) /\
  (forall n v, n ∈ l -> objs !! n = Some (NVar v) -> is_scalar v = true ->
     exists s, as_objs a' !! n = Some (NVar (v_with_slot (Z.of_nat s) v)) /\ ~ taken pool s /\ (s < MAX_SLOTS)%nat) /\
  (forall n m v w v' w', n ∈ l -> m ∈ l -> objs !! n = Some (NVar v) -> objs !! m = Some (NVar w) ->
     is_scalar v = true -> is_scalar w = true -> n <> m -> v_from v <= v_to w -> v_from w <= v_to v ->
     as_objs a' !! n = Some (NVar v') -> as_objs a' !! m = Some (NVar w') -> v_slot v' <> v_slot w').
Proof using SL.
  intros Hp Hnd Hscan Ha Hobjs.
  destruct (linear_scan_sound pool _ 1 vars' pool' SL (proj1 Hp) ltac:(lia) Hscan) as (Hperm & Hdis & Hfree).
  pose proof (payload_slots _ _ Hperm) as Hpay.
  apply assign_slots_inv in Ha as (Hsame & Hset); [|fold payload; rewrite Hpay; by apply payload_nodup].
  fold payload in Hsame, Hset.
  assert (Hget : forall n v, n ∈ l -> objs !! n = Some (NVar v) -> is_scalar v = true ->
    exists j i, vars' !! j = Some i /\ payload i = n /\ d_from i = v_from v /\ d_to i = v_to v /\
      as_objs a' !! n = Some (NVar (v_with_slot (Z.of_nat (d_slot i)) v)) /\
      ~ taken pool (d_slot i) /\ (d_slot i < MAX_SLOTS)%nat).
  { intros n v Hn Hv Hs. destruct (scanned objs l vars' n v Hperm Hn Hv Hs) as (j & i & Hj & Hi & Hf & Ht).
    exists j, i. split; [done|]. split; [done|]. split; [done|]. split; [done|].
    destruct (Hfree j i Hj) as (Hall & Hlt & _). split; [|split; [|lia]].
    - rewrite <- Hi. apply Hset; [by eapply list_elem_of_lookup_2|]. fold (payload i). rewrite Hi. by apply Hobjs.
    - unfold taken. rewrite (Hall (d_slot i)) by lia. done. }
  split; [|split].
  - intros m Hm. apply Hsame. change (m ∉ map payload vars'). rewrite Hpay. intros Hin.
    apply payload_in in Hin as (_ & v & Hv & Hs). rewrite (Hm v Hv) in Hs. done.
  - intros n v Hn Hv Hs. destruct (Hget n v Hn Hv Hs) as (j & i & _ & _ & _ & _ & H). eauto.
  - intros n m v w v' w' Hn Hm Hv Hw Hsv Hsw Hne Hvw Hwv Hv' Hw'.
    destruct (Hget n v Hn Hv Hsv) as (j1 & i1 & Hj1 & Hp1 & Hf1 & Ht1 & Ho1 & _ & Hl1).
    destruct (Hget m w Hm Hw Hsw) as (j2 & i2 & Hj2 & Hp2 & Hf2 & Ht2 & Ho2 & _ & Hl2).
    assert (v' = v_with_slot (Z.of_nat (d_slot i1)) v) as -> by congruence.
    assert (w' = v_with_slot (Z.of_nat (d_slot i2)) w) as -> by congruence.
    rewrite !slot_of_nat by done.
    destruct (Hdis j1 j2 i1 i2 Hj1 Hj2) as [H|H]; [congruence|split; lia|lia|lia].
Qed.

Lemma upval_not_scalar v : v_uv v = true -> is_scalar v = false.
Proof. unfold is_scalar. intros ->. apply andb_false_r. Qed.

Lemma local_kind objs (l : list (bytes * nat)) n v :
  local objs l n v -> v_slotPreset v = false ->
  if v_uv v then upval_at objs l.*2 n v else is_scalar v = true.
Proof.
  intros (Hn & Hv & Hp) Hpre. unfold upval_at, is_scalar, is_upval. rewrite Hp, Hpre. by destruct (v_uv v).
Qed.

(** The slots with respect to the pool [p1] of the parameters and the given slots, and
    the pool [p2] that has also those of upvalues. *)
Record allocated_slots (fn : AFunc) (objs objs' : list Named) (p1 p2 : SlotPool) : Prop := {
  as_params : forall t, (t < length (f_params fn))%nat -> taken p1 t;
  as_given : forall n v, local objs (f_names fn) n v -> v_slotPreset v = true ->
    taken p1 (Z.to_nat (v_slot v)) /\ objs' !! n = Some (NVar v);
  as_slot : forall n v, local objs (f_names fn) n v -> v_slotPreset v = false ->
    exists s, objs' !! n = Some (NVar (v_with_slot (Z.of_nat s) v)) /\ ~ taken p1 s /\ (s < MAX_SLOTS)%nat /\
      if v_uv v then taken p2 s else ~ taken p2 s;
  as_apart : forall n m v w v' w', local objs (f_names fn) n v -> local objs (f_names fn) m w -> n <> m ->
    v_slotPreset v = false -> v_slotPreset w = false -> v_uv v = v_uv w ->
    (v_uv v = false -> v_from v <= v_to w /\ v_from w <= v_to v) ->
    objs' !! n = Some (NVar v') -> objs' !! m = Some (NVar w') -> v_slot v' <> v_slot w'
}.

Lemma allocateRegisters3_slots me fn a a' :
  as_objs a !! me = Some (NFunc fn) -> NoDup (f_names fn).*2 -> f_firstUnused fn ∉ (f_names fn).*2 ->
  no_records (as_objs a) (f_names fn) -> allocateRegisters3 me a = Some (Some tt, a') ->
  exists p1 p2, allocated_slots fn (as_objs a) (as_objs a') p1 p2.
Proof using SL.
  intros Hme Hnd Hfu Hrec H. unfold allocateRegisters3 in H. step H. simplify_eq.
  step H. apply set_params_inv in E as (-> & Hg0 & Hpar); [|split; [apply empty_pool_ok|done]].
  step H. apply collect_inv in E as (-> & p1 & -> & Hg1 & Hpre0); [|by apply Hg0|done].
  step H. apply scalars_inv in E as (p2 & -> & Hg2 & Hs2 & Hup & Hupd); [|by apply Hg1|done].
  step H. destruct x0 as [[okk vars'] p3]. destruct okk; [|done]. simpl in H.
  step H. step H. injection E1 as <- <-. step H. injection E1 as <- <-. injection H as <-.
  set (b := set_objs _ a0).
  assert (Hfin : forall n, n ∈ (f_names fn).*2 -> as_objs b !! n = as_objs a0 !! n).
  { intros n Hn. apply mod_var_other. by intros <-. }
  destruct (scan_slots (as_objs a) (f_names fn).*2 p2 vars' p3 a1 x0 a0 (proj1 Hg2) Hnd E E0)
    as (Hsame & Hsc & Hscd).
  { intros n v _ Hv Hs. rewrite Hs2; [done|]. intros w (_ & Hw & Hu). assert (w = v) as -> by congruence.
    unfold is_upval in Hu. apply andb_true_iff in Hu as [_ Hu]. by rewrite upval_not_scalar in Hs. }
  assert (Hfix : forall n v, local (as_objs a) (f_names fn) n v -> v_uv v = true -> as_objs b !! n = as_objs a1 !! n).
  { intros n v (Hn & Hv & _) Hu. rewrite Hfin, Hsame; [done| |done].
    intros w Hw. apply upval_not_scalar. congruence. }
  exists p1, p2. split.
  - intros t Ht. apply Hg1, Hpar. lia.
  - intros n v Hl Hpre. split; [by apply (Hpre0 n)|]. destruct Hl as (Hn & Hv & Hp).
    assert (is_scalar v = false /\ is_upval v = false) as [Hns Hnu].
    { unfold is_scalar, is_upval. rewrite Hp, Hpre. done. }
    rewrite Hfin, Hsame, Hs2; [done| |intros w Hw; congruence|done].
    intros w (_ & Hw & Hu). congruence.
  - intros n v Hl Hpre. pose proof (local_kind _ _ n v Hl Hpre) as Hk. destruct (v_uv v) eqn:Eu.
    + rewrite (Hfix n v) by done. destruct (Hup n v Hk) as (s & Hs & Ht & Hnt & Hlt). by exists s.
    + destruct Hl as (Hn & Hv & Hp). rewrite (Hfin n Hn).
      destruct (Hsc n v Hn Hv Hk) as (s & Hs & Hnt & Hlt). exists s. split; [done|].
      split; [|done]. intros Ht. by apply Hnt, Hg2.
  - intros n m v w v' w' Hn Hm Hne Hp1 Hp2 Hu Hr Hv' Hw'.
    pose proof (local_kind _ _ n v Hn Hp1) as Hkn. pose proof (local_kind _ _ m w Hm Hp2) as Hkm.
    rewrite <- Hu in Hkm. destruct (v_uv v) eqn:Euv.
    + rewrite (Hfix n v) in Hv' by done. rewrite (Hfix m w) in Hw' by done. by apply (Hupd n m v w).
    + destruct (Hr eq_refl) as [H1 H2]. destruct Hn as (Hn & Hvn & _), Hm as (Hm & Hwm & _).
      rewrite Hfin in Hv', Hw' by done. by apply (Hscd n m v w).
Qed.

End Allocation.
