(* ===== verification/AsmUpvals.v ===== *)
(** * The assembler: upvalues

    A variable of an outer function is an upvalue of the function that uses it and of all
    functions between the two; [getUpvals] describes each of them to the composer. *)

From S2P Require Import Prelude LexCore Double Bytecode QtLib BytecodeIO SlotPool LinearScan Composer LjasToken SyntaxTree LjasTree Assembler AsmStat AsmAlloc AsmGen AsmSpec.
From Stdlib Require Import Strings.Byte.
Local Open Scope Z_scope.
Local Open Scope rd_scope.

(** ** The lists of upvalues *)

Definition upvals_of (objs : list Named) (f : nat) : list nat :=
  match objs !! f with Some (NFunc fn) => f_upvals fn | _ => [] end.
Definition outer_of (objs : list Named) (f : nat) : option nat :=
  match objs !! f with Some (NFunc fn) => f_outer fn | _ => None end.
(** The variable [v] belongs to the function [f]. *)
Definition owned (objs : list Named) (v f : nat) : Prop :=
  exists x, objs !! v = Some (NVar x) /\ v_func x = Some f.

(** An upvalue of [f] is a variable or an upvalue of the function around it. *)
Definition closed_at (objs : list Named) (f : nat) : Prop :=
  forall v o, v ∈ upvals_of objs f -> outer_of objs f = Some o -> owned objs v o \/ v ∈ upvals_of objs o.

Record upvals_ok (objs : list Named) : Prop := {
  uo_outer : forall f o, outer_of objs f = Some o -> (o < f)%nat;
  uo_nodup : forall f, NoDup (upvals_of objs f);
  uo_closed : forall f, closed_at objs f
}.

(** Upvalues are only appended, and only to functions up to [f]. *)
Record extended (f : nat) (objs objs' : list Named) : Prop := {
  ex_vars : forall v x, objs' !! v = Some (NVar x) <-> objs !! v = Some (NVar x);
  ex_outer : forall g, outer_of objs' g = outer_of objs g;
  ex_upvals : forall g, exists k, upvals_of objs' g = upvals_of objs g ++ k;
  ex_above : forall g, (f < g)%nat -> upvals_of objs' g = upvals_of objs g
}.

Lemma ex_owned f objs objs' v g : extended f objs objs' -> owned objs' v g <-> owned objs v g.
Proof. intros H. unfold owned. by setoid_rewrite (ex_vars _ _ _ H). Qed.

Lemma extended_refl f objs : extended f objs objs.
Proof. split; try done. intros g. exists []. by rewrite app_nil_r. Qed.

Lemma extended_trans f objs objs' objs'' : extended f objs objs' -> extended f objs' objs'' -> extended f objs objs''.
Proof.
  intros [A1 A2 A3 A4] [B1 B2 B3 B4]. split.
  - intros v x. by rewrite B1, A1.
  - intros g. by rewrite B2, A2.
  - intros g. destruct (A3 g) as [k1 H1], (B3 g) as [k2 H2]. exists (k1 ++ k2). by rewrite H2, H1, app_assoc.
  - intros g Hg. by rewrite B4, A4.
Qed.

Lemma extended_up f f' objs objs' : (f <= f')%nat -> extended f objs objs' -> extended f' objs objs'.
Proof. intros Hf [A1 A2 A3 A4]. split; try done. intros g Hg. apply A4. lia. Qed.

Lemma extended_in f objs objs' g v : extended f objs objs' -> v ∈ upvals_of objs g -> v ∈ upvals_of objs' g.
Proof. intros [_ _ A3 _] H. destruct (A3 g) as [k ->]. apply elem_of_app. by left. Qed.

Definition append_upval (f v : nat) (objs : list Named) : list Named :=
  alter (fun n => match n with NFunc fn => NFunc (f_with_upvals (f_upvals fn ++ [v]) fn) | _ => n end) f objs.

Lemma append_lookup f v objs g :
  append_upval f v objs !! g =
    if decide (g = f) then (fun n => match n with NFunc fn => NFunc (f_with_upvals (f_upvals fn ++ [v]) fn) | _ => n end)
      <$> objs !! g
    else objs !! g.
Proof.
  unfold append_upval. case_decide as Hg; [subst g; apply list_lookup_alter_eq|by apply list_lookup_alter_ne].
Qed.

Lemma append_extended f v objs : extended f objs (append_upval f v objs).
Proof.
  split.
  - intros w x. rewrite append_lookup. case_decide; [|done]. subst w.
    destruct (objs !! f) as [[c|y|fn]|]; simpl; split; congruence.
  - intros g. unfold outer_of. rewrite append_lookup. case_decide; [|done]. subst g. by destruct (objs !! f) as [[| |]|].
  - intros g. unfold upvals_of. rewrite append_lookup. case_decide; [|exists []; by rewrite app_nil_r]. subst g.
    destruct (objs !! f) as [[| |fn]|]; simpl; [by exists []..|by exists [v]|by exists []].
  - intros g Hg. unfold upvals_of. rewrite append_lookup, decide_False by lia. done.
Qed.

Lemma append_upvals f v objs fn :
  objs !! f = Some (NFunc fn) -> upvals_of (append_upval f v objs) f = upvals_of objs f ++ [v].
Proof. intros H. unfold upvals_of. by rewrite append_lookup, decide_True, H by done. Qed.

Lemma upval_index_Some v l i : upval_index v l = Some i -> l !! i = Some v.
Proof.
  unfold upval_index. destruct (list_find _ l) as [[j w]|] eqn:E; [|done]. intros [= <-].
  apply list_find_Some in E as (H & -> & _). done.
Qed.

Lemma upval_index_None v l : upval_index v l = None -> v ∉ l.
Proof.
  unfold upval_index. destruct (list_find _ l) as [[j w]|] eqn:E; [done|]. intros _ Hv.
  apply list_find_None in E. rewrite Forall_forall in E. by apply (E v).
Qed.

(** ** [resolveUpval] *)

(** What holds for the functions from [f] outwards. *)
Definition ok_up_to (objs : list Named) (f : nat) : Prop :=
  (forall g o, outer_of objs g = Some o -> (o < g)%nat) /\ (forall g, NoDup (upvals_of objs g)) /\
  (forall g, (g <= f)%nat -> closed_at objs g).

(** An upvalue appended to one function: the functions outwards stay as they are. *)
Lemma ok_append objs f v fn o :
  ok_up_to objs f -> objs !! f = Some (NFunc fn) -> v ∉ upvals_of objs f -> f_outer fn = Some o ->
  ok_up_to (append_upval f v objs) o.
Proof.
  intros (Ho & Hn & Hc) Hf Hv Hout. pose proof (append_extended f v objs) as Hext. pose proof Hext as [_ E2 _ _].
  assert (o < f)%nat as Hof by (apply Ho; unfold outer_of; by rewrite Hf).
  assert (Hne : forall g, g <> f -> upvals_of (append_upval f v objs) g = upvals_of objs g).
  { intros g Hg. unfold upvals_of. rewrite append_lookup, decide_False by done. done. }
  split; [intros g p; rewrite E2; apply Ho|]. split.
  - intros g. destruct (decide (g = f)) as [->|Hg]; [|by rewrite Hne].
    rewrite (append_upvals f v objs fn Hf). apply NoDup_app. split; [done|]. split; [|apply NoDup_singleton].
    intros x Hx Hxv. apply list_elem_of_singleton in Hxv as ->. done.
  - intros g Hg w p Hw Hp. rewrite E2 in Hp. rewrite Hne in Hw by lia. pose proof (Ho g p Hp).
    rewrite Hne by lia. rewrite (ex_owned _ _ _ _ _ Hext). by apply (Hc g ltac:(lia)).
Qed.

(** The function itself, once the functions outwards are in order again. *)
Lemma ok_after objs objs' f v fn :
  ok_up_to objs f -> objs !! f = Some (NFunc fn) -> extended f objs objs' ->
  upvals_of objs' f = f_upvals fn ++ [v] -> (forall g, NoDup (upvals_of objs' g)) ->
  match f_outer fn with
  | None => forall g, g <> f -> upvals_of objs' g = upvals_of objs g
  | Some o => ok_up_to objs' o /\ (forall g, (o < g)%nat -> g <> f -> upvals_of objs' g = upvals_of objs g) /\
      (owned objs' v o \/ v ∈ upvals_of objs' o)
  end -> ok_up_to objs' f.
Proof.
  intros (Ho & Hn & Hc) Hf Hext Hup Hnd Hm.
  assert (Hof : outer_of objs f = f_outer fn) by (unfold outer_of; by rewrite Hf).
  assert (Hold : forall g w p, (g <= f)%nat -> w ∈ upvals_of objs g -> outer_of objs g = Some p ->
    owned objs' w p \/ w ∈ upvals_of objs' p).
  { intros g w p Hg Hw Hp. rewrite (ex_owned _ _ _ _ _ Hext). destruct (Hc g Hg w p Hw Hp); [by left|right].
    by eapply extended_in. }
  split; [intros g p; rewrite (ex_outer _ _ _ Hext); apply Ho|]. split; [done|].
  intros g Hg w p Hw Hp. pose proof Hp as Hp'. rewrite (ex_outer _ _ _ Hext) in Hp'.
  destruct (decide (g = f)) as [->|Hne].
  - rewrite Hup in Hw. rewrite Hof in Hp'. rewrite Hp' in Hm. apply elem_of_app in Hw as [Hw|Hw].
    + apply (Hold f); [done| |by rewrite Hof]. unfold upvals_of. by rewrite Hf.
    + apply list_elem_of_singleton in Hw as ->. apply Hm.
  - destruct (f_outer fn) as [o|]; [|rewrite Hm in Hw by done; by apply (Hold g)].
    destruct Hm as (Hoko & Hsame & _). destruct (decide (o < g)%nat).
    + rewrite Hsame in Hw by done. by apply (Hold g).
    + apply (proj2 (proj2 Hoko) g); [lia|done..].
Qed.

Section Upvals.
Context `{Q : QtLib} `{L : LjBc} `{AL : AsmLib} `{Srt : StdSort}.

(** The number of [v] in [f]. *)
Definition numbered (objs : list Named) (f v : nat) (z : Z) : Prop :=
  (owned objs v f /\ z = -1) \/
  (~ owned objs v f /\ exists i, upvals_of objs f !! i = Some v /\ (Z.of_nat i < 2 ^ 16 -> z = Z.of_nat i)).

Lemma resolveUpval_spec fuel f v a z a' :
  ok_up_to (as_objs a) f -> resolveUpval fuel f v true a = Some (z, a') ->
  extended f (as_objs a) (as_objs a') /\ ok_up_to (as_objs a') f /\ numbered (as_objs a') f v z.
Proof.
  revert f a z a'. induction fuel as [|fuel IH]; intros f a z a' Hok H; simpl in H; [done|].
  step H. case_bool_decide as Hown.
  { injection H as <- <-. split; [apply extended_refl|]. split; [done|]. left. split; [|done]. by exists x. }
  assert (Hnot : ~ owned (as_objs a) v f) by (intros (y & Hy & Hf); congruence).
  step H. rename x0 into fn. assert (Hup : upvals_of (as_objs a) f = f_upvals fn) by (unfold upvals_of; by rewrite E0).
  destruct (upval_index v (f_upvals fn)) as [i|] eqn:Ei.
  { injection H as <- <-. split; [apply extended_refl|]. split; [done|]. right. split; [done|].
    exists i. rewrite Hup. split; [by apply upval_index_Some|]. intros Hi. apply u16_small. lia. }
  apply upval_index_None in Ei. step H. injection E1 as _ <-. step H. injection H as <- <-.
  set (objs1 := append_upval f v (as_objs a)). change (set_objs _ a) with (set_objs objs1 a) in E1.
  pose proof (append_extended f v (as_objs a)) as Hext. fold objs1 in Hext.
  pose proof (append_upvals f v (as_objs a) fn E0) as Hlast. fold objs1 in Hlast.
  assert (Hnd1 : forall g, NoDup (upvals_of objs1 g)).
  { intros g. destruct (decide (g = f)) as [->|Hg].
    - rewrite Hlast. apply NoDup_app. split; [apply Hok|]. split; [|apply NoDup_singleton].
      intros w Hw Hwv. apply list_elem_of_singleton in Hwv as ->. by rewrite Hup in Hw.
    - unfold upvals_of, objs1. rewrite append_lookup, decide_False by done. apply Hok. }
  assert (Hother : forall g, g <> f -> upvals_of objs1 g = upvals_of (as_objs a) g).
  { intros g Hg. unfold upvals_of, objs1. by rewrite append_lookup, decide_False. }
  rewrite <- Hup in Ei.
  assert (Hnum : forall o', extended f (as_objs a) o' -> upvals_of o' f = f_upvals fn ++ [v] ->
    numbered o' f v (Z.of_nat (length (f_upvals fn)))).
  { intros o' He Hu. right. rewrite (ex_owned _ _ _ _ _ He). split; [done|]. exists (length (f_upvals fn)).
    rewrite Hu. split; [by apply list_lookup_middle|done]. }
  rewrite Hup in Hlast. destruct (f_outer fn) as [o|] eqn:Eo.
  - assert (o < f)%nat as Hof by (apply Hok; unfold outer_of; by rewrite E0).
    pose proof (ok_append (as_objs a) f v fn o Hok E0 Ei Eo) as Hok1. fold objs1 in Hok1.
    assert (extended o objs1 (as_objs a1) /\ ok_up_to (as_objs a1) o /\
      (owned (as_objs a1) v o \/ v ∈ upvals_of (as_objs a1) o)) as (Hx & Hoko & Hvo).
    { case_bool_decide as Hb; simpl in E1.
      - injection E1 as _ <-. simpl. split; [apply extended_refl|]. split; [done|]. left. exists x. by rewrite (ex_vars _ _ _ Hext).
      - step E1. injection E1 as _ <-. apply IH in E2 as (Hx & Hoko & Hn); [|done]. split; [done|]. split; [done|].
        destruct Hn as [[Hn _]|(_ & i & Hi & _)]; [by left|right]. by eapply list_elem_of_lookup_2. }
    assert (Hfin : upvals_of (as_objs a1) f = f_upvals fn ++ [v]) by (by rewrite (ex_above _ _ _ Hx)).
    assert (Hall : extended f (as_objs a) (as_objs a1)).
    { eapply extended_trans; [exact Hext|]. apply (extended_up o); [lia|done]. }
    split; [done|]. split; [|by apply Hnum].
    apply (ok_after (as_objs a) (as_objs a1) f v fn); try done; [apply Hoko|]. rewrite Eo.
    split; [done|]. split; [|done]. intros g Hg Hgf. rewrite (ex_above _ _ _ Hx) by done. by apply Hother.
  - injection E1 as _ <-. simpl. split; [done|]. split; [|by apply Hnum].
    apply (ok_after (as_objs a) objs1 f v fn); try done. by rewrite Eo.
Qed.

(** ** The operand of [UGET] and [USET] *)
Lemma find_all_state f name a r a' : find_all f name a = Some (r, a') -> a' = a.
Proof.
  unfold find_all. intros H. step H. destruct (names_find name (f_names x)); by injection H as _ <-.
Qed.

Lemma desig_func_state st me a r a' : desig_func st me a = Some (Some r, a') -> a' = a.
Proof.
  unfold desig_func. intros H. step H. step H. step H. step H. step H. step H. step H.
  apply find_all_state in E5 as ->. destruct x5 as [[n b]|]; [|by injection H as _ <-].
  step H. destruct x5; [done|done|]. by injection H as _ <-.
Qed.

Lemma derefDesig_state st me l a r a' : derefDesig st me l a = Some (Some r, a') -> a' = a.
Proof.
  unfold derefDesig. intros H. step H. step H. step H.
  assert (a1 = a) as ->. { destruct (has_type x0 (Rule R_fname)); [by eapply desig_func_state|by injection E1 as _ <-]. }
  step H. step H. step H. step H. apply find_all_state in E5 as ->.
  destruct x5 as [[n b]|]; [|done]. step H. destruct x5; try (by injection H as _ <-).
  destruct (l && negb b); [done|by injection H as _ <-].
Qed.

(** Changing a variable leaves the upvalues alone. *)
Lemma func_mod_var (objs : list Named) (n : nat) g (f : nat) fn :
  alter (fun m => match m with NVar v => NVar (g v) | _ => m end) n objs !! f = Some (NFunc fn) <->
  objs !! f = Some (NFunc fn).
Proof.
  destruct (decide (n = f)) as [->|Hne]; [|by rewrite list_lookup_alter_ne].
  rewrite list_lookup_alter_eq. destruct (objs !! f) as [[]|]; simpl; split; congruence.
Qed.

Lemma outer_of_mod_var (objs : list Named) (n : nat) g f :
  outer_of (alter (fun m => match m with NVar v => NVar (g v) | _ => m end) n objs) f = outer_of objs f.
Proof.
  unfold outer_of. pose proof (func_mod_var objs n g f) as H. set (objs' := alter _ n objs) in *.
  destruct (objs' !! f) as [[| |fn]|], (objs !! f) as [[| |fn']|]; try done;
    first [pose proof (proj1 (H fn) eq_refl) | pose proof (proj2 (H fn') eq_refl)]; congruence.
Qed.

Lemma upvals_of_mod_var (objs : list Named) (n : nat) g f :
  upvals_of (alter (fun m => match m with NVar v => NVar (g v) | _ => m end) n objs) f = upvals_of objs f.
Proof.
  unfold upvals_of. pose proof (func_mod_var objs n g f) as H. set (objs' := alter _ n objs) in *.
  destruct (objs' !! f) as [[| |fn]|], (objs !! f) as [[| |fn']|]; try done;
    first [pose proof (proj1 (H fn) eq_refl) | pose proof (proj2 (H fn') eq_refl)]; congruence.
Qed.

Lemma upvals_ok_mod_var (objs : list Named) (n : nat) g :
  (forall x, v_func (g x) = v_func x) -> upvals_ok objs ->
  upvals_ok (alter (fun m => match m with NVar v => NVar (g v) | _ => m end) n objs).
Proof.
  intros Hg [Ho Hn Hc]. split.
  - intros f o. rewrite outer_of_mod_var. apply Ho.
  - intros f. rewrite upvals_of_mod_var. apply Hn.
  - intros f v o. rewrite !upvals_of_mod_var, outer_of_mod_var. intros Hv Ho'.
    destruct (Hc f v o Hv Ho') as [(x & Hx & Hxo)|H]; [left|by right].
    unfold owned. destruct (decide (n = v)) as [->|Hne].
    + exists (g x). rewrite list_lookup_alter_eq, Hx. split; [done|]. by rewrite Hg.
    + exists x. by rewrite list_lookup_alter_ne.
Qed.

Lemma ok_ok_up_to objs f : upvals_ok objs -> ok_up_to objs f.
Proof. intros [Ho Hn Hc]. split; [done|]. split; [done|]. intros g _. apply Hc. Qed.

Lemma ok_up_to_ok objs objs' f : upvals_ok objs -> extended f objs objs' -> ok_up_to objs' f -> upvals_ok objs'.
Proof.
  intros [Ho Hn Hc] Hext (Ho' & Hn' & Hc'). split; [done|done|]. intros g.
  destruct (decide (g <= f)%nat) as [|Hgf]; [by apply Hc'|]. intros v o Hv Hout.
  rewrite (ex_above _ _ _ Hext) in Hv by lia. rewrite (ex_outer _ _ _ Hext) in Hout.
  rewrite (ex_owned _ _ _ _ _ Hext). destruct (Hc g v o Hv Hout); [by left|right]. by eapply extended_in.
Qed.

(** [C23] The operand of [UGET] and [USET] is a variable that is marked as an upvalue,
    and it becomes an upvalue of the function and of all functions between it and the
    one the variable belongs to: every upvalue of a function is a variable or an upvalue
    of the function around it, and has one number in each. *)
Theorem fetchU_captures st s me lhs a s' a' :
  upvals_ok (as_objs a) -> fetchU st s me lhs a = Some (Some s', a') ->
  upvals_ok (as_objs a') /\
  exists n x, s_vals s' = s_vals s ++ [AN n] /\ as_objs a' !! n = Some (NVar x) /\ v_uv x = true /\
    (lhs = true -> v_uvRo x = false) /\ (v_func x = Some me \/ n ∈ upvals_of (as_objs a') me).
Proof.
  intros Hok H. unfold fetchU in H. step H. step H. apply derefDesig_state in E0 as ->. step H.
  destruct x1 as [c|y|fn]; try done. step H.
  apply resolveUpval_spec in E1 as (Hext & Hokm & Hnum); [|by apply ok_ok_up_to].
  pose proof (ok_up_to_ok _ _ _ Hok Hext Hokm) as Hok1. step H. apply mod_var_inv in E1 as ->.
  injection H as <- <-. set (n := x0.1) in *. split; [by apply upvals_ok_mod_var|].
  apply (ex_vars _ _ _ Hext) in E0.
  exists n, (v_with_uv (v_uvRo y && negb lhs) y). split; [done|].
  split; [by apply (mod_var_lookup n (fun v => v_with_uv (v_uvRo v && negb lhs) v))|]. split; [done|].
  split; [intros ->; simpl; apply andb_false_r|]. simpl.
  destruct Hnum as [[(z & Hz & Hf) _]|(_ & i & Hi & _)]; [left; congruence|right].
  rewrite upvals_of_mod_var. by eapply list_elem_of_lookup_2.
Qed.

(** ** The descriptions for the composer *)

(** A known upvalue is found. *)
Lemma resolveUpval_known fuel f v a z a' :
  v ∈ upvals_of (as_objs a) f -> ~ owned (as_objs a) v f -> (length (upvals_of (as_objs a) f) <= 2 ^ 14)%nat ->
  resolveUpval fuel f v false a = Some (z, a') ->
  a' = a /\ 0 <= z < 2 ^ 14 /\ upvals_of (as_objs a) f !! Z.to_nat z = Some v.
Proof.
  intros Hin Hno Hlen H. destruct fuel as [|fuel]; [done|]. simpl in H. step H.
  case_bool_decide as Hb; [destruct Hno; by exists x|]. step H.
  assert (Hup : upvals_of (as_objs a) f = f_upvals x0) by (unfold upvals_of; by rewrite E0).
  rewrite Hup in *. destruct (upval_index v (f_upvals x0)) as [i|] eqn:Ei; [|by apply upval_index_None in Ei].
  injection H as <- <-. apply upval_index_Some in Ei. pose proof (lookup_lt_Some _ _ _ Ei) as Hi.
  change (2 ^ 14)%nat with (Z.to_nat (2 ^ 14)) in Hlen. rewrite u16_small by lia. rewrite Nat2Z.id. split; [done|]. split; [lia|done].
Qed.

(** What the composer is told about the upvalue [v] of [f]. *)
Definition described (objs : list Named) (f v : nat) (u : Upval) : Prop :=
  exists o x name, outer_of objs f = Some o /\ objs !! v = Some (NVar x) /\ v_name x = Some name /\
    uv_name u = st_val name /\ d_isRo u = v_uvRo x /\
    if d_isLocal u then v_func x = Some o /\ d_uv u = v_slot x
    else v_func x <> Some o /\ upvals_of objs o !! Z.to_nat (d_uv u) = Some v.

Lemma upvals_loop_spec f l a us a' :
  upvals_ok (as_objs a) -> (forall g, (length (upvals_of (as_objs a) g) <= 2 ^ 14)%nat) ->
  (forall v, v ∈ l -> v ∈ upvals_of (as_objs a) f) ->
  upvals_loop (outer_of (as_objs a) f) l a = Some (us, a') ->
  a' = a /\ Forall2 (described (as_objs a) f) l us.
Proof.
  intros Hok Hlen. revert us a'. induction l as [|v l IH]; intros us a' Hl H; cbn [upvals_loop] in H.
  - injection H as <- <-. by split.
  - step H. step H. step H. step H.
    assert (a1 = a /\ described (as_objs a) f v x2) as [-> Hv].
    { case_bool_decide as Hb.
      - injection E2 as <- <-. split; [done|]. exists x, x0, x1. simpl. auto 8.
      - step E2. injection E2 as <- <-.
        assert (Hno : ~ owned (as_objs a) v x) by (intros (y & Hy & Hf); congruence).
        destruct (uo_closed _ Hok f v x) as [Hown|Hin]; [apply Hl; by left|done|done|].
        apply resolveUpval_known in E3 as (-> & Hz & Hi); [|done..]. split; [done|].
        exists x, x0, x1. simpl. rewrite Z.mod_small by lia. auto 8. }
    step H. apply IH in E3 as [-> Hus]; [|intros w Hw; apply Hl; by right].
    injection H as <- <-. split; [done|]. by constructor.
Qed.

(** [C24] The composer is told about every upvalue of a function in the order of their
    numbers: either the slot of a variable of the function around it, or the number that
    the same variable has among the upvalues of that function. *)
Theorem upvals_described f a us a' :
  upvals_ok (as_objs a) -> (forall g, (length (upvals_of (as_objs a) g) <= 2 ^ 14)%nat) ->
  getUpvals f a = Some (us, a') ->
  a' = a /\ Forall2 (described (as_objs a) f) (upvals_of (as_objs a) f) us.
Proof.
  intros Hok Hlen H. unfold getUpvals in H. step H.
  assert (Hu : upvals_of (as_objs a) f = f_upvals x) by (unfold upvals_of; by rewrite E).
  assert (Ho : outer_of (as_objs a) f = f_outer x) by (unfold outer_of; by rewrite E).
  rewrite Hu. apply upvals_loop_spec; [done|done|by rewrite Hu|by rewrite Ho].
Qed.
End Upvals.
