(* ===== verification/AsmCode.v ===== *)
(** * The assembler: the code of a function

    Every statement becomes one instruction, in order: its operation is the one of the
    statement, and its operands are the slots of variables, the numbers of functions and
    constants, literals, and the distances of jumps. *)

From S2P Require Import Prelude LexCore Double Bytecode QtLib BytecodeIO SlotPool LinearScan Composer LjasToken SyntaxTree LjasTree Assembler AsmStat AsmAlloc AsmGen AsmSpec.
From Stdlib Require Import Strings.Byte.
Local Open Scope Z_scope.
Local Open Scope rd_scope.

Section Code.
Context `{Q : QtLib} `{L : LjBc} `{Laws : !LjBcLaws L} `{AL : AsmLib} `{Srt : StdSort}.

(** ** Objects that code generation does not change *)

(** The same variables and constants, and functions with the same numbers. *)
Definition same_id (n n' : Named) : Prop :=
  match n, n' with NFunc f, NFunc f' => f_id f = f_id f' | NFunc _, _ | _, NFunc _ => False | _, _ => n = n' end.
Definition objs_same (o o' : list Named) : Prop := Forall2 same_id o o'.

Lemma same_id_refl n : same_id n n.
Proof. by destruct n. Qed.
Lemma objs_same_refl o : objs_same o o.
Proof. apply Forall2_same_length_lookup_2; [done|]. intros i x y Hx Hy. assert (x = y) as -> by congruence. apply same_id_refl. Qed.
Lemma objs_same_trans o1 o2 o3 : objs_same o1 o2 -> objs_same o2 o3 -> objs_same o1 o3.
Proof.
  intros H. revert o3. induction H as [|x y l k Hxy H IH]; intros o3 H3; inversion H3 as [|y' z k' m Hyz Hk]; subst; constructor; [|by apply IH].
  destruct x, y, z; simpl in *; congruence || done.
Qed.
Lemma objs_same_var o o' n v : objs_same o o' -> o' !! n = Some (NVar v) -> o !! n = Some (NVar v).
Proof.
  intros H Hv. destruct (Forall2_lookup_r _ _ _ _ _ H Hv) as (x & Hx & Hs). destruct x; simpl in Hs; try done.
  by injection Hs as ->.
Qed.
Lemma objs_same_func o o' n f :
  objs_same o o' -> o' !! n = Some (NFunc f) -> exists f0, o !! n = Some (NFunc f0) /\ f_id f0 = f_id f.
Proof.
  intros H Hv. destruct (Forall2_lookup_r _ _ _ _ _ H Hv) as (x & Hx & Hs). destruct x; simpl in Hs; try done. eauto.
Qed.

(** Neither the objects nor the functions of the composer change. *)
Definition quiet (a a' : Assembler) : Prop :=
  objs_same (as_objs a) (as_objs a') /\ d_bc (d_comp a') = d_bc (d_comp a).

Lemma quiet_refl a : quiet a a.
Proof. split; [apply objs_same_refl|done]. Qed.
Lemma quiet_trans a b c : quiet a b -> quiet b c -> quiet a c.
Proof. intros [H1 H2] [H3 H4]. split; [by eapply objs_same_trans|congruence]. Qed.

Lemma mod_upvals_quiet f g a u a' :
  mod_func f (fun fn => f_with_upvals (g fn) fn) a = Some (u, a') -> quiet a a'.
Proof.
  intros [= _ <-]. split; [|done]. simpl. apply Forall2_same_length_lookup_2; [by rewrite length_alter|].
  intros i x y Hx Hy. destruct (decide (f = i)) as [->|Hne].
  - rewrite list_lookup_alter_eq, Hx in Hy. injection Hy as <-. by destruct x.
  - rewrite list_lookup_alter_ne in Hy by done. assert (x = y) as -> by congruence. apply same_id_refl.
Qed.

Lemma resolveUpval_quiet fuel f v r a z a' : resolveUpval fuel f v r a = Some (z, a') -> quiet a a'.
Proof.
  revert f a z a'. induction fuel as [|fuel IH]; intros f a z a' H; simpl in H; [done|].
  step H. case_bool_decide; [injection H as _ <-; apply quiet_refl|].
  step H. destruct (upval_index v (f_upvals x0)); [injection H as _ <-; apply quiet_refl|].
  step H. apply mod_upvals_quiet in E1. step H. injection H as _ <-.
  eapply quiet_trans; [exact E1|]. destruct (f_outer x0) as [o|]; [|injection E2 as _ <-; apply quiet_refl].
  destruct (r && _); [|injection E2 as _ <-; apply quiet_refl].
  step E2. injection E2 as _ <-. by eapply IH.
Qed.

(** ** Operands *)

(** The slot that a value stands for, or -1. *)
Definition slot_of_val (objs : list Named) (v : AVal) : Z :=
  match v with
  | AN n => match objs !! n with Some (NVar x) => v_slot x | _ => -1 end
  | _ => if val_isNumber v then
           if (val_toInt v <? 0) || (max_slots <? val_toInt v) then -1 else val_toInt v
         else -1
  end.

Lemma slot_value_inv v a z a' : slot_value v a = Some (z, a') -> a' = a /\ z = slot_of_val (as_objs a) v.
Proof.
  unfold slot_value, toVar. intros H. destruct v as [q|n|st]; [step H; injection E as <- <-| |step H; injection E as <- <-].
  - simpl in *. destruct (isNumber q); by injection H as <- <-.
  - step H. step E. simpl. destruct x0 as [c|x0|g]; injection E as <- <-.
    1,3: injection H as <- <-; by rewrite E0.
    step H. injection H as <- <-. assert (x = x0) as -> by congruence. by rewrite E0.
  - by injection H as <- <-.
Qed.

(** What a value is as an operand of the type [t]. *)
Definition operand_is (objs : list Named) (f : nat) (t : FieldType) (v : AVal) (z : Z) : Prop :=
  match t with
  | _var | _dst | _rbase | _base => z = slot_of_val objs v
  | _jump | _lit => val_isNumber v = true /\ z = val_toInt v
  | _lits => val_isNumber v = true /\ z = u16 (val_toInt v)
  | _pri => z = match v with AV v => toPrimitive v | _ => 0 end
  | _str | _num | _cdata | _tab => exists q c c', v = AV q /\ getConstSlot q c = Some (z, c')
  | _func => exists n fn, v = AN n /\ objs !! n = Some (NFunc fn) /\ z = f_id fn
  | _uv => (exists n b b', v = AN n /\ resolveUpval (S f) f n false b = Some (z, b')) \/ val_isNumber v = true
  | Unused => z = 0
  end.

Lemma const_slot_inv v a z a' :
  const_slot v a = Some (z, a') -> quiet a a' /\ exists q c c', v = AV q /\ getConstSlot q c = Some (z, c').
Proof.
  unfold const_slot, comp. destruct v as [q|n|st]; try done. intros H.
  destruct (getConstSlot q (d_comp a)) as [[x c]|] eqn:E; [|done]. injection H as <- <-.
  split; [|by eauto 6]. split; [apply objs_same_refl|]. simpl. by apply getConstSlot_funcs in E as [-> _].
Qed.

Lemma const_case (b : bool) v a z a' :
  (if b then const_slot v else rret (-1)) a = Some (z, a') ->
  quiet a a' /\ (0 <= z -> exists q c c', v = AV q /\ getConstSlot q c = Some (z, c')).
Proof.
  destruct b; intros H; [apply const_slot_inv in H as []; done|].
  injection H as <- <-. split; [apply quiet_refl|lia].
Qed.

Lemma number_case (b : bool) x a z a' :
  rret (if b then x else -1) a = Some (z, a') -> quiet a a' /\ (0 <= z -> b = true /\ z = x).
Proof. destruct b; intros [= <- <-]; (split; [apply quiet_refl|done]). Qed.

Lemma func_case v a z a' :
  match v with AN n => fn <~ get_func n; rret (f_id fn) | _ => rret (-1) end a = Some (z, a') ->
  quiet a a' /\ (0 <= z -> operand_is (as_objs a) 0 _func v z).
Proof.
  destruct v; intros H; try (injection H as <- <-; split; [apply quiet_refl|done]).
  step H. injection H as <- <-. split; [apply quiet_refl|]. simpl. eauto.
Qed.

Lemma upval_case f v a z a' :
  toValue f _uv v a = Some (z, a') -> quiet a a' /\ (0 <= z -> operand_is (as_objs a) f _uv v z).
Proof.
  unfold toValue. intros H. step H. destruct x as [n|].
  - assert (v = AN n /\ a1 = a) as [-> ->].
    { unfold toVar in E. destruct v; [done| |done]. step E. destruct x; try done. by injection E as -> ->. }
    split; [by eapply resolveUpval_quiet|]. intros _. left. eauto.
  - assert (a1 = a) as ->.
    { unfold toVar in E. destruct v; [by injection E as <-| |by injection E as <-]. step E. destruct x; try done; by injection E as <-. }
    apply number_case in H as [Hq Hz]. split; [done|]. intros Hp. right. by apply Hz.
Qed.

Lemma toValue_inv f t v a z a' :
  toValue f t v a = Some (z, a') -> quiet a a' /\ (0 <= z -> operand_is (as_objs a) f t v z).
Proof.
  intros H. destruct t; try (apply upval_case in H; done); simpl in H;
    try (apply slot_value_inv in H as [-> ->]; split; [apply quiet_refl|done]);
    try (apply const_case in H; exact H);
    try (apply const_slot_inv in H as [Hq Hc]; done);
    try (apply func_case in H; exact H);
    try (injection H as <- <-; split; [apply quiet_refl|done]).
  all: apply number_case in H as [Hq Hz]; split; [done|]; intros Hp; destruct (Hz Hp) as [Hb ->]; simpl.
  all: apply andb_true_iff in Hb as [Hb _]; apply andb_true_iff in Hb as [Hb _]; done.
Qed.

(** ** Instructions *)

(** The values of the instruction that a statement becomes. *)
Definition adjusted (objs : list Named) (s : Stmt) : list AVal :=
  match s_op s, s_vals s with
  | OP_CAT, [a; b; c] => [a; b; AV (QInt (s32 (slot_of_val objs b + s32 (val_toUInt c) - 1)))]
  | OP_KNIL, [a; b] => [a; AV (QInt (s32 (slot_of_val objs a + s32 (val_toUInt b) - 1)))]
  | OP_RET0, [a; b] | OP_RET1, [a; b] | OP_RET, [a; b] | OP_CALLT, [a; b] => [a; succ_val b]
  | OP_CALL, [a; b; c] => [a; succ_val b; succ_val c]
  | _, l => l
  end.

(** The instruction [w] is the one of the statement [s] of the function [f]. *)
Definition instr_of (objs : list Named) (f : nat) (s : Stmt) (w : Z) : Prop :=
  let '(ta, tb, tcd) := doc_types (s_op s) in
  match adjusted objs s with
  | [va; vb; vc] => exists a b c, operand_is objs f ta va a /\ operand_is objs f tb vb b /\
      operand_is objs f tcd vc c /\
      0 <= a /\ 0 <= b /\ 0 <= c < 2 ^ 8 /\ decodes w (s_op s) (u8 a) (u8 b) c
  | [va; vd] => exists a d, operand_is objs f ta va a /\ operand_is objs f tcd vd d /\
      0 <= a /\ 0 <= d < 2 ^ 16 /\ decodes w (s_op s) (u8 a) 0 d
  | _ => False
  end.

Lemma types_doc op : op <> OP_INVALID ->
  doc_types op = (typeAFromOp (Op_val op), typeBFromOp (Op_val op), typeCdFromOp (Op_val op)).
Proof using Laws.
  intros Ho. destruct (row_types op Ho) as (bc & Hr & Ht). unfold typeAFromOp, typeBFromOp, typeCdFromOp.
  rewrite Hr. by rewrite <- Ht.
Qed.

Lemma slot_of_val_same o o' v : objs_same o o' -> slot_of_val o' v = slot_of_val o v.
Proof.
  intros H. destruct v as [q|n|st]; [done| |done]. simpl.
  destruct (o' !! n) as [x'|] eqn:E.
  - destruct (Forall2_lookup_r _ _ _ _ _ H E) as (x & -> & Hs).
    destruct x, x'; simpl in Hs; try done. by injection Hs as ->.
  - apply lookup_ge_None in E. rewrite <- (Forall2_length _ _ _ H) in E. apply lookup_ge_None in E. by rewrite E.
Qed.

Lemma operand_same o o' f t v z : objs_same o o' -> operand_is o' f t v z -> operand_is o f t v z.
Proof.
  intros H. destruct t; simpl; rewrite ?(slot_of_val_same o o' v H); try done.
  intros (n & fn & -> & Hn & ->). destruct (objs_same_func _ _ _ _ H Hn) as (f0 & Hf0 & Hid). eauto.
Qed.

Lemma adjusted_same o o' s : objs_same o o' -> adjusted o' s = adjusted o s.
Proof.
  intros H. unfold adjusted. destruct (s_op s); try done; destruct (s_vals s) as [|x [|y [|z [|t l]]]]; try done;
    by rewrite (slot_of_val_same o o' _ H).
Qed.

Lemma instr_same o o' f s w : objs_same o o' -> instr_of o' f s w -> instr_of o f s w.
Proof.
  intros H. unfold instr_of. rewrite (adjusted_same o o' s H). destruct (doc_types (s_op s)) as [[ta tb] tcd].
  destruct (adjusted o s) as [|va [|vb [|vc [|x l]]]]; try done.
  - intros (a & d & Ha & Hd & Hw). exists a, d. split; [by eapply operand_same|]. split; [by eapply operand_same|done].
  - intros (a & b & c & Ha & Hb & Hc & Hw). exists a, b, c.
    split; [by eapply operand_same|]. split; [by eapply operand_same|]. split; [by eapply operand_same|done].
Qed.

Lemma adjust_vals_inv f s a vals a' :
  adjust_vals f s a = Some (vals, a') -> a' = a /\ vals = adjusted (as_objs a) s.
Proof using Laws.
  unfold adjust_vals, adjusted. pose proof (types_doc OP_CAT ltac:(done)) as Hc. pose proof (types_doc OP_KNIL ltac:(done)) as Hk.
  injection Hc as _ <- _. injection Hk as <- _ _. intros H.
  destruct (s_op s) eqn:Eop; try (injection H as <- <-; done);
    destruct (s_vals s) as [|x [|y [|z [|t l]]]]; try done; try (injection H as <- <-; done).
  - step H. simpl in E. apply slot_value_inv in E as [-> ->]. by injection H as <- <-.
  - step H. simpl in E. apply slot_value_inv in E as [-> ->]. by injection H as <- <-.
Qed.

(** The function on top of the composer's stack, with its code. *)
Definition open_code (c : JitComposer) (i : nat) (code : list Z) : Prop :=
  top c = Some i /\ exists f, d_funcs (d_bc c) !! i = Some f /\ d_byteCodes f = code.

Lemma open_code_bc c c' i code : d_bc c' = d_bc c -> open_code c i code -> open_code c' i code.
Proof. unfold open_code, top. by intros ->. Qed.

Lemma comp_inv {A} (m : SM JitComposer A) a r a' :
  comp m a = Some (r, a') -> exists c, m (d_comp a) = Some (r, c) /\ a' = set_comp c a.
Proof. unfold comp. destruct (m (d_comp a)) as [[x c]|]; [intros [= -> <-]; eauto|done]. Qed.

(** An instruction that the composer does not refuse. *)
Lemma addOp_open op a b cd line c i code r c' :
  op <> OP_INVALID -> 0 <= a < 2 ^ 8 -> 0 <= b < 2 ^ 8 -> 0 <= cd < 2 ^ 16 ->
  (formatFromOp (Op_val op) = ABC -> cd < 256) ->
  open_code c i code -> addOpImp op a b cd line c = Some (r, c') ->
  exists w, open_code c' i (code ++ [w]) /\ decodes w op a b cd.
Proof using Laws.
  intros Ho Ha Hb Hc Hfmt (Ht & f & Hf & <-) H. apply addOp_inv in H as [(_ & _ & [H|H])|(_ & w & He & Happ)].
  - congruence.
  - unfold encode in H. destruct (formatFromOp (Op_val op)); [|done].
    destruct (Z.ltb_spec 255 cd); [|done]. specialize (Hfmt eq_refl). lia.
  - exists w. split; [|by apply encode_decodes]. destruct Happ as (j & g & g' & Ht' & Hg & Hg' & Hcode & Hs).
    assert (j = i) as -> by congruence. assert (g = f) as -> by congruence.
    split; [unfold top; rewrite Hs; exact Ht|]. eauto.
Qed.

(** One statement with two or three values. *)
Lemma emit_inv f s a u a' i code :
  s_op s <> OP_INVALID -> open_code (d_comp a) i code -> emit f s a = Some (Some u, a') ->
  objs_same (as_objs a) (as_objs a') /\
  exists w, open_code (d_comp a') i (code ++ [w]) /\ instr_of (as_objs a) f s w.
Proof using Laws.
  intros Ho Hopen H. unfold emit in H. step H. apply adjust_vals_inv in E as [-> ->].
  unfold instr_of. rewrite (types_doc (s_op s) Ho).
  destruct (formatFromOp (Op_val (s_op s))) eqn:Ef;
    destruct (adjusted (as_objs a) s) as [|va [|vb [|vc [|vd l]]]]; try done.
  - step H. apply toValue_inv in E as [Q1 Ha]. step H. apply toValue_inv in E as [Q2 Hb].
    step H. apply toValue_inv in E as [Q3 Hc].
    destruct ((x <? 0) || (x0 <? 0) || (x1 <? 0)) eqn:Eneg; [done|].
    apply orb_false_iff in Eneg as [Eneg E3]. apply orb_false_iff in Eneg as [E1 E2].
    apply Z.ltb_ge in E1, E2, E3. step H. injection H as _ <-. apply comp_inv in E as (c & E & ->).
    pose proof (quiet_trans _ _ _ (quiet_trans _ _ _ Q1 Q2) Q3) as [Hsame Hbc]. split; [exact Hsame|].
    unfold addAbc in E. destruct ((0 <=? x1) && (x1 <=? 255)) eqn:Er; [|done].
    apply andb_true_iff in Er as [_ Er]. apply Z.leb_le in Er.
    destruct (addOp_open (s_op s) (u8 x) (u8 x0) x1 _ _ i code _ _ Ho (u8_range x) (u8_range x0) ltac:(lia) ltac:(lia)
      (open_code_bc _ _ _ _ Hbc Hopen) E) as (w & Hw & Hd).
    exists w. split; [exact Hw|]. exists x, x0, x1. split; [by apply Ha|].
    split; [by eapply operand_same; [apply Q1|apply Hb]|]. split; [|split; [done|split; [done|split; [lia|done]]]].
    eapply operand_same; [apply (quiet_trans _ _ _ Q1 Q2)|by apply Hc].
  - step H. apply toValue_inv in E as [Q1 Ha]. step H. apply toValue_inv in E as [Q2 Hd].
    destruct ((x <? 0) || (x0 <? 0)) eqn:Eneg; [done|]. apply orb_false_iff in Eneg as [E1 E2].
    apply Z.ltb_ge in E1, E2. step H. injection H as _ <-. apply comp_inv in E as (c & E & ->).
    pose proof (quiet_trans _ _ _ Q1 Q2) as [Hsame Hbc]. split; [exact Hsame|].
    unfold addAd in E. destruct ((0 <=? x0) && (x0 <=? 0xffff)) eqn:Er; [|done].
    apply andb_true_iff in Er as [_ Er]. apply Z.leb_le in Er.
    destruct (addOp_open (s_op s) (u8 x) 0 x0 _ _ i code _ _ Ho (u8_range x) ltac:(lia) ltac:(lia) ltac:(congruence)
      (open_code_bc _ _ _ _ Hbc Hopen) E) as (w & Hw & Hdec).
    exists w. split; [exact Hw|]. exists x, x0. split; [by apply Ha|]. split; [|split; [done|split; [lia|done]]].
    by eapply operand_same; [apply Q1|apply Hd].
Qed.

Lemma emit_all_inv f stmts a u a' i code :
  Forall (fun s => s_op s <> OP_INVALID) stmts -> open_code (d_comp a) i code ->
  emit_all f stmts a = Some (Some u, a') ->
  exists ws, open_code (d_comp a') i (code ++ ws) /\ Forall2 (instr_of (as_objs a) f) stmts ws.
Proof using Laws.
  intros Ho. revert a code. induction Ho as [|s stmts Hs Ho IH]; intros a code Hopen H; simpl in H.
  - injection H as _ <-. exists []. by rewrite app_nil_r.
  - step H. destruct (emit_inv f s a x a1 i code Hs Hopen E) as (Hsame & w & Hw & Hi).
    destruct (IH a1 _ Hw H) as (ws & Hws & Hall). exists (w :: ws). split; [by rewrite <- app_assoc in Hws|].
    constructor; [done|]. eapply Forall2_impl; [exact Hall|]. intros s' w'. by apply instr_same.
Qed.

Lemma upvals_loop_quiet outer l a us a' : upvals_loop outer l a = Some (us, a') -> quiet a a'.
Proof.
  revert a us a'. induction l as [|v l IH]; intros a us a' H; cbn [upvals_loop] in H; [injection H as _ <-; apply quiet_refl|].
  step H. step H. step H. step H. step H. injection H as _ <-. eapply quiet_trans; [|by eapply IH].
  case_bool_decide; [injection E2 as _ <-; apply quiet_refl|]. step E2. injection E2 as _ <-. by eapply resolveUpval_quiet.
Qed.

Lemma names_loop_state l res a r a' : names_loop l res a = Some (r, a') -> a' = a.
Proof.
  revert res. induction l as [|[k n] l IH]; intros res H; simpl in H; [by injection H as _ <-|].
  step H. destruct x as [c|v|g]; try (by eapply IH). destruct (isUnused v); [by eapply IH|].
  step H. step H. by eapply IH.
Qed.

(** The names that the composer gets for the debug information. *)
Lemma names_open c i code g :
  (forall f, d_byteCodes (g f) = d_byteCodes f) -> open_code c i code -> open_code (mod_fn c i g) i code.
Proof.
  intros Hg (Ht & f & Hf & <-). split; [exact Ht|]. exists (g f). simpl. by rewrite list_lookup_alter_eq, Hf.
Qed.

Lemma setUpvals_open l c u c' i code : open_code c i code -> setUpvals l c = Some (u, c') -> open_code c' i code.
Proof.
  unfold setUpvals. intros Hopen. pose proof Hopen as [-> _]. intros [= _ <-]. by apply names_open.
Qed.

Lemma setVarNames_open l c u c' i code : open_code c i code -> setVarNames l c = Some (u, c') -> open_code c' i code.
Proof.
  unfold setVarNames. intros Hopen. pose proof Hopen as [-> _]. intros [= _ <-]. apply names_open; [done|].
  destruct Hopen as (Ht & f & Hf & Hc). unfold open_code, top. rewrite warn_funcs, warn_fstack. split; [exact Ht|eauto].
Qed.

Lemma generated f stmts a a' i code :
  Forall (fun s => s_op s <> OP_INVALID) stmts -> open_code (d_comp a) i code ->
  generateCode f stmts a = Some (Some tt, a') ->
  exists ws, open_code (d_comp a') i (code ++ ws) /\ Forall2 (instr_of (as_objs a) f) stmts ws.
Proof using Laws.
  intros Ho Hopen H. unfold generateCode in H.
  step H. unfold getUpvals in E. step E. apply upvals_loop_quiet in E as [Hsame Hbc].
  step H. apply comp_inv in E as (c1 & E & ->). step H. unfold getVarNames in E1. step E1. step E1. apply names_loop_state in E1 as ->.
  step H. apply comp_inv in E1 as (c2 & E1 & ->).
  assert (Hopen2 : open_code c2 i code).
  { eapply setVarNames_open; [|exact E1]. eapply setUpvals_open; [|exact E]. by eapply open_code_bc. }
  destruct (emit_all_inv f stmts (set_comp c2 (set_comp c1 a1)) tt a' i code Ho Hopen2 H) as (ws & Hws & Hall).
  exists ws. split; [done|]. eapply Forall2_impl; [exact Hall|]. intros s w. by apply instr_same.
Qed.

End Code.
