(* ===== verification/AsmDisasm.v ===== *)
(** * What the assembler makes is disassembled to the same statement

    The assembler and the composer turn counts of results, arguments and slots into the
    operands of instructions, [adaptToLjasm] turns them back.  The instruction of a
    statement gives its mnemonic and its operands again. *)

From S2P Require Import Prelude Double Bytecode QtLib BytecodeIO SlotPool LinearScan Composer Disasm.
From S2P Require Import LjasToken LjasTree Assembler AsmStat AsmAlloc AsmGen AsmSpec AsmCode.
From Stdlib Require Import Strings.Byte.
Local Open Scope Z_scope.

(** The numbers of the operands that a disassembled instruction shows. *)
Definition shown (i : Instruction) : list Z :=
  (if bool_decide (d_ta i = Unused) then [] else [d_a i]) ++
  (if bool_decide (d_tb i = Unused) then [] else [d_b i]) ++
  (if bool_decide (d_tcd i = Unused) then [] else [getCd i]).

Definition is_slot_type (t : FieldType) : bool :=
  match t with _var | _dst | _rbase | _base => true | _ => false end.
(** The operations on two and on three variables. *)
Definition slots2 (op : Op) : bool :=
  match op with
  | OP_MOV | OP_NOT | OP_UNM | OP_LEN | OP_ISLT | OP_ISGE | OP_ISLE | OP_ISGT | OP_ISTC | OP_ISFC | OP_ISEQV
  | OP_ISNEV => true
  | _ => false
  end.
Definition slots3 (op : Op) : bool :=
  match op with
  | OP_ADDVV | OP_SUBVV | OP_MULVV | OP_DIVVV | OP_MODVV | OP_POW | OP_TGETV | OP_TSETV => true
  | _ => false
  end.

Section Disassembled.
Context `{Q : QtLib} `{L : LjBc} `{Laws : !LjBcLaws L} `{AL : AsmLib} `{Srt : StdSort}.

(** The operands of a statement as they stand in the text, without the counts that may be
    left out; the counts are those that a function can have. *)
Inductive states (objs : list Named) (s : Stmt) : list Z -> Prop :=
  | states_slots2 x y : slots2 (s_op s) = true -> s_vals s = [x; y] ->
      states objs s [slot_of_val objs x; slot_of_val objs y]
  | states_slots3 x y z : slots3 (s_op s) = true -> s_vals s = [x; y; z] ->
      states objs s [slot_of_val objs x; slot_of_val objs y; slot_of_val objs z]
  | states_call v r n : s_op s = OP_CALL -> s_vals s = [v; AV (QInt r); AV (QInt n)] ->
      0 <= r <= max_slots -> 0 <= n <= max_slots ->
      states objs s (slot_of_val objs v :: if (r =? 0) && (n =? 0) then [] else r :: if n =? 0 then [] else [n])
  | states_count v n : s_op s = OP_CALLT \/ s_op s = OP_RET -> s_vals s = [v; AV (QInt n)] -> 0 <= n <= max_slots ->
      states objs s [slot_of_val objs v; n]
  | states_ret0 v n : s_op s = OP_RET0 -> s_vals s = [v; n] -> states objs s []
  | states_ret1 v n : s_op s = OP_RET1 -> s_vals s = [v; n] -> states objs s [slot_of_val objs v]
  | states_cat d v n : s_op s = OP_CAT -> s_vals s = [d; v; AV (QInt n)] -> 1 <= n <= max_slots ->
      states objs s (slot_of_val objs d :: slot_of_val objs v :: if n =? 1 then [] else [n])
  | states_knil v n : s_op s = OP_KNIL -> s_vals s = [v; AV (QInt n)] -> 1 <= n <= max_slots ->
      states objs s (slot_of_val objs v :: if n =? 1 then [] else [n])
  | states_tnew v z : s_op s = OP_TNEW -> s_vals s = [v; AV (QInt z)] ->
      let n := z mod 2 ^ 11 in let h := z / 2 ^ 11 in
      states objs s (slot_of_val objs v :: if (n =? 0) && (h =? 0) then [] else n :: if h =? 0 then [] else [h]).

(** Slots have 8 bits. *)
Definition small_slots (objs : list Named) : Prop :=
  Forall (fun n => match n with NVar x => 0 <= v_slot x < 2 ^ 8 | _ => True end) objs.

Lemma slot_small objs v : small_slots objs -> slot_of_val objs v < 2 ^ 8.
Proof.
  intros H. unfold slot_of_val, max_slots.
  assert (Hn : (if val_isNumber v then if (val_toInt v <? 0) || (250 <? val_toInt v) then -1 else val_toInt v else -1) < 2 ^ 8).
  { destruct (val_isNumber v); [|lia]. destruct (_ || _) eqn:E; [lia|]. apply orb_false_iff in E as []. lia. }
  destruct v as [q|n|st]; [done| |done]. destruct (objs !! n) as [[| x |]|] eqn:E; try lia. apply (Forall_lookup_1 _ _ _ _ H) in E. simpl in E. lia.
Qed.

Lemma slot_u8 objs v z : small_slots objs -> z = slot_of_val objs v -> 0 <= z -> u8 z = slot_of_val objs v.
Proof. intros H -> Hz. apply u8_small. pose proof (slot_small objs v H). lia. Qed.

(** The operation is recognised, and the operands are those that were encoded. *)
Lemma decoded w op a b cd :
  decodes w op a b cd ->
  exists i, adaptToLjasm (dissectInstruction w) = Some (fst (adapt_operands op i), ljasm_op op, snd (adapt_operands op i)) /\
    (d_ta i, d_tb i, d_tcd i) = doc_types op /\
    d_a i = operand (fst (fst (doc_types op))) a /\ d_b i = operand (snd (fst (doc_types op))) b /\
    d_cd i = operand (snd (doc_types op)) cd.
Proof.
  intros (_ & Hop & Ht & Ha & Hb & Hcd). exists (dissectInstruction w). split; [|done].
  unfold adaptToLjasm. rewrite Hop, Op_of_val. simpl. by destruct (adapt_operands op (dissectInstruction w)).
Qed.

(** The instruction of a statement with two or three values, its operands as numbers. *)
Lemma two_operands objs f s w va vd ta tcd :
  instr_of objs f s w -> adjusted objs s = [va; vd] -> doc_types (s_op s) = (ta, Unused, tcd) ->
  exists a d nm o, operand_is objs f ta va a /\ operand_is objs f tcd vd d /\ 0 <= a /\ 0 <= d < 2 ^ 16 /\
    let i := {| d_name := nm; d_a := operand ta (u8 a); d_b := 0; d_cd := operand tcd d;
                d_ta := ta; d_tb := Unused; d_tcd := tcd; d_op := o |} in
    adaptToLjasm (dissectInstruction w) = Some (fst (adapt_operands (s_op s) i), ljasm_op (s_op s), snd (adapt_operands (s_op s) i)).
Proof.
  unfold instr_of. intros H Hadj Ht. rewrite Ht, Hadj in H. destruct H as (a & d & Ha & Hd & Hp & Hr & H).
  apply decoded in H as (i & H & Hi). rewrite Ht in Hi. destruct Hi as (Ht' & Ha' & Hb' & Hd').
  exists a, d, (d_name i), (d_op i). destruct i. simpl in *. injection Ht' as -> -> ->. subst. done.
Qed.

Lemma three_operands objs f s w va vb vc ta tb tcd :
  instr_of objs f s w -> adjusted objs s = [va; vb; vc] -> doc_types (s_op s) = (ta, tb, tcd) ->
  exists a b c nm o, operand_is objs f ta va a /\ operand_is objs f tb vb b /\ operand_is objs f tcd vc c /\
    0 <= a /\ 0 <= b /\ 0 <= c < 2 ^ 8 /\
    let i := {| d_name := nm; d_a := operand ta (u8 a); d_b := operand tb (u8 b); d_cd := operand tcd c;
                d_ta := ta; d_tb := tb; d_tcd := tcd; d_op := o |} in
    adaptToLjasm (dissectInstruction w) = Some (fst (adapt_operands (s_op s) i), ljasm_op (s_op s), snd (adapt_operands (s_op s) i)).
Proof.
  unfold instr_of. intros H Hadj Ht. rewrite Ht, Hadj in H. destruct H as (a & b & c & Ha & Hb & Hc & Hp & Hp' & Hr & H).
  apply decoded in H as (i & H & Hi). rewrite Ht in Hi. destruct Hi as (Ht' & Ha' & Hb' & Hd').
  exists a, b, c, (d_name i), (d_op i). destruct i. simpl in *. injection Ht' as -> -> ->. subst. eauto 10.
Qed.

(** The values that the assembler makes of counts. *)
Lemma succ_count n z : 0 <= n <= max_slots -> z = val_toInt (succ_val (AV (QInt n))) \/ z = u16 (val_toInt (succ_val (AV (QInt n)))) -> z = n + 1.
Proof.
  unfold max_slots, succ_val. simpl. intros Hn H.
  assert (E : s32 (u32 (u32 n + 1)) = n + 1) by (rewrite (u32_small n), u32_small by lia; width).
  rewrite E in H. destruct H as [H|H]; [done|]. rewrite u16_small in H; lia.
Qed.

Lemma last_slot objs v x n z :
  x = slot_of_val objs v -> 0 <= x < 2 ^ 8 -> 1 <= n <= max_slots -> 0 <= z ->
  z = slot_of_val objs (AV (QInt (s32 (slot_of_val objs v + s32 (val_toUInt (AV (QInt n))) - 1)))) ->
  z = x + n - 1.
Proof.
  unfold max_slots. intros -> Hx Hn Hz. change (val_toUInt (AV (QInt n))) with (u32 n).
  set (x := slot_of_val objs v) in *. unfold slot_of_val, max_slots. simpl.
  rewrite (u32_small n) by lia. assert (s32 (x + s32 n - 1) = x + n - 1) as -> by width.
  destruct (_ || _); lia.
Qed.

(** Slots are shown as they are. *)
Lemma slot_operand objs f t v z :
  is_slot_type t = true -> small_slots objs -> operand_is objs f t v z -> 0 <= z ->
  operand t (u8 z) = slot_of_val objs v /\ operand t z = slot_of_val objs v /\ bool_decide (t = Unused) = false /\
  0 <= z < 2 ^ 8.
Proof.
  intros Ht Hs Hz Hp. pose proof (slot_small objs v Hs). unfold operand.
  destruct t; try discriminate Ht; simpl in *; subst z; rewrite u8_small by lia; done.
Qed.

Lemma getCd_slot i : is_slot_type (d_tcd i) = true -> getCd i = d_cd i.
Proof. unfold getCd. by destruct (d_tcd i). Qed.

Lemma slots2_types op : slots2 op = true ->
  exists ta tcd, doc_types op = (ta, Unused, tcd) /\ is_slot_type ta = true /\ is_slot_type tcd = true /\
    (forall i, adapt_operands op i = (i, [])) /\ (forall objs s, s_op s = op -> adjusted objs s = s_vals s).
Proof.
  intros H. destruct op; try discriminate H; do 2 eexists; (split; [vm_compute; reflexivity|]); repeat split;
    intros objs [? ? ? ?]; simpl; by intros ->.
Qed.
Lemma slots3_types op : slots3 op = true ->
  exists ta tb tcd, doc_types op = (ta, tb, tcd) /\ is_slot_type ta = true /\ is_slot_type tb = true /\
    is_slot_type tcd = true /\
    (forall i, adapt_operands op i = (i, [])) /\ (forall objs s, s_op s = op -> adjusted objs s = s_vals s).
Proof.
  intros H. destruct op; try discriminate H; do 3 eexists; (split; [vm_compute; reflexivity|]); repeat split;
    intros objs [? ? ? ?]; simpl; by intros ->.
Qed.

Definition shows (w : Z) (op : Op) (l : list Z) : Prop :=
  exists i, adaptToLjasm (dissectInstruction w) = Some (i, ljasm_op op, []) /\ shown i = l.

Lemma slots2_shown objs f s w x y :
  small_slots objs -> instr_of objs f s w -> slots2 (s_op s) = true -> s_vals s = [x; y] ->
  shows w (s_op s) [slot_of_val objs x; slot_of_val objs y].
Proof.
  intros Hs H Ho Hv. destruct (slots2_types _ Ho) as (ta & tcd & Ht & Ha & Hcd & Hop & Hadj).
  rewrite <- (Hadj objs s eq_refl) in Hv.
  destruct (two_operands _ _ _ _ _ _ _ _ H Hv Ht) as (a & d & nm & o & Ea & Ed & Hpa & [Hpd _] & Hw).
  cbv zeta in Hw. rewrite Hop in Hw. eexists. split; [exact Hw|].
  destruct (slot_operand _ _ _ _ _ Ha Hs Ea Hpa) as (E1 & _ & N1 & _).
  destruct (slot_operand _ _ _ _ _ Hcd Hs Ed Hpd) as (_ & E2 & N2 & _).
  unfold shown. rewrite getCd_slot by done. simpl. by rewrite N1, N2, E1, E2.
Qed.

Lemma slots3_shown objs f s w x y z :
  small_slots objs -> instr_of objs f s w -> slots3 (s_op s) = true -> s_vals s = [x; y; z] ->
  shows w (s_op s) [slot_of_val objs x; slot_of_val objs y; slot_of_val objs z].
Proof.
  intros Hs H Ho Hv. destruct (slots3_types _ Ho) as (ta & tb & tcd & Ht & Ha & Hb & Hcd & Hop & Hadj).
  rewrite <- (Hadj objs s eq_refl) in Hv.
  destruct (three_operands _ _ _ _ _ _ _ _ _ _ H Hv Ht) as (a & b & c & nm & o & Ea & Eb & Ec & Hpa & Hpb & [Hpc _] & Hw).
  cbv zeta in Hw. rewrite Hop in Hw. eexists. split; [exact Hw|].
  destruct (slot_operand _ _ _ _ _ Ha Hs Ea Hpa) as (E1 & _ & N1 & _).
  destruct (slot_operand _ _ _ _ _ Hb Hs Eb Hpb) as (E2 & _ & N2 & _).
  destruct (slot_operand _ _ _ _ _ Hcd Hs Ec Hpc) as (_ & E3 & N3 & _).
  unfold shown. rewrite getCd_slot by done. simpl. by rewrite N1, N2, N3, E1, E2, E3.
Qed.

Ltac shown_operands :=
  match goal with Hw : adaptToLjasm _ = _ |- _ => simpl in Hw; eexists; (split; [exact Hw|]) end; unfold shown, getCd, with_cd, with_ops, call_ops, operand; simpl.

Lemma call_shown objs f s w v r n :
  small_slots objs -> instr_of objs f s w -> s_op s = OP_CALL -> s_vals s = [v; AV (QInt r); AV (QInt n)] ->
  0 <= r <= max_slots -> 0 <= n <= max_slots ->
  shows w OP_CALL (slot_of_val objs v :: if (r =? 0) && (n =? 0) then [] else r :: if n =? 0 then [] else [n]).
Proof.
  intros Hs H Ho Hv Hr Hn.
  destruct (three_operands objs f s w v (succ_val (AV (QInt r))) (succ_val (AV (QInt n))) _base _lit _lit H)
    as (a & b & c & nm & o & Ea & Eb & Ec & Hpa & Hpb & Hpc & Hw).
  { unfold adjusted. by rewrite Ho, Hv. }
  { by rewrite Ho. }
  destruct (slot_operand objs f _base v a eq_refl Hs Ea Hpa) as (E1 & _ & _ & _).
  destruct Eb as [_ Eb], Ec as [_ Ec]. rewrite (succ_count r b Hr (or_introl Eb)) in Hw. rewrite (succ_count n c Hn (or_introl Ec)) in Hw.
  unfold max_slots in *. rewrite Ho, E1 in Hw. unfold operand in Hw. simpl in Hw.
  rewrite (u8_small (r + 1)), (u16_small (n + 1 - 1)) in Hw by lia.
  replace (1 <=? r + 1) with true in Hw by lia. simpl in Hw.
  replace (r + 1 - 1) with r in Hw by lia. replace (n + 1 - 1) with n in Hw by lia.
  shown_operands. rewrite !u16_small by lia. by destruct (Z.eqb_spec n 0), (Z.eqb_spec r 0).
Qed.

Lemma count_shown objs f s w v n ta :
  small_slots objs -> instr_of objs f s w -> doc_types (s_op s) = (ta, Unused, _lit) -> is_slot_type ta = true ->
  adjusted objs s = [v; succ_val (AV (QInt n))] ->
  (forall i, adapt_operands (s_op s) i = (with_cd (d_cd i - 1) i, [])) ->
  0 <= n <= max_slots -> shows w (s_op s) [slot_of_val objs v; n].
Proof.
  intros Hs H Ht Hta Hadj Hop Hn.
  destruct (two_operands _ _ _ _ _ _ _ _ H Hadj Ht) as (a & d & nm & o & Ea & [_ Ed] & Hpa & _ & Hw).
  destruct (slot_operand _ _ _ _ _ Hta Hs Ea Hpa) as (E1 & _ & N1 & _).
  cbv zeta in Hw. rewrite (succ_count n d Hn (or_introl Ed)), Hop, E1 in Hw. unfold max_slots in *.
  shown_operands. rewrite N1. simpl. rewrite u16_small by lia. repeat f_equal. lia.
Qed.

(** The number of slots of [CAT] and [KNIL] from the first and the last of them. *)
Lemma cat_shown objs f s w d v n :
  small_slots objs -> instr_of objs f s w -> s_op s = OP_CAT -> s_vals s = [d; v; AV (QInt n)] ->
  1 <= n <= max_slots ->
  shows w OP_CAT (slot_of_val objs d :: slot_of_val objs v :: if n =? 1 then [] else [n]).
Proof.
  intros Hs H Ho Hv Hn.
  destruct (three_operands objs f s w d v (AV (QInt (s32 (slot_of_val objs v + s32 (val_toUInt (AV (QInt n))) - 1)))) _dst _rbase _rbase H)
    as (a & b & c & nm & o & Ea & Eb & Ec & Hpa & Hpb & Hpc & Hw).
  { unfold adjusted. by rewrite Ho, Hv. }
  { by rewrite Ho. }
  destruct (slot_operand objs f _dst d a eq_refl Hs Ea Hpa) as (E1 & _ & _ & _).
  destruct (slot_operand objs f _rbase v b eq_refl Hs Eb Hpb) as (E2 & E2' & _ & Hb).
  apply (last_slot _ _ _ _ _ Eb Hb Hn) in Ec; [|lia].
  rewrite Ho in Hw. cbv zeta in Hw.
  rewrite E1, E2, Ec in Hw. unfold max_slots in *.
  shown_operands. change (b = slot_of_val objs v) in Eb. rewrite <- Eb.
  replace (b + n - 1 - b + 1) with n by lia. rewrite !u16_small by (rewrite ?u16_small; lia).
  by destruct (Z.eqb_spec n 1).
Qed.

Lemma knil_shown objs f s w v n :
  small_slots objs -> instr_of objs f s w -> s_op s = OP_KNIL -> s_vals s = [v; AV (QInt n)] ->
  1 <= n <= max_slots ->
  shows w OP_KNIL (slot_of_val objs v :: if n =? 1 then [] else [n]).
Proof.
  intros Hs H Ho Hv Hn.
  destruct (two_operands objs f s w v (AV (QInt (s32 (slot_of_val objs v + s32 (val_toUInt (AV (QInt n))) - 1)))) _base _base H)
    as (a & d & nm & o & Ea & Ed & Hpa & Hpd & Hw).
  { unfold adjusted. by rewrite Ho, Hv. }
  { by rewrite Ho. }
  destruct (slot_operand objs f _base v a eq_refl Hs Ea Hpa) as (E1 & E1' & _ & Ha).
  apply (last_slot _ _ _ _ _ Ea Ha Hn) in Ed; [|lia].
  rewrite Ho in Hw. cbv zeta in Hw.
  rewrite E1, Ed in Hw. unfold max_slots in *.
  shown_operands. change (a = slot_of_val objs v) in Ea. rewrite <- Ea.
  replace (a + n - 1 - a + 1) with n by lia. rewrite !u16_small by (rewrite ?u16_small; lia).
  by destruct (Z.eqb_spec n 1).
Qed.

Lemma tnew_shown objs f s w v z :
  small_slots objs -> instr_of objs f s w -> s_op s = OP_TNEW -> s_vals s = [v; AV (QInt z)] ->
  shows w OP_TNEW (slot_of_val objs v :: if (z mod 2 ^ 11 =? 0) && (z / 2 ^ 11 =? 0) then []
                                        else z mod 2 ^ 11 :: if z / 2 ^ 11 =? 0 then [] else [z / 2 ^ 11]).
Proof.
  intros Hs H Ho Hv.
  destruct (two_operands objs f s w v (AV (QInt z)) _dst _lit H)
    as (a & d & nm & o & Ea & Ed & Hpa & Hpd & Hw).
  { unfold adjusted. by rewrite Ho, Hv. }
  { by rewrite Ho. }
  destruct (slot_operand objs f _dst v a eq_refl Hs Ea Hpa) as (E1 & _ & _ & _).
  destruct Ed as [_ Ed]. simpl in Ed. subst d. rewrite Ho in Hw. cbv zeta in Hw. rewrite E1 in Hw.
  change (operand _lit z) with z in Hw. cbn [adapt_operands fst snd d_cd d_ta] in Hw.
  change 0x7ff with (Z.ones 11) in Hw. rewrite Z.land_ones, Z.shiftr_div_pow2 in Hw by lia.
  shown_operands. rewrite !u16_small by (Z.to_euclidean_division_equations; lia).
  rewrite andb_comm. by destruct (Z.eqb_spec (z mod 2 ^ 11) 0), (Z.eqb_spec (z / 2 ^ 11) 0).
Qed.

Lemma ret_shown objs f s w v n (b : bool) ta :
  small_slots objs -> instr_of objs f s w -> s_vals s = [v; n] -> doc_types (s_op s) = (ta, Unused, _lit) ->
  is_slot_type ta = true -> adjusted objs s = [v; succ_val n] ->
  (forall i, adapt_operands (s_op s) i =
     (with_ops (d_b i) (d_cd i) (if b then d_ta i else Unused) (d_tb i) Unused i, [])) ->
  shows w (s_op s) (if b then [slot_of_val objs v] else []).
Proof.
  intros Hs H Hv Ht Hta Hadj Hop.
  destruct (two_operands _ _ _ _ _ _ _ _ H Hadj Ht) as (a & d & nm & o & Ea & _ & Hpa & _ & Hw).
  destruct (slot_operand _ _ _ _ _ Hta Hs Ea Hpa) as (E1 & _ & N1 & _).
  cbv zeta in Hw. rewrite Hop, E1 in Hw. eexists. split; [exact Hw|]. unfold shown. simpl.
  destruct b; [by rewrite N1|done].
Qed.

Lemma states_shown objs f s w l :
  small_slots objs -> instr_of objs f s w -> states objs s l -> shows w (s_op s) l.
Proof.
  intros Hsm Hi [x y Ho Hv|x y z Ho Hv|v r n Ho Hv Hr Hn|v n Ho Hv Hn|v n Ho Hv|v n Ho Hv|d v n Ho Hv Hn|v n Ho Hv Hn|v z Ho Hv].
  - by eapply slots2_shown.
  - by eapply slots3_shown.
  - rewrite Ho. by eapply call_shown.
  - destruct Ho as [Ho|Ho]; (eapply (count_shown objs f); [done|done|by rewrite Ho|done|unfold adjusted; by rewrite Ho, Hv|by rewrite Ho|done]).
  - apply (ret_shown objs f s w v n false _rbase); try (done || by rewrite Ho). unfold adjusted. by rewrite Ho, Hv.
  - apply (ret_shown objs f s w v n true _rbase); try (done || by rewrite Ho). unfold adjusted. by rewrite Ho, Hv.
  - rewrite Ho. by eapply cat_shown.
  - rewrite Ho. by eapply knil_shown.
  - rewrite Ho. by eapply tnew_shown.
Qed.

(** [C20] What [generateCode] adds to the code of a function is disassembled to its
    statements again: in order, [adaptToLjasm] takes the instruction of a call, a return, a
    concatenation, a [KNIL], a new table, or an operation on two or three variables for the
    operation of the statement, without a warning, and its operands that are shown are the
    ones that the statement has, with the numbers of results, arguments and slots that
    encoding changed, and without the ones that may be left out. *)
Theorem disassembled f stmts a a' i code :
  Forall (fun s => s_op s <> OP_INVALID) stmts -> open_code (d_comp a) i code -> small_slots (as_objs a) ->
  generateCode f stmts a = Some (Some tt, a') ->
  exists ws, open_code (d_comp a') i (code ++ ws) /\
    Forall2 (fun s w => forall l, states (as_objs a) s l -> shows w (s_op s) l) stmts ws.
Proof using Laws.
  intros Ho Hopen Hs H. destruct (generated f stmts a a' i code Ho Hopen H) as (ws & Hws & Hall).
  exists ws. split; [done|]. eapply Forall2_impl; [exact Hall|]. intros s w Hi l. by eapply states_shown.
Qed.
End Disassembled.
