(* ===== verification/AsmExample.v ===== *)
(** * The assembler: examples

    Small programs as syntax trees, the theorems on them, and programs that the assembler
    gets wrong. *)

From S2P Require Import Prelude LexCore Double Bytecode QtLib BytecodeIO SlotPool LinearScan Composer LjasToken SyntaxTree LjasTree Assembler AsmStat AsmAlloc AsmGen AsmSpec AsmUpvals AsmCode.
From S2P Require Import Disasm AsmDisasm.
From Stdlib Require Import Strings.Byte.
Local Open Scope Z_scope.
Local Open Scope rd_scope.

(** ** Syntax trees *)

Definition Asm_example : AsmLib := {| text_toDouble s := option_map dbl_of_Z (decimal_text s) |}.
#[local] Existing Instances Qt_example LuaJIT20 sort_example Asm_example.

Definition leaf (t : TokenType) (s : bytes) : SynTree := Node (new_Token (Tk t) 1 1 (Z.of_nat (length s)) s) [].
Definition rn (r : ParserRule) (l : list SynTree) : SynTree := rule_node r (new_Token (Tk Tok_Invalid) 1 1 0 []) l.
Definition vname (s : bytes) : SynTree := rn R_vname [leaf Tok_ident s].
Definition desig (s : bytes) : SynTree := rn R_desig [vname s].
Definition num (s : bytes) : SynTree := rn R_number [rn R_integer [leaf Tok_posint s]].
Definition lbl (s : bytes) : SynTree := rn R_label [leaf Tok_ident s].
Definition stat (r : ParserRule) (l : list SynTree) : SynTree := rn R_statement [rn r (leaf Tok_Invalid [] :: l)].
Definition label_def (s : bytes) : SynTree := rn R_labelDef [lbl s; leaf Tok_Colon []].
Definition var_ (s : bytes) : SynTree := rn R_var_decl [rn R_nameWithPreset [vname s]].
Definition record_ (l : list bytes) : SynTree :=
  rn R_record (leaf Tok_Lbrace [] :: map (fun s => rn R_nameWithPreset [vname s]) l ++ [leaf Tok_Rbrace []]).
Definition function_ (name : bytes) (params : list bytes) (vars funcs body : list SynTree) : SynTree :=
  rn R_function_decl [leaf Tok_function []; rn R_fname [leaf Tok_ident name];
    rn R_function_header ([leaf Tok_Lpar []; rn R_formal_params (map vname params); leaf Tok_Rpar [];
                           rn R_var_decls (leaf Tok_var [] :: vars)] ++ funcs);
    rn R_function_body (leaf Tok_begin [] :: body);
    leaf Tok_end []; rn R_fname [leaf Tok_ident name]].

Definition run (st : SynTree) : option (bool * Assembler) := process st [] new_Assembler.
(** The instructions of the functions as operations and operands. *)
Definition listing (r : option (bool * Assembler)) : list (list (Z * Z * Z * Z)) :=
  match r with
  | Some (_, a) =>
      map (fun f => map (fun w => let i := dissectInstruction w in (d_op i, d_a i, d_b i, getCd i)) (d_byteCodes f))
        (d_funcs (d_bc (d_comp a)))
  | None => []
  end.
Definition slots (r : option (bool * Assembler)) : list (bytes * Z) :=
  match r with
  | Some (_, a) => omap (fun n => match n with
      | NVar v => name ← v_name v; Some (st_val name, v_slot v) | _ => None end) (as_objs a)
  | None => []
  end.

(** A loop: [x] counts down to [y]. *)
Definition loop_prog : SynTree :=
  function_ (qb "Main") [] [var_ (qb "x"); var_ (qb "y")] []
    [stat R_KSET_ [desig (qb "x"); num (qb "7")]; stat R_KSET_ [desig (qb "y"); num (qb "2")];
     label_def (qb "L"); stat R_SUB_ [desig (qb "x"); desig (qb "x"); num (qb "1")];
     stat R_ISGT_ [desig (qb "x"); desig (qb "y")]; stat R_JMP_ [lbl (qb "L")];
     stat R_RET_ [desig (qb "x")]].

(** KSHORT x 7; KSHORT y 2; SUBVN x x 0; ISGT x y; JMP L; RET1 x. *)
Lemma loop_prog_code :
  listing (run loop_prog) =
    [[(Op_val OP_KSHORT, 0, 0, 7); (Op_val OP_KSHORT, 1, 0, 2); (Op_val OP_SUBVN, 0, 0, 0);
      (Op_val OP_ISGT, 0, 0, 1); (Op_val OP_JMP, 2, 0, -3); (Op_val OP_RET1, 0, 0, 2)]].
Proof. vm_compute. reflexivity. Qed.

Definition Dis_example : DisLib :=
  {| number_double d := decimal (default 0 (sf_trunc (to_sf d))); toLocal8Bit s := toUtf8 s |}.
#[local] Existing Instance Dis_example.

(** The text that the disassembler makes of the result. *)
Definition disassembled_text (st : SynTree) : option bytes :=
  match run st with
  | Some (_, a) => match disassemble (d_comp a) (d_bc (d_comp a)) [] false false with Some (_, t, _) => Some t | None => None end
  | None => None
  end.
Lemma loop_prog_text :
  disassembled_text loop_prog = Some (concat (map (fun l => l ++ [x0a]) [
     qb "-- disassembled from Lua source";
     [];
     qb "function F0() " ++ [x09] ++ qb "-- lines 0 to 0";
     [x09] ++ qb "var" ++ [x09] ++ qb "{ x y } ";
     [x09] ++ [x09] ++ qb "{ R0 R1 } ";
     qb "begin";
     [x09] ++ qb "KSET  x 7" ++ [x09] ++ [x09] ++ qb "-- 0:1";
     [x09] ++ qb "KSET  y 2";
     qb "__L2:";
     [x09] ++ qb "SUB  x x 1";
     [x09] ++ qb "ISGT  x y";
     [x09] ++ qb "JMP __L2";
     [x09] ++ qb "RET  x";
     qb "end F0";
     []])).
Proof. vm_compute. reflexivity. Qed.

(** ** Programs that go wrong *)

(** The number of slots of a function is taken from what the linear scan leaves in the
    pool, where the slots of variables that are not used any more are free again: here
    [z] has slot 1, but the function has only one slot, and [getVarNames] writes outside
    of its list. *)
Definition frame_prog : SynTree :=
  function_ (qb "Main") [] [var_ (qb "x"); var_ (qb "z"); var_ (qb "y")] []
    [stat R_KSET_ [desig (qb "x"); num (qb "1")]; stat R_KSET_ [desig (qb "z"); num (qb "2")];
     stat R_MOV_ [desig (qb "x"); desig (qb "z")]; stat R_KSET_ [desig (qb "y"); num (qb "3")];
     stat R_RET_ [desig (qb "y")]].
Lemma frame_too_small : run frame_prog = None.
Proof. vm_compute. reflexivity. Qed.

(** Inner functions are assembled before the variables of the outer one get their slots:
    both upvalues of the inner function stand for slot 0, although [b] has slot 1. *)
Definition upval_prog : SynTree :=
  function_ (qb "Main") [] [var_ (qb "a"); var_ (qb "b")]
    [function_ (qb "F") [] [var_ (qb "t")] []
       [stat R_UGET_ [desig (qb "t"); desig (qb "a")]; stat R_UGET_ [desig (qb "t"); desig (qb "b")]; stat R_RET_ []]]
    [stat R_KSET_ [desig (qb "a"); num (qb "1")]; stat R_RET_ []].
Lemma upvalues_before_slots :
  slots (run upval_prog) = [(qb "a", 0); (qb "b", 1); (qb "t", 0)] /\
  match run upval_prog with
  | Some (_, a) => map d_upvals (d_funcs (d_bc (d_comp a))) = [[]; [0xc000; 0xc000]]
  | None => False
  end.
Proof. split; vm_compute; reflexivity. Qed.

(** Records get their slots after the slots of variables that are not used at the end
    are free again: [z] and the record from [r] on are used at the same time, but [KNIL]
    overwrites [z]. *)
Definition record_prog : SynTree :=
  function_ (qb "Main") [] [var_ (qb "x"); var_ (qb "z"); var_ (qb "y"); record_ [qb "r"; qb "s"]] []
    [stat R_KSET_ [desig (qb "x"); num (qb "1")]; stat R_KSET_ [desig (qb "z"); num (qb "2")];
     stat R_KNIL_ [desig (qb "r"); num (qb "2")]; stat R_ADD_ [desig (qb "x"); desig (qb "x"); desig (qb "z")];
     stat R_KSET_ [desig (qb "y"); num (qb "3")]; stat R_MOV_ [desig (qb "s"); desig (qb "y")];
     stat R_RET_ [desig (qb "r"); num (qb "2")]].
Lemma record_shares_slot :
  slots (run record_prog) = [(qb "x", 0); (qb "z", 1); (qb "y", 0); (qb "r", 1); (qb "s", 2)].
Proof. vm_compute. reflexivity. Qed.

(** Ranges end at the last statement that names a variable, also when a jump leads back:
    [k] and [t] share a slot, and the test of [k] after the jump reads [t]. *)
Definition back_prog : SynTree :=
  function_ (qb "Main") [] [var_ (qb "k"); var_ (qb "t")] []
    [stat R_KSET_ [desig (qb "k"); num (qb "1")]; label_def (qb "L"); stat R_IST_ [desig (qb "k")];
     stat R_JMP_ [lbl (qb "E")]; stat R_KSET_ [desig (qb "t"); num (qb "5")]; stat R_IST_ [desig (qb "t")];
     stat R_JMP_ [lbl (qb "L")]; label_def (qb "E"); stat R_RET_ []].
Lemma loop_shares_slot : slots (run back_prog) = [(qb "k", 0); (qb "t", 0)].
Proof. vm_compute. reflexivity. Qed.

(** [UCLO] without a label is accepted by the grammar, but no code is made for it. *)
Definition uclo_prog : SynTree :=
  function_ (qb "Main") [] [var_ (qb "x")] [] [stat R_UCLO_ [desig (qb "x")]; stat R_RET_ []].
Lemma uclo_rejected :
  match run uclo_prog with Some (b, a) => b = false /\ map ae_msg (d_errs a) = [qb "internal arument error"] | None => False end.
Proof. vm_compute. split; reflexivity. Qed.

(** ** The theorems on examples *)

Definition a_stmt (op : Op) (pc : Z) (l : list AVal) : Stmt := mkStmt op pc l (leaf Tok_Invalid []).
(** [ISGT x y; JMP L; L: RET0]; the variables are the objects 2 and 3. *)
Definition ex_stmts (target : AVal) : list Stmt :=
  [a_stmt OP_ISGT 0 [AN 2; AN 3]; a_stmt OP_JMP 1 [AN 0; target]; a_stmt OP_RET0 2 [AV (QInt 0); AV (QInt 0)]].

Lemma jumps_resolved_witness :
  let stmts := ex_stmts (AT (leaf Tok_ident (qb "L"))) in
  let lbls := [(qb "L", 2%nat)] in
  exists r a', checkJumpsAndMore stmts lbls new_Assembler = Some (Some r, a') /\
  r = ex_stmts (AV (QInt JumpBias)) /\
  (a' = new_Assembler /\ length r = length stmts /\
   (forall pc s, stmts !! pc = Some s -> exists s', r !! pc = Some s' /\ resolved lbls pc s s') /\
   (forall pc, test_jump r pc) /\
   (exists s, last r = Some s /\ is_end (s_op s) = true) /\
   (forall target pc, - JumpBias <= Z.of_nat target - (Z.of_nat pc + 1) < JumpBias ->
      Z.of_nat pc + 1 + (jump_operand target pc - JumpBias) = Z.of_nat target)).
Proof.
  do 2 eexists. split; [vm_compute; reflexivity|]. split; [vm_compute; reflexivity|].
  refine (jumps_resolved (ex_stmts (AT (leaf Tok_ident (qb "L")))) [(qb "L", 2%nat)] new_Assembler _ _ _).
  vm_compute. reflexivity.
Defined.

(** A function with the parameter [p], two variables used at the same time, and an
    upvalue. *)
Definition ex_var (name : bytes) (from to : Z) (uv : bool) : AVar :=
  mkAVar (Some (leaf Tok_ident name)) from to 1 0 true false uv false None None (Some 1%nat).
Definition ex_func : AFunc :=
  mkAFunc (leaf Tok_ident (qb "Main")) [(qb "u", 4%nat); (qb "x", 2%nat); (qb "y", 3%nat)] [5%nat] [] None 0 0.
Definition ex_objs : list Named :=
  [NVar new_Var; NFunc ex_func; NVar (ex_var (qb "x") 1 4 false); NVar (ex_var (qb "y") 2 3 false);
   NVar (ex_var (qb "u") 0 0 true); NVar (ex_var (qb "p") 0 1 false)].
Definition ex_asm : Assembler := mkAssembler ex_objs new_composer [] [] [].

Lemma ex_no_records : no_records ex_objs (f_names ex_func).
Proof.
  intros n v (Hn & Hv & _). simpl in Hn. apply lookup_lt_Some in Hv as Hlt. simpl in Hlt.
  do 6 (destruct n as [|n]; [simpl in Hv; first [by injection Hv as <- | discriminate]|]). lia.
Qed.


(** The function above with its slots, and the composer when it has opened it. *)
Definition ex_slots : list Named :=
  imap (fun i n => match n with
    | NVar v => NVar (v_with_slot (nth i [4; 0; 2; 3; 1; 0] 0) v) | _ => n end) ex_objs.
Definition ex_open : Assembler :=
  mkAssembler ex_slots (match openFunction 1 [] 1 9 new_composer with Some (_, c) => c | None => new_composer end) [] [] [].


(** Calls, a concatenation, and slots that are set. *)
Definition ex_counts : list Stmt :=
  [a_stmt OP_CALL 0 [AN 2; AV (QInt 0); AV (QInt 2)]; a_stmt OP_CAT 1 [AN 2; AN 3; AV (QInt 3)];
   a_stmt OP_KNIL 2 [AN 3; AV (QInt 1)]; a_stmt OP_TNEW 3 [AN 2; AV (QInt (5 + 2 * 2 ^ 11))];
   a_stmt OP_RET 4 [AN 2; AV (QInt 2)]].

Lemma disassembled_witness :
  exists a', generateCode 1 ex_counts ex_open = Some (Some tt, a') /\
  states ex_slots (a_stmt OP_CALL 0 [AN 2; AV (QInt 0); AV (QInt 2)]) [2; 0; 2] /\
  exists ws, open_code (d_comp a') 0 ([] ++ ws) /\
    Forall2 (fun s w => forall l, states ex_slots s l -> shows w (s_op s) l) ex_counts ws.
Proof.
  eexists. split; [vm_compute; reflexivity|]. split.
  - exact (states_call ex_slots (a_stmt OP_CALL 0 [AN 2; AV (QInt 0); AV (QInt 2)]) (AN 2) 0 2 eq_refl eq_refl ltac:(by_decide) ltac:(by_decide)).
  - refine (disassembled (Laws:=LuaJIT20_laws) 1 ex_counts ex_open _ 0 [] _ _ _ _).
    + by_decide.
    + split; [reflexivity|]. eexists. split; reflexivity.
    + unfold small_slots. vm_compute. repeat first [exact I | (split; [discriminate|reflexivity]) | constructor].
    + vm_compute. reflexivity.
Defined.

(** A function inside of another one inside of another one; the variable [x] is the one
    of the outermost. *)
Definition nested_func (name : bytes) (names : list (bytes * nat)) (outer : option nat) : Named :=
  NFunc (mkAFunc (leaf Tok_ident name) names [] [] outer 0 0).
Definition nested_objs : list Named :=
  [NVar new_Var; nested_func (qb "A") [(qb "B", 3%nat); (qb "x", 2%nat)] None; NVar (ex_var (qb "x") 1 1 false);
   nested_func (qb "B") [(qb "C", 4%nat)] (Some 1%nat); nested_func (qb "C") [] (Some 3%nat)].
Definition nested_asm : Assembler := mkAssembler nested_objs new_composer [] [] [].

Lemma nested_upvals f : upvals_of nested_objs f = [].
Proof. unfold upvals_of. by do 6 (destruct f as [|f]; [done|]). Qed.

Lemma nested_ok : upvals_ok nested_objs.
Proof.
  split.
  - intros f o Ho. unfold outer_of in Ho. do 5 (destruct f as [|f]; [try done; injection Ho as <-; lia|]). done.
  - intros f. rewrite nested_upvals. constructor.
  - intros f v o Hv. rewrite nested_upvals in Hv. by apply elem_of_nil in Hv.
Qed.

Lemma fetchU_captures_witness :
  exists s' a', fetchU (desig (qb "x")) (a_stmt OP_USETV 0 []) 4 true nested_asm = Some (Some s', a') /\
  upvals_of (as_objs a') 3 = [2%nat] /\
  (upvals_ok (as_objs a') /\
   exists n x, s_vals s' = [] ++ [AN n] /\ as_objs a' !! n = Some (NVar x) /\ v_uv x = true /\
     (true = true -> v_uvRo x = false) /\ (v_func x = Some 4%nat \/ n ∈ upvals_of (as_objs a') 4)).
Proof.
  do 2 eexists. split; [vm_compute; reflexivity|]. split; [vm_compute; reflexivity|].
  refine (fetchU_captures (desig (qb "x")) (a_stmt OP_USETV 0 []) 4 true nested_asm _ _ nested_ok _).
  vm_compute. reflexivity.
Defined.

(** The same functions when both inner ones have [x] as an upvalue. *)
Definition captured_objs : list Named := append_upval 3 2 (append_upval 4 2 nested_objs).
Definition captured_asm : Assembler := mkAssembler captured_objs new_composer [] [] [].

Lemma captured_upvals f : upvals_of captured_objs f = if bool_decide (f = 3%nat \/ f = 4%nat) then [2%nat] else [].
Proof. unfold upvals_of. do 6 (destruct f as [|f]; [vm_compute; reflexivity|]). done. Qed.

Lemma captured_ok : upvals_ok captured_objs.
Proof.
  split.
  - intros f o Ho. unfold outer_of in Ho. do 5 (destruct f as [|f]; [try done; injection Ho as <-; lia|]). done.
  - intros f. rewrite captured_upvals. case_bool_decide; repeat constructor. apply not_elem_of_nil.
  - intros f v o Hv Ho. rewrite captured_upvals in *. case_bool_decide as Hf; [|by apply elem_of_nil in Hv].
    apply list_elem_of_singleton in Hv as ->. destruct Hf as [-> | ->]; injection Ho as <-; [left|right].
    + by exists (ex_var (qb "x") 1 1 false).
    + by left.
Qed.

Lemma upvals_described_witness :
  exists us, getUpvals 4 captured_asm = Some (us, captured_asm) /\
  (captured_asm = captured_asm /\ Forall2 (described captured_objs 4) (upvals_of captured_objs 4) us).
Proof.
  eexists. split; [vm_compute; reflexivity|].
  refine (upvals_described 4 captured_asm _ captured_asm captured_ok _ _).
  - intros g. change (as_objs captured_asm) with captured_objs. rewrite captured_upvals. case_bool_decide; simpl length; apply Nat.leb_le; vm_compute; reflexivity.
  - vm_compute. reflexivity.
Defined.
