(* ===== verification/LuaHost.v ===== *)
(** * The Lua host of the debugger

    What the sources use of the C interface of Lua, and what [Engine2.h/.cpp] does with
    values on its stack: messages, the names of types, the texts of values, and variables by
    their names. *)

From S2P Require Import Prelude Double Bytecode.
From Stdlib Require Import Strings.Byte.
Local Open Scope Z_scope.
Local Open Scope rd_scope.

(** ** The interface of Lua *)

(** What [lua_type] returns. *)
Inductive LuaType : Type :=
  | LUA_TNIL | LUA_TBOOLEAN | LUA_TLIGHTUSERDATA | LUA_TNUMBER | LUA_TSTRING | LUA_TTABLE
  | LUA_TFUNCTION | LUA_TUSERDATA | LUA_TTHREAD | LUA_TCDATA.

#[export] Instance LuaType_eq_dec : EqDecision LuaType.
Proof. solve_decision. Defined.

Definition LUA_ENVIRONINDEX : Z := -10001.
Definition LUA_GLOBALSINDEX : Z := -10002.

(** A function that may call metamethods, or raise an error that is not caught, is a
    computation; a function that only looks at the stack is a function of the state.  A
    string is a C string. *)
Class LuaApi := {
  lua_State : Type;
  lua_Debug : Type;
  lua_type : Z -> lua_State -> LuaType;
  lua_typename : LuaType -> bytes;
  lua_iscfunction : Z -> lua_State -> bool;
  lua_isuserdata : Z -> lua_State -> bool;
  lua_toboolean : Z -> lua_State -> bool;
  lua_tonumber : Z -> lua_State -> dbl;
  lua_topointer : Z -> lua_State -> Z;
  lua_touserdata : Z -> lua_State -> Z;
  lua_objlen : Z -> lua_State -> Z;
  lua_tostring : Z -> SM lua_State (option bytes);
  lua_pushnil : SM lua_State unit;
  lua_pushboolean : bool -> SM lua_State unit;
  lua_pushnumber : dbl -> SM lua_State unit;
  lua_pushstring : bytes -> SM lua_State unit;
  lua_pop : Z -> SM lua_State unit;
  lua_replace : Z -> SM lua_State unit;
  lua_remove : Z -> SM lua_State unit;
  lua_equal : Z -> Z -> SM lua_State bool;
  lua_lessthan : Z -> Z -> SM lua_State bool;
  lua_gettable : Z -> SM lua_State unit;
  lua_rawget : Z -> SM lua_State unit;
  lua_getstack : Z -> lua_State -> option lua_Debug;
  lua_getlocal : lua_Debug -> Z -> SM lua_State (option bytes)
}.

(** What the host uses of Qt and of the mathematical library of C: [QByteArray::number] of a
    [double] and of a pointer in base 16, [QVariant::isNull], [QVariant::toString] with [toLatin1] and as a text
    stream writes it, and [pow]. *)
Class HostLib := {
  number_double : dbl -> bytes;
  number_hex : Z -> bytes;
  variant_latin1 : QVariant -> bytes;
  variant_text : QVariant -> bytes;
  variant_isNull : QVariant -> bool;
  c_pow : dbl -> dbl -> dbl
}.

(** A text up to its first zero, which is what a C string is. *)
Fixpoint c_string (s : bytes) : bytes :=
  match s with [] => [] | c :: s => if Byte.eqb c x00 then [] else c :: c_string s end.

(** ** The state of the host *)

(** [src/Engine2.h:183-197] MessageType *)
Inductive MessageType : Type :=
  | M_Print | M_Error | M_Cout | M_Cerr | M_LineHit | M_BreakHit | M_ErrorHit | M_BreakPoints | M_ActiveLevel
  | M_Started | M_Continued | M_Finished | M_Aborted.

#[export] Instance MessageType_eq_dec : EqDecision MessageType.
Proof. solve_decision. Defined.

Section Host.
Context `{L : LuaApi} `{H : HostLib}.

(** The members the operations here use; [notified] are the signals that have been emitted,
    [d_stdout] and [d_stderr] what has been written to the streams.
    [src/Engine2.h:226-248] Engine2 *)
Record Engine2 := mkEngine2 {
  d_ctx : lua_State;
  d_waitForCommand : bool;
  d_activeLevel : Z;
  d_printToStdout : bool;
  d_stdout : bytes;
  d_stderr : bytes;
  notified : list (MessageType * bytes * Z)
}.

Abbreviation EM := (SM Engine2).

Definition set_ctx (l : lua_State) (e : Engine2) : Engine2 :=
  mkEngine2 l (d_waitForCommand e) (d_activeLevel e) (d_printToStdout e) (d_stdout e) (d_stderr e) (notified e).

(** A call of Lua with [getCtx()]. *)
Definition lua {A} (m : SM lua_State A) : EM A :=
  fun e => match m (d_ctx e) with Some (x, l) => Some (x, set_ctx l e) | None => None end.
(** A look at the stack. *)
Definition look {A} (f : lua_State -> A) : EM A := rget (fun e => f (d_ctx e)).

(** [src/Engine2.cpp:1560-1575] notify *)
Definition notify (messageType : MessageType) (val1 : bytes) (val2 : Z) : EM unit :=
  rmod (fun e =>
    let out := if d_printToStdout e && bool_decide (messageType = M_Print) then c_string val1 else [] in
    let err := if d_printToStdout e && bool_decide (messageType = M_Error) then c_string val1 else [] in
    mkEngine2 (d_ctx e) (d_waitForCommand e) (d_activeLevel e) (d_printToStdout e) (d_stdout e ++ out) (d_stderr e ++ err)
      (notified e ++ [(messageType, val1, val2)])).

(** [src/Engine2.cpp:1337-1340] print *)
Definition print (str : bytes) : EM unit := notify M_Print (c_string str) 0.
(** [src/Engine2.cpp:1376-1379] error *)
Definition host_error (str : bytes) : EM unit := notify M_Error (c_string str) 0.
(** [src/Engine2.cpp:1555-1558] pop *)
Definition pop (count : Z) : EM unit := lua (lua_pop count).

(** The name of a user type is never set.
    [src/Engine2.cpp:1381-1404] getTypeName *)
Definition getTypeName (arg : Z) : EM bytes :=
  t <~ look (lua_type arg);
  match t with
  | LUA_TNIL => rret []
  | LUA_TFUNCTION =>
      c <~ look (lua_iscfunction arg);
      rret (if (c : bool) then qb "C function" else qb "Lua function")
  | LUA_TUSERDATA => rret (qb "<unknown>")
  | _ => rret (lua_typename t)
  end.

(** [src/Engine2.cpp:1406-1409] _toHex *)
Definition toHex (p : Z) : bytes := qb "0x" ++ number_hex p.

(** A null pointer is an empty text. *)
Definition text_of (s : option bytes) : bytes := default [] s.

(** [src/Engine2.cpp:1411-1445] getValueString *)
Definition getValueString (arg : Z) (showAddress : bool) : EM bytes :=
  t <~ look (lua_type arg);
  match t with
  | LUA_TNIL => rret (qb "nil")
  | LUA_TNUMBER => n <~ look (lua_tonumber arg); rret (number_double n)
  | LUA_TBOOLEAN => b <~ look (lua_toboolean arg); rret (if (b : bool) then qb "true" else qb "false")
  | LUA_TSTRING => s <~ lua (lua_tostring arg); rret ([x22] ++ text_of s ++ [x22])
  | LUA_TTABLE | LUA_TTHREAD | LUA_TFUNCTION =>
      if showAddress then p <~ look (lua_topointer arg); rret (toHex p) else rret []
  | LUA_TLIGHTUSERDATA => if showAddress then p <~ look (lua_touserdata arg); rret (toHex p) else rret []
  | LUA_TUSERDATA | LUA_TCDATA => rret []
  end.

(** The local variables of the active function, from the [n]-th on; [true] when there is one
    of this name, which is left on the stack.
    [src/Engine2.cpp:1526-1537] pushLocalOrGlobal *)
Fixpoint find_local (fuel : nat) (ar : lua_Debug) (name : bytes) (n : Z) : EM bool :=
  match fuel with
  | O => rfail
  | S fuel =>
      localName <~ lua (lua_getlocal ar n);
      match localName with
      | Some s =>
          if bool_decide (s = name) then rret true
          else _ <~ lua (lua_pop 1); find_local fuel ar name (n + 1)
      | None => rret false
      end
  end.

(** [src/Engine2.cpp:1539-1541] pushLocalOrGlobal *)
Definition push_global (name : bytes) : EM Z :=
  e <~ rget id;
  _ <~ lua (lua_pushstring name);
  _ <~ lua (lua_rawget (if d_waitForCommand e then LUA_ENVIRONINDEX else LUA_GLOBALSINDEX));
  rret 1.

(** [src/Engine2.cpp:1518-1542] pushLocalOrGlobal *)
Definition pushLocalOrGlobal (fuel : nat) (name : bytes) : EM Z :=
  e <~ rget id;
  if d_waitForCommand e then
    match lua_getstack (d_activeLevel e) (d_ctx e) with
    | Some ar => b <~ find_local fuel ar name 1; if (b : bool) then rret 1 else push_global name
    | None => push_global name
    end
  else push_global name.
End Host.
