(* ===== verification/ExprLexer.v ===== *)
(** * The lexer of the expressions of the debugger

    [SourceBuffer] and [ExpressionLexer] of [ExpressionParser.h/.cpp]: the terminal of the
    debugger evaluates Lua expressions with an own lexer, parser and interpreter.  An
    exception is the result [None] of a computation that ends. *)

From S2P Require Import Prelude Double Bytecode.
From Stdlib Require Import Strings.Byte.
Local Open Scope Z_scope.
Local Open Scope rd_scope.

(** ** Computations that may throw *)

Definition xbind {S A B} (m : SM S (option A)) (k : A -> SM S (option B)) : SM S (option B) :=
  o <~ m; match o with Some x => k x | None => rret None end.
Notation "x <! m ; k" := (xbind m (fun x => k))
  (at level 90, m at next level, right associativity) : rd_scope.
Definition xret {S A} (x : A) : SM S (option A) := rret (Some x).

(** What the lexer needs of Qt: [QByteArray::toUInt] with a base and
    [QByteArray::toDouble], which may fail. *)
Class ExprLib := {
  text_toUInt : Z -> bytes -> option Z;
  text_toDouble : bytes -> option dbl
}.

(** ** The source buffer *)

(** [src/ExpressionParser.h:35-48] SourceBuffer *)
Record SourceBuffer := mkSourceBuffer { d_source : bytes; d_eaten : Z; d_peekPtr : Z }.

(** [src/ExpressionParser.cpp:938-940] SourceBuffer *)
Definition new_SourceBuffer (source : bytes) : SourceBuffer := mkSourceBuffer source 0 0.

Definition source_size (b : SourceBuffer) : Z := Z.of_nat (length (d_source b)).

(** [src/ExpressionParser.h:43-43] atEnd *)
Definition sb_atEnd (b : SourceBuffer) : bool := d_eaten b =? source_size b.

(** Behind the end there are zeros.
    [src/ExpressionParser.cpp:788-799] peek *)
Definition char_at (b : SourceBuffer) (i : Z) : byte :=
  if i <? source_size b then nth (Z.to_nat i) (d_source b) x00 else x00.

(** [src/ExpressionParser.cpp:786-802] peek *)
Definition sb_peek (size : nat) : SM SourceBuffer (bytes * bool) :=
  fun b =>
    let buf := map (fun i => char_at b (d_peekPtr b + Z.of_nat i)) (seq 0 size) in
    Some ((buf, forallb (fun i => d_peekPtr b + Z.of_nat i <? source_size b) (seq 0 size)),
          mkSourceBuffer (d_source b) (d_eaten b) (d_peekPtr b + Z.of_nat size)).

(** The characters that have been eaten are overwritten.
    [src/ExpressionParser.cpp:821-822] eat *)
Definition overwrite (n : nat) (s : bytes) : bytes := replicate (Nat.min n (length s)) "@"%byte ++ drop n s.

(** [src/ExpressionParser.cpp:811-823] eat *)
Definition sb_eat (count : Z) : SM SourceBuffer unit :=
  fun b =>
    let '(eaten, ptr) :=
      if (count =? -1) || (d_peekPtr b - d_eaten b <? count) then (d_peekPtr b, d_peekPtr b)
      else (d_eaten b + count, d_eaten b + count) in
    Some (tt, mkSourceBuffer (overwrite (Z.to_nat eaten) (d_source b)) eaten ptr).

(** [src/ExpressionParser.cpp:825-828] rewind *)
Definition sb_rewind : SM SourceBuffer unit :=
  rmod (fun b => mkSourceBuffer (d_source b) (d_eaten b) (d_eaten b)).

(** [src/ExpressionParser.cpp:804-809] read *)
Definition sb_read (size : nat) : SM SourceBuffer (bytes * bool) :=
  r <~ sb_peek size; _ <~ sb_eat (-1); rret (r.1, true).

(** ** Tokens *)

(** [src/ExpressionParser.h:55-60] Type *)
Inductive TokType : Type :=
  | T_Invalid | T_Nil | T_Bool | T_Number | T_String | T_Name
  | T_LBrack | T_RBrack | T_LBrace | T_RBrace | T_Dot | T_Op.

#[export] Instance TokType_eq_dec : EqDecision TokType.
Proof. solve_decision. Defined.

(** [src/ExpressionParser.h:53-65] Token *)
Record Tok := mkTok { t_type : TokType; t_val : QVariant }.

(** [src/ExpressionParser.h:64-64] isValid *)
Definition tok_isValid (t : Tok) : bool := negb (bool_decide (t_type t = T_Invalid)).

Definition invalid_tok : Tok := mkTok T_Invalid QInvalid.

(** [src/ExpressionParser.h:66-76] Operator *)
Inductive Operator : Type :=
  | E_NoOp
  | E_Plus | E_Minus | E_Star | E_Slash | E_Percent
  | E_Hat | E_Concat
  | E_Neq | E_Eq
  | E_Lt | E_Leq | E_Gt | E_Geq
  | E_And | E_Or
  | E_Not | E_Pound.

#[export] Instance Operator_eq_dec : EqDecision Operator.
Proof. solve_decision. Defined.

Definition all_operators : list Operator :=
  [E_NoOp; E_Plus; E_Minus; E_Star; E_Slash; E_Percent; E_Hat; E_Concat; E_Neq; E_Eq; E_Lt; E_Leq; E_Gt; E_Geq;
   E_And; E_Or; E_Not; E_Pound].

(** The number of the enumeration, which the value of a token holds as an [int]. *)
Definition op_val (op : Operator) : Z :=
  match list_find (fun o => o = op) all_operators with Some (i, _) => Z.of_nat i | None => 0 end.
Definition op_of (z : Z) : option Operator := if z <? 0 then None else all_operators !! Z.to_nat z.

(** ** State *)

(** [src/ExpressionParser.h:91-96] ExpressionLexer *)
Record ExpressionLexer := mkExpressionLexer {
  d_tokens : list Tok;
  d_cur : Z;
  d_buf : SourceBuffer;
  el_error : bytes
}.

Definition new_ExpressionLexer : ExpressionLexer := mkExpressionLexer [] 0 (new_SourceBuffer []) [].

Abbreviation EL := (SM ExpressionLexer).

(** A method of the buffer. *)
Definition buf {A} (m : SM SourceBuffer A) : EL A :=
  fun x => match m (d_buf x) with
    | Some (r, b) => Some (r, mkExpressionLexer (d_tokens x) (d_cur x) b (el_error x))
    | None => None
    end.
Definition peek1 : EL byte := r <~ buf (sb_peek 1); rret (hd x00 r.1).
Definition eat (count : Z) : EL unit := buf (sb_eat count).
Definition rewind : EL unit := buf sb_rewind.
Definition fuel_of (x : ExpressionLexer) : nat := S (length (d_source (d_buf x))).

(** [src/ExpressionParser.cpp:478-484] error *)
Definition lex_error {A} (msg : bytes) : EL (option A) :=
  _ <~ rewind;
  _ <~ rmod (fun x => mkExpressionLexer (d_tokens x) (d_cur x) (d_buf x) msg);
  rret None.

(** ** Operators and names *)

Definition eaten_op (count : Z) (op : Operator) : EL Operator := _ <~ eat count; rret op.
Definition no_op : EL Operator := _ <~ rewind; rret E_NoOp.

(** An operator of which the second character is [c].
    [src/ExpressionParser.cpp:422-429] fetchOp *)
Definition second (c : byte) (op : Operator) : EL Operator :=
  ch2 <~ peek1; if Byte.eqb ch2 c then eaten_op (-1) op else no_op.
(** An operator that an [=] turns into another one.
    [src/ExpressionParser.cpp:400-410] fetchOp *)
Definition or_equal (op op_eq : Operator) : EL Operator :=
  ch2 <~ peek1; if Byte.eqb ch2 "=" then eaten_op (-1) op_eq else eaten_op 1 op.
(** An operator that is a word of three characters.
    [src/ExpressionParser.cpp:450-456] fetchOp *)
Definition third (c d : byte) (op : Operator) : EL Operator :=
  r <~ buf (sb_peek 2);
  if bool_decide (r.1 = [c; d]) then eaten_op (-1) op else no_op.

(** [src/ExpressionParser.cpp:375-476] fetchOp *)
Definition fetchOp : EL Operator :=
  ch <~ peek1;
  if Byte.eqb ch "+" then eaten_op (-1) E_Plus
  else if Byte.eqb ch "-" then eaten_op (-1) E_Minus
  else if Byte.eqb ch "*" then eaten_op (-1) E_Star
  else if Byte.eqb ch "/" then eaten_op (-1) E_Slash
  else if Byte.eqb ch "^" then eaten_op (-1) E_Hat
  else if Byte.eqb ch "%" then eaten_op (-1) E_Percent
  else if Byte.eqb ch "<" then or_equal E_Lt E_Leq
  else if Byte.eqb ch ">" then or_equal E_Gt E_Geq
  else if Byte.eqb ch "." then second "." E_Concat
  else if Byte.eqb ch "=" then second "=" E_Eq
  else if Byte.eqb ch "~" then second "=" E_Neq
  else if Byte.eqb ch "#" then eaten_op (-1) E_Pound
  else if Byte.eqb ch "a" then third "n" "d" E_And
  else if Byte.eqb ch "o" then second "r" E_Or
  else if Byte.eqb ch "n" then third "o" "t" E_Not
  else no_op.

Definition name_char (ch : byte) : bool := isalpha ch || isdigit ch || Byte.eqb ch "_".

(** [src/ExpressionParser.cpp:550-554] fetchName *)
Fixpoint name_loop (fuel : nat) (ch : byte) (name : bytes) : EL bytes :=
  match fuel with
  | O => rfail
  | S fuel => if name_char ch then ch' <~ peek1; name_loop fuel ch' (name ++ [ch]) else rret name
  end.

(** [src/ExpressionParser.cpp:542-561] fetchName *)
Definition fetchName : EL (option bytes) :=
  x <~ rget id;
  ch <~ peek1;
  if isalpha ch || Byte.eqb ch "_" then
    name <~ name_loop (fuel_of x) ch [];
    _ <~ eat (Z.of_nat (length name));
    rret (Some name)
  else _ <~ rewind; rret None.

(** ** Strings *)

(** Up to the quotation mark that is not escaped.
    [src/ExpressionParser.cpp:572-577] fetchString *)
Fixpoint quoted_loop (fuel : nat) (q ch : byte) (escape : bool) (tmp : bytes) : EL bytes :=
  match fuel with
  | O => rfail
  | S fuel =>
      if escape || negb (Byte.eqb ch q) then
        ch' <~ peek1; quoted_loop fuel q ch' (Byte.eqb ch "\") (tmp ++ [ch])
      else rret tmp
  end.

(** The end of a long bracket that starts with an equal sign.
    [src/ExpressionParser.cpp:597-605] fetchString *)
Fixpoint level_loop (fuel : nat) (ch : byte) (endToken : bytes) : EL bytes :=
  match fuel with
  | O => rfail
  | S fuel =>
      if negb (Byte.eqb ch x00) && negb (Byte.eqb ch "[") then ch' <~ peek1; level_loop fuel ch' (endToken ++ qb "=")
      else rret endToken
  end.

Definition ends_with (s e : bytes) : bool := bool_decide (drop (length s - length e) s = e).

(** [src/ExpressionParser.cpp:615-619] fetchString *)
Fixpoint bracket_loop (fuel : nat) (endToken tmp : bytes) : EL bytes :=
  match fuel with
  | O => rfail
  | S fuel =>
      ch <~ peek1;
      let tmp := tmp ++ [ch] in
      if negb (Byte.eqb ch x00) && negb (ends_with tmp endToken) then bracket_loop fuel endToken tmp else rret tmp
  end.

(** From the first character of the text on.
    [src/ExpressionParser.cpp:615-623] fetchString *)
Definition bracket_string (fuel : nat) (endToken : bytes) : EL (option bytes) :=
  tmp <~ bracket_loop fuel endToken [];
  _ <~ eat (-1);
  rret (Some (take (length tmp - length endToken) tmp)).

(** [src/ExpressionParser.cpp:570-580] fetchString *)
Definition quoted (fuel : nat) (q : byte) : EL (option bytes) :=
  ch <~ peek1;
  tmp <~ quoted_loop fuel q ch false [];
  _ <~ eat (-1);
  rret (Some tmp).

(** [src/ExpressionParser.cpp:563-627] fetchString *)
Definition fetchString : EL (option bytes) :=
  x <~ rget id;
  let fuel := fuel_of x in
  ch <~ peek1;
  if Byte.eqb ch x22 then quoted fuel x22
  else if Byte.eqb ch "'" then quoted fuel "'"
  else if Byte.eqb ch "[" then
    ch <~ peek1;
    if Byte.eqb ch "=" then e <~ level_loop fuel ch (qb "]"); bracket_string fuel e
    else if Byte.eqb ch "[" then bracket_string fuel (qb "]]")
    else _ <~ rewind; rret None
  else _ <~ rewind; rret None.

(** ** Numbers *)

Section Lexer.
Context `{X : ExprLib}.

(** [src/ExpressionParser.cpp:629-632] _isHexChar *)
Definition isHexChar (ch : byte) : bool := in_range "a" "f" ch || in_range "A" "F" ch.

(** [src/ExpressionParser.cpp:640-640] fetchNumber *)
Inductive NumState : Type := Vorkomma | Nachkomma | Exponent2 | Exponent1.

#[export] Instance NumState_eq_dec : EqDecision NumState.
Proof. solve_decision. Defined.

Definition number_done (n : Z) (d : option dbl) (msg : bytes) : EL (option dbl) :=
  match d with Some d => _ <~ eat n; xret d | None => lex_error msg end.

(** [src/ExpressionParser.cpp:666-684] fetchNumber *)
Fixpoint hex_loop (fuel : nat) (number : bytes) : EL (option dbl) :=
  match fuel with
  | O => rfail
  | S fuel =>
      ch2 <~ peek1;
      if isdigit ch2 || isHexChar ch2 then hex_loop fuel (number ++ [ch2])
      else number_done (Z.of_nat (length number) + 2) (option_map dbl_of_Z (text_toUInt 16 number)) (qb "invalid hex format")
  end.

Definition is_exp (ch : byte) : bool := Byte.eqb ch "e" || Byte.eqb ch "E".

(** The characters of a decimal number.
    [src/ExpressionParser.cpp:689-768] fetchNumber *)
Fixpoint decimal_loop (fuel : nat) (state : NumState) (anzNachkomma : Z) (number : bytes) (ch2 : byte) : EL (option dbl) :=
  match fuel with
  | O => rfail
  | S fuel =>
      let more state anz ch := ch' <~ peek1; decimal_loop fuel state anz (number ++ [ch]) ch' in
      let size := Z.of_nat (length number) in
      match state with
      | Vorkomma =>
          if Byte.eqb ch2 "." then more Nachkomma anzNachkomma ch2
          else if isdigit ch2 then more Vorkomma anzNachkomma ch2
          else if is_exp ch2 then more Exponent1 anzNachkomma "e"%byte
          else number_done size (option_map dbl_of_Z (text_toUInt 10 number)) (qb "invalid integer")
      | Nachkomma =>
          if isdigit ch2 then more Nachkomma (anzNachkomma + 1) ch2
          else if anzNachkomma =? 0 then lex_error (qb "invalid number format")
          else if is_exp ch2 then more Exponent1 (anzNachkomma + 1) "e"%byte
          else number_done size (text_toDouble number) (qb "invalid decimal format")
      | Exponent1 =>
          if isdigit ch2 || Byte.eqb ch2 "+" || Byte.eqb ch2 "-" then more Exponent2 anzNachkomma ch2
          else lex_error (qb "invalid number format")
      | Exponent2 =>
          if isdigit ch2 then more Exponent2 anzNachkomma ch2
          else number_done size (text_toDouble number) (qb "invalid exponential format")
      end
  end.

(** [Some None]: there is no number; [None]: an exception.
    [src/ExpressionParser.cpp:634-772] fetchNumber *)
Definition fetchNumber : EL (option (option dbl)) :=
  x <~ rget id;
  ch <~ peek1;
  let state := if Byte.eqb ch "." then Nachkomma else Vorkomma in
  if negb (Byte.eqb ch ".") && negb (isdigit ch) then _ <~ rewind; xret None
  else
    ch2 <~ peek1;
    if bool_decide (state = Nachkomma) && negb (isdigit ch2) then _ <~ rewind; xret None
    else if Byte.eqb ch2 "x" then
      if negb (Byte.eqb ch "0") then lex_error (qb "invalid number format")
      else d <! hex_loop (fuel_of x) []; xret (Some d)
    else d <! decimal_loop (fuel_of x) state 0 [ch] ch2; xret (Some d).

(** ** Tokens of a text *)

(** [src/ExpressionParser.cpp:778-782] eatSpace *)
Fixpoint space_loop (fuel : nat) (ch : byte) : EL unit :=
  match fuel with
  | O => rfail
  | S fuel => if isspace ch then _ <~ eat (-1); ch' <~ peek1; space_loop fuel ch' else rret tt
  end.
(** [src/ExpressionParser.cpp:774-784] eatSpace *)
Definition eatSpace : EL unit :=
  x <~ rget id; ch <~ peek1; _ <~ space_loop (fuel_of x) ch; rewind.

(** [src/ExpressionParser.cpp:505-512] fetchNext *)
Definition name_tok (str : bytes) : Tok :=
  if bool_decide (str = qb "nil") then mkTok T_Nil QInvalid
  else if bool_decide (str = qb "false") then mkTok T_Bool (QBool false)
  else if bool_decide (str = qb "true") then mkTok T_Bool (QBool true)
  else mkTok T_Name (QByteArray str).

(** The tokens of a single character.
    [src/ExpressionParser.cpp:519-536] fetchNext *)
Definition bracket_tok (ch : byte) : option TokType :=
  if Byte.eqb ch "(" then Some T_LBrace
  else if Byte.eqb ch ")" then Some T_RBrace
  else if Byte.eqb ch "[" then Some T_LBrack
  else if Byte.eqb ch "]" then Some T_RBrack
  else if Byte.eqb ch "." then Some T_Dot
  else None.

(** [src/ExpressionParser.cpp:514-539] fetchNext *)
Definition fetch_symbol : EL (option Tok) :=
  op <~ fetchOp;
  if negb (bool_decide (op = E_NoOp)) then xret (mkTok T_Op (QInt (op_val op)))
  else
    ch <~ peek1;
    match bracket_tok ch with
    | Some ty => _ <~ eat (-1); xret (mkTok ty QInvalid)
    | None => _ <~ rewind; lex_error (qb "invalid token detected")
    end.

(** [src/ExpressionParser.cpp:486-540] fetchNext *)
Definition fetchNext : EL (option Tok) :=
  x <~ rget id;
  if sb_atEnd (d_buf x) then xret invalid_tok
  else
    _ <~ eatSpace;
    s <~ fetchString;
    match s with
    | Some str => xret (mkTok T_String (QByteArray str))
    | None =>
        n <! fetchNumber;
        match n with
        | Some number => xret (mkTok T_Number (QDouble number))
        | None =>
            name <~ fetchName;
            match name with Some str => xret (name_tok str) | None => fetch_symbol end
        end
    end.

(** [src/ExpressionParser.cpp:950-955] process *)
Fixpoint process_loop (fuel : nat) : EL (option unit) :=
  match fuel with
  | O => rfail
  | S fuel =>
      t <! fetchNext;
      if tok_isValid t then
        _ <~ rmod (fun x => mkExpressionLexer (d_tokens x ++ [t]) (d_cur x) (d_buf x) (el_error x));
        process_loop fuel
      else xret tt
  end.

(** [src/ExpressionParser.cpp:942-961] process *)
Definition lex_process (text : bytes) : EL bool :=
  _ <~ rmod (fun _ => mkExpressionLexer [] 0 (new_SourceBuffer text) []);
  r <~ process_loop (S (length text));
  rret (match r with Some _ => true | None => false end).
End Lexer.

(** At the end the position stays at the last token.
    [src/ExpressionParser.cpp:1021-1030] next *)
Definition lex_next : EL Tok :=
  fun x =>
    if d_cur x <? Z.of_nat (length (d_tokens x)) then
      match d_tokens x !! Z.to_nat (d_cur x) with
      | Some t => Some (t, mkExpressionLexer (d_tokens x) (d_cur x + 1) (d_buf x) (el_error x))
      | None => None
      end
    else Some (invalid_tok, x).

(** [src/ExpressionParser.cpp:1032-1039] peek *)
Definition lex_peek (i : Z) : EL Tok :=
  fun x =>
    let i := i + 1 in
    if 0 <=? d_cur x - i then
      match d_tokens x !! Z.to_nat (d_cur x - i) with Some t => Some (t, x) | None => None end
    else Some (invalid_tok, x).
