(* ===== verification/ExprParser.v ===== *)
(** * The parser of the expressions of the debugger

    [ExpressionParser] of [ExpressionParser.h/.cpp]: recursive descent with priorities of
    operators.  A method that sets [d_left] of the node it is given returns that tree; an
    exception, which frees what has been built, is the result [None]. *)

From S2P Require Import Prelude Double Bytecode ExprLexer.
From Stdlib Require Import Strings.Byte.
Local Open Scope Z_scope.
Local Open Scope rd_scope.

(** [src/ExpressionParser.h:102-111] AstNodeType *)
Inductive AstNodeType : Type :=
  | N_Invalid | N_Constant | N_BinOp | N_UnOp | N_DotOp | N_BraceOp | N_IndexOp | N_Name.

#[export] Instance AstNodeType_eq_dec : EqDecision AstNodeType.
Proof. solve_decision. Defined.

(** A pointer to a node; [ANull] is the null pointer.
    [src/ExpressionParser.h:112-123] AstNode *)
Inductive Ast : Type :=
  | ANull
  | ANode (ty : AstNodeType) (val : QVariant) (left right : Ast).

(** A node without children. *)
Definition leaf_node (ty : AstNodeType) (val : QVariant) : Ast := ANode ty val ANull ANull.

(** The pointer to the tree: null, a tree, or the address of a tree that has been freed. *)
Inductive Top : Type := TopNull | TopTree (t : Ast) | TopFreed.

(** [src/ExpressionParser.h:142-145] ExpressionParser *)
Record ExpressionParser := mkExpressionParser { d_top : Top; d_lex : ExpressionLexer; ep_error : bytes }.

(** [src/ExpressionParser.cpp:35-37] ExpressionParser *)
Definition new_ExpressionParser : ExpressionParser := mkExpressionParser TopNull new_ExpressionLexer [].

(** What may throw. *)
Abbreviation PM A := (SM ExpressionParser (option A)).

Definition lexer {A} (m : EL A) : SM ExpressionParser A :=
  fun p => match m (d_lex p) with
    | Some (x, l) => Some (x, mkExpressionParser (d_top p) l (ep_error p))
    | None => None
    end.
Definition next : SM ExpressionParser Tok := lexer lex_next.
Definition peek : SM ExpressionParser Tok := lexer (lex_peek 0).
Definition set_top (t : Top) : SM ExpressionParser unit := rmod (fun p => mkExpressionParser t (d_lex p) (ep_error p)).
Definition set_perror (e : bytes) : SM ExpressionParser unit := rmod (fun p => mkExpressionParser (d_top p) (d_lex p) e).

(** [src/ExpressionParser.cpp:168-172] error *)
Definition perror {A} (msg : bytes) : PM A := _ <~ set_perror msg; rret None.

(** The token at the position has this type, or there is an error; then the next one. *)
Definition expect (ty : TokType) (msg : bytes) : PM unit :=
  tok <~ peek;
  if bool_decide (t_type tok = ty) then _ <~ next; xret tt else perror msg.

(** ** Operators *)

(** The numbers of the left and the right priority; there are none for the operators at
    the end of the enumeration.
    [src/ExpressionParser.cpp:1119-1130] priority *)
Definition priority (op : Operator) : option (Z * Z) :=
  match op with
  | E_NoOp => Some (0, 0)
  | E_Plus | E_Minus => Some (6, 6)
  | E_Star | E_Slash | E_Percent => Some (7, 7)
  | E_Hat => Some (10, 9) | E_Concat => Some (5, 4)
  | E_Neq | E_Eq | E_Lt | E_Leq | E_Gt | E_Geq => Some (3, 3)
  | E_And => Some (2, 2) | E_Or => Some (1, 1)
  | E_Not | E_Pound => None
  end.

(** [src/ExpressionParser.cpp:1132-1132] UNARY_PRIORITY *)
Definition UNARY_PRIORITY : Z := 8.

(** The operator that the value of a token holds. *)
Definition tok_op (t : Tok) : Operator :=
  match t_val t with QInt z => default E_NoOp (op_of z) | _ => E_NoOp end.

(** [src/ExpressionParser.cpp:1134-1140] _getbinopr *)
Definition getbinopr (t : Tok) : Operator := if bool_decide (t_type t = T_Op) then tok_op t else E_NoOp.

(** [src/ExpressionParser.cpp:1141-1156] _isUnop *)
Definition isUnop (t : Tok) : bool :=
  bool_decide (t_type t = T_Op) && match tok_op t with E_Minus | E_Pound | E_Not => true | _ => false end.

(** ** Expressions *)

Section Parser.
(** [subexpr] with less fuel. *)
Variable rec : Z -> PM (Ast * Operator).

(** [src/ExpressionParser.cpp:1113-1116] expr *)
Definition expr : PM Ast := r <! rec 0; xret r.1.

(** [src/ExpressionParser.cpp:1041-1066] prefixexp *)
Definition prefixexp : PM Ast :=
  tok <~ peek;
  match t_type tok with
  | T_LBrace =>
      _ <~ next;
      e <! expr;
      _ <! expect T_RBrace (qb "expecting ')'");
      xret (ANode N_BraceOp QInvalid e ANull)
  | T_Name => _ <~ next; xret (leaf_node N_Name (t_val tok))
  | _ => perror (qb "unexpected symbol")
  end.

(** [src/ExpressionParser.cpp:1073-1110] primaryexp *)
Fixpoint primary_loop (fuel : nat) (n : Ast) : PM Ast :=
  match fuel with
  | O => rfail
  | S fuel =>
      tok <~ peek;
      match t_type tok with
      | T_Dot =>
          tok <~ next;
          if negb (bool_decide (t_type tok = T_Name)) then perror (qb "expecting name")
          else _ <~ next; primary_loop fuel (ANode N_DotOp QInvalid n (leaf_node N_Name (t_val tok)))
      | T_LBrack =>
          _ <~ next;
          e <! expr;
          _ <! expect T_RBrack (qb "expecting ']'");
          primary_loop fuel (ANode N_IndexOp QInvalid n e)
      | _ => xret n
      end
  end.

(** [src/ExpressionParser.cpp:1068-1111] primaryexp *)
Definition primaryexp (fuel : nat) : PM Ast := n <! prefixexp; primary_loop fuel n.

(** [src/ExpressionParser.cpp:1197-1215] simpleexp *)
Definition simpleexp (fuel : nat) : PM Ast :=
  tok <~ peek;
  match t_type tok with
  | T_Number | T_String | T_Bool | T_Nil => _ <~ next; xret (leaf_node N_Constant (t_val tok))
  | _ => primaryexp fuel
  end.

(** [src/ExpressionParser.cpp:1177-1194] subexpr *)
Fixpoint binop_loop (fuel : nat) (limit : Z) (n : Ast) (op : Operator) : PM (Ast * Operator) :=
  match fuel with
  | O => rfail
  | S fuel =>
      if bool_decide (op = E_NoOp) then xret (n, op)
      else match priority op with
        | None => rfail
        | Some (lp, rp) =>
            if limit <? lp then
              _ <~ next;
              v2 <! rec rp;
              binop_loop fuel limit (ANode N_BinOp (QInt (op_val op)) n v2.1) v2.2
            else xret (n, op)
        end
  end.

(** [src/ExpressionParser.cpp:1164-1171] subexpr *)
Definition operand (fuel : nat) : PM Ast :=
  tok <~ peek;
  if isUnop tok then
    _ <~ next;
    r <! rec UNARY_PRIORITY;
    xret (ANode N_UnOp (t_val tok) r.1 ANull)
  else simpleexp fuel.
End Parser.

(** The tree, and the first operator that is not part of it.
    [src/ExpressionParser.cpp:1158-1195] subexpr *)
Fixpoint subexpr (fuel : nat) (limit : Z) : PM (Ast * Operator) :=
  match fuel with
  | O => rfail
  | S fuel =>
      n <! operand (subexpr fuel) fuel;
      tok <~ peek;
      binop_loop (subexpr fuel) fuel limit n (getbinopr tok)
  end.

Section Parse.
Context `{X : ExprLib}.

(** The tokens become a tree.
    [src/ExpressionParser.cpp:68-79] parse *)
Definition parse_tokens (fuel : nat) : SM ExpressionParser bool :=
  _ <~ next;
  r <~ expr (subexpr fuel);
  match r with Some t => _ <~ set_top (TopTree t); rret true | None => rret false end.

(** [delete d_top] where it is not null.
    [src/ExpressionParser.cpp:57-58] parse *)
Definition delete_top : SM ExpressionParser unit :=
  p <~ rget id;
  match d_top p with TopNull => rret tt | TopTree _ => set_top TopFreed | TopFreed => rfail end.

(** [src/ExpressionParser.cpp:45-80] parse *)
Definition parse (fuel : nat) (str : bytes) : SM ExpressionParser bool :=
  _ <~ delete_top;
  match str with
  | [] => _ <~ set_top (TopTree (leaf_node N_Invalid QInvalid)); rret true
  | _ =>
      b <~ lexer (lex_process str);
      if (b : bool) then parse_tokens fuel
      else p <~ rget id; _ <~ set_perror (el_error (d_lex p)); rret false
  end.
End Parse.

(** The destructor.
    [src/ExpressionParser.cpp:39-43] ExpressionParser *)
Definition delete_ExpressionParser (p : ExpressionParser) : option unit :=
  match d_top p with TopFreed => None | _ => Some tt end.
