(* ===== verification/ExprSpec.v ===== *)
(** * The parser of expressions and its grammar

    Expressions with the priorities of their operators, the tokens and the tree of an
    expression, and what the parser does with tokens. *)

From S2P Require Import Prelude Double Bytecode ExprLexer ExprParser.
From Stdlib Require Import Strings.Byte.
Local Open Scope Z_scope.
Local Open Scope rd_scope.

(** ** The grammar *)

(** Expressions as they are written, with parentheses. *)
Inductive exp : Type :=
  | XConst (ty : TokType) (v : QVariant)
  | XName (v : QVariant)
  | XDot (e : exp) (v : QVariant)
  | XIndex (e i : exp)
  | XParen (e : exp)
  | XUn (op : Operator) (e : exp)
  | XBin (op : Operator) (l r : exp).

Definition sym (ty : TokType) : Tok := mkTok ty QInvalid.
Definition op_tok (op : Operator) : Tok := mkTok T_Op (QInt (op_val op)).

Fixpoint toks (e : exp) : list Tok :=
  match e with
  | XConst ty v => [mkTok ty v]
  | XName v => [mkTok T_Name v]
  | XDot e v => toks e ++ [sym T_Dot; mkTok T_Name v]
  | XIndex e i => toks e ++ sym T_LBrack :: toks i ++ [sym T_RBrack]
  | XParen e => sym T_LBrace :: toks e ++ [sym T_RBrace]
  | XUn op e => op_tok op :: toks e
  | XBin op l r => toks l ++ op_tok op :: toks r
  end.

Fixpoint tree (e : exp) : Ast :=
  match e with
  | XConst _ v => leaf_node N_Constant v
  | XName v => leaf_node N_Name v
  | XDot e v => ANode N_DotOp QInvalid (tree e) (leaf_node N_Name v)
  | XIndex e i => ANode N_IndexOp QInvalid (tree e) (tree i)
  | XParen e => ANode N_BraceOp QInvalid (tree e) ANull
  | XUn op e => ANode N_UnOp (QInt (op_val op)) (tree e) ANull
  | XBin op l r => ANode N_BinOp (QInt (op_val op)) (tree l) (tree r)
  end.

Definition is_constant (ty : TokType) : bool :=
  match ty with T_Number | T_String | T_Bool | T_Nil => true | _ => false end.
Definition is_unary (op : Operator) : bool := match op with E_Minus | E_Pound | E_Not => true | _ => false end.
Definition is_primary (e : exp) : bool :=
  match e with XName _ | XDot _ _ | XIndex _ _ | XParen _ => true | _ => false end.

(** No operator is to the right of an expression that binds more than this. *)
Fixpoint edge (e : exp) : Z :=
  match e with
  | XUn _ e => Z.min UNARY_PRIORITY (edge e)
  | XBin op _ r => Z.min (default (0, 0) (priority op)).2 (edge r)
  | _ => 255
  end.

(** The parentheses are where the priorities need them: all operators of the expression
    that are not inside of an operand bind more than [k]; the left operand of an operator is
    not followed by one that binds more. *)
Fixpoint fits (k : Z) (e : exp) : bool :=
  match e with
  | XConst ty _ => is_constant ty
  | XName _ => true
  | XDot e _ => is_primary e && fits 0 e
  | XIndex e i => is_primary e && fits 0 e && fits 0 i
  | XParen e => fits 0 e
  | XUn op e => is_unary op && fits UNARY_PRIORITY e
  | XBin op l r =>
      match priority op with
      | Some (lp, rp) => negb (bool_decide (op = E_NoOp)) && (k <? lp) && fits k l && (lp <=? edge l) && fits rp r
      | None => false
      end
  end.

(** Operators on the left edge. *)
Fixpoint spine (e : exp) : nat :=
  match e with XBin _ l _ => S (spine l) | _ => 0 end.
Fixpoint primary_spine (e : exp) : nat :=
  match e with XDot e _ | XIndex e _ => S (primary_spine e) | _ => 0 end.

Lemma op_of_val op : op_of (op_val op) = Some op.
Proof. by destruct op. Qed.
Lemma tok_op_tok op : tok_op (op_tok op) = op.
Proof. unfold tok_op, op_tok. simpl. by rewrite op_of_val. Qed.
Lemma isUnop_tok op : isUnop (op_tok op) = is_unary op.
Proof. unfold isUnop. by rewrite tok_op_tok. Qed.
Lemma getbinopr_tok op : getbinopr (op_tok op) = op.
Proof. unfold getbinopr. by rewrite tok_op_tok. Qed.

Lemma toks_length e : (1 <= length (toks e))%nat.
Proof. destruct e; simpl; rewrite ?length_app; simpl; lia. Qed.
Lemma spine_length e : (2 * spine e < length (toks e))%nat.
Proof.
  induction e as [| | | | | |op l IH r _]; simpl; rewrite ?length_app; simpl; try lia.
  pose proof (toks_length r). lia.
Qed.
Lemma primary_spine_length e : (2 * primary_spine e < length (toks e))%nat.
Proof.
  induction e as [|? |e IH v|e IH i _| | |]; cbn [toks primary_spine];
    repeat (rewrite length_app || rewrite length_cons); simpl length; lia.
Qed.

(** The last token of an expression. *)
Definition ends_operand (ty : TokType) : bool :=
  is_constant ty || bool_decide (ty = T_Name) || bool_decide (ty = T_RBrack) || bool_decide (ty = T_RBrace).

Lemma toks_last k e : fits k e = true -> exists t, last (toks e) = Some t /\ ends_operand (t_type t) = true.
Proof.
  revert k. induction e as [ty v|v|e IH v|e IH i IHi|e IH|op e IH|op l IHl r IHr]; intros k H; simpl in *.
  - eexists. split; [done|]. unfold ends_operand. simpl. by rewrite H.
  - by eexists.
  - eexists. by rewrite last_app.
  - eexists. rewrite last_app, last_cons, last_app. done.
  - eexists. rewrite last_cons, last_app. done.
  - apply andb_true_iff in H as [_ H]. destruct (IH _ H) as (t & Ht & Hend). exists t. by rewrite last_cons, Ht.
  - destruct (priority op) as [[lp rp]|]; [|done]. repeat (apply andb_true_iff in H as [H ?]).
    destruct (IHr rp) as (t & Ht & Hend); [done|]. exists t. by rewrite last_app, last_cons, Ht.
Qed.

(** ** Positions *)

Section Positions.
Variables (p : ExpressionParser).
Abbreviation ts := (d_tokens (d_lex p)).

(** The parser at the token of this index, or at the last one. *)
Definition at_tok (i : nat) : ExpressionParser :=
  mkExpressionParser (d_top p)
    (mkExpressionLexer ts (Z.of_nat (Nat.min (S i) (length ts))) (d_buf (d_lex p)) (el_error (d_lex p))) (ep_error p).
Definition tok_at (i : nat) : Tok := default invalid_tok (ts !! Nat.min i (length ts - 1)).

Lemma peek_at i : ts <> [] -> peek (at_tok i) = Some (tok_at i, at_tok i).
Proof.
  intros Hne. assert (0 < length ts)%nat by (destruct ts; [done|simpl; lia]).
  unfold peek, lexer, lex_peek, at_tok, tok_at. cbn [d_lex d_cur d_tokens].
  rewrite (proj2 (Z.leb_le _ _)) by lia.
  replace (Z.to_nat (_ - (0 + 1))) with (Nat.min i (length ts - 1)) by lia.
  destruct (lookup_nat_lt ts (Nat.min i (length ts - 1))) as [t ->]; [lia|done].
Qed.

Lemma next_at i : ts <> [] -> exists t, next (at_tok i) = Some (t, at_tok (S i)) /\
  ((S i < length ts)%nat -> t = tok_at (S i)) /\ ((length ts <= S i)%nat -> t = invalid_tok).
Proof.
  intros Hne. unfold next, lexer, lex_next, at_tok, tok_at. cbn [d_lex d_cur d_tokens].
  destruct (Z.ltb_spec (Z.of_nat (Nat.min (S i) (length ts))) (Z.of_nat (length ts))) as [Hlt|Hge].
  - replace (Z.to_nat _) with (S i) by lia. destruct (lookup_nat_lt ts (S i)) as [t Ht]; [lia|]. rewrite Ht.
    exists t. split; [|split; [|lia]].
    + cbn [d_top d_buf el_error ep_error]. do 4 f_equal. lia.
    + intros _. replace (Nat.min (S i) (length ts - 1)) with (S i) by lia. by rewrite Ht.
  - exists invalid_tok. split; [|split; [lia|done]]. do 4 f_equal. lia.
Qed.

(** These tokens are at this index. *)
Definition have (i : nat) (l : list Tok) : Prop := exists rest, drop i ts = l ++ rest.

Lemma have_head i t l : have i (t :: l) -> tok_at i = t /\ (i < length ts)%nat /\ have (S i) l.
Proof.
  intros [rest H]. pose proof (f_equal length H) as Hl. rewrite length_drop in Hl. simpl in Hl.
  assert (Hi : ts !! i = Some t) by (rewrite <- (Nat.add_0_r i), <- lookup_drop, H; done).
  split; [|split; [lia|]].
  - unfold tok_at. replace (Nat.min i (length ts - 1)) with i by lia. by rewrite Hi.
  - exists rest. replace (S i) with (i + 1)%nat by lia. by rewrite <- drop_drop, H.
Qed.

Lemma have_app i l k : have i (l ++ k) -> have i l /\ have (i + length l) k.
Proof.
  intros [rest H]. split; [exists (k ++ rest); by rewrite H, app_assoc|].
  exists rest. by rewrite <- drop_drop, H, <- app_assoc, drop_app_length.
Qed.

Lemma have_nonempty i l : have i l -> l <> [] -> ts <> [].
Proof. intros [rest H] Hne E. rewrite E, drop_nil in H. by destruct l. Qed.

(** The token behind an expression, which is its last one at the end of the tokens. *)
Lemma behind i k e :
  fits k e = true -> have i (toks e) -> (length ts <= i + length (toks e))%nat ->
  ends_operand (t_type (tok_at (i + length (toks e)))) = true.
Proof.
  intros Hf [rest H] Hl. pose proof (f_equal length H) as Hlen. rewrite length_drop, length_app in Hlen.
  pose proof (toks_length e). destruct (toks_last k e Hf) as (t & Ht & He).
  unfold tok_at. replace (Nat.min _ _) with (i + (length (toks e) - 1))%nat by lia.
  rewrite <- lookup_drop, H, lookup_app_l by lia. rewrite last_lookup in Ht.
  replace (length (toks e) - 1)%nat with (pred (length (toks e))) by lia. by rewrite Ht.
Qed.
End Positions.

(** ** Expressions are parsed *)
Lemma xbind_Some {S A B} (m : SM S (option A)) (k : A -> SM S (option B)) s x s' :
  m s = Some (Some x, s') -> xbind m k s = k x s'.
Proof. unfold xbind, rbind. by intros ->. Qed.

Section Complete.
Variables (p : ExpressionParser).
Abbreviation ts := (d_tokens (d_lex p)).
Abbreviation at_tok := (at_tok p).
Abbreviation tok_at := (tok_at p).
Abbreviation have := (have p).

Lemma peek_step {A} i (k : Tok -> SM ExpressionParser A) : ts <> [] -> rbind peek k (at_tok i) = k (tok_at i) (at_tok i).
Proof. intros H. by rewrite (rbind_Some _ _ _ _ _ (peek_at p i H)). Qed.

Lemma next_step {A} i (k : SM ExpressionParser A) : ts <> [] -> rbind next (fun _ => k) (at_tok i) = k (at_tok (S i)).
Proof. intros H. destruct (next_at p i H) as (t & Ht & _). by rewrite (rbind_Some _ _ _ _ _ Ht). Qed.

Lemma expect_step {A} i t ty msg (k : unit -> PM A) :
  have i [t] -> t_type t = ty -> xbind (expect ty msg) k (at_tok i) = k tt (at_tok (S i)).
Proof.
  intros H Ht. pose proof (have_nonempty p i _ H ltac:(done)) as Hne. destruct (have_head p i t [] H) as [E _].
  apply xbind_Some. unfold expect. rewrite peek_step, E by done. rewrite bool_decide_eq_true_2 by done.
  by rewrite next_step.
Qed.

(** The token at this index is not part of an expression that ends in front of it. *)
Definition stops (j : nat) (bound : Z) : Prop :=
  t_type (tok_at j) <> T_Dot /\ t_type (tok_at j) <> T_LBrack /\
  exists lp rp, priority (getbinopr (tok_at j)) = Some (lp, rp) /\ lp <= bound.

Lemma stops_mono j b b' : stops j b -> b <= b' -> stops j b'.
Proof. intros (? & ? & lp & rp & ? & ?) ?. do 2 (split; [done|]). exists lp, rp. split; [done|lia]. Qed.

Lemma stops_bracket j t b : have j [t] -> t_type t = T_RBrack \/ t_type t = T_RBrace -> 0 <= b -> stops j b.
Proof.
  intros H Ht Hb. destruct (have_head p j t [] H) as [E _]. unfold stops, getbinopr. rewrite E.
  destruct Ht as [-> | ->]; (split; [done|]; split; [done|]); exists 0, 0; by rewrite bool_decide_eq_false_2.
Qed.

Lemma stops_op j op l b : have j (op_tok op :: l) -> (forall lp rp, priority op = Some (lp, rp) -> lp <= b) ->
  priority op <> None -> stops j b.
Proof.
  intros H Hb Ho. destruct (have_head p j _ l H) as [E _]. unfold stops. rewrite E, getbinopr_tok.
  split; [done|]. split; [done|]. destruct (priority op) as [[lp rp]|]; [|done]. exists lp, rp. split; [done|]. by eapply Hb.
Qed.

Lemma edge_range e : forall k, fits k e = true -> 0 <= edge e <= 255.
Proof.
  induction e as [| | | | |op e IH|op l _ r IH]; intros k H; simpl in *; try lia.
  - apply andb_true_iff in H as [_ H]. unfold UNARY_PRIORITY in *. apply IH in H. lia.
  - destruct (priority op) as [[lp rp]|] eqn:E; [|done]. repeat (apply andb_true_iff in H as [H ?]).
    simpl. assert (0 <= rp <= 9) by (destruct op; simplify_eq/=; lia).
    pose proof (IH rp ltac:(done)). lia.
Qed.

(** What is shown of an expression: the parser builds its tree, and is then in front of
    what follows. *)
Definition parsed (e : exp) : Prop := forall i k fuel,
  fits k e = true -> have i (toks e) -> stops (i + length (toks e)) (edge e) -> (length (toks e) <= fuel)%nat ->
  subexpr (S fuel) k (at_tok i) =
  binop_loop (subexpr fuel) (fuel - spine e) k (tree e) (getbinopr (tok_at (i + length (toks e))))
    (at_tok (i + length (toks e))).

Definition primary_parsed (e : exp) : Prop := forall i fuel,
  is_primary e = true -> fits 0 e = true -> have i (toks e) -> (length (toks e) <= fuel)%nat ->
  primaryexp (subexpr fuel) fuel (at_tok i) =
  primary_loop (subexpr fuel) (fuel - primary_spine e) (tree e) (at_tok (i + length (toks e))).

(** The loop ends in front of what binds less. *)
Lemma binop_stops rec fuel k n j :
  stops j k -> (0 < fuel)%nat ->
  binop_loop rec fuel k n (getbinopr (tok_at j)) (at_tok j) = Some (Some (n, getbinopr (tok_at j)), at_tok j).
Proof.
  intros (_ & _ & lp & rp & Hp & Hle) Hf. destruct fuel as [|fuel]; [lia|]. simpl.
  case_bool_decide; [done|]. rewrite Hp. by rewrite (proj2 (Z.ltb_ge _ _)).
Qed.

(** An expression with a limit, where what follows binds less. *)
Lemma parsed_at e i k fuel :
  parsed e -> fits k e = true -> have i (toks e) -> stops (i + length (toks e)) (Z.min k (edge e)) ->
  (length (toks e) < fuel)%nat ->
  subexpr fuel k (at_tok i) =
  Some (Some (tree e, getbinopr (tok_at (i + length (toks e)))), at_tok (i + length (toks e))).
Proof.
  intros He Hf Hi Hs Hl. destruct fuel as [|fuel]; [lia|].
  rewrite (He i k fuel Hf Hi) by (first [lia | eapply stops_mono; [done|lia]]).
  apply binop_stops; [eapply stops_mono; [done|lia]|]. pose proof (spine_length e). lia.
Qed.

Lemma expr_at e i fuel :
  parsed e -> fits 0 e = true -> have i (toks e) -> stops (i + length (toks e)) 0 -> (length (toks e) < fuel)%nat ->
  expr (subexpr fuel) (at_tok i) = Some (Some (tree e), at_tok (i + length (toks e))).
Proof.
  intros He Hf Hi Hs Hl. unfold expr. pose proof (edge_range e 0 Hf).
  rewrite (xbind_Some _ _ _ _ _ (parsed_at e i 0 fuel He Hf Hi ltac:(by rewrite Z.min_l by lia) Hl)). done.
Qed.

(** The operand of an expression that is not an operation. *)
Lemma operand_primary e i fuel :
  primary_parsed e -> is_primary e = true -> fits 0 e = true -> have i (toks e) ->
  stops (i + length (toks e)) 255 -> (length (toks e) <= fuel)%nat ->
  operand (subexpr fuel) fuel (at_tok i) = Some (Some (tree e), at_tok (i + length (toks e))).
Proof.
  intros He Hp Hf Hi (H1 & H2 & _) Hl. pose proof (toks_length e).
  assert (Hne : ts <> []) by (eapply have_nonempty; [done|]; intros E; rewrite E in *; simpl in *; lia).
  assert (Hh : t_type (tok_at i) = T_LBrace \/ t_type (tok_at i) = T_Name).
  { assert (exists t l, toks e = t :: l /\ (t_type t = T_LBrace \/ t_type t = T_Name)) as (t & l & E & Ht).
    { clear -Hp Hf. induction e as [|v|e IH v|e IH i _|e _| |]; try done; simpl in *.
      - do 2 eexists. split; [done|]. by right.
      - apply andb_true_iff in Hf as [Hp' Hf]. destruct IH as (t & l & -> & ?); [done..|]. eauto.
      - apply andb_true_iff in Hf as [Hf _]. apply andb_true_iff in Hf as [Hp' Hf]. destruct IH as (t & l & -> & ?); [done..|]. eauto.
      - eauto. }
    rewrite E in Hi. by destruct (have_head p i t l Hi) as [-> _]. }
  unfold operand. rewrite peek_step by done.
  replace (isUnop (tok_at i)) with false.
  2: { unfold isUnop. destruct Hh as [-> | ->]; done. }
  unfold simpleexp. rewrite peek_step by done.
  assert (Hpe : primaryexp (subexpr fuel) fuel (at_tok i) = Some (Some (tree e), at_tok (i + length (toks e)))).
  { rewrite He by done. pose proof (primary_spine_length e). destruct (fuel - primary_spine e)%nat eqn:E; [lia|]. simpl.
    rewrite peek_step by done. by destruct (t_type (tok_at _)). }
  destruct Hh as [-> | ->]; exact Hpe.
Qed.

Lemma primary_parsed_name v : primary_parsed (XName v).
Proof.
  intros i fuel _ _ Hi Hl. pose proof (have_nonempty p i _ Hi ltac:(done)) as Hne.
  destruct (have_head p i _ _ Hi) as [E _]. unfold primaryexp. simpl. rewrite Nat.sub_0_r.
  apply xbind_Some. unfold prefixexp. rewrite peek_step, E by done. simpl. rewrite next_step by done.
  by rewrite Nat.add_1_r.
Qed.

Lemma primary_parsed_paren e : parsed e -> primary_parsed (XParen e).
Proof.
  intros He i fuel _ Hf Hi Hl. simpl in *. pose proof (have_nonempty p i _ Hi ltac:(done)) as Hne.
  destruct (have_head p i _ _ Hi) as (E & _ & Hi1). apply have_app in Hi1 as [Hi1 Hi2].
  rewrite length_app in *. simpl in *. rewrite Nat.sub_0_r. apply xbind_Some.
  unfold prefixexp. rewrite peek_step, E by done. simpl. rewrite next_step by done.
  rewrite (xbind_Some _ _ _ _ _ (expr_at e (S i) fuel He Hf Hi1 ltac:(eapply stops_bracket; [done|by right|lia]) ltac:(lia))).
  rewrite (expect_step _ _ T_RBrace _ _ Hi2) by done.
  by replace (i + S (length (toks e) + 1))%nat with (S (S i + length (toks e))) by lia.
Qed.

Lemma primary_parsed_dot e v : primary_parsed e -> primary_parsed (XDot e v).
Proof.
  intros He i fuel _ Hf Hi Hl. simpl in *. apply andb_true_iff in Hf as [Hp Hf].
  apply have_app in Hi as [Hi1 Hi2]. pose proof (have_nonempty p _ _ Hi2 ltac:(done)) as Hne.
  destruct (have_head p _ _ _ Hi2) as (E1 & L1 & Hi3). destruct (have_head p _ _ _ Hi3) as (E2 & L2 & _).
  rewrite length_app in *. simpl in *. rewrite He by (done || lia).
  pose proof (primary_spine_length e). destruct (fuel - primary_spine e)%nat eqn:Ef; [lia|].
  replace (fuel - S (primary_spine e))%nat with n by lia. simpl.
  rewrite peek_step, E1 by done. simpl. destruct (next_at p (i + length (toks e)) Hne) as (t & Ht & Hlt & _).
  rewrite (rbind_Some _ _ _ _ _ Ht), Hlt, E2 by lia. simpl. rewrite next_step by done.
  by replace (i + (length (toks e) + 2))%nat with (S (S (i + length (toks e)))) by lia.
Qed.

Lemma primary_parsed_index e x : primary_parsed e -> parsed x -> primary_parsed (XIndex e x).
Proof.
  intros He Hx i fuel _ Hf Hi Hl. simpl in *. apply andb_true_iff in Hf as [Hf Hfx]. apply andb_true_iff in Hf as [Hp Hf].
  apply have_app in Hi as [Hi1 Hi2]. pose proof (have_nonempty p _ _ Hi2 ltac:(done)) as Hne.
  destruct (have_head p _ _ _ Hi2) as (E1 & L1 & Hi3). apply have_app in Hi3 as [Hi3 Hi4].
  rewrite length_app in *. simpl in *. rewrite length_app in *. simpl in *. rewrite He by (done || lia).
  pose proof (primary_spine_length e). destruct (fuel - primary_spine e)%nat eqn:Ef; [lia|].
  replace (fuel - S (primary_spine e))%nat with n by lia. simpl.
  rewrite peek_step, E1 by done. simpl. rewrite next_step by done.
  rewrite (xbind_Some _ _ _ _ _ (expr_at x _ fuel Hx Hfx Hi3 ltac:(eapply stops_bracket; [done|by left|lia]) ltac:(lia))).
  rewrite (expect_step _ _ T_RBrack _ _ Hi4) by done.
  by replace (i + (length (toks e) + S (length (toks x) + 1)))%nat with (S (S (i + length (toks e)) + length (toks x))) by lia.
Qed.

(** An expression that is an operand. *)
Lemma parsed_operand e :
  spine e = 0%nat ->
  (forall i k fuel, fits k e = true -> have i (toks e) -> stops (i + length (toks e)) (edge e) ->
     (length (toks e) <= fuel)%nat ->
     operand (subexpr fuel) fuel (at_tok i) = Some (Some (tree e), at_tok (i + length (toks e)))) ->
  parsed e.
Proof.
  intros Hs He i k fuel Hf Hi Hst Hl. pose proof (toks_length e).
  assert (Hne : ts <> []) by (eapply have_nonempty; [done|]; intros E; rewrite E in *; simpl in *; lia).
  simpl. rewrite (xbind_Some _ _ _ _ _ (He i k fuel Hf Hi Hst Hl)), peek_step by done. by rewrite Hs, Nat.sub_0_r.
Qed.

Lemma parsed_const ty v : parsed (XConst ty v).
Proof.
  apply parsed_operand; [done|]. intros i k fuel Hf Hi _ _. simpl in *.
  pose proof (have_nonempty p _ _ Hi ltac:(done)) as Hne. destruct (have_head p _ _ _ Hi) as (E & _).
  unfold operand, simpleexp. rewrite peek_step, E by done.
  assert (isUnop (mkTok ty v) = false) as -> by (by destruct ty). rewrite peek_step, E, Nat.add_1_r by done.
  destruct ty; try discriminate Hf; cbn [t_type t_val]; by rewrite next_step.
Qed.

Lemma parsed_primary e : primary_parsed e -> is_primary e = true -> parsed e.
Proof.
  intros He Hp. apply parsed_operand; [by destruct e|]. intros i k fuel Hf Hi Hs Hl.
  apply operand_primary; try done; [by destruct e|]. by destruct e.
Qed.

Lemma parsed_un op e : parsed e -> parsed (XUn op e).
Proof.
  intros He. apply parsed_operand; [done|]. intros i k fuel Hf Hi Hs Hl. simpl in *.
  apply andb_true_iff in Hf as [Hop Hf]. pose proof (have_nonempty p _ _ Hi ltac:(done)) as Hne.
  destruct (have_head p _ _ _ Hi) as (E & _ & Hi1). replace (i + S (length (toks e)))%nat with (S i + length (toks e))%nat in * by lia.
  unfold operand. rewrite peek_step, E, isUnop_tok, Hop, next_step by done.
  by rewrite (xbind_Some _ _ _ _ _ (parsed_at e (S i) UNARY_PRIORITY fuel He Hf Hi1 Hs ltac:(lia))).
Qed.

Lemma parsed_bin op l r : parsed l -> parsed r -> parsed (XBin op l r).
Proof.
  intros Hl Hr i k fuel Hf Hi Hs Hlen. cbn [fits toks tree spine edge] in *. destruct (priority op) as [[lp rp]|] eqn:Ep; [|done]. cbn [default snd] in Hs.
  repeat (apply andb_true_iff in Hf as [Hf ?]). apply negb_true_iff, bool_decide_eq_false in Hf.
  apply have_app in Hi as [Hi1 Hi2]. pose proof (have_nonempty p _ _ Hi2 ltac:(done)) as Hne.
  destruct (have_head p _ _ _ Hi2) as (E & _ & Hi3). rewrite length_app, length_cons in *.
  rewrite (Hl i k fuel) by (first [done | lia | eapply stops_op; [done| |by rewrite Ep]; rewrite Ep; intros ? ? [= <- <-]; lia]).
  rewrite E, getbinopr_tok. pose proof (spine_length l).
  destruct (fuel - spine l)%nat eqn:Ef; [lia|]. replace (fuel - S (spine l))%nat with n by lia. cbn [binop_loop].
  rewrite bool_decide_eq_false_2 by done. rewrite Ep. replace (k <? lp) with true by lia. rewrite next_step by done.
  replace (i + (length (toks l) + S (length (toks r))))%nat with (S (i + length (toks l)) + length (toks r))%nat in * by lia.
  by rewrite (xbind_Some _ _ _ _ _ (parsed_at r _ rp fuel Hr ltac:(done) Hi3 Hs ltac:(lia))).
Qed.

Lemma all_parsed e : parsed e /\ (is_primary e = true -> primary_parsed e).
Proof.
  assert (Hp : forall e, primary_parsed e -> is_primary e = true -> parsed e /\ (is_primary e = true -> primary_parsed e)).
  { intros e' H1 H2. split; [by apply parsed_primary|done]. }
  induction e as [ty v|v|e IH v|e IH x IHx|e IH|op e IH|op l IHl r IHr].
  - split; [apply parsed_const|done].
  - apply Hp; [apply primary_parsed_name|done].
  - apply Hp; [|done]. destruct (is_primary e) eqn:E; [by apply primary_parsed_dot, IH|].
    intros i fuel _ Hf. simpl in Hf. by rewrite E in Hf.
  - apply Hp; [|done]. destruct (is_primary e) eqn:E; [by apply primary_parsed_index; [apply IH|apply IHx]|].
    intros i fuel _ Hf. simpl in Hf. by rewrite E in Hf.
  - apply Hp; [|done]. by apply primary_parsed_paren, IH.
  - split; [by apply parsed_un, IH|done].
  - split; [by apply parsed_bin; [apply IHl|apply IHr]|done].
Qed.
End Complete.
