(* ===== verification/ExprLexSpec.v ===== *)
(** * The lexer of expressions on words

    A text of words with blanks between them becomes the tokens of these words; the parser
    makes the tree of an expression of them. *)

From S2P Require Import Prelude Double Bytecode ExprLexer ExprParser ExprSpec.
From Stdlib Require Import Strings.Byte.
Local Open Scope Z_scope.
Local Open Scope rd_scope.

(** ** Looking ahead *)

(** The text [r] is left, [k] characters of it have been looked at. *)
Definition looks (ts : list Tok) (r : bytes) (k : nat) (x : ExpressionLexer) : Prop :=
  d_tokens x = ts /\ d_cur x = 0 /\
  exists n, (n <= length (d_source (d_buf x)))%nat /\ drop n (d_source (d_buf x)) = r /\
    d_eaten (d_buf x) = Z.of_nat n /\ d_peekPtr (d_buf x) = Z.of_nat (n + k).

Lemma length_overwrite n s : length (overwrite n s) = length s.
Proof. unfold overwrite. rewrite length_app, length_replicate, length_drop. lia. Qed.
Lemma drop_overwrite n s : drop n (overwrite n s) = drop n s.
Proof.
  unfold overwrite. destruct (Nat.le_gt_cases n (length s)).
  - rewrite Nat.min_l by lia. by rewrite drop_app_length' by (by rewrite length_replicate).
  - rewrite !drop_ge; [done|lia|]. rewrite length_app, length_replicate, length_drop. lia.
Qed.

Lemma looks_fuel ts r k x : looks ts r k x -> (length r < fuel_of x)%nat.
Proof. intros (_ & _ & n & Hn & <- & _). unfold fuel_of. rewrite length_drop. lia. Qed.

Lemma wp_peek1 ts r k x (Q : byte -> ExpressionLexer -> Prop) :
  looks ts r k x -> (forall x', looks ts r (S k) x' -> Q (nth k r x00) x') -> wp peek1 Q x.
Proof.
  intros (Ht & Hc & n & Hn & Hr & He & Hp) HQ. unfold peek1. apply wp_bind, wp_ret. simpl.
  replace (char_at _ _) with (nth k r x00).
  - apply HQ. split; [done|]. split; [done|]. exists n. split; [done|]. split; [done|]. split; [done|].
    simpl. rewrite Hp. lia.
  - unfold char_at, source_size. rewrite Hp, <- Hr, Z.add_0_r. destruct (Z.ltb_spec (Z.of_nat (n + k)) (Z.of_nat (length (d_source (d_buf x))))).
    + by rewrite !nth_lookup, lookup_drop, Nat2Z.id.
    + apply nth_overflow. rewrite length_drop. lia.
Qed.

Lemma wp_eat ts r k x count (Q : unit -> ExpressionLexer -> Prop) :
  looks ts r k x ->
  (count = -1 /\ (k <= length r)%nat \/ 0 <= count <= Z.of_nat k /\ count <= Z.of_nat (length r)) ->
  (forall x', looks ts (drop (if count =? -1 then k else Z.to_nat count) r) 0 x' -> Q tt x') -> wp (eat count) Q x.
Proof.
  intros (Ht & Hc & n & Hn & Hr & He & Hp) Hcount HQ. unfold eat, buf, wp, sb_eat.
  set (m := if count =? -1 then k else Z.to_nat count) in *.
  assert (Hm : (m <= length r)%nat) by (subst m; destruct (Z.eqb_spec count (-1)); lia).
  assert (Hb : (if (count =? -1) || (d_peekPtr (d_buf x) - d_eaten (d_buf x) <? count)
                then (d_peekPtr (d_buf x), d_peekPtr (d_buf x))
                else (d_eaten (d_buf x) + count, d_eaten (d_buf x) + count)) = (Z.of_nat (n + m), Z.of_nat (n + m))).
  { subst m. rewrite Hp, He. destruct (Z.eqb_spec count (-1)) as [->|]; simpl; [done|].
    rewrite (proj2 (Z.ltb_ge _ _)) by lia. f_equal; lia. }
  rewrite Hb. simpl. apply HQ. split; [done|]. split; [done|]. exists (n + m)%nat. simpl.
  rewrite <- Hr, length_drop in Hm. rewrite length_overwrite, Nat2Z.id, drop_overwrite, <- Hr, drop_drop.
  split; [lia|]. split; [done|]. split; [done|]. lia.
Qed.

Lemma wp_rewind ts r k x (Q : unit -> ExpressionLexer -> Prop) :
  looks ts r k x -> (forall x', looks ts r 0 x' -> Q tt x') -> wp rewind Q x.
Proof.
  intros (Ht & Hc & n & Hn & Hr & He & Hp) HQ. apply HQ. split; [done|]. split; [done|].
  exists n. split; [done|]. split; [done|]. split; [done|]. simpl. rewrite He. lia.
Qed.

Lemma wp_xret {S A} (a : A) (Q : option A -> S -> Prop) s : Q (Some a) s -> wp (xret a) Q s.
Proof. done. Qed.

(** ** Words *)

(** What follows a word: nothing, or a blank. *)
Definition ends_word (v : bytes) : Prop := match v with [] => True | c :: _ => isspace c = true end.
Definition end_chars : list byte := [x00; x09; x0a; x0b; x0c; x0d; " "%byte].

Lemma ends_word_hd v : ends_word v -> hd x00 v ∈ end_chars.
Proof.
  destruct v as [|c v]; simpl; [intros _; by_decide|]. intros H.
  assert (Hall : forall c, isspace c = true -> bool_decide (c ∈ end_chars) = true) by (intros c'; by destruct c').
  by apply Hall, bool_decide_eq_true in H.
Qed.

Lemma end_class (q : byte -> bool) v : forallb (fun c => negb (q c)) end_chars = true -> ends_word v -> q (hd x00 v) = false.
Proof.
  intros Hq Hv. apply ends_word_hd, list_elem_of_In in Hv. rewrite forallb_forall in Hq. apply Hq in Hv. by apply negb_true_iff.
Qed.

(** The texts of operators.  The words [and], [or] and [not] are not recognised: they are
    names. *)
Definition op_text (op : Operator) : option bytes :=
  match op with
  | E_Plus => Some (qb "+") | E_Minus => Some (qb "-") | E_Star => Some (qb "*") | E_Slash => Some (qb "/")
  | E_Hat => Some (qb "^") | E_Percent => Some (qb "%") | E_Concat => Some (qb "..")
  | E_Lt => Some (qb "<") | E_Leq => Some (qb "<=") | E_Gt => Some (qb ">") | E_Geq => Some (qb ">=")
  | E_Eq => Some (qb "==") | E_Neq => Some (qb "~=") | E_Pound => Some (qb "#")
  | E_And | E_Or | E_Not | E_NoOp => None
  end.

Definition is_name (s : bytes) : bool :=
  match s with c :: l => (isalpha c || Byte.eqb c "_") && forallb name_char l | [] => false end.
Definition is_digits (s : bytes) : bool := match s with [] => false | _ => forallb isdigit s end.

Section Words.
Context `{X : ExprLib}.

(** The text of a token. *)
Inductive lword : bytes -> Tok -> Prop :=
  | lword_name s : is_name s = true -> lword s (name_tok s)
  | lword_int s z : is_digits s = true -> text_toUInt 10 s = Some z -> lword s (mkTok T_Number (QDouble (dbl_of_Z z)))
  | lword_real a b d : is_digits a = true -> is_digits b = true -> text_toDouble (a ++ "."%byte :: b) = Some d ->
      lword (a ++ "."%byte :: b) (mkTok T_Number (QDouble d))
  | lword_string q s : q = x22 \/ q = "'"%byte -> Forall (fun c => c <> q /\ c <> "\"%byte) s ->
      lword (q :: s ++ [q]) (mkTok T_String (QByteArray s))
  | lword_op op s : op_text op = Some s -> lword s (op_tok op)
  | lword_sym c ty : bracket_tok c = Some ty -> lword [c] (mkTok ty QInvalid).

(** Words with blanks between them, and none at the end. *)
Inductive words : bytes -> list Tok -> Prop :=
  | words_last bl w t : forallb isspace bl = true -> lword w t -> words (bl ++ w) [t]
  | words_cons bl w t v l : forallb isspace bl = true -> lword w t -> ends_word v -> words v l ->
      words (bl ++ w ++ v) (t :: l).

(** ** Each kind of word *)
Lemma nth_skip (a v : bytes) k r : drop k r = a ++ v -> nth (k + length a) r x00 = hd x00 v.
Proof.
  intros H. rewrite nth_lookup. rewrite <- lookup_drop, H, lookup_app_r, Nat.sub_diag by lia. by destruct v.
Qed.

Lemma drop_cons {A} k (r : list A) c l : drop k r = c :: l -> drop (S k) r = l.
Proof. intros H. replace (S k) with (k + 1)%nat by lia. by rewrite <- drop_drop, H. Qed.

Lemma wp_name_loop ts r a v x fuel name k (Q : bytes -> ExpressionLexer -> Prop) :
  looks ts r (S k) x -> drop k r = a ++ v -> forallb name_char a = true -> name_char (hd x00 v) = false ->
  (length a < fuel)%nat ->
  (forall x', looks ts r (S k + length a) x' -> Q (name ++ a) x') ->
  wp (name_loop fuel (hd x00 (a ++ v)) name) Q x.
Proof.
  revert k x fuel name. induction a as [|c a IH]; intros k x fuel name Hx Hr Ha Hv Hf HQ; (destruct fuel as [|fuel]; [simpl in Hf; lia|]).
  - simpl. rewrite Hv. apply wp_ret. rewrite <- (app_nil_r name). apply HQ. by rewrite Nat.add_0_r.
  - simpl in *. apply andb_true_iff in Ha as [Hc Ha]. rewrite Hc. apply drop_cons in Hr as Hr'.
    apply wp_bind. eapply wp_peek1; [done|]. intros x1 Hx1.
    replace (nth (S k) r x00) with (hd x00 (a ++ v)).
    + eapply IH; [done..|lia|]. intros x' Hx'. rewrite <- app_assoc. apply HQ. by replace (S (k + S (length a)))%nat with (S (S k + length a)) by lia.
    + rewrite <- (nth_skip [] (a ++ v) (S k) r) by done. f_equal. simpl. lia.
Qed.

Lemma nth_0 r : nth 0 r x00 = hd x00 r.
Proof. by destruct r. Qed.

(** The text [v] is left, and this is the result. *)
Definition leaves {A} (ts : list Tok) (v : bytes) (a : A) (o : A) (x' : ExpressionLexer) : Prop :=
  o = a /\ looks ts v 0 x'.

Lemma wp_rewind_ret {A} ts r k x (a : A) : looks ts r k x -> wp (_ <~ rewind; rret a) (leaves ts r a) x.
Proof. intros H. apply wp_bind. eapply wp_rewind; [done|]. intros x' ?. by apply wp_ret. Qed.

Lemma wp_fetchName ts w v x :
  looks ts (w ++ v) 0 x -> is_name w = true -> ends_word v -> wp fetchName (leaves ts v (Some w)) x.
Proof.
  intros Hx Hw Hv. pose proof (looks_fuel _ _ _ _ Hx) as Hf. rewrite length_app in Hf.
  destruct w as [|c w]; [done|]. simpl in Hw. apply andb_true_iff in Hw as [Hc Hw].
  apply wp_bind, wp_get, wp_bind. eapply wp_peek1; [done|]. intros x1 Hx1. rewrite nth_0. simpl hd. rewrite Hc.
  apply wp_bind. unfold id. change c with (hd x00 ((c :: w) ++ v)).
  eapply (wp_name_loop ts ((c :: w) ++ v) (c :: w) v x1 _ [] 0); [done|done| | |simpl in *; lia|].
  - simpl. rewrite Hw, andb_true_r. unfold name_char. destruct (isalpha c); [done|]. simpl in *. rewrite Hc. apply orb_true_r.
  - by apply end_class.
  - intros x2 Hx2. apply wp_bind. eapply wp_eat; [done| |].
    + right. rewrite app_nil_l, length_app. simpl. lia.
    + intros x3 Hx3. apply wp_ret. split; [done|]. rewrite app_nil_l in Hx3.
      destruct (Z.eqb_spec (Z.of_nat (length (c :: w))) (-1)); [lia|].
      by rewrite Nat2Z.id, drop_app_length in Hx3.
Qed.

Lemma wp_no_name ts r x :
  looks ts r 0 x -> isalpha (hd x00 r) || Byte.eqb (hd x00 r) "_" = false -> wp fetchName (leaves ts r None) x.
Proof.
  intros Hx Hc. apply wp_bind, wp_get, wp_bind. eapply wp_peek1; [done|]. intros x1 Hx1. rewrite nth_0, Hc.
  by eapply wp_rewind_ret.
Qed.

(** No string starts here. *)
Definition no_string (r : bytes) : bool :=
  negb (Byte.eqb (hd x00 r) x22) && negb (Byte.eqb (hd x00 r) "'") &&
  (negb (Byte.eqb (hd x00 r) "[") || negb (Byte.eqb (nth 1 r x00) "=") && negb (Byte.eqb (nth 1 r x00) "[")).

Lemma wp_no_string ts r x : looks ts r 0 x -> no_string r = true -> wp fetchString (leaves ts r None) x.
Proof.
  intros Hx H. unfold no_string in H. apply andb_true_iff in H as [H H3]. apply andb_true_iff in H as [H1 H2].
  apply negb_true_iff in H1, H2.
  apply wp_bind, wp_get, wp_bind. eapply wp_peek1; [done|]. intros x1 Hx1. rewrite nth_0, H1, H2.
  destruct (Byte.eqb _ "["); [|by eapply wp_rewind_ret]. simpl in H3. apply andb_true_iff in H3 as [H3 H4].
  apply negb_true_iff in H3, H4. apply wp_bind. eapply wp_peek1; [done|]. intros x2 Hx2. rewrite H3, H4.
  by eapply wp_rewind_ret.
Qed.

(** No number starts here. *)
Definition no_number (r : bytes) : bool :=
  negb (isdigit (hd x00 r)) && (negb (Byte.eqb (hd x00 r) ".") || negb (isdigit (nth 1 r x00))).

Lemma wp_no_number ts r x : looks ts r 0 x -> no_number r = true -> wp fetchNumber (leaves ts r (Some None)) x.
Proof.
  intros Hx H. unfold no_number in H. apply andb_true_iff in H as [H1 H2]. apply negb_true_iff in H1.
  apply wp_bind, wp_get, wp_bind. eapply wp_peek1; [done|]. intros x1 Hx1. rewrite nth_0, H1. simpl.
  destruct (Byte.eqb _ "."); simpl; [|by eapply wp_rewind_ret].
  apply wp_bind. eapply wp_peek1; [done|]. intros x2 Hx2. simpl in H2. rewrite H2. by eapply wp_rewind_ret.
Qed.

(** ** Numbers *)
Lemma digit_class c : isdigit c = true -> Byte.eqb c "." = false /\ Byte.eqb c "x" = false.
Proof. by destruct c. Qed.

(** Digits are added to the number. *)
Lemma wp_digit_run ts r a v st fuel anz number k x (Q : option dbl -> ExpressionLexer -> Prop) :
  st <> Exponent1 -> looks ts r (S k) x -> drop k r = a ++ v -> forallb isdigit a = true -> (length a <= fuel)%nat ->
  (forall x', looks ts r (S k + length a) x' ->
     wp (decimal_loop (fuel - length a) st (match st with Nachkomma => anz + Z.of_nat (length a) | _ => anz end)
           (number ++ a) (hd x00 v)) Q x') ->
  wp (decimal_loop fuel st anz number (hd x00 (a ++ v))) Q x.
Proof.
  intros Hst. revert fuel anz number k x.
  induction a as [|c a IH]; intros fuel anz number k x Hx Hr Ha Hf HQ.
  - specialize (HQ x). rewrite app_nil_r, Nat.sub_0_r, Nat.add_0_r in HQ. simpl in HQ.
    destruct st; rewrite ?Z.add_0_r in HQ; by apply HQ.
  - destruct fuel as [|fuel]; [simpl in Hf; lia|]. simpl in Ha. apply andb_true_iff in Ha as [Hc Ha].
    destruct (digit_class c Hc) as [Hd _]. apply drop_cons in Hr as Hr'.
    assert (Hn : nth (S k) r x00 = hd x00 (a ++ v)).
    { rewrite <- (nth_skip [] (a ++ v) (S k) r) by done. f_equal. simpl. lia. }
    simpl. rewrite Hd, Hc. destruct st; try done; apply wp_bind; (eapply wp_peek1; [done|]); intros x1 Hx1; rewrite Hn;
      (eapply IH; [done..|simpl in Hf; lia|]); intros x' Hx'; rewrite <- app_assoc; specialize (HQ x');
      simpl length in HQ; replace (S k + S (length a))%nat with (S (S k) + length a)%nat in HQ by lia;
      try (replace (anz + Z.of_nat (S (length a))) with (anz + 1 + Z.of_nat (length a)) in HQ by lia); by apply HQ.
Qed.

(** The end of a number. *)
Lemma wp_number_done ts w v x k d n msg :
  looks ts (w ++ v) k x -> n = Z.of_nat (length w) -> (length w <= k)%nat ->
  wp (number_done n (Some d) msg) (leaves ts v (Some d)) x.
Proof.
  intros Hx -> Hk. apply wp_bind. eapply wp_eat; [done| |].
  - right. rewrite length_app. lia.
  - intros x' Hx'. apply wp_ret. split; [done|]. destruct (Z.eqb_spec (Z.of_nat (length w)) (-1)); [lia|].
    by rewrite Nat2Z.id, drop_app_length in Hx'.
Qed.

Lemma wp_xbind {S A B} (m : SM S (option A)) (k : A -> SM S (option B)) (Q : option B -> S -> Prop) s :
  wp m (fun o s' => match o with Some a => wp (k a) Q s' | None => Q None s' end) s -> wp (xbind m k) Q s.
Proof.
  intros H. apply wp_bind. eapply wp_mono; [exact H|]. intros [a|] s' Ha; [done|by apply wp_ret].
Qed.

(** From the second character of a number on. *)
Lemma wp_number_start ts c a v x (Q : option (option dbl) -> ExpressionLexer -> Prop) :
  looks ts ((c :: a) ++ v) 0 x -> isdigit c = true -> Byte.eqb (hd x00 (a ++ v)) "x" = false ->
  (forall x' fuel, looks ts ((c :: a) ++ v) 2 x' -> (length (a ++ v) + 1 < fuel)%nat ->
     wp (decimal_loop fuel Vorkomma 0 [c] (hd x00 (a ++ v)))
       (fun o x' => match o with Some d => Q (Some (Some d)) x' | None => Q None x' end) x') ->
  wp fetchNumber Q x.
Proof.
  intros Hx Hc Hx' HQ. destruct (digit_class c Hc) as [Hd _]. pose proof (looks_fuel _ _ _ _ Hx) as Hf.
  apply wp_bind, wp_get. unfold id. revert Hf. generalize (fuel_of x). intros fuel Hf. apply wp_bind. eapply wp_peek1; [done|]. intros x1 Hx1. rewrite nth_0. simpl hd. rewrite Hd, Hc. simpl.
  apply wp_bind. eapply wp_peek1; [done|]. intros x2 Hx2. simpl nth. rewrite nth_0, Hx'.
  apply wp_xbind. eapply wp_mono; [apply HQ; [done|]|by intros [d|] ?].
  simpl in Hf. lia.
Qed.

Lemma wp_int ts w v z x :
  looks ts (w ++ v) 0 x -> is_digits w = true -> text_toUInt 10 w = Some z -> ends_word v ->
  wp fetchNumber (leaves ts v (Some (Some (dbl_of_Z z)))) x.
Proof.
  intros Hx Hw Hz Hv. destruct w as [|c w]; [done|]. simpl in Hw. apply andb_true_iff in Hw as [Hc Hw].
  apply (wp_number_start ts c w v); [done|done| |].
  - destruct w as [|d w]; [by apply (end_class (fun c => Byte.eqb c "x"))|]. simpl in *. apply andb_true_iff in Hw as [Hd _].
    by apply digit_class.
  - intros x' fuel Hx2 Hf. eapply (wp_digit_run ts ((c :: w) ++ v) w v Vorkomma fuel 0 [c] 1); [done..| |].
    + rewrite length_app in Hf. lia.
    + intros x3 Hx3. rewrite length_app in Hf. destruct (fuel - length w)%nat as [|m] eqn:Em; [lia|].
      simpl. rewrite (end_class (fun c => Byte.eqb c ".") v), (end_class isdigit v), (end_class is_exp v) by done.
      rewrite Hz. simpl option_map. eapply wp_mono; [eapply (wp_number_done ts (c :: w) v); [done|simpl; lia|simpl; lia]|].
      intros o x4 [-> H4]. done.
Qed.

Lemma wp_real ts a b v d x :
  looks ts ((a ++ "."%byte :: b) ++ v) 0 x -> is_digits a = true -> is_digits b = true ->
  text_toDouble (a ++ "."%byte :: b) = Some d -> ends_word v ->
  wp fetchNumber (leaves ts v (Some (Some d))) x.
Proof.
  intros Hx Ha Hb Hd Hv. destruct a as [|c a]; [done|]. simpl in Ha. apply andb_true_iff in Ha as [Hc Ha].
  set (w := (c :: a) ++ "."%byte :: b) in *. assert (Hw : w ++ v = (c :: a) ++ ("."%byte :: b ++ v)).
  { subst w. by rewrite <- app_assoc. }
  apply (wp_number_start ts c a ("."%byte :: b ++ v)); [by rewrite <- Hw|done| |].
  { destruct a as [|e a]; [done|]. simpl in *. apply andb_true_iff in Ha as [He _]. by apply digit_class. }
  rewrite <- Hw. intros x' fuel Hx2 Hf. rewrite length_app in Hf. simpl in Hf. rewrite length_app in Hf.
  eapply (wp_digit_run ts (w ++ v) a ("."%byte :: b ++ v) Vorkomma fuel 0 [c] 1); [done|done|by rewrite Hw|done|lia|].
  intros x3 Hx3. destruct (fuel - length a)%nat as [|m] eqn:Em; [lia|]. simpl.
  apply wp_bind. eapply wp_peek1; [done|]. intros x4 Hx4.
  assert (Hdrop : drop (2 + length a) (w ++ v) = b ++ v).
  { rewrite Hw. replace (2 + length a)%nat with (length (c :: a ++ ["."%byte])) by (simpl; rewrite length_app; simpl; lia).
    replace ((c :: a) ++ "."%byte :: b ++ v) with ((c :: a ++ ["."%byte]) ++ (b ++ v)) by (simpl; by rewrite <- app_assoc).
    apply drop_app_length. }
  replace (nth _ (w ++ v) x00) with (hd x00 (b ++ v)).
  2: { rewrite <- (nth_skip [] (b ++ v) (2 + length a) (w ++ v)) by done. f_equal. simpl. lia. }
  eapply (wp_digit_run ts (w ++ v) b v Nachkomma m 0 _ (2 + length a)); [done| |done|by destruct b|lia|].
  { by replace (S (2 + length a)) with (S (2 + length a))%nat by lia. }
  intros x5 Hx5. destruct (m - length b)%nat as [|m'] eqn:Em'; [lia|].
  assert (Hlb : 0 < Z.of_nat (length b)) by (destruct b; [done|simpl; lia]).
  cbn [decimal_loop]. rewrite (end_class isdigit v), (end_class is_exp v) by done.
  destruct (Z.eqb_spec (0 + Z.of_nat (length b)) 0); [lia|].
  assert (Hnum : (c :: a ++ ["."%byte]) ++ b = w) by (subst w; simpl; by rewrite <- app_assoc).
  rewrite Hnum, Hd.
  eapply wp_mono; [eapply (wp_number_done ts w v); [done|done|]|].
  - subst w. rewrite length_app. simpl. lia.
  - intros o x6 [-> H6]. done.
Qed.

(** ** Strings and symbols *)
Lemma wp_quoted_loop ts r q a v fuel tmp k x (Q : bytes -> ExpressionLexer -> Prop) :
  looks ts r (S k) x -> drop k r = a ++ q :: v -> Forall (fun c => c <> q /\ c <> "\"%byte) a -> (length a < fuel)%nat ->
  (forall x', looks ts r (S k + length a) x' -> Q (tmp ++ a) x') ->
  wp (quoted_loop fuel q (hd x00 (a ++ q :: v)) false tmp) Q x.
Proof.
  revert fuel tmp k x. induction a as [|c a IH]; intros fuel tmp k x Hx Hr Ha Hf HQ; (destruct fuel as [|fuel]; [lia|]).
  - simpl. rewrite eqb_refl. simpl. apply wp_ret. rewrite <- (app_nil_r tmp). apply HQ. by rewrite Nat.add_0_r.
  - inversion Ha as [|? ? [Hq Hb] Ha']; subst. simpl.
    destruct (Byte.eqb c q) eqn:E; [by apply eqb_eq in E|]. simpl. apply drop_cons in Hr as Hr'.
    apply wp_bind. eapply wp_peek1; [done|]. intros x1 Hx1.
    assert (Hn : nth (S k) r x00 = hd x00 (a ++ q :: v)).
    { rewrite <- (nth_skip [] (a ++ q :: v) (S k) r) by done. f_equal. simpl. lia. }
    simpl in Hn. rewrite Hn. destruct (Byte.eqb c "\") eqn:E2; [by apply eqb_eq in E2|].
    eapply IH; [done..|simpl in Hf; lia|]. intros x' Hx'. rewrite <- app_assoc. apply HQ.
    by replace (S k + length (c :: a))%nat with (S (S k) + length a)%nat by (simpl; lia).
Qed.

Lemma wp_quoted ts q a v x :
  looks ts ((q :: a ++ [q]) ++ v) 0 x -> q = x22 \/ q = "'"%byte -> Forall (fun c => c <> q /\ c <> "\"%byte) a ->
  wp fetchString (leaves ts v (Some a)) x.
Proof.
  intros Hx Hq Ha. pose proof (looks_fuel _ _ _ _ Hx) as Hf. rewrite length_app in Hf. simpl in Hf. rewrite length_app in Hf.
  set (r := (q :: a ++ [q]) ++ v) in *. assert (Hr : r = q :: a ++ q :: v) by (subst r; simpl; by rewrite <- app_assoc).
  apply wp_bind, wp_get. unfold id. revert Hf. generalize (fuel_of x). intros fuel Hf. cbv zeta.
  apply wp_bind. eapply wp_peek1; [done|]. intros x1 Hx1. rewrite nth_0.
  assert (H : wp (quoted fuel q) (leaves ts v (Some a)) x1).
  { apply wp_bind. eapply wp_peek1; [done|]. intros x2 Hx2.
    replace (nth 1 r x00) with (hd x00 (a ++ q :: v)) by (rewrite Hr; simpl; by destruct a).
    apply wp_bind. eapply (wp_quoted_loop ts r q a v fuel [] 1); [done|by rewrite Hr|done|simpl in Hf; lia|].
    intros x3 Hx3. apply wp_bind. eapply wp_eat; [done| |].
    - left. split; [done|]. rewrite Hr. simpl. rewrite length_app. simpl. lia.
    - intros x4 Hx4. apply wp_ret. split; [done|]. simpl (_ =? _) in Hx4. cbv iota in Hx4.
      replace v with (drop (2 + length a) r); [done|]. subst r.
      replace (2 + length a)%nat with (length (q :: a ++ [q])) by (simpl; rewrite length_app; simpl; lia). apply drop_app_length. }
  rewrite Hr. simpl hd. destruct Hq as [-> | ->]; exact H.
Qed.

Ltac step_peek := apply wp_bind; eapply wp_peek1; [eassumption|]; intros ? ?; simpl nth.
Ltac step_eat v :=
  apply wp_bind; eapply wp_eat; [eassumption|first [left; split; [done|simpl; lia]|right; simpl; lia]|];
  intros ? ?; apply wp_ret; by split.

Lemma wp_op ts op s v x :
  op_text op = Some s -> looks ts (s ++ v) 0 x -> ends_word v -> wp fetchOp (leaves ts v op) x.
Proof.
  intros Ho Hx Hv. pose proof (end_class (fun c => Byte.eqb c "=") v eq_refl Hv) as He.
  destruct op; try discriminate Ho; injection Ho as <-; unfold fetchOp; step_peek; unfold or_equal, second, eaten_op; simpl;
    try step_eat v; step_peek; try step_eat v; rewrite nth_0, He; step_eat v.
Qed.

Lemma wp_no_op ts c ty v x :
  bracket_tok c = Some ty -> looks ts (c :: v) 0 x -> ends_word v -> wp fetchOp (leaves ts (c :: v) E_NoOp) x.
Proof.
  intros Ho Hx Hv. pose proof (end_class (fun c => Byte.eqb c ".") v eq_refl Hv) as He.
  assert (Hc : c = "("%byte \/ c = ")"%byte \/ c = "["%byte \/ c = "]"%byte \/ c = "."%byte).
  { unfold bracket_tok in Ho. repeat (destruct (Byte.eqb c _) eqn:E in Ho; [apply eqb_eq in E; tauto|clear E]). done. }
  unfold fetchOp. step_peek. destruct Hc as [-> | [-> | [-> | [-> | ->]]]]; simpl;
    try (by eapply wp_rewind_ret). unfold second. step_peek. rewrite nth_0, He. by eapply wp_rewind_ret.
Qed.

Lemma wp_symbol_op ts op s v x :
  op_text op = Some s -> looks ts (s ++ v) 0 x -> ends_word v -> wp fetch_symbol (leaves ts v (Some (op_tok op))) x.
Proof.
  intros Ho Hx Hv. apply wp_bind. eapply wp_mono; [by eapply wp_op|]. intros o x' [-> Hx'].
  rewrite bool_decide_eq_false_2 by (by intros ->). by apply wp_xret.
Qed.

Lemma wp_symbol_bracket ts c ty v x :
  bracket_tok c = Some ty -> looks ts (c :: v) 0 x -> ends_word v ->
  wp fetch_symbol (leaves ts v (Some (mkTok ty QInvalid))) x.
Proof.
  intros Ho Hx Hv. apply wp_bind. eapply wp_mono; [by eapply wp_no_op|]. intros o x' [-> Hx']. simpl.
  step_peek. rewrite Ho. step_eat v.
Qed.

(** ** Texts of words *)
Lemma wp_space_loop ts bl r fuel x (Q : unit -> ExpressionLexer -> Prop) :
  looks ts (bl ++ r) 1 x -> forallb isspace bl = true -> isspace (hd x00 r) = false -> (length bl < fuel)%nat ->
  (forall x', looks ts r 1 x' -> Q tt x') -> wp (space_loop fuel (hd x00 (bl ++ r))) Q x.
Proof.
  revert fuel x. induction bl as [|c bl IH]; intros fuel x Hx Hb Hr Hf HQ; (destruct fuel as [|fuel]; [lia|]); simpl.
  - rewrite Hr. by apply wp_ret, HQ.
  - simpl in Hb. apply andb_true_iff in Hb as [Hc Hb]. rewrite Hc. apply wp_bind.
    eapply wp_eat; [done|left; split; [done|simpl; lia]|]. intros x1 Hx1. simpl in Hx1.
    apply wp_bind. eapply wp_peek1; [done|]. intros x2 Hx2. rewrite nth_0. apply IH; [done..|simpl in Hf; lia|done].
Qed.

Lemma wp_eatSpace ts bl r x (Q : unit -> ExpressionLexer -> Prop) :
  looks ts (bl ++ r) 0 x -> forallb isspace bl = true -> isspace (hd x00 r) = false ->
  (forall x', looks ts r 0 x' -> Q tt x') -> wp eatSpace Q x.
Proof.
  intros Hx Hb Hr HQ. pose proof (looks_fuel _ _ _ _ Hx) as Hf. rewrite length_app in Hf.
  apply wp_bind, wp_get, wp_bind. eapply wp_peek1; [done|]. intros x1 Hx1. rewrite nth_0.
  apply wp_bind. eapply wp_space_loop; [done..|unfold id; lia|]. intros x2 Hx2. by eapply wp_rewind.
Qed.

Lemma looks_not_end ts r x : looks ts r 0 x -> sb_atEnd (d_buf x) = bool_decide (r = []).
Proof.
  intros (_ & _ & n & Hn & Hr & He & _). unfold sb_atEnd, source_size. rewrite He. apply (f_equal length) in Hr as Hl.
  rewrite length_drop in Hl. case_bool_decide as E.
  - subst r. rewrite E in Hl. simpl in Hl. apply Z.eqb_eq. lia.
  - apply Z.eqb_neq. intros Heq. apply E, length_zero_iff_nil. lia.
Qed.

(** The first character of a word. *)
Lemma lword_visible w t : lword w t -> w <> [] /\ forall v, isspace (hd x00 (w ++ v)) = false.
Proof.
  intros H. assert (exists c l, w = c :: l /\ isspace c = false) as (c & l & -> & ?); [|by split].
  destruct H as [s H|s z H _|a b d H _ _|q s H _|op s H|c ty H].
  - destruct s as [|c s]; [done|]. exists c, s. split; [done|]. simpl in H. apply andb_true_iff in H as [H _]. revert H. by destruct c.
  - destruct s as [|c s]; [done|]. exists c, s. split; [done|]. simpl in H. apply andb_true_iff in H as [H _]. revert H. by destruct c.
  - destruct a as [|c s]; [done|]. do 2 eexists. split; [done|]. simpl in H. apply andb_true_iff in H as [H _]. revert H. by destruct c.
  - do 2 eexists. split; [done|]. by destruct H as [-> | ->].
  - destruct op; try discriminate H; injection H as <-; by do 2 eexists.
  - do 2 eexists. split; [done|]. revert H. by destruct c.
Qed.

(** What is no string and no number. *)
Lemma not_string c r :
  Byte.eqb c x22 = false -> Byte.eqb c "'" = false -> Byte.eqb c "[" = false \/ ends_word r -> no_string (c :: r) = true.
Proof.
  intros H1 H2 H3. unfold no_string. simpl hd. rewrite H1, H2. simpl. destruct (Byte.eqb c "[") eqn:E; [|done].
  destruct H3 as [?|H3]; [done|]. rewrite nth_0. pose proof (end_class (fun c => Byte.eqb c "=") r eq_refl H3) as ->.
  by pose proof (end_class (fun c => Byte.eqb c "[") r eq_refl H3) as ->.
Qed.

Lemma fetch_string ts a v x :
  sb_atEnd (d_buf x) = false -> wp eatSpace (fun _ x' => wp fetchString (leaves ts v (Some a)) x') x ->
  wp fetchNext (leaves ts v (Some (mkTok T_String (QByteArray a)))) x.
Proof.
  intros He H. apply wp_bind, wp_get. unfold id. rewrite He. apply wp_bind. eapply wp_mono; [exact H|].
  intros [] x' H'. apply wp_bind. eapply wp_mono; [exact H'|]. intros o x2 [-> Hx2]. by apply wp_xret.
Qed.

Lemma fetch_number ts d v x :
  sb_atEnd (d_buf x) = false ->
  wp eatSpace (fun _ x' => exists r, looks ts r 0 x' /\ no_string r = true /\
                 forall x'', looks ts r 0 x'' -> wp fetchNumber (leaves ts v (Some (Some d))) x'') x ->
  wp fetchNext (leaves ts v (Some (mkTok T_Number (QDouble d)))) x.
Proof.
  intros He H. apply wp_bind, wp_get. unfold id. rewrite He. apply wp_bind. eapply wp_mono; [exact H|].
  intros [] x' (r & Hr & Hs & H'). apply wp_bind. eapply wp_mono; [by eapply wp_no_string|]. intros o x2 [-> Hx2].
  apply wp_xbind. eapply wp_mono; [by apply H'|]. intros o x3 [-> Hx3]. by apply wp_xret.
Qed.

Lemma fetch_name ts w v x :
  sb_atEnd (d_buf x) = false -> is_name w = true -> ends_word v ->
  wp eatSpace (fun _ x' => looks ts (w ++ v) 0 x') x -> wp fetchNext (leaves ts v (Some (name_tok w))) x.
Proof.
  intros He Hw Hv H. apply wp_bind, wp_get. unfold id. rewrite He. apply wp_bind. eapply wp_mono; [exact H|].
  intros [] x' Hx'. simpl in Hx'. destruct w as [|c w]; [done|].
  assert (Hc : isalpha c || Byte.eqb c "_" = true) by (simpl in Hw; by apply andb_true_iff in Hw as [? _]).
  apply wp_bind. eapply wp_mono; [eapply wp_no_string; [done|]|].
  { simpl. apply not_string; [..|left]; revert Hc; by destruct c. }
  intros o x2 [-> Hx2]. apply wp_xbind. eapply wp_mono; [eapply wp_no_number; [done|]|].
  { unfold no_number. simpl hd. revert Hc. by destruct c. }
  intros o x3 [-> Hx3]. apply wp_bind. eapply wp_mono; [by eapply wp_fetchName|]. intros o x4 [-> Hx4]. by apply wp_xret.
Qed.

Lemma fetch_sym ts c r v t x :
  sb_atEnd (d_buf x) = false -> no_string (c :: r) = true -> no_number (c :: r) = true ->
  isalpha c || Byte.eqb c "_" = false ->
  wp eatSpace (fun _ x' => looks ts (c :: r) 0 x') x ->
  (forall x', looks ts (c :: r) 0 x' -> wp fetch_symbol (leaves ts v (Some t)) x') ->
  wp fetchNext (leaves ts v (Some t)) x.
Proof.
  intros He H1 H2 H3 H Hs. apply wp_bind, wp_get. unfold id. rewrite He. apply wp_bind. eapply wp_mono; [exact H|].
  intros [] x' Hx'. simpl in Hx'. apply wp_bind. eapply wp_mono; [by eapply wp_no_string|]. intros o x2 [-> Hx2].
  apply wp_xbind. eapply wp_mono; [by eapply wp_no_number|]. intros o x3 [-> Hx3].
  apply wp_bind. eapply wp_mono; [by eapply wp_no_name|]. intros o x4 [-> Hx4]. by apply Hs.
Qed.

Lemma op_text_start op s v : op_text op = Some s -> ends_word v ->
  exists c s', s = c :: s' /\ no_string (c :: s' ++ v) = true /\ no_number (c :: s' ++ v) = true /\
    isalpha c || Byte.eqb c "_" = false.
Proof.
  intros H Hv. pose proof (end_class isdigit v eq_refl Hv) as Hd.
  destruct op; try discriminate H; injection H as <-; do 2 eexists; (split; [reflexivity|]);
    (split; [by apply not_string; [..|left]|]); (split; [|done]); unfold no_number; simpl; rewrite ?nth_0, ?Hd; done.
Qed.

(** The next token of a text that goes on with a word. *)
Lemma wp_fetchNext ts bl w t v x :
  looks ts (bl ++ w ++ v) 0 x -> forallb isspace bl = true -> lword w t -> ends_word v ->
  wp fetchNext (leaves ts v (Some t)) x.
Proof.
  intros Hx Hb Hw Hv. destruct (lword_visible w t Hw) as [Hne Hvis].
  assert (He : sb_atEnd (d_buf x) = false).
  { rewrite (looks_not_end _ _ _ Hx). apply bool_decide_eq_false. intros E. apply app_eq_nil in E as [_ E]. by apply app_eq_nil in E as [-> _]. }
  assert (Hsp : wp eatSpace (fun _ x' => looks ts (w ++ v) 0 x') x) by (by eapply wp_eatSpace).
  destruct Hw as [s H|s z H Hz|a b d H H' Hd|q s H Hs|op s H|c ty H].
  - by apply fetch_name.
  - apply fetch_number; [done|]. eapply wp_mono; [exact Hsp|]. intros [] x' Hx'. exists (s ++ v). split; [exact Hx'|].
    split; [|by intros; eapply wp_int].
    destruct s as [|c s]; [done|]. simpl in H. apply andb_true_iff in H as [H _].
    simpl. apply not_string; [..|left]; revert H; by destruct c.
  - apply fetch_number; [done|]. eapply wp_mono; [exact Hsp|]. intros [] x' Hx'. eexists. split; [exact Hx'|].
    split; [|by intros; eapply wp_real].
    destruct a as [|c s]; [done|]. simpl in H. apply andb_true_iff in H as [H _].
    simpl. apply not_string; [..|left]; revert H; by destruct c.
  - apply fetch_string; [done|]. eapply wp_mono; [exact Hsp|]. intros [] x' Hx'. by eapply wp_quoted.
  - destruct (op_text_start op s v H Hv) as (c & s' & -> & H1 & H2 & H3).
    eapply (fetch_sym ts c (s' ++ v)); [done..|exact Hsp|intros; by eapply (wp_symbol_op ts op (c :: s'))].
  - eapply (fetch_sym ts c v); [done| | | |exact Hsp|intros; by eapply wp_symbol_bracket].
    + apply not_string; [..|by right]; revert H; by destruct c.
    + unfold no_number. simpl hd. change (nth 1 (c :: v) x00) with (nth 0 v x00). rewrite nth_0, (end_class isdigit v eq_refl Hv).
      rewrite orb_true_r, andb_true_r. revert H. by destruct c.
    + revert H. by destruct c.
Qed.

(** The tokens are appended. *)
Lemma looks_append ts r k x t :
  looks ts r k x -> looks (ts ++ [t]) r k (mkExpressionLexer (d_tokens x ++ [t]) (d_cur x) (d_buf x) (el_error x)).
Proof. intros (<- & Hc & H). split; [done|]. split; [done|]. exact H. Qed.

Lemma lword_valid w t : lword w t -> tok_isValid t = true.
Proof.
  intros [s H|s z H Hz|a b d H H' Hd|q s H Hs|op s H|c ty H]; try done.
  - unfold name_tok. by repeat case_bool_decide.
  - unfold bracket_tok in H. by repeat case_match; simplify_eq.
Qed.

Lemma words_nonempty s l : words s l -> s <> [].
Proof.
  intros [bl w t Hb Hw|bl w t v l' Hb Hw Hv H] E; destruct (lword_visible _ _ Hw) as [Hne _];
    apply app_eq_nil in E as [_ E]; [done|]. by apply app_eq_nil in E as [-> _].
Qed.

Lemma wp_process_loop ts s l fuel x :
  words s l -> looks ts s 0 x -> (length l < fuel)%nat ->
  wp (process_loop fuel) (fun o x' => o = Some tt /\ d_tokens x' = ts ++ l /\ d_cur x' = 0) x.
Proof.
  intros Hs. revert ts fuel x. induction Hs as [bl w t Hb Hw|bl w t v l Hb Hw Hv _ IH]; intros ts fuel x Hx Hf;
    (destruct fuel as [|fuel]; [lia|]); simpl; apply wp_xbind.
  - rewrite <- (app_nil_r w) in Hx. eapply wp_mono; [by eapply wp_fetchNext|]. intros o x1 [-> Hx1].
    rewrite (lword_valid _ _ Hw). apply wp_bind, wp_mod. destruct fuel as [|fuel]; [simpl in Hf; lia|]. simpl. apply wp_xbind.
    pose proof (looks_append _ _ _ _ t Hx1) as Hx2. apply wp_bind, wp_get. unfold id. rewrite (looks_not_end _ _ _ Hx2). simpl.
    apply wp_ret, wp_xret. destruct Hx2 as (H1 & H2 & _). by rewrite H1.
  - eapply wp_mono; [by eapply wp_fetchNext|]. intros o x1 [-> Hx1]. rewrite (lword_valid _ _ Hw). apply wp_bind, wp_mod.
    eapply wp_mono; [eapply IH; [by apply looks_append|simpl in Hf; lia]|].
    intros o x2 (-> & H1 & H2). by rewrite <- app_assoc in H1.
Qed.

Lemma words_length s l : words s l -> (length l <= length s)%nat.
Proof.
  induction 1 as [bl w t Hb Hw|bl w t v l Hb Hw Hv _ IH]; destruct (lword_visible _ _ Hw) as [Hne _];
    (destruct w; [done|]); simpl; rewrite ?length_app; simpl; rewrite ?length_app; lia.
Qed.

Lemma lex_words s l x :
  words s l -> exists x', lex_process s x = Some (true, x') /\ d_tokens x' = l /\ d_cur x' = 0.
Proof.
  intros Hs. assert (Hw : wp (lex_process s) (fun b x' => b = true /\ d_tokens x' = l /\ d_cur x' = 0) x).
  { apply wp_bind, wp_mod, wp_bind. eapply wp_mono.
    - eapply (wp_process_loop [] s l); [done| |pose proof (words_length s l Hs); lia].
      split; [done|]. split; [done|]. exists 0%nat. simpl. rewrite drop_0. repeat split; lia.
    - intros o x' (-> & H1 & H2). by apply wp_ret. }
  apply wp_Some in Hw as (b & x' & E & -> & H). eauto.
Qed.
End Words.

(** ** Texts of expressions *)
Lemma ends_operand_stops p j b : ends_operand (t_type (tok_at p j)) = true -> 0 <= b -> stops p j b.
Proof.
  unfold stops, getbinopr. intros H Hb. destruct (t_type (tok_at p j)); try discriminate H;
    (split; [done|]; split; [done|]); exists 0, 0; by rewrite bool_decide_eq_false_2.
Qed.

(** The tokens of an expression, and what follows and is not part of it. *)
Lemma parse_tokens_expr p e fuel :
  d_cur (d_lex p) = 0 -> fits 0 e = true -> have p 0 (toks e) -> stops p (length (toks e)) 0 ->
  (length (toks e) < fuel)%nat ->
  exists p', parse_tokens fuel p = Some (true, p') /\ d_top p' = TopTree (tree e).
Proof.
  intros Hc Hf Hh Hs Hl. pose proof (toks_length e).
  assert (Hne : d_tokens (d_lex p) <> []) by (eapply have_nonempty; [done|]; intros E; rewrite E in *; simpl in *; lia).
  assert (Hnext : exists t, next p = Some (t, at_tok p 0)).
  { unfold next, lexer, lex_next, at_tok. rewrite Hc. destruct (d_tokens (d_lex p)) as [|t l] eqn:E; [done|].
    by exists t. }
  destruct Hnext as [t Hnext]. unfold parse_tokens. rewrite (rbind_Some _ _ _ _ _ Hnext).
  rewrite (rbind_Some _ _ _ _ _ (expr_at p e 0 fuel (proj1 (all_parsed p e)) Hf Hh Hs Hl)). simpl.
  by eexists.
Qed.

Section Texts.
Context `{X : ExprLib}.

Lemma parse_expression e s p fuel :
  fits 0 e = true -> words s (toks e) -> (length (toks e) < fuel)%nat -> d_top p <> TopFreed ->
  exists p', parse fuel s p = Some (true, p') /\ d_top p' = TopTree (tree e).
Proof.
  intros Hf Hw Hl Ht. assert (Hd : exists p1, delete_top p = Some (tt, p1)).
  { unfold delete_top, rbind, rget, id. destruct (d_top p); [by eexists..|done]. }
  destruct Hd as [p1 Hd]. unfold parse. rewrite (rbind_Some _ _ _ _ _ Hd).
  destruct s as [|c s]; [by apply words_nonempty in Hw|]. set (str := c :: s) in *.
  destruct (lex_words str (toks e) (d_lex p1) Hw) as (x & Hx & Htok & Hcur).
  assert (Hlex : lexer (lex_process str) p1 = Some (true, mkExpressionParser (d_top p1) x (ep_error p1))).
  { unfold lexer. by rewrite Hx. }
  rewrite (rbind_Some _ _ _ _ _ Hlex). cbv iota. set (p2 := mkExpressionParser _ x _).
  assert (Hh : have p2 0 (toks e)) by (exists []; simpl; by rewrite Htok, app_nil_r).
  apply parse_tokens_expr; try done. apply ends_operand_stops; [|done].
  apply (behind p2 0 0); [done|done|]. simpl. by rewrite Htok.
Qed.

(** [C18] The lexer and the parser of the expressions of the debugger understand an
    expression: for a text of the words of an expression, with blanks between them, that has
    parentheses where the priorities of its operators need them, [parse] succeeds, and the
    tree is the one of the expression. *)
Theorem expression_parsed e s p fuel :
  fits 0 e = true -> words s (toks e) -> (length (toks e) < fuel)%nat -> d_top p <> TopFreed ->
  exists p', parse fuel s p = Some (true, p') /\ d_top p' = TopTree (tree e).
Proof. apply parse_expression. Qed.
End Texts.
