(* ===== verification/ExprTotal.v ===== *)
(** * The parser of expressions ends, or never ends

    The recursion of the parser ends, unless the last token is an opening parenthesis or an
    operator that may stand in front of an operand: the position does not go beyond the last
    token, which is then read again and again. *)

From S2P Require Import Prelude Double Bytecode ExprLexer ExprParser ExprSpec ExprLexSpec.
From Stdlib Require Import Strings.Byte.
Local Open Scope Z_scope.
Local Open Scope rd_scope.

(** An operator that is only unary does not stand behind an operand: the table of the
    priorities has no entry for it. *)
Definition operators_ok (ts : list Tok) : Prop :=
  forall i t u, ts !! i = Some t -> ts !! S i = Some u -> ends_operand (t_type t) = true -> priority (getbinopr u) <> None.

(** The last token cannot stand in front of an operand. *)
Definition last_ok (ts : list Tok) : Prop :=
  exists t, last ts = Some t /\ t_type t <> T_LBrace /\ isUnop t = false.

Section Total.
Variables (p : ExpressionParser).
Abbreviation ts := (d_tokens (d_lex p)).
Abbreviation n := (length ts).
Abbreviation at_tok := (at_tok p).
Abbreviation tok_at := (tok_at p).
Context (Hops : operators_ok ts) (Hlast : last_ok ts).

Lemma tokens_nonempty : ts <> [].
Proof using Hlast. destruct Hlast as (t & Ht & _). by intros E; rewrite E in Ht. Qed.

Lemma tok_at_last i : (n - 1 <= i)%nat -> Some (tok_at i) = last ts.
Proof using Hlast.
  intros Hi. pose proof tokens_nonempty. destruct Hlast as (t & Ht & _). rewrite Ht. rewrite last_lookup in Ht.
  unfold ExprSpec.tok_at. replace (Nat.min i (n - 1)) with (pred n) by lia. by rewrite Ht.
Qed.

(** Where an operand has been read. *)
Definition behind_operand (j : nat) : Prop :=
  priority (getbinopr (tok_at j)) <> None /\ ((n <= j)%nat -> ends_operand (t_type (tok_at j)) = true).

Lemma ends_no_op t : ends_operand (t_type t) = true -> getbinopr t = E_NoOp.
Proof. unfold getbinopr. intros H. case_bool_decide as E; [|done]. rewrite E in H. discriminate H. Qed.

Lemma read_operand i : ends_operand (t_type (tok_at i)) = true -> behind_operand (S i).
Proof using Hops Hlast.
  intros He. pose proof tokens_nonempty as Hne. assert (0 < n)%nat by (destruct ts; [done|simpl; lia]).
  destruct (Nat.lt_ge_cases (S i) n) as [Hlt|Hge].
  - split; [|lia]. destruct (lookup_nat_lt ts i) as [t Ht]; [lia|]. destruct (lookup_nat_lt ts (S i)) as [u Hu]; [done|].
    unfold ExprSpec.tok_at in *. rewrite (Nat.min_l i), Ht in He by lia.
    rewrite (Nat.min_l (S i)), Hu by lia. exact (Hops i t u Ht Hu He).
  - assert (tok_at (S i) = tok_at i) as E by (apply (inj Some); rewrite !tok_at_last by lia; done).
    split; [rewrite E, ends_no_op by done; done|]. intros _. by rewrite E.
Qed.

Lemma wp_peek i (Q : Tok -> ExpressionParser -> Prop) : Q (tok_at i) (at_tok i) -> wp peek Q (at_tok i).
Proof using Hlast. intros H. unfold wp. by rewrite peek_at by apply tokens_nonempty. Qed.

Lemma wp_next i (Q : Tok -> ExpressionParser -> Prop) :
  (forall t, (t = tok_at (S i) \/ t = invalid_tok) -> Q t (at_tok (S i))) -> wp next Q (at_tok i).
Proof using Hlast.
  intros H. destruct (next_at p i tokens_nonempty) as (t & Ht & H1 & H2). unfold wp. rewrite Ht. apply H.
  destruct (Nat.lt_ge_cases (S i) n) as [?|?]; [left; by apply H1|right; by apply H2].
Qed.

(** The outcome of a method at a position: an error, or a later position behind an operand. *)
Definition goes_on {A} (i : nat) (r : option A) (p' : ExpressionParser) : Prop :=
  match r with None => True | Some _ => exists j, (i < j)%nat /\ p' = at_tok j /\ behind_operand j end.
Definition goes_on_op (i : nat) (r : option (Ast * Operator)) (p' : ExpressionParser) : Prop :=
  match r with
  | None => True
  | Some (_, op) => exists j, (i < j)%nat /\ p' = at_tok j /\ behind_operand j /\ op = getbinopr (tok_at j)
  end.

Lemma wp_perror {A} msg s (Q : option A -> ExpressionParser -> Prop) : (forall s', Q None s') -> wp (perror msg) Q s.
Proof. intros H. apply H. Qed.

Lemma wp_expect ty msg i (Q : option unit -> ExpressionParser -> Prop) :
  ends_operand ty = true -> (forall s, Q None s) ->
  (behind_operand (S i) -> Q (Some tt) (at_tok (S i))) -> wp (expect ty msg) Q (at_tok i).
Proof using Hops Hlast.
  intros Hty Herr HQ. apply wp_bind, wp_peek. case_bool_decide as E; [|by apply wp_perror].
  apply wp_bind, wp_next. intros t _. apply wp_xret, HQ, read_operand. by rewrite E.
Qed.

Section Recursion.
Variables (rec : Z -> PM (Ast * Operator)) (bound : nat).
(** The recursion is defined at positions whose distance from the end is less than [bound]. *)
Hypothesis Hrec : forall i k, (n - i < bound)%nat -> wp (rec k) (goes_on_op i) (at_tok i).

Lemma wp_expr i : (n - i < bound)%nat -> wp (expr rec) (goes_on i) (at_tok i).
Proof using Hrec.
  intros Hi. apply wp_xbind. eapply wp_mono; [by apply Hrec|]. intros [[t op] |] p'; [|done].
  intros (j & ? & ? & ? & _). apply wp_xret. by exists j.
Qed.

Lemma not_last i : t_type (tok_at i) = T_LBrace \/ isUnop (tok_at i) = true -> (i < n - 1)%nat.
Proof using Hlast.
  intros H. destruct (Nat.lt_ge_cases i (n - 1)) as [|Hge]; [done|]. pose proof (tok_at_last i Hge) as E.
  destruct Hlast as (t & Ht & H1 & H2). rewrite Ht in E. injection E as E. rewrite E in H. destruct H; congruence.
Qed.

Lemma wp_prefixexp i : (n - i <= bound)%nat -> wp (prefixexp rec) (goes_on i) (at_tok i).
Proof using Hrec Hops Hlast.
  intros Hi. apply wp_bind, wp_peek. destruct (t_type (tok_at i)) eqn:E; try (by apply wp_perror).
  - apply wp_bind, wp_next. intros t _. apply wp_xret. exists (S i). split; [lia|]. split; [done|].
    apply read_operand. by rewrite E.
  - pose proof (not_last i (or_introl E)). apply wp_bind, wp_next. intros t _. apply wp_xbind.
    eapply wp_mono; [apply (wp_expr (S i)); lia|]. intros [e|] p'; [|done]. intros (j & Hj & -> & _).
    apply wp_xbind, wp_expect; [done..|]. intros Hb. apply wp_xret. exists (S j). split; [lia|done].
Qed.

Lemma wp_primary_loop fuel j i a :
  (i < j)%nat -> behind_operand j -> (n - j < fuel)%nat -> (n - i <= bound)%nat ->
  wp (primary_loop rec fuel a) (goes_on i) (at_tok j).
Proof using Hrec Hops Hlast.
  revert j a. induction fuel as [|fuel IH]; intros j a Hij Hb Hf Hn; [lia|]. simpl.
  apply wp_bind, wp_peek.
  assert (Hdone : wp (xret a) (goes_on i) (at_tok j)) by (apply wp_xret; by exists j).
  assert (Hlt : ends_operand (t_type (tok_at j)) = false -> (j < n)%nat).
  { intros E. destruct (Nat.lt_ge_cases j n) as [|Hge]; [done|]. apply Hb in Hge. congruence. }
  destruct (t_type (tok_at j)) eqn:E; try exact Hdone; specialize (Hlt eq_refl); apply wp_bind, wp_next; intros t Ht.
  - apply wp_xbind. eapply wp_mono; [apply (wp_expr (S j)); lia|]. intros [e|] p'; [|done]. intros (j' & Hj & -> & _).
    apply wp_xbind, wp_expect; [done..|]. intros Hb'. apply IH; [lia|done|lia|lia].
  - case_bool_decide as Et; simpl; [|by apply wp_perror]. apply wp_bind, wp_next. intros t' _.
    destruct Ht as [-> | ->]; [|done]. apply IH; [lia| |lia|lia]. apply read_operand. by rewrite Et.
Qed.

Lemma wp_simpleexp fuel i :
  (n - i <= bound)%nat -> (n - i <= fuel)%nat -> (0 < fuel)%nat -> wp (simpleexp rec fuel) (goes_on i) (at_tok i).
Proof using Hrec Hops Hlast.
  intros Hi Hf H0. apply wp_bind, wp_peek.
  assert (Hp : wp (primaryexp rec fuel) (goes_on i) (at_tok i)).
  { apply wp_xbind. eapply wp_mono; [by apply wp_prefixexp|]. intros [a|] p'; [|done]. intros (j & Hj & -> & Hb).
    apply wp_primary_loop; [done|done|lia|lia]. }
  destruct (t_type (tok_at i)) eqn:E; try exact Hp; apply wp_bind, wp_next; intros t _; apply wp_xret; exists (S i);
    (split; [lia|]); (split; [done|]); apply read_operand; by rewrite E.
Qed.

Lemma wp_operand fuel i :
  (n - i <= bound)%nat -> (n - i <= fuel)%nat -> (0 < fuel)%nat -> wp (operand rec fuel) (goes_on i) (at_tok i).
Proof using Hrec Hops Hlast.
  intros Hi Hf H0. apply wp_bind, wp_peek. destruct (isUnop (tok_at i)) eqn:E; [|by apply wp_simpleexp].
  pose proof (not_last i (or_intror E)). apply wp_bind, wp_next. intros t _. apply wp_xbind.
  eapply wp_mono; [apply (Hrec (S i)); lia|]. intros [[a op] |] p'; [|done]. intros (j & ? & ? & ? & _).
  apply wp_xret. exists j. split; [lia|done].
Qed.

Lemma wp_binop_loop fuel j i k a :
  (i < j)%nat -> behind_operand j -> (n - j < fuel)%nat -> (n - i <= bound)%nat ->
  wp (binop_loop rec fuel k a (getbinopr (tok_at j))) (goes_on_op i) (at_tok j).
Proof using Hrec Hlast.
  revert j a. induction fuel as [|fuel IH]; intros j a Hij Hb Hf Hn; [lia|]. simpl.
  assert (Hdone : wp (xret (a, getbinopr (tok_at j))) (goes_on_op i) (at_tok j)) by (apply wp_xret; by exists j).
  case_bool_decide as E; [done|]. pose proof Hb as [Hp Hend].
  destruct (priority (getbinopr (tok_at j))) as [[lp rp]|]; [|done]. destruct (k <? lp); [|done].
  assert (Hlt : (j < n)%nat).
  { destruct (Nat.lt_ge_cases j n) as [|Hge]; [done|]. apply Hend, ends_no_op in Hge. congruence. }
  apply wp_bind, wp_next. intros t _. apply wp_xbind. eapply wp_mono; [apply (Hrec (S j)); lia|].
  intros [[b op] |] p'; [|done]. intros (j' & Hj & -> & Hb' & ->). apply IH; [lia|done|lia|lia].
Qed.
End Recursion.

Lemma wp_subexpr fuel i k : (n - i + 2 <= fuel)%nat -> wp (subexpr fuel k) (goes_on_op i) (at_tok i).
Proof using Hops Hlast.
  revert i k. induction fuel as [|fuel IH]; intros i k Hf; [lia|]. cbn [subexpr].
  assert (Hrec : forall i' k', (n - i' < fuel - 1)%nat -> wp (subexpr fuel k') (goes_on_op i') (at_tok i')).
  { intros i' k' Hi. apply IH. lia. }
  apply wp_xbind. eapply wp_mono; [eapply (wp_operand _ _ Hrec); lia|]. intros [a|] p'; [|done]. intros (j & Hj & -> & Hb).
  apply wp_bind, wp_peek. eapply (wp_binop_loop _ _ Hrec); [done|done|lia|lia].
Qed.

(** The tokens are parsed, or there is an error. *)
Lemma parse_tokens_ends fuel : d_cur (d_lex p) = 0 -> (n + 2 <= fuel)%nat -> exists b p', parse_tokens fuel p = Some (b, p').
Proof using Hops Hlast.
  intros Hc Hf. pose proof tokens_nonempty as Hne.
  assert (Hnext : exists t, next p = Some (t, at_tok 0)).
  { unfold next, lexer, lex_next, ExprSpec.at_tok. rewrite Hc. destruct ts as [|t l] eqn:E; [done|]. by exists t. }
  destruct Hnext as [t Hnext]. unfold parse_tokens. rewrite (rbind_Some _ _ _ _ _ Hnext).
  assert (Hw : wp (subexpr fuel 0) (goes_on_op 0) (at_tok 0)) by (apply wp_subexpr; lia).
  assert (He : wp (expr (subexpr fuel)) (fun _ _ => True) (at_tok 0)).
  { apply wp_xbind. eapply wp_mono; [exact Hw|]. by intros [[a op] |] p'. }
  apply wp_Some in He as (r & p' & He & _). rewrite (rbind_Some _ _ _ _ _ He). destruct r as [a|]; by eexists _, _.
Qed.
End Total.
