(* ===== verification/ExprEnds.v ===== *)
(** * The lexer of expressions ends

    On a text without quotation marks the lexer ends: each token takes a character of the
    text.  A quotation mark without its counterpart is looked for behind the end of the text
    without end.  With [ExprTotal], the theorems on when an expression is parsed in finite
    time, and when never. *)

From S2P Require Import Prelude Double Bytecode ExprLexer ExprParser ExprSpec ExprLexSpec ExprTotal.
From Stdlib Require Import Strings.Byte.
Local Open Scope Z_scope.
Local Open Scope rd_scope.

Definition is_quote (c : byte) : bool := Byte.eqb c x22 || Byte.eqb c "'".
Definition quote_free (s : bytes) : bool := forallb (fun c => negb (is_quote c)) s.

(** ** Positions *)

(** [ts] has been read, the text has [z] characters, [e] of them are eaten and [p] have been
    looked at. *)
Definition at_pos (ts : list Tok) (z e p : Z) (x : ExpressionLexer) : Prop :=
  (d_tokens x = ts /\ d_cur x = 0) /\ source_size (d_buf x) = z /\ quote_free (d_source (d_buf x)) = true /\
  d_eaten (d_buf x) = e /\ d_peekPtr (d_buf x) = p /\ 0 <= e <= p.

(** A character that has been looked at up to [p]: it is not a quotation mark, and there are
    zeros behind the end. *)
Definition char_upto (z p : Z) (c : byte) : Prop := is_quote c = false /\ (z < p -> c = x00).

Lemma quote_free_nth s i : quote_free s = true -> is_quote (nth i s x00) = false.
Proof.
  intros H. destruct (nth_in_or_default i s x00) as [Hin|E]; [|by rewrite E]. unfold quote_free in H. rewrite forallb_forall in H.
  apply H in Hin. by apply negb_true_iff.
Qed.

Lemma at_peek1 ts z e p x (Q : byte -> ExpressionLexer -> Prop) :
  at_pos ts z e p x -> (forall c x', char_upto z (p + 1) c -> at_pos ts z e (p + 1) x' -> Q c x') -> wp peek1 Q x.
Proof.
  intros (Ht & Hz & Hq & He & Hp & Hr) HQ. unfold peek1. apply wp_bind, wp_ret. apply HQ.
  - simpl. unfold char_upto, char_at. rewrite Hp, Hz, Z.add_0_r. destruct (Z.ltb_spec p z); (split; [|intros; first [done|lia]]); [|done].
    by apply quote_free_nth.
  - repeat (split; [done|]). simpl. lia.
Qed.

Lemma at_peek2 ts z e p x (Q : bytes * bool -> ExpressionLexer -> Prop) :
  at_pos ts z e p x -> (forall r x', (z <= p -> hd x00 r.1 = x00) -> at_pos ts z e (p + 2) x' -> Q r x') ->
  wp (buf (sb_peek 2)) Q x.
Proof.
  intros (Ht & Hz & Hq & He & Hp & Hr) HQ. apply HQ.
  - simpl. unfold char_at. rewrite Hp, Hz, Z.add_0_r. intros. by destruct (Z.ltb_spec p z); [lia|].
  - repeat (split; [done|]). simpl. lia.
Qed.

Lemma quote_free_overwrite n s : quote_free s = true -> quote_free (overwrite n s) = true.
Proof.
  unfold quote_free, overwrite. rewrite !forallb_forall. intros H c. rewrite in_app_iff. intros [Hc|Hc].
  - apply list_elem_of_In, elem_of_replicate in Hc as [-> _]. done.
  - apply H. apply list_elem_of_In. apply list_elem_of_In in Hc. apply list_elem_of_lookup in Hc as [i Hc]. rewrite lookup_drop in Hc. by eapply list_elem_of_lookup_2.
Qed.

Lemma at_eat_to ts z e p x n (Q : unit -> ExpressionLexer -> Prop) :
  at_pos ts z e p x -> n = -1 \/ 0 < n -> e < p ->
  (forall e' x', e < e' -> (n = -1 -> e' = p) -> at_pos ts z e' e' x' -> Q tt x') -> wp (eat n) Q x.
Proof.
  intros (Ht & Hz & Hq & He & Hp & Hr) Hn Hlt HQ. unfold eat, buf, wp, sb_eat. rewrite He, Hp.
  assert (Hend : forall e', e < e' -> (n = -1 -> e' = p) -> Q tt (mkExpressionLexer (d_tokens x) (d_cur x)
                (mkSourceBuffer (overwrite (Z.to_nat e') (d_source (d_buf x))) e' e') (el_error x))).
  { intros e' H H'. apply (HQ e'); [done..|]. split; [done|]. unfold source_size in *. simpl. rewrite length_overwrite.
    split; [done|]. split; [by apply quote_free_overwrite|]. repeat split; lia. }
  destruct (Z.eqb_spec n (-1)); simpl; [apply Hend; lia|]. destruct (Z.ltb_spec (p - e) n); apply Hend; lia.
Qed.

Lemma at_eat ts z e p x n (Q : unit -> ExpressionLexer -> Prop) :
  at_pos ts z e p x -> n = -1 \/ 0 < n -> e < p ->
  (forall e' x', e < e' -> at_pos ts z e' e' x' -> Q tt x') -> wp (eat n) Q x.
Proof. intros H Hn Hp HQ. eapply at_eat_to; [done..|]. intros e' x' He _. by apply HQ. Qed.

Lemma at_rewind ts z e p x (Q : unit -> ExpressionLexer -> Prop) :
  at_pos ts z e p x -> (forall x', at_pos ts z e e x' -> Q tt x') -> wp rewind Q x.
Proof.
  intros (Ht & Hz & Hq & He & Hp & Hr) HQ. apply HQ. repeat (split; [done|]). simpl. lia.
Qed.

Lemma at_fuel ts z e p x : at_pos ts z e p x -> Z.of_nat (fuel_of x) = z + 1 /\ 0 <= z.
Proof. intros (_ & Hz & _). unfold fuel_of, source_size in *. lia. Qed.

(** The outcome of reading something from [e] on: an exception, nothing, or something that
    takes characters that are there. *)
Definition takes {A} (ts : list Tok) (z e : Z) (o : option A) (x : ExpressionLexer) : Prop :=
  match o with None => at_pos ts z e e x | Some _ => e < z /\ exists e', e < e' /\ at_pos ts z e' e' x end.
Definition takes_or_throws {A} (ts : list Tok) (z e : Z) (o : option (option A)) (x : ExpressionLexer) : Prop :=
  match o with None => True | Some o => takes ts z e o x end.

Lemma at_lex_error {A} msg x (Q : option A -> ExpressionLexer -> Prop) : (forall x', Q None x') -> wp (lex_error msg) Q x.
Proof. intros HQ. apply HQ. Qed.

(** Rewinding and returning nothing. *)
Lemma takes_nothing {A} ts z e p x : at_pos ts z e p x -> wp (_ <~ rewind; rret None) (takes (A := A) ts z e) x.
Proof. intros H. apply wp_bind. eapply at_rewind; [done|]. intros x' H'. by apply wp_ret. Qed.

(** Eating and returning something. *)
Lemma takes_something {A} ts z e p x n (a : A) :
  at_pos ts z e p x -> n = -1 \/ 0 < n -> e < p -> e < z -> wp (_ <~ eat n; rret (Some a)) (takes ts z e) x.
Proof.
  intros H Hn Hp Hz. apply wp_bind. eapply at_eat; [done..|]. intros e' x' He Hx. apply wp_ret. split; [done|]. by exists e'.
Qed.

(** ** Strings *)
Lemma at_level_loop ts z e p x fuel ch tok (Q : bytes -> ExpressionLexer -> Prop) :
  at_pos ts z e p x -> char_upto z p ch -> Z.max 0 (z - p + 1) < Z.of_nat fuel ->
  (forall p' tok' x', p <= p' -> at_pos ts z e p' x' -> Q tok' x') -> wp (level_loop fuel ch tok) Q x.
Proof.
  revert p x ch tok. induction fuel as [|fuel IH]; intros p x ch tok Hx [_ Hc] Hf HQ; [lia|]. simpl.
  destruct (Byte.eqb ch x00) eqn:E; simpl; [apply wp_ret; by apply (HQ p)|].
  destruct (Byte.eqb ch "["); simpl; [apply wp_ret; by apply (HQ p)|].
  assert (p <= z) by (destruct (Z.le_gt_cases p z); [done|]; by rewrite (Hc ltac:(lia)) in E).
  apply wp_bind. eapply at_peek1; [done|]. intros c x' Hc' Hx'. eapply IH; [done..|lia|].
  intros p' tok' x2 Hp. apply HQ. lia.
Qed.

Lemma at_bracket_loop ts z e p x fuel endToken tmp (Q : bytes -> ExpressionLexer -> Prop) :
  at_pos ts z e p x -> Z.max 0 (z - p + 1) < Z.of_nat fuel ->
  (forall p' tmp' x', p < p' -> at_pos ts z e p' x' -> Q tmp' x') -> wp (bracket_loop fuel endToken tmp) Q x.
Proof.
  revert p x tmp. induction fuel as [|fuel IH]; intros p x tmp Hx Hf HQ; [lia|]. cbn [bracket_loop].
  apply wp_bind. eapply at_peek1; [done|]. intros c x' [_ Hc] Hx'.
  destruct (Byte.eqb c x00) eqn:E; cbn [negb andb]; [apply wp_ret; apply (HQ (p + 1)); [lia|done]|].
  assert (p + 1 <= z) by (destruct (Z.le_gt_cases (p + 1) z); [done|]; by rewrite (Hc ltac:(lia)) in E).
  destruct (negb _); [|apply wp_ret; apply (HQ (p + 1)); [lia|done]].
  eapply IH; [done|lia|]. intros p' tmp' x2 Hp. apply HQ. lia.
Qed.

Lemma at_bracket_string ts z e p x fuel endToken :
  at_pos ts z e p x -> Z.max 0 (z - p + 1) < Z.of_nat fuel -> e < p -> e < z ->
  wp (bracket_string fuel endToken) (takes ts z e) x.
Proof.
  intros Hx Hf Hp Hz. apply wp_bind. eapply at_bracket_loop; [done..|]. intros p' tmp x' Hp' Hx'.
  eapply takes_something; [done|by left|lia|done].
Qed.

Lemma at_fetchString ts z e x : at_pos ts z e e x -> wp fetchString (takes ts z e) x.
Proof.
  intros Hx. pose proof (at_fuel _ _ _ _ _ Hx) as [Hf Hz0]. pose proof Hx as (_ & _ & _ & _ & _ & He).
  apply wp_bind, wp_get. unfold id. apply wp_bind. eapply at_peek1; [done|]. intros c x1 [Hq Hc] Hx1.
  unfold is_quote in Hq. apply orb_false_iff in Hq as [-> ->].
  destruct (Byte.eqb c "[") eqn:E; [|by eapply takes_nothing].
  assert (e < z) by (destruct (Z.le_gt_cases (e + 1) z); [lia|]; by rewrite (Hc ltac:(lia)) in E).
  apply wp_bind. eapply at_peek1; [done|]. intros d x2 Hd Hx2. destruct (Byte.eqb d "=").
  - apply wp_bind. eapply at_level_loop; [done..|lia|]. intros p' tok x3 Hp Hx3. eapply at_bracket_string; [done|lia..].
  - destruct (Byte.eqb d "["); [|by eapply takes_nothing]. eapply at_bracket_string; [done|lia..].
Qed.

(** ** Names *)
Lemma at_name_loop ts z e p x fuel ch name (Q : bytes -> ExpressionLexer -> Prop) :
  at_pos ts z e p x -> char_upto z p ch -> Z.max 0 (z - p + 1) < Z.of_nat fuel ->
  (forall p' name' x', p <= p' -> (length name + (if name_char ch then 1 else 0) <= length name')%nat ->
     at_pos ts z e p' x' -> Q name' x') -> wp (name_loop fuel ch name) Q x.
Proof.
  revert p x ch name. induction fuel as [|fuel IH]; intros p x ch name Hx [_ Hc] Hf HQ; [lia|]. simpl.
  destruct (name_char ch) eqn:E; [|apply wp_ret; apply (HQ p); [lia|lia|done]].
  assert (p <= z) by (destruct (Z.le_gt_cases p z); [done|]; by rewrite (Hc ltac:(lia)) in E).
  apply wp_bind. eapply at_peek1; [done|]. intros c x' Hc' Hx'. eapply IH; [done..|lia|].
  intros p' name' x2 Hp Hl. rewrite length_app in Hl. apply HQ; [lia|simpl in Hl; lia].
Qed.

Lemma at_fetchName ts z e x : at_pos ts z e e x -> wp fetchName (takes ts z e) x.
Proof.
  intros Hx. pose proof (at_fuel _ _ _ _ _ Hx) as [Hf Hz0]. pose proof Hx as (_ & _ & _ & _ & _ & He).
  apply wp_bind, wp_get. unfold id. apply wp_bind. eapply at_peek1; [done|]. intros c x1 [Hq Hc] Hx1.
  destruct (isalpha c || Byte.eqb c "_") eqn:E; [|by eapply takes_nothing].
  assert (e < z) by (destruct (Z.le_gt_cases (e + 1) z); [lia|]; by rewrite (Hc ltac:(lia)) in E).
  apply wp_bind. eapply at_name_loop; [done..|lia|]. intros p' name x2 Hp Hl Hx2.
  assert (name_char c = true) as Hn by (unfold name_char; destruct (isalpha c), (Byte.eqb c "_"), (isdigit c); done).
  rewrite Hn in Hl. eapply takes_something; [done|right; lia|lia|done].
Qed.

(** ** Numbers and tokens *)

Section Tokens.
Context `{X : ExprLib}.

Lemma at_number_done ts z e p x n d msg :
  at_pos ts z e p x -> 0 < n -> e < p -> e < z ->
  wp (number_done n d msg) (fun o x' => match o with None => True | Some _ => takes ts z e o x' end) x.
Proof.
  intros Hx Hn Hp Hz. destruct d; [|by apply at_lex_error]. eapply wp_mono; [by eapply takes_something; [|right|..]|].
  by intros [d'|] x'.
Qed.

Abbreviation number_taken ts z e := (fun o x' => match o with None => True | Some _ => takes ts z e o x' end).

Lemma at_hex_loop ts z e p x fuel number :
  at_pos ts z e p x -> Z.max 0 (z - p + 1) < Z.of_nat fuel -> e < p -> e < z ->
  wp (hex_loop fuel number) (number_taken ts z e) x.
Proof.
  revert p x number. induction fuel as [|fuel IH]; intros p x number Hx Hf Hp Hz; [lia|]. simpl.
  apply wp_bind. eapply at_peek1; [done|]. intros c x' [_ Hc] Hx'.
  destruct (isdigit c || isHexChar c) eqn:E; [|eapply at_number_done; [done|lia..]].
  assert (p + 1 <= z) by (destruct (Z.le_gt_cases (p + 1) z); [done|]; by rewrite (Hc ltac:(lia)) in E).
  eapply IH; [done|lia..].
Qed.

Lemma at_decimal_loop ts z e p x fuel state anz number ch :
  at_pos ts z e p x -> char_upto z p ch -> Z.max 0 (z - p + 1) < Z.of_nat fuel -> e < p -> e < z -> (0 < length number)%nat ->
  wp (decimal_loop fuel state anz number ch) (number_taken ts z e) x.
Proof.
  revert p x state anz number ch. induction fuel as [|fuel IH]; intros p x state anz number ch Hx [_ Hc] Hf Hp Hz Hl; [lia|].
  assert (Hmore : forall st a c', Byte.eqb ch x00 = false ->
    wp (ch' <~ peek1; decimal_loop fuel st a (number ++ [c']) ch') (number_taken ts z e) x).
  { intros st a c' E. assert (p <= z) by (destruct (Z.le_gt_cases p z); [done|]; by rewrite (Hc ltac:(lia)) in E).
    apply wp_bind. eapply at_peek1; [done|]. intros c x' Hc' Hx'. eapply IH; [done|done|lia..|rewrite length_app; lia]. }
  assert (Hnz : forall b : byte -> bool, b ch = true -> b x00 = false -> Byte.eqb ch x00 = false).
  { intros b H H0. destruct (Byte.eqb ch x00) eqn:E; [|done]. apply eqb_eq in E. subst. congruence. }
  assert (Hdone : forall d msg, wp (number_done (Z.of_nat (length number)) d msg) (number_taken ts z e) x).
  { intros. eapply at_number_done; [done|lia..]. }
  simpl. destruct state; repeat (match goal with |- wp (if ?b then _ else _) _ _ => destruct b eqn:?E end);
    try apply Hdone; try (by apply at_lex_error); apply Hmore.
  all: first [by apply (Hnz (fun c => Byte.eqb c "."%byte)) | by apply (Hnz isdigit) | by apply (Hnz is_exp)
             | by apply (Hnz (fun c => isdigit c || Byte.eqb c "+" || Byte.eqb c "-"))].
Qed.

Lemma at_fetchNumber ts z e x : at_pos ts z e e x -> wp fetchNumber (takes_or_throws ts z e) x.
Proof.
  intros Hx. pose proof (at_fuel _ _ _ _ _ Hx) as [Hf Hz0]. pose proof Hx as (_ & _ & _ & _ & _ & He).
  apply wp_bind, wp_get. unfold id. apply wp_bind. eapply at_peek1; [done|]. intros c x1 [Hq Hc] Hx1. cbv zeta.
  assert (Hno : forall p x', at_pos ts z e p x' -> wp (_ <~ rewind; xret None) (takes_or_throws (A := dbl) ts z e) x').
  { intros p x' H. apply wp_bind. eapply at_rewind; [done|]. intros x2 H2. by apply wp_xret. }
  destruct (_ && _) eqn:E; [by eapply Hno|].
  assert (e < z).
  { destruct (Z.le_gt_cases (e + 1) z); [lia|]. by rewrite (Hc ltac:(lia)) in E. }
  assert (Hsome : forall (m : EL (option dbl)) x', wp m (number_taken ts z e) x' -> wp (d <! m; xret (Some d)) (takes_or_throws ts z e) x').
  { intros m x' H'. apply wp_xbind. eapply wp_mono; [exact H'|]. intros [d|] x2; [|done]. intros H2. by apply wp_xret. }
  apply wp_bind. eapply at_peek1; [done|]. intros d x2 Hd Hx2.
  match goal with |- wp (if ?b then _ else _) _ _ => destruct b end; [by eapply Hno|]. destruct (Byte.eqb d "x").
  - destruct (negb (Byte.eqb c "0")); [by apply at_lex_error|]. apply Hsome. eapply at_hex_loop; [done|lia..].
  - apply Hsome. eapply at_decimal_loop; [done|done|lia..|simpl; lia].
Qed.

(** ** Operators and tokens *)

(** An operator takes characters, [E_NoOp] does not. *)
Definition op_taken (ts : list Tok) (z e : Z) (op : Operator) (x : ExpressionLexer) : Prop :=
  if bool_decide (op = E_NoOp) then at_pos ts z e e x else exists e', e < e' /\ at_pos ts z e' e' x.

Lemma at_no_op' ts z e p x : at_pos ts z e p x -> wp no_op (fun op x' => op = E_NoOp /\ op_taken ts z e op x') x.
Proof. intros H. apply wp_bind. eapply at_rewind; [done|]. intros x' H'. by apply wp_ret. Qed.
Lemma at_no_op ts z e p x : at_pos ts z e p x -> wp no_op (op_taken ts z e) x.
Proof. intros H. eapply wp_mono; [by eapply at_no_op'|]. by intros op x' [_ H']. Qed.

Lemma at_eaten_op ts z e p x n op :
  at_pos ts z e p x -> n = -1 \/ 0 < n -> e < p -> op <> E_NoOp -> wp (eaten_op n op) (op_taken ts z e) x.
Proof.
  intros H Hn Hp Ho. apply wp_bind. eapply at_eat; [done..|]. intros e' x' He Hx. apply wp_ret. unfold op_taken.
  rewrite bool_decide_eq_false_2 by done. by exists e'.
Qed.

Lemma at_or_equal ts z e p x op op' :
  at_pos ts z e p x -> e < p -> op <> E_NoOp -> op' <> E_NoOp -> wp (or_equal op op') (op_taken ts z e) x.
Proof.
  intros H Hp Ho Ho'. apply wp_bind. eapply at_peek1; [done|]. intros c x' _ Hx'.
  destruct (Byte.eqb c "="); (eapply at_eaten_op; [done| |lia|done]); [by left|by right].
Qed.

Lemma at_second ts z e p x c op :
  at_pos ts z e p x -> e < p -> op <> E_NoOp -> wp (second c op) (op_taken ts z e) x.
Proof.
  intros H Hp Ho. apply wp_bind. eapply at_peek1; [done|]. intros d x' _ Hx'.
  destruct (Byte.eqb d c); [eapply at_eaten_op; [done|by left|lia|done]|by eapply at_no_op].
Qed.

Lemma at_third ts z e p x c d op :
  at_pos ts z e p x -> e < p -> op <> E_NoOp -> wp (third c d op) (op_taken ts z e) x.
Proof.
  intros H Hp Ho. apply wp_bind. eapply at_peek2; [done|]. intros r x' _ Hx'.
  case_bool_decide; [eapply at_eaten_op; [done|by left|lia|done]|by eapply at_no_op].
Qed.

Lemma at_fetchOp ts z e x :
  at_pos ts z e e x -> wp fetchOp (fun op x' => op_taken ts z e op x' /\ (op <> E_NoOp -> e < z)) x.
Proof.
  intros Hx. pose proof Hx as (_ & _ & _ & _ & _ & He). apply wp_bind. eapply at_peek1; [done|]. intros c x1 [_ Hc] Hx1.
  destruct (Z.le_gt_cases (e + 1) z).
  - assert (Hlt : e < z) by lia. match goal with |- wp ?m _ _ => assert (Hm : wp m (op_taken ts z e) x1) end.
    + repeat (match goal with |- wp (if ?b then _ else _) _ _ => destruct b end);
        first [ eapply at_eaten_op; [exact Hx1|by left|lia|done] | eapply at_or_equal; [exact Hx1|lia|done|done]
              | eapply at_second; [exact Hx1|lia|done] | eapply at_third; [exact Hx1|lia|done] | by eapply at_no_op ].
    + eapply wp_mono; [exact Hm|]. intros op x' H'. by split.
  - rewrite (Hc ltac:(lia)). simpl. eapply wp_mono; [by eapply at_no_op'|]. by intros op x' [-> H'].
Qed.

(** A token that is valid has taken characters. *)
Definition tok_taken (ts : list Tok) (z e : Z) (o : option Tok) (x : ExpressionLexer) : Prop :=
  match o with Some t => e < z /\ exists e', e < e' /\ at_pos ts z e' e' x | None => True end.

Lemma at_fetch_symbol ts z e x : at_pos ts z e e x -> wp fetch_symbol (tok_taken ts z e) x.
Proof.
  intros Hx. apply wp_bind. eapply wp_mono; [by apply at_fetchOp|]. intros op x1 [Hop Hz]. unfold op_taken in Hop.
  case_bool_decide as E; simpl.
  - apply wp_bind. eapply at_peek1; [done|]. intros c x2 [_ Hc] Hx2. destruct (bracket_tok c) as [ty|] eqn:Eb.
    + assert (e < z).
      { destruct (Z.le_gt_cases (e + 1) z); [lia|]. by rewrite (Hc ltac:(lia)) in Eb. }
      apply wp_bind. eapply at_eat; [done|by left|lia|]. intros e' x3 He Hx3. apply wp_xret. split; [done|]. by exists e'.
    + apply wp_bind. eapply at_rewind; [done|]. intros x3 _. by apply at_lex_error.
  - apply wp_xret. split; [by apply Hz|done].
Qed.

Lemma at_space_loop ts z e p x fuel ch (Q : unit -> ExpressionLexer -> Prop) :
  at_pos ts z e p x -> e < p -> char_upto z p ch -> Z.max 0 (z - p + 1) < Z.of_nat fuel ->
  (forall e' p' x', e <= e' -> at_pos ts z e' p' x' -> Q tt x') -> wp (space_loop fuel ch) Q x.
Proof.
  revert e p x ch. induction fuel as [|fuel IH]; intros e p x ch Hx Hep [_ Hc] Hf HQ; [lia|]. simpl.
  destruct (isspace ch) eqn:E; [|apply wp_ret; by apply (HQ e p)].
  assert (p <= z) by (destruct (Z.le_gt_cases p z); [done|]; by rewrite (Hc ltac:(lia)) in E).
  apply wp_bind. eapply at_eat_to; [done|by left|done|]. intros e' x' He Hp Hx'. rewrite (Hp eq_refl) in *.
  apply wp_bind. eapply at_peek1; [done|]. intros c x2 Hc2 Hx2. eapply IH; [done|lia|done|lia|].
  intros e2 p2 x3 He2. apply HQ. lia.
Qed.

Lemma at_eatSpace ts z e x (Q : unit -> ExpressionLexer -> Prop) :
  at_pos ts z e e x -> (forall e' x', e <= e' -> at_pos ts z e' e' x' -> Q tt x') -> wp eatSpace Q x.
Proof.
  intros Hx HQ. pose proof (at_fuel _ _ _ _ _ Hx) as [Hf Hz0]. pose proof Hx as (_ & _ & _ & _ & _ & He).
  apply wp_bind, wp_get. unfold id. apply wp_bind. eapply at_peek1; [done|]. intros c x1 Hc Hx1.
  apply wp_bind. eapply at_space_loop; [done|lia|done|lia|]. intros e' p' x2 He' Hx2.
  eapply at_rewind; [done|]. intros x3. by apply HQ.
Qed.

(** The next token: an exception, the end, or a token that takes characters. *)
Lemma at_fetchNext ts z e x : at_pos ts z e e x ->
  wp fetchNext (fun o x' => (e = z /\ o = Some invalid_tok /\ at_pos ts z e e x') \/ (e <> z /\ tok_taken ts z e o x')) x.
Proof.
  intros Hx. pose proof Hx as (_ & Hz & _ & He & _ & _). apply wp_bind, wp_get. unfold id, sb_atEnd. rewrite He, Hz.
  destruct (Z.eqb_spec e z) as [->|Hne]; [apply wp_xret; by left|].
  eapply wp_mono; [|intros o x' H; right; split; [done|exact H]].
  apply wp_bind. eapply at_eatSpace; [done|]. intros e1 x1 Hle Hx1.
  assert (Hgo : forall A (o : option A) t x2, takes ts z e1 o x2 -> o <> None -> tok_taken ts z e (Some t) x2).
  { intros A [a|] t x2 [H1 (e2 & H2 & H3)] Hn; [|done]. split; [lia|]. exists e2. split; [lia|done]. }
  apply wp_bind. eapply wp_mono; [by apply at_fetchString|]. intros [s|] x2 H2; [apply wp_xret; by apply (Hgo _ _ _ _ H2)|].
  apply wp_xbind. eapply wp_mono; [by apply at_fetchNumber|].
  intros [[d|]|] x3 H3; simpl in H3; [apply wp_xret; by apply (Hgo dbl (Some d))| |done].
  apply wp_bind. eapply wp_mono; [by apply at_fetchName|]. intros [s|] x4 H4; [apply wp_xret; by apply (Hgo _ _ _ _ H4)|].
  eapply wp_mono; [by apply at_fetch_symbol|]. intros [t|] x5; [|done]. intros (H5 & e2 & H6 & H7). split; [lia|].
  exists e2. split; [lia|done].
Qed.

(** Each token takes a character. *)
Lemma at_process_loop ts z e x fuel : at_pos ts z e e x -> Z.max 0 (z - e) < Z.of_nat fuel ->
  wp (process_loop fuel)
    (fun o x' => o = Some tt -> d_cur x' = 0 /\ Z.of_nat (length (d_tokens x')) <= Z.of_nat (length ts) + Z.max 0 (z - e)) x.
Proof.
  revert ts e x. induction fuel as [|fuel IH]; intros ts e x Hx Hf; [lia|]. cbn [process_loop].
  apply wp_xbind. eapply wp_mono; [by apply at_fetchNext|]. intros o x1 [(-> & -> & Hx1)|[Hne Ht]].
  - apply wp_xret. intros _. destruct Hx1 as [[<- Hc] _]. split; [done|lia].
  - destruct o as [t|]; [|done]. destruct Ht as (Hlt & e' & He' & Hx1). destruct (tok_isValid t).
    + apply wp_bind, wp_mod. eapply wp_mono; [apply (IH (ts ++ [t]) e'); [|lia]|].
      * destruct Hx1 as [[<- Hc] H]. by split.
      * intros o x2 H Ho. destruct (H Ho) as [Hc Hl]. rewrite length_app in Hl. simpl in Hl. split; [done|lia].
    + apply wp_xret. intros _. destruct Hx1 as [[<- Hc] _]. split; [done|lia].
Qed.

Lemma lex_ends s x : quote_free s = true -> exists b x', lex_process s x = Some (b, x') /\
  (b = true -> d_cur x' = 0 /\ (length (d_tokens x') <= length s)%nat).
Proof.
  intros Hq. assert (Hw : wp (lex_process s) (fun b x' => b = true -> d_cur x' = 0 /\ (length (d_tokens x') <= length s)%nat) x).
  { apply wp_bind, wp_mod, wp_bind. eapply wp_mono.
    - apply (at_process_loop [] (Z.of_nat (length s)) 0); [|lia]. split; [done|]. split; [done|]. split; [done|]. simpl. lia.
    - intros o x' H. apply wp_ret. destruct o as [[]|]; [|done]. intros _. destruct (H eq_refl) as [Hc Hl]. simpl in Hl.
      split; [done|lia]. }
  apply wp_Some in Hw as (b & x' & E & H). eauto.
Qed.

(** ** Expressions end *)

End Tokens.

(** ** Expressions that never end *)

(** A parenthesis that opens, or an operator that stands in front of its operand. *)
Definition opens (t : Tok) : bool := bool_decide (t_type t = T_LBrace) || isUnop t.

Section Diverges.
Variables (p : ExpressionParser).
Abbreviation ts := (d_tokens (d_lex p)).
Context (Hne : ts <> []) (Hopen : Forall (fun t => opens t = true) ts).

Lemma tok_at_opens i : opens (tok_at p i) = true.
Proof using Hne Hopen.
  unfold tok_at. assert (0 < length ts)%nat by (destruct ts; [done|simpl; lia]).
  destruct (lookup_nat_lt ts (Nat.min i (length ts - 1))) as [t E]; [lia|]. rewrite E. simpl.
  rewrite Forall_forall in Hopen. apply Hopen. by eapply list_elem_of_lookup_2.
Qed.

Lemma subexpr_diverges fuel i k : subexpr fuel k (at_tok p i) = None.
Proof using Hne Hopen.
  revert i k. induction fuel as [|fuel IH]; intros i k; [done|]. cbn [subexpr].
  assert (Ho : operand (subexpr fuel) fuel (at_tok p i) = None).
  { unfold operand. rewrite peek_step by done. pose proof (tok_at_opens i) as H. unfold opens in H.
    destruct (isUnop (tok_at p i)); [rewrite next_step by done; unfold xbind, rbind; by rewrite IH|].
    rewrite orb_false_r in H. apply bool_decide_eq_true in H.
    unfold simpleexp. rewrite peek_step, H by done. unfold primaryexp, prefixexp, xbind at 1, rbind at 1.
    rewrite peek_step, H, next_step by done. unfold expr, xbind, rbind. by rewrite IH. }
  unfold xbind, rbind. by rewrite Ho.
Qed.
End Diverges.

