(* ===== verification/ExprTop.v ===== *)
(** * The tree of a failed parse

    The parser frees the tree of the text before, and only sets the pointer again when it
    succeeds. *)

From S2P Require Import Prelude Double Bytecode ExprLexer ExprParser.
From Stdlib Require Import Strings.Byte.
Local Open Scope Z_scope.
Local Open Scope rd_scope.

(** A computation that does not touch the tree. *)
Definition keeps_top {A} (m : SM ExpressionParser A) : Prop :=
  forall p a p', m p = Some (a, p') -> d_top p' = d_top p.

Lemma top_ret {A} (a : A) : keeps_top (rret a).
Proof. by intros p b p' [= _ <-]. Qed.
Lemma top_fail {A} : keeps_top (rfail (A := A)).
Proof. by intros p b p'. Qed.
Lemma top_xret {A} (a : A) : keeps_top (xret a).
Proof. apply top_ret. Qed.
Lemma top_bind {A B} (m : SM ExpressionParser A) (k : A -> SM ExpressionParser B) :
  keeps_top m -> (forall a, keeps_top (k a)) -> keeps_top (rbind m k).
Proof. intros Hm Hk p b p' (a & q & E & E')%rbind_inv. rewrite (Hk _ _ _ _ E'). by eapply Hm. Qed.
Lemma top_xbind {A B} (m : SM ExpressionParser (option A)) (k : A -> SM ExpressionParser (option B)) :
  keeps_top m -> (forall a, keeps_top (k a)) -> keeps_top (xbind m k).
Proof. intros Hm Hk. apply top_bind; [done|]. intros [a|]; [apply Hk|apply top_ret]. Qed.
Lemma top_lexer {A} (m : EL A) : keeps_top (lexer m).
Proof. intros p a p'. unfold lexer. destruct (m (d_lex p)) as [[x l]|]; [|done]. by intros [= _ <-]. Qed.
Lemma top_next : keeps_top next.
Proof. apply top_lexer. Qed.
Lemma top_peek : keeps_top peek.
Proof. apply top_lexer. Qed.
Lemma top_error {A} msg : keeps_top (perror (A := A) msg).
Proof. by intros p a p' [= _ <-]. Qed.

Create HintDb keep_top.
#[local] Hint Resolve top_ret top_fail top_xret top_next top_peek top_error : keep_top.

Ltac keep := repeat first [
    solve [auto with keep_top]
  | apply top_bind; [|intros ?] | apply top_xbind; [|intros ?] | case_match ].

Lemma top_expect ty msg : keeps_top (expect ty msg).
Proof. unfold expect. keep. Qed.
#[local] Hint Resolve top_expect : keep_top.

Section Keep.
Variable rec : Z -> PM (Ast * Operator).
Hypothesis Hrec : forall k, keeps_top (rec k).
#[local] Hint Resolve Hrec : keep_top.

Lemma top_expr : keeps_top (expr rec).
Proof using Hrec. unfold expr. keep. Qed.
#[local] Hint Resolve top_expr : keep_top.

Lemma top_primary_loop fuel n : keeps_top (primary_loop rec fuel n).
Proof using Hrec. revert n. induction fuel as [|fuel IH]; intros n; simpl; keep. Qed.
#[local] Hint Resolve top_primary_loop : keep_top.

Lemma top_operand fuel : keeps_top (operand rec fuel).
Proof using Hrec. unfold operand, simpleexp, primaryexp, prefixexp. keep. Qed.

Lemma top_binop_loop fuel k n op : keeps_top (binop_loop rec fuel k n op).
Proof using Hrec. revert n op. induction fuel as [|fuel IH]; intros n op; simpl; keep. Qed.
End Keep.

Lemma top_subexpr fuel k : keeps_top (subexpr fuel k).
Proof.
  revert k. induction fuel as [|fuel IH]; intros k; cbn [subexpr]; [apply top_fail|].
  apply top_xbind; [by apply top_operand|]. intros n. apply top_bind; [apply top_peek|]. intros t. by apply top_binop_loop.
Qed.

(** [C34] After a text that is not accepted, the parser still has the address of the tree it
    has freed at the start: every other [parse] and the destructor free it again, which is
    undefined. *)
Theorem failed_parse_dangles `{X : ExprLib} fuel s t p p' :
  d_top p = TopTree t -> parse fuel s p = Some (false, p') ->
  d_top p' = TopFreed /\ delete_ExpressionParser p' = None /\ forall fuel' s', parse fuel' s' p' = None.
Proof.
  intros Ht Hp. assert (Hf : d_top p' = TopFreed).
  { unfold parse in Hp. apply rbind_inv in Hp as ([] & p1 & Hd & Hp).
    assert (H1 : d_top p1 = TopFreed).
    { unfold delete_top, rbind, rget, id in Hd. rewrite Ht in Hd. by injection Hd as <-. }
    destruct s as [|c s]; [discriminate Hp|]. apply rbind_inv in Hp as (b & p2 & Hl & Hp). apply top_lexer in Hl. rewrite H1 in Hl.
    destruct b; [|injection Hp as <-; exact Hl]. unfold parse_tokens in Hp. apply rbind_inv in Hp as (u & p3 & Hn & Hp).
    apply top_next in Hn. apply rbind_inv in Hp as (r & p4 & He & Hp). apply (top_expr _ (top_subexpr fuel)) in He.
    destruct r; [done|]. injection Hp as <-. congruence. }
  split; [done|]. split; [unfold delete_ExpressionParser; by rewrite Hf|]. intros fuel' s'.
  assert (Hd : delete_top p' = None) by (unfold delete_top, rbind, rget, id; by rewrite Hf).
  unfold parse, rbind. by rewrite Hd.
Qed.
