(* ===== verification/ExprEval.v ===== *)
(** * The evaluation of expressions

    [ExpressionParser::execute] walks over the tree and works on the stack of Lua; the value
    of an expression is left on it.  [executeAndPrint] prints and removes the value. *)

From S2P Require Import Prelude Double Bytecode LuaHost ExprLexer ExprParser.
From Stdlib Require Import Strings.Byte SpecFloat.
Local Open Scope Z_scope.
Local Open Scope rd_scope.

Section Eval.
Context `{X : ExprLib} `{L : LuaApi} `{H : HostLib}.

(** The parser with its error text, and the host it works on. *)
Record Exec := mkExec { x_parser : ExpressionParser; x_host : Engine2 }.

(** What may throw. *)
Abbreviation XM A := (SM Exec (option A)).

Definition host {A} (m : SM Engine2 A) : SM Exec A :=
  fun s => match m (x_host s) with Some (x, e) => Some (x, mkExec (x_parser s) e) | None => None end.
Definition parser {A} (m : SM ExpressionParser A) : SM Exec A :=
  fun s => match m (x_parser s) with Some (x, p) => Some (x, mkExec p (x_host s)) | None => None end.
Definition call {A} (m : SM lua_State A) : SM Exec A := host (lua m).
Definition see {A} (f : lua_State -> A) : SM Exec A := host (look f).
Definition throw {A} (msg : bytes) : XM A := parser (perror msg).

(** The fuel of the loop over the local variables. *)
Variable fuel : nat.

(** The number that [QVariant::toInt] gives for the value of an operation. *)
Definition ast_op (v : QVariant) : Operator := match v with QInt z => default E_NoOp (op_of z) | _ => E_NoOp end.

(** The text that stands for a name is replaced by the value of the variable.
    [src/ExpressionParser.cpp:174-184] _evalName *)
Definition evalName (n : Ast) (arg : Z) : SM Exec unit :=
  match n with
  | ANull => rfail
  | ANode N_Name _ _ _ =>
      name <~ call (lua_tostring arg);
      _ <~ host (pushLocalOrGlobal fuel (text_of name));
      call (lua_replace (if arg <? 0 then arg - 1 else arg))
  | _ => rret tt
  end.

(** [src/ExpressionParser.cpp:186-186] luai_nummod *)
Definition dbl_floor (d : dbl) : dbl :=
  match to_sf d with
  | S754_finite s m e =>
      if 0 <=? e then d else
      dbl_of_Z ((if s then - Z.pos m else Z.pos m) / 2 ^ (- e))
  | _ => d
  end.
(** [src/ExpressionParser.cpp:186-186] luai_nummod *)
Definition luai_nummod (a b : dbl) : dbl := dbl_sub a (dbl_mul (dbl_floor (dbl_div a b)) b).

Definition equal : SM Exec bool := call (lua_equal (-2) (-1)).
Definition lessthan : SM Exec bool := call (lua_lessthan (-2) (-1)).
Definition pushboolean (b : bool) : SM Exec unit := call (lua_pushboolean b).

(** Types whose values are compared.
    [src/ExpressionParser.cpp:190-197] _compareSimpleOrUser *)
Definition comparable (t : LuaType) : bool :=
  match t with
  | LUA_TNIL | LUA_TNUMBER | LUA_TBOOLEAN | LUA_TSTRING | LUA_TLIGHTUSERDATA | LUA_TUSERDATA => true
  | _ => false
  end.

(** [src/ExpressionParser.cpp:188-226] _compareSimpleOrUser *)
Definition compareSimpleOrUser (op : Operator) : SM Exec bool :=
  t <~ see (lua_type (-2));
  if comparable t then
    match op with
    | E_Neq => b <~ equal; _ <~ pushboolean (negb b); rret true
    | E_Eq => b <~ equal; _ <~ pushboolean b; rret true
    | E_Lt => b <~ lessthan; _ <~ pushboolean b; rret true
    | E_Leq => b <~ lessthan; b' <~ (if (b : bool) then rret true else equal); _ <~ pushboolean b'; rret true
    | E_Gt => b <~ lessthan; b' <~ (if negb b then (c <~ equal; rret (negb c)) else rret false); _ <~ pushboolean b'; rret true
    | E_Geq => b <~ lessthan; b' <~ (if negb b then rret true else equal); _ <~ pushboolean b'; rret true
    | _ => rret false
    end
  else rret false.

(** A number that is computed from the two values on the top. *)
Definition arith (f : dbl -> dbl -> dbl) : SM Exec unit :=
  a <~ see (lua_tonumber (-2)); b <~ see (lua_tonumber (-1)); call (lua_pushnumber (f a b)).

(** A comparison, or an error.
    [src/ExpressionParser.cpp:298-302] depthFirstExec *)
Definition comparison (op : Operator) : XM unit :=
  ok <~ compareSimpleOrUser op;
  if (ok : bool) then xret tt
  else _ <~ call (lua_pop 2); throw (qb "binary operation not supported for operands").

Definition done_ (m : SM Exec unit) : XM unit := _ <~ m; xret tt.

(** The result of a binary operation is pushed.
    [src/ExpressionParser.cpp:262-314] depthFirstExec *)
Definition binop (op : Operator) : XM unit :=
  match op with
  | E_Plus => done_ (arith dbl_add)
  | E_Minus => done_ (arith dbl_sub)
  | E_Star => done_ (arith dbl_mul)
  | E_Slash => done_ (arith dbl_div)
  | E_Percent => done_ (arith luai_nummod)
  | E_Hat => done_ (arith c_pow)
  | E_Concat =>
      a <~ call (lua_tostring (-2)); b <~ call (lua_tostring (-1));
      done_ (call (lua_pushstring (c_string (text_of a ++ text_of b))))
  | E_Neq | E_Eq | E_Lt | E_Leq | E_Gt | E_Geq => comparison op
  | E_And => a <~ see (lua_toboolean (-2)); b <~ see (lua_toboolean (-1)); done_ (pushboolean (a && b))
  | E_Or => a <~ see (lua_toboolean (-2)); b <~ see (lua_toboolean (-1)); done_ (pushboolean (a || b))
  | _ => _ <~ call (lua_pop 2); throw (qb "invalid binary operator")
  end.

(** [src/ExpressionParser.cpp:323-352] depthFirstExec *)
Definition unop (op : Operator) : XM unit :=
  match op with
  | E_Minus => a <~ see (lua_tonumber (-1)); _ <~ call (lua_pushnumber (dbl_opp a)); done_ (call (lua_replace (-2)))
  | E_Not => a <~ see (lua_toboolean (-1)); _ <~ call (lua_pushboolean (negb a)); done_ (call (lua_replace (-2)))
  | E_Pound =>
      t <~ see (lua_type (-1));
      match t with
      | LUA_TTABLE | LUA_TSTRING =>
          n <~ see (lua_objlen (-1)); _ <~ call (lua_pushnumber (dbl_of_Z n)); done_ (call (lua_replace (-2)))
      | _ => _ <~ call (lua_pop 1); throw (qb "invalid operand for # operator")
      end
  | _ => _ <~ call (lua_pop 1); throw (qb "invalid unary operator")
  end.

(** [src/ExpressionParser.cpp:360-371] depthFirstExec *)
Definition index : XM unit :=
  u <~ see (lua_isuserdata (-2));
  if (u : bool) then done_ (call (lua_gettable (-2)))
  else
    t <~ see (lua_type (-2));
    if bool_decide (t = LUA_TTABLE) then done_ (call (lua_rawget (-2)))
    else _ <~ call (lua_pop 2); throw (qb "invalid left operand in index operation").

(** The value of a constant.
    [src/ExpressionParser.cpp:239-254] depthFirstExec *)
Definition constant (v : QVariant) : SM Exec unit :=
  match v with
  | QInvalid => call lua_pushnil
  | QBool b => call (lua_pushboolean b)
  | QDouble d => call (lua_pushnumber d)
  | _ => call (lua_pushstring (c_string (variant_latin1 v)))
  end.

(** The bytes of a name; [QVariant::toByteArray]. *)
Definition name_bytes (v : QVariant) : bytes := match v with QByteArray s => s | _ => variant_latin1 v end.

(** The children first; their results are not looked at.
    [src/ExpressionParser.cpp:228-373] depthFirstExec *)
Fixpoint depthFirstExec (n : Ast) : XM Z :=
  match n with
  | ANull => xret 0
  | ANode ty val l r =>
      _ <! (match l with ANull => xret 0 | _ => depthFirstExec l end);
      _ <! (match r with ANull => xret 0 | _ => depthFirstExec r end);
      match ty with
      | N_Constant => _ <~ constant val; xret 1
      | N_BinOp =>
          _ <~ evalName l (-2);
          _ <~ evalName r (-1);
          _ <! binop (ast_op val);
          _ <~ call (lua_replace (-3));
          _ <~ call (lua_pop 1);
          xret 1
      | N_UnOp =>
          _ <~ evalName l (-1);
          _ <! unop (ast_op val);
          xret 1
      | N_DotOp | N_IndexOp =>
          _ <~ evalName l (-2);
          _ <! index;
          _ <~ call (lua_remove (-2));
          xret 1
      | N_Name => _ <~ call (lua_pushstring (c_string (name_bytes val))); xret 1
      | N_Invalid | N_BraceOp => xret 0
      end
  end.

(** [src/ExpressionParser.cpp:103-126] execute *)
Definition execute : SM Exec Z :=
  _ <~ parser (set_perror []);
  s <~ rget id;
  match d_top (x_parser s) with
  | TopNull => rret 0
  | TopFreed => rfail
  | TopTree n =>
      match n with
      | ANode N_Invalid _ _ _ => _ <~ call lua_pushnil; rret 1
      | ANode N_Name v _ _ => _ <~ host (pushLocalOrGlobal fuel (name_bytes v)); rret 1
      | _ => r <~ depthFirstExec n; rret (default 0 r)
      end
  end.

(** The value on the top is printed, with its type when it is not simple.
    [src/ExpressionParser.cpp:132-143] executeAndPrint *)
Definition print_value : SM Exec unit :=
  t <~ see (lua_type (-1));
  match t with
  | LUA_TNIL | LUA_TNUMBER | LUA_TBOOLEAN | LUA_TSTRING => v <~ host (getValueString (-1) true); host (print v)
  | _ => n <~ host (getTypeName (-1)); v <~ host (getValueString (-1) true); host (print (n ++ qb ": " ++ v))
  end.

(** The error text is reported.
    [src/ExpressionParser.cpp:148-152] executeAndPrint *)
Definition report_failure : SM Exec bool :=
  s <~ rget id;
  _ <~ (match ep_error (x_parser s) with
        | [] => host (host_error (qb "unknown execution error"))
        | e => host (host_error e)
        end);
  rret false.

(** [src/ExpressionParser.cpp:128-154] executeAndPrint *)
Definition executeAndPrint : SM Exec bool :=
  r <~ execute;
  if 0 <? r then _ <~ print_value; _ <~ host (pop 1); rret true else report_failure.

(** ** The dump of the tokens and the tree *)

(** [src/ExpressionParser.cpp:838-860] _toTypeStr *)
Definition toTypeStr (t : AstNodeType) : bytes :=
  match t with
  | N_Constant => qb "Constant" | N_BinOp => qb "Binop" | N_UnOp => qb "Unop" | N_DotOp => qb "DotOp"
  | N_BraceOp => qb "BraceOp" | N_IndexOp => qb "BracketOp" | N_Name => qb "NameFetch" | N_Invalid => qb "Invalid"
  end.

(** [src/ExpressionParser.cpp:862-904] _toOpStr *)
Definition toOpStr (o : Operator) : bytes :=
  match o with
  | E_Plus => qb "+" | E_Minus => qb "-" | E_Star => qb "*" | E_Slash => qb "/" | E_Hat => qb "^" | E_Percent => qb "%"
  | E_Concat => qb ".." | E_Lt => qb "<" | E_Leq => qb "<=" | E_Gt => qb ">" | E_Geq => qb ">=" | E_Eq => qb "=="
  | E_Neq => qb "~=" | E_And => qb "and" | E_Or => qb "or" | E_Not => qb "not" | E_Pound => qb "#" | E_NoOp => qb "?"
  end.

Definition quoted_text (s : bytes) : bytes := [x22] ++ s ++ [x22].

(** [src/ExpressionParser.cpp:906-924] _toValStr *)
Definition toValStr (t : AstNodeType) (v : QVariant) : bytes :=
  match t with
  | N_Constant =>
      if variant_isNull v then qb "nil"
      else match v with QByteArray _ => quoted_text (variant_text v) | _ => variant_text v end
  | N_Name => variant_text v
  | N_BinOp | N_UnOp => toOpStr (ast_op v)
  | _ => qb "<none>"
  end.

(** [src/ExpressionParser.cpp:926-935] dump *)
Fixpoint node_dump (level : nat) (n : Ast) : bytes :=
  match n with
  | ANull => []
  | ANode ty v l r =>
      replicate (level * 4) " "%byte ++ qb "Token: " ++ toTypeStr ty ++ qb " Value: " ++ toValStr ty v ++ [x0a] ++
      node_dump (S level) l ++ node_dump (S level) r
  end.

(** [src/ExpressionParser.cpp:963-978] _toValStr2 *)
Definition toValStr2 (t : TokType) (v : QVariant) : bytes :=
  match t with
  | T_Bool | T_Number | T_Name => qb "=" ++ variant_text v
  | T_String => qb "=" ++ quoted_text (variant_text v)
  | T_Op => qb "='" ++ toOpStr (ast_op v) ++ qb "'"
  | _ => []
  end.

(** [src/ExpressionParser.cpp:980-1010] _toTypeStr2 *)
Definition toTypeStr2 (t : TokType) : bytes :=
  match t with
  | T_Nil => qb "Nil" | T_Bool => qb "Bool" | T_Number => qb "Number" | T_String => qb "String" | T_Name => qb "Name"
  | T_LBrack => qb "LBrack" | T_RBrack => qb "RBrack" | T_LBrace => qb "LBrace" | T_RBrace => qb "RBrace"
  | T_Dot => qb "Dot" | T_Op => qb "Op" | T_Invalid => qb "Invalid"
  end.

(** [src/ExpressionParser.cpp:1012-1019] dump *)
Definition tokens_dump (ts : list Tok) : bytes :=
  flat_map (fun t => toTypeStr2 (t_type t) ++ toValStr2 (t_type t) (t_val t) ++ qb " ") ts ++ [x0a].

(** [src/ExpressionParser.cpp:159-166] dump *)
Definition dump (p : ExpressionParser) : option bytes :=
  match d_top p with
  | TopNull => Some (tokens_dump (d_tokens (d_lex p)) ++ qb "No top node" ++ [x0a])
  | TopTree n => Some (tokens_dump (d_tokens (d_lex p)) ++ node_dump 0 n)
  | TopFreed => None
  end.

(** [src/ExpressionParser.cpp:82-101] parseAndPrint *)
Definition parseAndPrint (pfuel : nat) (source : bytes) (doDump : bool) : SM Exec bool :=
  b <~ parser (parse pfuel source);
  s <~ rget id;
  if (b : bool) then
    _ <~ (if doDump then match dump (x_parser s) with Some str => host (print str) | None => rfail end else rret tt);
    rret true
  else
    _ <~ (match ep_error (x_parser s) with
          | [] => host (host_error (qb "unknown expression parser error"))
          | e => host (host_error e)
          end);
    rret false.

End Eval.
