(* ===== verification/ExprEvalSpec.v ===== *)
(** * The value of an expression

    An abstract evaluator of trees over the values of Lua, and the refinement: the walk over
    the stack leaves this value on it, and nothing else. *)

From S2P Require Import Prelude Double Bytecode LuaHost ExprLexer ExprParser ExprEval.
From Stdlib Require Import Strings.Byte.
Local Open Scope Z_scope.
Local Open Scope rd_scope.

(** ** What Lua documents *)

(** A state of Lua is a stack of values, the top first, and the rest of the world.  An
    operation that raises an error has no result. *)
Class LuaModel `{LuaApi} := {
  lvalue : Type;
  lworld : Type;
  state_of : list lvalue -> lworld -> lua_State;
  v_nil : lvalue; v_bool : bool -> lvalue; v_num : dbl -> lvalue; v_str : bytes -> lvalue;
  type_of : lvalue -> LuaType;
  num_of : lvalue -> dbl;
  bool_of : lvalue -> bool;
  len_of : lvalue -> Z;
  (** the text of a string or a number, and the string that replaces the value *)
  str_of : lvalue -> option bytes;
  str_conv : lvalue -> lvalue;
  v_equal : lvalue -> lvalue -> lworld -> option (bool * lworld);
  v_less : lvalue -> lvalue -> lworld -> option (bool * lworld);
  v_index : lvalue -> lvalue -> lworld -> option (lvalue * lworld);
  v_rawget : lvalue -> lvalue -> lworld -> lvalue;
  v_env : bool -> lvalue -> lworld -> lvalue;
  v_frame : Z -> lworld -> option lua_Debug;
  v_locals : lua_Debug -> lworld -> list (bytes * lvalue)
}.

(** The index of the [k]-th value below the top. *)
Definition idx (k : nat) : Z := - Z.of_nat k - 1.

Class LuaLaws `{M : LuaModel} : Prop := {
  l_type st w k v : st !! k = Some v -> lua_type (idx k) (state_of st w) = type_of v;
  l_isuserdata st w k v : st !! k = Some v ->
    lua_isuserdata (idx k) (state_of st w) = bool_decide (type_of v = LUA_TUSERDATA \/ type_of v = LUA_TLIGHTUSERDATA);
  l_toboolean st w k v : st !! k = Some v -> lua_toboolean (idx k) (state_of st w) = bool_of v;
  l_tonumber st w k v : st !! k = Some v -> lua_tonumber (idx k) (state_of st w) = num_of v;
  l_objlen st w k v : st !! k = Some v -> lua_objlen (idx k) (state_of st w) = len_of v;
  l_tostring st w k v : st !! k = Some v ->
    lua_tostring (idx k) (state_of st w) = Some (str_of v, state_of (<[k := str_conv v]> st) w);
  l_pushnil st w : lua_pushnil (state_of st w) = Some (tt, state_of (v_nil :: st) w);
  l_pushboolean b st w : lua_pushboolean b (state_of st w) = Some (tt, state_of (v_bool b :: st) w);
  l_pushnumber d st w : lua_pushnumber d (state_of st w) = Some (tt, state_of (v_num d :: st) w);
  l_pushstring s st w : lua_pushstring s (state_of st w) = Some (tt, state_of (v_str s :: st) w);
  l_pop n st w : (n <= length st)%nat -> lua_pop (Z.of_nat n) (state_of st w) = Some (tt, state_of (drop n st) w);
  l_replace k v st w : (k < length st)%nat ->
    lua_replace (idx (S k)) (state_of (v :: st) w) = Some (tt, state_of (<[k := v]> st) w);
  l_remove k st w : (k < length st)%nat -> lua_remove (idx k) (state_of st w) = Some (tt, state_of (delete k st) w);
  l_equal a b st w : lua_equal (-2) (-1) (state_of (b :: a :: st) w) =
    match v_equal a b w with Some (r, w') => Some (r, state_of (b :: a :: st) w') | None => None end;
  l_lessthan a b st w : lua_lessthan (-2) (-1) (state_of (b :: a :: st) w) =
    match v_less a b w with Some (r, w') => Some (r, state_of (b :: a :: st) w') | None => None end;
  l_gettable k t st w : lua_gettable (-2) (state_of (k :: t :: st) w) =
    match v_index t k w with Some (v, w') => Some (tt, state_of (v :: t :: st) w') | None => None end;
  l_rawget k t st w : type_of t = LUA_TTABLE ->
    lua_rawget (-2) (state_of (k :: t :: st) w) = Some (tt, state_of (v_rawget t k w :: t :: st) w);
  (** the environment of the function that runs, and the globals *)
  l_environ k st w : lua_rawget LUA_ENVIRONINDEX (state_of (k :: st) w) = Some (tt, state_of (v_env true k w :: st) w);
  l_globals k st w : lua_rawget LUA_GLOBALSINDEX (state_of (k :: st) w) = Some (tt, state_of (v_env false k w :: st) w);
  l_getstack n st w : lua_getstack n (state_of st w) = v_frame n w;
  l_getlocal ar n st w : lua_getlocal ar (Z.of_nat n + 1) (state_of st w) =
    match v_locals ar w !! n with
    | Some (s, v) => Some (Some s, state_of (v :: st) w)
    | None => Some (None, state_of st w)
    end;
  (** a function has at most 250 slots for its variables *)
  l_locals ar w : (length (v_locals ar w) <= 250)%nat;
  l_str s : str_of (v_str s) = Some (c_string s) /\ str_conv (v_str s) = v_str s
}.

(** ** The evaluator *)

Section Spec.
Context `{X : ExprLib} `{L : LuaApi} `{H : HostLib} `{M : !LuaModel}.

(** A value and the world then; an error of the evaluator; or an error of Lua. *)
Definition outcome : Type := option ((lvalue * lworld) + bytes).
Definition good (v : lvalue) (w : lworld) : outcome := Some (inl (v, w)).
Definition bad (msg : bytes) : outcome := Some (inr msg).
Definition after (o : outcome) (k : lvalue -> lworld -> outcome) : outcome :=
  match o with Some (inl (v, w)) => k v w | Some (inr msg) => Some (inr msg) | None => None end.

(** The value of a variable: the first local variable of this name of the active function
    where the debugger waits, a global variable otherwise. *)
Definition variable (waits : bool) (level : Z) (name : bytes) (w : lworld) : lvalue :=
  let global := v_env waits (v_str name) w in
  if waits then
    match v_frame level w with
    | Some ar => match list_find (fun p => p.1 = name) (v_locals ar w) with Some (_, (_, v)) => v | None => global end
    | None => global
    end
  else global.

Definition test (r : option (bool * lworld)) (k : bool -> lworld -> outcome) : outcome :=
  match r with Some (b, w) => k b w | None => None end.

Definition ev_compare (op : Operator) (a b : lvalue) (w : lworld) : outcome :=
  let yes r w := good (v_bool r) w in
  if negb (comparable (type_of a)) then bad (qb "binary operation not supported for operands") else
  match op with
  | E_Eq => test (v_equal a b w) yes
  | E_Neq => test (v_equal a b w) (fun r => yes (negb r))
  | E_Lt => test (v_less a b w) yes
  | E_Leq => test (v_less a b w) (fun r w => if r then yes true w else test (v_equal a b w) yes)
  | E_Gt => test (v_less a b w) (fun r w => if r then yes false w else test (v_equal a b w) (fun r => yes (negb r)))
  | E_Geq => test (v_less a b w) (fun r w => if r then test (v_equal a b w) yes else yes true w)
  | _ => bad (qb "binary operation not supported for operands")
  end.

Definition ev_binop (op : Operator) (a b : lvalue) (w : lworld) : outcome :=
  let num f := good (v_num (f (num_of a) (num_of b))) w in
  match op with
  | E_Plus => num dbl_add | E_Minus => num dbl_sub | E_Star => num dbl_mul | E_Slash => num dbl_div
  | E_Percent => num luai_nummod | E_Hat => num c_pow
  | E_Concat => good (v_str (c_string (text_of (str_of a) ++ text_of (str_of b)))) w
  | E_And => good (v_bool (bool_of a && bool_of b)) w
  | E_Or => good (v_bool (bool_of a || bool_of b)) w
  | E_Eq | E_Neq | E_Lt | E_Leq | E_Gt | E_Geq => ev_compare op a b w
  | _ => bad (qb "invalid binary operator")
  end.

Definition ev_unop (op : Operator) (a : lvalue) (w : lworld) : outcome :=
  match op with
  | E_Minus => good (v_num (dbl_opp (num_of a))) w
  | E_Not => good (v_bool (negb (bool_of a))) w
  | E_Pound =>
      match type_of a with
      | LUA_TTABLE | LUA_TSTRING => good (v_num (dbl_of_Z (len_of a))) w
      | _ => bad (qb "invalid operand for # operator")
      end
  | _ => bad (qb "invalid unary operator")
  end.

Definition ev_index (t k : lvalue) (w : lworld) : outcome :=
  match type_of t with
  | LUA_TUSERDATA | LUA_TLIGHTUSERDATA => match v_index t k w with Some (v, w) => good v w | None => None end
  | LUA_TTABLE => good (v_rawget t k w) w
  | _ => bad (qb "invalid left operand in index operation")
  end.

Definition ev_constant (v : QVariant) : lvalue :=
  match v with
  | QInvalid => v_nil
  | QBool b => v_bool b
  | QDouble d => v_num d
  | _ => v_str (c_string (variant_latin1 v))
  end.

Section Evaluator.
Variables (waits : bool) (level : Z).

(** What stands for an operand: the value of the variable where it is a name. *)
Definition as_operand (n : Ast) (v : lvalue) (w : lworld) : lvalue :=
  match n with ANode N_Name _ _ _ => variable waits level (text_of (str_of v)) w | _ => v end.

(** Both operands are evaluated before a name is replaced by its value; the key of an access
    is not replaced: it is the name itself. *)
Fixpoint ev (n : Ast) (w : lworld) : outcome :=
  match n with
  | ANull => None
  | ANode ty val l r =>
      match ty with
      | N_Constant => good (ev_constant val) w
      | N_Name => good (v_str (c_string (name_bytes val))) w
      | N_BinOp => after (ev l w) (fun a w => after (ev r w) (fun b w =>
                     ev_binop (ast_op val) (as_operand l a w) (as_operand r b w) w))
      | N_UnOp => after (ev l w) (fun a w => ev_unop (ast_op val) (as_operand l a w) w)
      | N_DotOp | N_IndexOp => after (ev l w) (fun a w => after (ev r w) (fun k w => ev_index (as_operand l a w) k w))
      | N_BraceOp => ev l w
      | N_Invalid => None
      end
  end.
End Evaluator.

Definition is_null (n : Ast) : bool := match n with ANull => true | _ => false end.

(** A tree as the parser builds it: an operation has its operands. *)
Fixpoint shaped (n : Ast) : bool :=
  match n with
  | ANull => false
  | ANode ty _ l r =>
      match ty with
      | N_Constant | N_Name => is_null l && is_null r
      | N_BinOp | N_DotOp | N_IndexOp => shaped l && shaped r
      | N_UnOp | N_BraceOp => shaped l && is_null r
      | N_Invalid => false
      end
  end.

(** ** The walk over the stack *)

(** The state with this stack. *)
Definition on (st : list lvalue) (w : lworld) (s : Exec) : Exec := mkExec (x_parser s) (set_ctx (state_of st w) (x_host s)).
Definition thrown (msg : bytes) (s : Exec) : Exec :=
  mkExec (mkExpressionParser (d_top (x_parser s)) (d_lex (x_parser s)) msg) (x_host s).

(** What a computation that throws does, compared with the evaluator: the value, or what is
    pending when the exception is thrown, is on the stack. *)
Definition agrees {A} (o : outcome) (a : A) (st : list lvalue) (s : Exec) (r : option (option A * Exec)) : Prop :=
  match o with
  | None => r = None
  | Some (inr msg) => exists pend w', r = Some (None, thrown msg (on (pend ++ st) w' s))
  | Some (inl (v, w')) => r = Some (Some a, on (v :: st) w' s)
  end.

Context `{Laws : !LuaLaws}.

Lemma call_on {A} (m : SM lua_State A) st w st' w' s x :
  m (state_of st w) = Some (x, state_of st' w') -> call m (on st w s) = Some (x, on st' w' s).
Proof. intros E. unfold call, host, lua, on. simpl. by rewrite E. Qed.

Lemma call_None {A} (m : SM lua_State A) st w s : m (state_of st w) = None -> call m (on st w s) = None.
Proof. intros E. unfold call, host, lua, on. simpl. by rewrite E. Qed.

Lemma call_step {A B} (m : SM lua_State A) st w st' w' s x (k : A -> SM Exec B) :
  m (state_of st w) = Some (x, state_of st' w') -> rbind (call m) k (on st w s) = k x (on st' w' s).
Proof. intros E. by rewrite (rbind_Some _ _ _ _ _ (call_on m st w st' w' s x E)). Qed.

Lemma see_step {A B} (f : lua_State -> A) st w s (k : A -> SM Exec B) :
  rbind (see f) k (on st w s) = k (f (state_of st w)) (on st w s).
Proof. unfold see, host, look, rget, rbind, on. simpl. done. Qed.

Lemma throw_on {A} msg st w s : throw (A := A) msg (on st w s) = Some (None, thrown msg (on st w s)).
Proof. done. Qed.

Lemma lua_step {A B} (m : SM lua_State A) e st w st' w' x (k : A -> SM Engine2 B) :
  m (state_of st w) = Some (x, state_of st' w') ->
  rbind (lua m) k (set_ctx (state_of st w) e) = k x (set_ctx (state_of st' w') e).
Proof. intros E. unfold rbind, lua. simpl. by rewrite E. Qed.

Lemma pop_1 v st w : lua_pop 1 (state_of (v :: st) w) = Some (tt, state_of st w).
Proof using Laws. apply (l_pop 1 (v :: st)). simpl. lia. Qed.
Lemma pop_2 u v st w : lua_pop 2 (state_of (u :: v :: st) w) = Some (tt, state_of st w).
Proof using Laws. apply (l_pop 2 (u :: v :: st)). simpl. lia. Qed.
Lemma replace_2 u v st w : lua_replace (-2) (state_of (u :: v :: st) w) = Some (tt, state_of (u :: st) w).
Proof using Laws. apply (l_replace 0 u (v :: st) w). simpl. lia. Qed.
Lemma replace_3 t u v st w : lua_replace (-3) (state_of (t :: u :: v :: st) w) = Some (tt, state_of (u :: t :: st) w).
Proof using Laws. apply (l_replace 1 t (u :: v :: st) w). simpl. lia. Qed.

Lemma find_local_spec ar name f e st w n :
  (length (v_locals ar w) - n < f)%nat ->
  find_local f ar name (Z.of_nat n + 1) (set_ctx (state_of st w) e) =
  match list_find (fun p => p.1 = name) (drop n (v_locals ar w)) with
  | Some (_, (_, v)) => Some (true, set_ctx (state_of (v :: st) w) e)
  | None => Some (false, set_ctx (state_of st w) e)
  end.
Proof using Laws.
  revert n. induction f as [|f IH]; intros n Hf; [lia|]. cbn [find_local]. pose proof (l_getlocal ar n st w) as Hg.
  destruct (v_locals ar w !! n) as [[t v]|] eqn:E.
  - rewrite (lua_step _ _ _ _ _ _ _ _ Hg). rewrite (drop_S _ _ _ E). simpl. case_bool_decide as Et; subst.
    + by rewrite decide_True.
    + rewrite decide_False by done. rewrite (lua_step _ _ _ _ _ _ _ _ (pop_1 v st w)).
      apply lookup_lt_Some in E. replace (Z.of_nat n + 1 + 1) with (Z.of_nat (S n) + 1) by lia. rewrite IH by lia.
      destruct (list_find _ _) as [[? [? ?]]|]; done.
  - rewrite (lua_step _ _ _ _ _ _ _ _ Hg). apply lookup_ge_None in E. by rewrite drop_ge.
Qed.

Lemma push_global_spec name e st w :
  push_global name (set_ctx (state_of st w) e) =
  Some (1, set_ctx (state_of (v_env (d_waitForCommand e) (v_str name) w :: st) w) e).
Proof using Laws.
  unfold push_global, rget at 1, rbind at 1, id. rewrite (lua_step _ _ _ _ _ _ _ _ (l_pushstring name st w)).
  change (d_waitForCommand (set_ctx (state_of st w) e)) with (d_waitForCommand e). destruct (d_waitForCommand e).
  - by rewrite (lua_step _ _ _ _ _ _ _ _ (l_environ (v_str name) st w)).
  - by rewrite (lua_step _ _ _ _ _ _ _ _ (l_globals (v_str name) st w)).
Qed.

Context (fuel : nat) (Hfuel : (250 < fuel)%nat).

Lemma pushLocalOrGlobal_spec name e st w :
  pushLocalOrGlobal fuel name (set_ctx (state_of st w) e) =
  Some (1, set_ctx (state_of (variable (d_waitForCommand e) (d_activeLevel e) name w :: st) w) e).
Proof using Laws Hfuel.
  unfold pushLocalOrGlobal, variable. unfold rget at 1, rbind at 1, id. simpl.
  pose proof (push_global_spec name e st w) as Hg. destruct (d_waitForCommand e) eqn:Ew; [|done].
  rewrite l_getstack. destruct (v_frame (d_activeLevel e) w) as [ar|]; [|done].
  pose proof (find_local_spec ar name fuel e st w 0) as Hl. rewrite drop_0 in Hl. pose proof (l_locals ar w).
  specialize (Hl ltac:(lia)). destruct (list_find _ _) as [[j [t v]]|]; by rewrite (rbind_Some _ _ _ _ _ Hl).
Qed.

Abbreviation operand_of s := (as_operand (d_waitForCommand (x_host s)) (d_activeLevel (x_host s))).

Lemma pushed name st w s :
  host (pushLocalOrGlobal fuel name) (on st w s) =
  Some (1, on (variable (d_waitForCommand (x_host s)) (d_activeLevel (x_host s)) name w :: st) w s).
Proof using Laws Hfuel. unfold host, on. simpl. by rewrite pushLocalOrGlobal_spec. Qed.

(** A name among the values is replaced; it is a string. *)
Lemma evalName_spec n v st w s k :
  n <> ANull -> (forall q l r, n = ANode N_Name q l r -> exists t, v = v_str t) -> st !! k = Some v ->
  evalName fuel n (idx k) (on st w s) = Some (tt, on (<[k := operand_of s n v w]> st) w s).
Proof using Laws Hfuel.
  intros Hn Hv Hk. assert (Hid : <[k := v]> st = st) by by apply list_insert_id.
  destruct n as [|ty q l r]; [done|]. destruct ty; cbn [evalName as_operand]; try (by rewrite Hid).
  destruct (Hv q l r eq_refl) as [t ->]. destruct (l_str t) as [H1 H2].
  rewrite (call_step (lua_tostring (idx k)) st w st w s (str_of (v_str t))) by (by rewrite (l_tostring _ _ _ _ Hk), H2, Hid).
  rewrite (rbind_Some _ _ _ _ _ (pushed _ st w s)). rewrite (proj2 (Z.ltb_lt (idx k) 0)) by (unfold idx; lia).
  replace (idx k - 1) with (idx (S k)) by (unfold idx; lia). apply call_on, l_replace. by eapply lookup_lt_Some.
Qed.

(** ** Operations *)

(** The operation on the values of this stack leaves a result above them. *)
Definition leaves_result (o : outcome) (n : nat) (st : list lvalue) (w : lworld) (s : Exec) (r : option (option unit * Exec)) : Prop :=
  match o with
  | None => r = None
  | Some (inr msg) => r = Some (None, thrown msg (on st w s))
  | Some (inl (v, w')) => exists vs, length vs = n /\ r = Some (Some tt, on (v :: vs ++ st) w' s)
  end.

Ltac tops :=
  repeat first
    [ rewrite see_step
    | progress change (-2) with (idx 1) | progress change (-1) with (idx 0)
    | erewrite l_tonumber by reflexivity | erewrite l_toboolean by reflexivity | erewrite l_type by reflexivity
    | erewrite l_objlen by reflexivity | erewrite l_isuserdata by reflexivity ].

Lemma arith_spec f a b st w s :
  done_ (arith f) (on (b :: a :: st) w s) =
  Some (Some tt, on (v_num (f (num_of a) (num_of b)) :: [b; a] ++ st) w s).
Proof using Laws.
  unfold done_, arith. unfold rbind at 1. tops. by rewrite (call_on _ _ _ _ _ s _ (l_pushnumber _ _ _)).
Qed.

Lemma pushboolean_done b st w s : done_ (pushboolean b) (on st w s) = Some (Some tt, on (v_bool b :: st) w s).
Proof using Laws. unfold done_. by rewrite (call_step _ _ _ _ _ s _ _ (l_pushboolean b st w)). Qed.

(** A comparison of two values with its effect on the world. *)
Lemma equal_step {B} a b st w s (k : bool -> SM Exec B) :
  rbind equal k (on (b :: a :: st) w s) =
  match v_equal a b w with Some (r, w') => k r (on (b :: a :: st) w' s) | None => None end.
Proof using Laws.
  pose proof (l_equal a b st w) as E. destruct (v_equal a b w) as [[r w']|]; [by rewrite (call_step _ _ _ _ _ s _ _ E)|].
  unfold rbind, equal. by rewrite (call_None _ _ _ s E).
Qed.
Lemma lessthan_step {B} a b st w s (k : bool -> SM Exec B) :
  rbind lessthan k (on (b :: a :: st) w s) =
  match v_less a b w with Some (r, w') => k r (on (b :: a :: st) w' s) | None => None end.
Proof using Laws.
  pose proof (l_lessthan a b st w) as E. destruct (v_less a b w) as [[r w']|]; [by rewrite (call_step _ _ _ _ _ s _ _ E)|].
  unfold rbind, lessthan. by rewrite (call_None _ _ _ s E).
Qed.
Lemma pushboolean_step {B} b st w s (k : unit -> SM Exec B) :
  rbind (pushboolean b) k (on st w s) = k tt (on (v_bool b :: st) w s).
Proof using Laws. apply call_step, l_pushboolean. Qed.

Lemma comparison_spec op a b st w s :
  leaves_result (ev_compare op a b w) 2 st w s (comparison op (on (b :: a :: st) w s)).
Proof using Laws.
  unfold comparison, compareSimpleOrUser, ev_compare. rewrite rbind_assoc. tops. destruct (comparable (type_of a)); simpl.
  2: { rewrite rbind_rret. by rewrite (call_step _ _ _ _ _ s _ _ (pop_2 b a st w)). }
  destruct op; rewrite ?rbind_assoc; simpl;
    try (rewrite rbind_rret; by rewrite (call_step _ _ _ _ _ s _ _ (pop_2 b a st w)));
    rewrite ?equal_step, ?lessthan_step.
  all: try (match goal with |- context[v_less ?a ?b ?w] => destruct (v_less a b w) as [[[] w1]|] end; simpl; rewrite ?rbind_assoc, ?equal_step; [..|done]).
  all: try (match goal with |- context[v_equal ?a ?b ?w] => destruct (v_equal a b w) as [[[] w2]|] end; simpl; [..|done]).
  all: refine (ex_intro _ [_; _] (conj eq_refl _)).
  all: repeat first [rewrite rbind_assoc | rewrite rbind_rret | rewrite pushboolean_step]; done.
Qed.

Lemma concat_spec a b st w s :
  leaves_result (ev_binop E_Concat a b w) 2 st w s (binop E_Concat (on (b :: a :: st) w s)).
Proof using Laws.
  simpl. exists [str_conv b; str_conv a]. split; [done|].
  rewrite (call_step (lua_tostring (-2)) _ _ _ _ s _ _ (l_tostring (b :: a :: st) w 1 a eq_refl)).
  rewrite (call_step (lua_tostring (-1)) _ _ _ _ s _ _ (l_tostring (b :: str_conv a :: st) w 0 b eq_refl)).
  unfold done_. by rewrite (call_step _ _ _ _ _ s _ _ (l_pushstring _ (str_conv b :: str_conv a :: st) w)).
Qed.

Lemma binop_spec op a b st w s :
  leaves_result (ev_binop op a b w) 2 st w s (binop op (on (b :: a :: st) w s)).
Proof using Laws.
  destruct op; try exact (concat_spec a b st w s); try exact (comparison_spec _ a b st w s);
    try (exists [b; a]; split; [done|]; apply arith_spec).
  1, 4, 5: simpl; by rewrite (call_step _ _ _ _ _ s _ _ (pop_2 b a st w)).
  all: exists [b; a]; split; [done|]; cbn [binop]; tops; apply pushboolean_done.
Qed.

Lemma unop_spec op a st w s : leaves_result (ev_unop op a w) 0 st w s (unop op (on (a :: st) w s)).
Proof using Laws.
  assert (Hr : forall v, done_ (call (lua_replace (-2))) (on (v :: a :: st) w s) = Some (Some tt, on (v :: st) w s)).
  { intros v. unfold done_. by rewrite (call_step _ _ _ _ _ s _ _ (replace_2 v a st w)). }
  assert (Hbad : forall msg, (_ <~ call (lua_pop 1); throw msg) (on (a :: st) w s) = Some (None (A := unit), thrown msg (on st w s))).
  { intros msg. by rewrite (call_step _ _ _ _ _ s _ _ (pop_1 a st w)). }
  destruct op; try exact (Hbad _).
  - exists []. split; [done|]. cbn [unop]. tops. rewrite (call_step _ _ _ _ _ s _ _ (l_pushnumber _ (a :: st) w)). apply Hr.
  - exists []. split; [done|]. cbn [unop]. tops. rewrite (call_step _ _ _ _ _ s _ _ (l_pushboolean _ (a :: st) w)). apply Hr.
  - cbn [unop ev_unop]. tops. destruct (type_of a); try exact (Hbad _); tops; exists []; (split; [done|]);
      rewrite (call_step _ _ _ _ _ s _ _ (l_pushnumber _ (a :: st) w)); apply Hr.
Qed.

Lemma index_spec t k st w s : leaves_result (ev_index t k w) 1 st w s (index (on (k :: t :: st) w s)).
Proof using Laws.
  unfold index, ev_index. tops.
  assert (Hbad : forall msg, (_ <~ call (lua_pop 2); throw msg) (on (k :: t :: st) w s) = Some (None (A := unit), thrown msg (on st w s))).
  { intros msg. by rewrite (call_step _ _ _ _ _ s _ _ (pop_2 k t st w)). }
  assert (Hu : forall m, m = lua_gettable (-2) ->
    match match v_index t k w with Some (v, w') => good v w' | None => None end with
    | Some (inl (v, w')) => exists vs, length vs = 1%nat /\ done_ (call m) (on (k :: t :: st) w s) = Some (Some tt, on (v :: vs ++ st) w' s)
    | Some (inr msg) => done_ (call m) (on (k :: t :: st) w s) = Some (None, thrown msg (on st w s))
    | None => done_ (call m) (on (k :: t :: st) w s) = None
    end).
  { intros m ->. pose proof (l_gettable k t st w) as E. destruct (v_index t k w) as [[v w']|]; simpl.
    - exists [t]. split; [done|]. unfold done_. by rewrite (call_step _ _ _ _ _ s _ _ E).
    - unfold done_, rbind. by rewrite (call_None _ _ _ s E). }
  destruct (type_of t) eqn:Et; simpl; tops; rewrite ?Et; try exact (Hbad _); try exact (Hu _ eq_refl).
  change (idx 1) with (-2). rewrite bool_decide_eq_true_2 by done. exists [t]. split; [done|]. unfold done_.
  by rewrite (call_step _ _ _ _ _ s _ _ (l_rawget k t st w Et)).
Qed.

(** ** The refinement *)

(** The result of the walk over a node: 0 for parentheses. *)
Definition result_of (n : Ast) : Z := match n with ANode N_BraceOp _ _ _ => 0 | _ => 1 end.

Lemma xbind_on {A B} (m : SM Exec (option A)) (k : A -> SM Exec (option B)) t t' x :
  m t = Some (Some x, t') -> xbind m k t = k x t'.
Proof. unfold xbind, rbind. by intros ->. Qed.
Lemma xbind_thrown {A B} (m : SM Exec (option A)) (k : A -> SM Exec (option B)) t t' :
  m t = Some (None, t') -> xbind m k t = Some (None, t').
Proof. unfold xbind, rbind. by intros ->. Qed.
Lemma xbind_stuck {A B} (m : SM Exec (option A)) (k : A -> SM Exec (option B)) t : m t = None -> xbind m k t = None.
Proof. unfold xbind, rbind. by intros ->. Qed.

Lemma xbind_xret {A B} (x : A) (k : A -> SM Exec (option B)) t : xbind (xret x) k t = k x t.
Proof. done. Qed.

(** A computation after one that has left a value. *)
Lemma agrees_bind {A B} o k (a : A) (b : B) u st s m K t :
  agrees o a (u ++ st) s (m t) ->
  (forall v w', o = Some (inl (v, w')) -> agrees (k v w') b st s (K (on (v :: u ++ st) w' s))) ->
  agrees (after o k) b st s (xbind m (fun _ => K) t).
Proof.
  intros Hm HK. destruct o as [[[v w']|msg]|]; simpl in *.
  - rewrite (xbind_on _ _ _ _ _ Hm). by apply HK.
  - destruct Hm as (pend & w' & Hm). exists (pend ++ u), w'. rewrite <- app_assoc. exact (xbind_thrown _ _ _ _ Hm).
  - exact (xbind_stuck _ _ _ Hm).
Qed.

(** The end of an operation: its operands are removed. *)
Lemma leaves_bind {B} o n (b : B) st w s (m : SM Exec (option unit)) K t :
  leaves_result o n st w s (m t) ->
  (forall v vs w', length vs = n -> K (on (v :: vs ++ st) w' s) = Some (Some b, on (v :: st) w' s)) ->
  agrees o b st s (xbind m (fun _ => K) t).
Proof.
  intros Hm HK. destruct o as [[[v w']|msg]|]; simpl in *.
  - destruct Hm as (vs & Hl & Hm). rewrite (xbind_on _ _ _ _ _ Hm). by apply HK.
  - exists [], w. exact (xbind_thrown _ _ _ _ Hm).
  - exact (xbind_stuck _ _ _ Hm).
Qed.

(** A name evaluates to a string. *)
Lemma ev_name waits level n w v w' : ev waits level n w = Some (inl (v, w')) ->
  forall q l r, n = ANode N_Name q l r -> exists t, v = v_str t.
Proof. intros E q l r ->. simpl in E. injection E as <- <-. by eexists. Qed.

Lemma not_null n : shaped n = true -> n <> ANull.
Proof. by intros ? ->. Qed.

Abbreviation ev_of s := (ev (d_waitForCommand (x_host s)) (d_activeLevel (x_host s))).

(** The name on this place of the stack, and then a computation. *)
Lemma evalName_step {B} n st w s k v (K : SM Exec B) wn w0 :
  shaped n = true -> ev_of s n wn = Some (inl (v, w0)) -> st !! k = Some v ->
  rbind (evalName fuel n (idx k)) (fun _ => K) (on st w s) = K (on (<[k := operand_of s n v w]> st) w s).
Proof using Laws Hfuel.
  intros Hs He Hk. by rewrite (rbind_Some _ _ _ _ _ (evalName_spec n v st w s k (not_null n Hs) (ev_name _ _ _ _ _ _ He) Hk)).
Qed.

Lemma depthFirstExec_spec n : shaped n = true ->
  forall st w s, agrees (ev_of s n w) (result_of n) st s (depthFirstExec fuel n (on st w s)).
Proof using Laws Hfuel.
  induction n as [|ty q l IHl r IHr]; intros Hs st w s; [done|].
  assert (Hleft : (match l with ANull => xret 0 | _ => depthFirstExec fuel l end) = depthFirstExec fuel l) by by destruct l.
  assert (Hright : (match r with ANull => xret 0 | _ => depthFirstExec fuel r end) = depthFirstExec fuel r) by by destruct r.
  cbn [depthFirstExec]. rewrite Hleft, Hright. clear Hleft Hright.
  assert (Hacc : forall Hsl : shaped l = true, shaped r = true ->
    (forall st w s, agrees (ev_of s l w) (result_of l) st s (depthFirstExec fuel l (on st w s))) ->
    (forall st w s, agrees (ev_of s r w) (result_of r) st s (depthFirstExec fuel r (on st w s))) ->
    agrees (after (ev_of s l w) (fun a w => after (ev_of s r w) (fun k w => ev_index (operand_of s l a w) k w))) 1 st s
      ((_ <! depthFirstExec fuel l; _ <! depthFirstExec fuel r; _ <~ evalName fuel l (-2); _ <! index;
        _ <~ call (lua_remove (-2)); xret 1) (on st w s))).
  { clear IHl IHr. intros Hsl Hsr Hl Hr. apply (agrees_bind _ _ (result_of l) _ []); [apply Hl|]. intros a w1 Ea. simpl.
    apply (agrees_bind _ _ (result_of r) _ [a]); [apply Hr|]. intros b w2 Eb. simpl.
    rewrite (evalName_step l _ _ _ 1 a _ _ _ Hsl Ea) by done. simpl.
    eapply leaves_bind; [apply index_spec|]. intros v [|x []] w' Hlen; try discriminate Hlen. simpl.
    by rewrite (call_step _ _ _ _ _ s _ _ (l_remove 1 (v :: x :: st) w' ltac:(simpl; lia))). }
  destruct ty; cbn [shaped] in Hs; [done| | | | | | |];
    apply andb_true_iff in Hs as [Hsl Hsr]; try (destruct l; [|done]); try (destruct r; [|done]).
  - (* a constant *)
    cbn [ev]. assert (Hc : forall v, call v (on st w s) = Some (tt, on (ev_constant q :: st) w s) ->
      (_ <! xret 0; _ <! xret 0; _ <~ call v; xret 1) (on st w s) = Some (Some 1, on (ev_constant q :: st) w s)).
    { intros v Hv. rewrite !xbind_xret. by rewrite (rbind_Some _ _ _ _ _ Hv). }
    simpl. destruct q; apply Hc, call_on; first [apply l_pushnil | apply l_pushboolean | apply l_pushnumber | apply l_pushstring].
  - (* a binary operation *)
    cbn [ev]. apply (agrees_bind _ _ (result_of l) _ []); [by apply IHl|]. intros a w1 Ea. simpl.
    apply (agrees_bind _ _ (result_of r) _ [a]); [by apply IHr|]. intros b w2 Eb. simpl.
    rewrite (evalName_step l _ _ _ 1 a _ _ _ Hsl Ea) by done. simpl.
    rewrite (evalName_step r _ _ _ 0 b _ _ _ Hsr Eb) by done. simpl.
    eapply leaves_bind; [apply binop_spec|]. intros v [|x [|y []]] w' Hl; try discriminate Hl. simpl.
    rewrite (call_step _ _ _ _ _ s _ _ (replace_3 v x y st w')). by rewrite (call_step _ _ _ _ _ s _ _ (pop_1 x (v :: st) w')).
  - (* a unary operation *)
    cbn [ev]. apply (agrees_bind _ _ (result_of l) _ []); [by apply IHl|]. intros a w1 Ea. simpl.
    rewrite xbind_xret.
    rewrite (evalName_step l _ _ _ 0 a _ _ _ Hsl Ea) by done. simpl.
    eapply leaves_bind; [apply unop_spec|]. intros v [|] w' Hl; [done|discriminate Hl].
  - apply Hacc; [done|done|by apply IHl|by apply IHr].
  - (* parentheses *)
    cbn [ev]. pose proof (IHl Hsl st w s) as Hc. destruct (ev_of s l w) as [[[v w']|msg]|]; simpl in *.
    + by rewrite (xbind_on _ _ _ _ _ Hc).
    + destruct Hc as (pend & w' & Hc). exists pend, w'. exact (xbind_thrown _ _ _ _ Hc).
    + exact (xbind_stuck _ _ _ Hc).
  - apply Hacc; [done|done|by apply IHl|by apply IHr].
  - (* a name *)
    cbn [ev]. simpl. rewrite !xbind_xret. by rewrite (call_step _ _ _ _ _ s _ _ (l_pushstring _ st w)).
Qed.
End Spec.
