(* ===== verification/ExprRun.v ===== *)
(** * From the text of an expression to its printed value

    What the terminal does with a line: the text is parsed, the tree is evaluated on the
    stack of Lua, the value is printed and removed. *)

From S2P Require Import Prelude Double Bytecode LuaHost ExprLexer ExprParser ExprSpec ExprLexSpec ExprEval ExprEvalSpec.
From Stdlib Require Import Strings.Byte.
Local Open Scope Z_scope.
Local Open Scope rd_scope.

Lemma tree_shaped e : shaped (tree e) = true.
Proof. induction e; simpl; rewrite ?andb_true_iff; auto. Qed.

Section Run.
Context `{X : ExprLib} `{L : LuaApi} `{HL : HostLib} `{M : !LuaModel}.

(** The value of the whole expression: a name alone is a variable. *)
Definition value_of (waits : bool) (level : Z) (n : Ast) (w : lworld) : outcome :=
  match n with
  | ANode N_Name v _ _ => good (variable waits level (name_bytes v) w) w
  | _ => ev waits level n w
  end.

(** The text that is printed for a value of a simple type. *)
Definition shown (v : lvalue) (txt : bytes) : Prop :=
  match type_of v with
  | LUA_TNIL => txt = qb "nil"
  | LUA_TBOOLEAN => txt = (if bool_of v then qb "true" else qb "false")
  | LUA_TNUMBER => txt = c_string (number_double (num_of v))
  | LUA_TSTRING => txt = c_string ([x22] ++ text_of (str_of v) ++ [x22])
  | _ => True
  end.

Definition is_paren (n : Ast) : bool := match n with ANode N_BraceOp _ _ _ => true | _ => false end.

(** An error without a text. *)
Definition reported (msg : bytes) : bytes := match msg with [] => qb "unknown execution error" | _ => msg end.

(** What has been shown, and the stack that is left. *)
Definition reports (ty : MessageType) (txt : bytes) (st : list lvalue) (w : lworld) (s s' : Exec) : Prop :=
  d_ctx (x_host s') = state_of st w /\ notified (x_host s') = notified (x_host s) ++ [(ty, c_string txt, 0)].

(** The value is printed and the stack is as before, or there is an error, which leaves what
    is pending on the stack.  An expression in parentheses is not recognised as evaluated: its
    value stays on the stack. *)
Definition terminal_line (n : Ast) (o : outcome) (st : list lvalue) (s : Exec) (r : option (bool * Exec)) : Prop :=
  match o with
  | None => r = None
  | Some (inr msg) => exists s' pend w', r = Some (false, s') /\ reports M_Error (reported msg) (pend ++ st) w' s s'
  | Some (inl (v, w)) =>
      if is_paren n then exists s', r = Some (false, s') /\ reports M_Error (reported []) (v :: st) w s s'
      else exists s' txt, r = Some (true, s') /\ reports M_Print txt st w s s' /\ shown v (c_string txt)
  end.

Context `{Laws : !LuaLaws} (fuel : nat) (Hfuel : (250 < fuel)%nat).

Lemma pushed_value name st w s :
  host (pushLocalOrGlobal fuel name) (on st w s) =
  Some (1, on (variable (d_waitForCommand (x_host s)) (d_activeLevel (x_host s)) name w :: st) w s).
Proof using Laws Hfuel. by apply pushed. Qed.

Definition cleared (s : Exec) : Exec := thrown [] s.

Lemma execute_spec n st w s : d_top (x_parser s) = TopTree n -> shaped n = true ->
  match value_of (d_waitForCommand (x_host s)) (d_activeLevel (x_host s)) n w with
  | None => execute fuel (on st w s) = None
  | Some (inr msg) => exists pend w', execute fuel (on st w s) = Some (0, thrown msg (on (pend ++ st) w' s))
  | Some (inl (v, w')) => execute fuel (on st w s) = Some (if is_paren n then 0 else 1, on (v :: st) w' (cleared s))
  end.
Proof using Laws Hfuel.
  intros Ht Hs. assert (He : execute fuel (on st w s) =
    match d_top (x_parser s) with
    | TopNull => rret 0
    | TopFreed => rfail
    | TopTree (ANode N_Invalid _ _ _) => _ <~ call lua_pushnil; rret 1
    | TopTree (ANode N_Name v _ _) => _ <~ host (pushLocalOrGlobal fuel (name_bytes v)); rret 1
    | TopTree n => r <~ depthFirstExec fuel n; rret (default 0 r)
    end (on st w (cleared s))) by reflexivity.
  rewrite Ht in He. rewrite He. clear He.
  pose proof (depthFirstExec_spec fuel Hfuel n Hs st w (cleared s)) as H.
  assert (Hd : forall r, agrees (ev (d_waitForCommand (x_host s)) (d_activeLevel (x_host s)) n w) r st (cleared s)
                (depthFirstExec fuel n (on st w (cleared s))) ->
    match ev (d_waitForCommand (x_host s)) (d_activeLevel (x_host s)) n w with
    | None => (r <~ depthFirstExec fuel n; rret (default 0 r)) (on st w (cleared s)) = None
    | Some (inr msg) => exists pend w', (r <~ depthFirstExec fuel n; rret (default 0 r)) (on st w (cleared s)) = Some (0, thrown msg (on (pend ++ st) w' s))
    | Some (inl (v, w')) => (r <~ depthFirstExec fuel n; rret (default 0 r)) (on st w (cleared s)) = Some (r, on (v :: st) w' (cleared s))
    end).
  { intros r Hr. destruct (ev _ _ n w) as [[[v w']|msg]|]; simpl in Hr.
    - by rewrite (rbind_Some _ _ _ _ _ Hr).
    - destruct Hr as (pend & w' & Hr). exists pend, w'. by rewrite (rbind_Some _ _ _ _ _ Hr).
    - unfold rbind. by rewrite Hr. }
  destruct n as [|[] q l r]; try discriminate Hs; try exact (Hd _ H).
  rewrite (rbind_Some _ _ _ _ _ (pushed_value (name_bytes q) st w (cleared s))). done.
Qed.

Lemma c_string_idem t : c_string (c_string t) = c_string t.
Proof. induction t as [|c t IH]; simpl; [done|]. destruct (Byte.eqb c x00) eqn:E; simpl; rewrite ?E, ?IH; done. Qed.

(** The text of the value on the top, which may be converted to a string. *)
Lemma value_string v st w s :
  exists txt v', host (getValueString (-1) true) (on (v :: st) w s) = Some (txt, on (v' :: st) w s) /\ shown v (c_string txt).
Proof using Laws.
  unfold host, on at 1. cbn [x_host]. unfold getValueString, look, rget, rbind. cbn [d_ctx set_ctx].
  change (-1) with (idx 0). rewrite (l_type (v :: st) w 0 v eq_refl). unfold shown.
  destruct (type_of v); cbn [d_ctx set_ctx]; try (eexists _, v; by split).
  - eexists _, v. split; [by rewrite (l_toboolean (v :: st) w 0 v eq_refl)|]. by destruct (bool_of v).
  - eexists _, v. split; [by rewrite (l_tonumber (v :: st) w 0 v eq_refl)|done].
  - unfold lua, rbind. cbn [d_ctx set_ctx]. rewrite (l_tostring (v :: st) w 0 v eq_refl). by eexists _, (str_conv v).
Qed.

Lemma type_name v st w s :
  exists txt, host (getTypeName (-1)) (on (v :: st) w s) = Some (txt, on (v :: st) w s).
Proof using.
  unfold host, on at 1. cbn [x_host]. unfold getTypeName, look, rget, rbind. cbn [d_ctx set_ctx].
  by destruct (lua_type _ _); eexists.
Qed.

(** A message does not touch the stack. *)
Lemma notify_on ty txt st w s : exists s', host (notify ty (c_string txt) 0) (on st w s) = Some (tt, on st w s') /\
  notified (x_host s') = notified (x_host s) ++ [(ty, c_string txt, 0)].
Proof using.
  exists (mkExec (x_parser s) (match notify ty (c_string txt) 0 (x_host s) with Some (_, e) => e | None => x_host s end)).
  split; reflexivity.
Qed.

(** The value on the top is printed. *)
Lemma print_top v st w s :
  exists s' txt v',
    print_value (on (v :: st) w s) = Some (tt, on (v' :: st) w s') /\
    notified (x_host s') = notified (x_host s) ++ [(M_Print, c_string txt, 0)] /\ shown v (c_string txt).
Proof using Laws.
  destruct (value_string v st w s) as (txt & v' & Hv & Hs). destruct (type_name v st w s) as [n Hn].
  unfold print_value. rewrite see_step. change (-1) with (idx 0) at 1. rewrite (l_type (v :: st) w 0 v eq_refl).
  assert (H1 : exists s', (u <~ host (getValueString (-1) true); host (print u)) (on (v :: st) w s) = Some (tt, on (v' :: st) w s') /\
                 notified (x_host s') = notified (x_host s) ++ [(M_Print, c_string txt, 0)]).
  { rewrite (rbind_Some _ _ _ _ _ Hv). apply notify_on. }
  assert (H2 : exists s', (n <~ host (getTypeName (-1)); u <~ host (getValueString (-1) true); host (print (n ++ qb ": " ++ u)))
                   (on (v :: st) w s) = Some (tt, on (v' :: st) w s') /\
                 notified (x_host s') = notified (x_host s) ++ [(M_Print, c_string (n ++ qb ": " ++ txt), 0)]).
  { rewrite (rbind_Some _ _ _ _ _ Hn), (rbind_Some _ _ _ _ _ Hv). apply notify_on. }
  destruct H1 as (s1 & H1 & N1), H2 as (s2 & H2 & N2). unfold shown in *.
  destruct (type_of v); first [by exists s1, txt, v' | by exists s2, (n ++ qb ": " ++ txt), v'].
Qed.

(** The error text is reported. *)
Lemma report_error msg st w s :
  exists s', report_failure (thrown msg (on st w s)) = Some (false, s') /\ reports M_Error (reported msg) st w s s'.
Proof using. destruct msg as [|c msg]; eexists; (split; [reflexivity|split; reflexivity]). Qed.

Lemma executeAndPrint_spec n st w s : d_top (x_parser s) = TopTree n -> shaped n = true ->
  terminal_line n (value_of (d_waitForCommand (x_host s)) (d_activeLevel (x_host s)) n w) st s
    (executeAndPrint fuel (on st w s)).
Proof using Laws Hfuel.
  intros Ht Hs. pose proof (execute_spec n st w s Ht Hs) as H. unfold terminal_line.
  destruct (value_of _ _ n w) as [[[v w']|msg]|].
  - unfold executeAndPrint. rewrite (rbind_Some _ _ _ _ _ H). destruct (is_paren n).
    + exact (report_error [] (v :: st) w' s).
    + destruct (print_top v st w' (cleared s)) as (s' & txt & v' & Hp & N & Hsh).
      exists (on st w' s'), txt. split; [|by split].
      rewrite (proj2 (Z.ltb_lt 0 1)) by done.
      assert (Hpop : (_ <~ host (pop 1); rret true) (on (v' :: st) w' s') = Some (true, on st w' s')).
      { by rewrite (rbind_Some _ _ _ _ _ (call_on _ _ _ _ _ s' _ (pop_1 v' st w'))). }
      by rewrite (rbind_Some _ _ _ _ _ Hp).
  - destruct H as (pend & w' & H). destruct (report_error msg (pend ++ st) w' s) as (s' & Hr & Hrep).
    exists s', pend, w'. split; [|done]. unfold executeAndPrint. by rewrite (rbind_Some _ _ _ _ _ H).
  - unfold executeAndPrint, rbind. by rewrite H.
Qed.

(** [C9] A line of the terminal that is the text of an expression: [parse] accepts it, and
    [executeAndPrint] works on the stack of Lua as the abstract evaluator says.  When the
    expression has a value, it is printed and the stack is as before; when the evaluator
    fails, its message is reported and operands may be left on the stack; when Lua raises an
    error, so does the line.  The value of an expression in parentheses is not printed: an
    error is reported and the value stays on the stack. *)
Theorem expression_evaluated e txt p h st w pfuel :
  fits 0 e = true -> words txt (toks e) -> (length (toks e) < pfuel)%nat -> d_top p <> TopFreed ->
  d_ctx h = state_of st w ->
  exists p', parse pfuel txt p = Some (true, p') /\
    terminal_line (tree e) (value_of (d_waitForCommand h) (d_activeLevel h) (tree e) w) st (mkExec p' h)
      (executeAndPrint fuel (mkExec p' h)).
Proof using Laws Hfuel.
  intros Hf Hw Hl Ht Hc. destruct (parse_expression e txt p pfuel Hf Hw Hl Ht) as (p' & Hp & Htop). exists p'. split; [done|].
  pose proof (executeAndPrint_spec (tree e) st w (mkExec p' h) Htop (tree_shaped e)) as H. unfold on in H. simpl in H.
  by rewrite <- Hc in H; destruct h.
Qed.
End Run.
