(* ===== verification/ExprExample.v ===== *)
(** * The theorems on expressions at concrete texts

    An instance of Lua with numbers, strings and tables, in which expressions are evaluated,
    and texts that the lexer and the parser do not treat as they are meant. *)

From S2P Require Import Prelude Double Bytecode LuaHost ExprLexer ExprParser ExprSpec ExprLexSpec ExprTotal ExprEnds ExprTop ExprEval ExprEvalSpec ExprRun.
From Stdlib Require Import Strings.Byte.
Local Open Scope Z_scope.
Local Open Scope rd_scope.

(** ** Numbers *)

Definition decimal (s : bytes) : option Z :=
  if is_digits s then Some (foldl (fun z c => 10 * z + (ubyte c - 48)) 0 s) else None.

(** [a.b] as [ab / 10 ^ n]. *)
Definition X_example : ExprLib := {|
  text_toUInt base s := decimal s;
  text_toDouble s :=
    match list_find (fun c => c = "."%byte) s with
    | Some (i, _) =>
        let b := drop (S i) s in
        option_map (fun z => dbl_div (dbl_of_Z z) (dbl_of_Z (10 ^ Z.of_nat (length b)))) (decimal (take i s ++ b))
    | None => option_map dbl_of_Z (decimal s)
    end
|}.

(** ** A small Lua *)

Inductive lval : Type :=
  | LNil | LBool (b : bool) | LNum (d : dbl) | LStr (s : bytes) | LTable (l : list (bytes * lval)).

Record small_world := mkWorld { globals : list (bytes * lval); frames : list (list (bytes * lval)) }.

Definition lval_type (v : lval) : LuaType :=
  match v with LNil => LUA_TNIL | LBool _ => LUA_TBOOLEAN | LNum _ => LUA_TNUMBER | LStr _ => LUA_TSTRING | LTable _ => LUA_TTABLE end.
Definition lval_bool (v : lval) : bool := match v with LNil | LBool false => false | _ => true end.
Definition lval_num (v : lval) : dbl := match v with LNum d => d | _ => 0 end.
Definition lval_len (v : lval) : Z := match v with LStr s => Z.of_nat (length s) | _ => 0 end.
Definition lval_str (v : lval) : option bytes :=
  match v with LStr s => Some (c_string s) | LNum _ => Some (qb "number") | _ => None end.
Definition lval_conv (v : lval) : lval := match v with LNum _ => LStr (qb "number") | _ => v end.
Definition lval_eqb (a b : lval) : bool :=
  match a, b with
  | LNil, LNil => true | LBool x, LBool y => Bool.eqb x y | LNum x, LNum y => dbl_eqb x y
  | LStr x, LStr y => bool_decide (x = y) | _, _ => false
  end.
Definition lval_field (l : list (bytes * lval)) (k : lval) : lval :=
  match k with
  | LStr s => match list_find (fun p => p.1 = s) l with Some (_, (_, v)) => v | None => LNil end
  | _ => LNil
  end.
Definition lval_less (a b : lval) : option bool := match a, b with LNum x, LNum y => Some (dbl_ltb x y) | _, _ => None end.
Definition lval_rawget (t k : lval) : lval := match t with LTable l => lval_field l k | _ => LNil end.

Abbreviation small_state := (list lval * small_world)%type.

Definition nth_value (i : Z) (s : small_state) : lval := nth (Z.to_nat (- i - 1)) s.1 LNil.
Definition on_stack {A} (f : list lval -> A * list lval) : SM small_state A := fun s => let '(x, st) := f s.1 in Some (x, (st, s.2)).
Definition push_value (v : lval) : SM small_state unit := on_stack (fun st => (tt, v :: st)).

Definition small_locals (ar : Z) (w : small_world) : list (bytes * lval) := take 250 (nth (Z.to_nat ar) (frames w) []).

Definition small_rawget (i : Z) : SM small_state unit :=
  fun s => match s.1 with
    | k :: st =>
        let t := if (i =? LUA_ENVIRONINDEX) || (i =? LUA_GLOBALSINDEX) then LTable (globals s.2) else nth_value i s in
        Some (tt, (lval_rawget t k :: st, s.2))
    | [] => None
    end.

Definition Lua_example : LuaApi := {|
  lua_State := small_state;
  lua_Debug := Z;
  lua_type i s := lval_type (nth_value i s);
  lua_typename t := if bool_decide (t = LUA_TTABLE) then qb "table" else qb "value";
  lua_iscfunction _ _ := false;
  lua_isuserdata _ _ := false;
  lua_toboolean i s := lval_bool (nth_value i s);
  lua_tonumber i s := lval_num (nth_value i s);
  lua_topointer _ _ := 4096;
  lua_touserdata _ _ := 0;
  lua_objlen i s := lval_len (nth_value i s);
  lua_tostring i s :=
    let v := nth_value i s in Some (lval_str v, (<[Z.to_nat (- i - 1) := lval_conv v]> s.1, s.2));
  lua_pushnil := push_value LNil;
  lua_pushboolean b := push_value (LBool b);
  lua_pushnumber d := push_value (LNum d);
  lua_pushstring s := push_value (LStr s);
  lua_pop n := on_stack (fun st => (tt, drop (Z.to_nat n) st));
  lua_replace i := on_stack (fun st => (tt, match st with v :: st => <[Z.to_nat (- i - 2) := v]> st | [] => [] end));
  lua_remove i := on_stack (fun st => (tt, delete (Z.to_nat (- i - 1)) st));
  lua_equal i j s := Some (lval_eqb (nth_value i s) (nth_value j s), s);
  lua_lessthan i j s := match lval_less (nth_value i s) (nth_value j s) with Some b => Some (b, s) | None => None end;
  lua_gettable _ _ := None;
  lua_rawget := small_rawget;
  lua_getstack n s := if (0 <=? n) && (n <? Z.of_nat (length (frames s.2))) then Some n else None;
  lua_getlocal ar n s :=
    match small_locals ar s.2 !! Z.to_nat (n - 1) with
    | Some (t, v) => Some (Some t, (v :: s.1, s.2))
    | None => Some (None, s)
    end
|}.

Definition Model_example : @LuaModel Lua_example := {|
  state_of := pair : list lval -> small_world -> @lua_State Lua_example;
  v_nil := LNil; v_bool := LBool; v_num := LNum; v_str := LStr;
  type_of := lval_type; num_of := lval_num; bool_of := lval_bool; len_of := lval_len;
  str_of := lval_str; str_conv := lval_conv;
  v_equal a b w := Some (lval_eqb a b, w);
  v_less a b w := match lval_less a b with Some r => Some (r, w) | None => None end;
  v_index _ _ _ := None;
  v_rawget t k _ := lval_rawget t k;
  v_env _ k w := lval_field (globals w) k;
  v_frame n w := if (0 <=? n) && (n <? Z.of_nat (length (frames w))) then Some n else None : option (@lua_Debug Lua_example);
  v_locals := small_locals
|}.

Lemma nth_idx st w k v : st !! k = Some v -> nth_value (idx k) (st, w) = v.
Proof.
  intros H. unfold nth_value, idx. simpl. replace (Z.to_nat _) with k by lia. rewrite nth_lookup. by rewrite H.
Qed.

Lemma Laws_example : @LuaLaws Lua_example Model_example.
Proof.
  split; simpl; try done; try (intros; f_equal; by apply nth_idx).
  - intros st w k v H. by destruct v.
  - intros st w k v H. pose proof (nth_idx st w k v H) as E. unfold idx in *. simpl in *. rewrite E. do 4 f_equal. lia.
  - intros n st w _. unfold on_stack. simpl. by rewrite Nat2Z.id.
  - intros k v st w _. unfold on_stack, idx. simpl. do 4 f_equal. lia.
  - intros k st w _. unfold on_stack, idx. simpl. do 4 f_equal. lia.
  - intros a b st w. unfold nth_value. simpl. by destruct (lval_less a b).
  - intros ar n st w. replace (Z.to_nat (Z.of_nat n + 1 - 1)) with n by lia. by destruct (small_locals ar w !! n) as [[]|].
  - intros ar w. unfold small_locals. rewrite length_take. lia.
Qed.

Definition Host_example : HostLib := {|
  number_double d := if d =? dbl_of_Z 7 then qb "7" else qb "?";
  number_hex _ := qb "1000";
  variant_latin1 v := match v with QByteArray s => s | _ => [] end;
  variant_text v := match v with QByteArray s => s | _ => [] end;
  variant_isNull v := match v with QInvalid | QByteArray [] => true | _ => false end;
  c_pow a _ := a
|}.

#[local] Existing Instances X_example Lua_example Model_example Laws_example Host_example.

(** ** A text that is evaluated *)

(** [1 + 2 * t . x], where [t] is a table in a global variable. *)
Definition sum_text : bytes := qb "1 + 2 * t . x".
Definition const_num (z : Z) : exp := XConst T_Number (QDouble (dbl_of_Z z)).
Definition sum_exp : exp :=
  XBin E_Plus (const_num 1) (XBin E_Star (const_num 2) (XDot (XName (QByteArray (qb "t"))) (QByteArray (qb "x")))).

Definition sum_world : small_world := mkWorld [(qb "t", LTable [(qb "x", LNum (dbl_of_Z 3))])] [].
Definition sum_host : Engine2 := mkEngine2 ([], sum_world) false 0 false [] [] [].


(** The words of a text with single blanks in front of them. *)
Lemma words_blank w t v l : lword w t -> ends_word v -> words v l -> words (" "%byte :: w ++ v) (t :: l).
Proof. intros. by apply (words_cons [" "%byte] w t v l). Qed.
Lemma words_first w t v l : lword w t -> ends_word v -> words v l -> words (w ++ v) (t :: l).
Proof. intros. by apply (words_cons [] w t v l). Qed.
Lemma words_end w t : lword w t -> words (" "%byte :: w) [t].
Proof. intros. by apply (words_last [" "%byte] w t). Qed.

Lemma sum_words : words sum_text (toks sum_exp).
Proof.
  apply (words_first (qb "1")); [by apply (lword_int _ 1)|done|].
  apply (words_blank (qb "+")); [by apply lword_op|done|].
  apply (words_blank (qb "2")); [by apply (lword_int _ 2)|done|].
  apply (words_blank (qb "*")); [by apply lword_op|done|].
  apply (words_blank (qb "t")); [by apply lword_name|done|].
  apply (words_blank (qb ".")); [by apply lword_sym|done|].
  apply (words_end (qb "x")). by apply lword_name.
Qed.

Lemma expression_parsed_witness :
  exists p', parse 20 sum_text new_ExpressionParser = Some (true, p') /\ d_top p' = TopTree (tree sum_exp).
Proof. apply (expression_parsed sum_exp); [reflexivity|exact sum_words|apply Nat.ltb_lt; reflexivity|discriminate]. Defined.

(** The line is evaluated; the value is printed and the stack is empty again. *)
Lemma expression_evaluated_witness :
  exists p', parse 20 sum_text new_ExpressionParser = Some (true, p') /\
    terminal_line (tree sum_exp) (value_of false 0 (tree sum_exp) sum_world) [] (mkExec p' sum_host)
      (executeAndPrint 251 (mkExec p' sum_host)).
Proof.
  apply (expression_evaluated 251 ltac:(lia) sum_exp sum_text new_ExpressionParser sum_host [] sum_world 20);
    [reflexivity|exact sum_words|apply Nat.ltb_lt; reflexivity|discriminate|reflexivity].
Defined.

(** What is computed for the line. *)
Remark sum_printed :
  match executeAndPrint 251 (mkExec (mkExpressionParser (TopTree (tree sum_exp)) new_ExpressionLexer []) sum_host) with
  | Some (true, s) => d_ctx (x_host s) = ([], sum_world) /\ notified (x_host s) = [(M_Print, qb "7", 0)]
  | _ => False
  end.
Proof. vm_compute. by split. Qed.



(** The second parse frees the tree of the first one, and fails. *)
Lemma failed_parse_dangles_witness :
  exists p', d_top p' = TopFreed /\ delete_ExpressionParser p' = None /\ forall fuel' s', parse fuel' s' p' = None.
Proof.
  eexists. apply (failed_parse_dangles 5 (qb ")") (tree sum_exp) (mkExpressionParser (TopTree (tree sum_exp)) new_ExpressionLexer []));
    [reflexivity|vm_compute; reflexivity].
Defined.

(** ** Texts that are not treated as they are meant *)

Definition parsed_as (s : bytes) : option (option Ast) :=
  match parse 30 s new_ExpressionParser with
  | Some (true, p) => match d_top p with TopTree t => Some (Some t) | _ => None end
  | Some (false, _) => Some None
  | None => None
  end.

Definition nm (s : bytes) : Ast := leaf_node N_Name (QByteArray s).

(** [and], [or] and [not] are names; what follows an expression is ignored. *)
Remark and_is_a_name : parsed_as (qb "a and b") = Some (Some (nm (qb "a"))).
Proof. vm_compute. reflexivity. Qed.
Remark not_is_a_name : parsed_as (qb "not a") = Some (Some (nm (qb "not"))).
Proof. vm_compute. reflexivity. Qed.

(** A blank at the end is not accepted. *)
Remark blank_at_end : parsed_as (qb "a ") = Some None.
Proof. vm_compute. reflexivity. Qed.

(** One closing bracket at the end counts for all that are open. *)
Remark missing_bracket : parsed_as (qb "((a)") = parsed_as (qb "((a))").
Proof. vm_compute. reflexivity. Qed.

(** The operand behind an operator is looked for without end. *)
Remark missing_operand : parsed_as (qb "1-") = None.
Proof. vm_compute. reflexivity. Qed.

(** The last bracket of a string with equal signs is left, so what follows is ignored. *)
Remark level_bracket : parsed_as (qb "[==[x]==] .. 1") = Some (Some (leaf_node N_Constant (QByteArray (qb "x")))).
Proof. vm_compute. reflexivity. Qed.

(** A name in parentheses is not evaluated: its text is the value. *)
Remark name_in_parentheses :
  value_of false 0 (tree (XBin E_Concat (XParen (XName (QByteArray (qb "t")))) (XConst T_String (QByteArray (qb "x"))))) sum_world =
  Some (inl (LStr (qb "tx"), sum_world)).
Proof. vm_compute. reflexivity. Qed.
