(* ===== verification/DebugHost.v ===== *)
(** * The debugger of the host

    The state of [Engine2.h/.cpp] beside what [LuaHost] has: break points, hooks, stepping,
    the levels of the stack, and the handler of errors.  Lua calls the hooks while it runs a
    function; the shell of the debugger is called back where the program breaks. *)

From S2P Require Import Prelude Double Bytecode Composer LuaHost.
From Stdlib Require Import Strings.Byte.
Local Open Scope Z_scope.
Local Open Scope rd_scope.

(** ** The interface of Lua *)

(** The events a hook is called for, and the functions that are used as hooks. *)
Inductive HookEvent : Type := LUA_HOOKCALL | LUA_HOOKRET | LUA_HOOKLINE | LUA_HOOKCOUNT | LUA_HOOKTAILRET.
Inductive HookFun : Type := H_debugHook | H_aliveSignal.

Definition LUA_MASKCALL : Z := 1.
Definition LUA_MASKRET : Z := 2.
Definition LUA_MASKLINE : Z := 4.
Definition LUA_MASKCOUNT : Z := 8.

(** The members of [lua_Debug] that [lua_getinfo] fills in. *)
Record LuaInfo := mkInfo {
  i_name : option bytes;
  i_namewhat : bytes;
  i_what : bytes;
  i_source : bytes;
  i_currentline : Z;
  i_linedefined : Z;
  i_lastlinedefined : Z
}.

(** What the hooks and the inspection of the stack use.  [lua_getinfo] gives no information
    where it fails; with an ["L"] in the query it pushes a table. *)
Class LuaDbgApi `{LuaApi} := {
  lua_event : lua_Debug -> HookEvent;
  lua_getinfo : bytes -> lua_Debug -> SM lua_State (option LuaInfo);
  lua_gettop : lua_State -> Z;
  lua_next : Z -> SM lua_State bool;
  lua_tointeger : Z -> lua_State -> Z;
  lua_sethook : option HookFun -> Z -> Z -> SM lua_State unit;
  luaJIT_setmode : bool -> SM lua_State unit
}.

(** ** Commands, modes and levels *)

(** [src/Engine2.h:70-70] DebugCommand *)
Inductive DebugCommand : Type := StepNext | StepOver | StepOut | RunToBreakPoint | Abort | AbortSilently.
#[export] Instance DebugCommand_eq_dec : EqDecision DebugCommand.
Proof. solve_decision. Defined.

(** [src/Engine2.h:75-75] Mode *)
Inductive Mode : Type := LineMode | PcMode | RowColMode.
#[export] Instance Mode_eq_dec : EqDecision Mode.
Proof. solve_decision. Defined.

(** [src/Engine2.h:102-115] StackLevel *)
Record StackLevel := mkLevel {
  l_level : Z;
  l_inC : bool;
  l_valid : bool;
  l_name : bytes;
  l_lineDefined : Z;
  l_lastLine : Z;
  l_what : bytes;
  l_source : bytes;
  l_line : Z;
  l_lines : gset Z
}.

(** [src/Engine2.h:114-114] StackLevel *)
Definition no_level : StackLevel := mkLevel 0 false true [] 0 0 [] [] 0 ∅.
Definition invalid_level : StackLevel := mkLevel 0 false false [] 0 0 [] [] 0 ∅.

Definition is_abort (c : DebugCommand) : bool := match c with Abort | AbortSilently => true | _ => false end.
(** [src/Engine2.h:90-90] isStepping *)
Definition is_step (c : DebugCommand) : bool := match c with StepNext | StepOver | StepOut => true | _ => false end.

(** ** Lines of functions and instructions in one number *)

(** [src/Engine2.h:69-69] PC_BIT_LEN *)
Definition PC_BIT_LEN : Z := 14.
(** [src/Engine2.h:69-69] DEFLINE_BIT_LEN *)
Definition DEFLINE_BIT_LEN : Z := 18.

(** [src/Engine2.cpp:1097-1103] packDeflinePc *)
Definition packDeflinePc (defline pc : Z) : option Z :=
  let maxDefline := Z.shiftl 1 DEFLINE_BIT_LEN - 1 in
  let maxPc := Z.shiftl 1 PC_BIT_LEN - 1 in
  if (defline <=? maxDefline) && (pc <=? maxPc)
  then Some (Z.lor (u32 (Z.shiftl defline PC_BIT_LEN)) pc) else None.

(** [src/Engine2.cpp:1105-1110] unpackDeflinePc *)
Definition unpackDeflinePc (packed : Z) : Z * Z :=
  (Z.shiftr packed PC_BIT_LEN, u16 (Z.land packed (Z.shiftl 1 PC_BIT_LEN - 1))).

Definition s_aliveCount : Z := 10000.

(** ** State *)

Section Debugger.
Context `{L : LuaApi} `{HL : HostLib} `{D : !LuaDbgApi}.
(** The format of rows and columns, which is static in the composer. *)
Variable cmp : JitComposer.

(** [h_base] has the members that [LuaHost] models; [d_dbgShell] is whether there is a shell.
    [src/Engine2.h:226-248] Engine2 *)
Record DebugHost := mkDebugHost {
  h_base : Engine2;
  d_breaks : gmap bytes (gset Z);
  d_stepBreak : bytes * Z;
  d_stepCallDepth : Z;
  d_curScript : bytes;
  d_curRowCol : Z;
  d_stepCurRowCol : Z;
  d_lastError : bytes;
  d_dbgCmd : DebugCommand;
  d_defaultDbgCmd : DebugCommand;
  d_dbgShell : bool;
  d_returns : list bytes;
  d_aliveCount : Z;
  d_breakHit : bool;
  d_debugging : bool;
  d_aliveSignal : bool;
  d_running : bool;
  d_mode : Mode;
  d_stepOverSync : bool
}.

Definition set_base (b : Engine2) (h : DebugHost) : DebugHost :=
  mkDebugHost b (d_breaks h) (d_stepBreak h) (d_stepCallDepth h) (d_curScript h) (d_curRowCol h)
    (d_stepCurRowCol h) (d_lastError h) (d_dbgCmd h) (d_defaultDbgCmd h) (d_dbgShell h) (d_returns h)
    (d_aliveCount h) (d_breakHit h) (d_debugging h) (d_aliveSignal h) (d_running h) (d_mode h)
    (d_stepOverSync h).
Definition set_breaks (b : gmap bytes (gset Z)) (h : DebugHost) : DebugHost :=
  mkDebugHost (h_base h) b (d_stepBreak h) (d_stepCallDepth h) (d_curScript h) (d_curRowCol h)
    (d_stepCurRowCol h) (d_lastError h) (d_dbgCmd h) (d_defaultDbgCmd h) (d_dbgShell h) (d_returns h)
    (d_aliveCount h) (d_breakHit h) (d_debugging h) (d_aliveSignal h) (d_running h) (d_mode h)
    (d_stepOverSync h).
Definition set_stepBreak (b : bytes * Z) (h : DebugHost) : DebugHost :=
  mkDebugHost (h_base h) (d_breaks h) b (d_stepCallDepth h) (d_curScript h) (d_curRowCol h)
    (d_stepCurRowCol h) (d_lastError h) (d_dbgCmd h) (d_defaultDbgCmd h) (d_dbgShell h) (d_returns h)
    (d_aliveCount h) (d_breakHit h) (d_debugging h) (d_aliveSignal h) (d_running h) (d_mode h)
    (d_stepOverSync h).
Definition set_depth (n : Z) (h : DebugHost) : DebugHost :=
  mkDebugHost (h_base h) (d_breaks h) (d_stepBreak h) n (d_curScript h) (d_curRowCol h) (d_stepCurRowCol h)
    (d_lastError h) (d_dbgCmd h) (d_defaultDbgCmd h) (d_dbgShell h) (d_returns h) (d_aliveCount h)
    (d_breakHit h) (d_debugging h) (d_aliveSignal h) (d_running h) (d_mode h) (d_stepOverSync h).
Definition set_cur (s : bytes) (rc : Z) (h : DebugHost) : DebugHost :=
  mkDebugHost (h_base h) (d_breaks h) (d_stepBreak h) (d_stepCallDepth h) s rc (d_stepCurRowCol h)
    (d_lastError h) (d_dbgCmd h) (d_defaultDbgCmd h) (d_dbgShell h) (d_returns h) (d_aliveCount h)
    (d_breakHit h) (d_debugging h) (d_aliveSignal h) (d_running h) (d_mode h) (d_stepOverSync h).
Definition set_stepCur (rc : Z) (h : DebugHost) : DebugHost :=
  mkDebugHost (h_base h) (d_breaks h) (d_stepBreak h) (d_stepCallDepth h) (d_curScript h) (d_curRowCol h)
    rc (d_lastError h) (d_dbgCmd h) (d_defaultDbgCmd h) (d_dbgShell h) (d_returns h) (d_aliveCount h)
    (d_breakHit h) (d_debugging h) (d_aliveSignal h) (d_running h) (d_mode h) (d_stepOverSync h).
Definition set_lastError (s : bytes) (h : DebugHost) : DebugHost :=
  mkDebugHost (h_base h) (d_breaks h) (d_stepBreak h) (d_stepCallDepth h) (d_curScript h) (d_curRowCol h)
    (d_stepCurRowCol h) s (d_dbgCmd h) (d_defaultDbgCmd h) (d_dbgShell h) (d_returns h) (d_aliveCount h)
    (d_breakHit h) (d_debugging h) (d_aliveSignal h) (d_running h) (d_mode h) (d_stepOverSync h).
Definition set_cmd (c : DebugCommand) (h : DebugHost) : DebugHost :=
  mkDebugHost (h_base h) (d_breaks h) (d_stepBreak h) (d_stepCallDepth h) (d_curScript h) (d_curRowCol h)
    (d_stepCurRowCol h) (d_lastError h) c (d_defaultDbgCmd h) (d_dbgShell h) (d_returns h) (d_aliveCount h)
    (d_breakHit h) (d_debugging h) (d_aliveSignal h) (d_running h) (d_mode h) (d_stepOverSync h).
Definition set_default (c : DebugCommand) (h : DebugHost) : DebugHost :=
  mkDebugHost (h_base h) (d_breaks h) (d_stepBreak h) (d_stepCallDepth h) (d_curScript h) (d_curRowCol h)
    (d_stepCurRowCol h) (d_lastError h) (d_dbgCmd h) c (d_dbgShell h) (d_returns h) (d_aliveCount h)
    (d_breakHit h) (d_debugging h) (d_aliveSignal h) (d_running h) (d_mode h) (d_stepOverSync h).
Definition set_shell (b : bool) (h : DebugHost) : DebugHost :=
  mkDebugHost (h_base h) (d_breaks h) (d_stepBreak h) (d_stepCallDepth h) (d_curScript h) (d_curRowCol h)
    (d_stepCurRowCol h) (d_lastError h) (d_dbgCmd h) (d_defaultDbgCmd h) b (d_returns h) (d_aliveCount h)
    (d_breakHit h) (d_debugging h) (d_aliveSignal h) (d_running h) (d_mode h) (d_stepOverSync h).
Definition set_returns (l : list bytes) (h : DebugHost) : DebugHost :=
  mkDebugHost (h_base h) (d_breaks h) (d_stepBreak h) (d_stepCallDepth h) (d_curScript h) (d_curRowCol h)
    (d_stepCurRowCol h) (d_lastError h) (d_dbgCmd h) (d_defaultDbgCmd h) (d_dbgShell h) l (d_aliveCount h)
    (d_breakHit h) (d_debugging h) (d_aliveSignal h) (d_running h) (d_mode h) (d_stepOverSync h).
Definition set_alive (n : Z) (h : DebugHost) : DebugHost :=
  mkDebugHost (h_base h) (d_breaks h) (d_stepBreak h) (d_stepCallDepth h) (d_curScript h) (d_curRowCol h)
    (d_stepCurRowCol h) (d_lastError h) (d_dbgCmd h) (d_defaultDbgCmd h) (d_dbgShell h) (d_returns h) n
    (d_breakHit h) (d_debugging h) (d_aliveSignal h) (d_running h) (d_mode h) (d_stepOverSync h).
Definition set_hit (b : bool) (h : DebugHost) : DebugHost :=
  mkDebugHost (h_base h) (d_breaks h) (d_stepBreak h) (d_stepCallDepth h) (d_curScript h) (d_curRowCol h)
    (d_stepCurRowCol h) (d_lastError h) (d_dbgCmd h) (d_defaultDbgCmd h) (d_dbgShell h) (d_returns h)
    (d_aliveCount h) b (d_debugging h) (d_aliveSignal h) (d_running h) (d_mode h) (d_stepOverSync h).
Definition set_debugging (b : bool) (h : DebugHost) : DebugHost :=
  mkDebugHost (h_base h) (d_breaks h) (d_stepBreak h) (d_stepCallDepth h) (d_curScript h) (d_curRowCol h)
    (d_stepCurRowCol h) (d_lastError h) (d_dbgCmd h) (d_defaultDbgCmd h) (d_dbgShell h) (d_returns h)
    (d_aliveCount h) (d_breakHit h) b (d_aliveSignal h) (d_running h) (d_mode h) (d_stepOverSync h).
Definition set_aliveSignal (b : bool) (h : DebugHost) : DebugHost :=
  mkDebugHost (h_base h) (d_breaks h) (d_stepBreak h) (d_stepCallDepth h) (d_curScript h) (d_curRowCol h)
    (d_stepCurRowCol h) (d_lastError h) (d_dbgCmd h) (d_defaultDbgCmd h) (d_dbgShell h) (d_returns h)
    (d_aliveCount h) (d_breakHit h) (d_debugging h) b (d_running h) (d_mode h) (d_stepOverSync h).
Definition set_running (b : bool) (h : DebugHost) : DebugHost :=
  mkDebugHost (h_base h) (d_breaks h) (d_stepBreak h) (d_stepCallDepth h) (d_curScript h) (d_curRowCol h)
    (d_stepCurRowCol h) (d_lastError h) (d_dbgCmd h) (d_defaultDbgCmd h) (d_dbgShell h) (d_returns h)
    (d_aliveCount h) (d_breakHit h) (d_debugging h) (d_aliveSignal h) b (d_mode h) (d_stepOverSync h).
Definition set_mode (m : Mode) (h : DebugHost) : DebugHost :=
  mkDebugHost (h_base h) (d_breaks h) (d_stepBreak h) (d_stepCallDepth h) (d_curScript h) (d_curRowCol h)
    (d_stepCurRowCol h) (d_lastError h) (d_dbgCmd h) (d_defaultDbgCmd h) (d_dbgShell h) (d_returns h)
    (d_aliveCount h) (d_breakHit h) (d_debugging h) (d_aliveSignal h) (d_running h) m (d_stepOverSync h).
Definition set_sync (b : bool) (h : DebugHost) : DebugHost :=
  mkDebugHost (h_base h) (d_breaks h) (d_stepBreak h) (d_stepCallDepth h) (d_curScript h) (d_curRowCol h)
    (d_stepCurRowCol h) (d_lastError h) (d_dbgCmd h) (d_defaultDbgCmd h) (d_dbgShell h) (d_returns h)
    (d_aliveCount h) (d_breakHit h) (d_debugging h) (d_aliveSignal h) (d_running h) (d_mode h) b.

Abbreviation HM := (SM DebugHost).

(** What [LuaHost] defines, and a call of Lua. *)
Definition base {A} (m : SM Engine2 A) : HM A :=
  fun h => match m (h_base h) with Some (x, b) => Some (x, set_base b h) | None => None end.
Definition hlua {A} (m : SM lua_State A) : HM A := base (lua m).
Definition hlook {A} (f : lua_State -> A) : HM A := rget (fun h => f (d_ctx (h_base h))).

Definition set_wait (b : bool) (h : DebugHost) : DebugHost :=
  let e := h_base h in
  set_base (mkEngine2 (d_ctx e) b (d_activeLevel e) (d_printToStdout e) (d_stdout e) (d_stderr e) (notified e)) h.
Definition set_level (n : Z) (h : DebugHost) : DebugHost :=
  let e := h_base h in
  set_base (mkEngine2 (d_ctx e) (d_waitForCommand e) n (d_printToStdout e) (d_stdout e) (d_stderr e) (notified e)) h.

(** [src/Engine2.h:91-91] isWaiting *)
Definition isWaiting (h : DebugHost) : bool := d_waitForCommand (h_base h).

(** [src/Engine2.cpp:1577-1584] lineForBreak *)
Definition lineForBreak (h : DebugHost) : Z :=
  if bool_decide (d_mode h = LineMode) then unpackRow cmp (d_curRowCol h) else d_curRowCol h.

(** [src/Engine2.cpp:1586-1597] lineForNotify *)
Definition lineForNotify (h : DebugHost) : Z :=
  match d_mode h with
  | LineMode | RowColMode => s32 (unpackRow cmp (d_curRowCol h))
  | PcMode => (unpackDeflinePc (d_curRowCol h)).2
  end.

Definition hnotify (t : MessageType) (val1 : bytes) (val2 : Z) : HM unit := base (notify t val1 val2).

(** [src/Engine2.cpp:688-694] setActiveLevel *)
Definition setActiveLevel (level : Z) : HM unit :=
  h <~ rget id;
  if d_activeLevel (h_base h) =? level then rret tt
  else
    _ <~ rmod (set_level level);
    h <~ rget id;
    hnotify M_ActiveLevel (d_curScript h) (lineForNotify h).

(** [src/Engine2.cpp:900-904] notifyStart *)
Definition notifyStart : HM unit := _ <~ rmod (set_running true); hnotify M_Started [] 0.
(** [src/Engine2.cpp:906-910] notifyEnd *)
Definition notifyEnd : HM unit :=
  _ <~ rmod (set_running false);
  h <~ rget id;
  hnotify (if is_abort (d_dbgCmd h) then M_Aborted else M_Finished) [] 0.

(** ** Break points *)

(** [d_breaks[s]] *)
Definition breaks_of (s : bytes) (h : DebugHost) : gset Z := default ∅ (d_breaks h !! s).

(** [src/Engine2.cpp:1085-1089] addBreak *)
Definition addBreak (s : bytes) (l : Z) : HM unit :=
  _ <~ rmod (fun h => set_breaks (<[s := {[l]} ∪ breaks_of s h]> (d_breaks h)) h);
  hnotify M_BreakPoints s 0.
(** [src/Engine2.cpp:1091-1095] removeBreak *)
Definition removeBreak (s : bytes) (l : Z) : HM unit :=
  _ <~ rmod (fun h => set_breaks (<[s := breaks_of s h ∖ {[l]}]> (d_breaks h)) h);
  hnotify M_BreakPoints s 0.
(** [src/Engine2.cpp:1112-1119] getBreaks *)
Definition getBreaks (s : bytes) (h : DebugHost) : gset Z :=
  match d_breaks h !! s with Some b => b | None => ∅ end.
(** [None] is a null array.
    [src/Engine2.cpp:1320-1335] removeAllBreaks *)
Definition removeAllBreaks (s : option bytes) : HM unit :=
  h <~ rget id;
  match s with
  | None =>
      if bool_decide (d_breaks h = ∅) then rret tt
      else _ <~ rmod (set_breaks ∅); hnotify M_BreakPoints [] 0
  | Some s =>
      let b := breaks_of s h in
      _ <~ rmod (set_breaks (<[s := ∅]> (d_breaks h)));
      if bool_decide (b = ∅) then rret tt else hnotify M_BreakPoints s 0
  end.

(** ** Levels of the stack *)

(** The lines of a function, from the table on top of the stack.
    [src/Engine2.cpp:1202-1216] getStackLevel *)
Fixpoint valid_lines (fuel : nat) (t : Z) (bytecodeMode : bool) (lines : gset Z) : SM lua_State (gset Z) :=
  match fuel with
  | O => rfail
  | S fuel =>
      n <~ lua_next t;
      if (n : bool) then
        _ <~ lua_pop 1;
        i <~ rget (lua_tointeger (-1));
        let line := if bytecodeMode then u32 i else unpackRow cmp (u32 i) in
        valid_lines fuel t bytecodeMode ({[line]} ∪ lines)
      else rret lines
  end.

(** [src/Engine2.cpp:1184-1199] getStackLevel *)
Definition level_of (level : Z) (i : LuaInfo) : StackLevel :=
  let curline := if i_currentline i =? -1 then 0 else i_currentline i in
  let c := hd x00 (i_what i) in
  let inLua := Byte.eqb c "L" || Byte.eqb c "m" in
  mkLevel (u16 level) (Byte.eqb c "C") true (default [] (i_name i)) (u32 (i_linedefined i)) (u32 (i_lastlinedefined i))
    (i_namewhat i) (match i_source i with c :: s => if Byte.eqb c "@" then s else c :: s | [] => [] end)
    (if inLua then u32 curline else 0) ∅.

(** [fuel] bounds the lines of a function.
    [src/Engine2.cpp:1157-1222] getStackLevel *)
Definition getStackLevel_ (fuel : nat) (level : Z) (withValidLines bytecodeMode : bool) (ar : option lua_Debug)
    : SM lua_State StackLevel :=
  s <~ rget id;
  match (match ar with Some ar => Some ar | None => lua_getstack (u16 level) s end) with
  | None => rret invalid_level
  | Some ar =>
      i <~ lua_getinfo (if bytecodeMode then qb "nSp" else if withValidLines then qb "nlSL" else qb "nlS") ar;
      match i with
      | None => rret invalid_level
      | Some i =>
          let l := level_of level i in
          if withValidLines then
            t <~ rget lua_gettop;
            if Byte.eqb (hd x00 (i_what i)) "L" || Byte.eqb (hd x00 (i_what i)) "m" then
              _ <~ lua_pushnil;
              lines <~ valid_lines fuel t bytecodeMode ∅;
              _ <~ lua_pop 2;
              rret (mkLevel (l_level l) (l_inC l) (l_valid l) (l_name l) (l_lineDefined l) (l_lastLine l)
                      (l_what l) (l_source l) (l_line l) lines)
            else _ <~ lua_pop 1; rret l
          else rret l
      end
  end.

(** [src/Engine2.cpp:1152-1155] getStackLevel *)
Definition getStackLevel (fuel : nat) (level : Z) (withValidLines : bool) (ar : option lua_Debug) : HM StackLevel :=
  h <~ rget id;
  hlua (getStackLevel_ fuel level withValidLines (bool_decide (d_mode h = PcMode)) ar).

(** Where the program is, without the lines. *)
Definition here (ar : option lua_Debug) : HM StackLevel := getStackLevel 0 0 false ar.

(** [src/Engine2.cpp:1121-1150] getStackTrace *)
Fixpoint getStackTrace (fuel : nat) (level : Z) : HM (list StackLevel) :=
  match fuel with
  | O => rfail
  | S fuel =>
      l <~ getStackLevel 0 level false None;
      if l_valid l then ls <~ getStackTrace fuel (level + 1); rret (l :: ls) else rret []
  end.

(** ** Modes *)

(** [src/Engine2.cpp:912-928] setDebug *)
Definition setDebug (on : bool) : HM unit :=
  h <~ rget id;
  if Bool.eqb (d_debugging h) on then rret tt
  else
    _ <~ hlua (if on then
                 lua_sethook (Some H_debugHook)
                   (Z.lor (Z.lor (if bool_decide (d_mode h = PcMode) then LUA_MASKCOUNT else LUA_MASKLINE) LUA_MASKRET)
                      LUA_MASKCALL) 1
               else if d_aliveSignal h then lua_sethook (Some H_aliveSignal) LUA_MASKCOUNT s_aliveCount
               else lua_sethook None 0 0);
    rmod (set_debugging on).

(** [src/Engine2.cpp:930-938] setJit *)
Definition setJit (on : bool) : HM unit := hlua (luaJIT_setmode on).

(** [src/Engine2.cpp:940-952] setAliveSignal *)
Definition setAliveSignal (on : bool) : HM unit :=
  h <~ rget id;
  if Bool.eqb (d_aliveSignal h) on then rret tt
  else
    _ <~ rmod (set_aliveSignal on);
    if d_debugging h then rret tt
    else
      _ <~ rmod (set_alive 0);
      hlua (if on then lua_sethook (Some H_aliveSignal) LUA_MASKCOUNT s_aliveCount
            else lua_sethook (Some H_aliveSignal) 0 0).

(** [src/Engine2.cpp:954-962] setDebugMode *)
Definition setDebugMode (m : Mode) : HM unit :=
  _ <~ rmod (set_mode m);
  h <~ rget id;
  if d_debugging h then _ <~ setDebug false; setDebug true else rret tt.

(** [src/Engine2.cpp:964-972] setBytecodeMode *)
Definition setBytecodeMode (on : bool) : HM unit :=
  _ <~ rmod (set_mode (if on then PcMode else LineMode));
  h <~ rget id;
  if d_debugging h then _ <~ setDebug false; setDebug true else rret tt.

(** [src/Engine2.h:71-71] setDbgShell *)
Definition setDbgShell (on : bool) : HM unit := rmod (set_shell on).
(** [src/Engine2.h:85-85] setDefaultCmd *)
Definition setDefaultCmd (c : DebugCommand) : HM unit := rmod (set_default c).

(** ** Commands *)

(** [src/Engine2.cpp:974-996] runToNextLine *)
Definition runToNextLine (w : DebugCommand) : HM unit :=
  if negb (is_step w) then rfail
  else
    _ <~ rmod (set_stepBreak ([], 0));
    w <~ (if bool_decide (w = StepOver \/ w = StepOut) then
            l <~ here None;
            if l_inC l then rret StepNext
            else
              _ <~ rmod (set_stepBreak (l_source l, l_lineDefined l));
              _ <~ rmod (fun h => set_stepCur (d_curRowCol h) h);
              rret w
          else rret w);
    _ <~ rmod (set_cmd w);
    _ <~ rmod (set_wait false);
    rmod (set_depth 0).

(** [src/Engine2.cpp:998-1002] runToBreakPoint *)
Definition runToBreakPoint : HM unit := _ <~ rmod (set_cmd RunToBreakPoint); rmod (set_wait false).

(** [src/Engine2.cpp:1067-1071] terminate *)
Definition terminate (silent : bool) : HM unit :=
  _ <~ rmod (set_cmd (if silent then AbortSilently else Abort)); rmod (set_wait false).

(** ** Hooks *)

(** The shell, where there is one, is called where the program breaks and, from time to
    time, while it does not.
    [src/Engine2.h:42-48] DbgShell *)
Class DbgShell := {
  handleBreak : bytes -> Z -> HM unit;
  handleAliveSignal : HM unit
}.
Context `{S : DbgShell}.

Definition in_shell (m : HM unit) : HM unit := h <~ rget id; if d_dbgShell h then m else rret tt.

(** The program waits in the shell.
    [src/Engine2.cpp:817-831] debugHook *)
Definition wait_in_shell (t : MessageType) (line : Z) : HM unit :=
  _ <~ rmod (set_wait true);
  _ <~ rmod (set_hit true);
  h <~ rget id;
  _ <~ hnotify t (d_curScript h) (lineForNotify h);
  _ <~ in_shell (handleBreak (d_curScript h) line);
  rmod (set_wait false).

(** The depth of the calls is a small number, as the stack of Lua is limited.
    [src/Engine2.cpp:744-753] debugHook *)
Definition hook_call (l : StackLevel) : HM unit :=
  h <~ rget id;
  if bool_decide (d_dbgCmd h = StepOut \/ d_dbgCmd h = StepOver) && negb (l_inC l)
  then rmod (set_depth (d_stepCallDepth h + 1)) else rret tt.

(** [src/Engine2.cpp:754-780] debugHook *)
Definition hook_ret (l : StackLevel) : HM unit :=
  h <~ rget id;
  if bool_decide (d_dbgCmd h = StepOut \/ d_dbgCmd h = StepOver) then
    if l_inC l || bool_decide ((d_stepBreak h).1 = []) then rfail
    else
      let depth := d_stepCallDepth h - 1 in
      _ <~ rmod (set_depth depth);
      if (depth <? 0) && bool_decide (d_stepBreak h = (l_source l, l_lineDefined l)) then rmod (set_cmd StepNext)
      else if bool_decide (d_dbgCmd h = StepOver) && (depth =? 0) then
        _ <~ rmod (set_cur (d_stepBreak h).1 (d_stepCurRowCol h));
        _ <~ rmod (set_cmd StepNext);
        rmod (set_sync true)
      else rret tt
  else rret tt.

(** Whether the position has changed.
    [src/Engine2.cpp:785-798] debugHook *)
Definition line_changed (l : StackLevel) : HM bool :=
  h <~ rget id;
  let moved := negb (bool_decide (d_curScript h = l_source l)) in
  match d_mode h with
  | LineMode =>
      if d_stepOverSync h && (d_stepCallDepth h =? 0) && isRowCol cmp
      then _ <~ rmod (set_cmd StepOver); rret false
      else rret (negb (unpackRow cmp (d_curRowCol h) =? unpackRow cmp (l_line l)) || moved)
  | RowColMode | PcMode => rret (negb ((unpackDeflinePc (d_curRowCol h)).2 =? l_line l) || moved)
  end.

(** [src/Engine2.cpp:800-804] debugHook *)
Definition move_to (l : StackLevel) : HM unit :=
  h <~ rget id;
  if bool_decide (d_mode h = PcMode) then
    match packDeflinePc (unpackRow cmp (l_lineDefined l)) (u16 (l_line l)) with
    | Some rc => rmod (set_cur (l_source l) rc)
    | None => rfail
    end
  else rmod (set_cur (l_source l) (l_line l)).

(** The step ends here.
    [src/Engine2.cpp:812-815] debugHook *)
Definition step_ends (l : StackLevel) (h : DebugHost) : bool :=
  bool_decide (d_dbgCmd h = StepNext) ||
  (bool_decide (d_dbgCmd h = StepOver) && (d_stepCallDepth h =? 0) &&
   bool_decide (d_stepBreak h = (l_source l, l_lineDefined l))).

(** At a line or an instruction; [true] where an error is raised, which leaves the hook.
    [src/Engine2.cpp:781-861] debugHook *)
Definition hook_line (l : StackLevel) : HM bool :=
  _ <~ rmod (fun h => set_alive (u32 (d_aliveCount h + 1)) h);
  changed <~ line_changed l;
  _ <~ move_to l;
  h <~ rget id;
  if bool_decide (d_mode h = PcMode) || (changed : bool) then
    _ <~ rmod (set_hit false);
    _ <~ rmod (set_level 0);
    let line := lineForBreak h in
    _ <~ (if step_ends l h then wait_in_shell M_LineHit line
          else if bool_decide (line ∈ breaks_of (d_curScript h) h) then wait_in_shell M_BreakHit line
          else rret tt);
    h <~ rget id;
    if is_abort (d_dbgCmd h) then _ <~ hlua lua_pushnil; rret true
    else
      _ <~ hnotify M_Continued [] 0;
      _ <~ rmod (set_sync false);
      rret false
  else
    _ <~ (if (s_aliveCount / 2 <? d_aliveCount h) && d_dbgShell h
          then _ <~ handleAliveSignal; rmod (set_alive 0) else rret tt);
    _ <~ rmod (set_sync false);
    rret false.

(** [src/Engine2.cpp:733-861] debugHook *)
Definition debugHook (ar : lua_Debug) : HM bool :=
  l <~ here (Some ar);
  match lua_event ar with
  | LUA_HOOKCALL => _ <~ hook_call l; rret false
  | LUA_HOOKRET => _ <~ hook_ret l; rret false
  | LUA_HOOKTAILRET => rfail
  | LUA_HOOKLINE | LUA_HOOKCOUNT => hook_line l
  end.

(** [src/Engine2.cpp:863-878] aliveSignal *)
Definition aliveSignal : HM unit :=
  in_shell (
    _ <~ handleAliveSignal;
    h <~ rget id;
    if is_step (d_dbgCmd h) then
      _ <~ rmod (set_wait true);
      h <~ rget id;
      _ <~ hnotify M_LineHit (d_curScript h) (lineForNotify h);
      _ <~ handleBreak (d_curScript h) (lineForBreak h);
      rmod (set_wait false)
    else rret tt).

(** What follows the return from the shell. *)
Definition after_break : HM unit :=
  _ <~ rmod (set_wait false);
  h <~ rget id;
  hnotify (if is_abort (d_dbgCmd h) then M_Aborted else M_Continued) [] 0.

Definition stop_here : HM unit :=
  l <~ here None;
  _ <~ rmod (set_cur (l_source l) (l_line l));
  _ <~ rmod (set_level 0);
  rmod (set_wait true).

(** The message stays on the stack.
    [src/Engine2.cpp:696-731] ErrHandler *)
Definition ErrHandler : HM unit :=
  h <~ rget id;
  if is_abort (d_dbgCmd h) then rret tt
  else
    _ <~ stop_here;
    _ <~ rmod (set_hit false);
    h <~ rget id;
    _ <~ hnotify M_ErrorHit (d_curScript h) (lineForNotify h);
    _ <~ in_shell (handleBreak (d_curScript h) (lineForBreak h));
    after_break.

(** [src/Engine2.cpp:1004-1037] TRAP *)
Definition TRAP : HM unit :=
  h <~ rget id;
  n <~ hlook lua_gettop;
  b <~ hlook (lua_toboolean (-1));
  if negb (d_dbgShell h) || is_abort (d_dbgCmd h) || ((1 <=? n) && negb b) then rret tt
  else
    _ <~ stop_here;
    _ <~ rmod (set_hit true);
    _ <~ setDebug true;
    h <~ rget id;
    _ <~ hnotify M_BreakHit (d_curScript h) (lineForNotify h);
    _ <~ in_shell (handleBreak (d_curScript h) (lineForBreak h));
    after_break.

(** Always raises an error.
    [src/Engine2.cpp:1057-1065] ABORT *)
Definition ABORT : HM unit :=
  _ <~ terminate true;
  n <~ hlook lua_gettop;
  if n =? 0 then hlua lua_pushnil else rret tt.
End Debugger.
