(* ===== verification/DebugSpec.v ===== *)
(** * What the debugger does over a run

    The hooks over sequences of events as Lua delivers them: break points, stepping over calls
    and out of functions. *)

From S2P Require Import Prelude Double Bytecode Composer LuaHost DebugHost.
From Stdlib Require Import Strings.Byte.
Local Open Scope Z_scope.
Local Open Scope rd_scope.

(** ** Numbers of instructions *)

(** What fits is packed into 32 bits and unpacked to the same numbers. *)
Theorem pack_unpack_pc defline pc v :
  0 <= defline -> 0 <= pc -> packDeflinePc defline pc = Some v ->
  unpackDeflinePc v = (defline, pc) /\ 0 <= v < 2 ^ 32.
Proof.
  unfold packDeflinePc, unpackDeflinePc, PC_BIT_LEN, DEFLINE_BIT_LEN. rewrite !Z.shiftl_1_l. intros Hd Hp.
  destruct (Z.leb_spec defline (2 ^ 18 - 1)), (Z.leb_spec pc (2 ^ 14 - 1)); try done. intros [= <-].
  rewrite u32_small by (rewrite Z.shiftl_mul_pow2 by lia; lia).
  rewrite Z.lor_comm, lor_shiftl_add by lia. rewrite land_ones_mod, Z.shiftr_div_pow2 by lia.
  rewrite Z.div_add, Z.mod_add by lia. rewrite Z.div_small, Z.mod_small, u16_small by lia.
  split; [f_equal; lia|lia].
Qed.

(** ** Sequences of events *)

(** What Lua documents: [lua_getinfo] gives the members of the activation, the line being
    the number of the instruction when it is asked for; while a function runs there is an activation,
    of a chunk that has a name; and the other functions do not fail. *)
Class LuaDbgLaws `{L : LuaApi} `{D : !LuaDbgApi} := {
  dbg_info : bool -> lua_Debug -> LuaInfo;
  in_call : lua_State -> Prop;
  l_getinfo (pc : bool) ar s : lua_getinfo (if pc then qb "nSp" else qb "nlS") ar s = Some (Some (dbg_info pc ar), s);
  l_frame s : in_call s ->
    exists ar, lua_getstack 0 s = Some ar /\ forall pc, l_source (level_of 0 (dbg_info pc ar)) <> [];
  l_nil s : exists s', lua_pushnil s = Some (tt, s') /\ (in_call s -> in_call s');
  l_hook f m n s : exists s', lua_sethook f m n s = Some (tt, s') /\ (in_call s -> in_call s');
  l_jit b s : exists s', luaJIT_setmode b s = Some (tt, s') /\ (in_call s -> in_call s')
}.

Section Events.
Context `{L : LuaApi} `{HL : HostLib} `{D : !LuaDbgApi} `{W : !LuaDbgLaws} (cmp : JitComposer).
Context `{S : !DbgShell}.

(** The hook for each event, up to an error. *)
Fixpoint run_hooks (evs : list lua_Debug) : SM DebugHost bool :=
  match evs with
  | [] => rret false
  | ar :: evs => e <~ debugHook cmp ar; if (e : bool) then rret true else run_hooks evs
  end.

(** Where an event is, in lines. *)
Definition place (ar : lua_Debug) : StackLevel := level_of 0 (dbg_info false ar).

(** The level of an activation in the mode of the debugger. *)
Definition level_in (h : DebugHost) (ar : lua_Debug) : StackLevel := level_of 0 (dbg_info (bool_decide (d_mode h = PcMode)) ar).

Lemma here_frame ar' ar h :
  match ar' with Some ar => Some ar | None => lua_getstack 0 (d_ctx (h_base h)) end = Some ar ->
  here cmp ar' h = Some (level_in h ar, h).
Proof.
  intros E. unfold here, getStackLevel, hlua, base, lua, getStackLevel_, rbind, rget, id.
  change (u16 0) with 0. rewrite E. cbv zeta. rewrite l_getinfo. by destruct h as [[]].
Qed.

Lemma here_place ar h : d_mode h <> PcMode -> here cmp (Some ar) h = Some (place ar, h).
Proof. intros Hm. rewrite (here_frame _ ar) by done. unfold level_in. by rewrite bool_decide_eq_false_2. Qed.

#[local] Opaque place.

Lemma run_hooks_app a b h :
  run_hooks (a ++ b) h = (e <~ run_hooks a; if (e : bool) then rret true else run_hooks b) h.
Proof.
  revert h. induction a as [|ar a IH]; intros h; [done|]. simpl. unfold rbind in *.
  destruct (debugHook cmp ar h) as [[[] h']|]; [done|apply IH|done].
Qed.

(** The notifications since a state. *)
Definition notes (h h' : DebugHost) (N : list (MessageType * bytes * Z)) : Prop :=
  notified (h_base h') = notified (h_base h) ++ N.

Definition goes_on (N : list (MessageType * bytes * Z)) : Prop := Forall (fun m => m.1.1 = M_Continued) N.

(** The program has run on: the debugger has not stopped, and the step goes on. *)
Record run_on (h h' : DebugHost) : Prop := {
  ro_notes : exists N, notes h h' N /\ goes_on N;
  ro_cmd : d_dbgCmd h' = d_dbgCmd h;
  ro_depth : d_stepCallDepth h' = d_stepCallDepth h;
  ro_sync : d_stepOverSync h' = d_stepOverSync h;
  ro_break : d_stepBreak h' = d_stepBreak h;
  ro_cur : d_stepCurRowCol h' = d_stepCurRowCol h;
  ro_breaks : d_breaks h' = d_breaks h;
  ro_mode : d_mode h' = d_mode h;
  ro_wait : isWaiting h' = isWaiting h
}.

Lemma run_on_refl h : run_on h h.
Proof. split; try done. exists []. split; [by unfold notes; rewrite app_nil_r|constructor]. Qed.

Lemma run_on_trans a b c : run_on a b -> run_on b c -> run_on a c.
Proof.
  intros [(N & HN & FN) ? ? ? ? ? ? ? ?] [(N' & HN' & FN') ? ? ? ? ? ? ? ?]. split; try congruence.
  exists (N ++ N'). split; [|by apply Forall_app]. unfold notes in *. by rewrite HN', HN, app_assoc.
Qed.

(** ** Calls that are stepped over *)

(** A sequence of events with calls and returns in pairs; calls of C have no return. *)
Inductive balanced : list lua_Debug -> Prop :=
  | bal_nil : balanced []
  | bal_line ar evs : lua_event ar = LUA_HOOKLINE \/ lua_event ar = LUA_HOOKCOUNT -> balanced evs -> balanced (ar :: evs)
  | bal_ccall ar evs : lua_event ar = LUA_HOOKCALL -> l_inC (place ar) = true -> balanced evs -> balanced (ar :: evs)
  | bal_call ar r evs evs' : lua_event ar = LUA_HOOKCALL -> l_inC (place ar) = false ->
      lua_event r = LUA_HOOKRET -> l_inC (place r) = false ->
      balanced evs -> balanced evs' -> balanced (ar :: evs ++ r :: evs').

(** No break point is where the event is. *)
Definition break_line (h : DebugHost) (ar : lua_Debug) : Z :=
  if bool_decide (d_mode h = LineMode) then unpackRow cmp (l_line (place ar)) else l_line (place ar).
Definition no_break (h : DebugHost) (ar : lua_Debug) : Prop := break_line h ar ∉ breaks_of (l_source (place ar)) h.

(** A step is under way that does not end here. *)
Definition under_way (h : DebugHost) : Prop :=
  (d_dbgCmd h = StepOver /\ 0 < d_stepCallDepth h) \/ (d_dbgCmd h = StepOut /\ 0 <= d_stepCallDepth h).
Record stepping (h : DebugHost) : Prop := {
  st_way : under_way h;
  st_mode : d_mode h <> PcMode;
  st_sync : d_stepOverSync h = false;
  st_break : (d_stepBreak h).1 <> []
}.

Lemma run_on_stepping h h' : run_on h h' -> stepping h -> stepping h'.
Proof.
  intros [? E1 E2 E3 E4 ? ? E5 ?] [Hw Hm Hs Hb]. split; try congruence. unfold under_way. by rewrite E1, E2.
Qed.

Lemma run_on_no_break h h' ar : run_on h h' -> no_break h ar -> no_break h' ar.
Proof. intros [? ? ? ? ? ? E1 E2 ?]. unfold no_break, break_line, breaks_of. by rewrite E1, E2. Qed.

Context (Halive : forall h, handleAliveSignal h = Some (tt, h)).

(** The position has changed. *)
Definition moved (l : StackLevel) (h : DebugHost) : bool :=
  match d_mode h with
  | LineMode => negb (unpackRow cmp (d_curRowCol h) =? unpackRow cmp (l_line l))
  | RowColMode | PcMode => negb ((unpackDeflinePc (d_curRowCol h)).2 =? l_line l)
  end || negb (bool_decide (d_curScript h = l_source l)).

Lemma wp_line_changed l (h : DebugHost) Q :
  (d_mode h = LineMode -> d_stepOverSync h && (d_stepCallDepth h =? 0) && isRowCol cmp = false) ->
  Q (moved l h) h -> wp (line_changed cmp l) Q h.
Proof using Type.
  intros Hs HQ. unfold wp, line_changed, moved, rbind, rget, id in *. by destruct (d_mode h); [rewrite Hs by done|..].
Qed.

Lemma wp_move_to l (h : DebugHost) (Q : unit -> DebugHost -> Prop) :
  d_mode h <> PcMode -> Q tt (set_cur (l_source l) (l_line l) h) -> wp (move_to cmp l) Q h.
Proof using Type. intros Hm HQ. unfold wp, move_to, rbind, rget, id. by rewrite bool_decide_eq_false_2. Qed.

Lemma wp_hnotify t v n (h : DebugHost) (Q : unit -> DebugHost -> Prop) :
  (forall b, d_waitForCommand b = isWaiting h -> d_activeLevel b = d_activeLevel (h_base h) -> d_ctx b = d_ctx (h_base h) ->
     notified b = notified (h_base h) ++ [(t, v, n)] -> Q tt (set_base b h)) ->
  wp (hnotify t v n) Q h.
Proof using Type. intros HQ. unfold wp, hnotify, base, notify, rmod. by apply HQ. Qed.

Lemma stepping_line ar h :
  stepping h -> lua_event ar = LUA_HOOKLINE \/ lua_event ar = LUA_HOOKCOUNT -> no_break h ar ->
  wp (debugHook cmp ar) (fun e h' => e = false /\ run_on h h') h.
Proof using Halive.
  intros [Hw Hm Hs Hb] Hev Hn.
  assert (Hline : wp (hook_line cmp (place ar)) (fun e h' => e = false /\ run_on h h') h).
  2: { unfold wp, debugHook, rbind in *. rewrite here_place by done. by destruct Hev as [-> | ->]. }
  unfold hook_line. apply wp_bind, wp_mod, wp_bind, wp_line_changed; [intros _; simpl; by rewrite Hs|].
  apply wp_bind, wp_move_to; [done|]. apply wp_bind, wp_get. unfold id. simpl d_mode.
  rewrite (bool_decide_eq_false_2 (d_mode h = PcMode)) by done. simpl orb.
  assert (Hend : forall l h', d_dbgCmd h' = d_dbgCmd h -> d_stepCallDepth h' = d_stepCallDepth h -> step_ends l h' = false).
  { intros l h' E1 E2. unfold step_ends. rewrite E1, E2. destruct Hw as [[-> ?]|[-> ?]]; simpl; [|done].
    destruct (Z.eqb_spec (d_stepCallDepth h) 0); [lia|done]. }
  assert (Hcmd : is_abort (d_dbgCmd h) = false) by (by destruct Hw as [[-> ?]|[-> ?]]).
  destruct (moved _ _).
  - apply wp_bind, wp_mod, wp_bind, wp_mod, wp_bind.
    rewrite Hend by done. unfold no_break, break_line in Hn.
    unfold lineForBreak. simpl. rewrite (bool_decide_eq_false_2 (_ ∈ _)) by exact Hn.
    apply wp_ret, wp_bind, wp_get. unfold id. simpl. rewrite Hcmd. apply wp_bind, wp_hnotify.
    intros b E1 _ _ E2. apply wp_bind, wp_mod, wp_ret. split; [done|]. split; simpl; try done.
    exists [(M_Continued, [], 0)]. split; [exact E2|by repeat constructor].
  - apply wp_bind. apply (wp_mono _ (fun _ h' => run_on h h')).
    + assert (Hr : run_on h (set_cur (l_source (place ar)) (l_line (place ar)) (set_alive (u32 (d_aliveCount h + 1)) h))).
      { split; try done. exists []. split; [by unfold notes; rewrite app_nil_r|constructor]. }
      destruct (_ && _); [|by apply wp_ret]. unfold wp, rbind. rewrite Halive. simpl.
      split; try done. exists []. split; [by unfold notes; rewrite app_nil_r|constructor].
    + intros _ h' [(N & ? & ?) ? ? ? ? ? ? ? ?]. apply wp_bind, wp_mod, wp_ret. split; [done|]. split; simpl; try done. by exists N.
Qed.

Definition is_line (ar : lua_Debug) : Prop := lua_event ar = LUA_HOOKLINE \/ lua_event ar = LUA_HOOKCOUNT.
(** No break point is at a line of these events. *)
Definition quiet (h : DebugHost) (evs : list lua_Debug) : Prop := Forall (fun ar => is_line ar -> no_break h ar) evs.

Lemma run_on_quiet h h' evs : run_on h h' -> quiet h evs -> quiet h' evs.
Proof. intros Hr Hq. eapply Forall_impl; [exact Hq|]. intros ar H Hl. by eapply run_on_no_break, H. Qed.

Lemma hook_at_call ar h :
  d_mode h <> PcMode -> d_dbgCmd h = StepOut \/ d_dbgCmd h = StepOver -> lua_event ar = LUA_HOOKCALL ->
  debugHook cmp ar h = Some (false, if l_inC (place ar) then h else set_depth (d_stepCallDepth h + 1) h).
Proof.
  intros Hm Hw Hev. unfold debugHook, rbind. rewrite here_place, Hev by done. unfold hook_call, rbind, rget, id.
  rewrite bool_decide_eq_true_2 by done. by destruct (l_inC (place ar)).
Qed.

Lemma stepping_cmd h : stepping h -> d_dbgCmd h = StepOut \/ d_dbgCmd h = StepOver.
Proof. intros [[[-> _]|[-> _]] _ _ _]; auto. Qed.

(** At the return from the call that is stepped over, and from the function that is left. *)
Lemma hook_at_end ar h :
  d_mode h <> PcMode -> (d_stepBreak h).1 <> [] -> lua_event ar = LUA_HOOKRET -> l_inC (place ar) = false ->
  d_dbgCmd h = StepOver /\ d_stepCallDepth h = 1 \/
  d_dbgCmd h = StepOut /\ d_stepCallDepth h = 0 /\ d_stepBreak h = (l_source (place ar), l_lineDefined (place ar)) ->
  exists h', debugHook cmp ar h = Some (false, h') /\ notes h h' [] /\ d_dbgCmd h' = StepNext /\
    d_mode h' = d_mode h /\ d_stepOverSync h' = bool_decide (d_dbgCmd h = StepOver) || d_stepOverSync h /\
    (d_dbgCmd h = StepOver -> d_curScript h' = (d_stepBreak h).1 /\ d_curRowCol h' = d_stepCurRowCol h).
Proof.
  intros Hm Hb Hev Hc Hend. unfold debugHook, rbind. rewrite here_place, Hev by done.
  unfold hook_ret, rbind, rget, rmod, id, notes.
  rewrite bool_decide_eq_true_2, Hc, (bool_decide_eq_false_2 ((d_stepBreak h).1 = [])) by (try done; naive_solver). simpl.
  destruct Hend as [(E1 & E2)|(E1 & E2 & E3)]; rewrite E1, E2; simpl.
  - eexists. split; [done|]. simpl. by rewrite app_nil_r.
  - rewrite E3, bool_decide_eq_true_2 by done. eexists. split; [done|]. simpl. by rewrite app_nil_r.
Qed.

(** At a return to a function that has been called since the step began. *)
Lemma hook_at_ret ar h : stepping h -> lua_event ar = LUA_HOOKRET -> l_inC (place ar) = false ->
  under_way (set_depth (d_stepCallDepth h - 1) h) ->
  debugHook cmp ar h = Some (false, set_depth (d_stepCallDepth h - 1) h).
Proof.
  intros [Hw Hm _ Hb] Hev Hc Hu. unfold debugHook, rbind. rewrite here_place, Hev by done.
  unfold hook_ret, rbind, rget, rmod, id.
  rewrite bool_decide_eq_true_2 by (destruct Hw as [[-> _]|[-> _]]; auto).
  rewrite Hc, (bool_decide_eq_false_2 ((d_stepBreak h).1 = [])) by done. simpl.
  assert (E : d_stepCallDepth h - 1 <? 0 = false) by (destruct Hu as [[_ ?]|[_ ?]]; simpl in *; lia). rewrite E. simpl.
  destruct Hu as [[E1 E2]|[E1 _]]; simpl in *.
  - destruct (Z.eqb_spec (d_stepCallDepth h - 1) 0); [lia|]. by rewrite andb_false_r.
  - rewrite E1. simpl. done.
Qed.

Lemma run_balanced evs : balanced evs -> forall h, stepping h -> quiet h evs ->
  wp (run_hooks evs) (fun e h' => e = false /\ run_on h h') h.
Proof using Halive.
  induction 1 as [|ar evs Hev _ IH|ar evs Hev Hc _ IH|ar r evs evs' Hev Hc Hr Hcr _ IH1 _ IH2]; intros h Hs Hq.
  - by split; [|apply run_on_refl].
  - inversion Hq as [|? ? Hq1 Hq2]; subst. simpl. apply wp_bind.
    eapply wp_mono; [apply stepping_line; [done|done|by apply Hq1]|]. intros e h' [-> Hr].
    eapply wp_mono; [apply IH; [by eapply run_on_stepping|by eapply run_on_quiet]|].
    intros e h'' [-> Hr']. split; [done|by eapply run_on_trans].
  - inversion Hq; subst. simpl. apply wp_bind. unfold wp at 1. rewrite hook_at_call, Hc; [by apply IH|apply Hs|by apply stepping_cmd|done].
  - inversion Hq as [|? ? _ Hq2]; subst. apply Forall_app in Hq2 as [Hq2 Hq3]. inversion Hq3; subst.
    simpl. apply wp_bind. unfold wp at 1. rewrite hook_at_call, Hc; [|apply Hs|by apply stepping_cmd|done].
    assert (Hs1 : stepping (set_depth (d_stepCallDepth h + 1) h)).
    { destruct Hs as [[[E ?]|[E ?]] ? ? ?]; split; try done; [left|right]; (split; [exact E|simpl; lia]). }
    unfold wp. rewrite run_hooks_app. apply wp_bind. eapply wp_mono; [by apply IH1|].
    intros e h1 [-> Hr1]. simpl. pose proof (run_on_stepping _ _ Hr1 Hs1) as Hs1'.
    destruct Hr1 as [(N & HN & FN) E1 E2 E3 E4 E5 E6 E7 E8].
    change (d_stepCallDepth h1 = d_stepCallDepth h + 1) in E2.
    assert (Hd : d_stepCallDepth h1 - 1 = d_stepCallDepth h) by lia.
    assert (Hr2 : run_on h (set_depth (d_stepCallDepth h1 - 1) h1)).
    { split; simpl in *; try congruence; [by exists N|exact E8]. }
    apply wp_bind. unfold wp at 1. rewrite hook_at_ret; [|done..|].
    2: { destruct (run_on_stepping _ _ Hr2 Hs) as [Hu _ _ _]. exact Hu. }
    eapply wp_mono; [apply IH2; [by eapply run_on_stepping|by eapply run_on_quiet]|].
    intros e h2 [-> Hr3]. split; [done|by eapply run_on_trans].
Qed.

(** The shell takes back no notification. *)
Context (Hshell : forall s n h, exists h' N, handleBreak s n h = Some (tt, h') /\ notes h h' N).

Definition stops_at (t : MessageType) (ar : lua_Debug) (h h' : DebugHost) : Prop :=
  exists N, notes h h' ((t, l_source (place ar), s32 (unpackRow cmp (l_line (place ar)))) :: N).

(** What follows the shell at a line. *)
Lemma wp_wait t line (h : DebugHost) (Q : unit -> DebugHost -> Prop) :
  (forall b, notified b = notified (h_base h) ++ [(t, d_curScript h, lineForNotify cmp h)] ->
     wp (if d_dbgShell h then handleBreak (d_curScript h) line else rret tt) (fun _ h' => Q tt (set_wait false h'))
       (set_base b (set_hit true h))) ->
  wp (wait_in_shell cmp t line) Q h.
Proof using Type.
  intros HQ. apply wp_bind, wp_mod, wp_bind, wp_mod, wp_bind, wp_get, wp_bind, wp_hnotify.
  unfold id. intros b _ _ _ Hb. simpl in Hb. apply wp_bind, wp_bind, wp_get. unfold id. simpl d_dbgShell. simpl d_curScript.
  eapply wp_mono; [by apply (HQ b)|]. intros [] h' H. by apply wp_mod.
Qed.

Lemma wp_wait_in_shell t line (h : DebugHost) (Q : unit -> DebugHost -> Prop) :
  (forall h' N, notes h h' ((t, d_curScript h, lineForNotify cmp h) :: N) -> Q tt h') ->
  wp (wait_in_shell cmp t line) Q h.
Proof using Hshell.
  intros HQ. apply wp_wait. intros b Hb.
  assert (Hw : forall h' N, notified (h_base h') = notified (h_base h) ++ (t, d_curScript h, lineForNotify cmp h) :: N ->
    Q tt (set_wait false h')).
  { intros h' N HN. apply (HQ _ N). exact HN. }
  destruct (d_dbgShell h); [|by apply wp_ret, (Hw _ [])].
  unfold wp. match goal with |- context [handleBreak ?s ?n ?x] => destruct (Hshell s n x) as (h' & N & -> & HN) end.
  apply (Hw h' N). unfold notes in HN. rewrite HN. simpl. by rewrite Hb, <- app_assoc.
Qed.

(** A line where the step ends, or with a break point. *)
Lemma line_stops ar (h : DebugHost) t :
  d_mode h = LineMode -> is_line ar -> d_stepOverSync h && (d_stepCallDepth h =? 0) && isRowCol cmp = false ->
  moved (place ar) h = true ->
  t = (if step_ends (place ar) h then M_LineHit else M_BreakHit) ->
  (step_ends (place ar) h = false -> ~ no_break h ar) ->
  wp (debugHook cmp ar) (fun _ => stops_at t ar h) h.
Proof using Hshell.
  intros Hm Hev Hs Hmv Ht Hb.
  assert (Hline : wp (hook_line cmp (place ar)) (fun _ => stops_at t ar h) h).
  2: { unfold wp, debugHook, rbind in *. rewrite here_place by congruence. by destruct Hev as [-> | ->]. }
  unfold hook_line. apply wp_bind, wp_mod, wp_bind, wp_line_changed; [done|].
  change (moved (place ar) (set_alive (u32 (d_aliveCount h + 1)) h)) with (moved (place ar) h). rewrite Hmv.
  apply wp_bind, wp_move_to; [simpl; congruence|]. apply wp_bind, wp_get. unfold id. rewrite orb_true_r.
  apply wp_bind, wp_mod, wp_bind, wp_mod, wp_bind.
  match goal with |- context [step_ends (place ar) ?x] => change (step_ends (place ar) x) with (step_ends (place ar) h);
    set (h0 := x); set (h1 := set_level 0 (set_hit false h0)) end.
  assert (Hstop : forall line, wp (wait_in_shell cmp t line) (fun _ => stops_at t ar h) h1).
  { intros line. apply wp_wait_in_shell. intros h' N HN. exists N. unfold notes, lineForNotify in *. simpl in HN.
    by rewrite Hm in HN. }
  apply (wp_mono _ (fun _ => stops_at t ar h)).
  - destruct (step_ends (place ar) h); [subst t; apply Hstop|]. rewrite bool_decide_eq_true_2; [subst t; apply Hstop|].
    apply dec_stable. exact (Hb eq_refl).
  - intros _ h2 [N HN]. apply wp_bind, wp_get. unfold id. destruct (is_abort _).
    + apply wp_bind. unfold wp at 1, hlua, base, lua. destruct (l_nil (d_ctx (h_base h2))) as (s' & -> & _). apply wp_ret. by exists N.
    + apply wp_bind, wp_hnotify. intros b _ _ _ Eb. apply wp_bind, wp_mod, wp_ret.
      exists (N ++ [(M_Continued, [], 0)]). unfold notes in *. simpl. by rewrite Eb, HN, <- app_assoc.
Qed.

(** A line that is not new, or where the debugger has nothing to do. *)
Lemma line_passes ar (h : DebugHost) :
  d_mode h <> PcMode -> is_line ar ->
  (d_mode h = LineMode -> d_stepOverSync h && (d_stepCallDepth h =? 0) && isRowCol cmp = false) ->
  moved (place ar) h = false -> wp (debugHook cmp ar) (fun e h' => e = false /\ notes h h' [] /\ d_dbgCmd h' = d_dbgCmd h) h.
Proof using Halive.
  intros Hm Hev Hs Hmv.
  assert (Hline : wp (hook_line cmp (place ar)) (fun e h' => e = false /\ notes h h' [] /\ d_dbgCmd h' = d_dbgCmd h) h).
  2: { unfold wp, debugHook, rbind in *. rewrite here_place by congruence. by destruct Hev as [-> | ->]. }
  unfold hook_line. apply wp_bind, wp_mod, wp_bind, wp_line_changed; [done|].
  change (moved (place ar) (set_alive (u32 (d_aliveCount h + 1)) h)) with (moved (place ar) h). rewrite Hmv.
  apply wp_bind, wp_move_to; [exact Hm|]. apply wp_bind, wp_get. unfold id. simpl d_mode.
  rewrite (bool_decide_eq_false_2 (d_mode h = PcMode)) by done. simpl orb. apply wp_bind.
  apply (wp_mono _ (fun _ h' => notes h h' [] /\ d_dbgCmd h' = d_dbgCmd h)).
  - assert (Hn : notes h h []) by (unfold notes; by rewrite app_nil_r).
    destruct ((_ <? _) && _); [|apply wp_ret; exact (conj Hn eq_refl)]. apply wp_bind. unfold wp at 1. rewrite Halive. apply wp_mod. exact (conj Hn eq_refl).
  - intros _ h' Hn. apply wp_bind, wp_mod, wp_ret. by split.
Qed.


(** [C17] Stepping out of a function: while it runs to its end, with all calls it makes, the debugger
    does not stop unless there is a break point.  Then it stops at the next line that is
    another one. *)
Theorem step_out (h : DebugHost) evs r :
  d_mode h = LineMode ->
  d_dbgCmd h = StepOut -> d_stepCallDepth h = 0 -> d_stepOverSync h = false ->
  d_stepBreak h = (l_source (place r), l_lineDefined (place r)) -> l_source (place r) <> [] ->
  lua_event r = LUA_HOOKRET -> l_inC (place r) = false -> balanced evs -> quiet h evs ->
  wp (run_hooks (evs ++ [r])) (fun e h1 => e = false /\ (exists N, notes h h1 N /\ goes_on N) /\
    forall ar, is_line ar ->
      wp (debugHook cmp ar) (fun e h2 =>
        if moved (place ar) h1 then stops_at M_LineHit ar h1 h2 else e = false /\ notes h1 h2 []) h1) h.
Proof using Halive Hshell.
  intros Hm Hc Hd Hs Hb Hne Hr Hrc Hbal Hq.
  assert (Hs0 : stepping h) by (split; [right; split; [done|lia]|congruence|done|by rewrite Hb]).
  unfold wp at 1. rewrite run_hooks_app. apply wp_bind. eapply wp_mono; [by apply run_balanced|]. intros e h1 [-> Hr1].
  destruct Hr1 as [(N & HN & FN) E1 E2 E3 E4 E5 E6 E7 E8].
  apply wp_bind. destruct (hook_at_end r h1) as (h2 & Er & H1 & H2 & H3 & H4 & _); [congruence|by rewrite E4, Hb|done|done| |].
  { right. split; [congruence|]. split; [congruence|]. congruence. }
  unfold wp at 1. rewrite Er. apply wp_ret. split; [done|]. unfold notes in H1. rewrite app_nil_r in H1.
  split; [exists N; by split; [unfold notes; rewrite H1, HN|]|]. intros ar Har.
  assert (Hsync : d_stepOverSync h2 = false).
  { rewrite H4, E1, Hc, bool_decide_eq_false_2 by done. simpl. congruence. }
  destruct (moved (place ar) h2) eqn:Hmv.
  - assert (Hend : step_ends (place ar) h2 = true) by (unfold step_ends; by rewrite H2).
    eapply wp_mono; [apply (line_stops ar h2 M_LineHit); try done; try congruence; [by rewrite Hsync|by rewrite Hend]|done].
  - eapply wp_mono; [apply line_passes; [congruence|done|by rewrite Hsync|done]|]. by intros e h3 (-> & ? & _).
Qed.

(** ** Break points *)

Definition row (ar : lua_Debug) : Z := unpackRow cmp (l_line (place ar)).

(** The lines with break points that a run arrives at. *)
Fixpoint hits (breaks : bytes -> gset Z) (cur : bytes * Z) (evs : list lua_Debug) : list (bytes * Z) :=
  match evs with
  | [] => []
  | ar :: evs =>
      match lua_event ar with
      | LUA_HOOKLINE | LUA_HOOKCOUNT =>
          let p := (l_source (place ar), row ar) in
          (if negb (bool_decide (p = cur)) && bool_decide (p.2 ∈ breaks p.1) then [p] else []) ++ hits breaks p evs
      | _ => hits breaks cur evs
      end
  end.

(** What has been notified apart from going on. *)
Definition stopped (N : list (MessageType * bytes * Z)) : list (MessageType * bytes * Z) :=
  filter (fun m => m.1.1 <> M_Continued) N.

Record running (h : DebugHost) : Prop := {
  ru_mode : d_mode h = LineMode;
  ru_cmd : d_dbgCmd h = RunToBreakPoint;
  ru_sync : d_stepOverSync h = false
}.

Context (Hrun : forall s n h, handleBreak s n h = runToBreakPoint h).

Definition at_place (h : DebugHost) : bytes * Z := (d_curScript h, unpackRow cmp (d_curRowCol h)).

Lemma line_running ar h :
  running h -> is_line ar ->
  wp (debugHook cmp ar) (fun e h' => e = false /\ running h' /\ d_breaks h' = d_breaks h /\
    at_place h' = (l_source (place ar), row ar) /\
    exists N, notes h h' N /\ stopped N =
      (if negb (bool_decide ((l_source (place ar), row ar) = at_place h)) && bool_decide (row ar ∈ breaks_of (l_source (place ar)) h)
       then [(M_BreakHit, l_source (place ar), s32 (row ar))] else [])) h.
Proof using Halive Hrun.
  intros [Hm Hc Hs] Hev. match goal with |- wp _ ?Q h => assert (Hline : wp (hook_line cmp (place ar)) Q h) end.
  2: { unfold wp, debugHook, rbind in *. rewrite here_place by congruence. by destruct Hev as [-> | ->]. }
  unfold hook_line. apply wp_bind, wp_mod, wp_bind, wp_line_changed; [intros _; simpl; by rewrite Hs|].
  change (moved (place ar) (set_alive (u32 (d_aliveCount h + 1)) h)) with (moved (place ar) h).
  assert (Hmv : moved (place ar) h = negb (bool_decide ((l_source (place ar), row ar) = at_place h))).
  { unfold moved. rewrite Hm. unfold at_place, row. destruct (Z.eqb_spec (unpackRow cmp (d_curRowCol h)) (unpackRow cmp (l_line (place ar)))) as [E|E]; simpl.
    - f_equal. apply bool_decide_ext. rewrite E. split; [by intros ->|by intros [= ->]].
    - rewrite bool_decide_eq_false_2; [done|]. intros [=]. congruence. }
  rewrite Hmv. apply wp_bind, wp_move_to; [simpl; congruence|]. apply wp_bind, wp_get. unfold id.
  match goal with |- wp _ _ ?x => set (h0 := x) end.
  assert (Hh0 : running h0 /\ d_breaks h0 = d_breaks h /\ at_place h0 = (l_source (place ar), row ar) /\ notes h h0 [])
    by (repeat split; try done; unfold notes; by rewrite app_nil_r).
  destruct Hh0 as (Hr & Hbr & Hat & Hn). rewrite (bool_decide_eq_false_2 (d_mode h0 = PcMode)) by (by rewrite (ru_mode _ Hr)).
  simpl orb. destruct (negb _) eqn:Enew; simpl andb.
  - apply wp_bind, wp_mod, wp_bind, wp_mod, wp_bind.
    assert (Hend : step_ends (place ar) h0 = false) by (unfold step_ends; by rewrite (ru_cmd _ Hr)). rewrite Hend.
    assert (Hgo : forall h1 N, running h1 -> d_breaks h1 = d_breaks h -> at_place h1 = (l_source (place ar), row ar) -> notes h h1 N ->
      wp (h <~ rget id; (if is_abort (d_dbgCmd h) then _ <~ hlua lua_pushnil; rret true
          else _ <~ hnotify M_Continued [] 0; _ <~ rmod (set_sync false); rret false))
        (fun e h' => e = false /\ running h' /\ d_breaks h' = d_breaks h /\ at_place h' = (l_source (place ar), row ar) /\
           exists N', notes h h' N' /\ stopped N' = stopped N) h1).
    { intros h1 N [R1 R2 R3] B1 A1 N1. apply wp_bind, wp_get. unfold id. rewrite R2. simpl. apply wp_bind, wp_hnotify.
      intros b _ _ _ Eb. apply wp_bind, wp_mod, wp_ret. split; [done|]. split; [by split|]. split; [done|]. split; [done|].
      exists (N ++ [(M_Continued, [], 0)]). split; [unfold notes in *; simpl; by rewrite Eb, N1, <- app_assoc|].
      unfold stopped. rewrite filter_app. simpl. by rewrite app_nil_r. }
    assert (Hb : lineForBreak cmp h0 = row ar) by (unfold lineForBreak; by rewrite (ru_mode _ Hr)).
    change (breaks_of (d_curScript h0) h0) with (breaks_of (l_source (place ar)) h). rewrite Hb.
    destruct (decide (row ar ∈ breaks_of (l_source (place ar)) h)) as [Eb|Eb];
      [rewrite !(bool_decide_eq_true_2 _ Eb)|rewrite !(bool_decide_eq_false_2 _ Eb)].
    + apply wp_wait. intros b Nb. apply (wp_mono _ (fun _ h' => running h' /\ d_breaks h' = d_breaks h /\
        at_place h' = (l_source (place ar), row ar) /\ notified (h_base h') = notified b)).
      * match goal with |- wp (if ?c then _ else _) _ _ => destruct c end; [|by apply wp_ret].
        unfold wp. rewrite Hrun. done.
      * intros _ h1 ([R1 R2 R3] & B1 & A1 & N1).
        apply (Hgo (set_wait false h1) [(M_BreakHit, l_source (place ar), s32 (row ar))]); try done.
        unfold notes. simpl. rewrite N1, Nb. unfold lineForNotify. simpl. by rewrite Hm.
    + apply wp_ret. by apply (Hgo _ []).
  - apply wp_bind. apply (wp_mono _ (fun _ h' => running h' /\ d_breaks h' = d_breaks h /\
        at_place h' = (l_source (place ar), row ar) /\ notes h h' [])).
    + destruct ((_ <? _) && _); [|by apply wp_ret]. apply wp_bind. unfold wp at 1. rewrite Halive. by apply wp_mod.
    + intros _ h1 ([R1 R2 R3] & B1 & A1 & N1). apply wp_bind, wp_mod, wp_ret. split; [done|]. split; [by split|].
      split; [done|]. split; [done|]. by exists [].
Qed.

(** [C14] A program that runs to break points, where the shell lets it go on at each:
    whatever events Lua delivers, the debugger stops at the lines with break points, in order, once
    each time a run arrives there from another line, and nowhere else. *)
Theorem break_points_hit (evs : list lua_Debug) h :
  running h -> Forall (fun ar => lua_event ar <> LUA_HOOKTAILRET) evs ->
  wp (run_hooks evs) (fun e h' => e = false /\ exists N, notes h h' N /\
    stopped N = map (fun p => (M_BreakHit, p.1, s32 p.2)) (hits (fun s => breaks_of s h) (at_place h) evs)) h.
Proof using Halive Hrun.
  intros Hr Hev. assert (Hgen : forall B, (forall s, breaks_of s h = B s) ->
    wp (run_hooks evs) (fun e h' => e = false /\ exists N, notes h h' N /\
      stopped N = map (fun p => (M_BreakHit, p.1, s32 p.2)) (hits B (at_place h) evs)) h); [|by apply Hgen].
  intros B HB. revert h Hr HB. induction Hev as [|ar evs Har _ IH]; intros h Hr HB.
  - split; [done|]. exists []. split; [unfold notes; by rewrite app_nil_r|done].
  - cbn [run_hooks]. apply wp_bind.
    assert (Hline : is_line ar ->
      wp (debugHook cmp ar) (fun a : bool => wp (if a then rret true else run_hooks evs) (fun e h' => e = false /\
        exists N, notes h h' N /\ stopped N = map (fun p => (M_BreakHit, p.1, s32 p.2)) (hits B (at_place h) (ar :: evs)))) h).
    { intros Hl. eapply wp_mono; [by apply line_running|]. intros e h1 (-> & R1 & B1 & A1 & N1 & HN1 & HS1).
      eapply wp_mono; [apply IH; [done|intros s; unfold breaks_of; rewrite B1; apply HB]|].
      intros e h2 (-> & N2 & HN2 & HS2). split; [done|]. exists (N1 ++ N2).
      split; [unfold notes in *; by rewrite HN2, HN1, app_assoc|]. unfold stopped in *. rewrite filter_app, HS1, HS2, A1.
      cbn [hits]. destruct Hl as [-> | ->]; simpl; rewrite map_app, <- HB; by destruct (_ && _). }
    destruct (lua_event ar) eqn:Eev; [| |apply Hline; by left|apply Hline; by right|done];
      destruct Hr as [Hm Hc Hs]; unfold wp at 1, debugHook, rbind; rewrite here_place, Eev by congruence;
      unfold hook_call, hook_ret, rbind, rget, id; rewrite Hc; cbn [hits]; rewrite Eev; by apply IH.
Qed.

(** A number of a line that is not packed is in row 0, so no break point at a line is hit. *)
Remark plain_lines_row B cur evs :
  Forall (fun ar => 0 <= l_line (place ar) < 2 ^ colBitLen cmp) evs -> 0 <= colBitLen cmp ->
  Forall (fun p => p.2 = 0) (hits B cur evs).
Proof.
  intros Hev Hc. revert cur. induction Hev as [|ar evs Har _ IH]; intros cur; [done|]. cbn [hits].
  assert (Hr : row ar = 0) by (unfold row, unpackRow; rewrite Z.shiftr_div_pow2 by done; by apply Z.div_small).
  destruct (lua_event ar); [apply IH..| | |apply IH]; (apply Forall_app; split; [|apply IH]); destruct (_ && _); by repeat constructor.
Qed.
End Events.
