(* ===== verification/DebugSafe.v ===== *)
(** * The assertions of the debugger hold

    Whatever the user does in the shell while the program waits: the hooks do not fail an
    assertion, and the program does not wait afterwards. *)

From S2P Require Import Prelude Double Bytecode Composer LuaHost DebugHost DebugSpec.
From Stdlib Require Import Strings.Byte.
Local Open Scope Z_scope.
Local Open Scope rd_scope.

Section Safe.
Context `{L : LuaApi} `{HL : HostLib} `{D : !LuaDbgApi} `{W : !LuaDbgLaws} (cmp : JitComposer).
Abbreviation HM := (SM DebugHost).

(** ** What the user can do

    The mode is set before a program runs. *)

Inductive Command : Type :=
  | C_next (w : DebugCommand) | C_run | C_terminate (silent : bool)
  | C_addBreak (s : bytes) (l : Z) | C_removeBreak (s : bytes) (l : Z) | C_removeAll (s : option bytes)
  | C_level (n : Z) | C_debug (on : bool) | C_alive (on : bool)
  | C_jit (on : bool) | C_shell (on : bool) | C_default (c : DebugCommand).

(** A step is to the next line, over or out. *)
Definition command_ok (c : Command) : Prop := match c with C_next w => is_step w = true | _ => True end.

Definition run_command (c : Command) : HM unit :=
  match c with
  | C_next w => runToNextLine cmp w
  | C_run => runToBreakPoint
  | C_terminate b => terminate b
  | C_addBreak s l => addBreak s l
  | C_removeBreak s l => removeBreak s l
  | C_removeAll s => removeAllBreaks s
  | C_level n => setActiveLevel cmp n
  | C_debug on => setDebug on
  | C_alive on => setAliveSignal on
  | C_jit on => setJit on
  | C_shell on => setDbgShell on
  | C_default c => setDefaultCmd c
  end.

Fixpoint run_commands (l : list Command) : HM unit :=
  match l with [] => rret tt | c :: l => _ <~ run_command c; run_commands l end.

(** ** The invariant *)

(** A step over or out has a function where it began, and Lua runs a function. *)
Record stable (h : DebugHost) : Prop := {
  se_step : d_dbgCmd h = StepOver \/ d_dbgCmd h = StepOut -> (d_stepBreak h).1 <> [];
  se_call : in_call (d_ctx (h_base h))
}.

(** What commands leave alone. *)
Definition same_mode (h h' : DebugHost) : Prop :=
  d_mode h' = d_mode h /\ d_stepOverSync h' = d_stepOverSync h /\ (isWaiting h = false -> isWaiting h' = false).

Lemma same_mode_trans a b c : same_mode a b -> same_mode b c -> same_mode a c.
Proof. intros (E1 & E2 & E3) (F1 & F2 & F3). repeat split; [congruence..|auto]. Qed.

(** A computation that remains the invariant, and does not make the program wait. *)
Definition remains {A} (m : HM A) : Prop :=
  forall h, stable h -> wp m (fun _ h' => stable h' /\ same_mode h h') h.

Lemma remains_ret {A} (x : A) : remains (rret x).
Proof. by intros h Hh. Qed.

Lemma remains_get {A} (f : DebugHost -> A) : remains (rget f).
Proof. by intros h Hh. Qed.

Lemma remains_bind {A B} (m : HM A) (k : A -> HM B) : remains m -> (forall x, remains (k x)) -> remains (rbind m k).
Proof.
  intros Hm Hk h Hh. apply wp_bind. eapply wp_mono; [by apply Hm|]. intros x h1 [H1 W1].
  eapply wp_mono; [by apply Hk|]. intros y h2 [H2 W2]. split; [done|by eapply same_mode_trans].
Qed.

(** A change of members that are no part of the invariant. *)
Lemma remains_mod (f : DebugHost -> DebugHost) :
  (forall h, d_dbgCmd (f h) = d_dbgCmd h /\ d_stepBreak (f h) = d_stepBreak h /\ d_ctx (h_base (f h)) = d_ctx (h_base h) /\
     same_mode h (f h)) -> remains (rmod f).
Proof.
  intros Hf h [H1 H2]. apply wp_mod. destruct (Hf h) as (E1 & E2 & E3 & E4).
  split; [split; [by rewrite E1, E2|by rewrite E3]|done].
Qed.

Lemma remains_cmd c : c <> StepOver -> c <> StepOut -> remains (rmod (set_cmd c)).
Proof. intros H1 H2 h [H3 H4]. apply wp_mod. split; [|done]. split; [|done]. simpl. by intros [-> | ->]. Qed.

Lemma remains_hnotify t v n : remains (hnotify t v n).
Proof.
  intros h [H1 H2]. apply wp_hnotify. intros b E1 _ E2 _. split; [split; [done|simpl; by rewrite E2]|].
  repeat split. unfold isWaiting. simpl. by rewrite E1.
Qed.

Lemma remains_hlua (m : SM lua_State unit) :
  (forall s, exists s', m s = Some (tt, s') /\ (in_call s -> in_call s')) -> remains (hlua m).
Proof.
  intros Hm h [H1 H2]. unfold wp, hlua, base, lua. destruct (Hm (d_ctx (h_base h))) as (s' & -> & Hs).
  split; [split; [done|by apply Hs]|done].
Qed.

Lemma remains_if {A} (b : bool) (m n : HM A) : remains m -> remains n -> remains (if b then m else n).
Proof. by destruct b. Qed.
End Safe.

Ltac keep :=
  repeat first [ assumption | apply remains_ret | apply remains_get | apply remains_hnotify | apply remains_if
    | apply remains_bind; [|intros ?] | (apply remains_cmd; discriminate)
    | (apply remains_mod; intros; repeat split; done) ].

Section Keep.
Context `{L : LuaApi} `{HL : HostLib} `{D : !LuaDbgApi} `{W : !LuaDbgLaws} (cmp : JitComposer).

Lemma remains_sethook f m n : remains (hlua (lua_sethook f m n)).
Proof. apply remains_hlua. intros s. apply l_hook. Qed.

Lemma remains_setDebug on : remains (setDebug on).
Proof. unfold setDebug. keep. destruct on; [|destruct (d_aliveSignal _)]; apply remains_sethook. Qed.

Lemma remains_setAliveSignal on : remains (setAliveSignal on).
Proof. unfold setAliveSignal. keep. destruct on; apply remains_sethook. Qed.

(** A step has a function where it began, unless it begins in C. *)
Lemma remains_runToNextLine w : is_step w = true -> remains (runToNextLine cmp w).
Proof.
  intros Hw h [H1 H2]. unfold runToNextLine. rewrite Hw. simpl negb. cbv iota. apply wp_bind, wp_mod, wp_bind.
  destruct (l_frame _ H2) as (ar & Har & Hsrc).
  assert (Hend : forall w h', (d_stepBreak h').1 <> [] \/ w = StepNext -> d_ctx (h_base h') = d_ctx (h_base h) ->
    d_mode h' = d_mode h -> d_stepOverSync h' = d_stepOverSync h ->
    wp (_ <~ rmod (set_cmd w); _ <~ rmod (set_wait false); rmod (set_depth 0))
      (fun _ h' => stable h' /\ same_mode h h') h').
  { intros w' h' Hb E1 E2 E3. apply wp_bind, wp_mod, wp_bind, wp_mod, wp_mod. split; [|done]. split; simpl; [|by rewrite E1].
    intros [-> | ->]; by destruct Hb. }
  destruct (bool_decide (w = StepOver \/ w = StepOut)) eqn:Es.
  - apply wp_bind. unfold wp at 1. rewrite (here_frame cmp None ar) by done. destruct (l_inC _).
    + apply wp_ret, Hend; [by right|done..].
    + apply wp_bind, wp_mod, wp_bind, wp_mod, wp_ret, Hend; [left; apply Hsrc|done..].
  - apply wp_ret, Hend; try done. right. apply bool_decide_eq_false in Es. destruct w; try done; exfalso; auto.
Qed.

Lemma remains_run_command c : command_ok c -> remains (run_command cmp c).
Proof.
  intros Hc. destruct c; simpl.
  - by apply remains_runToNextLine.
  - unfold runToBreakPoint. keep.
  - unfold terminate. keep. apply remains_cmd; by destruct silent.
  - unfold addBreak. keep.
  - unfold removeBreak. keep.
  - unfold removeAllBreaks. keep. destruct s; keep.
  - unfold setActiveLevel. keep.
  - apply remains_setDebug.
  - apply remains_setAliveSignal.
  - unfold setJit. apply remains_hlua. intros s. apply l_jit.
  - unfold setDbgShell. keep.
  - unfold setDefaultCmd. keep.
Qed.

Lemma remains_run_commands l : Forall command_ok l -> remains (run_commands cmp l).
Proof.
  induction 1 as [|c l Hc _ IH]; [apply remains_ret|]. simpl. apply remains_bind; [by apply remains_run_command|done].
Qed.
End Keep.

(** ** The hooks *)

Section Hooks.
Context `{L : LuaApi} `{HL : HostLib} `{D : !LuaDbgApi} `{W : !LuaDbgLaws} (cmp : JitComposer) `{S : !DbgShell}.

(** The shell runs commands of the user. *)
Context (Hbreak : forall s n h, exists l, Forall command_ok l /\ handleBreak s n h = run_commands cmp l h).
Context (Halive : forall h, exists l, Forall command_ok l /\ handleAliveSignal h = run_commands cmp l h).

Lemma remains_handleBreak s n : remains (handleBreak s n).
Proof using Hbreak. intros h Hh. destruct (Hbreak s n h) as (l & Hl & E). unfold wp. rewrite E. by apply (remains_run_commands cmp l Hl). Qed.

Lemma remains_handleAlive : remains handleAliveSignal.
Proof using Halive. intros h Hh. destruct (Halive h) as (l & Hl & E). unfold wp. rewrite E. by apply (remains_run_commands cmp l Hl). Qed.

(** In the mode of lines, with columns in the numbers of lines, a call that has been stepped over is
    taken up again at the next line. *)
Definition resumes (h : DebugHost) : Prop := d_mode h = LineMode /\ isRowCol cmp = true /\ d_stepOverSync h = true.

Record settled (h : DebugHost) : Prop := {
  se_stable : stable h;
  se_sync : resumes h -> d_stepCallDepth h = 0 /\ (d_stepBreak h).1 <> [] /\ d_dbgCmd h <> StepOver /\ d_dbgCmd h <> StepOut
}.

(** What Lua delivers: there is no event at the return from C; and the number of the instruction
    and the line of the function fit. *)
Record valid (ar : lua_Debug) : Prop := {
  va_event : lua_event ar <> LUA_HOOKTAILRET;
  va_ret pc : lua_event ar = LUA_HOOKRET -> l_inC (level_of 0 (dbg_info pc ar)) = false;
  va_pc : packDeflinePc (unpackRow cmp (l_lineDefined (level_of 0 (dbg_info true ar)))) (u16 (l_line (level_of 0 (dbg_info true ar)))) <> None
}.

Abbreviation good h := (fun h' => settled h' /\ (isWaiting h = false -> isWaiting h' = false)).

Lemma remains_wait t line : forall h, stable h ->
  wp (wait_in_shell cmp t line) (fun _ h' => stable h' /\ d_mode h' = d_mode h /\ d_stepOverSync h' = d_stepOverSync h /\ isWaiting h' = false) h.
Proof using Hbreak.
  intros h Hh. apply wp_bind, wp_mod, wp_bind, wp_mod, wp_bind, wp_get, wp_bind.
  eapply wp_mono; [apply remains_hnotify; by destruct Hh; split|]. intros [] h1 (H1 & M1 & M2 & _). apply wp_bind.
  assert (Hk : remains (in_shell (handleBreak (d_curScript (set_hit true (set_wait true h))) line))).
  { unfold in_shell. apply remains_bind; [apply remains_get|]. intros x. apply remains_if; [apply remains_handleBreak|apply remains_ret]. }
  eapply wp_mono; [by apply Hk|]. intros [] h2 ([E1 E2] & M3 & M4 & _). apply wp_mod. simpl in *.
  repeat split; try done; congruence.
Qed.

Lemma hook_line_good l : forall h, settled h ->
  (d_mode h = PcMode -> packDeflinePc (unpackRow cmp (l_lineDefined l)) (u16 (l_line l)) <> None) ->
  wp (hook_line cmp l) (fun _ => good h) h.
Proof using Hbreak Halive.
  intros h [Hst Hsy] Hpc. unfold hook_line. apply wp_bind, wp_mod, wp_bind.
  (* the step is taken up *)
  apply (wp_mono _ (fun changed h1 => stable h1 /\ same_mode h h1 /\ (resumes h -> changed = false))).
  { unfold wp, line_changed, rbind, rget, id. simpl. destruct (d_mode h) eqn:Em.
    - destruct (d_stepOverSync h && (d_stepCallDepth h =? 0) && isRowCol cmp) eqn:E.
      + apply andb_true_iff in E as [E E3]. apply andb_true_iff in E as [E1 E2].
        destruct Hsy as (_ & Hb & _); [by repeat split|]. destruct Hst as [_ Hc]. simpl. by repeat split.
      + split; [by destruct Hst|]. split; [done|]. intros (_ & R2 & R3). exfalso.
        destruct Hsy as (Hd & _); [by repeat split|]. by rewrite R2, R3, Hd in E.
    - split; [by destruct Hst|]. split; [done|]. intros (R & _). congruence.
    - split; [by destruct Hst|]. split; [done|]. intros (R & _). congruence. }
  intros changed h1 (Hst1 & (M1 & M2 & M3) & Hch). apply wp_bind.
  apply (wp_mono _ (fun _ h2 => stable h2 /\ same_mode h h2)).
  { unfold wp, move_to, rbind, rget, id. case_bool_decide as Em.
    - destruct (packDeflinePc _ _); [|by apply Hpc; congruence]. simpl. destruct Hst1. by repeat split.
    - simpl. destruct Hst1. by repeat split. }
  intros _ h2 (Hst2 & (N1 & N2 & N3)). apply wp_bind, wp_get. unfold id.
  assert (Hfree : forall h', stable h' -> d_stepOverSync h' = false -> settled h').
  { intros h' Hs' Hf. split; [done|]. intros (_ & _ & R). congruence. }
  destruct (bool_decide (d_mode h2 = PcMode) || changed) eqn:Estop.
  - assert (Hno : resumes h -> False).
    { intros R. rewrite (Hch R) in Estop. destruct R as [R _]. rewrite N1, R in Estop. done. }
    apply wp_bind, wp_mod, wp_bind, wp_mod, wp_bind. set (h3 := set_level 0 _).
    apply (wp_mono _ (fun _ h' => stable h' /\ same_mode h h')).
    + assert (Hst3 : stable h3) by (by destruct Hst2; split).
      assert (Hw : forall t line, wp (wait_in_shell cmp t line) (fun _ h' => stable h' /\ same_mode h h') h3).
      { intros t line. eapply wp_mono; [by apply remains_wait|]. intros _ h' (? & E1 & E2 & E3). split; [done|].
        repeat split; [rewrite E1; apply N1|rewrite E2; apply N2|done]. }
      destruct (step_ends l h2); [apply Hw|]. destruct (bool_decide (_ ∈ _)); [apply Hw|]. by apply wp_ret.
    + intros _ h4 (Hst4 & (O1 & O2 & O3)). apply wp_bind, wp_get. unfold id. destruct (is_abort _).
      * apply wp_bind. eapply wp_mono; [apply remains_hlua; [apply l_nil|done]|]. intros [] h5 (Hst5 & P1 & P2 & P3).
        apply wp_ret. split; [|auto]. split; [done|]. intros (R1 & R2 & R3). exfalso. apply Hno. repeat split; [congruence|done|congruence].
      * apply wp_bind. eapply wp_mono; [by apply remains_hnotify|]. intros [] h5 (Hst5 & P1 & P2 & P3).
        apply wp_bind, wp_mod, wp_ret. split; [|auto]. apply Hfree; [by destruct Hst5; split|done].
  - apply wp_bind. apply (wp_mono _ (fun _ h' => stable h' /\ same_mode h h')).
    + destruct (_ && _); [|by apply wp_ret]. apply wp_bind. eapply wp_mono; [by apply remains_handleAlive|].
      intros [] h5 (Hst5 & P1 & P2 & P3). apply wp_mod. split; [by destruct Hst5; split|]. repeat split; simpl; [congruence..|auto].
    + intros _ h5 (Hst5 & P1 & P2 & P3). apply wp_bind, wp_mod, wp_ret. split; [|auto]. apply Hfree; [by destruct Hst5; split|done].
Qed.

Lemma debugHook_good ar h : settled h -> valid ar -> wp (debugHook cmp ar) (fun _ => good h) h.
Proof using Hbreak Halive.
  intros Hh [Hev Hret Hpc]. unfold debugHook. apply wp_bind. unfold wp at 1. rewrite (here_frame cmp (Some ar) ar) by done.
  destruct Hh as [[Hs Hc] Hy]. destruct (lua_event ar) eqn:E; [| | | |done].
  - apply wp_bind. unfold hook_call. apply wp_bind, wp_get. unfold id. destruct (bool_decide _ && _) eqn:Eb; [|by apply wp_ret].
    apply wp_mod, wp_ret. split; [|done]. split; [done|]. intros R. exfalso. destruct (Hy R) as (_ & _ & H1 & H2).
    apply andb_true_iff in Eb as [Eb _]. apply bool_decide_eq_true_1 in Eb as [?|?]; done.
  - apply wp_bind. unfold hook_ret. apply wp_bind, wp_get. unfold id. case_bool_decide as Eb; [|by apply wp_ret].
    assert (Hb : (d_stepBreak h).1 <> []) by (apply Hs; destruct Eb; auto).
    assert (Hc' : l_inC (level_in h ar) = false) by (by apply Hret).
    rewrite Hc', (bool_decide_eq_false_2 (_ = [])) by done. simpl orb. cbv iota zeta. apply wp_bind, wp_mod.
    assert (Hn : resumes h -> False) by (intros R; destruct (Hy R) as (_ & _ & ? & ?); by destruct Eb).
    destruct (_ && _); [|destruct (_ && _) eqn:E2].
    + apply wp_mod, wp_ret. split; [|done]. split; [split; [|done]|]; simpl; [by intros [|]|]. intros R. by exfalso.
    + apply andb_true_iff in E2 as [_ E2]. apply Z.eqb_eq in E2. apply wp_bind, wp_mod, wp_bind, wp_mod, wp_mod, wp_ret. split; [|done].
      split; [split; [|done]|]; simpl; [by intros [|]|]. intros _. by repeat split.
    + apply wp_ret, wp_ret. split; [|done]. split; [by split|]. intros R. by exfalso.
  - apply hook_line_good; [split; [by split|done]|]. intros Em. unfold level_in. by rewrite bool_decide_eq_true_2.
  - apply hook_line_good; [split; [by split|done]|]. intros Em. unfold level_in. by rewrite bool_decide_eq_true_2.
Qed.

End Hooks.
