(* ===== verification/HostRun.v ===== *)
(** * Running functions and libraries in the host

    What [Engine2.h/.cpp] does to compile and run texts: libraries, preloads, and the call of
    a function with its results and errors.  While a function runs, Lua calls back the hooks
    and the functions of the host. *)

From S2P Require Import Prelude Double Bytecode Composer LuaHost DebugHost.
From Stdlib Require Import Strings.Byte.
Local Open Scope Z_scope.
Local Open Scope rd_scope.

(** What [lua_pcall] and the loading functions return. *)
Inductive LuaStatus : Type := LUA_OK | LUA_ERRRUN | LUA_ERRSYNTAX | LUA_ERRMEM | LUA_ERRERR | LUA_ERRFILE.
#[export] Instance LuaStatus_eq_dec : EqDecision LuaStatus.
Proof. solve_decision. Defined.

(** The functions in C that are made known to Lua; [CF_open] opens a library. *)
Inductive CFunction : Type :=
  | CF_print | CF_dbgout | CF_prettyTraceLoc | CF_ErrHandler | CF_doPreload | CF_writeStdout | CF_writeStderr | CF_flush
  | CF_open (lib : bytes).

(** [None] is [LUA_MULTRET] where a number of results is expected. *)
Class LuaRunApi `{LuaDbgApi} := {
  lua_pushcfunction : CFunction -> SM lua_State unit;
  lua_insert : Z -> SM lua_State unit;
  lua_pushvalue : Z -> SM lua_State unit;
  lua_createtable : Z -> Z -> SM lua_State unit;
  lua_getfield : Z -> bytes -> SM lua_State unit;
  lua_setfield : Z -> bytes -> SM lua_State unit;
  lua_rawset : Z -> SM lua_State unit;
  lua_call : Z -> option Z -> SM lua_State unit;
  luaL_loadbuffer : bytes -> bytes -> SM lua_State LuaStatus;
  luaL_loadfile : bytes -> SM lua_State LuaStatus;
  lua_gc_collect : SM lua_State unit;
  lua_open : option lua_State
}.

(** [src/Engine2.h:57-58] Lib *)
Inductive Lib : Type := BASE | REMOVE_LOADS | PACKAGE | TABLE | STRING | MATH | OS | IO | LOAD | DBG | BIT | JIT | FFI.

Section Run.
Context `{L : LuaApi} `{HL : HostLib} `{D : !LuaDbgApi} `{R : !LuaRunApi}.
Abbreviation HM := (SM DebugHost).

(** A protected call: Lua runs the function, and calls back. *)
Class LuaRunner := lua_pcall : Z -> option Z -> Z -> HM LuaStatus.
Context `{P : LuaRunner}.

Definition lua_getglobal (name : bytes) : SM lua_State unit := lua_getfield LUA_GLOBALSINDEX name.
Definition lua_setglobal (name : bytes) : SM lua_State unit := lua_setfield LUA_GLOBALSINDEX name.

(** [src/Engine2.cpp:1376-1379] error *)
Definition herror (str : bytes) : HM unit := base (host_error str).

(** The text on top of the stack. *)
Definition top_text : HM bytes := s <~ hlua (lua_tostring (-1)); rret (text_of s).

(** ** Libraries *)

(** The library and its name; the standard library itself has none.
    [src/Engine2.cpp:306-321] addLibrary *)
Definition open_library (lib : bytes) : SM lua_State unit :=
  _ <~ lua_pushcfunction (CF_open lib); _ <~ lua_pushstring lib; lua_call 1 (Some 0).

(** [stdout] or [stderr] of the library for input and output.
    [src/Engine2.cpp:365-374] addLibrary *)
Definition redirect (f : CFunction) (name : bytes) : SM lua_State unit :=
  _ <~ lua_createtable 0 1;
  _ <~ lua_pushcfunction f;
  _ <~ lua_setfield (-2) (qb "write");
  _ <~ lua_pushcfunction CF_flush;
  _ <~ lua_setfield (-2) (qb "flush");
  _ <~ lua_getglobal (qb "io");
  _ <~ lua_pushvalue (-2);
  _ <~ lua_setfield (-2) name;
  lua_pop 2.

(** [src/Engine2.cpp:337-346] addLibrary *)
Definition remove_global (name : bytes) : SM lua_State unit := _ <~ lua_pushnil; lua_setglobal name.

(** [src/Engine2.cpp:300-404] addLibrary *)
Definition addLibrary (what : Lib) : HM unit :=
  h <~ rget id;
  if d_running h then rret tt
  else hlua match what with
    | BIT => open_library (qb "bit")
    | JIT => open_library (qb "jit")
    | FFI => open_library (qb "ffi")
    | PACKAGE => open_library (qb "package")
    | BASE => open_library []
    | REMOVE_LOADS =>
        _ <~ remove_global (qb "dofile"); _ <~ remove_global (qb "loadfile");
        _ <~ remove_global (qb "load"); remove_global (qb "loadstring")
    | TABLE => open_library (qb "table")
    | STRING => open_library (qb "string")
    | MATH => open_library (qb "math")
    | IO => _ <~ open_library (qb "io"); _ <~ redirect CF_writeStdout (qb "stdout"); redirect CF_writeStderr (qb "stderr")
    | OS => open_library (qb "os")
    | DBG => open_library (qb "debug")
    | LOAD => rret tt
    end.

(** [src/Engine2.cpp:246-251] addStdLibs *)
Definition addStdLibs : HM unit := _ <~ addLibrary TABLE; _ <~ addLibrary STRING; addLibrary MATH.

(** [src/Engine2.cpp:276-284] restart *)
Definition add_function (f : CFunction) (name : bytes) : SM lua_State unit := _ <~ lua_pushcfunction f; lua_setglobal name.

(** The context is closed and opened again.  Without memory for a new one the context is
    null, and the next call of Lua fails.
    [src/Engine2.cpp:253-298] restart *)
Definition restart : HM bool :=
  h <~ rget id;
  if d_running h then rret false
  else
    match lua_open with
    | None => rfail
    | Some ctx =>
        _ <~ rmod (fun h => set_base (set_ctx ctx (h_base h)) h);
        _ <~ addLibrary BASE;
        _ <~ hlua (add_function CF_print (qb "print"));
        _ <~ hlua (add_function CF_dbgout (qb "dbgout"));
        _ <~ hlua (add_function CF_prettyTraceLoc (qb "_prettyTraceLoc"));
        _ <~ (if d_debugging h then _ <~ rmod (set_debugging false); setDebug true else rret tt);
        _ <~ (if d_aliveSignal h then _ <~ rmod (set_aliveSignal false); setAliveSignal true else rret tt);
        rret true
    end.

(** [src/Engine2.cpp:682-686] collect *)
Definition collect : HM unit := hlua lua_gc_collect.

(** ** Functions *)

(** [src/Engine2.cpp:406-423] pushFunction *)
Definition pushFunction (source name : bytes) : HM bool :=
  _ <~ rmod (set_lastError []);
  status <~ hlua (luaL_loadbuffer source name);
  match status with
  | LUA_ERRSYNTAX | LUA_ERRMEM =>
      s <~ top_text;
      _ <~ rmod (set_lastError s);
      _ <~ hlua (lua_pop 1);
      rret false
  | _ => rret true
  end.

(** [src/Engine2.cpp:580-582] runFunction *)
Fixpoint take_returns (n : nat) (i : Z) : HM unit :=
  match n with
  | O => rret tt
  | S n =>
      s <~ base (getValueString i true);
      _ <~ rmod (fun h => set_returns (d_returns h ++ [s]) h);
      take_returns n (i + 1)
  end.

(** The results of the call, the error handler below them.
    [src/Engine2.cpp:577-588] runFunction *)
Definition finish (preTop nargs : Z) : HM bool :=
  let preTop := preTop - 1 - nargs in
  postTop <~ hlook lua_gettop;
  _ <~ take_returns (Z.to_nat (postTop - preTop)) (preTop + 1);
  _ <~ (if postTop - preTop =? 0 then rret tt else hlua (lua_pop (postTop - preTop)));
  _ <~ hlua (lua_pop 1);
  _ <~ notifyEnd;
  rret true.

(** [src/Engine2.cpp:567-575] runFunction *)
Definition end_with (msg : bytes) : HM bool := _ <~ rmod (set_lastError msg); _ <~ notifyEnd; rret false.

(** The message of the error, and the handler below it, are taken from the stack.
    [src/Engine2.cpp:555-566] runFunction *)
Definition report_error : HM bool :=
  h <~ rget id;
  msg <~ (if bool_decide (d_dbgCmd h = Abort) then rret (qb "Execution terminated by user") else top_text);
  _ <~ rmod (set_lastError msg);
  _ <~ hlua (lua_pop 1);
  _ <~ hlua (lua_pop 1);
  _ <~ notifyEnd;
  rret false.

(** [src/Engine2.cpp:522-589] runFunction *)
Definition runFunction (nargs : Z) (nresults : option Z) : HM bool :=
  h <~ rget id;
  if d_running h then _ <~ hlua (lua_pop (1 + nargs)); rret false
  else
    preTop <~ hlook lua_gettop;
    if isWaiting h then
      _ <~ rmod (set_lastError (qb "Cannot run another Lua function while script is waiting in debugger!"));
      _ <~ hlua (lua_pop (nargs + 1));
      top <~ hlook lua_gettop;
      if bool_decide (nresults = None) || (top =? preTop - nargs - 1) then rret false else rfail
    else
      let errf := preTop - nargs in
      _ <~ hlua (lua_pushcfunction CF_ErrHandler);
      _ <~ hlua (lua_insert errf);
      preTop <~ hlook lua_gettop;
      _ <~ rmod (set_lastError []);
      _ <~ rmod (fun h => set_cmd (d_defaultDbgCmd h) h);
      _ <~ rmod (set_returns []);
      _ <~ notifyStart;
      err <~ lua_pcall nargs nresults errf;
      h <~ rget id;
      match err with
      | LUA_ERRRUN =>
          if bool_decide (d_dbgCmd h = AbortSilently) then finish preTop nargs
          else report_error
      | LUA_ERRMEM => end_with (qb "Lua memory exception")
      | LUA_ERRERR => end_with (qb "Lua unknown error")
      | _ => finish preTop nargs
      end.

(** A message, and [false]. *)
Definition refuse : HM bool := h <~ rget id; _ <~ herror (d_lastError h); rret false.

Definition run_pushed : HM bool :=
  res <~ runFunction 0 None;
  if (res : bool) then rret true else refuse.

(** [src/Engine2.cpp:471-491] executeCmd *)
Definition executeCmd (source name : bytes) : HM bool :=
  h <~ rget id;
  if d_running h then
    _ <~ rmod (set_lastError (qb "Cannot run commands while another script is running!")); refuse
  else
    _ <~ rmod (set_lastError []);
    _ <~ rmod (set_wait false);
    _ <~ rmod (set_alive 0);
    ok <~ pushFunction source name;
    if (ok : bool) then run_pushed else refuse.

(** [src/Engine2.cpp:493-520] executeFile *)
Definition executeFile (path : bytes) : HM bool :=
  h <~ rget id;
  if d_running h then
    _ <~ rmod (set_lastError (qb "Cannot run script while another script is running!")); refuse
  else
    _ <~ rmod (set_lastError []);
    _ <~ rmod (set_wait false);
    _ <~ rmod (set_alive 0);
    status <~ hlua (luaL_loadfile path);
    match status with
    | LUA_ERRFILE | LUA_ERRSYNTAX | LUA_ERRMEM =>
        s <~ top_text;
        _ <~ rmod (set_lastError s);
        _ <~ hlua (lua_pop 1);
        refuse
    | _ => run_pushed
    end.

(** ** Libraries from texts *)

(** The library on top of the stack becomes a global variable and an entry of [package.loaded].
    [src/Engine2.cpp:631-642] addSourceLib *)
Definition register_lib (libname : bytes) : SM lua_State unit :=
  _ <~ lua_pushvalue (-1);
  _ <~ lua_setfield LUA_GLOBALSINDEX libname;
  _ <~ lua_getfield LUA_GLOBALSINDEX (qb "package");
  _ <~ lua_getfield (-1) (qb "loaded");
  _ <~ lua_pushvalue (-3);
  _ <~ lua_setfield (-2) libname;
  _ <~ lua_pop 3;
  lua_pop 1.

(** [src/Engine2.cpp:591-650] addSourceLib *)
Definition addSourceLib (source libname : bytes) : HM bool :=
  h <~ rget id;
  if isWaiting h then
    _ <~ rmod (set_lastError (qb "Cannot run another Lua function while script is waiting in debugger!")); rret false
  else
    prestack <~ hlook lua_gettop;
    _ <~ hlua (lua_pushcfunction CF_ErrHandler);
    errf <~ hlook lua_gettop;
    _ <~ rmod (set_lastError []);
    _ <~ rmod (set_returns []);
    ok <~ pushFunction source libname;
    if negb (ok : bool) then rret false
    else
      _ <~ rmod (fun h => set_cmd (d_defaultDbgCmd h) h);
      _ <~ rmod (set_alive 0);
      _ <~ notifyStart;
      err <~ lua_pcall 0 (Some 1) errf;
      match err with
      | LUA_ERRRUN =>
          msg <~ top_text;
          _ <~ rmod (set_lastError msg);
          _ <~ hlua (lua_pop 1);
          _ <~ hlua (lua_pop 1);
          stack <~ hlook lua_gettop;
          if negb (prestack =? stack) then rfail
          else _ <~ notifyEnd; rret false
      | LUA_ERRMEM => end_with (qb "Lua memory exception")
      | LUA_ERRERR => end_with (qb "Lua unknown error")
      | _ =>
          _ <~ hlua (register_lib libname);
          stack <~ hlook lua_gettop;
          if negb (prestack =? stack) then rfail
          else _ <~ notifyEnd; rret true
      end.

(** [preloads] is static; the loader for the name is entered, and what an earlier run has
    loaded is removed.
    [src/Engine2.cpp:662-677] addPreloadLib *)
Definition enter_preload (libname : bytes) : SM lua_State unit :=
  _ <~ lua_getfield LUA_GLOBALSINDEX (qb "package");
  _ <~ lua_getfield (-1) (qb "preload");
  preload <~ rget lua_gettop;
  _ <~ lua_pushstring libname;
  _ <~ lua_pushcfunction CF_doPreload;
  _ <~ lua_rawset preload;
  _ <~ lua_pop 1;
  _ <~ lua_getfield (-1) (qb "loaded");
  loaded <~ rget lua_gettop;
  _ <~ lua_pushnil;
  _ <~ lua_setfield loaded libname;
  lua_pop 2.

(** The static [preloads] is given and returned.
    [src/Engine2.cpp:652-680] addPreloadLib *)
Definition addPreloadLib (preloads : gmap bytes bytes) (source libname : bytes) : HM (gmap bytes bytes * bool) :=
  h <~ rget id;
  if isWaiting h then
    _ <~ rmod (set_lastError (qb "Cannot run another Lua function while script is waiting in debugger!"));
    rret (preloads, false)
  else
    _ <~ hlua (enter_preload libname);
    rret (<[libname := source]> preloads, true).

(** The loader: [false] where an error is raised.
    [src/Engine2.cpp:141-156] doPreload *)
Definition doPreload (preloads : gmap bytes bytes) : SM lua_State bool :=
  name <~ lua_tostring (-1);
  match preloads !! text_of name with
  | Some source =>
      status <~ luaL_loadbuffer source (text_of name);
      if bool_decide (status = LUA_OK) then _ <~ lua_call 0 (Some 1); rret true else rret false
  | None => _ <~ lua_pushnil; rret true
  end.

(** The texts of the arguments, [None] where [tostring] does not give one.
    [src/Engine2.cpp:50-63] _print *)
Fixpoint print_args (n : nat) (i : Z) (val1 : bytes) : SM lua_State (option bytes) :=
  match n with
  | O => rret (Some val1)
  | S n =>
      _ <~ lua_pushvalue (-1);
      _ <~ lua_pushvalue i;
      _ <~ lua_call 1 (Some 1);
      s <~ lua_tostring (-1);
      match s with
      | None => rret None
      | Some s =>
          _ <~ lua_pop 1;
          print_args n (i + 1) ((if 1 <? i then val1 ++ [x09] else val1) ++ s)
      end
  end.

(** [print] of Lua: [false] where an error is raised.
    [src/Engine2.cpp:41-77] _print *)
Definition print_ : HM bool :=
  n <~ hlook lua_gettop;
  _ <~ hlua (lua_getglobal (qb "tostring"));
  r <~ hlua (print_args (Z.to_nat n) 1 []);
  match r with
  | None => rret false
  | Some val1 =>
      _ <~ hnotify M_Print (if bool_decide (last val1 = Some x0a) then val1 else val1 ++ [x0a]) 0;
      rret true
  end.
End Run.
