(* ===== verification/HostRunSpec.v ===== *)
(** * Running a function leaves the host as it was

    The stack of Lua, the flags and the notifications around a protected call, for each of
    its outcomes. *)

From S2P Require Import Prelude Double Bytecode Composer LuaHost DebugHost HostRun.
From Stdlib Require Import Strings.Byte.
Local Open Scope Z_scope.
Local Open Scope rd_scope.

(** What Lua documents of the height of the stack. *)
Class LuaStackLaws `{L : LuaApi} `{D : !LuaDbgApi} `{R : !LuaRunApi} : Prop := {
  t_height s : 0 <= lua_gettop s;
  t_pushc f s : exists s', lua_pushcfunction f s = Some (tt, s') /\ lua_gettop s' = lua_gettop s + 1;
  t_insert i s : exists s', lua_insert i s = Some (tt, s') /\ lua_gettop s' = lua_gettop s;
  t_pop n s : 0 <= n <= lua_gettop s -> exists s', lua_pop n s = Some (tt, s') /\ lua_gettop s' = lua_gettop s - n;
  t_tostring i s : exists r s', lua_tostring i s = Some (r, s') /\ lua_gettop s' = lua_gettop s;
  t_load source name s : exists st s', luaL_loadbuffer source name s = Some (st, s') /\ lua_gettop s' = lua_gettop s + 1
}.

Section Run.
Context `{L : LuaApi} `{HL : HostLib} `{D : !LuaDbgApi} `{R : !LuaRunApi} `{T : !LuaStackLaws} `{P : !LuaRunner}.
Abbreviation HM := (SM DebugHost).

Definition height (h : DebugHost) : Z := lua_gettop (d_ctx (h_base h)).

(** The function and its arguments are replaced by its results, or by a message. *)
Context (Hcall : forall nargs nresults errf h, 0 <= nargs -> nargs + 1 <= height h ->
  exists st h', lua_pcall nargs nresults errf h = Some (st, h') /\ st ∈ [LUA_OK; LUA_ERRRUN; LUA_ERRMEM; LUA_ERRERR] /\
    (if bool_decide (st = LUA_OK) then height h - nargs - 1 <= height h' else height h' = height h - nargs)).

(** ** Calls of Lua *)

(** A computation that only works on the stack, and changes its height by [n]. *)
Definition moves {A} (n : Z) (m : HM A) : Prop := forall h, 0 <= height h + n ->
  wp m (fun _ h' => height h' = height h + n /\ exists c, h' = set_base (set_ctx c (h_base h)) h) h.

Lemma moves_hlua {A} n (m : SM lua_State A) :
  (forall s, 0 <= lua_gettop s + n -> exists x s', m s = Some (x, s') /\ lua_gettop s' = lua_gettop s + n) -> moves n (hlua m).
Proof.
  intros Hm h Hh. unfold wp, hlua, base, lua. destruct (Hm _ Hh) as (x & s' & -> & Hs). split; [done|]. by exists s'.
Qed.

Lemma moves_pop n : 0 <= n -> moves (- n) (hlua (lua_pop n)).
Proof using T.
  intros Hn. apply moves_hlua. intros s Hs. destruct (t_pop n s) as (s' & E & Hs'); [lia|]. exists tt, s'. split; [done|lia].
Qed.

Lemma moves_pop1 : moves (-1) (hlua (lua_pop 1)).
Proof using T. exact (moves_pop 1 ltac:(lia)). Qed.

Lemma moves_pushc f : moves 1 (hlua (lua_pushcfunction f)).
Proof using T. apply moves_hlua. intros s _. destruct (t_pushc f s) as (s' & E & Hs'). by exists tt, s'. Qed.

Lemma moves_insert i : moves 0 (hlua (lua_insert i)).
Proof using T. apply moves_hlua. intros s _. destruct (t_insert i s) as (s' & E & Hs'). exists tt, s'. split; [done|lia]. Qed.

Lemma moves_top_text : moves 0 top_text.
Proof using T.
  intros h Hh. unfold top_text. apply wp_bind. eapply wp_mono.
  - apply (moves_hlua 0); [|exact Hh]. intros s _. destruct (t_tostring (-1) s) as (r & s' & E & Hs'). exists r, s'. split; [done|lia].
  - intros r h' H. by apply wp_ret.
Qed.

Lemma moves_getValueString i b : moves 0 (base (getValueString i b)).
Proof using T.
  intros h Hh. assert (Hh' : height h + 0 = height h) by lia. rewrite Hh' in *.
  assert (Hself : exists c, set_base (h_base h) h = set_base (set_ctx c (h_base h)) h).
  { exists (d_ctx (h_base h)). by destruct h as [[]]. }
  unfold wp, base, getValueString, rbind, look, lua, rget, rret.
  destruct (lua_type i (d_ctx (h_base h))); try (destruct b); try (split; [done|exact Hself]).
  all: destruct (t_tostring i (d_ctx (h_base h))) as (r & s' & -> & Hs'); (split; [exact Hs'|by eexists]).
Qed.

(** ** The end of a call *)

(** The end of a run, from the state [h] behind the call on. *)
Definition ended (ok : bool) (h : DebugHost) (top : Z) (b : bool) (h' : DebugHost) : Prop :=
  b = ok /\ d_running h' = false /\ d_dbgCmd h' = d_dbgCmd h /\ height h' = top /\
  notified (h_base h') = notified (h_base h) ++ [(if is_abort (d_dbgCmd h) then M_Aborted else M_Finished, [], 0)].

Lemma wp_notifyEnd ok (h : DebugHost) :
  wp (_ <~ notifyEnd; rret ok) (fun b h' => ended ok h (height h) b h' /\ d_lastError h' = d_lastError h) h.
Proof using Type. unfold notifyEnd, hnotify, base, notify. by repeat split. Qed.

Lemma wp_end_with msg (h : DebugHost) : wp (end_with msg) (fun b h' => ended false h (height h) b h') h.
Proof using Type. unfold end_with, notifyEnd, hnotify, base, notify. by repeat split. Qed.

(** Nothing but the stack and the results is changed. *)
Definition only_stack (h h' : DebugHost) : Prop :=
  d_dbgCmd h' = d_dbgCmd h /\ notified (h_base h') = notified (h_base h) /\ d_lastError h' = d_lastError h.

Lemma only_stack_trans a b c : only_stack a b -> only_stack b c -> only_stack a c.
Proof using Type. intros (E1 & E2 & E3) (F1 & F2 & F3). by repeat split; congruence. Qed.

Lemma wp_moves {A} n (m : HM A) h : moves n m -> 0 <= height h + n ->
  wp m (fun _ h' => height h' = height h + n /\ only_stack h h') h.
Proof using Type. intros Hm Hh. eapply wp_mono; [by apply Hm|]. intros _ h' (E & c & ->). by repeat split. Qed.

Lemma wp_take_returns n i h : wp (take_returns n i) (fun _ h' => height h' = height h /\ only_stack h h') h.
Proof using T.
  revert i h. induction n as [|n IH]; intros i h; [by repeat split|]. simpl. apply wp_bind.
  pose proof (t_height (d_ctx (h_base h))) as Hp.
  eapply wp_mono; [apply (wp_moves 0); [apply moves_getValueString|unfold height; lia]|]. intros s h1 [E1 H1].
  apply wp_bind, wp_mod. eapply wp_mono; [apply IH|]. intros _ h2 [E2 H2]. split.
  - rewrite E2. unfold height in *. simpl. lia.
  - eapply only_stack_trans; [exact H1|]. exact H2.
Qed.

Lemma wp_finish preTop nargs h : 1 <= preTop - 1 - nargs <= height h ->
  wp (finish preTop nargs) (fun b h' => ended true h (preTop - 2 - nargs) b h') h.
Proof using T.
  intros Hh. unfold finish. apply wp_bind, wp_get. fold (height h). cbv zeta. apply wp_bind.
  eapply wp_mono; [apply wp_take_returns|]. intros _ h1 [E1 H1]. apply wp_bind.
  apply (wp_mono _ (fun _ h2 => height h2 = preTop - 1 - nargs /\ only_stack h h2)).
  - destruct (Z.eqb_spec (height h - (preTop - 1 - nargs)) 0) as [E|E]; [apply wp_ret; split; [lia|done]|].
    eapply wp_mono; [apply (wp_moves (- (height h - (preTop - 1 - nargs)))); [apply moves_pop; lia|lia]|].
    intros _ h2 [E2 H2]. split; [lia|by eapply only_stack_trans].
  - intros _ h2 [E2 H2]. apply wp_bind.
    eapply wp_mono; [apply (wp_moves (-1)); [apply moves_pop1|lia]|]. intros _ h3 [E3 H3].
    eapply wp_mono; [apply wp_notifyEnd|]. intros b h4 [(-> & F1 & F2 & F3 & F4) _].
    destruct (only_stack_trans _ _ _ H2 H3) as (G1 & G2 & G3).
    repeat split; [done|congruence|lia|by rewrite F4, G2, G1].
Qed.

Lemma wp_report_error h : 2 <= height h ->
  wp report_error (fun b h' => ended false h (height h - 2) b h' /\
    (d_dbgCmd h = Abort -> d_lastError h' = qb "Execution terminated by user")) h.
Proof using T.
  intros Hh. unfold report_error. apply wp_bind, wp_get, wp_bind. unfold id.
  apply (wp_mono _ (fun msg h4 => height h4 = height h /\ only_stack h h4 /\
    (d_dbgCmd h = Abort -> msg = qb "Execution terminated by user"))).
  { case_bool_decide as Eb; [by apply wp_ret|]. eapply wp_mono; [apply (wp_moves 0); [apply moves_top_text|lia]|].
    intros s h4 [F1 F2]. split; [lia|done]. }
  intros msg h4 (F1 & (J1 & J2 & J3) & F3). apply wp_bind, wp_mod, wp_bind.
  eapply wp_mono; [apply (wp_moves (-1)); [apply moves_pop1|unfold height in *; simpl; lia]|]. intros _ h5 [F4 F5]. apply wp_bind.
  eapply wp_mono; [apply (wp_moves (-1)); [apply moves_pop1|unfold height in *; simpl in *; lia]|]. intros _ h6 [F6 F7].
  eapply wp_mono; [apply wp_notifyEnd|]. intros b h7 [(-> & G1 & G2 & G3 & G4) G5].
  destruct (only_stack_trans _ _ _ F5 F7) as (K1 & K2 & K3). simpl in *.
  split; [|intros Ha; rewrite G5, K3; by apply F3].
  repeat split; [done|congruence|unfold height in *; simpl in *; lia|]. by rewrite G4, K2, K1, J1, J2.
Qed.

(** The call of Lua, with what the host has set before, and the outcome. *)
Definition called (nargs : Z) (nresults : option Z) (h : DebugHost) (ok : bool) (h' : DebugHost) : Prop :=
  exists hs st he, lua_pcall nargs nresults (height h - nargs) hs = Some (st, he) /\
    d_running hs = true /\ d_dbgCmd hs = d_defaultDbgCmd h /\
    notified (h_base hs) = notified (h_base h) ++ [(M_Started, [], 0)] /\
    ended (bool_decide (st = LUA_OK \/ st = LUA_ERRRUN /\ d_dbgCmd he = AbortSilently)) he
      (height h - nargs - 1 + (if bool_decide (st = LUA_ERRMEM \/ st = LUA_ERRERR) then 2 else 0)) ok h' /\
    (st = LUA_ERRRUN -> d_dbgCmd he = Abort -> d_lastError h' = qb "Execution terminated by user").

(** What the host does for a status of the call. *)
Lemma wp_outcome preTop nargs nresults h hs st he :
  preTop = height h + 1 -> 0 <= nargs -> nargs + 1 <= height h ->
  lua_pcall nargs nresults (height h - nargs) hs = Some (st, he) ->
  d_running hs = true -> d_dbgCmd hs = d_defaultDbgCmd h ->
  notified (h_base hs) = notified (h_base h) ++ [(M_Started, [], 0)] ->
  st ∈ [LUA_OK; LUA_ERRRUN; LUA_ERRMEM; LUA_ERRERR] ->
  (if bool_decide (st = LUA_OK) then height h - nargs <= height he else height he = height h + 1 - nargs) ->
  wp (match st with
      | LUA_ERRRUN => if bool_decide (d_dbgCmd he = AbortSilently) then finish preTop nargs else report_error
      | LUA_ERRMEM => end_with (qb "Lua memory exception")
      | LUA_ERRERR => end_with (qb "Lua unknown error")
      | _ => finish preTop nargs
      end) (called nargs nresults h) he.
Proof using T.
  intros -> Hn Hh Ec S1 S2 S4 Hst Hhe.
  assert (Hend : forall ok top (m : HM bool), wp m (fun b h' => ended ok he top b h' /\
      (st = LUA_ERRRUN -> d_dbgCmd he = Abort -> d_lastError h' = qb "Execution terminated by user")) he ->
    ok = bool_decide (st = LUA_OK \/ st = LUA_ERRRUN /\ d_dbgCmd he = AbortSilently) ->
    top = height h - nargs - 1 + (if bool_decide (st = LUA_ERRMEM \/ st = LUA_ERRERR) then 2 else 0) ->
    wp m (called nargs nresults h) he).
  { intros ok top m Hm -> ->. eapply wp_mono; [exact Hm|]. intros b h' [H1 H2]. exists hs, st, he. exact (conj Ec (conj S1 (conj S2 (conj S4 (conj H1 H2))))). }
  destruct st; try (exfalso; revert Hst; by_decide); simpl in Hhe.
  - apply (Hend true (height h + 1 - 2 - nargs)); [eapply wp_mono; [apply wp_finish; lia|]|by rewrite bool_decide_eq_true_2 by auto|].
    + intros b h' H. split; [exact H|done].
    + rewrite bool_decide_eq_false_2 by (by intros [|]). lia.
  - destruct (decide (d_dbgCmd he = AbortSilently)) as [Ea|Ea];
      [rewrite (bool_decide_eq_true_2 (d_dbgCmd he = AbortSilently) Ea)|rewrite (bool_decide_eq_false_2 (d_dbgCmd he = AbortSilently) Ea)].
    + apply (Hend true (height h + 1 - 2 - nargs)); [eapply wp_mono; [apply wp_finish; lia|]|by rewrite bool_decide_eq_true_2 by auto|].
      * intros b h' H. split; [exact H|congruence].
      * rewrite bool_decide_eq_false_2 by (by intros [|]). lia.
    + apply (Hend false (height h - nargs - 1)).
      * eapply wp_mono; [apply wp_report_error; lia|]. intros b h' [H1 H2]. split; [|auto].
        replace (height h - nargs - 1) with (height he - 2) by lia. exact H1.
      * rewrite bool_decide_eq_false_2; [done|]. by intros [|[_ ?]].
      * rewrite bool_decide_eq_false_2 by (by intros [|]). lia.
  - apply (Hend false (height he)); [eapply wp_mono; [apply wp_end_with|]| |].
    + intros b h' H. split; [exact H|done].
    + rewrite bool_decide_eq_false_2; [done|]. by intros [|[]].
    + rewrite bool_decide_eq_true_2 by auto. lia.
  - apply (Hend false (height he)); [eapply wp_mono; [apply wp_end_with|]| |].
    + intros b h' H. split; [exact H|done].
    + rewrite bool_decide_eq_false_2; [done|]. by intros [|[]].
    + rewrite bool_decide_eq_true_2 by auto. lia.
Qed.

(** [C16] A function with its arguments on the stack is run: Lua is called once, with the
    default command and after the message that the run starts; whatever the call does, the host
    does not run afterwards, the last message is that the run has ended or was aborted, and the
    result is whether it went well or was aborted silently.  The function and its arguments are
    taken from the stack, and nothing else is left on it, except after an error without a
    handler, where two values remain. *)
Theorem run_function nargs nresults h :
  d_running h = false -> isWaiting h = false -> 0 <= nargs -> nargs + 1 <= height h ->
  wp (runFunction nargs nresults) (called nargs nresults h) h.
Proof using T Hcall.
  intros Hr Hw Hn Hh. unfold runFunction. apply wp_bind, wp_get. unfold id. rewrite Hr. apply wp_bind, wp_get.
  fold (height h). rewrite Hw. cbv zeta. apply wp_bind.
  eapply wp_mono; [apply moves_pushc; lia|]. intros [] h1 (E1 & c1 & ->). apply wp_bind.
  eapply wp_mono; [apply moves_insert; lia|]. intros [] h2 (E2 & c2 & ->). apply wp_bind, wp_get.
  match goal with |- context [lua_gettop (d_ctx (h_base ?x))] => fold (height x) end. rewrite E2, E1.
  do 3 apply wp_bind, wp_mod. apply wp_bind.
  match goal with |- wp _ _ ?x => set (h3 := x) end.
  assert (Hs : wp notifyStart (fun _ hs => d_running hs = true /\ d_dbgCmd hs = d_defaultDbgCmd h /\ height hs = height h + 1 /\
    notified (h_base hs) = notified (h_base h) ++ [(M_Started, [], 0)]) h3).
  { unfold notifyStart, hnotify, base, notify. repeat split. unfold height in *. simpl in *. lia. }
  eapply wp_mono; [exact Hs|]. intros _ hs (S1 & S2 & S3 & S4). apply wp_bind.
  destruct (Hcall nargs nresults (height h - nargs) hs) as (st & he & Ec & Hst & Hhe); [lia..|].
  unfold wp at 1. rewrite Ec. apply wp_bind, wp_get. unfold id.
  apply (wp_outcome _ _ _ _ hs); try done; [lia|].
  destruct (bool_decide (st = LUA_OK)); lia.
Qed.
End Run.
