(* ===== verification/DebugExample.v ===== *)
(** * The theorems on the debugger at concrete events

    A small Lua that only counts what is on its stack, a shell, and a run of a program with a
    call. *)

From S2P Require Import Prelude Double Bytecode BytecodeIO Composer LuaHost DebugHost DebugSpec DebugSafe HostRun HostRunSpec.
From Stdlib Require Import Strings.Byte.
Local Open Scope Z_scope.
Local Open Scope rd_scope.

(** ** A small Lua *)

(** An activation with the event that it is at and the number of its instruction. *)
Record Frame := mkFrame { f_event : HookEvent; f_info : LuaInfo; f_pc : Z }.
Record Small := mkSmall { s_height : nat; s_frame : option Frame }.

Definition grow (n : nat) : SM Small unit := fun s => Some (tt, mkSmall (s_height s + n) (s_frame s)).
Definition shrink (n : Z) : SM Small unit := fun s => Some (tt, mkSmall (s_height s - Z.to_nat n) (s_frame s)).

Definition info_at (pc : bool) (f : Frame) : LuaInfo :=
  let i := f_info f in
  mkInfo (i_name i) (i_namewhat i) (i_what i) (i_source i) (if pc then f_pc f else i_currentline i)
    (i_linedefined i) (i_lastlinedefined i).

Definition Small_Lua : LuaApi := {|
  lua_State := Small; lua_Debug := Frame;
  lua_type _ _ := LUA_TNIL; lua_typename _ := qb "nil";
  lua_iscfunction _ _ := false; lua_isuserdata _ _ := false; lua_toboolean _ _ := false;
  lua_tonumber _ _ := 0; lua_topointer _ _ := 0; lua_touserdata _ _ := 0; lua_objlen _ _ := 0;
  lua_tostring _ s := Some (None, s);
  lua_pushnil := grow 1; lua_pushboolean _ := grow 1; lua_pushnumber _ := grow 1; lua_pushstring _ := grow 1;
  lua_pop := shrink; lua_replace _ := shrink 1; lua_remove _ := shrink 1;
  lua_equal _ _ s := Some (true, s); lua_lessthan _ _ _ := None;
  lua_gettable _ _ := None; lua_rawget _ s := Some (tt, s);
  lua_getstack n s := if n =? 0 then s_frame s else None;
  lua_getlocal _ _ s := Some (None, s)
|}.
#[local] Existing Instance Small_Lua.

Definition Small_Dbg : LuaDbgApi := {|
  lua_event := f_event : lua_Debug -> HookEvent;
  lua_getinfo q f s := Some (Some (info_at (bool_decide (q = qb "nSp")) f), s);
  lua_gettop s := Z.of_nat (s_height s);
  lua_next _ s := Some (false, mkSmall (s_height s - 1) (s_frame s));
  lua_tointeger _ _ := 0;
  lua_sethook _ _ _ s := Some (tt, s);
  luaJIT_setmode _ s := Some (tt, s)
|}.
#[local] Existing Instance Small_Dbg.

Definition Small_Run : LuaRunApi := {|
  lua_pushcfunction _ := grow 1; lua_insert _ s := Some (tt, s); lua_pushvalue _ := grow 1;
  lua_createtable _ _ := grow 1; lua_getfield _ _ := grow 1; lua_setfield _ _ := shrink 1; lua_rawset _ := shrink 2;
  lua_call n r s := Some (tt, mkSmall (s_height s - S (Z.to_nat n) + Z.to_nat (default 0 r)) (s_frame s));
  luaL_loadbuffer _ _ s := Some (LUA_OK, mkSmall (s_height s + 1) (s_frame s));
  luaL_loadfile _ s := Some (LUA_OK, mkSmall (s_height s + 1) (s_frame s));
  lua_gc_collect s := Some (tt, s);
  lua_open := Some (mkSmall 0 None)
|}.

Definition Small_Host : HostLib := {|
  number_double _ := []; number_hex _ := []; variant_latin1 _ := []; variant_text _ := [];
  variant_isNull _ := true; c_pow a _ := a
|}.
#[local] Existing Instances Small_Run Small_Host.

Definition named (s : Small) : Prop :=
  exists f, s_frame s = Some f /\ forall pc, l_source (level_of 0 (info_at pc f)) <> [].

Definition Small_Laws : LuaDbgLaws.
Proof.
  refine {| dbg_info := info_at : bool -> lua_Debug -> LuaInfo; in_call := named : lua_State -> Prop |}; simpl.
  - by intros [] ar s.
  - done.
  - by intros s; eexists.
  - by intros _ _ _ s; eexists.
  - by intros _ s; eexists.
Defined.

Definition Small_Stack : LuaStackLaws.
Proof.
  split; simpl; intros.
  - lia.
  - eexists. split; [done|]. simpl. lia.
  - by eexists.
  - eexists. split; [done|]. simpl. lia.
  - by do 2 eexists.
  - do 2 eexists. split; [done|]. simpl. lia.
Qed.
#[local] Existing Instances Small_Laws Small_Stack.

(** ** A run *)

Definition in_main (e : HookEvent) (line : Z) : Frame :=
  mkFrame e (mkInfo None [] (qb "Lua") (qb "@main") line 0 0) 0.
Definition in_sub (e : HookEvent) (line : Z) : Frame :=
  mkFrame e (mkInfo None [] (qb "Lua") (qb "@sub") line 3 5) 0.

(** A call of [sub] at the line 7 of [main]. *)
Definition sub_events (f : Z -> Z) : list lua_Debug := [in_sub LUA_HOOKLINE (f 4); in_sub LUA_HOOKLINE (f 5)].

Definition start_host (m : Mode) (c : DebugCommand) (b : bytes * Z) (cur : Z) : DebugHost :=
  mkDebugHost (mkEngine2 (mkSmall 2 (Some (in_main LUA_HOOKLINE 7))) false 0 false [] [] []) ∅ b 0 (qb "main") cur cur []
    c RunToBreakPoint true [] 0 false true false false m false.

(** Lines without columns, and lines with columns. *)
Definition plain_format : JitComposer := mkComposer (mkJitBytecode [] [] [] 0 []) [] false false true 0 31.

Ltac events := unfold sub_events; repeat (refine (bal_line _ _ _ _); [by left|]); exact bal_nil.

(** The shell lets the program go on. *)
Definition shell_goes_on : DbgShell := {| handleBreak _ _ := runToBreakPoint; handleAliveSignal := rret tt |}.

Section Runs.
#[local] Existing Instance shell_goes_on.

Lemma goes_on_tells s n (h : DebugHost) : exists h' N, handleBreak s n h = Some (tt, h') /\ notes h h' N.
Proof. do 2 eexists. split; [done|]. unfold notes. simpl. by rewrite app_nil_r. Qed.

Definition over_host : DebugHost := start_host LineMode StepOver (qb "main", 0) 7.


Definition out_host : DebugHost := start_host LineMode StepOut (qb "sub", 3) (4 * 4096).

Lemma step_out_witness :
  wp (run_hooks new_composer (sub_events (fun n => n * 4096) ++ [in_sub LUA_HOOKRET (5 * 4096)]))
    (fun _ h1 => exists N, notes out_host h1 N /\ goes_on N) out_host.
Proof.
  eapply wp_mono; [apply (step_out new_composer ltac:(done) goes_on_tells out_host (sub_events (fun n => n * 4096)) (in_sub LUA_HOOKRET (5 * 4096)));
    try done; [events|by repeat constructor]|].
  by intros e h1 (_ & H & _).
Defined.

(** The debugger stops twice at the line 4, which the program leaves in between. *)
Definition break_host : DebugHost := set_breaks {[ qb "sub" := {[ 4 ]} ]} (start_host LineMode RunToBreakPoint ([], 0) 0).
Definition loop_events : list lua_Debug := map (fun n => in_sub LUA_HOOKLINE (n * 4096 + 1)) [3; 4; 4; 5; 4].

Lemma break_points_hit_witness :
  wp (run_hooks new_composer loop_events) (fun e h' => e = false /\ exists N, notes break_host h' N /\
    stopped N = [(M_BreakHit, qb "sub", 4); (M_BreakHit, qb "sub", 4)]) break_host.
Proof.
  apply (break_points_hit new_composer ltac:(done) ltac:(done) loop_events break_host); [by split|by repeat constructor].
Defined.
End Runs.

Lemma pack_unpack_pc_witness : unpackDeflinePc (7 * 16384 + 300) = (7, 300) /\ 0 <= 7 * 16384 + 300 < 2 ^ 32.
Proof. apply (pack_unpack_pc 7 300); [lia|lia|reflexivity]. Defined.

(** ** A shell with a user *)

(** The user sets a break point, and steps over. *)
Definition user_commands (s : bytes) : list Command := [C_addBreak s 5; C_level 1; C_next StepOver].
Definition shell_with_user : DbgShell :=
  {| handleBreak s _ := run_commands new_composer (user_commands s); handleAliveSignal := run_commands new_composer [C_terminate false] |}.

Section User.
#[local] Existing Instance shell_with_user.

Definition user_events : list lua_Debug :=
  [in_main LUA_HOOKLINE (6 * 4096); in_sub LUA_HOOKCALL (3 * 4096); in_sub LUA_HOOKLINE (4 * 4096);
   in_sub LUA_HOOKRET (5 * 4096); in_main LUA_HOOKLINE (8 * 4096)].

End User.

(** ** A function that is run *)

(** A call without arguments is terminated by the user; other calls have one result. *)
Definition small_pcall : LuaRunner := fun nargs _ _ h =>
  let top := height h - nargs in
  let ctx := mkSmall (Z.to_nat top) None in
  if nargs =? 0 then Some (LUA_ERRRUN, set_cmd Abort (set_base (set_ctx ctx (h_base h)) h))
  else Some (LUA_OK, set_base (set_ctx ctx (h_base h)) h).

Section Function.
#[local] Existing Instance small_pcall.

Lemma small_pcall_ok nargs nresults errf h : 0 <= nargs -> nargs + 1 <= height h ->
  exists st h', lua_pcall nargs nresults errf h = Some (st, h') /\ st ∈ [LUA_OK; LUA_ERRRUN; LUA_ERRMEM; LUA_ERRERR] /\
    (if bool_decide (st = LUA_OK) then height h - nargs - 1 <= height h' else height h' = height h - nargs).
Proof.
  intros H1 H2. unfold lua_pcall, small_pcall. assert (E : Z.of_nat (Z.to_nat (height h - nargs)) = height h - nargs) by lia.
  destruct (nargs =? 0); do 2 eexists; (split; [done|]); (split; [by_decide|]).
  - rewrite bool_decide_eq_false_2 by done. exact E.
  - rewrite bool_decide_eq_true_2 by done. change (height h - nargs - 1 <= Z.of_nat (Z.to_nat (height h - nargs))). lia.
Qed.

Lemma run_function_witness :
  wp (runFunction 0 None) (fun ok h' => ok = false /\ height h' = 1) (start_host LineMode StepNext ([], 0) 0).
Proof.
  eapply wp_mono; [apply (run_function small_pcall_ok 0 None (start_host LineMode StepNext ([], 0) 0)); (reflexivity || lia || done)|].
  intros ok h' (hs & st & he & Ec & _ & _ & _ & (-> & _ & _ & Ht & _) & _).
  unfold lua_pcall, small_pcall in Ec. simpl in Ec. injection Ec as <- <-. split; [reflexivity|exact Ht].
Defined.
End Function.
