(* ===== verification/LuaTree.v ===== *)
(** * Syntax trees of Lua

    [SynTree] of [LuaSynTree.h/.cpp]: the rules that its nodes are of. *)

From S2P Require Import Prelude LexCore LuaToken SyntaxTree.
From Stdlib Require Import Strings.Byte.
Local Open Scope Z_scope.

(** [src/LuaSynTree.h:12-53] ParserRule *)
Inductive ParserRule : Type :=
  | R_Lua | R_args | R_assigOrCall_ | R_assignment_ | R_binop | R_block | R_call_ | R_chunk
  | R_comment_ | R_desig_ | R_dostat_ | R_exp | R_explist | R_field | R_fieldlist | R_fieldsep
  | R_forstat_ | R_funcbody | R_funcname | R_functioncall_ | R_gfuncdecl_ | R_ifstat_ | R_index_
  | R_lambdecl_ | R_laststat | R_lfuncdecl_ | R_localdecl_ | R_lvardecl_ | R_namelist | R_parlist
  | R_prefixexp | R_repeatstat_ | R_stat | R_tableconstructor | R_unop | R_var_ | R_varlist_
  | R_whilestat_.

#[export] Instance ParserRule_eq_dec : EqDecision ParserRule.
Proof. solve_decision. Defined.

Abbreviation NodeType := (SyntaxTree.NodeType TokenType ParserRule).
(** A token in a tree. *)
Abbreviation NodeToken := (LexToken NodeType).
Abbreviation SynTree := (SyntaxTree.SynTree NodeType).

(** [src/LuaSynTree.cpp:11-52] rToStr *)
Definition rToStr (r : NodeType) : bytes :=
  match r with
  | Tk t => tokenTypeName t
  | Rule R_Lua => qb "Lua" | Rule R_args => qb "args" | Rule R_assigOrCall_ => qb "assigOrCall_"
  | Rule R_assignment_ => qb "assignment_" | Rule R_binop => qb "binop"
  | Rule R_block => qb "block" | Rule R_call_ => qb "call_" | Rule R_chunk => qb "chunk"
  | Rule R_comment_ => qb "comment" | Rule R_desig_ => qb "desig_" | Rule R_dostat_ => qb "dostat_"
  | Rule R_exp => qb "exp" | Rule R_explist => qb "explist" | Rule R_field => qb "field"
  | Rule R_fieldlist => qb "fieldlist" | Rule R_fieldsep => qb "fieldsep"
  | Rule R_forstat_ => qb "forstat_" | Rule R_funcbody => qb "funcbody"
  | Rule R_funcname => qb "funcname" | Rule R_functioncall_ => qb "functioncall"
  | Rule R_gfuncdecl_ => qb "gfuncdecl_" | Rule R_ifstat_ => qb "ifstat_"
  | Rule R_index_ => qb "index_" | Rule R_lambdecl_ => qb "lambdecl_"
  | Rule R_laststat => qb "laststat" | Rule R_lfuncdecl_ => qb "lfuncdecl_"
  | Rule R_localdecl_ => qb "localdecl_" | Rule R_lvardecl_ => qb "lvardecl_"
  | Rule R_namelist => qb "namelist" | Rule R_parlist => qb "parlist"
  | Rule R_prefixexp => qb "prefixexp" | Rule R_repeatstat_ => qb "repeatstat_"
  | Rule R_stat => qb "stat" | Rule R_tableconstructor => qb "tableconstructor"
  | Rule R_unop => qb "unop" | Rule R_var_ => qb "var" | Rule R_varlist_ => qb "varlist"
  | Rule R_whilestat_ => qb "whilestat_"
  end.

(** The root of the trees of a parser has no type. *)
Definition root_token : NodeToken := mkToken (Tk Tok_Invalid) 0 0 0 [] [].
