(* ===== verification/LuaGrammar.v ===== *)
(** * The grammar of Lua

    The productions of [syntax2/Lua.ebnf] as regular expressions over the types of the
    children of a node; a comma or a semicolon has no node. *)

From S2P Require Import Prelude LexCore LuaToken SyntaxTree LuaTree.
Local Open Scope Z_scope.

(** ** The productions *)

Local Open Scope re_scope.

Definition binops : list TokenType :=
  [Tok_Plus; Tok_Minus; Tok_Star; Tok_Slash; Tok_Hat; Tok_Percent; Tok_2Dot; Tok_Lt; Tok_Leq; Tok_Gt; Tok_Geq;
   Tok_2Eq; Tok_TildeEq; Tok_and; Tok_or].
Definition unops : list TokenType := [Tok_Minus; Tok_not; Tok_Hash].
Definition constants : list TokenType := [Tok_nil; Tok_false; Tok_true; Tok_Number; Tok_String; Tok_3Dot].

#[export] Instance Lua_grammar : Grammar TokenType ParserRule := fun r =>
  match r with
  | R_Lua => nt R_chunk
  | R_chunk => Star (nt R_stat) ** Opt (nt R_laststat)
  | R_block => nt R_chunk
  | R_stat => OneOf (map Rule [R_assigOrCall_; R_dostat_; R_whilestat_; R_repeatstat_; R_ifstat_; R_forstat_; R_gfuncdecl_; R_localdecl_])
  | R_dostat_ => tk Tok_do ** nt R_block ** tk Tok_end
  | R_whilestat_ => tk Tok_while ** nt R_exp ** tk Tok_do ** nt R_block ** tk Tok_end
  | R_repeatstat_ => tk Tok_repeat ** nt R_block ** tk Tok_until ** nt R_exp
  | R_ifstat_ =>
      tk Tok_if ** nt R_exp ** tk Tok_then ** nt R_block **
      Star (tk Tok_elseif ** nt R_exp ** tk Tok_then ** nt R_block) ** Opt (tk Tok_else ** nt R_block) ** tk Tok_end
  | R_forstat_ =>
      tk Tok_for ** tk Tok_Name **
      ((tk Tok_Eq ** nt R_exp ** nt R_exp ** Opt (nt R_exp) ** tk Tok_do ** nt R_block ** tk Tok_end) ||
       (Star (tk Tok_Name) ** tk Tok_in ** nt R_explist ** tk Tok_do ** nt R_block ** tk Tok_end))
  | R_gfuncdecl_ => tk Tok_function ** nt R_funcname ** nt R_funcbody
  | R_localdecl_ => tk Tok_local ** OneOf [Rule R_lfuncdecl_; Rule R_lvardecl_]
  | R_lfuncdecl_ => tk Tok_function ** tk Tok_Name ** nt R_funcbody
  | R_lvardecl_ => nt R_namelist ** Opt (tk Tok_Eq ** nt R_explist)
  | R_assigOrCall_ => nt R_prefixexp ** Opt (nt R_assignment_)
  | R_call_ => Opt (tk Tok_Colon ** tk Tok_Name) ** nt R_args
  | R_assignment_ => Star (nt R_prefixexp) ** tk Tok_Eq ** nt R_explist
  | R_laststat => (tk Tok_return ** Opt (nt R_explist)) || tk Tok_break
  | R_funcname => tk Tok_Name ** Star (nt R_desig_) ** Opt (tk Tok_Colon ** tk Tok_Name)
  | R_namelist => Plus (tk Tok_Name)
  | R_explist => Plus (nt R_exp)
  | R_exp =>
      (OneOf (map Tk constants ++ map Rule [R_lambdecl_; R_prefixexp; R_tableconstructor]) ** Star (nt R_binop ** nt R_exp)) ||
      (nt R_unop ** nt R_exp ** Star (nt R_binop ** nt R_exp))
  | R_prefixexp => (tk Tok_Name || (tk Tok_Lpar ** nt R_exp ** tk Tok_Rpar)) ** Star (OneOf (map Rule [R_index_; R_desig_; R_call_]))
  | R_index_ => tk Tok_Lbrack ** nt R_exp ** tk Tok_Rbrack
  | R_desig_ => tk Tok_Dot ** tk Tok_Name
  | R_args => (tk Tok_Lpar ** Opt (nt R_explist) ** tk Tok_Rpar) || OneOf [Rule R_tableconstructor; Tk Tok_String]
  | R_lambdecl_ => tk Tok_function ** nt R_funcbody
  | R_funcbody => tk Tok_Lpar ** Opt (nt R_parlist) ** tk Tok_Rpar ** nt R_block ** tk Tok_end
  | R_parlist => (nt R_namelist ** Opt (tk Tok_3Dot)) || tk Tok_3Dot
  | R_tableconstructor => tk Tok_Lbrace ** Opt (nt R_fieldlist) ** tk Tok_Rbrace
  | R_fieldlist => nt R_field ** Star (nt R_fieldsep ** nt R_field) ** Opt (nt R_fieldsep)
  | R_field => (nt R_index_ ** tk Tok_Eq ** nt R_exp) || (tk Tok_Name ** tk Tok_Eq ** nt R_exp) || nt R_exp
  | R_fieldsep => Eps
  | R_binop => OneOf (map Tk binops)
  | R_unop => OneOf (map Tk unops)
  | R_comment_ | R_functioncall_ | R_var_ | R_varlist_ => Void
  end.

(** A tree of the parser: the root is above a chunk. *)
Definition whole (st : SynTree) : Prop :=
  exists c, st = Node root_token [c] /\ st_type c = Rule R_chunk /\ conforms c.

(** *** The shapes of some nodes *)
Lemma block_shape st : conforms st -> st_type st = Rule R_block ->
  exists c, d_children st = [c] /\ st_type c = Rule R_chunk /\ conforms c.
Proof. intros Hc Ht. open_node st Hc Ht. by eexists. Qed.

Lemma funcbody_shape st : conforms st -> st_type st = Rule R_funcbody ->
  exists lp ps rp bl en, d_children st = lp :: ps ++ [rp; bl; en] /\
    st_type lp = Tk Tok_Lpar /\ st_type rp = Tk Tok_Rpar /\ st_type bl = Rule R_block /\ st_type en = Tk Tok_end /\
    Forall conforms [lp; rp; bl; en] /\ (ps = [] \/ exists pl, ps = [pl] /\ st_type pl = Rule R_parlist /\ conforms pl).
Proof.
  intros Hc Ht. open_node st Hc Ht.
  - eexists _, [_], _, _, _. split; [done|]. repeat (split; [done|]). split; [by repeat constructor|]. right. by eexists.
  - eexists _, [], _, _, _. split; [done|]. repeat (split; [done|]). split; [by repeat constructor|]. by left.
Qed.

Lemma parlist_shape st : conforms st -> st_type st = Rule R_parlist ->
  (exists n l, d_children st = n :: l /\ st_type n = Rule R_namelist /\ conforms n /\ Forall leaf l) \/
  (exists n, d_children st = [n] /\ st_type n = Tk Tok_3Dot /\ leaf n).
Proof.
  intros Hc Ht. open_node st Hc Ht.
  - left. eexists _, [_]. split; [done|]. split; [done|]. split; [done|]. repeat constructor; by eapply conforms_is_leaf.
  - left. eexists _, []. by repeat split.
  - right. eexists. split; [done|]. split; [done|]. by eapply conforms_is_leaf.
Qed.

Lemma namelist_shape st : conforms st -> st_type st = Rule R_namelist ->
  Forall (fun c => st_type c = Tk Tok_Name) (d_children st).
Proof.
  intros Hc Ht. open_node st Hc Ht. constructor; [done|].
  match goal with H : Forall _ (map st_type _) |- _ => rewrite Forall_map in H; eapply Forall_impl; [exact H|] end.
  intros c H'. by apply list_elem_of_singleton in H'.
Qed.

Lemma localdecl_shape st : conforms st -> st_type st = Rule R_localdecl_ ->
  exists l d, d_children st = [l; d] /\ st_type l = Tk Tok_local /\ leaf l /\ conforms d /\
    (st_type d = Rule R_lfuncdecl_ \/ st_type d = Rule R_lvardecl_).
Proof.
  intros Hc Ht. open_node st Hc Ht. eexists _, _. split; [done|]. split; [done|]. split; [by eapply conforms_is_leaf|].
  split; [done|]. set_solver.
Qed.

Lemma lfuncdecl_shape st : conforms st -> st_type st = Rule R_lfuncdecl_ ->
  exists f n b, d_children st = [f; n; b] /\ st_type f = Tk Tok_function /\ leaf f /\ st_type n = Tk Tok_Name /\
    st_type b = Rule R_funcbody /\ conforms b.
Proof. intros Hc Ht. open_node st Hc Ht. eexists _, _, _. repeat (split; [done || by eapply conforms_is_leaf|]). done. Qed.

Lemma lvardecl_shape st : conforms st -> st_type st = Rule R_lvardecl_ ->
  exists n, st_type n = Rule R_namelist /\ conforms n /\
    (d_children st = [n] \/ exists e l, d_children st = [n; e; l] /\ st_type e = Tk Tok_Eq /\ leaf e /\ st_type l = Rule R_explist /\ conforms l).
Proof.
  intros Hc Ht. open_node st Hc Ht; (eexists; split; [done|]; split; [done|]); [right|by left].
  eexists _, _. split; [done|]. split; [done|]. split; [by eapply conforms_is_leaf|done].
Qed.

Lemma assigOrCall_shape st : conforms st -> st_type st = Rule R_assigOrCall_ ->
  exists p, st_type p = Rule R_prefixexp /\ conforms p /\
    (d_children st = [p] \/ exists a, d_children st = [p; a] /\ st_type a = Rule R_assignment_ /\ conforms a).
Proof. intros Hc Ht. open_node st Hc Ht; (eexists; split; [done|]; split; [done|]); [right; by eexists|by left]. Qed.

Lemma assignment_shape st : conforms st -> st_type st = Rule R_assignment_ ->
  exists ps e l, d_children st = ps ++ [e; l] /\ Forall (fun p => st_type p = Rule R_prefixexp /\ conforms p) ps /\
    st_type e = Tk Tok_Eq /\ leaf e /\ st_type l = Rule R_explist /\ conforms l.
Proof.
  intros Hc Ht. open_node st Hc Ht. eexists _, _, _. split; [done|]. split; [|split; [done|split; [by eapply conforms_is_leaf|done]]].
  match goal with H : Forall _ (map st_type ?l), H' : Forall conforms ?l |- _ =>
    rewrite Forall_map in H; apply Forall_and; split; [eapply Forall_impl; [exact H|]|exact H'] end.
  intros c Hk. by apply list_elem_of_singleton in Hk.
Qed.

(** What is in the head of a [for]. *)
Definition in_head (t : NodeType) : bool :=
  match t with Tk (Tok_Name | Tok_Eq | Tok_in) | Rule (R_exp | R_explist) => true | _ => false end.

Lemma forstat_shape st : conforms st -> st_type st = Rule R_forstat_ ->
  exists f l d b e, d_children st = f :: l ++ [d; b; e] /\ (3 <= length l)%nat /\
    st_type f = Tk Tok_for /\ leaf f /\ Forall (fun c => in_head (st_type c) = true /\ conforms c) l /\
    st_type d = Tk Tok_do /\ leaf d /\ st_type b = Rule R_block /\ conforms b /\ st_type e = Tk Tok_end /\ leaf e.
Proof.
  intros Hc Ht. assert (Hh : forall c k, st_type c = k -> in_head k = true -> in_head (st_type c) = true) by (by intros c k ->).
  assert (Hlf : forall c k, st_type c = Tk k -> conforms c -> leaf c) by (intros c k H1 H2; by eapply conforms_is_leaf).
  open_node st Hc Ht.
  - eexists _, [_; _; _; _; _], _, _, _. split; [done|]. split; [simpl; lia|]. rewrite !Forall_cons, Forall_nil. naive_solver.
  - eexists _, [_; _; _; _], _, _, _. split; [done|]. split; [simpl; lia|]. rewrite !Forall_cons, Forall_nil. naive_solver.
  - eexists _, (_ :: _ ++ [_; _]), _, _, _. split; [simpl; rewrite <- app_assoc; reflexivity|]. split; [simpl; rewrite length_app; simpl; lia|].
    match goal with H : Forall _ (map st_type ?l), H' : Forall conforms ?l |- _ =>
      assert (Hx : Forall (fun c => in_head (st_type c) = true /\ conforms c) l);
        [apply Forall_and; split; [rewrite Forall_map in H; eapply Forall_impl; [exact H|]|exact H']|] end.
    { intros c Hk. apply list_elem_of_singleton in Hk. by rewrite Hk. }
    rewrite Forall_cons, Forall_app, !Forall_cons, Forall_nil. naive_solver.
Qed.

Lemma lambdecl_shape st : conforms st -> st_type st = Rule R_lambdecl_ ->
  exists f b, d_children st = [f; b] /\ leaf f /\ st_type b = Rule R_funcbody /\ conforms b.
Proof. intros Hc Ht. open_node st Hc Ht. eexists _, _. split; [done|]. split; [by eapply conforms_is_leaf|done]. Qed.

Lemma gfuncdecl_shape st : conforms st -> st_type st = Rule R_gfuncdecl_ ->
  exists f n b, d_children st = [f; n; b] /\ leaf f /\ st_type n = Rule R_funcname /\ conforms n /\
    st_type b = Rule R_funcbody /\ conforms b.
Proof. intros Hc Ht. open_node st Hc Ht. eexists _, _, _. split; [done|]. split; [by eapply conforms_is_leaf|done]. Qed.

Lemma desig_shape st : conforms st -> st_type st = Rule R_desig_ ->
  exists d n, d_children st = [d; n] /\ st_type n = Tk Tok_Name.
Proof. intros Hc Ht. open_node st Hc Ht. by eexists _, _. Qed.

Lemma explist_shape st : conforms st -> st_type st = Rule R_explist -> d_children st <> [].
Proof. intros Hc Ht. by open_node st Hc Ht. Qed.
