(* ===== verification/LuaParser.v ===== *)
(** * The parser of Lua

    [Parser] of [LuaParser.h/.cpp]: a procedure for each rule of the grammar in [syntax2/Lua.ebnf].
    [fuel] bounds the depth of the procedures that call each other. *)

From S2P Require Import Prelude ErrorList LexCore LuaToken LuaLexer SyntaxTree LuaTree ParserCore.
From Stdlib Require Import Strings.Byte.
Local Open Scope Z_scope.
Local Open Scope rd_scope.

(** The messages of the rules.
    [src/LuaParser.cpp:950-967] SynErr *)
Definition message (n : Z) : bytes :=
  match n with
  | 62 => qb "invalid stat"
  | 63 => qb "invalid laststat"
  | 64 => qb "invalid forstat_"
  | 65 => qb "invalid localdecl_"
  | 66 => qb "invalid exp"
  | 67 => qb "invalid prefixexp"
  | 68 => qb "invalid args"
  | 69 => qb "invalid unop"
  | 70 => qb "invalid binop"
  | 71 => qb "invalid parlist"
  | 72 => qb "invalid field"
  | 73 => qb "invalid fieldsep"
  | _ => qb "generic error " ++ decimal n
  end.

(** [src/LuaParser.cpp:857-864] StartOf *)
Definition start_sets : list string := [
  "Txxxxxxxxxxxxxxxxxxxxxxxxxxxxxxxxxxxxxxxxxxxxxxxxxxxxxxxxxxxxxx";
  "xxxxTxxxxxxxxxxxxxxxxxxxxxxxxxxxxxTxxxxTTTxTxxxTxxxxTxTxxxxxxxx";
  "xxTxTxxxxTxxxxTxxxxxxxxxxxxxTxxxxxxxxxTxTxxxTTxxxxTxxxTTTxxxxxx";
  "xxxxTxxxxxxxTxxxTxxxxxxxTxxxTxxxxxxxxxxxxxxxxxxxxxxxxxxxTxxxxxx";
  "xxxTxxTTxTxxxTxTxxTTxTTTxxxTxxTxTxxxxxxxxxxxxxTxxxxxxxxxxxxxxxx";
  "xxTxTxxxxTxxxxTxxxxxxxxxTxxxTxxxxxxxxxTxTxxxTTxxxxTxxxTTTxxxxxx"]%string.

(** The comma and the semicolon are not in the trees.
    [src/LuaParser.h:120-121] addTerminal *)
Definition silent (t : TokenType) : bool := bool_decide (t = Tok_Semi) || bool_decide (t = Tok_Comma).

#[export] Instance Lua_parser : ParserKind TokenType := {|
  pk_kind := Lua_kind; k_types := all_types; k_text := tokenTypeString;
  k_specials := tt_val TT_Specials; k_max := tt_val TT_Max; k_message := message; k_start := start_sets;
  k_silent := silent; k_peek_comments := true
|}.

(** ** Scanner *)

(** [fuel] bounds the comments that [nextToken] leaves out. *)
#[export] Instance Lua_scanner : Scanner Lexer TokenType := {|
  sc_next := with_errors (fun x => nextToken (Datatypes.S (length (d_buffer x) + device_size x + length (d_line x))) x);
  sc_peek i := with_errors (peekToken (Z.to_nat i))
|}.

(** ** Rules *)

Section Rules.
Context {S : Type} `{!Scanner S TokenType} (limit : nat).
Abbreviation PM := (SM (Parser S TokenType ParserRule)).
Abbreviation term := (ParserCore.term limit).
Abbreviation take_term := (ParserCore.take_term limit).
Abbreviation while_ := (ParserCore.while_ limit).
Abbreviation peek_is := (ParserCore.peek_is limit).

(** [src/LuaParser.cpp:537-544] desig_ *)
Definition desig_ : PM unit :=
  rule_node R_desig_ (
    _ <~ term Tok_Dot (qb "desig_");
    term Tok_Name (qb "desig_")).

(** [src/LuaParser.cpp:404-418] funcname *)
Definition funcname : PM unit :=
  rule_node R_funcname (
    _ <~ term Tok_Name (qb "funcname");
    _ <~ while_ (at_ Tok_Dot) desig_;
    when_ (at_ Tok_Colon) (
      _ <~ take_term;
      term Tok_Name (qb "funcname"))).

(** [src/LuaParser.cpp:456-467] namelist *)
Definition namelist : PM unit :=
  rule_node R_namelist (
    _ <~ term Tok_Name (qb "namelist");
    while_ (and_ (peek_is 1 Tok_Comma) (peek_is 2 Tok_Name)) (
      _ <~ term Tok_Comma (qb "namelist");
      term Tok_Name (qb "namelist"))).

(** [src/LuaParser.cpp:574-587] unop *)
Definition unop : PM unit :=
  rule_node R_unop (
    if_ (at_ Tok_Minus) take_term
    (if_ (at_ Tok_not) take_term
    (if_ (at_ Tok_Hash) take_term (SynErr 69 (Some (qb "unop")))))).

(** [src/LuaParser.cpp:589-670] binop *)
Definition binop : PM unit :=
  rule_node R_binop (
    if_ (at_ Tok_Plus) take_term
    (if_ (at_ Tok_Minus) take_term
    (if_ (at_ Tok_Star) take_term
    (if_ (at_ Tok_Slash) take_term
    (if_ (at_ Tok_Hat) take_term
    (if_ (at_ Tok_Percent) take_term
    (if_ (at_ Tok_2Dot) take_term
    (if_ (at_ Tok_Lt) take_term
    (if_ (at_ Tok_Leq) take_term
    (if_ (at_ Tok_Gt) take_term
    (if_ (at_ Tok_Geq) take_term
    (if_ (at_ Tok_2Eq) take_term
    (if_ (at_ Tok_TildeEq) take_term
    (if_ (at_ Tok_and) take_term
    (if_ (at_ Tok_or) take_term (SynErr 70 (Some (qb "binop")))))))))))))))))).

(** [src/LuaParser.cpp:682-697] parlist *)
Definition parlist : PM unit :=
  rule_node R_parlist (
    if_ (at_ Tok_Name) (
      _ <~ namelist;
      when_ (at_ Tok_Comma) (
        _ <~ take_term;
        term Tok_3Dot (qb "parlist")))
    (if_ (at_ Tok_3Dot) take_term (SynErr 71 (Some (qb "parlist"))))).

(** [src/LuaParser.cpp:731-741] fieldsep *)
Definition fieldsep : PM unit :=
  rule_node R_fieldsep (
    if_ (at_ Tok_Comma) take_term
    (if_ (at_ Tok_Semi) take_term (SynErr 73 (Some (qb "fieldsep"))))).

(** [src/LuaParser.cpp:116-133] chunk *)
Fixpoint chunk (fuel : nat) {struct fuel} : PM unit :=
  match fuel with
  | O => rfail
  | Datatypes.S fuel =>
      rule_node R_chunk (
        _ <~ while_ (StartOf 1) (
          _ <~ stat fuel;
          when_ (at_ Tok_Semi) take_term);
        when_ (at_any [Tok_break; Tok_return]) (
          _ <~ laststat fuel;
          when_ (at_ Tok_Semi) take_term))
  end

(** [src/LuaParser.cpp:135-173] stat *)
with stat (fuel : nat) {struct fuel} : PM unit :=
  match fuel with
  | O => rfail
  | Datatypes.S fuel =>
      rule_node R_stat (
        if_ (at_any [Tok_Lpar; Tok_Name]) (assigOrCall_ fuel)
        (if_ (at_ Tok_do) (dostat_ fuel)
        (if_ (at_ Tok_while) (whilestat_ fuel)
        (if_ (at_ Tok_repeat) (repeatstat_ fuel)
        (if_ (at_ Tok_if) (ifstat_ fuel)
        (if_ (at_ Tok_for) (forstat_ fuel)
        (if_ (at_ Tok_function) (gfuncdecl_ fuel)
        (if_ (at_ Tok_local) (localdecl_ fuel) (SynErr 62 (Some (qb "stat")))))))))))
  end

(** [src/LuaParser.cpp:175-188] laststat *)
with laststat (fuel : nat) {struct fuel} : PM unit :=
  match fuel with
  | O => rfail
  | Datatypes.S fuel =>
      rule_node R_laststat (
        if_ (at_ Tok_return) (
          _ <~ take_term;
          when_ (StartOf 2) (explist fuel))
        (if_ (at_ Tok_break) take_term (SynErr 63 (Some (qb "laststat")))))
  end

(** [src/LuaParser.cpp:190-194] block *)
with block (fuel : nat) {struct fuel} : PM unit :=
  match fuel with
  | O => rfail
  | Datatypes.S fuel =>
      rule_node R_block (
        chunk fuel)
  end

(** [src/LuaParser.cpp:196-203] assigOrCall_ *)
with assigOrCall_ (fuel : nat) {struct fuel} : PM unit :=
  match fuel with
  | O => rfail
  | Datatypes.S fuel =>
      rule_node R_assigOrCall_ (
        _ <~ prefixexp fuel;
        when_ (at_any [Tok_Comma; Tok_Eq]) (assignment_ fuel))
  end

(** [src/LuaParser.cpp:205-213] dostat_ *)
with dostat_ (fuel : nat) {struct fuel} : PM unit :=
  match fuel with
  | O => rfail
  | Datatypes.S fuel =>
      rule_node R_dostat_ (
        _ <~ term Tok_do (qb "dostat_");
        _ <~ block fuel;
        term Tok_end (qb "dostat_"))
  end

(** [src/LuaParser.cpp:215-226] whilestat_ *)
with whilestat_ (fuel : nat) {struct fuel} : PM unit :=
  match fuel with
  | O => rfail
  | Datatypes.S fuel =>
      rule_node R_whilestat_ (
        _ <~ term Tok_while (qb "whilestat_");
        _ <~ exp fuel;
        _ <~ term Tok_do (qb "whilestat_");
        _ <~ block fuel;
        term Tok_end (qb "whilestat_"))
  end

(** [src/LuaParser.cpp:228-237] repeatstat_ *)
with repeatstat_ (fuel : nat) {struct fuel} : PM unit :=
  match fuel with
  | O => rfail
  | Datatypes.S fuel =>
      rule_node R_repeatstat_ (
        _ <~ term Tok_repeat (qb "repeatstat_");
        _ <~ block fuel;
        _ <~ term Tok_until (qb "repeatstat_");
        exp fuel)
  end

(** [src/LuaParser.cpp:239-263] ifstat_ *)
with ifstat_ (fuel : nat) {struct fuel} : PM unit :=
  match fuel with
  | O => rfail
  | Datatypes.S fuel =>
      rule_node R_ifstat_ (
        _ <~ term Tok_if (qb "ifstat_");
        _ <~ exp fuel;
        _ <~ term Tok_then (qb "ifstat_");
        _ <~ block fuel;
        _ <~ while_ (at_ Tok_elseif) (
          _ <~ take_term;
          _ <~ exp fuel;
          _ <~ term Tok_then (qb "ifstat_");
          block fuel);
        _ <~ when_ (at_ Tok_else) (
          _ <~ take_term;
          block fuel);
        term Tok_end (qb "ifstat_"))
  end

(** [src/LuaParser.cpp:265-305] forstat_ *)
with forstat_ (fuel : nat) {struct fuel} : PM unit :=
  match fuel with
  | O => rfail
  | Datatypes.S fuel =>
      rule_node R_forstat_ (
        _ <~ term Tok_for (qb "forstat_");
        _ <~ term Tok_Name (qb "forstat_");
        if_ (at_ Tok_Eq) (
          _ <~ take_term;
          _ <~ exp fuel;
          _ <~ term Tok_Comma (qb "forstat_");
          _ <~ exp fuel;
          _ <~ when_ (at_ Tok_Comma) (
            _ <~ take_term;
            exp fuel);
          _ <~ term Tok_do (qb "forstat_");
          _ <~ block fuel;
          term Tok_end (qb "forstat_"))
        (if_ (at_any [Tok_Comma; Tok_in]) (
          _ <~ while_ (at_ Tok_Comma) (
            _ <~ take_term;
            term Tok_Name (qb "forstat_"));
          _ <~ term Tok_in (qb "forstat_");
          _ <~ explist fuel;
          _ <~ term Tok_do (qb "forstat_");
          _ <~ block fuel;
          term Tok_end (qb "forstat_")) (SynErr 64 (Some (qb "forstat_")))))
  end

(** [src/LuaParser.cpp:307-314] gfuncdecl_ *)
with gfuncdecl_ (fuel : nat) {struct fuel} : PM unit :=
  match fuel with
  | O => rfail
  | Datatypes.S fuel =>
      rule_node R_gfuncdecl_ (
        _ <~ term Tok_function (qb "gfuncdecl_");
        _ <~ funcname;
        funcbody fuel)
  end

(** [src/LuaParser.cpp:316-326] localdecl_ *)
with localdecl_ (fuel : nat) {struct fuel} : PM unit :=
  match fuel with
  | O => rfail
  | Datatypes.S fuel =>
      rule_node R_localdecl_ (
        _ <~ term Tok_local (qb "localdecl_");
        if_ (at_ Tok_function) (lfuncdecl_ fuel)
        (if_ (at_ Tok_Name) (lvardecl_ fuel) (SynErr 65 (Some (qb "localdecl_")))))
  end

(** [src/LuaParser.cpp:328-391] exp *)
with exp (fuel : nat) {struct fuel} : PM unit :=
  match fuel with
  | O => rfail
  | Datatypes.S fuel =>
      rule_node R_exp (
        if_ (at_ Tok_nil) (
          _ <~ take_term;
          exp_nlr_ fuel)
        (if_ (at_ Tok_false) (
          _ <~ take_term;
          exp_nlr_ fuel)
        (if_ (at_ Tok_true) (
          _ <~ take_term;
          exp_nlr_ fuel)
        (if_ (at_ Tok_Number) (
          _ <~ take_term;
          exp_nlr_ fuel)
        (if_ (at_ Tok_String) (
          _ <~ take_term;
          exp_nlr_ fuel)
        (if_ (at_ Tok_3Dot) (
          _ <~ take_term;
          exp_nlr_ fuel)
        (if_ (at_ Tok_function) (
          _ <~ lambdecl_ fuel;
          exp_nlr_ fuel)
        (if_ (at_any [Tok_Lpar; Tok_Name]) (
          _ <~ prefixexp fuel;
          exp_nlr_ fuel)
        (if_ (at_ Tok_Lbrace) (
          _ <~ tableconstructor fuel;
          exp_nlr_ fuel)
        (if_ (at_any [Tok_Hash; Tok_Minus; Tok_not]) (
          _ <~ unop;
          _ <~ exp fuel;
          exp_nlr_ fuel) (SynErr 66 (Some (qb "exp")))))))))))))
  end

(** [src/LuaParser.cpp:393-402] explist *)
with explist (fuel : nat) {struct fuel} : PM unit :=
  match fuel with
  | O => rfail
  | Datatypes.S fuel =>
      rule_node R_explist (
        _ <~ exp fuel;
        while_ (at_ Tok_Comma) (
          _ <~ take_term;
          exp fuel))
  end

(** [src/LuaParser.cpp:420-433] funcbody *)
with funcbody (fuel : nat) {struct fuel} : PM unit :=
  match fuel with
  | O => rfail
  | Datatypes.S fuel =>
      rule_node R_funcbody (
        _ <~ term Tok_Lpar (qb "funcbody");
        _ <~ when_ (at_any [Tok_3Dot; Tok_Name]) parlist;
        _ <~ term Tok_Rpar (qb "funcbody");
        _ <~ block fuel;
        term Tok_end (qb "funcbody"))
  end

(** [src/LuaParser.cpp:435-443] lfuncdecl_ *)
with lfuncdecl_ (fuel : nat) {struct fuel} : PM unit :=
  match fuel with
  | O => rfail
  | Datatypes.S fuel =>
      rule_node R_lfuncdecl_ (
        _ <~ term Tok_function (qb "lfuncdecl_");
        _ <~ term Tok_Name (qb "lfuncdecl_");
        funcbody fuel)
  end

(** [src/LuaParser.cpp:445-454] lvardecl_ *)
with lvardecl_ (fuel : nat) {struct fuel} : PM unit :=
  match fuel with
  | O => rfail
  | Datatypes.S fuel =>
      rule_node R_lvardecl_ (
        _ <~ namelist;
        when_ (at_ Tok_Eq) (
          _ <~ take_term;
          explist fuel))
  end

(** [src/LuaParser.cpp:469-491] prefixexp *)
with prefixexp (fuel : nat) {struct fuel} : PM unit :=
  match fuel with
  | O => rfail
  | Datatypes.S fuel =>
      rule_node R_prefixexp (
        _ <~ if_ (at_ Tok_Name) take_term
        (if_ (at_ Tok_Lpar) (
          _ <~ take_term;
          _ <~ exp fuel;
          term Tok_Rpar (qb "prefixexp")) (SynErr 67 (Some (qb "prefixexp"))));
        while_ (StartOf 3) (
          if_ (at_ Tok_Lbrack) (index_ fuel)
          (if_ (at_ Tok_Dot) desig_ (call_ fuel))))
  end

(** [src/LuaParser.cpp:493-504] assignment_ *)
with assignment_ (fuel : nat) {struct fuel} : PM unit :=
  match fuel with
  | O => rfail
  | Datatypes.S fuel =>
      rule_node R_assignment_ (
        _ <~ while_ (at_ Tok_Comma) (
          _ <~ take_term;
          prefixexp fuel);
        _ <~ term Tok_Eq (qb "assignment_");
        explist fuel)
  end

(** [src/LuaParser.cpp:506-516] call_ *)
with call_ (fuel : nat) {struct fuel} : PM unit :=
  match fuel with
  | O => rfail
  | Datatypes.S fuel =>
      rule_node R_call_ (
        _ <~ when_ (at_ Tok_Colon) (
          _ <~ take_term;
          term Tok_Name (qb "call_"));
        args fuel)
  end

(** [src/LuaParser.cpp:518-535] args *)
with args (fuel : nat) {struct fuel} : PM unit :=
  match fuel with
  | O => rfail
  | Datatypes.S fuel =>
      rule_node R_args (
        if_ (at_ Tok_Lpar) (
          _ <~ take_term;
          _ <~ when_ (StartOf 2) (explist fuel);
          term Tok_Rpar (qb "args"))
        (if_ (at_ Tok_Lbrace) (tableconstructor fuel)
        (if_ (at_ Tok_String) take_term (SynErr 68 (Some (qb "args"))))))
  end

(** [src/LuaParser.cpp:546-552] exp_nlr_ *)
with exp_nlr_ (fuel : nat) {struct fuel} : PM unit :=
  match fuel with
  | O => rfail
  | Datatypes.S fuel =>
      when_ (StartOf 4) (
        _ <~ binop;
        _ <~ exp fuel;
        exp_nlr_ fuel)
  end

(** [src/LuaParser.cpp:554-560] lambdecl_ *)
with lambdecl_ (fuel : nat) {struct fuel} : PM unit :=
  match fuel with
  | O => rfail
  | Datatypes.S fuel =>
      rule_node R_lambdecl_ (
        _ <~ term Tok_function (qb "lambdecl_");
        funcbody fuel)
  end

(** [src/LuaParser.cpp:562-572] tableconstructor *)
with tableconstructor (fuel : nat) {struct fuel} : PM unit :=
  match fuel with
  | O => rfail
  | Datatypes.S fuel =>
      rule_node R_tableconstructor (
        _ <~ term Tok_Lbrace (qb "tableconstructor");
        _ <~ when_ (StartOf 5) (fieldlist fuel);
        term Tok_Rbrace (qb "tableconstructor"))
  end

(** [src/LuaParser.cpp:672-680] index_ *)
with index_ (fuel : nat) {struct fuel} : PM unit :=
  match fuel with
  | O => rfail
  | Datatypes.S fuel =>
      rule_node R_index_ (
        _ <~ term Tok_Lbrack (qb "index_");
        _ <~ exp fuel;
        term Tok_Rbrack (qb "index_"))
  end

(** [src/LuaParser.cpp:699-710] fieldlist *)
with fieldlist (fuel : nat) {struct fuel} : PM unit :=
  match fuel with
  | O => rfail
  | Datatypes.S fuel =>
      rule_node R_fieldlist (
        _ <~ field fuel;
        _ <~ while_ (and_ (or_ (peek_is 1 Tok_Comma) (peek_is 1 Tok_Semi)) (not_ (peek_is 2 Tok_Rbrace))) (
          _ <~ fieldsep;
          field fuel);
        when_ (at_any [Tok_Comma; Tok_Semi]) (fieldsep))
  end

(** [src/LuaParser.cpp:712-729] field *)
with field (fuel : nat) {struct fuel} : PM unit :=
  match fuel with
  | O => rfail
  | Datatypes.S fuel =>
      rule_node R_field (
        if_ (at_ Tok_Lbrack) (
          _ <~ index_ fuel;
          _ <~ term Tok_Eq (qb "field");
          exp fuel)
        (if_ (and_ (peek_is 1 Tok_Name) (peek_is 2 Tok_Eq)) (
          _ <~ term Tok_Name (qb "field");
          _ <~ term Tok_Eq (qb "field");
          exp fuel)
        (if_ (StartOf 2) (exp fuel) (SynErr 72 (Some (qb "field"))))))
  end.

(** [src/LuaParser.cpp:110-114] Lua *)
Definition Lua (fuel : nat) : PM unit :=
  chunk fuel.

(** [src/LuaParser.cpp:834-840] Parse *)
Definition parse (fuel : nat) : SM (Parser S TokenType ParserRule) SynTree := RunParser limit (Lua fuel).
End Rules.
