(* ===== verification/LuaParserSpec.v ===== *)
(** * The parser of Lua builds trees of the grammar *)

From S2P Require Import Prelude ErrorList LexCore LuaToken LuaLexer SyntaxTree LuaTree LuaGrammar ParserCore ParserSpec LuaParser.
From Stdlib Require Import Strings.Byte.
Local Open Scope Z_scope.
Local Open Scope rd_scope.

#[export] Instance Lua_kind_laws : KindLaws TokenType.
Proof. split; [|done..]. intros k. apply (bool_decide_unpack _). destruct k; vm_compute; exact I. Qed.

Section Spec.
Context {S : Type} `{!Scanner S TokenType} `{!ScannerLaws S TokenType} (limit : nat) (e0 : Errors) (Hrec : recording e0).
Abbreviation ok := (ParserSpec.ok (R := ParserRule) (S := S) limit e0).
Abbreviation is_ k := (fun k' : TokenType => bool_decide (k' = k)).
Abbreviation in_ l := (fun k' : TokenType => bool_decide (k' ∈ l)).


(** ** Procedures that do not call themselves *)
Lemma desig_ok P n : implied P (is_ Tok_Dot) -> ok P (nt R_desig_) true n (desig_ limit).
Proof using Hrec. intros HP. eapply ok_known; [exact HP|]. unfold desig_. walk. Qed.
#[local] Hint Resolve desig_ok : procs.
Lemma funcname_ok P n : ok P (nt R_funcname) false n (funcname limit).
Proof using Hrec. apply ok_top. unfold funcname. walk. Qed.
Lemma namelist_ok P n : ok P (nt R_namelist) false n (namelist limit).
Proof using Hrec. apply ok_top. unfold namelist. walk. Qed.
#[local] Hint Resolve funcname_ok namelist_ok : procs.
Lemma unop_ok P n : implied P (in_ [Tok_Hash; Tok_Minus; Tok_not]) -> ok P (nt R_unop) true n (unop limit).
Proof using Hrec. intros HP. eapply ok_known; [exact HP|]. unfold unop. walk. Qed.
Lemma binop_ok P n : implied P (in_start 4) -> ok P (nt R_binop) true n (binop limit).
Proof using Hrec. intros HP. eapply ok_known; [exact HP|]. unfold binop. walk. Qed.
Lemma parlist_ok P n : ok P (nt R_parlist) false n (parlist limit).
Proof using Hrec. apply ok_top. unfold parlist. walk. Qed.
Lemma fieldsep_ok P n : implied P (in_ [Tok_Comma; Tok_Semi]) -> ok P (nt R_fieldsep) true n (fieldsep limit).
Proof using Hrec. intros HP. eapply ok_known; [exact HP|]. unfold fieldsep. walk. Qed.
#[local] Hint Resolve unop_ok binop_ok parlist_ok fieldsep_ok : procs.

(** ** Procedures that call each other *)

(** The depth of calls for less than [n] tokens: a procedure that takes no token before it calls another one has a
    larger rank, and there are 19 ranks at most. *)
Definition enough (rank n fuel : nat) : Prop := n = 0%nat \/ (20 * n + rank <= 20 + fuel)%nat.

Record works (fuel : nat) : Prop := {
  w_chunk P n : enough 7 n fuel -> ok P (nt R_chunk) false n (chunk limit fuel);
  w_stat P n : enough 6 n fuel -> implied P (in_start 1) -> ok P (nt R_stat) true n (stat limit fuel);
  w_laststat P n : enough 1 n fuel -> implied P (in_ [Tok_break; Tok_return]) -> ok P (nt R_laststat) true n (laststat limit fuel);
  w_block P n : enough 8 n fuel -> ok P (nt R_block) false n (block limit fuel);
  w_assigOrCall P n : enough 5 n fuel -> implied P (in_ [Tok_Lpar; Tok_Name]) -> ok P (nt R_assigOrCall_) true n (assigOrCall_ limit fuel);
  w_dostat P n : enough 1 n fuel -> implied P (is_ Tok_do) -> ok P (nt R_dostat_) true n (dostat_ limit fuel);
  w_whilestat P n : enough 1 n fuel -> implied P (is_ Tok_while) -> ok P (nt R_whilestat_) true n (whilestat_ limit fuel);
  w_repeatstat P n : enough 1 n fuel -> implied P (is_ Tok_repeat) -> ok P (nt R_repeatstat_) true n (repeatstat_ limit fuel);
  w_ifstat P n : enough 1 n fuel -> implied P (is_ Tok_if) -> ok P (nt R_ifstat_) true n (ifstat_ limit fuel);
  w_forstat P n : enough 1 n fuel -> implied P (is_ Tok_for) -> ok P (nt R_forstat_) true n (forstat_ limit fuel);
  w_gfuncdecl P n : enough 1 n fuel -> implied P (is_ Tok_function) -> ok P (nt R_gfuncdecl_) true n (gfuncdecl_ limit fuel);
  w_localdecl P n : enough 1 n fuel -> implied P (is_ Tok_local) -> ok P (nt R_localdecl_) true n (localdecl_ limit fuel);
  w_exp P n : enough 5 n fuel -> ok P (nt R_exp) false n (exp limit fuel);
  w_explist P n : enough 6 n fuel -> ok P (nt R_explist) false n (explist limit fuel);
  w_funcbody P n : enough 9 n fuel -> ok P (nt R_funcbody) false n (funcbody limit fuel);
  w_lfuncdecl P n : enough 1 n fuel -> implied P (is_ Tok_function) -> ok P (nt R_lfuncdecl_) true n (lfuncdecl_ limit fuel);
  w_lvardecl P n : enough 7 n fuel -> ok P (nt R_lvardecl_) false n (lvardecl_ limit fuel);
  w_prefixexp P n : enough 4 n fuel -> implied P (in_ [Tok_Lpar; Tok_Name]) -> ok P (nt R_prefixexp) true n (prefixexp limit fuel);
  w_prefixexp_any P n : enough 6 n fuel -> ok P (nt R_prefixexp) false n (prefixexp limit fuel);
  w_assignment P n : enough 7 n fuel -> ok P (nt R_assignment_) false n (assignment_ limit fuel);
  w_call P n : enough 3 n fuel -> implied P (in_ [Tok_Lpar; Tok_Colon; Tok_Lbrace; Tok_String]) -> ok P (nt R_call_) true n (call_ limit fuel);
  w_args P n : enough 2 n fuel -> implied P (in_ [Tok_Lpar; Tok_Lbrace; Tok_String]) -> ok P (nt R_args) true n (args limit fuel);
  w_args_any P n : enough 2 n fuel -> ok P (nt R_args) false n (args limit fuel);
  w_exp_nlr P n : enough 1 n fuel -> ok P (Star (nt R_binop ** nt R_exp)%re) false n (exp_nlr_ limit fuel);
  w_lambdecl P n : enough 1 n fuel -> implied P (is_ Tok_function) -> ok P (nt R_lambdecl_) true n (lambdecl_ limit fuel);
  w_tableconstructor P n : enough 1 n fuel -> implied P (is_ Tok_Lbrace) -> ok P (nt R_tableconstructor) true n (tableconstructor limit fuel);
  w_index P n : enough 1 n fuel -> implied P (is_ Tok_Lbrack) -> ok P (nt R_index_) true n (index_ limit fuel);
  w_fieldlist P n : enough 7 n fuel -> ok P (nt R_fieldlist) false n (fieldlist limit fuel);
  w_field P n : enough 6 n fuel -> ok P (nt R_field) false n (field limit fuel)
}.
#[local] Hint Resolve w_chunk w_stat w_laststat w_block w_assigOrCall w_dostat w_whilestat w_repeatstat w_ifstat w_forstat
  w_gfuncdecl w_localdecl w_exp w_explist w_funcbody w_lfuncdecl w_lvardecl w_prefixexp w_prefixexp_any w_assignment w_call
  w_args w_args_any w_exp_nlr w_lambdecl w_tableconstructor w_index w_fieldlist w_field : procs.

Section Step.
Context (fuel : nat) (W : works fuel).
#[local] Hint Extern 1 (enough _ _ _) => unfold enough in *; lia : procs.
#[local] Hint Extern 1 (works _) => exact W : procs.
Ltac body n :=
  intros [->|H]; [by intros; apply ok_zero|];
  lazymatch goal with |- implied _ _ -> _ => intros HP; eapply ok_known; [exact HP|] | _ => apply ok_top end; simpl; walk.

Lemma lua_works_step : works (Datatypes.S fuel).
Proof using Hrec W. constructor; intros P n; body n. Qed.
End Step.

Lemma lua_works fuel : works fuel.
Proof using Hrec.
  induction fuel as [|fuel IH]; [|by apply lua_works_step].
  constructor; intros P n H; (assert (n = 0%nat) as -> by (destruct H; lia)); intros; apply ok_zero.
Qed.

(** ** The parser *)

(** The parser of Lua ends on every text, the errors that were reported before it are kept, and when it reports none the
    tree is that of the grammar: it has exactly the tokens of the text, without comments, commas and semicolons,
    in their order. *)
Lemma lua_parser_builds_trees x ts fuel : ahead x ts -> (length ts + 2 <= limit)%nat -> (20 * length ts + 7 <= fuel)%nat ->
  comments_bounded ts ->
  exists st p, parse limit fuel (new_Parser x (Some e0)) = Some (st, p) /\ grows (Some e0) (errors p) /\
    (errors p = Some e0 -> tree_of R_chunk ts st).
Proof using Hrec.
  intros Ha Hl Hf Hc. apply wp_Some. eapply run_sound; [done..|]. apply (w_chunk _ (lua_works fuel)). right. lia.
Qed.
End Spec.
