(* ===== verification/LuaSource.v ===== *)
(** * From the text of Lua to a tree

    The lexer of Lua behind its parser. *)

From S2P Require Import Prelude ErrorList LexCore LexCoreSpec LuaToken LuaLexer LuaLexerSpec SyntaxTree LuaTree LuaGrammar.
From S2P Require Import ParserCore ParserSpec LexScanner LuaParser LuaParserSpec.
From Stdlib Require Import Strings.Byte.
Local Open Scope Z_scope.
Local Open Scope rd_scope.

(** ** The lexer of Lua does not depend on errors and buffers *)
Lemma blind_number : blind LuaLexer.number.
Proof. unfold LuaLexer.number. blind. Qed.
Lemma blind_comment : blind comment.
Proof. unfold comment. blind. Qed.
Lemma blind_string_loop n o off s : blind (string_loop n o off s).
Proof. revert off s. induction n as [|n IH]; intros off s; [done|]. cbn [string_loop]. blind. Qed.
#[local] Hint Resolve blind_string_loop : blind.
Lemma blind_string : blind string_.
Proof. unfold string_. blind. Qed.
Lemma blind_long_loop n e p s : blind (long_loop n e p s).
Proof. revert p s. induction n as [|n IH]; intros p s; [done|]. cbn [long_loop]. blind. Qed.
#[local] Hint Resolve blind_long_loop : blind.
Lemma blind_long_body e : blind (long_body e).
Proof. unfold long_body. blind. Qed.
#[local] Hint Resolve blind_long_body : blind.
Lemma blind_longstring : blind longstring.
Proof. unfold longstring. blind. Qed.
#[local] Hint Resolve blind_number blind_comment blind_string blind_longstring : blind.
Lemma lua_here_blind : blind token_here.
Proof. unfold token_here. blind. Qed.

#[export] Instance Lua_scanner_laws : ScannerLaws Lexer TokenType := scanner_laws token_here lua_here_blind wp_token_here.

(** ** The parser of a text *)

(** [Parser], behind a [Lexer] with a text. *)
Definition parse_text (limit fuel : nat) (code path : bytes) (x : Lexer) (e : Errors) : option (SynTree * Parser Lexer TokenType ParserRule) :=
  match setStream code path x with Some (_, x) => parse limit fuel (new_Parser x (Some e)) | None => None end.


Definition sample_text : bytes := qb "local a = b.c  function f(x, ...) --[[ c ]] return x, -2 end  f{1; k = a}".
Definition recorder : Errors := setRecord true new_Errors.
Definition parse_lexer : Lexer := setIgnoreComments false new_Lexer.


(** The texts of the tokens in a tree. *)
Definition show (t : NodeToken) : bytes := match d_type t with Tk t' => if bool_decide (d_val t = []) then tokenTypeString t' else d_val t | _ => [] end.
Definition shown (code : string) : option (list bytes * list bytes) :=
  match parse_text 200 2000 (qb code) [] parse_lexer recorder with
  | Some (Node _ [c], p) => Some (map show (leaves c), match errors p with Some e => map d_msg (d_entries e) | None => [] end)
  | _ => None
  end.

Example shown_sample : shown "local a, b = b.c -- c
  function f(x, ...) return x end" =
  Some (map qb ["local"; "a"; "b"; "="; "b"; "."; "c"; "function"; "f"; "("; "x"; "..."; ")"; "return"; "x"; "end"]%string, []).
Proof. vm_compute. reflexivity. Qed.

(** A token that is invalid is reported by the lexer, and again by the parser, which calls it the end of the file; the tree
    is that of the text without it. *)
Remark invalid_reported_twice : shown "x = 1 $ y = 2" = Some (map qb ["x"; "="; "1"; "y"; "="; "2"]%string,
  [qb "unexpected character '$' 36"; qb "EOF expected in unexpected character '$' 36"]).
Proof. vm_compute. reflexivity. Qed.

(** The parser leaves a statement with the first token that is not expected, and leaves the rest of the text. *)
Remark rest_not_parsed : shown "local x <const> = 1" = Some (map qb ["local"; "x"]%string, [qb "EOF expected in Parse"]).
Proof. vm_compute. reflexivity. Qed.
