(* ===== verification/LuaModule.v ===== *)
(** * Names and scopes of a Lua module

    [LuaModule.h/.cpp]: the walk over the syntax tree of a text that finds the declarations
    of local and global names and which of them each name means.  Declarations, uses and
    scopes are things with addresses and reference counts. *)

From S2P Require Import Prelude LexCore LuaToken SyntaxTree LuaTree ErrorList.
From Stdlib Require Import Strings.Byte.
Local Open Scope Z_scope.
Local Open Scope rd_scope.

(** ** Things *)

(** [src/LuaModule.h:103-103] Kind *)
Inductive FunKind : Type := F_Local | F_NonLocal | F_Global.

(** Names are keys by the address of their only copy, so by their texts.
    [src/LuaModule.h:83-94] Scope *)
Record ScopeData := mkScope {
  d_outer : option nat;
  d_names : gmap bytes nat;
  d_locals : list nat;
  d_stats : list nat;
  d_refs : list nat
}.

(** The classes that are derived from [Thing]; [d_owner] of a variable is never used.
    [src/LuaModule.h:62-121] Thing *)
Inductive ThingData : Type :=
  | T_Variable
  | T_SymbolUse (d_sym : nat) (d_lhs d_implicitDecl : bool)
  | T_Block (s : ScopeData)
  | T_Function (s : ScopeData) (d_parCount : Z) (d_kind : FunKind)
  | T_Global (s : ScopeData)
  | T_GlobalSym (d_builtIn : bool).

(** [src/LuaModule.h:48-60] Thing *)
Record Thing := mkThing { t_tok : NodeToken; d_uses : list nat; t_data : ThingData }.

Definition scope_data (d : ThingData) : option ScopeData :=
  match d with T_Block s | T_Function s _ _ | T_Global s => Some s | _ => None end.
Definition with_scope (s : ScopeData) (d : ThingData) : ThingData :=
  match d with
  | T_Block _ => T_Block s | T_Function _ n k => T_Function s n k | T_Global _ => T_Global s
  | d => d
  end.
Definition new_scope (outer : option nat) : ScopeData := mkScope outer ∅ [] [] [].

(** ** State *)

(** [things] has the things by their addresses, [None] for those that have been deleted;
    [elsewhere] are the references from other objects; [d_err] is [None] for a null pointer.
    [src/LuaModule.h:155-160] Module *)
Record Module := mkModule {
  things : list (option Thing);
  elsewhere : list nat;
  d_err : option Errors;
  d_global : option nat;
  d_topChunk : option nat;
  d_nonLocals : list nat;
  d_path : bytes
}.

Abbreviation MM := (SM Module).

Definition set_things (l : list (option Thing)) (m : Module) : Module :=
  mkModule l (elsewhere m) (d_err m) (d_global m) (d_topChunk m) (d_nonLocals m) (d_path m).
Definition set_errors (e : option Errors) (m : Module) : Module :=
  mkModule (things m) (elsewhere m) e (d_global m) (d_topChunk m) (d_nonLocals m) (d_path m).
(** [src/LuaModule.h:134-134] setGlobal *)
Definition set_global (g : option nat) (m : Module) : Module :=
  mkModule (things m) (elsewhere m) (d_err m) g (d_topChunk m) (d_nonLocals m) (d_path m).
Definition set_topChunk (t : option nat) (m : Module) : Module :=
  mkModule (things m) (elsewhere m) (d_err m) (d_global m) t (d_nonLocals m) (d_path m).
Definition set_nonLocals (l : list nat) (m : Module) : Module :=
  mkModule (things m) (elsewhere m) (d_err m) (d_global m) (d_topChunk m) l (d_path m).
Definition set_mpath (p : bytes) (m : Module) : Module :=
  mkModule (things m) (elsewhere m) (d_err m) (d_global m) (d_topChunk m) (d_nonLocals m) p.

(** The thing at an address, unless it has been deleted. *)
Definition at_addr (m : Module) (a : nat) : option Thing := mjoin (things m !! a).
Definition scope_at (m : Module) (a : nat) : option ScopeData := t ← at_addr m a; scope_data (t_data t).

Definition get_thing (a : nat) : MM Thing := o <~ rget (fun m => at_addr m a); mderef o.
Definition get_scope (a : nat) : MM ScopeData := o <~ rget (fun m => scope_at m a); mderef o.

Definition put (a : nat) (t : option Thing) (m : Module) : Module := set_things (<[a := t]> (things m)) m.
Definition alloc (t : Thing) : MM nat :=
  fun m => Some (length (things m), set_things (things m ++ [Some t]) m).
Definition mod_thing (a : nat) (f : Thing -> Thing) : MM unit :=
  t <~ get_thing a; rmod (put a (Some (f t))).
Definition mod_scope (a : nat) (f : ScopeData -> ScopeData) : MM unit :=
  t <~ get_thing a;
  s <~ mderef (scope_data (t_data t));
  rmod (put a (Some (mkThing (t_tok t) (d_uses t) (with_scope (f s) (t_data t))))).

Definition add_local (a : nat) (s : ScopeData) : ScopeData := mkScope (d_outer s) (d_names s) (d_locals s ++ [a]) (d_stats s) (d_refs s).
Definition add_stat (a : nat) (s : ScopeData) : ScopeData := mkScope (d_outer s) (d_names s) (d_locals s) (d_stats s ++ [a]) (d_refs s).
Definition add_ref (a : nat) (s : ScopeData) : ScopeData := mkScope (d_outer s) (d_names s) (d_locals s) (d_stats s) (d_refs s ++ [a]).
Definition add_use (a : nat) (t : Thing) : Thing := mkThing (t_tok t) (d_uses t ++ [a]) (t_data t).

(** ** References *)

(** The references a thing has. *)
Definition scope_refs (s : ScopeData) : list nat := map snd (map_to_list (d_names s)) ++ d_locals s ++ d_stats s ++ d_refs s.
Definition owned (t : Thing) : list nat :=
  d_uses t ++ match scope_data (t_data t) with Some s => scope_refs s | None => [] end.

(** All references there are. *)
Definition references (m : Module) : list nat :=
  elsewhere m ++ option_list (d_global m) ++ option_list (d_topChunk m) ++ d_nonLocals m ++
  flat_map (fun o => match o with Some t => owned t | None => [] end) (things m).

(** A reference to the thing is gone: without another one the thing is deleted, and the
    references it has. *)
Fixpoint release_in (fuel : nat) (a : nat) : MM unit :=
  match fuel with
  | O => rfail
  | S fuel =>
      m <~ rget id;
      if bool_decide (a ∈ references m) then rret tt
      else match at_addr m a with
           | None => rret tt
           | Some t => _ <~ rmod (put a None); mfor (owned t) (release_in fuel)
           end
  end.
Definition release (a : nat) : MM unit := m <~ rget id; release_in (S (length (things m))) a.
Definition release_all (l : list nat) : MM unit := mfor l release.

(** [QHash::insert], which takes the place of an entry with the same key. *)
Definition insert_name (s : nat) (name : bytes) (a : nat) : MM unit :=
  d <~ get_scope s;
  _ <~ mod_scope s (fun d => mkScope (d_outer d) (<[name := a]> (d_names d)) (d_locals d) (d_stats d) (d_refs d));
  match d_names d !! name with Some old => release old | None => rret tt end.

(** The scopes are searched from the inner to the outer ones.
    [src/LuaModule.cpp:543-552] find *)
Fixpoint find_in (fuel : nat) (s : nat) (name : bytes) : MM (option nat) :=
  match fuel with
  | O => rfail
  | S fuel =>
      d <~ get_scope s;
      match d_names d !! name with
      | Some a => rret (Some a)
      | None => match d_outer d with Some o => find_in fuel o name | None => rret None end
      end
  end.
Definition find (s : nat) (name : bytes) : MM (option nat) := m <~ rget id; find_in (S (length (things m))) s name.

Definition the_global : MM nat := o <~ rget d_global; mderef o.

(** [src/LuaModule.cpp:535-541] clear *)
Definition clear_global (g : nat) : MM unit :=
  d <~ get_scope g;
  _ <~ mod_scope g (fun _ => new_scope (d_outer d));
  release_all (scope_refs d).

(** ** Names that are built in *)

(** [src/LuaModule.cpp:181-187] addBuiltInSym *)
Definition addBuiltInSym (g : nat) (name : bytes) : MM unit :=
  sym <~ alloc (mkThing (mkToken (Tk Tok_Name) 0 0 0 name []) [] (T_GlobalSym true));
  insert_name g name sym.

(** [src/LuaModule.cpp:150-178] initBuiltIns *)
Definition builtins : list bytes := map qb
  ["_G"; "_VERSION"; "assert"; "collectgarbage"; "dofile"; "error"; "getfenv"; "getmetatable"; "ipairs"; "load";
   "loadfile"; "loadstring"; "module"; "next"; "pairs"; "pcall"; "print"; "rawequal"; "rawget"; "rawset"; "require";
   "select"; "setfenv"; "setmetatable"; "tonumber"; "tostring"; "type"; "unpack"; "xpcall"]%string.

(** [src/LuaModule.cpp:148-179] initBuiltIns *)
Definition initBuiltIns (g : nat) : MM unit := mfor builtins (addBuiltInSym g).

(** ** The walk over the tree *)

(** A warning about a token; the pointer to the errors must not be null. *)
Definition warn_at (tok : NodeToken) (msg : bytes) : MM unit :=
  e <~ rget d_err;
  e <~ mderef e;
  rmod (set_errors (Some (warning S_Semantics (d_sourcePath tok) (d_lineNr tok) (d_colNr tok) msg e))).

Definition first (st : SynTree) : MM SynTree := mderef (hd_error (d_children st)).
Definition last_child (st : SynTree) : MM SynTree := mderef (last (d_children st)).
Definition child_at (st : SynTree) (i : nat) : MM SynTree := mderef (d_children st !! i).

(** A thing with the token of a node. *)
Definition new_thing (tok : NodeToken) (d : ThingData) : Thing := mkThing tok [] d.
(** [src/LuaModule.cpp:378-381] namelist *)
Definition declare (scope : nat) (tok : NodeToken) : MM unit :=
  v <~ alloc (new_thing tok T_Variable);
  _ <~ mod_scope scope (add_local v);
  insert_name scope (d_val tok) v.

(** [src/LuaModule.cpp:374-383] namelist *)
Definition namelist (nl : SynTree) (scope : nat) : MM unit := mfor (d_children nl) (fun n => declare scope (d_tok n)).

(** The first use of a global name declares it, and is not kept as a use.
    [src/LuaModule.cpp:494-522] use *)
Definition use (st : SynTree) (scope : nat) (lhs : bool) : MM unit :=
  _ <~ massert (has_type st (Tk Tok_Name));
  decl <~ find scope (st_val st);
  r <~ match decl with
       | Some a => rret (Some a, false)
       | None =>
           g <~ the_global;
           decl <~ find g (st_val st);
           match decl with
           | Some a => rret (Some a, false)
           | None =>
               sym <~ alloc (new_thing (d_tok st) (T_GlobalSym false));
               _ <~ insert_name g (st_val st) sym;
               _ <~ warn_at (d_tok st) (qb "implicit global declaration '" ++ st_val st ++ qb "'");
               rret (None, true)
           end
       end;
  let '(decl, implicitDecl) := r : option nat * bool in
  match decl with
  | Some decl =>
      s <~ alloc (new_thing (d_tok st) (T_SymbolUse decl lhs implicitDecl));
      _ <~ mod_thing decl (add_use s);
      mod_scope scope (add_ref s)
  | None => rret tt
  end.

(** The names of a function that is a field, with dots between.
    [src/LuaModule.cpp:448-463] gfuncdecl *)
Fixpoint dotted_names (l : list SynTree) : MM (list bytes) :=
  match l with
  | [] => rret []
  | name :: l =>
      v <~ match st_type name with
           | Tk Tok_Name => rret [st_val name]
           | Rule R_desig_ =>
               _ <~ massert (bool_decide (length (d_children name) = 2%nat));
               n <~ last_child name;
               _ <~ massert (has_type n (Tk Tok_Name));
               rret [st_val n]
           | _ => rret []
           end;
      vs <~ dotted_names l;
      rret (v ++ vs)
  end.

Fixpoint join (sep : bytes) (l : list bytes) : bytes :=
  match l with [] => [] | [s] => s | s :: l => s ++ sep ++ join sep l end.

Definition is_stat (st : SynTree) : bool := has_type st (Rule R_stat) || has_type st (Rule R_laststat).

(** The chunk in a block. *)
Definition block_chunk (st : SynTree) : MM SynTree :=
  c <~ first st;
  _ <~ massert (has_type c (Rule R_chunk));
  rret c.

(** A block within a scope. *)
Definition new_block (tok : NodeToken) (scope : nat) : MM nat :=
  b <~ alloc (new_thing tok (T_Block (new_scope (Some scope))));
  _ <~ mod_scope scope (add_stat b);
  rret b.

Definition new_function (tok : NodeToken) (scope : nat) (kind : FunKind) : MM nat :=
  alloc (new_thing tok (T_Function (new_scope (Some scope)) 0 kind)).

Definition set_parCount (n : Z) (t : Thing) : Thing :=
  mkThing (t_tok t) (d_uses t) match t_data t with T_Function s _ k => T_Function s n k | d => d end.

(** The parameters are declared; the result is the position of the parenthesis behind them.
    [src/LuaModule.cpp:354-366] funcbody *)
Definition parameters (st : SynTree) (fun_ : nat) : MM nat :=
  c <~ child_at st 1;
  if has_type c (Rule R_parlist) then
    n <~ first c;
    _ <~ (if has_type n (Rule R_namelist) then
            _ <~ mod_thing fun_ (set_parCount (u16 (Z.of_nat (length (d_children n)))));
            namelist n fun_
          else rret tt);
    rret 2%nat
  else rret 1%nat.

(** A function that is global, or a field.
    [src/LuaModule.cpp:433-468] gfuncdecl *)
Definition global_function (names : SynTree) (scope : nat) : MM nat :=
  if bool_decide (length (d_children names) = 1%nat) then
    n <~ first names;
    f <~ new_function (d_tok n) scope F_Global;
    g <~ the_global;
    d <~ get_scope g;
    _ <~ (match d_names d !! st_val n with
          | Some _ => warn_at (d_tok n) (qb "overwriting existing global variable '" ++ st_val n ++ qb "'")
          | None => rret tt
          end);
    _ <~ insert_name g (st_val n) f;
    _ <~ rmod (fun m => set_nonLocals (d_nonLocals m ++ [f]) m);
    rret f
  else
    str <~ dotted_names (d_children names);
    let t := d_tok names in
    f <~ new_function (mkToken (Tk Tok_Designator) (d_lineNr t) (d_colNr t) (d_len t) (join [x2e] str) (d_sourcePath t)) scope F_NonLocal;
    _ <~ rmod (fun m => set_nonLocals (d_nonLocals m ++ [f]) m);
    rret f.

(** What the statements are told apart by. *)
Inductive StatKind : Type := K_assigOrCall | K_gfuncdecl | K_forstat | K_localdecl | K_other.
Definition stat_kind (t : NodeType) : StatKind :=
  match t with
  | Rule R_assigOrCall_ => K_assigOrCall | Rule R_gfuncdecl_ => K_gfuncdecl
  | Rule R_forstat_ => K_forstat | Rule R_localdecl_ => K_localdecl
  | _ => K_other
  end.

(** The functions call each other with the nodes of the tree; [fuel] bounds its height. *)

(** [src/LuaModule.cpp:211-218] chunk *)
Fixpoint chunk (fuel : nat) (st : SynTree) (c : nat) {struct fuel} : MM unit :=
  match fuel with
  | O => rfail
  | S fuel => mfor (d_children st) (fun sub => _ <~ massert (is_stat sub); stat fuel sub c)
  end

(** [src/LuaModule.cpp:220-272] stat *)
with stat (fuel : nat) (sta : SynTree) (scope : nat) {struct fuel} : MM unit :=
  match fuel with
  | O => rfail
  | S fuel =>
      mfor (d_children sta) (fun st =>
        match stat_kind (st_type st) with
        | K_assigOrCall =>
            p <~ first st;
            _ <~ massert (has_type p (Rule R_prefixexp));
            if bool_decide (length (d_children st) = 2%nat) then
              _ <~ prefixexp fuel p scope true;
              a <~ last_child st;
              _ <~ massert (has_type a (Rule R_assignment_));
              assignment fuel a scope
            else prefixexp fuel p scope false
        | K_gfuncdecl => gfuncdecl fuel st scope
        | K_forstat => forstat fuel st scope
        | K_localdecl => localdecl fuel st scope
        | K_other =>
            mfor (d_children st) (fun sub =>
              match st_type sub with
              | Rule R_exp => exp fuel sub scope
              | Rule R_block =>
                  b <~ new_block (d_tok st) scope;
                  c <~ block_chunk sub;
                  chunk fuel c b
              | _ => rret tt
              end)
        end)
  end

(** [src/LuaModule.cpp:274-289] localdecl *)
with localdecl (fuel : nat) (st : SynTree) (scope : nat) {struct fuel} : MM unit :=
  match fuel with
  | O => rfail
  | S fuel =>
      _ <~ massert (bool_decide (length (d_children st) = 2%nat));
      l <~ first st;
      _ <~ massert (has_type l (Tk Tok_local));
      d <~ last_child st;
      match st_type d with
      | Rule R_lfuncdecl_ => lfuncdecl fuel d scope
      | Rule R_lvardecl_ => lvardecl fuel d scope
      | _ => rfail
      end
  end

(** [src/LuaModule.cpp:291-301] lvardecl *)
with lvardecl (fuel : nat) (st : SynTree) (scope : nat) {struct fuel} : MM unit :=
  match fuel with
  | O => rfail
  | S fuel =>
      nl <~ first st;
      _ <~ massert (has_type nl (Rule R_namelist));
      _ <~ (if bool_decide (1 < length (d_children st))%nat then
              e <~ child_at st 1;
              _ <~ massert (has_type e (Tk Tok_Eq));
              l <~ last_child st;
              explist fuel l scope
            else rret tt);
      namelist nl scope
  end

(** [src/LuaModule.cpp:303-308] explist *)
with explist (fuel : nat) (st : SynTree) (scope : nat) {struct fuel} : MM unit :=
  match fuel with
  | O => rfail
  | S fuel => _ <~ first st; mfor (d_children st) (fun sub => exp fuel sub scope)
  end

(** [src/LuaModule.cpp:310-334] exp *)
with exp (fuel : nat) (st : SynTree) (scope : nat) {struct fuel} : MM unit :=
  match fuel with
  | O => rfail
  | S fuel =>
      mfor (d_children st) (fun sub =>
        match st_type sub with
        | Rule R_lambdecl_ => lambdecl fuel sub scope
        | Rule R_prefixexp => prefixexp fuel sub scope false
        | _ => exp fuel sub scope
        end)
  end

(** [src/LuaModule.cpp:336-348] lfuncdecl *)
with lfuncdecl (fuel : nat) (st : SynTree) (scope : nat) {struct fuel} : MM unit :=
  match fuel with
  | O => rfail
  | S fuel =>
      _ <~ massert (bool_decide (length (d_children st) = 3%nat));
      f <~ first st; n <~ child_at st 1; body <~ last_child st;
      _ <~ massert (has_type f (Tk Tok_function) && has_type n (Tk Tok_Name) && has_type body (Rule R_funcbody));
      fun_ <~ new_function (d_tok n) scope F_Local;
      _ <~ insert_name scope (st_val n) fun_;
      _ <~ mod_scope scope (add_local fun_);
      funcbody fuel body fun_
  end

(** [src/LuaModule.cpp:350-372] funcbody *)
with funcbody (fuel : nat) (st : SynTree) (fun_ : nat) {struct fuel} : MM unit :=
  match fuel with
  | O => rfail
  | S fuel =>
      _ <~ massert (bool_decide (4 <= length (d_children st))%nat);
      l <~ first st; e <~ last_child st;
      _ <~ massert (has_type l (Tk Tok_Lpar) && has_type e (Tk Tok_end));
      rpar <~ parameters st fun_;
      r <~ child_at st rpar; block <~ child_at st (rpar + 1);
      _ <~ massert (has_type r (Tk Tok_Rpar) && has_type block (Rule R_block));
      c <~ block_chunk block;
      chunk fuel c fun_
  end

(** [src/LuaModule.cpp:385-426] forstat *)
with forstat (fuel : nat) (st : SynTree) (scope : nat) {struct fuel} : MM unit :=
  match fuel with
  | O => rfail
  | S fuel =>
      _ <~ massert (bool_decide (7 <= length (d_children st))%nat);
      f <~ first st;
      _ <~ massert (has_type f (Tk Tok_for));
      b <~ new_block (d_tok st) scope;
      mfor (d_children st) (fun sub =>
        match st_type sub with
        | Rule R_exp => exp fuel sub scope
        | Rule R_explist => explist fuel sub scope
        | Rule R_block => c <~ block_chunk sub; chunk fuel c b
        | Tk Tok_Name => declare b (d_tok sub)
        | Tk Tok_end | Tk Tok_Eq | Tk Tok_in | Tk Tok_do | Tk Tok_for => rret tt
        | _ => rfail
        end)
  end

(** [src/LuaModule.cpp:428-470] gfuncdecl *)
with gfuncdecl (fuel : nat) (st : SynTree) (scope : nat) {struct fuel} : MM unit :=
  match fuel with
  | O => rfail
  | S fuel =>
      _ <~ massert (bool_decide (length (d_children st) = 3%nat));
      names <~ child_at st 1; body <~ last_child st;
      _ <~ massert (has_type names (Rule R_funcname) && has_type body (Rule R_funcbody));
      fun_ <~ global_function names scope;
      funcbody fuel body fun_
  end

(** [src/LuaModule.cpp:472-481] prefixexp *)
with prefixexp (fuel : nat) (st : SynTree) (scope : nat) (lhs : bool) {struct fuel} : MM unit :=
  match fuel with
  | O => rfail
  | S fuel =>
      mfor (d_children st) (fun sub => if has_type sub (Tk Tok_Name) then use sub scope lhs else exp fuel sub scope)
  end

(** [src/LuaModule.cpp:483-492] assignment *)
with assignment (fuel : nat) (st : SynTree) (scope : nat) {struct fuel} : MM unit :=
  match fuel with
  | O => rfail
  | S fuel =>
      _ <~ massert (bool_decide (2 <= length (d_children st))%nat);
      l <~ last_child st;
      _ <~ massert (has_type l (Rule R_explist));
      _ <~ explist fuel l scope;
      mfor (d_children st) (fun sub => if has_type sub (Rule R_prefixexp) then prefixexp fuel sub scope true else rret tt)
  end

(** [src/LuaModule.cpp:524-533] lambdecl *)
with lambdecl (fuel : nat) (st : SynTree) (scope : nat) {struct fuel} : MM unit :=
  match fuel with
  | O => rfail
  | S fuel =>
      _ <~ massert (bool_decide (length (d_children st) = 2%nat));
      body <~ last_child st;
      _ <~ massert (has_type body (Rule R_funcbody));
      fun_ <~ new_function (d_tok st) scope F_NonLocal;
      _ <~ funcbody fuel body fun_;
      rmod (fun m => set_nonLocals (d_nonLocals m ++ [fun_]) m)
  end.

(** [src/LuaModule.cpp:189-209] analyze *)
Fixpoint analyze (fuel : nat) (st : SynTree) : MM unit :=
  match fuel with
  | O => rfail
  | S fuel =>
      match st_type st with
      | Tk Tok_Invalid => c <~ first st; analyze fuel c
      | Rule R_chunk =>
          top <~ alloc (new_thing (d_tok st) (T_Block (new_scope None)));
          old <~ rget d_topChunk;
          _ <~ rmod (set_topChunk (Some top));
          _ <~ release_all (option_list old);
          chunk fuel st top
      | _ => rfail
      end
  end.
