(* ===== verification/LuaScope.v ===== *)
(** * What the names of a Lua text mean

    The scopes of names, independent of the walk of [LuaModule]: the meaning of a tree is
    composed of those of its children, and the local names in scope are a list, innermost first. *)

From S2P Require Import Prelude LexCore LuaToken SyntaxTree LuaTree.
From Stdlib Require Import Strings.Byte.
Local Open Scope Z_scope.

(** The local names in scope with the tokens that declare them. *)
Definition env : Type := list (bytes * NodeToken).

Fixpoint meaning (e : env) (name : bytes) : option NodeToken :=
  match e with
  | [] => None
  | (n, t) :: e => if bool_decide (n = name) then Some t else meaning e name
  end.

Definition bind (t : NodeToken) (e : env) : env := (d_val t, t) :: e.

(** What is found out so far: the global names with the tokens that declare them; the uses, each with
    whether it is assigned to and with the token of the declaration; the warnings; and whether
    a function has taken the place of a global name. *)
Record Found := mkFound {
  globals : gmap bytes NodeToken;
  uses : list (NodeToken * bool * NodeToken);
  warnings : list (NodeToken * bytes);
  overwritten : bool
}.

Definition add_global (t : NodeToken) (g : Found) : Found :=
  mkFound (<[d_val t := t]> (globals g)) (uses g) (warnings g) (overwritten g).
Definition add_found_use (t : NodeToken) (lhs : bool) (decl : NodeToken) (g : Found) : Found :=
  mkFound (globals g) (uses g ++ [(t, lhs, decl)]) (warnings g) (overwritten g).
Definition add_warning (t : NodeToken) (msg : bytes) (g : Found) : Found :=
  mkFound (globals g) (uses g) (warnings g ++ [(t, msg)]) (overwritten g).
Definition overwrite (g : Found) : Found := mkFound (globals g) (uses g) (warnings g) true.

(** A name is local, or global; an unknown name is declared by its first use, which does not count
    as one. *)
Definition use_name (t : NodeToken) (lhs : bool) (e : env) (g : Found) : Found :=
  match meaning e (d_val t) with
  | Some d => add_found_use t lhs d g
  | None =>
      match globals g !! d_val t with
      | Some d => add_found_use t lhs d g
      | None => add_warning t (qb "implicit global declaration '" ++ d_val t ++ qb "'") (add_global t g)
      end
  end.

(** A global function. *)
Definition declare_global (t : NodeToken) (g : Found) : Found :=
  match globals g !! d_val t with
  | Some _ => add_global t (overwrite (add_warning t (qb "overwriting existing global variable '" ++ d_val t ++ qb "'") g))
  | None => add_global t g
  end.

(** ** Meanings of trees *)

(** What a tree does to the names in scope and to what is found; the flag is whether it is assigned to. *)
Definition Sem : Type := bool -> env -> Found -> env * Found.
Definition Child : Type := NodeToken * Sem.

Definition is_name (t : NodeToken) : bool := bool_decide (d_type t = Tk Tok_Name).

(** One child after the other. *)
Fixpoint in_order (f : Child -> env -> Found -> env * Found) (l : list Child) (e : env) (g : Found) : env * Found :=
  match l with [] => (e, g) | c :: l => let '(e, g) := f c e g in in_order f l e g end.

(** A child that is no name on its own. *)
Definition plain (c : Child) : env -> Found -> env * Found := c.2 false.
(** Names are declared. *)
Definition binding (c : Child) (e : env) (g : Found) : env * Found :=
  if is_name c.1 then (bind c.1 e, g) else c.2 false e g.
(** Names are used. *)
Definition names_used (lhs : bool) (c : Child) (e : env) (g : Found) : env * Found :=
  if is_name c.1 then (e, use_name c.1 lhs e g) else c.2 false e g.

(** Names that are declared within are not in scope behind. *)
Definition closed (r : env -> Found -> env * Found) (e : env) (g : Found) : env * Found := (e, (r e g).2).

(** The expressions of a [for] do not see its names, but the block does: [inner] has them in addition. *)
Fixpoint for_parts (l : list Child) (e inner : env) (g : Found) : env * Found :=
  match l with
  | [] => (inner, g)
  | c :: l =>
      if is_name c.1 then for_parts l e (bind c.1 inner) g
      else if bool_decide (d_type c.1 = Rule R_block) then for_parts l e inner (c.2 false inner g).2
      else for_parts l e inner (c.2 false e g).2
  end.

(** A function with a single name is a global one. *)
Definition global_name (l : list Child) (g : Found) : Found :=
  match l with [c] => declare_global c.1 g | _ => g end.

Definition combine (t : NodeToken) (l : list Child) : Sem := fun lhs =>
  match d_type t with
  | Rule R_chunk | Rule R_stat | Rule R_localdecl_ | Rule R_parlist => in_order plain l
  | Rule R_namelist | Rule R_lfuncdecl_ => in_order binding l
  | Rule R_lvardecl_ => in_order plain (rev l)
  | Rule R_forstat_ => fun e g => (e, (for_parts l e e g).2)
  | Rule R_funcname => fun e g => (e, global_name l g)
  | Rule R_assigOrCall_ => closed (in_order (fun c => c.2 (bool_decide (length l = 2%nat))) l)
  | Rule R_assignment_ => closed (fun e g => in_order (fun c => c.2 true) (removelast l) e (in_order plain (option_list (last l)) e g).2)
  | Rule R_prefixexp => closed (in_order (names_used lhs) l)
  | _ => closed (in_order plain l)
  end.

Fixpoint visit (st : SynTree) : Sem :=
  match st with Node t l => combine t (map (fun c => (d_tok c, visit c)) l) end.

Definition children_of (st : SynTree) : list Child := map (fun c => (d_tok c, visit c)) (d_children st).

Lemma visit_node st : visit st = combine (d_tok st) (children_of st).
Proof. by destruct st. Qed.
