(* ===== verification/LuaModuleSpec.v ===== *)
(** * The names of a module are resolved by their scopes

    What the walk of [LuaModule] records for a tree of the grammar is what [LuaScope] says the
    names mean. *)

From S2P Require Import Prelude LexCore LuaToken SyntaxTree LuaTree LuaGrammar ErrorList LuaModule LuaScope.
From Stdlib Require Import Strings.Byte.
Local Open Scope Z_scope.
Local Open Scope rd_scope.

(** ** Things that are changed *)

Definition tok_at (m : Module) (a : nat) : option NodeToken := t_tok <$> at_addr m a.

(** The uses that are recorded, in the order of their addresses, with the tokens of the declarations, which
    are alive. *)
Definition use_entry (f : nat -> option NodeToken) (o : option Thing) : option (NodeToken * bool * option NodeToken) :=
  match o with Some (mkThing t _ (T_SymbolUse a lhs _)) => Some (t, lhs, f a) | _ => None end.
Definition uses_of (m : Module) : list (NodeToken * bool * option NodeToken) := omap (use_entry (tok_at m)) (things m).
Definition alive_use (u : NodeToken * bool * NodeToken) : NodeToken * bool * option NodeToken := (u.1, Some u.2).

Lemma at_lt m a t : at_addr m a = Some t -> (a < length (things m))%nat.
Proof. unfold at_addr. intros H. apply lookup_lt_is_Some. destruct (things m !! a); [by eexists|done]. Qed.

Lemma scope_at_thing m a sc : scope_at m a = Some sc <-> exists t, at_addr m a = Some t /\ scope_data (t_data t) = Some sc.
Proof.
  unfold scope_at. destruct (at_addr m a) as [t|]; simpl.
  - split; [intros H; by exists t|]. by intros (? & [= <-] & ?).
  - split; [done|]. by intros (? & ? & ?).
Qed.

Lemma at_put m a b t : (a < length (things m))%nat ->
  at_addr (put a t m) b = if bool_decide (b = a) then t else at_addr m b.
Proof.
  intros Ha. unfold at_addr, put. simpl. case_bool_decide as E.
  - subst. by rewrite list_lookup_insert_eq.
  - by rewrite list_lookup_insert_ne.
Qed.

Lemma at_snoc m t b : at_addr (set_things (things m ++ [t]) m) b =
  if bool_decide (b = length (things m)) then t else at_addr m b.
Proof.
  unfold at_addr. simpl. case_bool_decide as E.
  - subst. by rewrite list_lookup_middle.
  - destruct (decide (b < length (things m))%nat) as [H|H].
    + by rewrite lookup_app_l.
    + rewrite (lookup_ge_None_2 (things m)), lookup_ge_None_2; [done| |lia]. rewrite length_app. simpl. lia.
Qed.

Lemma omap_same {A B} (f : A -> option B) (l : list A) (i : nat) x y :
  l !! i = Some x -> f x = f y -> omap f (<[i:=y]> l) = omap f l.
Proof.
  revert i. induction l as [|z l IH]; intros [|i] Hi E; try done; simpl in *.
  - injection Hi as ->. by rewrite E.
  - pose proof (IH i Hi E) as H. destruct (f z); [f_equal|]; exact H.
Qed.

Lemma omap_eq {A B} (f h : A -> option B) (l : list A) : (forall x, x ∈ l -> f x = h x) -> omap f l = omap h l.
Proof.
  induction l as [|x l IH]; intros H; [done|]. simpl. rewrite H by (by left).
  assert (E : omap f l = omap h l) by (apply IH; intros y Hy; apply H; by right).
  destruct (h x); [f_equal|]; exact E.
Qed.

Section Scopes.
(** The scope of global names. *)
Variable g : nat.

(** What holds of a scope behind a change: only the names in [c] and the global ones are changed, and local
    declarations are kept. *)
Definition scope_kept (c : option nat) (a : nat) (t t' : Thing) : Prop :=
  match scope_data (t_data t) with
  | Some sc => exists sc', scope_data (t_data t') = Some sc' /\ d_outer sc' = d_outer sc /\
      (Some a <> c -> a <> g -> d_names sc' = d_names sc) /\ d_locals sc ⊆ d_locals sc'
  | None => t_data t' = t_data t
  end.

Record ext (c : option nat) (m m' : Module) : Prop := {
  ex_len : (length (things m) <= length (things m'))%nat;
  ex_global : d_global m' = d_global m;
  ex_thing a t : at_addr m a = Some t ->
    exists t', at_addr m' a = Some t' /\ t_tok t' = t_tok t /\ scope_kept c a t t'
}.

Lemma scope_kept_refl c a t : scope_kept c a t t.
Proof. unfold scope_kept. destruct (scope_data (t_data t)) as [sc|] eqn:E; [|done]. by exists sc. Qed.

Lemma ext_refl c m : ext c m m.
Proof. split; [done..|]. intros a t H. exists t. split; [done|]. split; [done|apply scope_kept_refl]. Qed.

Lemma ext_trans c m1 m2 m3 : ext c m1 m2 -> ext c m2 m3 -> ext c m1 m3.
Proof.
  intros [L1 G1 T1] [L2 G2 T2]. split; [lia|congruence|]. intros a t H.
  destruct (T1 a t H) as (t2 & H2 & E2 & K2). destruct (T2 a t2 H2) as (t3 & H3 & E3 & K3).
  exists t3. split; [done|]. split; [congruence|]. unfold scope_kept in *.
  destruct (scope_data (t_data t)) as [sc|] eqn:Es.
  - destruct K2 as (sc2 & S2 & O2 & N2 & I2). rewrite S2 in K3. destruct K3 as (sc3 & S3 & O3 & N3 & I3).
    exists sc3. split; [done|]. split; [congruence|]. split; [|by etransitivity]. intros Hc Hg. rewrite N3, N2 by done. done.
  - rewrite K2, Es in K3. congruence.
Qed.

Lemma scope_kept_weaken c c' a t t' : (Some a = c -> Some a = c') -> scope_kept c a t t' -> scope_kept c' a t t'.
Proof.
  unfold scope_kept. destruct (scope_data (t_data t)) as [sc|]; [|done]. intros Hc (sc' & ? & ? & N & ?). exists sc'.
  split; [done|]. split; [done|]. split; [|done]. intros Hn Hm. apply N; [|done]. intros E. auto.
Qed.

Lemma ext_weaken c m m' : ext None m m' -> ext c m m'.
Proof.
  intros [L E T]. split; [done..|]. intros a t H. destruct (T a t H) as (t' & ? & ? & K). exists t'.
  split; [done|]. split; [done|]. by eapply scope_kept_weaken, K.
Qed.

(** A change of the names in a scope that is new. *)
Lemma ext_new c b m m1 m' : ext c m m1 -> ext (Some b) m1 m' -> (length (things m) <= b)%nat -> ext c m m'.
Proof.
  intros [L1 G1 T1] [L2 G2 T2] Hb. split; [lia|congruence|]. intros a t H.
  destruct (T1 a t H) as (t2 & H2 & E2 & K2). destruct (T2 a t2 H2) as (t3 & H3 & E3 & K3).
  apply at_lt in H as Ha. assert (K3' : scope_kept c a t2 t3).
  { eapply scope_kept_weaken, K3. intros [= ->]. lia. }
  exists t3. split; [done|]. split; [congruence|]. unfold scope_kept in *.
  destruct (scope_data (t_data t)) as [sc|] eqn:Es.
  - destruct K2 as (sc2 & S2 & O2 & N2 & I2). rewrite S2 in K3'. destruct K3' as (sc3 & S3 & O3 & N3 & I3).
    exists sc3. split; [done|]. split; [congruence|]. split; [|by etransitivity]. intros Hc Hg. rewrite N3, N2 by done. done.
  - rewrite K2, Es in K3'. congruence.
Qed.

Lemma ext_tok c m m' a t : ext c m m' -> tok_at m a = Some t -> tok_at m' a = Some t.
Proof.
  unfold tok_at. intros [_ _ T] H. destruct (at_addr m a) as [x|] eqn:E; [|done]. simpl in H. injection H as <-.
  destruct (T a x E) as (t' & -> & E' & _). simpl. by rewrite E'.
Qed.

(** ** Scopes and the names in scope *)

Definition names_agree (m : Module) (oa : option nat) (ot : option NodeToken) : Prop :=
  match oa, ot with
  | Some a, Some t => tok_at m a = Some t
  | None, None => True
  | _, _ => False
  end.

Lemma ext_agree c m m' oa ot : ext c m m' -> names_agree m oa ot -> names_agree m' oa ot.
Proof. destruct oa, ot; try done. simpl. apply ext_tok. Qed.

Definition names_local (sc : ScopeData) : Prop := forall n a, d_names sc !! n = Some a -> a ∈ d_locals sc.

Inductive scoped (m : Module) : option nat -> env -> Prop :=
  | sc_top : scoped m None []
  | sc_in s sc loc e : scope_at m s = Some sc -> s <> g ->
      (forall n, names_agree m (d_names sc !! n) (meaning loc n)) -> names_local sc ->
      (forall o, d_outer sc = Some o -> (o < s)%nat) -> scoped m (d_outer sc) e -> scoped m (Some s) (loc ++ e).

Lemma meaning_app a b n : meaning (a ++ b) n = match meaning a n with Some t => Some t | None => meaning b n end.
Proof. induction a as [|[k t] a IH]; [done|]. simpl. by case_bool_decide. Qed.

(** A scope that is not changed. *)
Lemma ext_scope c m m' s sc : ext c m m' -> scope_at m s = Some sc -> s <> g -> Some s <> c ->
  exists sc', scope_at m' s = Some sc' /\ d_outer sc' = d_outer sc /\ d_names sc' = d_names sc /\ d_locals sc ⊆ d_locals sc'.
Proof.
  intros [_ _ T] Hs Hg Hc. apply scope_at_thing in Hs as (t & Ht & Es). destruct (T s t Ht) as (t' & Ht' & _ & K).
  unfold scope_kept in K. rewrite Es in K. destruct K as (sc' & S' & O' & N' & I'). exists sc'.
  split; [apply scope_at_thing; by exists t'|]. auto.
Qed.

Lemma scoped_ext c m m' os e : scoped m os e -> ext c m m' -> (forall s b, os = Some s -> c = Some b -> (s < b)%nat) ->
  scoped m' os e.
Proof.
  intros H E. induction H as [|s sc loc e Hs Hg Ha Hl Ho _ IH]; intros Hc; [constructor|].
  destruct (ext_scope c m m' s sc E Hs Hg) as (sc' & S' & O' & N' & I').
  { intros <-. specialize (Hc s s eq_refl eq_refl). lia. }
  apply (sc_in m' s sc'); [done|done| | | |].
  - intros n. rewrite N'. by eapply ext_agree.
  - intros n a Hn. apply I', (Hl n). by rewrite <- N'.
  - intros o. rewrite O'. apply Ho.
  - rewrite O'. apply IH. intros o b Hob Hb. specialize (Ho o Hob). specialize (Hc s b eq_refl Hb). lia.
Qed.

(** A scope whose names are changed. *)
Lemma scoped_changed m m' s sc sc' loc' e :
  scope_at m s = Some sc -> s <> g -> (forall o, d_outer sc = Some o -> (o < s)%nat) -> scoped m (d_outer sc) e ->
  ext (Some s) m m' -> scope_at m' s = Some sc' -> d_outer sc' = d_outer sc -> names_local sc' ->
  (forall n, names_agree m' (d_names sc' !! n) (meaning loc' n)) -> scoped m' (Some s) (loc' ++ e).
Proof.
  intros Hs Hg Ho He E Hs' Ho' Hl Ha. apply (sc_in m' s sc'); try done; rewrite Ho'; [done|].
  eapply scoped_ext; [done|done|]. intros o b Hob [= <-]. by apply Ho.
Qed.

(** ** What has been found *)

Context (base_uses : list (NodeToken * bool * NodeToken)) (base_err : Errors).

Definition warned (w : NodeToken * bytes) (e : Errors) : Errors :=
  warning S_Semantics (d_sourcePath w.1) (d_lineNr w.1) (d_colNr w.1) w.2 e.

Record inv (m : Module) (G : Found) : Prop := {
  iv_global : d_global m = Some g;
  iv_names : exists sc, scope_at m g = Some sc /\ d_outer sc = None /\
    forall n, names_agree m (d_names sc !! n) (globals G !! n);
  iv_uses : uses_of m = map alive_use (base_uses ++ uses G);
  iv_err : d_err m = Some (foldl (fun e w => warned w e) base_err (warnings G))
}.

(** Changes of things that are no uses. *)
Definition use_data (d : ThingData) : option (nat * bool) := match d with T_SymbolUse a lhs _ => Some (a, lhs) | _ => None end.

Lemma use_entry_same f t t' : t_tok t' = t_tok t -> use_data (t_data t') = use_data (t_data t) ->
  use_entry f (Some t) = use_entry f (Some t').
Proof. destruct t as [k u d], t' as [k' u' d']. simpl. intros ->. by destruct d, d'; simpl; intros [=]; subst. Qed.

Lemma uses_put m a t t' : at_addr m a = Some t -> t_tok t' = t_tok t -> use_data (t_data t') = use_data (t_data t) ->
  uses_of (put a (Some t') m) = uses_of m.
Proof.
  intros Ha Et Eu. unfold uses_of. pose proof (at_lt m a t Ha) as Hl.
  assert (Hf : forall b, tok_at (put a (Some t') m) b = tok_at m b).
  { intros b. unfold tok_at. rewrite at_put by done. case_bool_decide; [|done]. subst. by rewrite Ha; simpl; rewrite Et. }
  rewrite (omap_eq _ (use_entry (tok_at m))).
  - unfold at_addr in Ha. simpl. destruct (things m !! a) as [x|] eqn:Ex; [|done]. simpl in Ha. subst x.
    eapply omap_same; [exact Ex|]. by apply use_entry_same.
  - intros x _. destruct x as [[k u []]|]; simpl; try done. by rewrite Hf.
Qed.

Lemma uses_snoc m t : Forall (fun u => is_Some u.2) (uses_of m) ->
  uses_of (set_things (things m ++ [Some t]) m) =
    uses_of m ++ option_list (use_entry (tok_at (set_things (things m ++ [Some t]) m)) (Some t)).
Proof.
  intros Hu. unfold uses_of. simpl things. rewrite omap_app. f_equal.
  apply omap_eq. intros x Hx. destruct x as [[k u []]|]; simpl; try done. do 2 f_equal.
  rewrite Forall_forall in Hu. specialize (Hu (k, d_lhs, tok_at m d_sym)).
  destruct Hu as [y Hy]; [apply list_elem_of_omap; eexists; split; [exact Hx|done]|]. simpl in Hy.
  unfold tok_at in *. rewrite at_snoc. case_bool_decide; [|done]. subst. exfalso.
  destruct (at_addr m (length (things m))) as [z|] eqn:E; [|done]. apply at_lt in E. lia.
Qed.

Lemma inv_alive m G : inv m G -> Forall (fun u => is_Some u.2) (uses_of m).
Proof. intros [_ _ -> _]. apply Forall_forall. intros u Hu. apply list_elem_of_fmap in Hu as (x & -> & _). by eexists. Qed.

Lemma inv_same c m m' G : inv m G -> ext c m m' -> uses_of m' = uses_of m -> d_err m' = d_err m ->
  (forall sc, scope_at m g = Some sc -> exists sc', scope_at m' g = Some sc' /\ d_outer sc' = d_outer sc /\ d_names sc' = d_names sc) ->
  inv m' G.
Proof.
  intros [Ig (sc & Hs & Ho & Ha) Iu Ie] E Eu Ee Hg. destruct (Hg sc Hs) as (sc' & Hs' & Ho' & Hn'). split.
  - by rewrite (ex_global _ _ _ E).
  - exists sc'. split; [done|]. split; [congruence|]. intros n. rewrite Hn'. by eapply ext_agree.
  - by rewrite Eu.
  - by rewrite Ee.
Qed.

(** *** New things *)

Definition with_new (t : Thing) (m : Module) : Module := set_things (things m ++ [Some t]) m.

Lemma wp_alloc t (Q : nat -> Module -> Prop) m : Q (length (things m)) (with_new t m) -> wp (alloc t) Q m.
Proof. done. Qed.

Lemma at_new t m b : at_addr (with_new t m) b = if bool_decide (b = length (things m)) then Some t else at_addr m b.
Proof. apply at_snoc. Qed.

Lemma at_new_old t m b x : at_addr m b = Some x -> at_addr (with_new t m) b = Some x.
Proof. intros H. rewrite at_new, bool_decide_eq_false_2; [done|]. apply at_lt in H. lia. Qed.

Lemma scope_new_old t m b sc : scope_at m b = Some sc -> scope_at (with_new t m) b = Some sc.
Proof. rewrite !scope_at_thing. intros (x & H & E). exists x. split; [by apply at_new_old|done]. Qed.

Lemma ext_with_new c t m : ext c m (with_new t m).
Proof.
  split; [simpl; rewrite length_app; lia|done|]. intros a x H. exists x. split; [by apply at_new_old|].
  split; [done|apply scope_kept_refl].
Qed.

Lemma inv_with_new t m G : inv m G -> use_data (t_data t) = None -> inv (with_new t m) G.
Proof.
  intros Hi Hu. apply (inv_same None m); [done|apply ext_with_new| |done|].
  - unfold with_new. rewrite uses_snoc by by eapply inv_alive. destruct t as [k u []]; simpl in *; (by rewrite app_nil_r) || done.
  - intros sc Hs. exists sc. split; [by apply scope_new_old|done].
Qed.

(** *** Changes of scopes *)

Definition set_scope (s : nat) (sc : ScopeData) (m : Module) : Module :=
  match at_addr m s with
  | Some t => put s (Some (mkThing (t_tok t) (d_uses t) (with_scope sc (t_data t)))) m
  | None => m
  end.

Lemma set_scope_rest s sc m : d_err (set_scope s sc m) = d_err m /\ d_global (set_scope s sc m) = d_global m /\
  length (things (set_scope s sc m)) = length (things m).
Proof. unfold set_scope. destruct (at_addr m s); [|done]. simpl. by rewrite length_insert. Qed.

Lemma scope_with_scope sc sc' d : scope_data d = Some sc -> scope_data (with_scope sc' d) = Some sc'.
Proof. by destruct d. Qed.

Section SetScope.
Context (m : Module) (s : nat) (sc : ScopeData) (Hs : scope_at m s = Some sc).

Lemma at_set_scope sc' b : exists t, at_addr m s = Some t /\ scope_data (t_data t) = Some sc /\
  at_addr (set_scope s sc' m) b =
    if bool_decide (b = s) then Some (mkThing (t_tok t) (d_uses t) (with_scope sc' (t_data t))) else at_addr m b.
Proof using Hs.
  apply scope_at_thing in Hs as (t & Ht & E). exists t. split; [done|]. split; [done|]. unfold set_scope. rewrite Ht.
  rewrite at_put by by eapply at_lt. done.
Qed.

Lemma scope_set_scope sc' b : scope_at (set_scope s sc' m) b = if bool_decide (b = s) then Some sc' else scope_at m b.
Proof using Hs.
  destruct (at_set_scope sc' b) as (t & Ht & E & Hb). unfold scope_at. rewrite Hb. case_bool_decide; [|done]. simpl.
  by eapply scope_with_scope.
Qed.

Lemma ext_set_scope c sc' : d_outer sc' = d_outer sc -> d_locals sc ⊆ d_locals sc' ->
  (Some s <> c -> s <> g -> d_names sc' = d_names sc) -> ext c m (set_scope s sc' m).
Proof using Hs.
  intros Ho Hl Hn. destruct (set_scope_rest s sc' m) as (_ & E2 & E3). split; [lia|done|]. intros a x Hx.
  destruct (at_set_scope sc' a) as (t & Ht & E & Ha). rewrite Ha. case_bool_decide as Ea.
  - subst a. rewrite Ht in Hx. injection Hx as <-. eexists. split; [done|]. split; [done|].
    unfold scope_kept. rewrite E. exists sc'. split; [by eapply scope_with_scope|done].
  - exists x. split; [done|]. split; [done|apply scope_kept_refl].
Qed.

Lemma uses_set_scope sc' : uses_of (set_scope s sc' m) = uses_of m.
Proof using Hs.
  unfold set_scope. destruct (at_set_scope sc' s) as (t & Ht & E & _). rewrite Ht. apply (uses_put m s t); [done|done|].
  simpl. by destruct (t_data t).
Qed.

Lemma wp_mod_scope f (Q : unit -> Module -> Prop) : Q tt (set_scope s (f sc) m) -> wp (mod_scope s f) Q m.
Proof using Hs.
  intros HQ. unfold mod_scope, get_thing. apply wp_bind, wp_bind, wp_get. unfold set_scope in HQ.
  destruct (at_set_scope sc s) as (t & Ht & E & _). rewrite Ht in HQ. apply (wp_deref _ t); [done|].
  apply wp_bind, (wp_deref _ sc); [done|]. by apply wp_mod.
Qed.

Lemma wp_get_scope (Q : ScopeData -> Module -> Prop) : Q sc m -> wp (get_scope s) Q m.
Proof using Hs. intros HQ. unfold get_scope. apply wp_bind, wp_get. by apply (wp_deref _ sc). Qed.

(** A scope other than the one of the global names. *)
Lemma inv_set_scope sc' G : inv m G -> d_outer sc' = d_outer sc -> d_locals sc ⊆ d_locals sc' ->
  (s = g -> d_names sc' = d_names sc) -> inv (set_scope s sc' m) G.
Proof using Hs.
  intros Hi Ho Hl Hg. apply (inv_same (Some s) m); [done|by apply ext_set_scope| | |].
  - apply uses_set_scope.
  - apply set_scope_rest.
  - intros sc0 H0. rewrite scope_set_scope. case_bool_decide as E; [|by exists sc0].
    subst s. rewrite Hs in H0. injection H0 as <-. exists sc'. by rewrite Hg.
Qed.
End SetScope.

(** *** Names *)

Definition named (name : bytes) (a : nat) (sc : ScopeData) : ScopeData :=
  mkScope (d_outer sc) (<[name := a]> (d_names sc)) (d_locals sc) (d_stats sc) (d_refs sc).

Lemma local_referenced m s sc a : scope_at m s = Some sc -> a ∈ d_locals sc -> a ∈ references m.
Proof.
  intros Hs Ha. unfold references. rewrite !elem_of_app. do 4 right. apply scope_at_thing in Hs as (t & Ht & E).
  apply list_elem_of_In, in_flat_map. exists (Some t). unfold at_addr in Ht. destruct (things m !! s) as [o|] eqn:Eo; [|done].
  simpl in Ht. subst o. split; [apply list_elem_of_In; by eapply list_elem_of_lookup_2|].
  apply list_elem_of_In. unfold owned. rewrite E. unfold scope_refs. rewrite !elem_of_app. tauto.
Qed.

(** A name that is declared again is still referred to. *)
Lemma wp_insert_name s name a m sc (Q : unit -> Module -> Prop) : scope_at m s = Some sc ->
  (forall old, d_names sc !! name = Some old -> old ∈ d_locals sc) ->
  Q tt (set_scope s (named name a sc) m) -> wp (insert_name s name a) Q m.
Proof.
  intros Hs Hold HQ. apply wp_bind, (wp_get_scope m s sc Hs), wp_bind, (wp_mod_scope m s sc Hs).
  destruct (d_names sc !! name) as [old|] eqn:E; [|by apply wp_ret].
  unfold release. apply wp_bind, wp_get. cbn [release_in]. apply wp_bind, wp_get. unfold id.
  rewrite bool_decide_eq_true_2; [by apply wp_ret|]. apply (local_referenced _ s (named name a sc)); [|by apply Hold].
  rewrite (scope_set_scope m s sc Hs). by rewrite bool_decide_eq_true_2.
Qed.

Lemma wp_find_in fuel s name e m (Q : option nat -> Module -> Prop) : scoped m (Some s) e -> (s < fuel)%nat ->
  (forall oa, names_agree m oa (meaning e name) -> Q oa m) -> wp (find_in fuel s name) Q m.
Proof.
  revert s e. induction fuel as [|fuel IH]; intros s e Hs Hf HQ; [lia|]. cbn [find_in].
  inversion Hs as [|? sc loc e' Hsc Hg Ha Hl Ho He]; subst. apply wp_bind, (wp_get_scope m s sc Hsc).
  specialize (Ha name). setoid_rewrite meaning_app in HQ. destruct (d_names sc !! name) as [a|] eqn:En.
  - apply wp_ret, HQ. by destruct (meaning loc name).
  - destruct (meaning loc name); [done|]. destruct (d_outer sc) as [o|] eqn:Eo.
    + apply (IH o e'); [done| |done]. specialize (Ho o eq_refl). lia.
    + apply wp_ret, HQ. by inversion He.
Qed.

Lemma wp_find s name e m (Q : option nat -> Module -> Prop) : scoped m (Some s) e ->
  (forall oa, names_agree m oa (meaning e name) -> Q oa m) -> wp (find s name) Q m.
Proof.
  intros Hs HQ. apply wp_bind, wp_get. eapply wp_find_in; [exact Hs| |done].
  inversion Hs as [|? sc loc e' Hsc]; subst. apply scope_at_thing in Hsc as (t & Ht & _). apply at_lt in Ht. unfold id. lia.
Qed.

Lemma wp_find_global name m G (Q : option nat -> Module -> Prop) : inv m G ->
  (forall oa, names_agree m oa (globals G !! name) -> Q oa m) -> wp (find g name) Q m.
Proof.
  intros [_ (sc & Hs & Ho & Ha) _ _] HQ. apply wp_bind, wp_get. cbn [find_in]. apply wp_bind, (wp_get_scope m g sc Hs).
  specialize (Ha name). destruct (d_names sc !! name) as [a|]; [by apply wp_ret, HQ|]. rewrite Ho. by apply wp_ret, HQ.
Qed.
End Scopes.
