(* ===== verification/LuaResolve.v ===== *)
(** * The walk over a tree resolves its names

    For every kind of node: what the walk of [LuaModule] does is what [LuaScope] says. *)

From S2P Require Import Prelude LexCore LuaToken SyntaxTree LuaTree LuaGrammar ErrorList LuaModule LuaScope LuaModuleSpec.
From Stdlib Require Import Strings.Byte.
Local Open Scope Z_scope.
Local Open Scope rd_scope.

(** ** Meanings *)

(** What has been overwritten stays so. *)
Definition mono (v : env -> Found -> env * Found) : Prop :=
  forall e G, overwritten G = true -> overwritten (v e G).2 = true.
(** Nothing is declared. *)
Definition same_env (v : env -> Found -> env * Found) : Prop := forall e G, (v e G).1 = e.

Lemma mono_in_order f l : (forall c, c ∈ l -> mono (f c)) -> mono (in_order f l).
Proof.
  induction l as [|c l IH]; intros H e G Ho; [done|]. simpl. specialize (H c ltac:(by left) e G Ho) as Hc.
  destruct (f c e G) as [e' G']. apply IH; [|done]. intros d Hd. apply H. by right.
Qed.

Lemma same_in_order f l : (forall c, c ∈ l -> same_env (f c)) -> same_env (in_order f l).
Proof.
  induction l as [|c l IH]; intros H e G; [done|]. simpl. specialize (H c ltac:(by left) e G) as Hc.
  destruct (f c e G) as [e' G']. simpl in Hc. subst e'. apply IH. intros d Hd. apply H. by right.
Qed.

Lemma mono_closed v : mono v -> mono (closed v).
Proof. intros H e G. apply H. Qed.
Lemma same_closed v : same_env (closed v).
Proof. done. Qed.
Lemma closed_same v e G : same_env v -> closed v e G = v e G.
Proof. intros H. unfold closed. rewrite <- (H e G) at 1. by destruct (v e G). Qed.

Lemma use_name_over t lhs e G : overwritten (use_name t lhs e G) = overwritten G.
Proof. unfold use_name. destruct (meaning _ _); [done|]. by destruct (globals G !! _). Qed.
Lemma declare_global_over t G : overwritten G = true -> overwritten (declare_global t G) = true.
Proof. unfold declare_global. by destruct (globals G !! _). Qed.

Lemma mono_for_parts l : (forall c, c ∈ l -> forall lhs, mono (c.2 lhs)) ->
  forall e inner G, overwritten G = true -> overwritten (for_parts l e inner G).2 = true.
Proof.
  induction l as [|c l IH]; intros H e inner G Ho; [done|]. simpl.
  assert (Hl : forall d, d ∈ l -> forall lhs, mono (d.2 lhs)) by (intros d Hd; apply H; by right).
  assert (Hc : forall lhs, mono (c.2 lhs)) by (apply H; by left).
  destruct (is_name _); [by apply IH|]. case_bool_decide; apply IH; try done; by apply Hc.
Qed.

Lemma mono_combine t l : (forall c, c ∈ l -> forall lhs, mono (c.2 lhs)) -> forall lhs, mono (combine t l lhs).
Proof.
  intros H lhs.
  assert (Hp : forall l', (forall c, c ∈ l' -> c ∈ l) -> mono (in_order plain l')).
  { intros l' Hl. apply mono_in_order. intros c Hc. by apply H, Hl. }
  assert (Hpl : mono (in_order plain l)) by (apply Hp; auto).
  assert (Hf : forall b, mono (in_order (fun c => c.2 b) l)) by (intros b; apply mono_in_order; intros c Hc; by apply H).
  assert (Hb : mono (in_order binding l)).
  { apply mono_in_order. intros c Hc e G Ho. unfold binding. destruct (is_name _); [done|]. by apply H. }
  unfold combine. destruct (d_type t) as [|r]; [by apply mono_closed|].
  destruct r; try exact Hb; try exact Hpl; try (by apply mono_closed); try by apply mono_closed, Hf.
  - apply mono_closed. intros e G Ho. apply mono_in_order.
    + intros c Hc. apply H. destruct l as [|d l _] using rev_ind; [done|].
      rewrite removelast_last in Hc. apply elem_of_app. by left.
    + apply Hp; [|done]. intros c Hc. destruct (last l) as [d|] eqn:E; simpl in Hc; [|by inversion Hc].
      apply list_elem_of_singleton in Hc as ->. by apply last_Some_elem_of.
  - intros e G Ho. by apply mono_for_parts.
  - intros e G Ho. simpl. unfold global_name. destruct l as [|c [|]]; try done. by apply declare_global_over.
  - apply Hp. intros c Hc. apply list_elem_of_In, in_rev. by apply list_elem_of_In.
  - apply mono_closed, mono_in_order. intros c Hc e G Ho. unfold names_used. destruct (is_name _); [|by apply H].
    simpl. by rewrite use_name_over.
Qed.

Lemma mono_visit st : forall lhs, mono (visit st lhs).
Proof.
  remember (height st) as n eqn:Hn. revert st Hn. induction n as [n IH] using lt_wf_ind. intros st -> lhs.
  rewrite visit_node. apply mono_combine. intros c Hc. apply list_elem_of_fmap in Hc as (d & -> & Hd). eapply IH; [|done].
  by apply height_child.
Qed.

(** The nodes with declarations for what follows them. *)
Definition opens (t : NodeType) : bool :=
  match t with
  | Rule (R_chunk | R_stat | R_localdecl_ | R_parlist | R_namelist | R_lfuncdecl_ | R_lvardecl_) => true
  | _ => false
  end.

Lemma visit_closed st lhs : opens (st_type st) = false -> same_env (visit st lhs).
Proof.
  rewrite visit_node. unfold combine, st_type. destruct (d_type (d_tok st)) as [|[]]; try done.
Qed.

(** A node without declarations whose children have none. *)
Lemma visit_plain st e G :
  Forall (fun c => opens (st_type c) = false) (d_children st) ->
  closed (in_order plain (children_of st)) e G = in_order plain (children_of st) e G.
Proof.
  intros Hl. apply closed_same, same_in_order. intros c Hc. apply list_elem_of_fmap in Hc as (d & -> & Hd).
  apply visit_closed. rewrite Forall_forall in Hl. by apply Hl.
Qed.

Section Walk.
Context (g : nat) (base_uses : list (NodeToken * bool * NodeToken)) (base_err : Errors).
Abbreviation ext := (ext g).
Abbreviation scoped := (scoped g).
Abbreviation inv := (inv g base_uses base_err).

(** ** What a step of the walk does

    In a scope with some names: the names in scope and what is found become what a meaning says, and no other
    scope is changed. *)
Definition result (s : nat) (m : Module) (r : env * Found) (m' : Module) : Prop :=
  ext (Some s) m m' /\ scoped m' (Some s) r.1 /\ inv m' r.2.

Definition does (x : MM unit) (s : nat) (v : env -> Found -> env * Found) : Prop :=
  forall m e G, scoped m (Some s) e -> inv m G -> overwritten (v e G).2 = false -> wp x (fun _ => result s m (v e G)) m.

Lemma not_over v e G : mono v -> overwritten (v e G).2 = false -> overwritten G = false.
Proof. intros Hm H. destruct (overwritten G) eqn:E; [|done]. by rewrite Hm in H. Qed.

Lemma result_trans s m m1 m2 r r' : result s m r m1 -> result s m1 r' m2 -> result s m r' m2.
Proof. intros (E1 & _ & _) (E2 & S2 & I2). split; [by eapply ext_trans|done]. Qed.

Lemma does_ext x s v w : does x s v -> (forall e G, v e G = w e G) -> does x s w.
Proof. intros H E m e G. rewrite <- E. apply H. Qed.

Lemma does_ret s : does (rret tt) s (fun e G => (e, G)).
Proof. intros m e G Hs Hi _. apply wp_ret. split; [apply ext_refl|done]. Qed.

Lemma does_bind x y s v w : does x s v -> does y s w -> mono w ->
  does (_ <~ x; y) s (fun e G => let '(e, G) := v e G in w e G).
Proof.
  intros Hx Hy Hw m e G Hs Hi Ho. destruct (v e G) as [e1 G1] eqn:E. apply wp_bind.
  eapply wp_mono; [apply (Hx m e G Hs Hi); rewrite E; by eapply not_over|]. rewrite E. intros _ m1 (E1 & S1 & I1).
  eapply wp_mono; [by apply (Hy m1 e1 G1)|]. intros [] m2 H2. eapply result_trans; [|exact H2]. by split.
Qed.

(** Loops over the children of a node. *)
Lemma does_for (body : SynTree -> MM unit) s f l :
  (forall c, c ∈ l -> does (body c) s (f (d_tok c, visit c)) /\ mono (f (d_tok c, visit c))) ->
  does (mfor l body) s (in_order f (map (fun c => (d_tok c, visit c)) l)).
Proof.
  induction l as [|c l IH]; intros H; [apply does_ret|]. simpl.
  apply (does_bind _ _ s (f (d_tok c, visit c)) (in_order f (map (fun c => (d_tok c, visit c)) l))).
  - apply H. by left.
  - apply IH. intros d Hd. apply H. by right.
  - apply mono_in_order. intros d Hd. apply list_elem_of_fmap in Hd as (d' & -> & Hd). apply H. by right.
Qed.

Lemma does_assert b s x v : b = true -> does x s v -> does (_ <~ massert b; x) s v.
Proof. intros -> H m e G Hs Hi Ho. apply wp_bind, wp_assert; [done|]. by apply H. Qed.
Lemma does_deref {A} (o : option A) a s x v : o = Some a -> does (x a) s v -> does (y <~ mderef o; x y) s v.
Proof. intros -> H m e G Hs Hi Ho. by apply wp_bind, (wp_deref _ a), H. Qed.

(** *** Declarations *)
Lemma scoped_in m s e : scoped m (Some s) e -> exists sc loc e', e = loc ++ e' /\ scope_at m s = Some sc /\ s <> g /\
  (forall n, names_agree m (d_names sc !! n) (meaning loc n)) /\ names_local sc /\
  (forall o, d_outer sc = Some o -> (o < s)%nat) /\ scoped m (d_outer sc) e'.
Proof. inversion 1; subst. eauto 10. Qed.

(** A name in the innermost scope. *)
Lemma names_agree_named m m' c a (t : NodeToken) sc sc' loc : (forall n, names_agree m (d_names sc !! n) (meaning loc n)) -> ext c m m' ->
  d_names sc' = <[d_val t := a]> (d_names sc) -> tok_at m' a = Some t ->
  forall n, names_agree m' (d_names sc' !! n) (meaning (bind t loc) n).
Proof.
  intros Hna E Hn Ht n. rewrite Hn. simpl. case_bool_decide as Hv.
  - subst n. by rewrite lookup_insert_eq.
  - rewrite lookup_insert_ne by done. by eapply ext_agree.
Qed.

Lemma names_local_named a (t : NodeToken) sc sc' : names_local sc -> d_names sc' = <[d_val t := a]> (d_names sc) ->
  d_locals sc ⊆ d_locals sc' -> a ∈ d_locals sc' -> names_local sc'.
Proof.
  intros Hnl Hn Hl Ha n b. rewrite Hn. destruct (decide (d_val t = n)) as [->|Hne].
  - rewrite lookup_insert_eq. by intros [= <-].
  - rewrite lookup_insert_ne by done. intros Hb. by eapply Hl, Hnl.
Qed.

Lemma scoped_named m s e sc a t m' sc' :
  scoped m (Some s) e -> scope_at m s = Some sc -> ext (Some s) m m' -> scope_at m' s = Some sc' ->
  d_outer sc' = d_outer sc -> d_names sc' = <[d_val t := a]> (d_names sc) -> d_locals sc ⊆ d_locals sc' -> a ∈ d_locals sc' ->
  tok_at m' a = Some t -> scoped m' (Some s) (bind t e).
Proof.
  intros Hs Hsc E Hsc' Ho Hn Hl Ha Ht. apply scoped_in in Hs as (sc0 & loc & e' & -> & H0 & Hg & Hna & Hnl & Hlt & He).
  rewrite Hsc in H0. injection H0 as <-. apply (scoped_changed g m m' s sc sc' (bind t loc)); try done.
  - by eapply names_local_named.
  - by eapply names_agree_named.
Qed.

Lemma scoped_at m s e : scoped m (Some s) e -> exists sc, scope_at m s = Some sc /\ s <> g /\ names_local sc.
Proof. intros H. apply scoped_in in H as (sc & ? & ? & ? & ? & ? & ? & ? & ?). by exists sc. Qed.

Lemma wp_declare t s sc m G (Q : unit -> Module -> Prop) : scope_at m s = Some sc -> s <> g -> names_local sc -> inv m G ->
  (forall v m', ext (Some s) m m' -> inv m' G -> tok_at m' v = Some t ->
     scope_at m' s = Some (named (d_val t) v (add_local v sc)) -> Q tt m') ->
  wp (declare s t) Q m.
Proof.
  intros Hsc Hg Hnl Hi HQ. apply wp_bind, wp_alloc. set (v := length (things m)). set (m1 := with_new (new_thing t T_Variable) m).
  assert (Hsc1 : scope_at m1 s = Some sc) by by apply scope_new_old.
  apply wp_bind, (wp_mod_scope m1 s sc Hsc1). set (m2 := set_scope s (add_local v sc) m1).
  assert (Hsc2 : scope_at m2 s = Some (add_local v sc)) by (unfold m2; rewrite (scope_set_scope m1 s sc Hsc1), bool_decide_eq_true_2; done).
  apply (wp_insert_name s _ v m2 _ _ Hsc2); [intros old Hold; simpl; apply elem_of_app; left; by eapply Hnl|].
  set (m3 := set_scope s _ m2). assert (Hsc3 : scope_at m3 s = Some (named (d_val t) v (add_local v sc)))
    by (unfold m3; rewrite (scope_set_scope m2 s _ Hsc2), bool_decide_eq_true_2; done).
  assert (Hsub : d_locals sc ⊆ d_locals (add_local v sc)) by (simpl; set_solver).
  assert (E1 : ext (Some s) m m1) by apply ext_with_new.
  assert (E2 : ext (Some s) m1 m2) by by apply (ext_set_scope g m1 s sc Hsc1).
  assert (E3 : ext (Some s) m2 m3) by by apply (ext_set_scope g m2 s _ Hsc2).
  apply (HQ v m3); [eapply ext_trans; [exact E1|]; by eapply ext_trans| | |exact Hsc3].
  - apply (inv_set_scope g base_uses base_err m2 s _ Hsc2); try done.
    apply (inv_set_scope g base_uses base_err m1 s sc Hsc1); try done. by apply inv_with_new.
  - eapply ext_tok; [exact E3|]. eapply ext_tok; [exact E2|]. unfold tok_at, m1. by rewrite at_new, bool_decide_eq_true_2.
Qed.

Lemma does_declare t s : does (declare s t) s (fun e G => (bind t e, G)).
Proof.
  intros m e G Hs Hi _. destruct (scoped_at m s e Hs) as (sc & Hsc & Hg & Hnl). apply (wp_declare t s sc m G); [done..|].
  intros v m' E I Ht Hsc'. split; [done|]. split; [|done].
  eapply (scoped_named m s e sc v t m'); [done|done|done|done|done|done|simpl; set_solver|simpl; set_solver|done].
Qed.

Lemma does_namelist nl s : Forall (fun c => st_type c = Tk Tok_Name) (d_children nl) ->
  does (namelist nl s) s (in_order binding (children_of nl)).
Proof.
  intros Hl. apply does_for. intros c Hc. rewrite Forall_forall in Hl. specialize (Hl c Hc).
  assert (E : forall e G, binding (d_tok c, visit c) e G = (bind (d_tok c) e, G)).
  { intros e G. unfold binding, is_name. unfold st_type in Hl. simpl. by rewrite Hl. }
  split; [|intros e G Ho; by rewrite E]. eapply does_ext; [apply does_declare|done].
Qed.
(** *** Uses *)

(** A change of a thing that is none of its names. *)
Lemma thing_kept m a t t' G : at_addr m a = Some t -> t_tok t' = t_tok t ->
  scope_data (t_data t') = scope_data (t_data t) -> use_data (t_data t') = use_data (t_data t) ->
  (scope_data (t_data t) = None -> t_data t' = t_data t) -> inv m G ->
  let m' := put a (Some t') m in
  ext None m m' /\ inv m' G /\ forall s sc, scope_at m s = Some sc -> scope_at m' s = Some sc.
Proof.
  intros Ha Et Es Eu Ed Hi m'. assert (Hat : forall b, at_addr m' b = if bool_decide (b = a) then Some t' else at_addr m b).
  { intros b. apply at_put. by eapply at_lt. }
  assert (Hsc : forall s sc, scope_at m s = Some sc -> scope_at m' s = Some sc).
  { intros s sc. rewrite !scope_at_thing. intros (x & Hx & E). rewrite Hat. case_bool_decide; [|by exists x].
    subst s. rewrite Ha in Hx. injection Hx as <-. eexists. split; [done|]. by rewrite Es. }
  assert (E : ext None m m').
  { split; [simpl; by rewrite length_insert|done|]. intros b x Hx. rewrite Hat. case_bool_decide.
    - subst b. rewrite Ha in Hx. injection Hx as <-. exists t'. split; [done|]. split; [done|]. unfold scope_kept.
      rewrite Es. destruct (scope_data (t_data t)) as [sc|]; [by exists sc|by apply Ed].
    - exists x. split; [done|]. split; [done|apply scope_kept_refl]. }
  split; [exact E|]. split; [|exact Hsc]. eapply inv_same; [exact Hi|exact E| |done|].
  - by apply (uses_put m a t).
  - intros sc H. exists sc. split; [by apply Hsc|done].
Qed.

Lemma record_use t s decl lhs impl m e G d : scoped m (Some s) e -> inv m G -> tok_at m decl = Some d ->
  wp (u <~ alloc (new_thing t (T_SymbolUse decl lhs impl)); _ <~ mod_thing decl (add_use u); mod_scope s (add_ref u))
    (fun _ => result s m (e, add_found_use t lhs d G)) m.
Proof.
  intros Hs Hi Hd. destruct (scoped_at m s e Hs) as (sc & Hsc & Hg & _).
  apply wp_bind, wp_alloc. set (m1 := with_new (new_thing t (T_SymbolUse decl lhs impl)) m).
  assert (E1 : ext None m m1) by apply ext_with_new.
  assert (Hd1 : tok_at m1 decl = Some d) by by eapply ext_tok.
  assert (I1 : inv m1 (add_found_use t lhs d G)).
  { destruct Hi as [Ig (scg & Hgs & Ho & Hn) Iu Ie]. split; [done| | |done].
    - exists scg. split; [by apply scope_new_old|]. split; [done|]. intros n. by eapply ext_agree.
    - assert (Hu : Forall (fun u => is_Some u.2) (uses_of m)).
      { eapply (inv_alive g base_uses base_err m G). split; [done|by exists scg|done..]. }
      unfold m1, with_new. rewrite uses_snoc, Iu by done. simpl. change (tok_at (set_things _ m) decl) with (tok_at m1 decl).
      rewrite Hd1. by rewrite app_assoc, !map_app. }
  unfold tok_at in Hd1. destruct (at_addr m1 decl) as [td|] eqn:Ed; [|done].
  apply wp_bind. unfold mod_thing, get_thing. apply wp_bind, wp_bind, wp_get, (wp_deref _ td); [done|]. apply wp_mod.
  destruct (thing_kept m1 decl td (add_use (length (things m)) td) (add_found_use t lhs d G) Ed) as (E2 & I2 & K2); [done..|]. set (m2 := put decl _ m1) in *.
  assert (Hsc2 : scope_at m2 s = Some sc) by by apply K2, scope_new_old.
  apply (wp_mod_scope m2 s sc Hsc2). set (m3 := set_scope s _ m2).
  assert (E3 : ext None m2 m3) by by apply (ext_set_scope g m2 s sc Hsc2).
  assert (E : ext None m m3) by (eapply ext_trans; [exact E1|]; by eapply ext_trans).
  split; [by apply ext_weaken|]. split; [by eapply scoped_ext|]. by apply (inv_set_scope g base_uses base_err m2 s sc Hsc2).
Qed.

(** A global name is entered that is new. *)
Lemma new_global name a t m G (Q : unit -> Module -> Prop) : inv m G -> globals G !! name = None -> tok_at m a = Some t ->
  (forall m', ext None m m' -> (forall s sc, s <> g -> scope_at m s = Some sc -> scope_at m' s = Some sc) ->
     inv m' (mkFound (<[name := t]> (globals G)) (uses G) (warnings G) (overwritten G)) -> Q tt m') ->
  wp (insert_name g name a) Q m.
Proof.
  intros [Ig (sc & Hs & Ho & Hn) Iu Ie] Hnew Ha HQ.
  assert (Hnone : d_names sc !! name = None) by (specialize (Hn name); rewrite Hnew in Hn; by destruct (d_names sc !! name)).
  apply (wp_insert_name g name a m sc _ Hs); [by rewrite Hnone|].
  assert (E : ext None m (set_scope g (named name a sc) m)) by by apply (ext_set_scope g m g sc Hs).
  apply HQ; [done| |].
  - intros s sc' Hne Hsc'. rewrite (scope_set_scope m g sc Hs), bool_decide_eq_false_2 by done. done.
  - split.
    + by rewrite (ex_global _ _ _ _ E).
    + exists (named name a sc). rewrite (scope_set_scope m g sc Hs), bool_decide_eq_true_2 by done. split; [done|]. split; [done|].
      intros n. simpl. destruct (decide (name = n)) as [->|Hne].
      * rewrite !lookup_insert_eq. simpl. by eapply ext_tok.
      * rewrite !lookup_insert_ne by done. by eapply ext_agree.
    + by rewrite (uses_set_scope m g sc Hs).
    + destruct (set_scope_rest g (named name a sc) m) as (E1 & _ & _). by rewrite E1.
Qed.

Lemma wp_warn_at t msg m G (Q : unit -> Module -> Prop) : inv m G ->
  (forall m', ext None m m' -> (forall s, scope_at m' s = scope_at m s) -> (forall a, at_addr m' a = at_addr m a) ->
     inv m' (add_warning t msg G) -> Q tt m') ->
  wp (warn_at t msg) Q m.
Proof.
  intros [Ig (sc & Hs & Ho & Hn) Iu Ie] HQ. unfold warn_at. apply wp_bind, wp_get. rewrite Ie.
  apply wp_bind, (wp_deref _ (foldl (fun e w => warned w e) base_err (warnings G))); [done|]. apply wp_mod, HQ; try done.
  - split; [done..|]. intros a x Hx. exists x. split; [exact Hx|]. split; [done|apply scope_kept_refl].
  - split; [done|by exists sc|done|]. simpl. by rewrite foldl_app.
Qed.

Lemma does_use st s lhs : st_type st = Tk Tok_Name -> does (use st s lhs) s (fun e G => (e, use_name (d_tok st) lhs e G)).
Proof.
  intros Ht m e G Hs Hi _. unfold use. apply wp_bind, wp_assert; [by apply bool_decide_eq_true_2|].
  apply wp_bind, (wp_find g s _ e); [done|]. intros oa Ha. unfold use_name. change (d_val (d_tok st)) with (st_val st).
  destruct oa as [a|], (meaning e (st_val st)) as [d|]; try done.
  - apply wp_bind, wp_ret. by apply record_use.
  - apply wp_bind, wp_bind. unfold the_global. apply wp_bind, wp_get. rewrite (iv_global _ _ _ _ _ Hi). apply wp_ret, wp_bind.
    apply (wp_find_global g base_uses base_err _ m G _ Hi). intros ob Hb.
    destruct ob as [b|], (globals G !! st_val st) as [d|] eqn:Eg; try done.
    + apply wp_ret. by apply record_use.
    + apply wp_bind, wp_alloc. set (m1 := with_new (new_thing (d_tok st) (T_GlobalSym false)) m).
      assert (E1 : ext None m m1) by apply ext_with_new.
      apply wp_bind, (new_global (st_val st) _ (d_tok st) m1 G); [by apply inv_with_new|done| |].
      { unfold tok_at, m1. by rewrite at_new, bool_decide_eq_true_2. }
      intros m2 E2 _ I2. eapply wp_bind, wp_warn_at; [exact I2|]. intros m3 E3 _ _ I3. apply wp_ret, wp_ret.
      assert (E : ext None m m3) by (eapply ext_trans; [exact E1|]; by eapply ext_trans).
      split; [by apply ext_weaken|]. split; [by eapply scoped_ext|exact I3].
Qed.
(** *** Scopes within scopes *)

(** What a step within a scope does, without the names that are in scope behind it. *)
Definition leads (x : MM unit) (s : nat) (v : env -> Found -> env * Found) : Prop :=
  forall m e G, scoped m (Some s) e -> inv m G -> overwritten (v e G).2 = false ->
    wp x (fun _ m' => ext (Some s) m m' /\ inv m' (v e G).2) m.

Lemma does_leads x s v : does x s v -> leads x s v.
Proof. intros H m e G Hs Hi Ho. eapply wp_mono; [by apply H|]. by intros _ m' (? & _ & ?). Qed.

(** A scope that is new: [b] is entered from [s]. *)
Definition entered (m : Module) (s b : nat) (e inner : env) (m' : Module) : Prop :=
  ext (Some s) m m' /\ (length (things m) <= b)%nat /\ (s < b)%nat /\ scoped m' (Some s) e /\ scoped m' (Some b) inner.

(** After a step within the new scope, the outer one is as it was. *)
Lemma leave m s b e inner m1 x v G (Q : unit -> Module -> Prop) : entered m s b e inner m1 -> inv m1 G -> leads x b v ->
  overwritten (v inner G).2 = false -> (forall m', result s m (e, (v inner G).2) m' -> Q tt m') -> wp x Q m1.
Proof.
  intros (E1 & Hl & Hsb & Hs & Hb) Hi Hx Ho HQ. eapply wp_mono; [by apply (Hx m1 inner G)|]. intros [] m' (E2 & I2).
  apply HQ. split; [by eapply ext_new|]. split; [|done]. eapply scoped_ext; [exact Hs|exact E2|]. by intros s' b' [= <-] [= <-].
Qed.

Lemma scoped_enter m s b e : scoped m (Some s) e -> scope_at m b = Some (new_scope (Some s)) -> (s < b)%nat -> b <> g ->
  scoped m (Some b) e.
Proof.
  intros Hs Hb Hlt Hg. apply (sc_in g m b (new_scope (Some s)) [] e); try done.
  by intros o [= <-].
Qed.

Lemma scope_lt m s sc : scope_at m s = Some sc -> (s < length (things m))%nat.
Proof. intros H. apply scope_at_thing in H as (t & Ht & _). by eapply at_lt. Qed.

Lemma global_lt m G : inv m G -> (g < length (things m))%nat.
Proof. intros [_ (sc & H & _) _ _]. by eapply scope_lt. Qed.

Lemma new_scope_at t m s : scope_data (t_data t) = Some s -> scope_at (with_new t m) (length (things m)) = Some s.
Proof. intros H. apply scope_at_thing. exists t. split; [|done]. by rewrite at_new, bool_decide_eq_true_2. Qed.

(** A function that has no name in the scope around it. *)
Lemma wp_new_function tok s kind m e G (Q : nat -> Module -> Prop) : scoped m (Some s) e -> inv m G ->
  (forall f m', ext None m m' -> (length (things m) <= f)%nat -> (s < f)%nat -> f <> g -> scoped m' (Some s) e ->
     scope_at m' f = Some (new_scope (Some s)) -> tok_at m' f = Some tok -> inv m' G -> Q f m') ->
  wp (new_function tok s kind) Q m.
Proof.
  intros Hs Hi HQ. apply wp_alloc. set (t := new_thing tok (T_Function (new_scope (Some s)) 0 kind)).
  destruct (scoped_at m s e Hs) as (sc & Hsc & Hg & _). assert (E : ext None m (with_new t m)) by apply ext_with_new.
  pose proof (global_lt m G Hi). apply HQ; [done|done|by eapply scope_lt|lia|by eapply scoped_ext|by apply new_scope_at| |].
  - unfold tok_at. by rewrite at_new, bool_decide_eq_true_2.
  - by apply inv_with_new.
Qed.

Lemma nonLocals_kept m l G e os : inv m G -> scoped m os e ->
  let m' := set_nonLocals l m in ext None m m' /\ inv m' G /\ scoped m' os e.
Proof.
  intros Hi Hs m'. assert (E : ext None m m').
  { split; [done..|]. intros a t H. exists t. split; [exact H|]. split; [done|apply scope_kept_refl]. }
  split; [exact E|]. split; [|by eapply scoped_ext]. eapply inv_same; [exact Hi|exact E|done|done|]. intros sc H. by exists sc.
Qed.

(** *** A scope whose names are declared one by one *)

(** [b] is within [s] and has the names in [loc] of its own. *)
Definition opened (m : Module) (s b : nat) (e loc : env) (m' : Module) : Prop :=
  ext (Some s) m m' /\ (length (things m) <= b)%nat /\ (s < b)%nat /\ b <> g /\ scoped m' (Some s) e /\
  exists sc, scope_at m' b = Some sc /\ d_outer sc = Some s /\
    (forall n, names_agree m' (d_names sc !! n) (meaning loc n)) /\ names_local sc.

Lemma opened_entered m s b e loc m' : opened m s b e loc m' -> entered m s b e (loc ++ e) m'.
Proof.
  intros (E & Hl & Hlt & Hg & Hs & sc & Hsc & Ho & Hn & Hnl). repeat (split; [done|]).
  apply (sc_in g m' b sc loc e); try done; rewrite Ho; [by intros o [= <-]|done].
Qed.

(** A step in the outer scope that declares nothing. *)
Lemma opened_outer m s b e loc m1 r m2 : opened m s b e loc m1 -> result s m1 (e, r) m2 -> opened m s b e loc m2.
Proof.
  intros (E & Hl & Hlt & Hg & Hs & sc & Hsc & Ho & Hn & Hnl) (E2 & S2 & I2).
  destruct (ext_scope g _ m1 m2 b sc E2 Hsc Hg) as (sc' & S' & O' & N' & L'); [intros [= ->]; lia|].
  split; [by eapply ext_trans|]. repeat (split; [done|]). exists sc'. split; [done|]. split; [congruence|]. split.
  - intros n. rewrite N'. by eapply ext_agree.
  - intros n a Ha. apply L', (Hnl n). by rewrite <- N'.
Qed.

Lemma opened_declare m s b e loc m1 G t : opened m s b e loc m1 -> inv m1 G ->
  wp (declare b t) (fun _ m2 => opened m s b e (bind t loc) m2 /\ inv m2 G) m1.
Proof.
  intros (E & Hl & Hlt & Hg & Hs & sc & Hsc & Ho & Hn & Hnl) Hi. apply (wp_declare t b sc m1 G); [done..|].
  intros v m2 E2 I2 Ht Hsc'. split; [|done]. split; [by eapply ext_new|]. repeat (split; [done|]). split.
  - eapply scoped_ext; [exact Hs|exact E2|]. by intros s' b' [= <-] [= <-].
  - eexists. split; [exact Hsc'|]. split; [done|]. split; [by eapply names_agree_named|].
    eapply (names_local_named v t sc); simpl; [done|done|set_solver|set_solver].
Qed.

Lemma wp_new_block tok s m e G (Q : nat -> Module -> Prop) : scoped m (Some s) e -> inv m G ->
  (forall b m', opened m s b e [] m' -> inv m' G -> Q b m') -> wp (new_block tok s) Q m.
Proof.
  intros Hs Hi HQ. destruct (scoped_at m s e Hs) as (sc & Hsc & Hg & _). apply wp_bind, wp_alloc.
  set (t := new_thing tok (T_Block (new_scope (Some s)))).
  set (b := length (things m)). assert (Hlt : (s < b)%nat) by by eapply scope_lt.
  assert (Hgb : (g < b)%nat) by by eapply global_lt.
  assert (Hsc1 : scope_at (with_new t m) s = Some sc) by by apply scope_new_old.
  apply wp_bind, (wp_mod_scope _ s sc Hsc1), wp_ret. set (m2 := set_scope s (add_stat b sc) (with_new t m)).
  assert (E : ext None m m2).
  { eapply ext_trans; [apply ext_with_new|]. by apply (ext_set_scope g _ s sc Hsc1). }
  apply (HQ b m2); [|by apply (inv_set_scope g base_uses base_err _ s sc Hsc1); [apply inv_with_new|..]].
  split; [by apply ext_weaken|]. split; [done|]. split; [done|]. split; [lia|]. split; [by eapply scoped_ext|].
  exists (new_scope (Some s)). split; [|done]. unfold m2.
  rewrite (scope_set_scope _ s sc Hsc1), bool_decide_eq_false_2 by lia. by apply new_scope_at.
Qed.

Lemma does_block tok s x v : (forall b, leads (x b) b v) -> does (b <~ new_block tok s; x b) s (closed v).
Proof.
  intros Hx m e G Hs Hi Ho. apply wp_bind, (wp_new_block tok s m e G); [done..|]. intros b m' Hop Hi'.
  apply (leave m s b e e m' (x b) v G); [by apply opened_entered in Hop|done|done|done|by intros m2 H].
Qed.
End Walk.
