(* ===== verification/LuaNames.v ===== *)
(** * The names of a text are resolved

    The walk for each kind of node, and the theorem on whole trees. *)

From S2P Require Import Prelude LexCore LuaToken SyntaxTree LuaTree LuaGrammar ErrorList LuaModule LuaScope LuaModuleSpec LuaResolve.
From Stdlib Require Import Strings.Byte.
Local Open Scope Z_scope.
Local Open Scope rd_scope.

(** ** Meanings of nodes *)

Abbreviation kids := (map (fun c => (d_tok c, visit c))).

Lemma in_order_app f a b e G :
  in_order f (a ++ b) e G = let '(e', G') := in_order f a e G in in_order f b e' G'.
Proof. revert e G. induction a as [|c a IH]; intros e G; [done|]. simpl. destruct (f c e G). apply IH. Qed.

Lemma visit_leaf st lhs e G : leaf st -> visit st lhs e G = (e, G).
Proof. intros [Hl [k Hk]]. rewrite visit_node. unfold combine, children_of. unfold st_type in Hk. by rewrite Hk, Hl. Qed.

Lemma plain_leaf st e G : leaf st -> plain (d_tok st, visit st) e G = (e, G).
Proof. apply visit_leaf. Qed.

Lemma binding_name c e G : st_type c = Tk Tok_Name -> binding (d_tok c, visit c) e G = (bind (d_tok c) e, G).
Proof. unfold binding, is_name, st_type. intros H. by rewrite bool_decide_eq_true_2. Qed.
Lemma binding_other c e G : st_type c <> Tk Tok_Name -> binding (d_tok c, visit c) e G = visit c false e G.
Proof. unfold binding, is_name, st_type. intros H. by rewrite bool_decide_eq_false_2. Qed.

Lemma in_order_leaves l e G : Forall leaf l -> in_order plain (kids l) e G = (e, G).
Proof. induction 1 as [|c l Hc _ IH]; [done|]. cbn [map in_order]. by rewrite plain_leaf. Qed.

Lemma leaf_height (st : SynTree) : (0 < height st)%nat.
Proof. destruct st. simpl. lia. Qed.

(** What a node means, by its rule. *)
Ltac meaning_of st Ht := rewrite (visit_node st); unfold combine; unfold st_type in Ht; rewrite Ht; cbv iota beta.

(** The nodes that are walked as expressions are. *)
Definition is_exp (t : NodeType) : bool :=
  match t with
  | Tk _ | Rule (R_exp | R_explist | R_binop | R_unop | R_tableconstructor | R_fieldlist | R_field | R_fieldsep | R_index_
     | R_desig_ | R_call_ | R_args) => true
  | _ => false
  end.
Definition in_exp (t : NodeType) : bool :=
  is_exp t || bool_decide (t = Rule R_lambdecl_) || bool_decide (t = Rule R_prefixexp).

Lemma exp_children st c : conforms st -> is_exp (st_type st) = true -> c ∈ d_children st ->
  in_exp (st_type c) = true /\ conforms c.
Proof.
  intros Hc Ht Hin. destruct (st_type st) as [k|r] eqn:E.
  - rewrite (conforms_leaf st k Hc E) in Hin. by inversion Hin.
  - destruct (child_symbols st r c Hc E Hin) as [Hs Hcc]. split; [|exact Hcc]. clear Hin E Hcc.
    assert (Hb : forallb in_exp (symbols (production r)) = true) by (by destruct r).
    apply forallb_forall with (x := st_type c) in Hb; [done|]. by apply list_elem_of_In.
Qed.

Lemma in_exp_closed t : in_exp t = true -> opens t = false.
Proof. unfold in_exp. destruct t as [|[]]; try done. Qed.

(** The children of other statements, and of what is returned. *)
Definition in_stat (t : NodeType) : bool :=
  match t with Tk _ | Rule (R_exp | R_block) => true | _ => false end.
Definition plain_stat (t : NodeType) : bool :=
  match t with Tk _ | Rule (R_dostat_ | R_whilestat_ | R_repeatstat_ | R_ifstat_ | R_explist) => true | _ => false end.

Lemma stat_children st c : conforms st -> plain_stat (st_type st) = true -> c ∈ d_children st ->
  in_stat (st_type c) = true /\ conforms c.
Proof.
  intros Hc Ht Hin. destruct (st_type st) as [k|r] eqn:E.
  - rewrite (conforms_leaf st k Hc E) in Hin. by inversion Hin.
  - destruct (child_symbols st r c Hc E Hin) as [Hs Hcc]. split; [|exact Hcc]. clear Hin E Hcc.
    assert (Hb : forallb in_stat (symbols (production r)) = true) by (by destruct r).
    apply forallb_forall with (x := st_type c) in Hb; [done|]. by apply list_elem_of_In.
Qed.

Definition in_stats (t : NodeType) : bool :=
  plain_stat t || match t with Rule (R_assigOrCall_ | R_gfuncdecl_ | R_forstat_ | R_localdecl_) => true | _ => false end.
Lemma stats_children st c : conforms st -> st_type st = Rule R_stat \/ st_type st = Rule R_laststat -> c ∈ d_children st ->
  in_stats (st_type c) = true /\ conforms c.
Proof.
  intros Hc Ht Hin. assert (Hr : exists r, st_type st = Rule r /\ forallb in_stats (symbols (production r)) = true)
    by (destruct Ht as [-> | ->]; by eexists).
  destruct Hr as (r & E & Hb). destruct (child_symbols st r c Hc E Hin) as [Hs Hcc]. split; [|exact Hcc].
  apply forallb_forall with (x := st_type c) in Hb; [done|]. by apply list_elem_of_In.
Qed.

Section Nodes.
Context (g : nat) (base_uses : list (NodeToken * bool * NodeToken)) (base_err : Errors).
Abbreviation scoped := (scoped g).
Abbreviation inv := (inv g base_uses base_err).
Abbreviation does := (does g base_uses base_err).
Abbreviation leads := (leads g base_uses base_err).
Abbreviation result := (result g base_uses base_err).

(** The walk is what the trees mean, for trees up to a height. *)
Record walks (n : nat) : Prop := {
  w_chunk st s : conforms st -> st_type st = Rule R_chunk -> (height st <= n)%nat -> does (chunk n st s) s (visit st false);
  w_stat st s : conforms st -> st_type st = Rule R_stat \/ st_type st = Rule R_laststat -> (height st <= n)%nat ->
    does (stat n st s) s (visit st false);
  w_localdecl st s : conforms st -> st_type st = Rule R_localdecl_ -> (height st <= n)%nat -> does (localdecl n st s) s (visit st false);
  w_lvardecl st s : conforms st -> st_type st = Rule R_lvardecl_ -> (height st <= n)%nat -> does (lvardecl n st s) s (visit st false);
  w_explist st s : conforms st -> st_type st = Rule R_explist -> (height st <= n)%nat -> does (explist n st s) s (visit st false);
  w_exp st s : conforms st -> is_exp (st_type st) = true -> (height st <= n)%nat -> does (exp n st s) s (visit st false);
  w_lfuncdecl st s : conforms st -> st_type st = Rule R_lfuncdecl_ -> (height st <= n)%nat -> does (lfuncdecl n st s) s (visit st false);
  w_funcbody st f : conforms st -> st_type st = Rule R_funcbody -> (height st <= n)%nat ->
    leads (funcbody n st f) f (in_order plain (children_of st));
  w_forstat st s : conforms st -> st_type st = Rule R_forstat_ -> (height st <= n)%nat -> does (forstat n st s) s (visit st false);
  w_gfuncdecl st s : conforms st -> st_type st = Rule R_gfuncdecl_ -> (height st <= n)%nat -> does (gfuncdecl n st s) s (visit st false);
  w_prefixexp st s lhs : conforms st -> st_type st = Rule R_prefixexp -> (height st <= n)%nat ->
    does (prefixexp n st s lhs) s (visit st lhs);
  w_assignment st s lhs : conforms st -> st_type st = Rule R_assignment_ -> (height st <= n)%nat ->
    does (assignment n st s) s (visit st lhs);
  w_lambdecl st s : conforms st -> st_type st = Rule R_lambdecl_ -> (height st <= n)%nat -> does (lambdecl n st s) s (visit st false)
}.

Section Step.
Context (n : nat) (IH : walks n).

(** The height of a child. *)
Ltac low := match goal with
  | H : (height ?st <= S n)%nat |- (height ?c <= n)%nat =>
      let Hh := fresh "Hh" in assert (Hh : c ∈ d_children st); [|apply height_child in Hh; lia] end.

Lemma child_low (st c : SynTree) : (height st <= S n)%nat -> c ∈ d_children st -> (height c <= n)%nat.
Proof using Type. intros H Hc. apply height_child in Hc. lia. Qed.

Lemma step_chunk st s : conforms st -> st_type st = Rule R_chunk -> (height st <= S n)%nat ->
  does (chunk (S n) st s) s (visit st false).
Proof using IH.
  intros Hc Ht Hh. pose proof Ht as Ht'. meaning_of st Ht. apply does_for. intros c Hin.
  destruct (child_symbols st _ c Hc Ht' Hin) as [Hs Hcc]. simpl in Hs.
  assert (Hk : st_type c = Rule R_stat \/ st_type c = Rule R_laststat) by set_solver.
  split; [|apply mono_visit]. apply does_assert.
  - unfold is_stat, has_type. apply orb_true_iff. rewrite !bool_decide_eq_true. exact Hk.
  - apply (w_stat n IH); [done|done|by eapply child_low].
Qed.

Lemma step_explist st s : conforms st -> st_type st = Rule R_explist -> (height st <= S n)%nat ->
  does (explist (S n) st s) s (visit st false).
Proof using IH.
  intros Hc Ht Hh. pose proof Ht as Ht'. assert (Hall : Forall (fun c => in_exp (st_type c) = true) (d_children st)).
  { apply Forall_forall. intros c Hin. apply (exp_children st c Hc); [by rewrite Ht'|done]. }
  apply (does_ext _ _ _ _ _ (in_order plain (children_of st))).
  2: { intros e G. meaning_of st Ht. symmetry. apply visit_plain. eapply Forall_impl; [exact Hall|]. intros c. apply in_exp_closed. }
  pose proof (explist_shape st Hc Ht') as Hne. cbn [explist]. unfold first.
  destruct (d_children st) as [|d l] eqn:El; [done|]. simpl hd_error. apply (does_deref _ _ _ _ d); [done|].
  unfold children_of. rewrite El. apply does_for. intros c Hin. rewrite <- El in Hin. split; [|apply mono_visit].
  assert (Hx : st_type c = Rule R_exp).
  { destruct (child_symbols st _ c Hc Ht' Hin) as [Hs _]. simpl in Hs. set_solver. }
  apply (w_exp n IH); [by eapply exp_children; [|rewrite Ht'|]|by rewrite Hx|by eapply child_low].
Qed.

Lemma step_exp st s : conforms st -> is_exp (st_type st) = true -> (height st <= S n)%nat ->
  does (exp (S n) st s) s (visit st false).
Proof using IH.
  intros Hc Ht Hh.
  assert (Hall : forall c, c ∈ d_children st -> in_exp (st_type c) = true /\ conforms c) by (intros c; by apply exp_children).
  apply (does_ext _ _ _ _ _ (in_order plain (children_of st))).
  2: { intros e G. rewrite <- visit_plain.
    - rewrite (visit_node st). unfold combine. unfold st_type in Ht. by destruct (d_type (d_tok st)) as [|[]].
    - apply Forall_forall. intros c Hin. by apply in_exp_closed, Hall. }
  cbn [exp]. apply does_for. intros c Hin. destruct (Hall c Hin) as [Hx Hcc]. pose proof (child_low st c Hh Hin) as Hl.
  split; [|apply mono_visit]. unfold in_exp in Hx. destruct (st_type c) as [k|r] eqn:E.
  - apply (w_exp n IH); [done|by rewrite E|done].
  - destruct r; try done; try (apply (w_exp n IH); [done|by rewrite E|done]).
    + by apply (w_lambdecl n IH).
    + by apply (w_prefixexp n IH).
Qed.

Lemma step_prefixexp st s lhs : conforms st -> st_type st = Rule R_prefixexp -> (height st <= S n)%nat ->
  does (prefixexp (S n) st s lhs) s (visit st lhs).
Proof using IH.
  intros Hc Ht Hh. pose proof Ht as Ht'.
  assert (Hall : forall c, c ∈ d_children st -> is_exp (st_type c) = true /\ conforms c).
  { intros c Hin. destruct (child_symbols st _ c Hc Ht' Hin) as [Hs Hcc]. split; [|done].
    assert (Hb : forallb is_exp (symbols (production R_prefixexp)) = true) by done.
    apply forallb_forall with (x := st_type c) in Hb; [done|]. by apply list_elem_of_In. }
  assert (Hsame : forall c, c ∈ d_children st -> same_env (names_used lhs (d_tok c, visit c))).
  { intros c Hin e G. unfold names_used. destruct (is_name _); [done|]. apply visit_closed, in_exp_closed. unfold in_exp.
    by destruct (Hall c Hin) as [-> _]. }
  apply (does_ext _ _ _ _ _ (in_order (names_used lhs) (children_of st))).
  2: { intros e G. meaning_of st Ht. symmetry. apply closed_same, same_in_order. intros c Hin.
    apply list_elem_of_fmap in Hin as (d & -> & Hd). by apply Hsame. }
  cbn [prefixexp]. apply does_for. intros c Hin. destruct (Hall c Hin) as [Hx Hcc]. unfold has_type, names_used, is_name. simpl.
  change (d_type (d_tok c)) with (st_type c). case_bool_decide as E.
  - split; [by apply does_use|]. intros e G Ho. simpl. by rewrite use_name_over.
  - split; [|apply mono_visit]. apply (w_exp n IH); [done|done|by eapply child_low].
Qed.

Lemma step_localdecl st s : conforms st -> st_type st = Rule R_localdecl_ -> (height st <= S n)%nat ->
  does (localdecl (S n) st s) s (visit st false).
Proof using IH.
  intros Hc Ht Hh. pose proof Ht as Ht'. destruct (localdecl_shape st Hc Ht) as (l & d & El & Hl & Hlf & Hcd & Hd).
  apply (does_ext _ _ _ _ _ (visit d false)).
  2: { intros e G. meaning_of st Ht. unfold children_of. rewrite El. cbn [map in_order]. rewrite plain_leaf by done.
    unfold plain. simpl. by destruct (visit d false e G). }
  cbn [localdecl]. unfold first, last_child. rewrite El. apply does_assert; [done|]. apply (does_deref _ _ _ _ l); [done|].
  apply does_assert; [by apply bool_decide_eq_true_2|]. apply (does_deref _ _ _ _ d); [done|].
  assert (Hlow : (height d <= n)%nat) by (eapply child_low; [done|]; rewrite El; set_solver).
  destruct Hd as [E|E]; rewrite E; [by apply (w_lfuncdecl n IH)|by apply (w_lvardecl n IH)].
Qed.

Lemma step_lvardecl st s : conforms st -> st_type st = Rule R_lvardecl_ -> (height st <= S n)%nat ->
  does (lvardecl (S n) st s) s (visit st false).
Proof using IH.
  intros Hc Ht Hh. pose proof Ht as Ht'. destruct (lvardecl_shape st Hc Ht) as (nl & Hn & Hcn & Hl).
  assert (Hnl : does (namelist nl s) s (visit nl false)).
  { eapply does_ext; [apply does_namelist; by apply namelist_shape|]. intros e G. meaning_of nl Hn. done. }
  cbn [lvardecl]. unfold first, last_child, child_at. destruct Hl as [El|(eq & l & El & Heq & Hlf & Hle & Hcl)].
  - apply (does_ext _ _ _ _ _ (visit nl false)).
    2: { intros e G. meaning_of st Ht. unfold children_of. rewrite El. simpl. unfold plain. simpl. by destruct (visit nl false e G). }
    rewrite El. apply (does_deref _ _ _ _ nl); [done|]. apply does_assert; [by apply bool_decide_eq_true_2|]. exact Hnl.
  - apply (does_ext _ _ _ _ _ (fun e G => let '(e, G) := visit l false e G in visit nl false e G)).
    2: { intros e G. meaning_of st Ht. unfold children_of. rewrite El. cbn [map rev app in_order].
      unfold plain at 1. cbn [snd]. destruct (visit l false e G) as [e1 G1]. rewrite plain_leaf by done. unfold plain. simpl.
      by destruct (visit nl false e1 G1). }
    rewrite El. apply (does_deref _ _ _ _ nl); [done|]. apply does_assert; [by apply bool_decide_eq_true_2|].
    apply does_bind; [|exact Hnl|apply mono_visit]. apply (does_deref _ _ _ _ eq); [done|].
    apply does_assert; [by apply bool_decide_eq_true_2|]. apply (does_deref _ _ _ _ l); [done|].
    apply (w_explist n IH); [done|done|]. eapply child_low; [done|]. rewrite El. set_solver.
Qed.

Lemma step_assignment st s lhs : conforms st -> st_type st = Rule R_assignment_ -> (height st <= S n)%nat ->
  does (assignment (S n) st s) s (visit st lhs).
Proof using IH.
  intros Hc Ht Hh. pose proof Ht as Ht'. destruct (assignment_shape st Hc Ht) as (ps & eq & l & El & Hps & Heq & Hlf & Hl & Hcl).
  assert (Hll : (height l <= n)%nat) by (eapply child_low; [done|]; rewrite El; set_solver).
  apply (does_ext _ _ _ _ _ (fun e G => let '(e, G) := visit l false e G in in_order (fun c => c.2 true) (kids ps) e G)).
  2: { intros e G. meaning_of st Ht. unfold children_of. rewrite El. rewrite map_app. simpl map.
    replace (kids ps ++ [(d_tok eq, visit eq); (d_tok l, visit l)]) with ((kids ps ++ [(d_tok eq, visit eq)]) ++ [(d_tok l, visit l)])
      by by rewrite <- app_assoc.
    rewrite last_snoc, removelast_last. simpl option_list. cbn [in_order]. unfold plain. cbn [snd].
    pose proof (visit_closed l false) as Hle. rewrite Hl in Hle. specialize (Hle eq_refl e G).
    assert (Hsame : same_env (in_order (fun c => c.2 true) (kids ps))).
    { apply same_in_order. intros c Hin. apply list_elem_of_fmap in Hin as (d & -> & Hd). apply visit_closed.
      rewrite Forall_forall in Hps. by destruct (Hps d Hd) as [-> _]. }
    unfold closed. simpl. destruct (visit l false e G) as [e1 G1]. simpl in *. subst e1.
    specialize (Hsame e G1). rewrite in_order_app. destruct (in_order _ (kids ps) e G1) as [e2 G2]. simpl in *. subst e2.
    by rewrite visit_leaf. }
  cbn [assignment]. unfold last_child. apply does_assert; [apply bool_decide_eq_true_2; rewrite El, length_app; simpl; lia|].
  apply (does_deref _ _ _ _ l); [by rewrite El, last_app|]. apply does_assert; [by apply bool_decide_eq_true_2|].
  apply does_bind; [by apply (w_explist n IH)| |].
  - apply (does_ext _ _ _ _ _ (in_order (fun c => if bool_decide (d_type c.1 = Rule R_prefixexp) then c.2 true else fun e G => (e, G)) (children_of st))).
    + apply does_for. intros c Hin. unfold has_type. change (d_type (d_tok c)) with (st_type c). simpl.
      change (d_type (d_tok c)) with (st_type c). case_bool_decide as E; [|split; [apply does_ret|by intros e G]].
      split; [|apply mono_visit]. apply (w_prefixexp n IH); [|done|by eapply child_low].
      by destruct (child_symbols st _ c Hc Ht' Hin).
    + intros e G. unfold children_of. rewrite El, map_app, in_order_app.
      assert (Hps' : in_order (fun c => if bool_decide (d_type c.1 = Rule R_prefixexp) then c.2 true else fun e G => (e, G)) (kids ps) e G =
        in_order (fun c => c.2 true) (kids ps) e G).
      { clear El. revert e G. induction Hps as [|p ps [Hp _] _ IHp]; intros e G; [done|]. simpl.
        change (d_type (d_tok p)) with (st_type p). rewrite bool_decide_eq_true_2 by done. destruct (visit p true e G). apply IHp. }
      rewrite Hps'. destruct (in_order (fun c => c.2 true) (kids ps) e G) as [e1 G1]. simpl.
      change (d_type (d_tok eq)) with (st_type eq). change (d_type (d_tok l)) with (st_type l).
      rewrite Heq, Hl. simpl. done.
  - apply mono_in_order. intros c Hin. apply list_elem_of_fmap in Hin as (d & -> & Hd). apply mono_visit.
Qed.

(** The chunk in a block, in a scope. *)
Lemma block_leads bl s : conforms bl -> st_type bl = Rule R_block -> (height bl <= n)%nat ->
  does (c <~ block_chunk bl; chunk n c s) s (in_order plain (children_of bl)).
Proof using IH.
  intros Hc Ht Hh. destruct (block_shape bl Hc Ht) as (c & El & Hct & Hcc).
  apply (does_ext _ _ _ _ _ (visit c false)).
  2: { intros e G. unfold children_of. rewrite El. simpl. unfold plain. simpl. by destruct (visit c false e G). }
  assert (Hb : forall m, block_chunk bl m = Some (c, m)).
  { intros m. unfold block_chunk, first, rbind. rewrite El. simpl. unfold massert, has_type. by rewrite bool_decide_eq_true_2. }
  intros m e G Hs Hi Ho. apply wp_bind. unfold wp at 1. rewrite Hb. apply (w_chunk n IH); try done.
  assert (Hh' : (height c < height bl)%nat) by (apply height_child; rewrite El; set_solver). lia.
Qed.

Lemma stat_call st s : conforms st -> st_type st = Rule R_assigOrCall_ -> (height st <= n)%nat ->
  does (p <~ first st; _ <~ massert (has_type p (Rule R_prefixexp));
        if bool_decide (length (d_children st) = 2%nat) then
          _ <~ prefixexp n p s true;
          a <~ last_child st;
          _ <~ massert (has_type a (Rule R_assignment_));
          assignment n a s
        else prefixexp n p s false) s (visit st false).
Proof using IH.
  intros Hc Ht Hh. destruct (assigOrCall_shape st Hc Ht) as (p & Hp & Hcp & Hl). unfold first, last_child.
  pose proof (visit_closed p) as Hpe. rewrite Hp in Hpe.
  destruct Hl as [El|(a & El & Ha & Hca)]; rewrite El.
  - apply (does_deref _ _ _ _ p); [done|]. apply does_assert; [by apply bool_decide_eq_true_2|]. simpl.
    eapply does_ext; [apply (w_prefixexp n IH); [done|done|]|].
    { assert (height p < height st)%nat by (apply height_child; rewrite El; set_solver). lia. }
    intros e G. meaning_of st Ht. unfold children_of. rewrite El. simpl. unfold closed. simpl.
    specialize (Hpe false eq_refl e G). destruct (visit p false e G). simpl in *. by subst.
  - apply (does_deref _ _ _ _ p); [done|]. apply does_assert; [by apply bool_decide_eq_true_2|]. simpl bool_decide. cbv iota.
    eapply does_ext.
    + apply does_bind; [apply (w_prefixexp n IH); [done|done|]| |apply (mono_visit a true)].
      { assert (height p < height st)%nat by (apply height_child; rewrite El; set_solver). lia. }
      apply (does_deref _ _ _ _ a); [done|]. apply does_assert; [by apply bool_decide_eq_true_2|].
      apply (w_assignment n IH); [done|done|].
      assert (height a < height st)%nat by (apply height_child; rewrite El; set_solver). lia.
    + intros e G. meaning_of st Ht. unfold children_of. rewrite El. simpl. unfold closed. simpl.
      specialize (Hpe true eq_refl e G). destruct (visit p true e G) as [e1 G1]. simpl in *. subst e1.
      pose proof (visit_closed a true) as Hae. rewrite Ha in Hae. specialize (Hae eq_refl e G1).
      destruct (visit a true e G1). simpl in *. by subst.
Qed.

(** The statements of expressions and blocks. *)
Lemma stat_plain st s : conforms st -> plain_stat (st_type st) = true -> (height st <= n)%nat ->
  does (mfor (d_children st) (fun sub =>
    match st_type sub with
    | Rule R_exp => exp n sub s
    | Rule R_block => b <~ new_block (d_tok st) s; c <~ block_chunk sub; chunk n c b
    | _ => rret tt
    end)) s (visit st false).
Proof using IH.
  intros Hc Ht Hh.
  assert (Hall : forall c, c ∈ d_children st -> in_stat (st_type c) = true /\ conforms c) by (intros c; by apply stat_children).
  apply (does_ext _ _ _ _ _ (in_order plain (children_of st))).
  2: { intros e G. rewrite <- visit_plain.
    - rewrite (visit_node st). unfold combine. unfold st_type in Ht. by destruct (d_type (d_tok st)) as [|[]].
    - apply Forall_forall. intros c Hin. destruct (Hall c Hin) as [Hx _]. by destruct (st_type c) as [|[]]. }
  apply does_for. intros c Hin. destruct (Hall c Hin) as [Hx Hcc].
  assert (Hl : (height c < height st)%nat) by by apply height_child.
  split; [|apply mono_visit]. destruct (st_type c) as [k|r] eqn:E.
  - eapply does_ext; [apply does_ret|]. intros e G. symmetry. apply visit_leaf. by eapply conforms_is_leaf.
  - destruct r; try done.
    + eapply does_ext; [apply does_block; intros b; apply does_leads, block_leads; [done|done|lia]|].
      intros e G. unfold plain. simpl. meaning_of c E. done.
    + apply (w_exp n IH); [done|by rewrite E|lia].
Qed.

Lemma step_stat st s : conforms st -> st_type st = Rule R_stat \/ st_type st = Rule R_laststat -> (height st <= S n)%nat ->
  does (stat (S n) st s) s (visit st false).
Proof using IH.
  intros Hc Ht Hh.
  assert (Hall : forall c, c ∈ d_children st -> in_stats (st_type c) = true /\ conforms c) by (intros c; by apply stats_children).
  apply (does_ext _ _ _ _ _ (in_order plain (children_of st))).
  2: { intros e G. destruct Ht as [Ht|Ht]; [meaning_of st Ht; done|]. pose proof Ht as Ht'. meaning_of st Ht. symmetry. apply visit_plain.
    apply Forall_forall. intros c Hin. destruct (child_symbols st _ c Hc Ht' Hin) as [Hs _]. simpl in Hs.
    assert (st_type c = Tk Tok_return \/ st_type c = Rule R_explist \/ st_type c = Tk Tok_break) as [-> |[-> | ->]] by set_solver; done. }
  cbn [stat]. apply does_for. intros c Hin. destruct (Hall c Hin) as [Hx Hcc]. pose proof (child_low st c Hh Hin) as Hl.
  split; [|apply mono_visit]. unfold in_stats in Hx. destruct (st_type c) as [k|r] eqn:E.
  - apply stat_plain; [done|by rewrite E|done].
  - destruct r; try done; try (apply stat_plain; [done|by rewrite E|done]).
    + by apply stat_call.
    + by apply (w_forstat n IH).
    + by apply (w_gfuncdecl n IH).
    + by apply (w_localdecl n IH).
Qed.

(** *** Functions *)
Lemma scope_thing m f e : scoped m (Some f) e -> exists t, at_addr m f = Some t /\ is_Some (scope_data (t_data t)).
Proof using Type.
  intros Hs. destruct (scoped_at g m f e Hs) as (sc & Hsc & _). apply scope_at_thing in Hsc as (t & Ht & E). exists t.
  split; [done|by eexists].
Qed.

Lemma parlist_meaning pl nl l e G : st_type pl = Rule R_parlist -> d_children pl = nl :: l -> st_type nl = Rule R_namelist ->
  Forall leaf l -> visit pl false e G = in_order binding (children_of nl) e G.
Proof using Type.
  intros Ht El Hn Hlf. meaning_of pl Ht. unfold children_of at 1. rewrite El. cbn [map in_order]. unfold plain at 1. cbn [snd].
  meaning_of nl Hn. destruct (in_order binding (children_of nl) e G). by apply in_order_leaves.
Qed.

Lemma wp_parlist pl f m e G (Q : nat -> Module -> Prop) : conforms pl -> st_type pl = Rule R_parlist ->
  scoped m (Some f) e -> inv m G -> overwritten (visit pl false e G).2 = false ->
  (forall m', result f m (visit pl false e G) m' -> Q 2%nat m') ->
  wp (n <~ first pl;
      _ <~ (if has_type n (Rule R_namelist) then
              _ <~ mod_thing f (set_parCount (u16 (Z.of_nat (length (d_children n)))));
              namelist n f
            else rret tt);
      rret 2%nat) Q m.
Proof using Type.
  intros Hc Ht Hs Hi Ho HQ. destruct (parlist_shape pl Hc Ht) as [(nl & l & El & Hn & Hcn & Hlf)|(d & El & Hd & Hlf)]; unfold first; rewrite El.
  - apply wp_bind, (wp_deref _ nl); [done|]. unfold has_type. rewrite bool_decide_eq_true_2 by done.
    destruct (scope_thing m f e Hs) as (t & Hat & [sc Hsc]). unfold mod_thing, get_thing.
    apply wp_bind, wp_bind, wp_bind, wp_bind, wp_get, (wp_deref _ t); [done|]. apply wp_mod.
    set (k := u16 _). destruct (thing_kept g base_uses base_err m f t (set_parCount k t) G Hat) as (E1 & I1 & K1); try done;
      try by destruct (t_data t) eqn:Ed; simpl; rewrite ?Ed.
    rewrite (parlist_meaning pl nl l) in Ho, HQ by done.
    eapply wp_mono; [apply (does_namelist g base_uses base_err nl f); [by apply namelist_shape|by eapply scoped_ext|exact I1|exact Ho]|].
    intros [] m' (E2 & S2 & I2). apply wp_ret, HQ. split; [|done]. eapply ext_trans; [by apply ext_weaken|exact E2].
  - apply wp_bind, (wp_deref _ d); [done|]. unfold has_type. rewrite Hd. simpl. apply wp_bind, wp_ret, wp_ret, HQ.
    assert (Hv : visit pl false e G = (e, G)).
    { meaning_of pl Ht. unfold children_of. rewrite El. apply (in_order_leaves [d]). by constructor. }
    rewrite Hv. split; [apply ext_refl|done].
Qed.

Lemma step_funcbody st f : conforms st -> st_type st = Rule R_funcbody -> (height st <= S n)%nat ->
  leads (funcbody (S n) st f) f (in_order plain (children_of st)).
Proof using IH.
  intros Hc Ht Hh m e G Hs Hi Ho.
  destruct (funcbody_shape st Hc Ht) as (lp & ps & rp & bl & en & El & Hlp & Hrp & Hbl & Hen & Hcs & Hps).
  inversion Hcs as [|? ? C1 Hcs1]; subst. inversion Hcs1 as [|? ? C2 Hcs2]; subst. inversion Hcs2 as [|? ? C3 Hcs3]; subst.
  inversion Hcs3 as [|? ? C4 _]; subst.
  assert (Hblk : leads (c <~ block_chunk bl; chunk n c f) f (in_order plain (children_of bl))).
  { apply does_leads, block_leads; [done|done|]. eapply child_low; [done|]. rewrite El. set_solver. }
  assert (Hv : forall e G, (in_order plain (children_of st) e G).2 =
    (let '(e, G) := in_order plain (kids ps) e G in in_order plain (children_of bl) e G).2).
  { intros e' G'. unfold children_of at 1. rewrite El. cbn [map in_order]. rewrite plain_leaf by by eapply conforms_is_leaf.
    rewrite map_app, in_order_app. destruct (in_order plain (kids ps) e' G') as [e1 G1]. cbn [map in_order].
    rewrite plain_leaf by by eapply conforms_is_leaf. unfold plain at 1. cbn [snd]. meaning_of bl Hbl. unfold closed. cbn [snd].
    by rewrite plain_leaf by by eapply conforms_is_leaf. }
  rewrite Hv in *. cbn [funcbody]. rewrite El. apply wp_bind, wp_assert.
  { apply bool_decide_eq_true_2. simpl. rewrite length_app. simpl. lia. }
  unfold first, last_child, child_at. rewrite El. apply wp_bind, (wp_deref _ lp); [done|].
  apply wp_bind, (wp_deref _ en); [by rewrite (app_comm_cons ps), last_app|].
  apply wp_bind, wp_assert; [unfold has_type; by rewrite Hlp, Hen|]. apply wp_bind.
  destruct (in_order plain (kids ps) e G) as [e1 G1] eqn:E1.
  assert (Ho1 : overwritten G1 = false).
  { eapply not_over; [|exact Ho]. apply mono_in_order. intros c Hin. apply list_elem_of_fmap in Hin as (d & -> & Hd). apply mono_visit. }
  assert (Hrest : forall m1, result f m (e1, G1) m1 -> wp (r <~ mderef ((lp :: ps ++ [rp; bl; en]) !! S (length ps));
      block <~ mderef ((lp :: ps ++ [rp; bl; en]) !! (S (length ps) + 1)%nat);
      _ <~ massert (has_type r (Tk Tok_Rpar) && has_type block (Rule R_block)); c <~ block_chunk block; chunk n c f)
      (fun _ m2 => ext g (Some f) m m2 /\ inv m2 (in_order plain (children_of bl) e1 G1).2) m1).
  { intros m1 (X1 & S1 & I1). apply wp_bind, (wp_deref _ rp); [simpl; by apply list_lookup_middle|].
    apply wp_bind, (wp_deref _ bl).
    { simpl. rewrite Nat.add_1_r. rewrite lookup_app_r by lia. by replace (S (length ps) - length ps)%nat with 1%nat by lia. }
    apply wp_bind, wp_assert; [unfold has_type; by rewrite Hrp, Hbl|].
    eapply wp_mono; [by apply (Hblk m1 e1 G1)|]. intros [] m2 (X2 & I2). split; [by eapply ext_trans|done]. }
  unfold parameters, child_at. rewrite El. destruct Hps as [->|(pl & -> & Hpl & Hcpl)].
  - apply wp_bind, (wp_deref _ rp); [done|]. unfold has_type at 1. rewrite Hrp. simpl. apply wp_ret. apply Hrest.
    simpl in E1. injection E1 as <- <-. split; [apply ext_refl|done].
  - simpl in E1. unfold plain in E1. simpl in E1. destruct (visit pl false e G) as [e2 G2] eqn:E2. injection E1 as -> ->.
    apply wp_bind, (wp_deref _ pl); [done|]. unfold has_type at 1. rewrite Hpl. simpl.
    apply (wp_parlist pl f m e G); try done; rewrite E2; [done|]. exact Hrest.
Qed.

Lemma step_lfuncdecl st s : conforms st -> st_type st = Rule R_lfuncdecl_ -> (height st <= S n)%nat ->
  does (lfuncdecl (S n) st s) s (visit st false).
Proof using IH.
  intros Hc Ht Hh. destruct (lfuncdecl_shape st Hc Ht) as (fn & nm & b & El & Hf & Hlf & Hn & Hb & Hcb).
  apply (does_ext _ _ _ _ _ (fun e G => (bind (d_tok nm) e, (in_order plain (children_of b) (bind (d_tok nm) e) G).2))).
  2: { intros e G. meaning_of st Ht. unfold children_of at 2. rewrite El. cbn [map in_order].
    rewrite binding_other, visit_leaf, binding_name, binding_other by (done || congruence).
    meaning_of b Hb. done. }
  intros m e G Hs Hi Ho. cbn [lfuncdecl]. unfold first, child_at, last_child. rewrite El. apply wp_bind, wp_assert; [done|].
  apply wp_bind, (wp_deref _ fn), wp_bind, (wp_deref _ nm), wp_bind, (wp_deref _ b), wp_bind, wp_assert; [done..| |].
  { unfold has_type. by rewrite Hf, Hn, Hb. }
  apply wp_bind, (wp_new_function g base_uses base_err _ s _ m e G); [done|done|].
  intros f m1 E1 Hlen Hsf Hfg Hs1 Hf1 Htok1 I1.
  destruct (scoped_at g m1 s e Hs1) as (sc & Hsc & Hg & Hnl).
  apply wp_bind, (wp_insert_name s _ f m1 sc); [done|by apply Hnl|].
  set (m2 := set_scope s (named (st_val nm) f sc) m1).
  assert (Hsc2 : scope_at m2 s = Some (named (st_val nm) f sc)) by (unfold m2; rewrite (scope_set_scope m1 s sc Hsc), bool_decide_eq_true_2; done).
  apply wp_bind, (wp_mod_scope m2 s _ Hsc2). set (m3 := set_scope s (add_local f (named (st_val nm) f sc)) m2).
  assert (Hsc3 : scope_at m3 s = Some (add_local f (named (st_val nm) f sc)))
    by (unfold m3; rewrite (scope_set_scope m2 s _ Hsc2), bool_decide_eq_true_2; done).
  assert (E2 : LuaModuleSpec.ext g (Some s) m1 m2) by by apply (ext_set_scope g m1 s sc Hsc).
  assert (E3 : LuaModuleSpec.ext g (Some s) m2 m3) by (apply (ext_set_scope g m2 s _ Hsc2); simpl; [done|set_solver|done]).
  assert (E13 : LuaModuleSpec.ext g (Some s) m1 m3) by by eapply ext_trans.
  assert (Hf3 : scope_at m3 f = Some (new_scope (Some s))).
  { unfold m3. rewrite (scope_set_scope m2 s _ Hsc2), bool_decide_eq_false_2 by lia.
    unfold m2. by rewrite (scope_set_scope m1 s sc Hsc), bool_decide_eq_false_2 by lia. }
  assert (Hs3 : scoped m3 (Some s) (bind (d_tok nm) e)).
  { eapply (scoped_named g m1 s e sc f _ m3); [done|done|done|done|done|done|simpl; set_solver|simpl; set_solver|].
    by eapply ext_tok. }
  apply (leave g base_uses base_err m s f (bind (d_tok nm) e) (bind (d_tok nm) e) m3 _ (in_order plain (children_of b)) G); [| | |done|by intros m' H].
  - split; [eapply ext_trans; [by apply ext_weaken|done]|]. split; [done|]. split; [done|]. split; [done|].
    by apply (scoped_enter g m3 s f).
  - apply (inv_set_scope g base_uses base_err m2 s _ Hsc2); try done; [|simpl; set_solver].
    by apply (inv_set_scope g base_uses base_err m1 s sc Hsc).
  - apply (w_funcbody n IH); [done|done|]. eapply child_low; [done|]. rewrite El. set_solver.
Qed.

Lemma step_lambdecl st s : conforms st -> st_type st = Rule R_lambdecl_ -> (height st <= S n)%nat ->
  does (lambdecl (S n) st s) s (visit st false).
Proof using IH.
  intros Hc Ht Hh. destruct (lambdecl_shape st Hc Ht) as (fn & b & El & Hlf & Hb & Hcb).
  apply (does_ext _ _ _ _ _ (closed (in_order plain (children_of b)))).
  2: { intros e G. meaning_of st Ht. unfold closed. f_equal. unfold children_of at 2. rewrite El. cbn [map in_order].
    rewrite plain_leaf by done. unfold plain at 2. cbn [snd]. meaning_of b Hb. done. }
  intros m e G Hs Hi Ho. cbn [lambdecl]. unfold first, last_child. rewrite El. apply wp_bind, wp_assert; [done|].
  apply wp_bind, (wp_deref _ b), wp_bind, wp_assert; [done|by apply bool_decide_eq_true_2|].
  apply wp_bind, (wp_new_function g base_uses base_err _ s _ m e G); [done|done|].
  intros f m1 E1 Hlen Hsf Hfg Hs1 Hf1 _ I1. apply wp_bind.
  apply (leave g base_uses base_err m s f e e m1 _ (in_order plain (children_of b)) G); [|done| |done|].
  - split; [by apply ext_weaken|]. split; [done|]. split; [done|]. split; [done|]. by apply (scoped_enter g m1 s f).
  - apply (w_funcbody n IH); [done|done|]. eapply child_low; [done|]. rewrite El. set_solver.
  - intros m2 (E2 & S2 & I2). apply wp_mod.
    destruct (nonLocals_kept g base_uses base_err m2 (d_nonLocals m2 ++ [f]) _ e (Some s) I2 S2) as (E3 & I3 & S3).
    split; [|done]. eapply ext_trans; [exact E2|by apply ext_weaken].
Qed.

(** *** Global functions *)
Lemma wp_dotted_names l m (Q : list bytes -> Module -> Prop) :
  (forall c, c ∈ l -> conforms c) -> (forall v, Q v m) -> wp (dotted_names l) Q m.
Proof using Type.
  revert Q. induction l as [|c l IHl]; intros Q Hl HQ; [apply wp_ret, HQ|]. cbn [dotted_names].
  assert (Hc : conforms c) by (apply Hl; by left).
  assert (Hrest : forall v, wp (vs <~ dotted_names l; rret (v ++ vs)) Q m).
  { intros v. apply wp_bind, IHl; [intros d Hd; apply Hl; by right|]. intros vs. apply wp_ret, HQ. }
  destruct (st_type c) as [[]|[]] eqn:E; try (by apply wp_bind, wp_ret, Hrest).
  destruct (desig_shape c Hc E) as (d & n0 & El & Hn). unfold last_child. rewrite El.
  apply wp_bind, wp_bind, wp_assert; [done|]. apply wp_bind, (wp_deref _ n0); [done|].
  apply wp_bind, wp_assert; [by apply bool_decide_eq_true_2|]. apply wp_ret, Hrest.
Qed.

Lemma wp_global_function names s m e G (Q : nat -> Module -> Prop) : conforms names -> st_type names = Rule R_funcname ->
  scoped m (Some s) e -> inv m G -> overwritten (global_name (children_of names) G) = false ->
  (forall f m', LuaModuleSpec.ext g None m m' -> entered g m s f e e m' -> inv m' (global_name (children_of names) G) -> Q f m') ->
  wp (global_function names s) Q m.
Proof using Type.
  intros Hc Ht Hs Hi Ho HQ.
  assert (Hent : forall f m1 m', LuaModuleSpec.ext g None m m1 -> LuaModuleSpec.ext g None m1 m' -> (length (things m) <= f)%nat ->
    (s < f)%nat -> f <> g -> scoped m1 (Some s) e -> scope_at m' f = Some (new_scope (Some s)) -> entered g m s f e e m').
  { intros f m1 m' E1 E2 Hl Hlt Hg Hs1 Hf. assert (Hs' : scoped m' (Some s) e) by by eapply scoped_ext.
    split; [apply ext_weaken; by eapply ext_trans|]. split; [done|]. split; [done|]. split; [done|]. by apply (scoped_enter g m' s f). }
  unfold global_function, first, children_of, global_name in *. destruct (d_children names) as [|c [|c' l]] eqn:El.
  - destruct (conforms_rule names _ Hc Ht) as [Hl _]. rewrite El in Hl. unfold production in Hl. simpl in Hl. lang_inv; simpl in *; congruence.
  - simpl in Ho |- *. apply wp_bind, wp_ret, wp_bind, (wp_new_function g base_uses base_err _ s _ m e G); [done|done|].
    intros f m1 E1 Hlen Hsf Hfg Hs1 Hf1 Htok I1.
    assert (Hnew : globals G !! st_val c = None).
    { unfold declare_global in Ho. change (d_val (d_tok c)) with (st_val c) in Ho. by destruct (globals G !! st_val c). }
    unfold the_global. apply wp_bind, wp_bind, wp_get. rewrite (iv_global _ _ _ _ _ I1). apply wp_ret.
    destruct (iv_names _ _ _ _ _ I1) as (sc & Hsc & _ & Hn). apply wp_bind, (wp_get_scope m1 g sc Hsc).
    specialize (Hn (st_val c)). rewrite Hnew in Hn. destruct (d_names sc !! st_val c); [done|].
    apply wp_bind, wp_ret, wp_bind, (new_global g base_uses base_err _ f (d_tok c) m1 G); [done..|].
    intros m2 E2 K2 I2. apply wp_bind, wp_mod.
    destruct (nonLocals_kept g base_uses base_err m2 (d_nonLocals m2 ++ [f]) _ e (Some s) I2) as (E3 & I3 & S3);
      [by eapply scoped_ext|]. apply wp_ret, HQ.
    + eapply ext_trans; [exact E1|]. by eapply ext_trans.
    + eapply (Hent f m1); [done|by eapply ext_trans|done..|]. by apply (K2 f).
    + unfold declare_global. simpl. change (d_val (d_tok c)) with (st_val c). by rewrite Hnew.
  - rewrite bool_decide_eq_false_2 by done. cbn [map global_name] in Ho, HQ. apply wp_bind, wp_dotted_names.
    { intros d Hd. rewrite <- El in Hd. by eapply child_symbols. }
    intros str. apply wp_bind, (wp_new_function g base_uses base_err _ s _ m e G); [done|done|].
    intros f m1 E1 Hlen Hsf Hfg Hs1 Hf1 Htok I1. apply wp_bind, wp_mod.
    destruct (nonLocals_kept g base_uses base_err m1 (d_nonLocals m1 ++ [f]) _ e (Some s) I1) as (E3 & I3 & S3); [done|].
    apply wp_ret, HQ; [by eapply ext_trans|by eapply (Hent f m1)|done].
Qed.

Lemma step_gfuncdecl st s : conforms st -> st_type st = Rule R_gfuncdecl_ -> (height st <= S n)%nat ->
  does (gfuncdecl (S n) st s) s (visit st false).
Proof using IH.
  intros Hc Ht Hh. destruct (gfuncdecl_shape st Hc Ht) as (fn & nm & b & El & Hlf & Hn & Hcn & Hb & Hcb).
  apply (does_ext _ _ _ _ _ (fun e G => (e, (in_order plain (children_of b) e (global_name (children_of nm) G)).2))).
  2: { intros e G. meaning_of st Ht. unfold closed. f_equal. unfold children_of at 3. rewrite El. cbn [map in_order].
    rewrite plain_leaf by done. unfold plain at 2. cbn [snd]. meaning_of nm Hn.
    unfold plain at 2. cbn [snd]. meaning_of b Hb. done. }
  intros m e G Hs Hi Ho. cbn [gfuncdecl]. unfold child_at, last_child. rewrite El. apply wp_bind, wp_assert; [done|].
  apply wp_bind, (wp_deref _ nm), wp_bind, (wp_deref _ b), wp_bind, wp_assert; [done..| |].
  { unfold has_type. by rewrite Hn, Hb. }
  apply wp_bind, (wp_global_function nm s m e G); [done|done|done|done| |].
  { apply (not_over (in_order plain (children_of b)) e); [|exact Ho]. apply mono_in_order. intros c Hin. apply list_elem_of_fmap in Hin as (d & -> & Hd). apply mono_visit. }
  intros f m1 E1 En I1.
  apply (leave g base_uses base_err m s f e e m1 _ (in_order plain (children_of b)) (global_name (children_of nm) G));
    [done|done| |done|by intros m' H].
  apply (w_funcbody n IH); [done|done|]. eapply child_low; [done|]. rewrite El. set_solver.
Qed.

(** *** Loops with variables *)
Lemma wp_mfor_app {A} (body : A -> MM unit) l l' m (Q : unit -> Module -> Prop) :
  wp (mfor l body) (fun _ => wp (mfor l' body) Q) m -> wp (mfor (l ++ l') body) Q m.
Proof using Type.
  revert m. induction l as [|x l IHl]; intros m H; [done|]. simpl in *. unfold wp, rbind in *.
  destruct (body x m) as [[[] m']|]; [by apply IHl|done].
Qed.

(** A step for a child of a [for]. *)
Definition for_child (s b : nat) (sub : SynTree) : MM unit :=
  match st_type sub with
  | Rule R_exp => exp n sub s
  | Rule R_explist => explist n sub s
  | Rule R_block => c <~ block_chunk sub; chunk n c b
  | Tk Tok_Name => declare b (d_tok sub)
  | Tk Tok_end | Tk Tok_Eq | Tk Tok_in | Tk Tok_do | Tk Tok_for => rret tt
  | _ => rfail
  end.

Lemma for_parts_app l l' e inner G :
  for_parts (l ++ l') e inner G = let '(i, G) := for_parts l e inner G in for_parts l' e i G.
Proof using Type.
  revert inner G. induction l as [|c l IHl]; intros inner G; [done|]. simpl.
  destruct (is_name c.1); [apply IHl|]. case_bool_decide; apply IHl.
Qed.

Lemma mono_for l e inner G : overwritten (for_parts (kids l) e inner G).2 = false -> overwritten G = false.
Proof using Type.
  intros H. destruct (overwritten G) eqn:E; [|done]. rewrite mono_for_parts in H; [done| |done].
  intros c Hin. apply list_elem_of_fmap in Hin as (d & -> & _). apply mono_visit.
Qed.

(** The children before the block. *)
Lemma wp_for_head m s b e l : Forall (fun c => in_head (st_type c) = true /\ conforms c) l ->
  (forall c, c ∈ l -> (height c <= n)%nat) ->
  forall loc m1 G (Q : unit -> Module -> Prop), opened g m s b e loc m1 -> inv m1 G ->
  overwritten (for_parts (kids l) e (loc ++ e) G).2 = false ->
  (forall loc' m2, opened g m s b e loc' m2 -> loc' ++ e = (for_parts (kids l) e (loc ++ e) G).1 ->
     inv m2 (for_parts (kids l) e (loc ++ e) G).2 -> Q tt m2) ->
  wp (mfor l (for_child s b)) Q m1.
Proof using IH.
  induction 1 as [|c l [Hx Hc] _ IHl]; intros Hlow loc m1 G Q Hop Hi Ho HQ; [by apply wp_ret, (HQ loc)|].
  specialize (IHl ltac:(intros d Hd; apply Hlow; by right)). assert (Hcl : (height c <= n)%nat) by (apply Hlow; by left).
  simpl in Ho, HQ. simpl mfor. unfold is_name in *. simpl in Ho, HQ. change (d_type (d_tok c)) with (st_type c) in *.
  assert (Houter : forall x, does x s (visit c false) -> opens (st_type c) = false ->
    overwritten (for_parts (kids l) e (loc ++ e) (visit c false e G).2).2 = false ->
    (forall loc' m2, opened g m s b e loc' m2 -> loc' ++ e = (for_parts (kids l) e (loc ++ e) (visit c false e G).2).1 ->
      inv m2 (for_parts (kids l) e (loc ++ e) (visit c false e G).2).2 -> Q tt m2) -> wp (_ <~ x; mfor l (for_child s b)) Q m1).
  { intros x Hd Hcl' Ho' HQ'. apply wp_bind. pose proof (visit_closed c false Hcl' e G) as He.
    destruct (visit c false e G) as [e' G'] eqn:Ev. simpl in *. subst e'. destruct Hop as (E & Hop). pose proof Hop as (_ & _ & _ & Hs & _).
    eapply wp_mono; [apply (Hd m1 e G); [done|done|rewrite Ev; by eapply mono_for]|]. rewrite Ev. intros [] m2 Hr.
    apply (IHl loc m2 G'); [|apply Hr|done|exact HQ']. by eapply opened_outer; [split; [exact E|exact Hop]|]. }
  unfold for_child at 1. destruct (st_type c) as [[]|[]] eqn:E; try done; simpl in Ho, HQ.
  - apply (Houter (rret tt)); [|done|done|done]. eapply does_ext; [apply does_ret|]. intros. symmetry. apply visit_leaf. by eapply conforms_is_leaf.
  - apply (Houter (rret tt)); [|done|done|done]. eapply does_ext; [apply does_ret|]. intros. symmetry. apply visit_leaf. by eapply conforms_is_leaf.
  - apply wp_bind. eapply wp_mono; [by apply (opened_declare g base_uses base_err m s b e loc m1 G)|]. intros [] m2 [Hop2 I2].
    by apply (IHl (bind (d_tok c) loc) m2 G).
  - apply Houter; [by apply (w_exp n IH); rewrite ?E|done..].
  - apply Houter; [by apply (w_explist n IH)|done..].
Qed.

Lemma for_parts_leaf c l e inner G : leaf c -> st_type c <> Tk Tok_Name ->
  for_parts ((d_tok c, visit c) :: l) e inner G = for_parts l e inner G.
Proof using Type.
  intros Hl Hn. simpl. unfold is_name. simpl. change (d_type (d_tok c)) with (st_type c). rewrite bool_decide_eq_false_2 by done.
  destruct Hl as [Hl [k Hk]]. rewrite bool_decide_eq_false_2 by congruence. by rewrite visit_leaf by (split; [done|by exists k]).
Qed.

Lemma for_parts_block c l e inner G : st_type c = Rule R_block ->
  for_parts ((d_tok c, visit c) :: l) e inner G = for_parts l e inner (in_order plain (children_of c) inner G).2.
Proof using Type.
  intros Ht. simpl. unfold is_name. simpl. change (d_type (d_tok c)) with (st_type c). rewrite Ht. simpl. meaning_of c Ht. done.
Qed.

Lemma step_forstat st s : conforms st -> st_type st = Rule R_forstat_ -> (height st <= S n)%nat ->
  does (forstat (S n) st s) s (visit st false).
Proof using IH.
  intros Hc Ht Hh. destruct (forstat_shape st Hc Ht) as (fn & l & d & bl & en & El & Hlen & Hf & Hlf & Hl & Hd & Hld & Hb & Hcb & Hen & Hle).
  assert (Hlow : forall c, c ∈ d_children st -> (height c <= n)%nat) by (intros c; by apply child_low).
  apply (does_ext _ _ _ _ _ (fun e G => (e, let '(i, G) := for_parts (kids l) e e G in (in_order plain (children_of bl) i G).2))).
  2: { intros e G. meaning_of st Ht. f_equal. unfold children_of at 2. rewrite El. cbn [map]. rewrite for_parts_leaf, map_app, for_parts_app by (done || congruence).
    destruct (for_parts (kids l) e e G) as [i1 G1]. cbn [map]. by rewrite for_parts_leaf, for_parts_block, for_parts_leaf by (done || congruence). }
  intros m e G Hs Hi Ho. cbn [forstat]. unfold first. rewrite El. apply wp_bind, wp_assert.
  { apply bool_decide_eq_true_2. simpl. rewrite length_app. simpl. lia. }
  apply wp_bind, (wp_deref _ fn), wp_bind, wp_assert; [done|by apply bool_decide_eq_true_2|].
  apply wp_bind, (wp_new_block g base_uses base_err _ s m e G); [done|done|]. intros b m1 Hop I1.
  change (wp (mfor (fn :: l ++ [d; bl; en]) (for_child s b)) (fun _ => result s m (e, let '(i, G') := for_parts (kids l) e e G in (in_order plain (children_of bl) i G').2)) m1).
  cbn [mfor]. unfold for_child at 1. rewrite Hf. apply wp_bind, wp_ret. apply wp_mfor_app.
  destruct (for_parts (kids l) e e G) as [i1 G1] eqn:Ev.
  assert (Hbl : does (c <~ block_chunk bl; chunk n c b) b (in_order plain (children_of bl))).
  { apply block_leads; [done|done|]. apply Hlow. rewrite El. set_solver. }
  assert (Ho1 : overwritten G1 = false).
  { apply (not_over (in_order plain (children_of bl)) i1); [|exact Ho]. apply mono_in_order. intros c Hin.
    apply list_elem_of_fmap in Hin as (x & -> & Hx). apply mono_visit. }
  apply (wp_for_head m s b e l Hl) with (loc := []) (G := G); [|exact Hop|exact I1|simpl; by rewrite Ev|].
  { intros c Hin. apply Hlow. rewrite El. set_solver. }
  simpl app. rewrite Ev. intros loc' m2 Hop2 Ei I2. simpl in Ei, I2. subst i1.
  apply (leave g base_uses base_err m s b e (loc' ++ e) m2 _ (in_order plain (children_of bl)) G1);
    [by apply opened_entered|done| |done|by intros m' H].
  cbn [mfor]. unfold for_child. rewrite Hd, Hb, Hen. intros m3 e3 G3 Hs3 Hi3 Ho3. apply wp_bind, wp_ret, wp_bind.
  eapply wp_mono; [by apply (does_leads g base_uses base_err _ _ _ Hbl)|]. intros [] m4 H4. by apply wp_bind, wp_ret, wp_ret.
Qed.
End Step.

Lemma walks_all n : walks n.
Proof.
  induction n as [|n IHn].
  { split; intros; match goal with H : (height ?st <= 0)%nat |- _ => pose proof (leaf_height st); lia end. }
  split; intros; [apply step_chunk|apply step_stat|apply step_localdecl|apply step_lvardecl|apply step_explist|apply step_exp|
    apply step_lfuncdecl|apply step_funcbody|apply step_forstat|apply step_gfuncdecl|apply step_prefixexp|apply step_assignment|
    apply step_lambdecl]; done.
Qed.
End Nodes.

(** ** Whole texts *)

(** The global names that are known before. *)
Definition known (gl : gmap bytes NodeToken) : Found := mkFound gl [] [] false.

(** What a tree of the parser means. *)
Definition found_in (st : SynTree) (gl : gmap bytes NodeToken) : Found := (visit st false [] (known gl)).2.

Section Start.
Context (g : nat) (base_uses : list (NodeToken * bool * NodeToken)) (base_err : Errors).
Abbreviation inv := (LuaModuleSpec.inv g base_uses base_err).

Lemma top_chunk_set m t G : inv m G -> inv (set_topChunk t m) G.
Proof.
  intros Hi. eapply (inv_same g base_uses base_err None); [exact Hi| |done|done|]; [|intros sc H; by exists sc].
  split; [done..|]. intros a x H. exists x. split; [exact H|]. split; [done|apply scope_kept_refl].
Qed.

Lemma wp_analyze_chunk fuel c m G : conforms c -> st_type c = Rule R_chunk -> (height c <= fuel)%nat -> inv m G -> d_topChunk m = None ->
  overwritten (visit c false [] G).2 = false ->
  wp (analyze (S fuel) c) (fun _ m' => inv m' (visit c false [] G).2) m.
Proof.
  intros Hc Ht Hh Hi Htop Ho. cbn [analyze]. rewrite Ht. apply wp_bind, wp_alloc.
  set (top := length (things m)). set (m1 := with_new (new_thing (d_tok c) (T_Block (new_scope None))) m).
  assert (I1 : inv m1 G) by by apply inv_with_new.
  apply wp_bind, wp_get. change (d_topChunk m1) with (d_topChunk m). rewrite Htop. apply wp_bind, wp_mod, wp_bind, wp_ret.
  eapply wp_mono; [apply (w_chunk g base_uses base_err fuel (walks_all g base_uses base_err fuel) c top Hc Ht Hh _ [] G)|].
  - assert (Hsc : scope_at m1 top = Some (new_scope None)) by by apply new_scope_at.
    pose proof (global_lt g base_uses base_err m G Hi). apply (sc_in g _ top (new_scope None) [] []); try done; [lia|constructor].
  - by apply top_chunk_set.
  - done.
  - by intros [] m' (_ & _ & I').
Qed.
End Start.

(** The names of a text are resolved as the scopes of Lua say, apart from the known exceptions of this
    program: for the tree of a parser, and unless a function takes the place of a global name, the walk
    succeeds with fuel for the height of the tree; it records a use for exactly the names the meaning of the
    tree has uses for, in order, each with the declaration that is meant, which is alive; the
    warnings are those of the meaning; and the global names are. *)
Lemma names_resolved st fuel m g sc gl base e0 :
  whole st -> (height st < fuel)%nat ->
  d_global m = Some g -> scope_at m g = Some sc -> d_outer sc = None ->
  (forall n, names_agree m (d_names sc !! n) (gl !! n)) ->
  uses_of m = map alive_use base -> d_err m = Some e0 -> d_topChunk m = None ->
  overwritten (found_in st gl) = false ->
  exists m' sc', analyze fuel st m = Some (tt, m') /\
    uses_of m' = map alive_use (base ++ uses (found_in st gl)) /\
    d_err m' = Some (foldl (fun e w => warned w e) e0 (warnings (found_in st gl))) /\
    scope_at m' g = Some sc' /\ forall n, names_agree m' (d_names sc' !! n) (globals (found_in st gl) !! n).
Proof.
  intros (c & -> & Ht & Hc) Hh Hg Hsc Ho Hn Hu He Htop Hov.
  assert (Hv : found_in (Node root_token [c]) gl = (visit c false [] (known gl)).2).
  { unfold found_in. simpl. unfold combine, closed, plain. simpl. by destruct (visit c false [] (known gl)). }
  rewrite Hv in *. destruct fuel as [|[|fuel]]; [lia|simpl in Hh; lia|].
  assert (Hi : inv g base e0 m (known gl)).
  { split; [done|by exists sc|by rewrite app_nil_r|done]. }
  assert (Hlow : (height c <= fuel)%nat) by (simpl in Hh; lia).
  pose proof (wp_analyze_chunk g base e0 fuel c m (known gl) Hc Ht Hlow Hi Htop Hov) as Hw.
  change (analyze (S (S fuel)) (Node root_token [c])) with (c <~ first (Node root_token [c]); analyze (S fuel) c).
  unfold wp in Hw. destruct (analyze (S fuel) c m) as [[[] m']|] eqn:E; [|done]. destruct Hw as [Ig (sc' & Hsc' & _ & Hn') Iu Ie].
  exists m', sc'. split; [|done]. unfold rbind, first, mderef. simpl hd_error. cbv beta iota. exact E.
Qed.
