(* ===== verification/LuaExample.v ===== *)
(** * The names of some texts

    Trees of small texts: the walk over them, and where it differs from Lua. *)

From S2P Require Import Prelude LexCore LuaToken SyntaxTree LuaTree LuaGrammar ErrorList LuaModule LuaScope LuaModuleSpec LuaNames.
From Stdlib Require Import Strings.Byte.
Local Open Scope Z_scope.

(** ** Trees *)

(** Tokens and nodes, with a line. *)
Definition tk_ (t : TokenType) (n : Z) : SynTree := Node (mkToken (Tk t) n 0 0 [] []) [].
Definition name_ (s : string) (n : Z) : SynTree := Node (mkToken (Tk Tok_Name) n 0 0 (qb s) []) [].
Definition rule_ (r : ParserRule) (l : list SynTree) : SynTree := Node (mkToken (Rule r) 0 0 0 [] []) l.
Definition var_ (s : string) (n : Z) : SynTree := rule_ R_exp [rule_ R_prefixexp [name_ s n]].
Definition stat_ (x : SynTree) : SynTree := rule_ R_stat [x].
Definition args_ (l : list SynTree) : SynTree :=
  rule_ R_args ([tk_ Tok_Lpar 0] ++ match l with [] => [] | _ => [rule_ R_explist l] end ++ [tk_ Tok_Rpar 0]).
Definition call_ (s : string) (n : Z) (l : list SynTree) : SynTree :=
  stat_ (rule_ R_assigOrCall_ [rule_ R_prefixexp [name_ s n; rule_ R_call_ [args_ l]]]).
Definition block_ (l : list SynTree) : SynTree := rule_ R_block [rule_ R_chunk l].
Definition body_ (pars : list SynTree) (l : list SynTree) : SynTree :=
  rule_ R_funcbody ([tk_ Tok_Lpar 0] ++ match pars with [] => [] | _ => [rule_ R_parlist [rule_ R_namelist pars]] end ++
    [tk_ Tok_Rpar 0; block_ l; tk_ Tok_end 0]).
Definition function_ (s : string) (n : Z) (pars l : list SynTree) : SynTree :=
  stat_ (rule_ R_gfuncdecl_ [tk_ Tok_function n; rule_ R_funcname [name_ s n]; body_ pars l]).
Definition local_ (s : string) (n : Z) (e : SynTree) : SynTree :=
  stat_ (rule_ R_localdecl_ [tk_ Tok_local n; rule_ R_lvardecl_ [rule_ R_namelist [name_ s n]; tk_ Tok_Eq n; rule_ R_explist [e]]]).
Definition text_ (l : list SynTree) : SynTree := Node root_token [rule_ R_chunk l].

(** A module without global names. *)
Definition empty_module : Module :=
  mkModule [Some (mkThing root_token [] (T_Global (new_scope None)))] [] (Some new_Errors) (Some 0%nat) None [] [].

(** The uses: the lines of the name and of its declaration. *)
Definition lines_of (m : Module) : list (Z * option Z) := map (fun u => (d_lineNr u.1.1, d_lineNr <$> u.2)) (uses_of m).
Definition run_text (st : SynTree) : option (list (Z * option Z) * list bytes) :=
  match analyze (S (height st)) st empty_module with
  | Some (_, m) => Some (lines_of m, match d_err m with Some e => map d_msg (d_entries e) | None => [] end)
  | None => None
  end.

(** [local a = a  function f(x) local a = x  f(a) end  for i = a, i do f(i) end]: a line for each name. *)
Definition sample : SynTree := text_ [
  local_ "a" 1 (var_ "a" 2);
  function_ "f" 3 [name_ "x" 4] [local_ "a" 5 (var_ "x" 6); call_ "f" 7 [var_ "a" 8]];
  stat_ (rule_ R_forstat_ [tk_ Tok_for 0; name_ "i" 9; tk_ Tok_Eq 0; var_ "a" 10; var_ "i" 11; tk_ Tok_do 0;
    block_ [call_ "f" 12 [var_ "i" 13]]; tk_ Tok_end 0])].

Lemma names_resolved_witness :
  map (fun u => (d_lineNr u.1.1, d_lineNr u.2)) (uses (found_in sample ∅)) = [(6, 4); (7, 3); (8, 5); (10, 1); (12, 3); (13, 9)] /\
  exists m' sc', analyze 20 sample empty_module = Some (tt, m') /\
    uses_of m' = map alive_use ([] ++ uses (found_in sample ∅)) /\
    d_err m' = Some (foldl (fun e w => warned w e) new_Errors (warnings (found_in sample ∅))) /\
    scope_at m' 0 = Some sc' /\ forall n, names_agree m' (d_names sc' !! n) (globals (found_in sample ∅) !! n).
Proof.
  split; [vm_compute; reflexivity|].
  apply (names_resolved sample 20 empty_module 0 (new_scope None) ∅ [] new_Errors); try reflexivity.
  - eexists. split; [reflexivity|]. split; [reflexivity|]. apply conforms_b_true. vm_compute. reflexivity.
  - vm_compute. lia.
Defined.

(** ** Where the walk differs from Lua *)

(** [function g() f() f() end  function f() end]: the global name that the first use of [f] declares is deleted when
    the function takes its place, and the second use is left with a pointer to it.  A function that is replaced is
    still kept by the list of the functions, and its uses are those of the first one. *)
Remark replaced_global_dangles :
  run_text (text_ [function_ "f" 1 [] []; function_ "g" 2 [] [call_ "f" 3 []]; function_ "f" 4 [] []]) =
    Some ([(3, Some 1)], []) /\
  run_text (text_ [function_ "g" 2 [] [call_ "f" 1 []; call_ "f" 3 []]; function_ "f" 4 [] []]) = Some ([(3, None)], []).
Proof. split; vm_compute; reflexivity. Qed.

(** The first use of a global name is not one of its uses. *)
Remark first_use_not_kept : run_text (text_ [call_ "f" 1 []; call_ "f" 2 []]) = Some ([(2, Some 1)], []).
Proof. vm_compute. reflexivity. Qed.

(** [local x = y  repeat local x = y until x]: the condition does not see the names of the block. *)
Remark until_outside_of_block : lines_of <$> (snd <$> analyze 20 (text_ [local_ "x" 1 (var_ "y" 2);
  stat_ (rule_ R_repeatstat_ [tk_ Tok_repeat 3; block_ [local_ "x" 4 (var_ "y" 5)]; tk_ Tok_until 6; var_ "x" 7])]) empty_module) =
  Some [(5, Some 2); (7, Some 1)].
Proof. vm_compute. reflexivity. Qed.

(** [function a:b() self() end]: the parameter is taken for a global name. *)
Remark self_not_declared :
  match analyze 20 (text_ [stat_ (rule_ R_gfuncdecl_ [tk_ Tok_function 1; rule_ R_funcname [name_ "a" 1; tk_ Tok_Colon 1; name_ "b" 1];
    body_ [] [call_ "self" 2 []]])]) empty_module with
  | Some (_, m) => d_numOfWrns <$> d_err m
  | None => None
  end = Some 1.
Proof. vm_compute. reflexivity. Qed.
