(* ===== verification/ModuleParse.v ===== *)
(** * A Lua module from its file

    [Module::parse] of [LuaModule.cpp]: the lexer, the parser and the walk over the tree. *)

From S2P Require Import Prelude ErrorList LexCore LexCoreSpec LuaToken LuaLexer LuaLexerSpec SyntaxTree LuaTree LuaGrammar.
From S2P Require Import ParserCore ParserSpec LexScanner LuaParser LuaParserSpec LuaSource LuaModule LuaScope LuaModuleSpec LuaNames LuaExample.
From Stdlib Require Import Strings.Byte.
Local Open Scope Z_scope.
Local Open Scope rd_scope.

(** The global scope with the names that are built in.
    [src/LuaModule.cpp:108-117] parse *)
Definition prepare_global (clearGlobal : bool) : MM unit :=
  o <~ rget d_global;
  match o with
  | None =>
      g <~ alloc (mkThing root_token [] (T_Global (new_scope None)));
      _ <~ rmod (set_global (Some g));
      initBuiltIns g
  | Some g => if clearGlobal then _ <~ clear_global g; initBuiltIns g else rret tt
  end.

(** [QList::clear] *)
Definition clear_nonLocals : MM unit :=
  l <~ rget d_nonLocals; _ <~ rmod (set_nonLocals []); release_all l.

Section Parse.
(** The cached texts, the files that can be read, and the bounds of loops, of the procedures of the parser and of the walk. *)
Variables (cache file : bytes -> option bytes) (limit fuel height : nat).

(** The lexer, and the parser behind it.
    [src/LuaModule.cpp:121-130] parse *)
Definition run_parser (path : bytes) : MM SynTree :=
  fun m =>
    let lex := setPackComments true (setIgnoreComments false new_Lexer) in
    match with_errors_of S_Lexer (setStream_path cache file path) (lex, d_err m) with
    | None => None
    | Some (_, (lex, e)) =>
        match LuaParser.parse limit fuel (new_Parser lex e) with
        | None => None
        | Some (st, p) => Some (st, set_errors (errors p) m)
        end
    end.

(** The pointer to the errors must not be null, whatever the test at the end says.
    [src/LuaModule.cpp:106-146] parse *)
Definition parse (path : bytes) (clearGlobal : bool) : MM bool :=
  _ <~ prepare_global clearGlobal;
  _ <~ clear_nonLocals;
  _ <~ rmod (set_mpath path);
  e <~ rget d_err;
  let before := match e with Some e => getErrCount e | None => 0 end in
  st <~ run_parser path;
  e <~ rget d_err;
  e <~ mderef e;
  let hasError := negb (u32 (getErrCount e - before) =? 0) in
  _ <~ (if hasError then rret tt else analyze height st);
  rret (negb hasError).
End Parse.

(** ** What is known of a module that has been parsed *)
Lemma setStream_err code path (x x' : Lexer) : setStream code path x = Some (tt, x') -> LexCore.d_err x' = LexCore.d_err x.
Proof.
  unfold setStream, rbind, rmod at 1. match goal with |- context [getSymbol path ?y] => destruct (getSymbol_val path y) as [l ->] end.
  unfold rmod. by intros [= <-].
Qed.

Definition found_file (cache file : bytes -> option bytes) (path : bytes) : option bytes :=
  match cache path with Some code => Some code | None => file path end.

Lemma path_stream cache file path code (x x' : Lexer) : found_file cache file path = Some code ->
  setStream code path x = Some (tt, x') -> setStream_path cache file path x = Some (true, x').
Proof.
  unfold found_file, setStream_path. intros H E. destruct (cache path) as [c|]; [injection H as ->|rewrite H]; unfold rbind; by rewrite E.
Qed.

(** The parser of a file that is found. *)
Lemma run_parser_file cache file path code m e0 : found_file cache file path = Some code -> text_ok code -> d_err m = Some e0 -> recording e0 ->
  exists ts, text_tokens code 0 0 ts /\ (comments_bounded ts ->
    exists st e1, run_parser cache file (length code + 2) (20 * length code + 7) path m = Some (st, set_errors (Some e1) m) /\
      grows (Some e0) (Some e1) /\ (e1 = e0 -> tree_of R_chunk ts st)).
Proof.
  intros Hf Hok He Hr. set (lex := set_err (Some []) (setPackComments true (setIgnoreComments false new_Lexer))).
  destruct (stream_ahead (Pk := Lua_parser) token_here lua_here_blind wp_token_here code path lex Hok eq_refl eq_refl eq_refl)
    as (x' & ts & E & Ha & Ht).
  exists ts. split; [done|]. intros Hc.
  assert (Hl : (length ts <= length code)%nat) by (destruct Ht as [Hl _]; unfold remaining, code_line in Hl; simpl in Hl; lia).
  assert (H : exists st p, LuaParser.parse (length code + 2) (20 * length code + 7) (new_Parser x' (Some e0)) = Some (st, p) /\
    grows (Some e0) (errors p) /\ (errors p = Some e0 -> tree_of R_chunk ts st)).
  { apply (lua_parser_builds_trees (S := Lexer) _ _ Hr); [exact Ha|lia|lia|exact Hc]. }
  destruct H as (st & p & Ep & Hg & Hst). destruct (grows_entries e0 _ Hg Hr) as (e1 & l & E1 & _). exists st, e1.
  unfold run_parser, with_errors_of. rewrite He. pose proof (path_stream cache file path code lex x' Hf E) as E2.
  fold lex. rewrite E2. rewrite (setStream_err _ _ _ _ E). cbn [LexCore.d_err set_err lex foldr]. rewrite Ep, E1. rewrite E1 in Hg, Hst. split; [done|].
  split; [done|]. intros ->. by apply Hst.
Qed.

(** Errors are counted, up to 2 ^ 32 of them. *)
Lemma grows_count e e1 : grows (Some e) (Some e1) -> recording e -> 0 <= getErrCount e < 2 ^ 32 ->
  exists n, getErrCount e1 = u32 (getErrCount e + n) /\ 0 <= n /\
    Z.of_nat (length (d_entries e1)) = Z.of_nat (length (d_entries e)) + n /\ (n = 0 -> e1 = e).
Proof.
  intros H. remember (Some e) as oe eqn:E. remember (Some e1) as oe1 eqn:E1. revert e E.
  induction H as [oe|s f l c m e' oe' _ IH]; intros e E Hr Hn.
  - assert (e1 = e) as -> by congruence. exists 0. rewrite !Z.add_0_r, u32_small by done. done.
  - injection E as <-. destruct Hr as [R1 R2].
    assert (Ec : getErrCount (error s f l c m e') = u32 (getErrCount e' + 1)) by (unfold error, getErrCount; by rewrite R2).
    assert (El : Z.of_nat (length (d_entries (error s f l c m e'))) = Z.of_nat (length (d_entries e')) + 1).
    { unfold error. rewrite R1, R2. simpl. rewrite length_app. simpl. lia. }
    destruct (IH E1 _ eq_refl) as (n & Hc & Hn0 & Hl & _).
    + unfold error, recording. by rewrite R2.
    + rewrite Ec. apply u32_range.
    + exists (n + 1). rewrite Hc, Ec, Hl, El. split; [|split; [lia|split; [lia|intros ?; exfalso; lia]]].
      unfold u32. rewrite Zplus_mod_idemp_l. f_equal. lia.
Qed.

Lemma count_error e e1 : grows (Some e) (Some e1) -> recording e -> 0 <= getErrCount e < 2 ^ 32 ->
  Z.of_nat (length (d_entries e1)) < 2 ^ 32 -> (u32 (getErrCount e1 - getErrCount e) =? 0) = bool_decide (e1 = e).
Proof.
  intros Hg Hr Hc Hl. destruct (grows_count e e1 Hg Hr Hc) as (n & E & Hn & El & H0).
  assert (Hu : u32 (getErrCount e1 - getErrCount e) = n).
  { rewrite E. unfold u32. rewrite Zminus_mod_idemp_l. rewrite Z.mod_small; lia. }
  rewrite Hu. case_bool_decide as Ee; [|apply Z.eqb_neq; intros ->; by apply Ee, H0].
  apply Z.eqb_eq. subst e1. lia.
Qed.

Lemma tree_whole ts st : tree_of R_chunk ts st -> whole st.
Proof. intros (c & -> & Ht & Hc & _). by exists c. Qed.


(** ** A file *)

Definition sample_file : bytes := qb "local a = 1
  function f(x)
    local y = x + a --[[ inner ]]
    return f(y), print
  end
  f(a)".
Definition sample_disk (path : bytes) : option bytes := if bool_decide (path = qb "a.lua") then Some sample_file else None.
Definition fresh_module : Module := set_errors (Some recorder) empty_module.


(** The lines of the uses and of their declarations, and the messages; [print] is not among the uses, since its
    first use declares it. *)
Example sample_names : match parse (fun _ => None) sample_disk 200 2000 100 (qb "a.lua") false fresh_module with
  | Some (ok, m) => Some (ok, lines_of m, match d_err m with Some e => map d_msg (d_entries e) | None => [] end)
  | None => None end =
  Some (true, [(3, Some 2); (3, Some 1); (4, Some 2); (4, Some 3); (6, Some 2); (6, Some 1)],
    [qb "implicit global declaration 'print'"]).
Proof. vm_compute. reflexivity. Qed.

(** With names that are built in there is nothing to warn of; a file that is not there is an error. *)
Example sample_builtins :
  (fun r => (fst r, d_entries <$> d_err (snd r))) <$> parse (fun _ => None) sample_disk 200 2000 100 (qb "a.lua") true fresh_module =
    Some (true, Some []) /\
  (fun r => (fst r, map d_msg <$> (d_entries <$> d_err (snd r)))) <$> parse (fun _ => None) sample_disk 200 2000 100 (qb "b.lua") true fresh_module =
    Some (false, Some [qb "cannot open file from path b.lua"]).
Proof. split; vm_compute; reflexivity. Qed.
