(* ===== verification/LuaProject.v ===== *)
(** * Projects of Lua modules

    [Project] of [LuaProject.h/.cpp]: the modules of the files of a project, which have the global names in common,
    and the search for the thing at a position of a text.  The things of all modules are in one store.
    Projects are kept in settings files of Qt; the signals are left out. *)

From S2P Require Import Prelude Double Bytecode BytecodeIO ErrorList LexCore LuaToken SyntaxTree LuaTree LuaModule ModuleParse.
From Stdlib Require Import Strings.Byte.
Local Open Scope Z_scope.
Local Open Scope rd_scope.

(** ** State *)

(** What a [Module] of a project has; its errors and its cache are those of the project.
    [src/LuaModule.h:155-160] Module *)
Record File := mkFile { f_global : option nat; f_topChunk : option nat; f_nonLocals : list nat; f_path : bytes }.
Definition new_File : File := mkFile None None [] [].

(** [d_files] has its entries in the order in which the hash delivers them, which can be any.
    [src/LuaProject.h:83-94] Project *)
Record Project := mkProject {
  pr_things : list (option Thing);
  pr_err : Errors;
  pr_cache : gmap bytes bytes;
  d_files : list (bytes * File);
  d_fileOrder : list bytes;
  d_filePath : bytes;
  d_suffixes : list bytes;
  d_workingDir : bytes;
  d_main : bytes * bytes;
  pr_global : nat;
  d_addBuiltIns : list bytes;
  d_dirty : bool;
  d_useRequire : bool
}.
Abbreviation PM := (SM Project).

(** [src/LuaProject.cpp:31-40] Project *)
Definition new_Project : Project :=
  mkProject [Some (mkThing root_token [] (T_Global (new_scope None)))] (setReportToConsole false (setShowWarnings true (setRecord true new_Errors)))
    ∅ [] [] [] [qb ".lua"] [] ([], []) 0 [] false false.

Definition set_heap (l : list (option Thing)) (e : Errors) (p : Project) : Project :=
  mkProject l e (pr_cache p) (d_files p) (d_fileOrder p) (d_filePath p) (d_suffixes p) (d_workingDir p) (d_main p)
    (pr_global p) (d_addBuiltIns p) (d_dirty p) (d_useRequire p).
Definition set_files (l : list (bytes * File)) (p : Project) : Project :=
  mkProject (pr_things p) (pr_err p) (pr_cache p) l (d_fileOrder p) (d_filePath p) (d_suffixes p) (d_workingDir p) (d_main p)
    (pr_global p) (d_addBuiltIns p) (d_dirty p) (d_useRequire p).
Definition set_order (l : list bytes) (p : Project) : Project :=
  mkProject (pr_things p) (pr_err p) (pr_cache p) (d_files p) l (d_filePath p) (d_suffixes p) (d_workingDir p) (d_main p)
    (pr_global p) (d_addBuiltIns p) (d_dirty p) (d_useRequire p).
Definition set_filePath (s : bytes) (p : Project) : Project :=
  mkProject (pr_things p) (pr_err p) (pr_cache p) (d_files p) (d_fileOrder p) s (d_suffixes p) (d_workingDir p) (d_main p)
    (pr_global p) (d_addBuiltIns p) (d_dirty p) (d_useRequire p).
Definition set_options (suffixes : list bytes) (dir : bytes) (mp : bytes * bytes) (p : Project) : Project :=
  mkProject (pr_things p) (pr_err p) (pr_cache p) (d_files p) (d_fileOrder p) (d_filePath p) suffixes dir mp
    (pr_global p) (d_addBuiltIns p) (d_dirty p) (d_useRequire p).
Definition set_dirty (b r : bool) (p : Project) : Project :=
  mkProject (pr_things p) (pr_err p) (pr_cache p) (d_files p) (d_fileOrder p) (d_filePath p) (d_suffixes p) (d_workingDir p) (d_main p)
    (pr_global p) (d_addBuiltIns p) b r.
(** [src/LuaProject.h:69-69] addBuiltIn *)
Definition addBuiltIn (name : bytes) (p : Project) : Project :=
  mkProject (pr_things p) (pr_err p) (pr_cache p) (d_files p) (d_fileOrder p) (d_filePath p) (d_suffixes p) (d_workingDir p) (d_main p)
    (pr_global p) (d_addBuiltIns p ++ [name]) (d_dirty p) (d_useRequire p).

(** ** The modules *)

Definition file_refs (f : File) : list nat := option_list (f_global f) ++ option_list (f_topChunk f) ++ f_nonLocals f.
Definition of_path (path : bytes) (l : list (bytes * File)) : option File :=
  snd <$> (snd <$> list_find (fun e => e.1 = path) l).
Definition without (path : bytes) (l : list (bytes * File)) : list (bytes * File) := filter (fun e => e.1 <> path) l.

(** The references from outside of a module. *)
Definition other_refs (path : bytes) (p : Project) : list nat := pr_global p :: flat_map (fun e => file_refs e.2) (without path (d_files p)).

(** A method of a module. *)
Definition in_module {A} (path : bytes) (f : MM A) : PM A :=
  fun p =>
    match of_path path (d_files p) with
    | None => None
    | Some x =>
        match f (mkModule (pr_things p) (other_refs path p) (Some (pr_err p)) (f_global x) (f_topChunk x) (f_nonLocals x) (f_path x)) with
        | None => None
        | Some (a, m) =>
            let x := mkFile (d_global m) (d_topChunk m) (d_nonLocals m) (LuaModule.d_path m) in
            Some (a, set_files (map (fun e => if bool_decide (e.1 = path) then (path, x) else e) (d_files p))
                       (set_heap (things m) (default (pr_err p) (d_err m)) p))
        end
    end.

(** What is done to things outside of the modules. *)
Definition in_store {A} (f : MM A) : PM A :=
  fun p =>
    match f (mkModule (pr_things p) (pr_global p :: flat_map (fun e => file_refs e.2) (d_files p)) (Some (pr_err p)) None None [] []) with
    | None => None
    | Some (a, m) => Some (a, set_heap (things m) (default (pr_err p) (d_err m)) p)
    end.

(** A module that is deleted; its members are, from the last to the first. *)
Definition release_file (f : File) : PM unit := in_store (release_all (f_nonLocals f ++ option_list (f_topChunk f) ++ option_list (f_global f))).

Fixpoint delete_files (l : list (bytes * File)) : PM unit :=
  match l with
  | [] => rret tt
  | (_, f) :: l => _ <~ rmod (set_files l); _ <~ release_file f; delete_files l
  end.

(** [src/LuaProject.cpp:42-51] clear *)
Definition clear : PM unit :=
  _ <~ rmod (fun p => set_filePath [] (set_heap (pr_things p) (clear_errors (pr_err p)) p));
  l <~ rget d_files;
  _ <~ delete_files l;
  rmod (set_order []).

(** [src/LuaProject.cpp:53-60] createNew *)
Definition createNew : PM unit :=
  _ <~ clear; rmod (fun p => set_dirty false (d_useRequire p) (set_filePath [] p)).

(** [src/LuaProject.cpp:250-257] touch *)
Definition touch : PM unit := rmod (fun p => set_dirty true (d_useRequire p) p).

(** [QHash::insert] of a new module: one that the path has already is not deleted, but nobody knows it any more. *)
Definition insert_module (path : bytes) : PM unit :=
  rmod (fun p => set_files (if bool_decide (of_path path (d_files p) = None) then d_files p ++ [(path, new_File)]
                            else map (fun e => if bool_decide (e.1 = path) then (path, new_File) else e) (d_files p)) p).
Definition append_order (path : bytes) : PM unit := rmod (fun p => set_order (d_fileOrder p ++ [path]) p).
Definition insert_file (path : bytes) : PM unit := _ <~ insert_module path; append_order path.

(** [src/LuaProject.cpp:81-99] initializeFromFiles *)
Definition initializeFromFiles (files : list bytes) (run : bytes) (useRequire : bool) : PM bool :=
  _ <~ clear;
  _ <~ rmod (fun p => set_dirty false useRequire (set_options (d_suffixes p) (d_workingDir p) ([], run) p));
  _ <~ mfor files insert_file;
  rret true.

(** [src/LuaProject.cpp:101-105] setSuffixes *)
Definition setSuffixes (s : list bytes) : PM unit := _ <~ rmod (fun p => set_options s (d_workingDir p) (d_main p) p); touch.
(** [src/LuaProject.cpp:107-111] setMain *)
Definition setMain (mp : bytes * bytes) : PM unit := _ <~ rmod (fun p => set_options (d_suffixes p) (d_workingDir p) mp p); touch.
(** [src/LuaProject.cpp:184-188] setWorkingDir *)
Definition setWorkingDir (wd : bytes) : PM unit := _ <~ rmod (fun p => set_options (d_suffixes p) wd (d_main p) p); touch.

(** [src/LuaProject.cpp:113-121] formatMain *)
Definition formatMain (p : Project) : bytes :=
  let '(m, f) := d_main p in
  if negb (bool_decide (m = [])) && negb (bool_decide (f = [])) then m ++ qb "." ++ f
  else if negb (bool_decide (f = [])) then f else [].

(** [src/LuaProject.cpp:123-134] addFile *)
Definition addFile (path : bytes) : PM bool :=
  p <~ rget id;
  match of_path path (d_files p) with
  | Some _ => rret false
  | None => _ <~ insert_file path; _ <~ touch; rret true
  end.

(** [src/LuaProject.cpp:136-146] removeFile *)
Definition removeFile (path : bytes) : PM bool :=
  p <~ rget id;
  match of_path path (d_files p) with
  | None => rret false
  | Some f =>
      _ <~ rmod (fun p => set_files (without path (d_files p)) p);
      _ <~ release_file f;
      _ <~ rmod (fun p => set_order (filter (fun q => q <> path) (d_fileOrder p)) p);
      _ <~ touch;
      rret true
  end.

(** [src/LuaModule.h:134-134] setGlobal *)
Definition module_global (g : nat) : MM unit :=
  old <~ rget d_global; _ <~ rmod (set_global (Some g)); release_all (option_list old).

Section Recompile.
Context `{FileSystem} (limit fuel height : nat).

(** The modules are parsed in the order of the hash.
    [src/LuaProject.cpp:259-274] recompile *)
Definition recompile : PM bool :=
  _ <~ rmod (fun p => set_heap (pr_things p) (clear_errors (pr_err p)) p);
  p <~ rget id;
  let g := pr_global p in
  _ <~ in_store (clear_global g);
  _ <~ in_store (initBuiltIns g);
  _ <~ mfor (d_addBuiltIns p) (fun name => in_store (addBuiltInSym g name));
  _ <~ mfor (map fst (d_files p)) (fun path =>
    _ <~ in_module path (module_global g);
    _ <~ in_module path (parse (fun q => getFile q (pr_cache p)) file_content limit fuel height path false);
    rret tt);
  rret true.
End Recompile.

(** ** Directories and settings files *)

(** The entries of a [QSettings] file: single ones, and those of arrays, with the number and the name. *)
Inductive Key := K_entry (name : bytes) | K_size (array : bytes) | K_element (array : bytes) (i : nat) (name : bytes).
#[export] Instance Key_eq_dec : EqDecision Key.
Proof. solve_decision. Defined.
Inductive Setting := V_list (l : list bytes) | V_bytes (s : bytes) | V_int (n : Z).

(** What the code uses of Qt and of the file system: [QSettings], the conversions of what it delivers, [QFileInfo] and [QDir]. *)
Class ProjectDisk := {
  Settings : Type;
  isWritable : bytes -> bool;
  setValue : Key -> Setting -> Settings -> Settings;
  value : Key -> Settings -> option Setting;
  toStringList : option Setting -> list bytes;
  toByteArray : option Setting -> bytes;
  toInt : option Setting -> Z;
  dir_of : bytes -> bytes;
  relativeFilePath : bytes -> bytes -> bytes;
  absoluteFilePath : bytes -> bytes -> bytes;
  file_exists : bytes -> bool;
  subdirs : bytes -> list bytes;
  files_in : bytes -> list bytes -> list bytes;
  applicationDirPath : bytes
}.

Section Disk.
Context `{Disk : ProjectDisk}.

(** [fuel] bounds the depth of directories.
    [src/LuaProject.cpp:190-212] findFiles *)
Fixpoint findFiles (fuel : nat) (suffixes : list bytes) (recursive : bool) (dir : bytes) : option (list bytes) :=
  match fuel with
  | O => None
  | S fuel =>
      res ← (if recursive then mapM (fun f => findFiles fuel suffixes recursive (absoluteFilePath dir f)) (subdirs dir) else Some []);
      Some (concat res ++ map (absoluteFilePath dir) (files_in dir (map (fun s => qb "*" ++ s) suffixes)))
  end.

(** [src/LuaProject.cpp:62-79] initializeFromDir *)
Definition initializeFromDir (fuel : nat) (dir : bytes) (recursive : bool) : PM bool :=
  _ <~ clear;
  _ <~ rmod (fun p => set_dirty false (d_useRequire p) p);
  p <~ rget id;
  files <~ mderef (findFiles fuel (d_suffixes p) recursive dir);
  _ <~ mfor files insert_file;
  rret true.

(** [src/LuaProject.cpp:171-182] getWorkingDir *)
Definition getWorkingDir (resolved : bool) (p : Project) : bytes :=
  if bool_decide (d_workingDir p = []) then dir_of (d_filePath p)
  else if negb resolved then d_workingDir p
  else qreplace (qb "%APPDIR%") applicationDirPath (qreplace (qb "%PRODIR%") (dir_of (d_filePath p)) (d_workingDir p)).

(** The state of a project and the settings files; a file that is not there has the settings of an empty one. *)
Definition World : Type := Project * (bytes -> Settings).
Abbreviation WM := (SM World).
Definition pro {A} (m : PM A) : WM A :=
  fun w => match m w.1 with Some (x, p) => Some (x, (p, w.2)) | None => None end.

(** An entry for each module.
    [src/LuaProject.cpp:294-302] save *)
Definition write_module (dir : bytes) (s : Settings) (m : nat * bytes) : Settings :=
  let '(i, absPath) := m in
  let relPath := relativeFilePath dir absPath in
  let s := setValue (K_element (qb "Modules") i (qb "AbsPath")) (V_bytes absPath) s in
  setValue (K_element (qb "Modules") i (qb "RelPath")) (V_bytes relPath) s.

(** [src/LuaProject.cpp:276-307] save *)
Definition save : WM bool :=
  w <~ rget id;
  let '(p, files) := w in
  if bool_decide (d_filePath p = []) then rret false
  else
    let dir := dir_of (d_filePath p) in
    if negb (isWritable (d_filePath p)) then rret false
    else
      let out := files (d_filePath p) in
      let out := setValue (K_entry (qb "Suffixes")) (V_list (d_suffixes p)) out in
      let out := setValue (K_entry (qb "MainModule")) (V_bytes (d_main p).1) out in
      let out := setValue (K_entry (qb "MainProc")) (V_bytes (d_main p).2) out in
      let out := setValue (K_entry (qb "WorkingDir")) (V_bytes (d_workingDir p)) out in
      let out := setValue (K_size (qb "Modules")) (V_int (Z.of_nat (length (d_fileOrder p)))) out in
      let out := foldl (write_module dir) out (imap pair (d_fileOrder p)) in
      _ <~ rmod (fun w => (w.1, fun q => if bool_decide (q = d_filePath p) then out else w.2 q));
      _ <~ pro (rmod (fun p => set_dirty false (d_useRequire p) p));
      rret true.

(** [src/LuaProject.cpp:360-366] saveTo *)
Definition saveTo (filePath : bytes) : WM bool := _ <~ pro (rmod (set_filePath filePath)); save.

(** A module that is not found is only reported, but it is in the order.
    [src/LuaProject.cpp:326-350] loadFrom *)
Definition load_module (dir : bytes) (s : Settings) (i : nat) : PM unit :=
  let absPath := toByteArray (value (K_element (qb "Modules") i (qb "AbsPath")) s) in
  let relPath := toByteArray (value (K_element (qb "Modules") i (qb "RelPath")) s) in
  if file_exists absPath then insert_file absPath
  else
    let absPath := absoluteFilePath dir relPath in
    _ <~ (if file_exists absPath then insert_module absPath else rret tt);
    append_order absPath.

(** [src/LuaProject.cpp:309-358] loadFrom *)
Definition loadFrom (filePath : bytes) : WM bool :=
  _ <~ pro clear;
  _ <~ pro (rmod (set_filePath filePath));
  w <~ rget id;
  let s := w.2 filePath in
  _ <~ pro (rmod (set_options (toStringList (value (K_entry (qb "Suffixes")) s)) (toByteArray (value (K_entry (qb "WorkingDir")) s))
    (toByteArray (value (K_entry (qb "MainModule")) s), toByteArray (value (K_entry (qb "MainProc")) s))));
  let count := toInt (value (K_size (qb "Modules")) s) in
  _ <~ pro (mfor (seq 0 (Z.to_nat count)) (load_module (dir_of filePath) s));
  _ <~ pro (rmod (fun p => set_dirty false (d_useRequire p) p));
  rret true.
End Disk.

(** ** The thing at a position *)

(** [src/LuaProject.cpp:148-152] isHit *)
Definition isHit (t : Thing) (line col : Z) : bool :=
  let t := t_tok t in
  (d_lineNr t =? line) && (d_colNr t <=? col) && (col <=? d_colNr t + d_len t).

(** The first of some things where something is found. *)
Fixpoint first_of (f : nat -> option (option nat)) (l : list nat) : option (option nat) :=
  match l with
  | [] => Some None
  | a :: l => match f a with Some None => first_of f l | r => r end
  end.

(** [Some None] is a null pointer, and [None] the use of a thing that has been deleted; [fuel] bounds the depth of the scopes.
    [src/LuaProject.cpp:214-248] findSymbolBySourcePosImp *)
Fixpoint find_pos (fuel : nat) (th : list (option Thing)) (line col : Z) (node : nat) : option (option nat) :=
  match fuel with
  | O => None
  | S fuel =>
      t ← mjoin (th !! node);
      if line <? d_lineNr (t_tok t) then Some None
      else if isHit t line col then Some (Some node)
      else match scope_data (t_data t) with
           | None => Some None
           | Some s => first_of (find_pos fuel th line col) (d_locals s ++ d_stats s ++ d_refs s)
           end
  end.

(** [src/LuaProject.cpp:154-169] findSymbolBySourcePos *)
Definition findSymbolBySourcePos (file : bytes) (line col : Z) (p : Project) : option (option nat) :=
  match of_path file (d_files p) with
  | None => Some None
  | Some f => first_of (find_pos (S (length (pr_things p))) (pr_things p) line col) (option_list (f_topChunk f) ++ f_nonLocals f)
  end.

