(* ===== verification/LuaProjectSpec.v ===== *)
(** * What projects keep

    The search for the thing at a position is exact, and a project has the modules of the files that are
    meant, whatever is done with it. *)

From S2P Require Import Prelude Double Bytecode BytecodeIO ErrorList LexCore LuaToken SyntaxTree LuaTree LuaModule ModuleParse LuaProject.
From Stdlib Require Import Strings.Byte.
Local Open Scope Z_scope.
Local Open Scope rd_scope.

(** ** The search is exact *)

(** The things within a scope are alive and younger. *)
Definition children (s : ScopeData) : list nat := d_locals s ++ d_stats s ++ d_refs s.
Definition younger (th : list (option Thing)) : Prop := forall a t s c, mjoin (th !! a) = Some t -> scope_data (t_data t) = Some s ->
  c ∈ children s -> (a < c)%nat /\ is_Some (mjoin (th !! c)).

(** The thing [b] is the one at the position, or within a scope that starts at or before the line and is not at the position itself. *)
Inductive within (th : list (option Thing)) (line col : Z) : nat -> nat -> Prop :=
  | w_here a t : mjoin (th !! a) = Some t -> d_lineNr (t_tok t) <= line -> isHit t line col = true -> within th line col a a
  | w_inner a t s c b : mjoin (th !! a) = Some t -> d_lineNr (t_tok t) <= line -> isHit t line col = false ->
      scope_data (t_data t) = Some s -> c ∈ children s -> within th line col c b -> within th line col a b.

(** What is found, in the order of the list. *)
Definition found_first (P : nat -> nat -> Prop) (l : list nat) (r : option nat) : Prop :=
  match r with
  | Some b => exists l1 c l2, l = l1 ++ c :: l2 /\ P c b /\ Forall (fun c' => forall b', ~ P c' b') l1
  | None => Forall (fun c => forall b, ~ P c b) l
  end.

Lemma first_of_exact P f l : (forall c, c ∈ l -> exists r, f c = Some r /\ match r with Some b => P c b | None => forall b, ~ P c b end) ->
  exists r, first_of f l = Some r /\ found_first P l r.
Proof.
  induction l as [|a l IH]; intros H; [exists None; by split; [|constructor]|]. destruct (H a) as (r & E & Hr); [by left|]. simpl. rewrite E.
  destruct r as [b|].
  - exists (Some b). split; [done|]. exists [], a, l. by repeat constructor.
  - destruct IH as (r & E' & Hf); [intros c Hc; apply H; by right|]. exists r. split; [done|]. destruct r as [b|]; [|by constructor].
    destruct Hf as (l1 & c & l2 & -> & Hp & Hl). exists (a :: l1), c, l2. split; [done|]. split; [done|by constructor].
Qed.

Lemma find_pos_exact th line col fuel a : younger th -> is_Some (mjoin (th !! a)) -> (length th < a + fuel)%nat ->
  exists r, find_pos fuel th line col a = Some r /\ match r with Some b => within th line col a b | None => forall b, ~ within th line col a b end.
Proof.
  intros Hy. revert a. induction fuel as [|fuel IH]; intros a [t Ht] Hf.
  { destruct (th !! a) eqn:E; [|done]. apply lookup_lt_Some in E. lia. }
  simpl. rewrite Ht. simpl. destruct (Z.ltb_spec line (d_lineNr (t_tok t))) as [Hl|Hl].
  { exists None. split; [done|]. intros b H. inversion H as [a' t' Ht'|a' t' s c b' Ht']; subst; assert (t' = t) as -> by congruence; lia. }
  destruct (isHit t line col) eqn:Eh; [exists (Some a); split; [done|by eapply w_here]|].
  destruct (scope_data (t_data t)) as [s|] eqn:Es.
  2: { exists None. split; [done|]. intros b H. inversion H as [a' t' Ht'|a' t' s c b' Ht']; subst; assert (t' = t) as -> by congruence; congruence. }
  destruct (first_of_exact (within th line col) (find_pos fuel th line col) (children s)) as (r & E & Hr).
  { intros c Hc. destruct (Hy a t s c Ht Es Hc) as [Hlt Hal]. apply IH; [done|lia]. }
  exists r. split; [exact E|]. destruct r as [b|].
  - destruct Hr as (l1 & c & l2 & Ec & Hw & _). eapply w_inner; try done. rewrite Ec. apply elem_of_app. right. by left.
  - simpl in Hr. rewrite Forall_forall in Hr. intros b H. inversion H as [a' t' Ht'|a' t' s' c b' Ht' ? ? Hs' Hc Hw]; subst; assert (t' = t) as -> by congruence; [congruence|].
    assert (s' = s) as -> by congruence. by apply (Hr c Hc b).
Qed.


(** ** The files of a project *)

(** *** Things that are released *)

Fixpoint count_alive (l : list (option Thing)) : nat :=
  match l with [] => 0 | Some _ :: l => S (count_alive l) | None :: l => count_alive l end.
Definition alive (m : Module) : nat := count_alive (things m).

Lemma count_alive_le l : (count_alive l <= length l)%nat.
Proof. induction l as [|[t|] l IH]; simpl; lia. Qed.

Lemma alive_put m a t : at_addr m a = Some t -> (alive (put a None m) < alive m)%nat.
Proof.
  unfold alive, put, at_addr. simpl. generalize (things m). intros l H. revert a H.
  induction l as [|o l IH]; intros a H; [by destruct a|]. destruct a as [|a]; simpl in *.
  - destruct o; [lia|done].
  - specialize (IH a H). destruct o; lia.
Qed.

Lemma mfor_total {A} (f : A -> MM unit) l m : (forall a m', (alive m' <= alive m)%nat -> exists m2, f a m' = Some (tt, m2) /\ (alive m2 <= alive m')%nat) ->
  exists m', mfor l f m = Some (tt, m') /\ (alive m' <= alive m)%nat.
Proof.
  revert m. induction l as [|a l IH]; intros m H; [by exists m|]. destruct (H a m) as (m1 & E & Hle); [lia|].
  destruct (IH m1) as (m2 & E2 & Hle2); [intros b m' Hm'; apply H; lia|]. exists m2. simpl. unfold rbind. rewrite E.
  split; [exact E2|lia].
Qed.

Lemma release_in_total n a m : (alive m < n)%nat -> exists m', release_in n a m = Some (tt, m') /\ (alive m' <= alive m)%nat.
Proof.
  revert a m. induction n as [|n IH]; intros a m Hn; [lia|]. cbn [release_in]. unfold rbind at 1, rget, id.
  case_bool_decide; [by exists m|]. destruct (at_addr m a) as [t|] eqn:Et; [|by exists m]. pose proof (alive_put m a t Et) as Hp.
  destruct (mfor_total (release_in n) (owned t) (put a None m)) as (m' & E & Hle).
  - intros b m' Hm'. apply IH. lia.
  - exists m'. unfold rbind, rmod. split; [exact E|lia].
Qed.

Lemma release_total a m : exists m', release a m = Some (tt, m') /\ (alive m' <= alive m)%nat.
Proof.
  unfold release, rbind, rget, id. apply release_in_total. pose proof (count_alive_le (things m)). unfold alive. lia.
Qed.

Lemma release_all_total l m : exists m', release_all l m = Some (tt, m').
Proof. destruct (mfor_total release l m) as (m' & E & _); [intros a m' _; apply release_total|]. by exists m'. Qed.

(** *** What the commands mean *)

(** What is documented of settings: an entry that has been set is read, and the others are as they were. *)
Class ProjectDiskLaws `{Disk : ProjectDisk} : Prop := {
  value_set k k' v s : value k (setValue k' v s) = if decide (k = k') then Some v else value k s;
  list_back l : toStringList (Some (V_list l)) = l;
  bytes_back s : toByteArray (Some (V_bytes s)) = s;
  int_back n : toInt (Some (V_int n)) = n
}.

Section Files.
Context `{Disk : ProjectDisk} `{Laws : !ProjectDiskLaws} (depth : nat).

(** What is kept in a settings file. *)
Record Options := mkOptions { o_suffixes : list bytes; o_workingDir : bytes; o_main : bytes * bytes }.
Record Meant := mkMeant {
  m_files : list bytes;
  m_path : bytes;
  m_options : Options;
  m_dirty : bool;
  m_saved : bytes -> option (list bytes * Options)
}.

Inductive Edit : Type :=
  | E_add (path : bytes) | E_remove (path : bytes) | E_clear | E_new
  | E_dir (dir : bytes) (recursive : bool) | E_files (files : list bytes) (run : bytes) (useRequire : bool)
  | E_suffixes (s : list bytes) | E_main (m : bytes * bytes) | E_workingDir (s : bytes)
  | E_save | E_saveTo (path : bytes) | E_load (path : bytes).

Definition ignore {S A} (m : SM S A) : SM S unit := _ <~ m; rret tt.
Definition do_edit (e : Edit) : SM World unit :=
  match e with
  | E_add path => ignore (pro (addFile path))
  | E_remove path => ignore (pro (removeFile path))
  | E_clear => pro clear
  | E_new => pro createNew
  | E_dir dir r => ignore (pro (initializeFromDir depth dir r))
  | E_files l run b => ignore (pro (initializeFromFiles l run b))
  | E_suffixes s => pro (setSuffixes s)
  | E_main m => pro (setMain m)
  | E_workingDir s => pro (setWorkingDir s)
  | E_save => ignore save
  | E_saveTo path => ignore (saveTo path)
  | E_load path => ignore (loadFrom path)
  end.

Definition m_edited (l : list bytes) (o : Options) (m : Meant) : Meant := mkMeant l (m_path m) o true (m_saved m).
Definition m_opened (l : list bytes) (path : bytes) (o : Options) (d : bool) (m : Meant) : Meant := mkMeant l path o d (m_saved m).
Definition m_written (path : bytes) (m : Meant) : Meant :=
  if bool_decide (path = []) || negb (isWritable path) then mkMeant (m_files m) path (m_options m) (m_dirty m) (m_saved m)
  else mkMeant (m_files m) path (m_options m) false (fun q => if bool_decide (q = path) then Some (m_files m, m_options m) else m_saved m q).

(** A project is a list of files without duplicates, with some options. *)
Definition meant (e : Edit) (m : Meant) : Meant :=
  let '(mkOptions suf wd mp) := m_options m in
  match e with
  | E_add path => if bool_decide (path ∈ m_files m) then m else m_edited (m_files m ++ [path]) (m_options m) m
  | E_remove path =>
      if bool_decide (path ∈ m_files m) then m_edited (filter (fun q => q <> path) (m_files m)) (m_options m) m else m
  | E_clear => m_opened [] [] (m_options m) (m_dirty m) m
  | E_new => m_opened [] [] (m_options m) false m
  | E_dir dir r => m_opened (default [] (findFiles depth suf r dir)) [] (m_options m) false m
  | E_files l run _ => m_opened l [] (mkOptions suf wd ([], run)) false m
  | E_suffixes s => m_edited (m_files m) (mkOptions s wd mp) m
  | E_main mp => m_edited (m_files m) (mkOptions suf wd mp) m
  | E_workingDir s => m_edited (m_files m) (mkOptions suf s mp) m
  | E_save => if bool_decide (m_path m = []) then m else m_written (m_path m) m
  | E_saveTo path => m_written path m
  | E_load path => match m_saved m path with Some (l, o) => m_opened l path o false m | None => m end
  end.

(** Directories are not too deep, no file is given twice, and what is loaded has been saved before, with files that are still there. *)
Definition proper (e : Edit) (m : Meant) : Prop :=
  match e with
  | E_dir dir r => exists l, findFiles depth (o_suffixes (m_options m)) r dir = Some l /\ NoDup l
  | E_files l _ _ => NoDup l
  | E_load path => exists l o, m_saved m path = Some (l, o) /\ Forall (fun q => file_exists q = true) l
  | _ => True
  end.
Fixpoint proper_all (es : list Edit) (m : Meant) : Prop :=
  match es with [] => True | e :: es => proper e m /\ proper_all es (meant e m) end.

(** *** How they are kept *)

Definition options (p : Project) : Options := mkOptions (d_suffixes p) (d_workingDir p) (d_main p).

(** The hash and the order are of the files [l]. *)
Definition has_files (l : list bytes) (p : Project) : Prop := NoDup l /\ d_fileOrder p = l /\ map fst (d_files p) ≡ₚ l.

(** The settings have the files and the options. *)
Definition stored (l : list bytes) (o : Options) (s : Settings) : Prop :=
  value (K_entry (qb "Suffixes")) s = Some (V_list (o_suffixes o)) /\
  value (K_entry (qb "WorkingDir")) s = Some (V_bytes (o_workingDir o)) /\
  value (K_entry (qb "MainModule")) s = Some (V_bytes (o_main o).1) /\
  value (K_entry (qb "MainProc")) s = Some (V_bytes (o_main o).2) /\
  value (K_size (qb "Modules")) s = Some (V_int (Z.of_nat (length l))) /\
  forall i q, l !! i = Some q -> value (K_element (qb "Modules") i (qb "AbsPath")) s = Some (V_bytes q).

(** A project with these files, this path, and these options, which may have been changed. *)
Definition has (l : list bytes) (path : bytes) (o : Options) (d : bool) (p : Project) : Prop :=
  has_files l p /\ d_filePath p = path /\ options p = o /\ d_dirty p = d.

Definition keeps (m : Meant) (w : World) : Prop :=
  has (m_files m) (m_path m) (m_options m) (m_dirty m) w.1 /\
  forall q l o, m_saved m q = Some (l, o) -> NoDup l /\ stored l o (w.2 q).

Lemma of_path_None path l : of_path path l = None <-> path ∉ map fst l.
Proof.
  unfold of_path. destruct (list_find _ l) as [[i e]|] eqn:E; simpl.
  - apply list_find_Some in E as (E & He & _). split; [done|]. intros H. destruct H. rewrite <- He. apply list_elem_of_fmap_2.
    by eapply list_elem_of_lookup_2.
  - split; [|done]. intros _ H. apply list_elem_of_fmap_1 in H as (e & He & Hin). apply list_find_None in E. rewrite Forall_forall in E.
    by apply (E e).
Qed.

(** Everything but the things, the errors and the modules is as it was. *)
Definition as_before (p p' : Project) : Prop :=
  d_fileOrder p' = d_fileOrder p /\ d_filePath p' = d_filePath p /\ options p' = options p /\ d_dirty p' = d_dirty p.

Lemma as_before_trans p p1 p2 : as_before p p1 -> as_before p1 p2 -> as_before p p2.
Proof using Type. unfold as_before. intuition congruence. Qed.

Lemma wp_release_file f p : wp (release_file f) (fun _ p' => as_before p p' /\ d_files p' = d_files p) p.
Proof using Type.
  unfold wp, release_file, in_store. match goal with |- context [release_all ?l ?m] => destruct (release_all_total l m) as (m' & ->) end.
  by repeat split.
Qed.

Lemma wp_delete_files l p : wp (delete_files l) (fun _ p' => as_before p p' /\ (l = [] /\ p' = p \/ d_files p' = [])) p.
Proof using Type.
  revert p. induction l as [|[q f] l IH]; intros p; [by repeat split; left|]. cbn [delete_files]. apply wp_bind, wp_mod, wp_bind.
  eapply wp_mono; [apply wp_release_file|]. intros [] p1 [H1 E1]. eapply wp_mono; [apply IH|]. intros _ p2 [H2 E2]. split.
  - eapply as_before_trans; [|exact H2]. exact H1.
  - right. destruct E2 as [[-> ->]|]; [by rewrite E1|done].
Qed.

Lemma wp_clear p : wp clear (fun _ => has [] [] (options p) (d_dirty p)) p.
Proof using Type.
  unfold clear. apply wp_bind, wp_mod, wp_bind, wp_get, wp_bind. eapply wp_mono; [apply wp_delete_files|]. intros [] p1 [(H1 & H2 & H3 & H4) H5].
  apply wp_mod. split; [|by repeat split]. split; [constructor|]. split; [done|]. simpl.
  destruct H5 as [[E ->]|E]; simpl in *; by rewrite E.
Qed.

Lemma wp_insert l path q o d p : path ∉ l -> has l q o d p -> wp (insert_file path) (fun _ => has (l ++ [path]) q o d) p.
Proof using Type.
  intros Hn ((Hd & Ho & Hp) & H1 & H2 & H3). unfold insert_file, insert_module, append_order. apply wp_bind, wp_mod, wp_mod.
  rewrite bool_decide_eq_true_2 by (apply of_path_None; by rewrite Hp). split; [|by repeat split]. split; [|split].
  - apply NoDup_app. split; [done|]. split; [|apply NoDup_singleton]. intros r Hr Hr'. apply list_elem_of_singleton in Hr'. by subst r.
  - simpl. by rewrite Ho.
  - simpl. rewrite map_app. simpl. by rewrite Hp.
Qed.

Lemma wp_insert_all l' l q o d p : NoDup (l ++ l') -> has l q o d p -> wp (mfor l' insert_file) (fun _ => has (l ++ l') q o d) p.
Proof using Type.
  revert l p. induction l' as [|x l' IH]; intros l p Hn Hp; [by rewrite app_nil_r|]. pose proof Hn as Hn'. apply NoDup_app in Hn' as (_ & Hdis & _).
  cbn [mfor]. apply wp_bind. eapply wp_mono; [apply (wp_insert l x q o d); [intros Hx; apply (Hdis x Hx); by left|done]|]. intros [] p1 H1.
  rewrite (cons_middle x l l'), app_assoc in Hn |- *. by apply IH.
Qed.

(** A settings file after a save. *)
Lemma write_modules_other dir k l s : (forall i name, k <> K_element (qb "Modules") i name) ->
  value k (foldl (write_module dir) s (imap pair l)) = value k s.
Proof using Laws.
  intros Hk. induction l as [|x l IH] using rev_ind; [done|]. rewrite imap_app, foldl_app. cbn [imap foldl write_module].
  rewrite !value_set, !decide_False by apply Hk. exact IH.
Qed.

Lemma write_modules_at dir l s i q : l !! i = Some q ->
  value (K_element (qb "Modules") i (qb "AbsPath")) (foldl (write_module dir) s (imap pair l)) = Some (V_bytes q).
Proof using Laws.
  revert i q. induction l as [|x l IH] using rev_ind; intros i q H; [done|]. rewrite imap_app, foldl_app. simpl. rewrite !value_set.
  rewrite decide_False by (intros [= H1]; discriminate H1). destruct (decide (i = length l)) as [->|Hi].
  - rewrite lookup_app_r, Nat.sub_diag in H by lia. injection H as ->. by rewrite Nat.add_0_r, decide_True.
  - rewrite decide_False by (intros [= H1]; lia). apply IH. apply lookup_app_Some in H as [H|[H1 H2]]; [done|].
    destruct (i - length l)%nat eqn:E; [lia|done].
Qed.

(** The modules of a settings file, one after the other. *)
Lemma load_stored dir s l k : Forall (fun q => file_exists q = true) l ->
  (forall i q, l !! i = Some q -> value (K_element (qb "Modules") (k + i) (qb "AbsPath")) s = Some (V_bytes q)) ->
  mfor (seq k (length l)) (load_module dir s) = mfor l insert_file.
Proof using Laws.
  revert k. induction l as [|q l IH]; intros k He Hs; [done|]. apply Forall_cons in He as [Hq He]. cbn [length seq mfor]. f_equal.
  - unfold load_module. specialize (Hs 0%nat q eq_refl). rewrite Nat.add_0_r in Hs. by rewrite Hs, bytes_back, Hq.
  - rewrite IH; [done|done|]. intros i r Hr. rewrite <- (Hs (S i) r Hr). do 2 f_equal. lia.
Qed.

(** Commands that only change the options, or the flag. *)
Lemma has_same l q o d p p' : d_files p' = d_files p -> d_fileOrder p' = d_fileOrder p -> has l q o d p -> has l (d_filePath p') (options p') (d_dirty p') p'.
Proof using Type. intros E1 E2 [(H1 & H2 & H3) _]. split; [|done]. split; [done|]. by rewrite E1, E2. Qed.

Lemma wp_pro {A} (m : PM A) (Q : A -> World -> Prop) w : wp m (fun x p => Q x (p, w.2)) w.1 -> wp (pro m) Q w.
Proof using Type. unfold wp, pro. by destruct (m w.1) as [[x p]|]. Qed.

(** *** The commands *)

(** The files are as in [H], and the rest is what has been set. *)
Ltac same_options H := unfold has, options in *; simpl in *; repeat split; try apply H; congruence.

Lemma wp_ignore {S A} (m : SM S A) (Q : unit -> S -> Prop) s : wp m (fun _ => Q tt) s -> wp (ignore m) Q s.
Proof using Type. intros H. apply wp_bind. eapply wp_mono; [exact H|]. intros x s' Hs. by apply wp_ret. Qed.

Lemma wp_add l q o d path p : has l q o d p ->
  wp (addFile path) (fun _ p' => if bool_decide (path ∈ l) then has l q o d p' else has (l ++ [path]) q o true p') p.
Proof using Type.
  intros Hp. pose proof Hp as ((Hd & Ho & Hm) & _). unfold addFile. apply wp_bind, wp_get. unfold id. case_bool_decide as E.
  - destruct (of_path path (d_files p)) eqn:Ef; [by apply wp_ret|]. apply of_path_None in Ef. by rewrite Hm in Ef.
  - assert (of_path path (d_files p) = None) as -> by (apply of_path_None; by rewrite Hm). apply wp_bind.
    eapply wp_mono; [by apply (wp_insert l path q o d)|]. intros [] p1 (H1 & H2 & H3 & H4). apply wp_bind, wp_mod, wp_ret. by repeat split; try apply H1.
Qed.

Lemma without_keys path l : map fst (without path l) = filter (fun q => q <> path) (map fst l).
Proof using Type.
  unfold without. induction l as [|[q x] r IH]; [done|]. rewrite filter_cons. simpl. rewrite filter_cons. simpl.
  repeat case_decide; try done. simpl. by rewrite IH.
Qed.

Lemma wp_remove l q o d path p : has l q o d p ->
  wp (removeFile path) (fun _ p' => if bool_decide (path ∈ l) then has (filter (fun q => q <> path) l) q o true p' else has l q o d p') p.
Proof using Type.
  intros Hp. pose proof Hp as ((Hd & Ho & Hm) & H1 & H2 & H3). unfold removeFile. apply wp_bind, wp_get. unfold id. case_bool_decide as E.
  - destruct (of_path path (d_files p)) as [f|] eqn:Ef; [|apply of_path_None in Ef; by rewrite Hm in Ef]. apply wp_bind, wp_mod, wp_bind.
    eapply wp_mono; [apply wp_release_file|]. intros [] p1 ((F1 & F2 & F3 & F4) & F5). apply wp_bind, wp_mod, wp_bind, wp_mod, wp_ret.
    split; [|same_options F1]. split; [by apply NoDup_filter|]. split; [simpl in *; by rewrite F1, Ho|].
    simpl in *. by rewrite F5, without_keys, Hm.
  - assert (of_path path (d_files p) = None) as -> by (apply of_path_None; by rewrite Hm). by apply wp_ret.
Qed.

Lemma wp_edit_project m p e Q : has (m_files m) (m_path m) (m_options m) (m_dirty m) p -> proper e m ->
  (forall p', has (m_files (meant e m)) (m_path (meant e m)) (m_options (meant e m)) (m_dirty (meant e m)) p' -> Q p') ->
  match e with
  | E_add path => wp (addFile path) (fun _ => Q) p
  | E_remove path => wp (removeFile path) (fun _ => Q) p
  | E_clear => wp clear (fun _ => Q) p
  | E_new => wp createNew (fun _ => Q) p
  | E_dir dir r => wp (initializeFromDir depth dir r) (fun _ => Q) p
  | E_files l run b => wp (initializeFromFiles l run b) (fun _ => Q) p
  | E_suffixes s => wp (setSuffixes s) (fun _ => Q) p
  | E_main mp => wp (setMain mp) (fun _ => Q) p
  | E_workingDir s => wp (setWorkingDir s) (fun _ => Q) p
  | E_save | E_saveTo _ | E_load _ => True
  end.
Proof using Type.
  destruct m as [l q [suf wd mp] d sv]. intros Hp Hpr HQ. pose proof Hp as (Hf & H1 & H2 & H3). injection H2 as Es Ew Em.
  destruct e; cbn [meant m_options m_files m_path m_dirty m_edited m_opened proper] in *; try done.
  - eapply wp_mono; [by eapply wp_add|]. intros b p' H. apply HQ. by case_bool_decide.
  - eapply wp_mono; [by eapply wp_remove|]. intros b p' H. apply HQ. by case_bool_decide.
  - eapply wp_mono; [apply wp_clear|]. intros [] p' H. apply HQ. unfold options in H. by rewrite <- Es, <- Ew, <- Em, <- H3.
  - apply wp_bind. eapply wp_mono; [apply wp_clear|]. intros [] p' (F1 & F2 & F3 & F4). apply wp_mod, HQ.
    same_options F1.
  - destruct Hpr as (fs & Efs & Hn). simpl in Efs. rewrite Efs in HQ. apply wp_bind. eapply wp_mono; [apply wp_clear|]. intros [] p1 (F1 & F2 & F3 & F4).
    apply wp_bind, wp_mod, wp_bind, wp_get, wp_bind. apply (wp_deref _ fs).
    + unfold options, id in *. injection F3 as G1 G2 G3. simpl. by rewrite G1, Es.
    + apply wp_bind. eapply wp_mono; [apply (wp_insert_all fs [] [] (mkOptions suf wd mp) false); [done|]|].
      * same_options F1.
      * intros [] p2 F. by apply wp_ret, HQ.
  - apply wp_bind. eapply wp_mono; [apply wp_clear|]. intros [] p1 (F1 & F2 & F3 & F4). apply wp_bind, wp_mod, wp_bind.
    eapply wp_mono; [apply (wp_insert_all files [] [] (mkOptions suf wd ([], run)) false); [done|]|].
    + unfold options in *. injection F3 as G1 G2 G3. same_options F1.
    + intros [] p2 F. by apply wp_ret, HQ.
  - apply wp_bind, wp_mod, wp_mod, HQ. same_options Hf.
  - apply wp_bind, wp_mod, wp_mod, HQ. same_options Hf.
  - apply wp_bind, wp_mod, wp_mod, HQ. same_options Hf.
Qed.

Lemma wp_save m w : keeps m w -> wp save (fun _ => keeps (m_written (m_path m) m)) w.
Proof using Laws.
  destruct w as [p files]. intros [(Hf & H1 & H2 & H3) Hs]. unfold save, m_written. apply wp_bind, wp_get. unfold id. simpl in *. rewrite H1.
  case_bool_decide as Ep; [apply wp_ret; by split|]. destruct (isWritable (m_path m)) eqn:Ew; simpl; [|apply wp_ret; by split].
  apply wp_bind, wp_mod, wp_bind, wp_pro, wp_mod, wp_ret. split; [simpl; same_options Hf|]. intros q l o E. simpl in *.
  case_bool_decide; [|by apply Hs]. injection E as <- <-. destruct Hf as (Hd & Ho & Hm). split; [done|]. rewrite Ho, <- H2.
  repeat split; [..|intros i r Hr; by apply write_modules_at]; rewrite write_modules_other by done; rewrite !value_set; repeat (case_decide; try done).
Qed.

Lemma wp_load m w path l o : keeps m w -> m_saved m path = Some (l, o) -> Forall (fun q => file_exists q = true) l ->
  wp (loadFrom path) (fun _ => keeps (m_opened l path o false m)) w.
Proof using Laws.
  destruct w as [p files]. intros [(Hf & H1 & H2 & H3) Hs] Hl He. destruct (Hs path l o Hl) as (Hd & S1 & S2 & S3 & S4 & S5 & S6). simpl in *.
  unfold loadFrom. apply wp_bind, wp_pro. eapply wp_mono; [apply wp_clear|]. intros [] p1 F. simpl in *.
  apply wp_bind, wp_pro, wp_mod, wp_bind, wp_get, wp_bind, wp_pro, wp_mod, wp_bind, wp_pro. unfold id. simpl.
  rewrite S1, S2, S3, S4, S5, list_back, !bytes_back, int_back, Nat2Z.id, (load_stored _ _ l 0%nat He S6).
  eapply wp_mono; [apply (wp_insert_all l [] path o (d_dirty p1)); [done|]|].
  - destruct o as [suf wd [mo fu]], F as (F0 & _). same_options F0.
  - intros [] p2 (G0 & G1 & G2 & G3). apply wp_bind, wp_pro, wp_mod, wp_ret. split; [|done]. simpl. same_options G0.
Qed.

Definition keeps_settings (e : Edit) : Prop := match e with E_save | E_saveTo _ | E_load _ => False | _ => True end.
Lemma saved_same e m : keeps_settings e -> m_saved (meant e m) = m_saved m.
Proof using Type. destruct m as [l q [] d sv], e as [path|path| | | | | | | | | |]; try done; intros _; cbn [meant m_options m_files]; by destruct (bool_decide (path ∈ l)). Qed.

Lemma wp_do_edit e m w : proper e m -> keeps m w -> wp (do_edit e) (fun _ => keeps (meant e m)) w.
Proof using Laws.
  intros Hpr Hk. pose proof Hk as [Hp Hs].
  assert (Hq : forall p', has (m_files (meant e m)) (m_path (meant e m)) (m_options (meant e m)) (m_dirty (meant e m)) p' ->
    m_saved (meant e m) = m_saved m -> keeps (meant e m) (p', w.2)).
  { intros p' H E. split; [done|]. by rewrite E. }
  pose proof (wp_edit_project m w.1 e _ Hp Hpr (fun p' H => H)) as Hw.
  destruct e; cbn [do_edit]; try apply wp_ignore.
  all: try (apply wp_pro; eapply wp_mono; [exact Hw|]; intros x p' H; apply Hq; [exact H|by apply saved_same]).
  - replace (meant E_save m) with (m_written (m_path m) m); [by apply wp_save|]. destruct m as [? q []]. cbn [meant m_options m_path]. unfold m_written. simpl. by destruct (bool_decide (q = [])) eqn:E.
  - apply wp_bind, wp_pro, wp_mod. replace (meant (E_saveTo path) m) with (m_written path (m_opened (m_files m) path (m_options m) (m_dirty m) m)).
    + apply (wp_save (m_opened (m_files m) path (m_options m) (m_dirty m) m)). destruct Hp as (Hf & _ & H2 & H3). split; [by split|done].
    + by destruct m as [? q []].
  - destruct Hpr as (l & o & E & He). replace (meant (E_load path) m) with (m_opened l path o false m); [by apply wp_load|].
    destruct m as [? q []]. cbn [meant m_options m_saved] in *. by rewrite E.
Qed.

End Files.

(** *** Some commands *)

(** Settings are functions, paths of files are not changed, and the files are there or not. *)
#[local] Instance sample_files (there : bool) : ProjectDisk := {|
  Settings := Key -> option Setting; isWritable _ := true; setValue k v s := fun k' => if decide (k' = k) then Some v else s k'; value k s := s k;
  toStringList o := match o with Some (V_list l) => l | _ => [] end;
  toByteArray o := match o with Some (V_bytes s) => s | _ => [] end;
  toInt o := match o with Some (V_int n) => n | _ => 0 end;
  dir_of _ := []; relativeFilePath _ q := q; absoluteFilePath _ q := q; file_exists _ := there;
  subdirs _ := []; files_in _ _ := [qb "a.lua"; qb "b.lua"]; applicationDirPath := []
|}.
#[local] Instance sample_files_laws : @ProjectDiskLaws (sample_files true).
Proof. split; [|done..]. intros k k' v s. simpl. done. Qed.

Definition sample_edits : list Edit :=
  [E_dir (qb "d") false; E_add (qb "c.lua"); E_saveTo (qb "p"); E_remove (qb "b.lua"); E_suffixes [qb ".txt"]; E_new; E_load (qb "p")].
Definition nothing_meant : Meant := mkMeant [] [] (mkOptions [qb ".lua"] [] ([], [])) false (fun _ => None).


(** What the commands mean: the project is as it was saved. *)
Example sample_meant : m_files (foldl (fun m e => @meant (sample_files true) 5 e m) nothing_meant sample_edits) = [qb "a.lua"; qb "b.lua"; qb "c.lua"] /\
  o_suffixes (m_options (foldl (fun m e => @meant (sample_files true) 5 e m) nothing_meant sample_edits)) = [qb ".lua"].
Proof. split; vm_compute; reflexivity. Qed.

(** A path that is given twice is twice in the order, but has one module. *)
Remark duplicate_files :
  (fun r => (d_fileOrder (snd r), map fst (d_files (snd r)))) <$> initializeFromFiles [qb "a.lua"; qb "a.lua"] [] true new_Project =
    Some ([qb "a.lua"; qb "a.lua"], [qb "a.lua"]).
Proof. vm_compute. reflexivity. Qed.

(** A file of the settings that is not found is in the order without a module. *)
Remark missing_file_in_order :
  (fun r => (d_fileOrder (fst (snd r)), d_files (fst (snd r)))) <$>
    (_ <~ pro (addFile (qb "a.lua")); _ <~ @saveTo (sample_files false) (qb "p"); @loadFrom (sample_files false) (qb "p")) (new_Project, fun _ _ => None) =
    Some ([qb "a.lua"], []).
Proof. vm_compute. reflexivity. Qed.

(** ** A project *)

Definition younger_b (th : list (option Thing)) : bool :=
  forallb (fun '(a, o) => match t ← o; scope_data (t_data t) with
    | Some s => forallb (fun c => (a <? c)%nat && bool_decide (is_Some (mjoin (th !! c)))) (children s)
    | None => true end) (imap (fun a o => (a, o)) th).

Lemma younger_b_true th : younger_b th = true -> younger th.
Proof.
  unfold younger_b. rewrite forallb_forall. intros H a t s c Ha Hs Hc. destruct (th !! a) as [o|] eqn:Eo; [|done]. simpl in Ha. subst o.
  assert (Hin : In (a, Some t) (imap (fun a o => (a, o)) th)).
  { apply list_elem_of_In, list_elem_of_lookup. exists a. by rewrite list_lookup_imap, Eo. }
  specialize (H _ Hin). simpl in H. rewrite Hs in H. rewrite forallb_forall in H.
  apply list_elem_of_In in Hc. apply H in Hc. apply andb_true_iff in Hc as [H1 H2]. apply bool_decide_eq_true in H2. split; [|done].
  by apply Nat.ltb_lt.
Qed.

Definition sample_system : FileSystem := {| canonicalFilePath := id; file_content := sample_disk |}.
Definition sample_run : option (unit * Project) :=
  (_ <~ addFile (qb "a.lua"); _ <~ @recompile sample_system 200 2000 100; rret tt) new_Project.
Definition sample_project : Project := match sample_run with Some (_, p) => p | None => new_Project end.

(** The things at positions of the text: the name with its position. *)
Definition symbol_at (line col : Z) : option (option (bytes * Z * Z)) :=
  r ← findSymbolBySourcePos (qb "a.lua") line col sample_project;
  Some (a ← r; t ← mjoin (pr_things sample_project !! a); Some (d_val (t_tok t), d_lineNr (t_tok t), d_colNr (t_tok t))).

(** A function and a variable are found at their declarations and at their uses, and also one column behind them. *)
Example sample_symbols : (symbol_at 2 12, symbol_at 3 11, symbol_at 3 19, symbol_at 3 20, symbol_at 4 12, symbol_at 4 18, symbol_at 9 1) =
  (Some (Some (qb "f", 2, 12)), Some (Some (qb "y", 3, 11)), Some (Some (qb "a", 3, 19)), Some (Some (qb "a", 3, 19)),
   Some (Some (qb "f", 4, 12)), Some (Some (qb "print", 4, 18)), Some None).
Proof. vm_compute. reflexivity. Qed.

